(* ===== verification/_CoqProject ===== *)
-Q . S2P
Prelude.v
Text.v
Net.v
Hex.v
AsyncIo.v
Identity.v
Frame.v
Codec.v
Handshake.v
Cursor.v
EnrollmentProto.v
HostnameProto.v
Admission.v
FairQueue.v
Channels.v
BoundedQueue.v
Telemetry.v
WriterActor.v
StreamTask.v
EdgeSession.v
AgentSession.v
Tunnel.v
Authorization.v
Registry.v
AgentHandshake.v
AgentRuntime.v
LocalTarget.v
SnapshotCodec.v
SnapshotProto.v
Database.v
SnapshotRepository.v
SnapshotManifest.v
EnrollmentRepository.v
EnrollmentSafety.v
EnrollmentProgress.v
EnrollmentService.v
RateLimit.v
GenerationReload.v
CredentialBundle.v
TlsReload.v
Base64.v
SignedAccess.v
RequestHistory.v
