(* ===== verification/Prelude.v ===== *)
(** * TunnelProxy: a verification of the reverse tunnel and its control plane

    TunnelProxy exposes a service on a private machine under a public address.
    An Agent next to the service dials out to an Edge; visitors connect to the
    Edge, which opens a logical stream on the Agent's session for each of them.
    A Control Plane decides which certificate may register which agent and
    tunnel, enrolls Agents, and distributes that decision to the Edges as a
    versioned authorization snapshot.

    ** Files and the code they model (paths below [src/crates/])

    - Shared: this file (results, machine integers, list and map lemmas);
      [Text], [Net], [Hex] (the standard library's strings and addresses);
      [AsyncIo] (byte streams with chunks, faults and cancelled reads);
      [Channels] (semaphore and channel of the runtime, as interfaces);
      [Cursor], [Base64].
    - Tunnel protocol, [protocol/src]: [Frame] (wire.rs, error.rs, stream.rs,
      frame.rs), [Codec] (codec.rs), [Handshake] (handshake.rs),
      [EnrollmentProto] (enrollment.rs), [HostnameProto] (hostname.rs).
    - Multiplexed session, [edge/src/multiplex.rs], [agent/src/multiplex.rs],
      [common/src]: [FairQueue] and [BoundedQueue] (bounded_fair_queue.rs),
      [Telemetry] (multiplex_telemetry.rs), [WriterActor] (writer_actor),
      [StreamTask] (run_ingress_stream, run_local_stream), [EdgeSession]
      (run_edge_session), [AgentSession] (run_multiplexed_inner); [Tunnel]
      composes them end to end.
    - Registration: [Identity] (common/src/lib.rs, public_hostname.rs),
      [Authorization] (control-plane/src/lib.rs), [Registry] (edge/src/tls.rs,
      agent_transport.rs, the registry and router of multiplex.rs),
      [AgentHandshake] (agent/src/agent_transport.rs).
    - Agent process: [AgentRuntime] (agent/src/runtime.rs), [LocalTarget]
      (agent/src/local_target.rs).
    - Control Plane, [control-plane/src]: [SnapshotCodec], [SnapshotProto]
      (snapshot_codec.rs, snapshot_protocol.rs), [SnapshotManifest]
      (snapshot_manifest.rs), [Database] (the SQLite tables and transactions),
      [SnapshotRepository] (repository.rs), [EnrollmentRepository],
      [EnrollmentSafety], [EnrollmentProgress] (enrollment_repository.rs),
      [EnrollmentService] (enrollment_service.rs).
    - Public ingress, [edge/src]: [Admission] (admission.rs), [RateLimit]
      (http_rate_limit.rs), [RequestHistory] (request_history.rs); and
      [SignedAccess] (common/src/signed_access.rs, signed_access_reload.rs).
    - Reload of files, [common/src]: [GenerationReload], [CredentialBundle],
      [TlsReload].

    ** How code becomes definitions

    Pure functions are functions.  Fallible code returns [Result].  Integers are
    [Z] with the width written where it matters (wrapping, checked, saturating).
    Bytes and strings are lists of bytes.  A task is a machine: one state per
    await, one event per answer that completes an await, so that interleavings
    are sequences of events; [select!] may take any ready branch unless the code
    says [biased].  Blocking on the disk or the database is a run with a list of
    faults, which decide the operations that fail; a transaction that is not
    committed is rolled back.  Third-party code is a parameter: SHA-256, Ed25519,
    JSON, TLS and certificate parsing, the semaphore, the channel, the watch
    channel and the row order of a table scan.  What is used of them is a class of
    laws with an instance that satisfies it, or a named hypothesis with a witness.

    ** What the theorems show

    - End to end ([Tunnel]): the local service receives a prefix of what the
      visitor sent, and the visitor of what the service sent, whatever the
      chunking, scheduling and cancellation; the parts are the resumable decoder
      ([Codec]), the writer ([WriterActor]: order, latency, shutdown), the
      rotation of the fair queue ([FairQueue]) and the two stream tasks.
    - Sessions: heartbeats, stream identifiers, order of answers, drain.
    - Authorization: a routed session is authorized by the current snapshot
      ([Registry]); Agent and Edge agree on the outcome of a handshake; the
      publisher follows the database file whoever writes to it.
    - Enrollment: credentials and snapshot agree in every database that the
      operations of the repository reach; revocation is final under them;
      bootstrap tokens are used once; retries are idempotent; revocation and
      expiry make progress; and what the server replies is true of the snapshot
      it has published, with other processes writing to the file, importing
      snapshots included, at any time.
    - Encodings: round trips and exact characterizations of what is accepted.
    - Bounds: admission rates, table sizes, histories, delays.
    - Reload: a mixed set of credential files is never accepted, generations
      never go back, failures leave the running configuration.
    - Deviations of the code from its documentation, as lemmas on concrete runs.

    ** Fuel

    Most recursion is structural.  [Text.decimal] takes 20 digits, enough for
    every 64-bit number.  [Codec.drive] repeats a cancelled read as often as the
    reader cancels ([cancels]) and [Codec.recv_all] reads one frame more than
    were sent; [reconcile_times] is the number of ticks of its theorem.  The
    theorems about them state that these numbers suffice and that the result is
    reached.  The writer's shutdown is a step relation without fuel: its theorem
    bounds the length of every run and says that none gets stuck.

    ** Not modelled

    Argument parsing, configuration files and terminal output ([agent/src/cli.rs],
    the programs under [bin] and [examples]); log files ([process_logging.rs]);
    the metrics and health endpoints ([operations.rs] of the three processes),
    which print counters; the HTTP proxy ([edge/src/http_ingress.rs]) and the
    raw listeners ([raw_ingress.rs], [edge/src/lib.rs], [runtime.rs]), which are
    the sockets and HTTP library around the components above; TLS configuration
    ([tls.rs], [http_tls.rs]) and certificate construction
    ([certificate_issuer.rs], [agent/src/enrollment.rs]); the servers and clients
    that carry a modelled protocol over TLS, and their supervision
    ([snapshot_service.rs], [snapshot_runtime.rs], [hostname_service.rs],
    [agent/src/hostname.rs]); the cache of snapshots on the Edge's disk
    ([snapshot_cache.rs]); the catalogue of HTTPS routes ([https_route_*.rs]), a
    second authority beside the authorization snapshot, with its own codec,
    protocol, distribution and repository and the allocation of managed
    hostnames; the reachability probe ([public_reachability.rs]), whose results
    are events of [AgentRuntime]; the supervisor of several runtimes
    ([multi_runtime.rs]); the single-stream
    session of [agent_transport.rs]; the upgrade of an older database schema;
    [Display] texts and the floating-point jitter of the reconnect delay. *)

From Corelib Require Export Init.Byte.
From Stdlib Require Strings.Byte.
From Stdlib Require Export ZArith Lia.
From stdpp Require Export base tactics option gmap strings sorting list.

#[global] Open Scope Z_scope.
#[global] Set Default Goal Selector "!".

(** ** Results

    Rust's [Result<A, E>] with the error type first, so that [Result E] is a
    monad and [x ← c; k] reads like the [?] operator. *)

Inductive Result (E A : Type) : Type :=
| Ok (a : A)
| Err (e : E).
Arguments Ok {E A} a.
Arguments Err {E A} e.

#[global] Instance result_ret {E} : MRet (Result E) := λ A a, Ok a.
#[global] Instance result_bind {E} : MBind (Result E) := λ A B f m,
  match m with Ok a => f a | Err e => Err e end.
#[global] Instance result_fmap {E} : FMap (Result E) := λ A B f m,
  match m with Ok a => Ok (f a) | Err e => Err e end.

#[global] Instance result_eq_dec {E A} `{EqDecision E, EqDecision A} :
  EqDecision (Result E A).
Proof. solve_decision. Defined.

Definition is_ok {E A} (r : Result E A) : bool :=
  match r with Ok _ => true | Err _ => false end.

(** [Option::ok_or] and [Result::map_err]. *)
Definition ok_or {E A} (e : E) (o : option A) : Result E A :=
  match o with Some a => Ok a | None => Err e end.

Definition map_err {E F A} (f : E → F) (r : Result E A) : Result F A :=
  match r with Ok a => Ok a | Err e => Err (f e) end.

Section result_lemmas.
Context {E A B : Type}.

Lemma bind_Ok (m : Result E A) (f : A → Result E B) b :
  (m ≫= f) = Ok b ↔ ∃ a, m = Ok a ∧ f a = Ok b.
Proof. destruct m; naive_solver. Qed.

Lemma ok_or_Ok (e : E) (o : option A) a : ok_or e o = Ok a ↔ o = Some a.
Proof. destruct o; naive_solver. Qed.

Lemma map_err_Ok {F} (f : E → F) (r : Result E A) a :
  map_err f r = Ok a ↔ r = Ok a.
Proof. destruct r; naive_solver. Qed.

Lemma is_ok_true (r : Result E A) : is_ok r = true ↔ ∃ a, r = Ok a.
Proof. destruct r; naive_solver. Qed.
End result_lemmas.

(** Invert hypotheses about monadic computations and guards until only the
    facts about the individual steps are left. *)
Ltac inv_result :=
  repeat match goal with
  | H : (_ ≫= _) = Ok _ |- _ => apply bind_Ok in H; destruct H as (? & ? & H)
  | H : ok_or _ _ = Ok _ |- _ => apply ok_or_Ok in H
  | H : map_err _ _ = Ok _ |- _ => apply map_err_Ok in H
  | H : Ok _ = Ok _ |- _ => injection H as H
  | H : Err _ = Err _ |- _ => injection H as H
  | H : Ok _ = Err _ |- _ => discriminate H
  | H : Err _ = Ok _ |- _ => discriminate H
  | H : (if ?b then _ else _) = Ok _ |- _ => destruct b eqn:?
  end; simplify_eq.

(** ** Machine integers

    A [w]-bit unsigned integer is a [Z] in [0, 2^w). *)

Definition umax (w : Z) : Z := 2 ^ w - 1.
Definition u_range (w z : Z) : Prop := 0 ≤ z < 2 ^ w.
Definition wrap (w z : Z) : Z := z `mod` 2 ^ w.

(** [try_from] into a [w]-bit type, the checked and the saturating
    operations of the standard library. *)
Definition u_try_from (w z : Z) : option Z :=
  if (0 <=? z) && (z <? 2 ^ w) then Some z else None.
Definition checked_add (w a b : Z) : option Z :=
  if a + b <? 2 ^ w then Some (a + b) else None.
Definition checked_sub (a b : Z) : option Z :=
  if b <=? a then Some (a - b) else None.
Definition saturating_add (w a b : Z) : Z := Z.min (a + b) (umax w).
Definition saturating_sub (a b : Z) : Z := Z.max (a - b) 0.
Definition saturating_mul (w a b : Z) : Z := Z.min (a * b) (umax w).

(** The target has 64-bit [usize]. *)
Definition USIZE_BITS : Z := 64.

Definition zlen {A} (l : list A) : Z := Z.of_nat (length l).

Lemma zlen_nonneg {A} (l : list A) : 0 ≤ zlen l.
Proof. unfold zlen; lia. Qed.
Lemma zlen_app {A} (l k : list A) : zlen (l ++ k) = zlen l + zlen k.
Proof. unfold zlen; rewrite length_app; lia. Qed.
Lemma zlen_cons {A} (x : A) l : zlen (x :: l) = 1 + zlen l.
Proof. unfold zlen; cbn [length]; lia. Qed.
Lemma zlen_nil {A} : zlen (@nil A) = 0.
Proof. done. Qed.

Lemma filter_all {A} (P : A → Prop) `{∀ x, Decision (P x)} l : Forall P l → filter P l = l.
Proof. induction 1; [done|]. rewrite filter_cons_True by done. by f_equal. Qed.
Lemma filter_none {A} (P : A → Prop) `{∀ x, Decision (P x)} l :
  Forall (λ x, ¬ P x) l → filter P l = [].
Proof. induction 1; [done|]. by rewrite filter_cons_False. Qed.

(** A property that every step preserves holds along a run. *)
Lemma rtc_invariant {A} (R : A → A → Prop) (P : A → Prop) x y :
  (∀ x y, R x y → P x → P y) → rtc R x y → P x → P y.
Proof. intros HP. induction 1; eauto. Qed.

Lemma mjoin_fmap_cons {A B} (f : A → list B) x l :
  mjoin (f <$> x :: l) = f x ++ mjoin (f <$> l).
Proof. done. Qed.

Lemma wrap_small w z : u_range w z → wrap w z = z.
Proof. apply Z.mod_small. Qed.

Lemma u_try_from_Some w z y : u_try_from w z = Some y ↔ y = z ∧ u_range w z.
Proof. unfold u_try_from, u_range. case_match; naive_solver lia. Qed.
Lemma u_try_from_None w z : u_try_from w z = None ↔ ¬ u_range w z.
Proof. unfold u_try_from, u_range. case_match; naive_solver lia. Qed.
Lemma u_try_from_in w z : u_range w z → u_try_from w z = Some z.
Proof. intros; by apply u_try_from_Some. Qed.
Lemma checked_add_Some w a b c :
  checked_add w a b = Some c ↔ c = a + b ∧ a + b < 2 ^ w.
Proof. unfold checked_add. case_match; naive_solver lia. Qed.
Lemma checked_sub_Some a b c : checked_sub a b = Some c ↔ c = a - b ∧ b ≤ a.
Proof. unfold checked_sub. case_match; naive_solver lia. Qed.

Lemma checked_add_range w a b c :
  u_range w a → 0 ≤ b → checked_add w a b = Some c → u_range w c.
Proof. rewrite checked_add_Some; unfold u_range; lia. Qed.

(** ** Bytes *)

#[global] Instance byte_eq_dec : EqDecision byte := Byte.byte_eq_dec.
#[global] Program Instance byte_countable : Countable byte :=
  inj_countable Byte.to_N Byte.of_N _.
Next Obligation. intros b; apply Byte.of_to_N. Qed.

(** A Rust string or byte slice is the list of its bytes. *)
Abbreviation bytes := (list byte).
Abbreviation str := (list byte).

Definition bstr (s : string) : bytes := String.list_byte_of_string s.

Definition b2z (b : byte) : Z := Z.of_N (Byte.to_N b).
(** [z as u8]: keeps the low eight bits. *)
Definition z2b (z : Z) : byte :=
  match Byte.of_N (Z.to_N (wrap 8 z)) with Some b => b | None => x00%byte end.

Lemma b2z_range b : 0 ≤ b2z b < 256.
Proof. unfold b2z. pose proof (Byte.to_N_bounded b). lia. Qed.

Lemma z2b_b2z b : z2b (b2z b) = b.
Proof.
  unfold z2b, wrap. change (2 ^ 8) with 256.
  rewrite Z.mod_small by apply b2z_range.
  unfold b2z. by rewrite N2Z.id, Byte.of_to_N.
Qed.

Lemma b2z_z2b z : b2z (z2b z) = z `mod` 256.
Proof.
  unfold z2b, wrap. change (2 ^ 8) with 256.
  pose proof (Z.mod_pos_bound z 256 ltac:(lia)) as Hr.
  destruct (Byte.of_N _) as [b|] eqn:Hb.
  - apply Byte.to_of_N in Hb. unfold b2z. rewrite Hb. lia.
  - apply Byte.of_N_None_iff in Hb. lia.
Qed.

#[global] Instance b2z_inj : Inj (=) (=) b2z.
Proof. intros a b H. by rewrite <-(z2b_b2z a), H, z2b_b2z. Qed.

Lemma b2z_z2b_small z : 0 ≤ z < 256 → b2z (z2b z) = z.
Proof. intros. rewrite b2z_z2b. by apply Z.mod_small. Qed.

Lemma b2z_literal (n : Z) (b : byte) : b2z b = n → b = z2b n.
Proof. intros <-. by rewrite z2b_b2z. Qed.

(** [byte == lit] on bytes. *)
Definition beq (a b : byte) : bool := bool_decide (a = b).

Lemma beq_true a b : beq a b = true ↔ a = b.
Proof. apply bool_decide_eq_true. Qed.
Lemma beq_false a b : beq a b = false ↔ a ≠ b.
Proof. apply bool_decide_eq_false. Qed.

(** ** Big-endian encodings

    [to_be n z] is [to_be_bytes] of an [8 * n]-bit integer. *)

Fixpoint to_be (n : nat) (z : Z) : bytes :=
  match n with
  | O => []
  | S n' => z2b (Z.shiftr z (8 * Z.of_nat n')) :: to_be n' z
  end.

Definition from_be (l : bytes) : Z :=
  fold_left (λ acc b, acc * 256 + b2z b) l 0.

Lemma length_to_be n z : length (to_be n z) = n.
Proof. induction n; simpl; auto. Qed.

Lemma from_be_acc l acc :
  fold_left (λ acc b, acc * 256 + b2z b) l acc
  = acc * 2 ^ (8 * zlen l) + from_be l.
Proof.
  unfold from_be. revert acc. induction l as [|b l IH]; intros acc; cbn [fold_left].
  - change (zlen []) with 0. lia.
  - rewrite IH, (IH (0 * 256 + b2z b)), zlen_cons.
    replace (8 * (1 + zlen l)) with (8 + 8 * zlen l) by lia.
    rewrite Z.pow_add_r by (pose proof (zlen_nonneg l); lia).
    change (2 ^ 8) with 256. lia.
Qed.

Lemma from_be_cons b l : from_be (b :: l) = b2z b * 2 ^ (8 * zlen l) + from_be l.
Proof. unfold from_be at 1. cbn [fold_left]. rewrite from_be_acc. lia. Qed.

Lemma from_be_range l : 0 ≤ from_be l < 2 ^ (8 * zlen l).
Proof.
  induction l as [|b l IH]; [done|].
  rewrite from_be_cons, zlen_cons.
  replace (8 * (1 + zlen l)) with (8 + 8 * zlen l) by lia.
  rewrite Z.pow_add_r by (pose proof (zlen_nonneg l); lia).
  change (2 ^ 8) with 256. pose proof (b2z_range b). nia.
Qed.

Lemma from_be_to_be_mod n z : from_be (to_be n z) = z `mod` 2 ^ (8 * Z.of_nat n).
Proof.
  induction n as [|n IH]; [by rewrite Z.mod_1_r|].
  cbn [to_be]. rewrite from_be_cons, IH. unfold zlen. rewrite length_to_be.
  rewrite b2z_z2b, Z.shiftr_div_pow2 by lia.
  replace (8 * Z.of_nat (S n)) with (8 * Z.of_nat n + 8) by lia.
  rewrite Z.pow_add_r by lia. change (2 ^ 8) with 256.
  set (p := 2 ^ (8 * Z.of_nat n)).
  assert (0 < p) by (apply Z.pow_pos_nonneg; lia).
  rewrite Z.rem_mul_r by lia. lia.
Qed.

Lemma from_be_to_be n z :
  u_range (8 * Z.of_nat n) z → from_be (to_be n z) = z.
Proof. intros. rewrite from_be_to_be_mod. by apply Z.mod_small. Qed.

Lemma from_be_inj l k : length l = length k → from_be l = from_be k → l = k.
Proof.
  revert k. induction l as [|b l IH]; intros [|c k] Hlen; try discriminate; [done|].
  injection Hlen as Hlen. rewrite !from_be_cons.
  assert (zlen l = zlen k) as Hz by (unfold zlen; lia).
  rewrite Hz. intros Heq.
  pose proof (from_be_range l). pose proof (from_be_range k). rewrite Hz in *.
  assert (b2z b = b2z c) by nia.
  f_equal; [by apply (inj b2z)|]. apply IH; [done|nia].
Qed.

Lemma to_be_from_be l n : length l = n → to_be n (from_be l) = l.
Proof.
  intros Hn. apply from_be_inj; [by rewrite length_to_be|].
  apply from_be_to_be. unfold u_range. rewrite <-Hn. apply from_be_range.
Qed.

Lemma from_be_u_range l n : length l = n → u_range (8 * Z.of_nat n) (from_be l).
Proof. intros <-. apply from_be_range. Qed.

Lemma zlen_to_be n z : zlen (to_be n z) = Z.of_nat n.
Proof. unfold zlen. by rewrite length_to_be. Qed.

Lemma take_to_be n z l : take n (to_be n z ++ l) = to_be n z.
Proof. apply take_app_length'. by rewrite length_to_be. Qed.
Lemma drop_to_be n z l : drop n (to_be n z ++ l) = l.
Proof. apply drop_app_length'. by rewrite length_to_be. Qed.

(** The concrete widths of the wire formats. *)
Lemma from_be_to_be_u16 z : u_range 16 z → from_be (to_be 2 z) = z.
Proof. apply (from_be_to_be 2). Qed.
Lemma from_be_to_be_u32 z : u_range 32 z → from_be (to_be 4 z) = z.
Proof. apply (from_be_to_be 4). Qed.
Lemma from_be_to_be_u64 z : u_range 64 z → from_be (to_be 8 z) = z.
Proof. apply (from_be_to_be 8). Qed.

Create HintDb wire.
Create Rewrite HintDb wire.
#[export] Hint Rewrite @zlen_app @zlen_cons @zlen_nil zlen_to_be : wire.
#[export] Hint Rewrite length_to_be @length_app : wire.
#[export] Hint Resolve zlen_nonneg b2z_range from_be_range : wire.
