(* ===== verification/Text.v ===== *)
(** * Text: the parts of the standard library's string API the program uses

    ASCII classification and case folding, [split], prefix and suffix tests,
    UTF-8 validation ([std::str::from_utf8], [str::is_char_boundary]) and the
    address parser behind [str::parse::<IpAddr>].  A string is the list of its
    bytes, as in Rust. *)

From S2P Require Import Prelude.

(** ** ASCII classes *)

Definition in_range (lo hi : Z) (b : byte) : bool :=
  (lo <=? b2z b) && (b2z b <=? hi).

Definition is_ascii_digit : byte → bool := in_range 48 57.
Definition is_ascii_uppercase : byte → bool := in_range 65 90.
Definition is_ascii_lowercase : byte → bool := in_range 97 122.
Definition is_ascii_alphanumeric (b : byte) : bool :=
  is_ascii_digit b || is_ascii_uppercase b || is_ascii_lowercase b.
Definition is_ascii_hexdigit (b : byte) : bool :=
  is_ascii_digit b || in_range 65 70 b || in_range 97 102 b.
Definition is_ascii (b : byte) : bool := b2z b <? 128.

(** [u8::to_ascii_lowercase] sets bit 5 of an upper-case letter. *)
Definition byte_to_lower (b : byte) : byte :=
  if is_ascii_uppercase b then z2b (Z.lor (b2z b) 32) else b.
Definition to_ascii_lowercase (s : str) : str := byte_to_lower <$> s.

Lemma byte_to_lower_idemp b : byte_to_lower (byte_to_lower b) = byte_to_lower b.
Proof. by destruct b. Qed.

Lemma byte_to_lower_alnum b :
  is_ascii_alphanumeric (byte_to_lower b) = is_ascii_alphanumeric b.
Proof. by destruct b. Qed.

Lemma byte_to_lower_not_upper b : is_ascii_uppercase (byte_to_lower b) = false.
Proof. by destruct b. Qed.

Lemma byte_to_lower_id b : is_ascii_uppercase b = false → byte_to_lower b = b.
Proof. unfold byte_to_lower. by intros ->. Qed.

Lemma alnum_is_ascii b : is_ascii_alphanumeric b = true → is_ascii b = true.
Proof. by destruct b. Qed.

Lemma to_ascii_lowercase_idemp s :
  to_ascii_lowercase (to_ascii_lowercase s) = to_ascii_lowercase s.
Proof.
  unfold to_ascii_lowercase. rewrite <-list_fmap_compose.
  apply list_fmap_ext. intros; apply byte_to_lower_idemp.
Qed.

Lemma to_ascii_lowercase_id s :
  Forall (λ b, is_ascii_uppercase b = false) s → to_ascii_lowercase s = s.
Proof.
  induction 1; [done|]. cbn. f_equal; [by apply byte_to_lower_id|done].
Qed.

(** ** Decimal text

    [Display] of an unsigned integer; a 64-bit value has at most 20 digits. *)
Fixpoint decimal_digits (fuel : nat) (n : Z) (acc : str) : str :=
  match fuel with
  | O => acc
  | S fuel =>
      let acc := z2b (48 + n `mod` 10) :: acc in
      if n <? 10 then acc else decimal_digits fuel (n / 10) acc
  end.
Definition decimal (n : Z) : str := decimal_digits 20 n [].

(** ** Splitting and affixes *)

(** [str::split(sep)] on an ASCII separator: always at least one piece. *)
Fixpoint split_byte (sep : byte) (s : str) : list str :=
  match s with
  | [] => [[]]
  | b :: r =>
      if beq b sep then [] :: split_byte sep r
      else match split_byte sep r with
           | [] => [[b]]
           | p :: ps => (b :: p) :: ps
           end
  end.

(** [str::strip_suffix(c)] for one ASCII character. *)
(** [str::split_once(c)]. *)
Fixpoint split_once (c : byte) (s : str) : option (str * str) :=
  match s with
  | [] => None
  | b :: r =>
      if beq b c then Some ([], r) else '(p, q) ← split_once c r; Some (b :: p, q)
  end.

Definition strip_suffix_byte (c : byte) (s : str) : option str :=
  match reverse s with
  | b :: r => if beq b c then Some (reverse r) else None
  | [] => None
  end.

Definition starts_with_byte (c : byte) (s : str) : bool :=
  match s with b :: _ => beq b c | [] => false end.
Definition ends_with_byte (c : byte) (s : str) : bool :=
  match last s with Some b => beq b c | None => false end.
Definition contains_byte (c : byte) (s : str) : bool := existsb (λ b, beq b c) s.

Lemma split_once_Some c s p q : split_once c s = Some (p, q) ↔ s = p ++ c :: q ∧ c ∉ p.
Proof.
  revert p. induction s as [|b s IH]; intros p; cbn [split_once].
  - split; [done|]. intros [H _]. by destruct p.
  - destruct (beq b c) eqn:Hb.
    + apply beq_true in Hb as ->. split; [intros [= <- <-]; set_solver|].
      intros [H Hp]. destruct p; simplify_eq/=; [done|set_solver].
    + apply beq_false in Hb. split.
      * intros ([p' q'] & Hs & [= <- <-])%bind_Some. apply IH in Hs as [-> ?]. set_solver.
      * intros [H Hp]. destruct p as [|b' p]; simplify_eq/=.
        rewrite (proj2 (IH p)); [done|]. set_solver.
Qed.

Lemma split_byte_not_nil sep s : split_byte sep s ≠ [].
Proof. destruct s; simpl; [done|]. repeat case_match; done. Qed.

Lemma split_byte_no_sep sep s :
  Forall (λ b, b ≠ sep) s → split_byte sep s = [s].
Proof.
  induction 1 as [|b s Hb Hs IH]; [done|]. simpl.
  rewrite (proj2 (beq_false b sep)) by done. by rewrite IH.
Qed.

Lemma split_byte_app sep p s :
  Forall (λ b, b ≠ sep) p →
  split_byte sep (p ++ sep :: s) = p :: split_byte sep s.
Proof.
  induction 1 as [|b p Hb Hp IH]; simpl.
  - by rewrite (proj2 (beq_true sep sep)).
  - rewrite (proj2 (beq_false b sep)) by done. by rewrite IH.
Qed.

(** A string ending in the separator has an empty last piece. *)
Lemma split_byte_snoc_sep sep s :
  ∃ p ps, split_byte sep (s ++ [sep]) = (p :: ps) ++ [[]].
Proof.
  induction s as [|b s (p & ps & IH)]; simpl.
  - rewrite (proj2 (beq_true sep sep)) by done. by exists [], [].
  - destruct (beq b sep); rewrite IH; [by exists [], (p :: ps)|by exists (b :: p), ps].
Qed.

Lemma split_byte_pieces sep s b p :
  p ∈ split_byte sep s → b ∈ p → b ∈ s ∧ b ≠ sep.
Proof.
  revert p. induction s as [|c s IH]; intros p; simpl.
  { intros ->%list_elem_of_singleton Hb. by apply elem_of_nil in Hb. }
  destruct (beq c sep) eqn:Hc.
  - rewrite elem_of_cons. intros [->|Hp] Hb; [by apply elem_of_nil in Hb|].
    destruct (IH p Hp Hb). set_solver.
  - apply beq_false in Hc.
    destruct (split_byte sep s) as [|q qs] eqn:E; [by apply split_byte_not_nil in E|].
    rewrite elem_of_cons. intros [->|Hp] Hb.
    + apply elem_of_cons in Hb as [->|Hb]; [set_solver|].
      destruct (IH q ltac:(set_solver) Hb). set_solver.
    + destruct (IH p ltac:(set_solver) Hb). set_solver.
Qed.

(** Every byte of the string is the separator or lies in some piece. *)
Lemma split_byte_cover sep s b :
  b ∈ s → b ≠ sep → ∃ p, p ∈ split_byte sep s ∧ b ∈ p.
Proof.
  induction s as [|c s IH]; [set_solver|]. intros Hb Hne. simpl.
  destruct (beq c sep) eqn:Hc.
  - apply beq_true in Hc as ->.
    destruct IH as (p & ? & ?); [set_solver|done|]. exists p. set_solver.
  - destruct (split_byte sep s) as [|q qs] eqn:E; [by apply split_byte_not_nil in E|].
    apply elem_of_cons in Hb as [->|Hb].
    + exists (c :: q). set_solver.
    + destruct IH as (p & Hp & ?); [done|done|].
      apply elem_of_cons in Hp as [->|Hp]; [exists (c :: q)|exists p]; set_solver.
Qed.

Lemma strip_suffix_byte_Some c s t :
  strip_suffix_byte c s = Some t ↔ s = t ++ [c].
Proof.
  unfold strip_suffix_byte. split.
  - destruct (reverse s) as [|b r] eqn:E; [done|].
    destruct (beq b c) eqn:Hb; [|done]. intros [= <-].
    apply beq_true in Hb as ->.
    rewrite <-(reverse_involutive s), E, reverse_cons. done.
  - intros ->. rewrite reverse_snoc.
    rewrite (proj2 (beq_true c c)) by done. by rewrite reverse_involutive.
Qed.

Lemma strip_suffix_byte_None c s :
  strip_suffix_byte c s = None ↔ ∀ t, s ≠ t ++ [c].
Proof.
  destruct (strip_suffix_byte c s) as [t|] eqn:E.
  - apply strip_suffix_byte_Some in E. naive_solver.
  - split; [|done]. intros _ t Ht. by apply strip_suffix_byte_Some in Ht; congruence.
Qed.

Lemma contains_byte_true c s : contains_byte c s = true ↔ c ∈ s.
Proof.
  unfold contains_byte. rewrite existsb_exists. setoid_rewrite <-list_elem_of_In.
  setoid_rewrite beq_true. naive_solver.
Qed.

Lemma contains_byte_false c s : contains_byte c s = false ↔ c ∉ s.
Proof.
  rewrite <-contains_byte_true. destruct (contains_byte c s); naive_solver.
Qed.

(** ** UTF-8 *)

Definition utf8_cont : byte → bool := in_range 128 191.

(** [std::str::from_utf8] accepts exactly the well-formed sequences of the
    Unicode table (no overlong forms, no surrogates, at most U+10FFFF). *)
Fixpoint utf8_valid (s : bytes) : bool :=
  match s with
  | [] => true
  | b :: r =>
      if is_ascii b then utf8_valid r
      else if in_range 194 223 b then
        match r with c :: r => utf8_cont c && utf8_valid r | _ => false end
      else if in_range 224 239 b then
        match r with
        | c :: d :: r =>
            (if b2z b =? 224 then in_range 160 191 c
             else if b2z b =? 237 then in_range 128 159 c
             else utf8_cont c)
            && utf8_cont d && utf8_valid r
        | _ => false
        end
      else if in_range 240 244 b then
        match r with
        | c :: d :: e :: r =>
            (if b2z b =? 240 then in_range 144 191 c
             else if b2z b =? 244 then in_range 128 143 c
             else utf8_cont c)
            && utf8_cont d && utf8_cont e && utf8_valid r
        | _ => false
        end
      else false
  end.

Definition from_utf8 (s : bytes) : option str :=
  if utf8_valid s then Some s else None.

(** [str::is_char_boundary]: the end, or a byte that is not a continuation. *)
Definition is_char_boundary (s : str) (i : nat) : bool :=
  match s !! i with
  | Some b => negb (utf8_cont b)
  | None => Nat.eqb i (length s)
  end.

Lemma utf8_valid_ascii s : forallb is_ascii s = true → utf8_valid s = true.
Proof.
  induction s as [|b s IH]; simpl; [done|].
  intros [-> ?]%andb_true_iff. auto.
Qed.

Lemma from_utf8_ascii s : forallb is_ascii s = true → from_utf8 s = Some s.
Proof. intros. unfold from_utf8. by rewrite utf8_valid_ascii. Qed.

Lemma from_utf8_Some s t : from_utf8 s = Some t → t = s.
Proof. unfold from_utf8. case_match; congruence. Qed.

(** One scalar value: a lead byte and up to three continuation bytes. *)
Record utf8_char (c : bytes) : Prop := {
  utf8_char_len : (1 ≤ length c ≤ 4)%nat;
  utf8_char_lead : ∀ b, head c = Some b → utf8_cont b = false;
  utf8_char_tail : Forall (λ b, utf8_cont b = true) (tail c);
  utf8_char_valid : ∀ t, utf8_valid (c ++ t) = utf8_valid t
}.

Lemma in_range_disjoint lo hi lo' hi' b :
  in_range lo hi b = true → (hi < lo' ∨ hi' < lo) → in_range lo' hi' b = false.
Proof. unfold in_range. lia. Qed.

Ltac utf8_lead :=
  simpl; intros ? [= <-];
  unfold utf8_cont, is_ascii, in_range in *; lia.

Ltac split_and_hyps :=
  repeat match goal with
  | H : _ && _ = true |- _ => apply andb_true_iff in H as [? ?]
  end.

Lemma utf8_valid_inv s :
  utf8_valid s = true → s = [] ∨ ∃ c r, s = c ++ r ∧ utf8_char c ∧ utf8_valid r = true.
Proof.
  destruct s as [|b s]; [by left|]. intros H. right.
  cbn [utf8_valid] in H. destruct (is_ascii b) eqn:H1.
  { exists [b], s. split_and!; [done| |done]. split; simpl; try lia; [utf8_lead|done|].
    intros t. by rewrite H1. }
  destruct (in_range 194 223 b) eqn:H2.
  { destruct s as [|c r]; [done|]. split_and_hyps.
    exists [b; c], r. split_and!; [done| |done]. split; simpl; try lia; [utf8_lead|auto|].
    intros t. rewrite H1, H2. by rewrite H. }
  destruct (in_range 224 239 b) eqn:H3.
  { destruct s as [|c [|d r]]; [done|done|]. split_and_hyps.
    exists [b; c; d], r. split_and!; [done| |done].
    assert (utf8_cont c = true)
      by (unfold utf8_cont, in_range in *; repeat case_match; lia).
    split; simpl; try lia; [utf8_lead|auto|].
    intros t. rewrite H1, H2, H3. destruct (if b2z b =? 224 then _ else _); simplify_eq/=.
    repeat match goal with H : _ = true |- _ => rewrite ?H; clear H end. done. }
  destruct (in_range 240 244 b) eqn:H4; [|done].
  destruct s as [|c [|d [|e r]]]; [done..|]. split_and_hyps.
  exists [b; c; d; e], r. split_and!; [done| |done].
  assert (utf8_cont c = true)
    by (unfold utf8_cont, in_range in *; repeat case_match; lia).
  split; simpl; try lia; [utf8_lead|auto|].
  intros t. rewrite H1, H2, H3, H4. destruct (if b2z b =? 240 then _ else _); simplify_eq/=.
  repeat match goal with H : _ = true |- _ => rewrite ?H; clear H end. done.
Qed.

Lemma utf8_char_boundary c r i :
  utf8_char c → (i < length c)%nat →
  is_char_boundary (c ++ r) i = bool_decide (i = 0%nat).
Proof.
  intros [Hlen Hlead Htail _] Hi. unfold is_char_boundary.
  rewrite lookup_app_l by done.
  destruct c as [|b c]; [simpl in Hi; lia|]. destruct i as [|i]; simpl.
  - by rewrite (Hlead b).
  - simpl in Hi, Htail. destruct (lookup_lt_is_Some_2 c i ltac:(lia)) as [x Hx].
    rewrite Hx. rewrite Forall_lookup in Htail. by rewrite (Htail i x Hx).
Qed.

Lemma is_char_boundary_app c r i :
  is_char_boundary (c ++ r) (length c + i) = is_char_boundary r i.
Proof.
  unfold is_char_boundary. rewrite lookup_app_r by lia.
  replace (length c + i - length c)%nat with i by lia.
  rewrite length_app. destruct (r !! i); [done|].
  apply Bool.eq_iff_eq_true. rewrite !Nat.eqb_eq. lia.
Qed.

(** Induction over the scalar values of a valid string. *)
Lemma utf8_valid_ind (P : bytes → Prop) :
  P [] →
  (∀ c r, utf8_char c → utf8_valid r = true → P r → P (c ++ r)) →
  ∀ s, utf8_valid s = true → P s.
Proof.
  intros Hnil Hcons s. remember (length s) as n eqn:Hn. revert s Hn.
  induction n as [n IH] using lt_wf_ind. intros s Hn Hv.
  destruct (utf8_valid_inv s Hv) as [->|(c & r & -> & Hc & Hr)]; [done|].
  apply Hcons; [done..|]. apply (IH (length r)); [|done|done].
  rewrite length_app in Hn. pose proof (utf8_char_len _ Hc). lia.
Qed.

(** Cutting a valid string at a boundary leaves a valid string. *)
Lemma utf8_valid_take s :
  utf8_valid s = true →
  ∀ i, is_char_boundary s i = true → utf8_valid (take i s) = true.
Proof.
  revert s. refine (utf8_valid_ind _ _ _); [by intros [|i]|].
  intros c r Hc Hr IH i Hi. destruct (decide (i < length c)%nat) as [Hlt|Hge].
  - rewrite (utf8_char_boundary c r i Hc Hlt) in Hi.
    apply bool_decide_eq_true in Hi as ->. done.
  - replace i with (length c + (i - length c))%nat in * by lia.
    rewrite is_char_boundary_app in Hi.
    rewrite take_app_add. rewrite (utf8_char_valid _ Hc). by apply IH.
Qed.

(** Any position is at most three bytes after a boundary. *)
Lemma is_char_boundary_near s :
  utf8_valid s = true →
  ∀ i, (i ≤ length s)%nat →
  ∃ j, (i - 3 ≤ j ≤ i)%nat ∧ is_char_boundary s j = true.
Proof.
  revert s. refine (utf8_valid_ind _ _ _).
  { intros i Hi. exists 0%nat. simpl in *. split; [lia|done]. }
  intros c r Hc Hr IH i Hi. pose proof (utf8_char_len _ Hc).
  destruct (decide (i < length c)%nat) as [Hlt|Hge].
  - exists 0%nat. split; [lia|].
    rewrite (utf8_char_boundary c r 0 Hc) by lia. done.
  - destruct (IH (i - length c)%nat) as (j & Hj & Hb).
    { rewrite length_app in Hi. lia. }
    exists (length c + j)%nat. split; [lia|]. by rewrite is_char_boundary_app.
Qed.

(** ** Byte order

    [Ord] on [String] and on byte arrays compares bytes lexicographically. *)

Fixpoint bytes_leb (s t : bytes) : bool :=
  match s, t with
  | [], _ => true
  | _ :: _, [] => false
  | a :: s, b :: t =>
      if b2z a <? b2z b then true
      else if b2z b <? b2z a then false
      else bytes_leb s t
  end.

Definition bytes_le (s t : bytes) : Prop := bytes_leb s t = true.

#[global] Instance bytes_le_dec : RelDecision bytes_le.
Proof. intros s t. unfold bytes_le. apply _. Defined.

#[global] Instance bytes_le_refl : Reflexive bytes_le.
Proof.
  intros s. unfold bytes_le. induction s as [|a s IH]; simpl; [done|].
  by rewrite Z.ltb_irrefl.
Qed.

#[global] Instance bytes_le_total : Total bytes_le.
Proof.
  intros s. unfold bytes_le. induction s as [|a s IH]; intros [|b t]; simpl; auto.
  destruct (Z.ltb_spec (b2z a) (b2z b)), (Z.ltb_spec (b2z b) (b2z a)); auto; lia.
Qed.

#[global] Instance bytes_le_antisymm : AntiSymm (=) bytes_le.
Proof.
  intros s. unfold bytes_le. induction s as [|a s IH]; intros [|b t]; simpl; try done.
  destruct (Z.ltb_spec (b2z a) (b2z b)), (Z.ltb_spec (b2z b) (b2z a)); try done; try lia.
  intros. f_equal; [apply (inj b2z); lia|auto].
Qed.

#[global] Instance bytes_le_trans : Transitive bytes_le.
Proof.
  intros s. unfold bytes_le.
  induction s as [|a s IH]; intros [|b t] [|c u]; simpl; try done.
  destruct (Z.ltb_spec (b2z a) (b2z b)), (Z.ltb_spec (b2z b) (b2z a)),
    (Z.ltb_spec (b2z b) (b2z c)), (Z.ltb_spec (b2z c) (b2z b)),
    (Z.ltb_spec (b2z a) (b2z c)), (Z.ltb_spec (b2z c) (b2z a));
    try done; try lia. apply IH.
Qed.

(** ** IP addresses

    [core::net::parser]: each function consumes a prefix of the input and
    returns what is left; [None] leaves the caller's input untouched
    ([read_atomically]). *)
Module IpParser.

Definition to_digit (radix : Z) (b : byte) : option Z :=
  let d := if is_ascii_digit b then b2z b - 48
           else if in_range 97 122 b then b2z b - 87
           else if in_range 65 90 b then b2z b - 55
           else 255 in
  if d <? radix then Some d else None.

(** The digit loop: stops at the first non-digit, fails past [max_digits]. *)
Fixpoint read_digits (radix max_digits : Z) (s : str) (acc count : Z)
    : option (Z * Z * str) :=
  match s with
  | [] => Some (acc, count, [])
  | b :: r =>
      match to_digit radix b with
      | None => Some (acc, count, s)
      | Some d =>
          if max_digits <? count + 1 then None
          else read_digits radix max_digits r (acc * radix + d) (count + 1)
      end
  end.

Definition read_number (radix max_digits width : Z) (allow_zero_prefix : bool)
    (s : str) : option (Z * str) :=
  '(v, count, rest) ← read_digits radix max_digits s 0 0;
  if count =? 0 then None
  else if negb allow_zero_prefix && starts_with_byte "0"%byte s && (1 <? count)
  then None
  else v' ← u_try_from width v; Some (v', rest).

Definition read_given_char (c : byte) (s : str) : option str :=
  match s with b :: r => if beq b c then Some r else None | [] => None end.

(** [read_separator]: the separator is only expected after the first item. *)
Definition read_separator {A} (sep : byte) (index : nat)
    (inner : str → option (A * str)) (s : str) : option (A * str) :=
  match index with
  | O => inner s
  | S _ => r ← read_given_char sep s; inner r
  end.

Definition read_octet (i : nat) (s : str) : option (Z * str) :=
  read_separator "."%byte i (read_number 10 3 8 false) s.

Definition read_ipv4_addr (s : str) : option (list Z * str) :=
  '(a, s) ← read_octet 0 s;
  '(b, s) ← read_octet 1 s;
  '(c, s) ← read_octet 2 s;
  '(d, s) ← read_octet 3 s;
  Some ([a; b; c; d], s).

(** [read_groups]: how many 16-bit groups were read, whether the last two came
    from an embedded IPv4 address, and the rest of the input.  [n] counts the
    slots left, [i] the slots filled. *)
Fixpoint read_groups (n i : nat) (s : str) : nat * bool * str :=
  match n with
  | O => (i, false, s)
  | S n' =>
      let v4 := match n' with
                | O => None
                | S _ => read_separator ":"%byte i read_ipv4_addr s
                end in
      match v4 with
      | Some (_, r) => (i + 2, true, r)%nat
      | None =>
          match read_separator ":"%byte i (read_number 16 4 16 true) s with
          | Some (_, r) => read_groups n' (S i) r
          | None => (i, false, s)
          end
      end
  end.

Definition read_ipv6_addr (s : str) : option str :=
  let '(head_size, head_ipv4, r) := read_groups 8 0 s in
  if Nat.eqb head_size 8 then Some r
  else if (head_ipv4 : bool) then None
  else r ← read_given_char ":"%byte r;
       r ← read_given_char ":"%byte r;
       let '(_, _, r) := read_groups (8 - (head_size + 1)) 0 r in
       Some r.

(** [value.parse::<IpAddr>().is_ok()]: the whole input must be consumed. *)
Definition parses_as_ip (s : str) : bool :=
  match read_ipv4_addr s with
  | Some (_, rest) => bool_decide (rest = [])
  | None =>
      match read_ipv6_addr s with
      | Some rest => bool_decide (rest = [])
      | None => false
      end
  end.

Example ip_v4_parses :
  parses_as_ip (bstr "127.0.0.1") = true ∧
  parses_as_ip (bstr "127.0.0.01") = false ∧
  parses_as_ip (bstr "256.0.0.1") = false ∧
  parses_as_ip (bstr "1.2.3") = false.
Proof. by vm_compute. Qed.

Example ip_v6_parses :
  parses_as_ip (bstr "::1") = true ∧
  parses_as_ip (bstr "fe80::1:2") = true ∧
  parses_as_ip (bstr "::ffff:10.0.0.1") = true ∧
  parses_as_ip (bstr "1:2:3:4:5:6:7:8") = true ∧
  parses_as_ip (bstr "1:2:3:4:5:6:7:8:9") = false ∧
  parses_as_ip (bstr "example.com:443") = false.
Proof. by vm_compute. Qed.

(** An address starts with a hexadecimal digit or a colon. *)
Lemma parses_as_ip_head b s :
  to_digit 16 b = None → b ≠ ":"%byte → parses_as_ip (b :: s) = false.
Proof.
  intros Hd Hc.
  assert (to_digit 10 b = None) as Hd10.
  { revert Hd. unfold to_digit. repeat case_match; simplify_eq/=; lia || done. }
  assert (read_ipv4_addr (b :: s) = None) as H4.
  { unfold read_ipv4_addr, read_octet, read_separator, read_number.
    cbn [read_digits]. rewrite Hd10. done. }
  unfold parses_as_ip. rewrite H4.
  assert (read_ipv6_addr (b :: s) = None) as ->; [|done].
  unfold read_ipv6_addr. cbn [read_groups read_separator].
  rewrite H4. unfold read_number. cbn [read_digits]. rewrite Hd. cbn.
  by rewrite (proj2 (beq_false b ":"%byte)).
Qed.

End IpParser.
