(* ===== verification/Net.v ===== *)
(** * Net: network addresses

    The part of [std::net] the ingress components use. *)

From S2P Require Import Prelude.

(** [IpAddr], by family and address bits. *)
Inductive IpAddr : Type := V4 (bits : Z) | V6 (bits : Z).

#[global] Instance IpAddr_eq_dec : EqDecision IpAddr.
Proof. solve_decision. Defined.
#[global] Program Instance IpAddr_countable : Countable IpAddr :=
  inj_countable' (λ a, match a with V4 b => inl b | V6 b => inr b end)
    (λ s, match s with inl b => V4 b | inr b => V6 b end) _.
Next Obligation. by intros []. Qed.

(** [SocketAddr]: an address and a port. *)
Record SocketAddr : Type := MkSocketAddr { sa_ip : IpAddr; sa_port : Z }.

#[global] Instance SocketAddr_eq_dec : EqDecision SocketAddr.
Proof. solve_decision. Defined.
