(* ===== verification/Hex.v ===== *)
(** * Hex: two-digit hexadecimal text

    The digests of reload manifests and snapshot manifests are read with
    [u8::from_str_radix(&value[2*i..2*i+2], 16)] after a check that every byte
    is a hexadecimal digit, and written with [{byte:02x}]. *)

From S2P Require Import Prelude Text.

(** One digit as [{:x}] prints it. *)
Definition hex_digit (n : Z) : byte := if n <? 10 then z2b (48 + n) else z2b (87 + n).

Definition hex_lower (bs : bytes) : str :=
  bs ≫= λ b, [hex_digit (Z.shiftr (b2z b) 4); hex_digit (Z.land (b2z b) 15)].

(** The value of a digit of either case; [from_str_radix] of two digits cannot overflow. *)
Definition hex_value (b : byte) : option Z := IpParser.to_digit 16 b.
Definition from_hex_pair (hi lo : byte) : option byte :=
  h ← hex_value hi; l ← hex_value lo; Some (z2b (h * 16 + l)).

(** The two-byte slices in order. *)
Fixpoint from_hex_pairs (s : str) : option bytes :=
  match s with
  | [] => Some []
  | hi :: lo :: s => b ← from_hex_pair hi lo; r ← from_hex_pairs s; Some (b :: r)
  | [_] => None
  end.

(** The check and the loop that both readers of 32-byte digests share. *)
Definition decode_hex32 {E} (invalid : E) (value : str) : Result E bytes :=
  if negb (zlen value =? 64) || negb (forallb is_ascii_hexdigit value) then Err invalid
  else ok_or invalid (from_hex_pairs value).

Lemma all_bytes (P : byte → bool) :
  forallb (λ n, P (z2b n)) (seqZ 0 256) = true → ∀ b, P b = true.
Proof.
  intros H b. rewrite forallb_forall in H. rewrite <-(z2b_b2z b). apply H.
  apply list_elem_of_In, elem_of_seqZ. pose proof (b2z_range b). lia.
Qed.

Lemma all_bytes_prop (P : byte → Prop) `{∀ b, Decision (P b)} :
  forallb (λ n, bool_decide (P (z2b n))) (seqZ 0 256) = true → ∀ b, P b.
Proof.
  intros Hall b. pose proof (all_bytes (λ b, bool_decide (P b)) Hall b) as Hb.
  by apply bool_decide_eq_true in Hb.
Qed.

Lemma from_hex_pair_lower b :
  from_hex_pair (hex_digit (Z.shiftr (b2z b) 4)) (hex_digit (Z.land (b2z b) 15)) = Some b.
Proof.
  revert b. apply (all_bytes_prop (λ b, from_hex_pair (hex_digit (Z.shiftr (b2z b) 4))
    (hex_digit (Z.land (b2z b) 15)) = Some b)). vm_compute. reflexivity.
Qed.

Lemma hex_lower_cons b bs :
  hex_lower (b :: bs) = hex_digit (Z.shiftr (b2z b) 4) :: hex_digit (Z.land (b2z b) 15) :: hex_lower bs.
Proof. done. Qed.

Lemma from_hex_pairs_lower bs : from_hex_pairs (hex_lower bs) = Some bs.
Proof.
  induction bs as [|b bs IH]; [done|]. rewrite hex_lower_cons.
  cbn [from_hex_pairs]. by rewrite from_hex_pair_lower, IH.
Qed.

Lemma hex_digits_are_hex b :
  is_ascii_hexdigit (hex_digit (Z.shiftr (b2z b) 4))
    && is_ascii_hexdigit (hex_digit (Z.land (b2z b) 15)) = true.
Proof.
  revert b. apply (all_bytes (λ b, is_ascii_hexdigit (hex_digit (Z.shiftr (b2z b) 4))
    && is_ascii_hexdigit (hex_digit (Z.land (b2z b) 15)))). vm_compute. reflexivity.
Qed.

Lemma hex_lower_digits bs : forallb is_ascii_hexdigit (hex_lower bs) = true.
Proof.
  induction bs as [|b bs IH]; [done|]. rewrite hex_lower_cons. cbn [forallb].
  pose proof (hex_digits_are_hex b) as [-> ->]%andb_true_iff. exact IH.
Qed.

Lemma length_hex_lower bs : length (hex_lower bs) = (2 * length bs)%nat.
Proof. induction bs as [|b bs IH]; [done|]. rewrite hex_lower_cons. cbn [length]. lia. Qed.

(** A digit of either case, printed in lower case. *)
Lemma hex_value_lower b v : hex_value b = Some v → hex_digit v = byte_to_lower b ∧ 0 ≤ v < 16.
Proof.
  assert (∀ b, match hex_value b with
    | Some v => bool_decide (hex_digit v = byte_to_lower b ∧ 0 ≤ v ∧ v < 16)
    | None => true end = true) as H.
  { apply (all_bytes (λ b, match hex_value b with
      | Some v => bool_decide (hex_digit v = byte_to_lower b ∧ 0 ≤ v ∧ v < 16)
      | None => true end)). vm_compute. reflexivity. }
  intros Hv. specialize (H b). rewrite Hv in H. by apply bool_decide_eq_true in H.
Qed.

Lemma from_hex_pair_inv hi lo b :
  from_hex_pair hi lo = Some b →
  hex_digit (Z.shiftr (b2z b) 4) = byte_to_lower hi ∧ hex_digit (Z.land (b2z b) 15) = byte_to_lower lo.
Proof.
  unfold from_hex_pair. intros (h & Hh & (l & Hl & [= <-])%bind_Some)%bind_Some.
  apply hex_value_lower in Hh as [<- ?], Hl as [<- ?].
  rewrite b2z_z2b_small by lia. rewrite Z.shiftr_div_pow2 by lia.
  change 15 with (Z.ones 4). rewrite Z.land_ones by lia. change (2 ^ 4) with 16.
  rewrite Z.add_comm, Z.div_add, Z.mod_add by lia.
  rewrite Z.div_small, Z.mod_small by lia. by rewrite Z.add_0_l.
Qed.

Lemma from_hex_pairs_inv n s bs :
  (length s ≤ n)%nat → from_hex_pairs s = Some bs → hex_lower bs = to_ascii_lowercase s.
Proof.
  revert s bs. induction n as [|n IH]; intros [|hi [|lo s]] bs Hn H; cbn [length] in Hn; try lia;
    cbn [from_hex_pairs] in H; try (by simplify_eq).
  apply bind_Some in H as (b & Hb & (r & Hr & [= <-])%bind_Some).
  apply from_hex_pair_inv in Hb as [Hh Hl]. rewrite hex_lower_cons, Hh, Hl.
  unfold to_ascii_lowercase. rewrite !fmap_cons. do 2 f_equal. apply IH; [lia|done].
Qed.

Lemma from_hex_pairs_total n s :
  (length s ≤ n)%nat → Nat.Even (length s) → forallb is_ascii_hexdigit s = true →
  is_Some (from_hex_pairs s).
Proof.
  revert s. induction n as [|n IH]; intros [|hi [|lo s]] Hn He Hs; cbn [length] in *; try lia;
    cbn [from_hex_pairs]; try (by eauto).
  { destruct He; lia. }
  cbn [forallb] in Hs. apply andb_true_iff in Hs as [Hhi [Hlo Hs]%andb_true_iff].
  assert (∀ b, is_ascii_hexdigit b = true → is_Some (hex_value b)) as Hv.
  { apply (all_bytes_prop (λ b, is_ascii_hexdigit b = true → is_Some (hex_value b))).
    vm_compute. reflexivity. }
  destruct (Hv hi Hhi) as [h Hh], (Hv lo Hlo) as [l Hl].
  unfold from_hex_pair. rewrite Hh, Hl. cbn [mbind option_bind].
  destruct (IH s) as [r Hr]; [lia| |done|].
  - destruct He as [k ?]. exists (k - 1)%nat. lia.
  - rewrite Hr. by eexists.
Qed.

(** The reader accepts exactly the 64-digit texts, and what it returns is the
    digest whose lower-case text is the lower-cased input. *)
Lemma decode_hex32_Ok {E} (e : E) s d :
  decode_hex32 e s = Ok d ↔
  length d = 32%nat ∧ to_ascii_lowercase s = hex_lower d.
Proof.
  unfold decode_hex32. split.
  - intros H. inv_result. apply orb_false_iff in Heqb as [Hl%negb_false_iff%Z.eqb_eq _].
    apply (from_hex_pairs_inv _ _ _ (le_n _)) in H. split; [|done].
    apply (f_equal length) in H. unfold to_ascii_lowercase in H.
    rewrite length_hex_lower, length_fmap in H. unfold zlen in Hl. lia.
  - intros [Hd Hs].
    assert (length s = 64%nat) as Hl.
    { apply (f_equal length) in Hs. unfold to_ascii_lowercase in Hs.
      rewrite length_hex_lower, length_fmap in Hs. lia. }
    assert (forallb is_ascii_hexdigit s = true) as Hx.
    { pose proof (hex_lower_digits d) as H. rewrite <-Hs in H. clear -H.
      induction s as [|b s IH]; [done|]. unfold to_ascii_lowercase in *. rewrite fmap_cons in H.
      cbn [forallb] in *. apply andb_true_iff in H as [Hb H]. rewrite IH by done.
      rewrite andb_true_r. revert b Hb. apply (all_bytes_prop (λ b,
        is_ascii_hexdigit (byte_to_lower b) = true → is_ascii_hexdigit b = true)).
      vm_compute. reflexivity. }
    unfold zlen. rewrite Hl, Hx. cbn [negb orb Z.eqb].
    destruct (from_hex_pairs_total 64 s) as [bs Hbs]; [lia|exists 32%nat; lia|done|].
    change (negb (Z.of_nat 64 =? 64)) with false. cbn [orb]. rewrite Hbs. cbn [ok_or]. f_equal.
    apply (from_hex_pairs_inv 64) in Hbs; [|lia]. rewrite Hs in Hbs.
    apply (f_equal from_hex_pairs) in Hbs. rewrite !from_hex_pairs_lower in Hbs. congruence.
Qed.

Lemma hex_lower_lowercase d : to_ascii_lowercase (hex_lower d) = hex_lower d.
Proof.
  induction d as [|b d IH]; [done|]. rewrite hex_lower_cons.
  unfold to_ascii_lowercase in *. rewrite !fmap_cons, IH. f_equal; [|f_equal]; revert b.
  - apply (all_bytes_prop (λ b, byte_to_lower (hex_digit (Z.shiftr (b2z b) 4))
      = hex_digit (Z.shiftr (b2z b) 4))). vm_compute. reflexivity.
  - apply (all_bytes_prop (λ b, byte_to_lower (hex_digit (Z.land (b2z b) 15))
      = hex_digit (Z.land (b2z b) 15))). vm_compute. reflexivity.
Qed.

Lemma decode_hex32_lower {E} (e : E) d :
  length d = 32%nat → decode_hex32 e (hex_lower d) = Ok d.
Proof. intros. apply decode_hex32_Ok. split; [done|]. apply hex_lower_lowercase. Qed.

Lemma hex_lower_inj a b : hex_lower a = hex_lower b → a = b.
Proof. intros H%(f_equal from_hex_pairs). rewrite !from_hex_pairs_lower in H. congruence. Qed.
