(* ===== verification/AsyncIo.v ===== *)
(** * AsyncIo: the byte streams the codecs read from and write to

    A reader is the list of what its successive polls deliver; the end of the
    list is end of file.  [Cancel] stands for a [tokio::select!] in which
    another branch wins while the read is pending: the reading future is
    dropped.  A writer accepts bytes until an optional fault. *)

From S2P Require Import Prelude.

(** The [std::io::ErrorKind]s the sources tell apart; the end of a read has its
    own constructor below. *)
Inductive ErrorKind : Type :=
| KindNotFound
| KindConnectionRefused
| KindConnectionReset
| KindConnectionAborted
| KindNotConnected
| KindBrokenPipe
| KindInvalidData
| KindTimedOut
| KindOther.

#[global] Instance ErrorKind_eq_dec : EqDecision ErrorKind.
Proof. solve_decision. Defined.

(** [std::io::Error], by kind. *)
Inductive io_error : Type :=
| UnexpectedEof
| IoFailed (kind : ErrorKind).

#[global] Instance io_error_eq_dec : EqDecision io_error.
Proof. solve_decision. Defined.

(** ** Readers *)

Inductive read_event : Type :=
| Data (bs : bytes)
| ReadErr (e : io_error)
| Cancel.

Abbreviation reader := (list read_event).

(** What one call of [read] with room for [cap] bytes produces. *)
Inductive read_poll : Type :=
| Ready (r : Result io_error bytes)
| Cancelled.

(** Bytes a read had no room for stay in front of the stream. *)
Definition push_back (bs : bytes) (r : reader) : reader :=
  match bs with [] => r | _ => Data bs :: r end.

Definition read (cap : nat) (r : reader) : read_poll * reader :=
  match r with
  | [] => (Ready (Ok []), [])
  | Data bs :: r => (Ready (Ok (take cap bs)), push_back (drop cap bs) r)
  | ReadErr e :: r => (Ready (Err e), r)
  | Cancel :: r => (Cancelled, r)
  end.

(** Writing [bs] into [buf] at offset [off]. *)
Definition splice (buf : bytes) (off : nat) (bs : bytes) : bytes :=
  take off buf ++ bs ++ drop (off + length bs) buf.

Inductive fill_stop : Type :=
| Filled
| FillEof
| FillErr (e : io_error)
| FillCancelled.

(** [while off < buf.len() { n = reader.read(&mut buf[off..])?; ... }]: the
    loop both decoders and [read_exact] run.  It recurses on the events: a
    read that leaves bytes behind has filled the buffer. *)
Fixpoint fill (r : reader) (buf : bytes) (off : nat)
    : fill_stop * bytes * nat * reader :=
  if Nat.ltb off (length buf) then
    match r with
    | [] => (FillEof, buf, off, [])
    | ReadErr e :: r' => (FillErr e, buf, off, r')
    | Cancel :: r' => (FillCancelled, buf, off, r')
    | Data bs :: r' =>
        let cap := (length buf - off)%nat in
        match bs with
        | [] => (FillEof, buf, off, r')
        | _ =>
            if Nat.ltb (length bs) cap
            then fill r' (splice buf off bs) (off + length bs)
            else (Filled, splice buf off (take cap bs), length buf,
                  push_back (drop cap bs) r')
        end
    end
  else (Filled, buf, off, r).

Lemma length_splice buf off bs :
  (off + length bs ≤ length buf)%nat → length (splice buf off bs) = length buf.
Proof.
  intros. unfold splice. rewrite !length_app, length_take, length_drop. lia.
Qed.

Lemma take_splice buf off bs :
  (off ≤ length buf)%nat →
  take (off + length bs) (splice buf off bs) = take off buf ++ bs.
Proof.
  intros. unfold splice. rewrite app_assoc.
  rewrite take_app_le, take_ge; rewrite ?length_app, ?length_take; try done; lia.
Qed.

(** One turn of the loop: [fill] is the iteration of [read]. *)
Lemma fill_unfold r buf off :
  fill r buf off =
    if Nat.ltb off (length buf) then
      match read (length buf - off) r with
      | (Cancelled, r') => (FillCancelled, buf, off, r')
      | (Ready (Err e), r') => (FillErr e, buf, off, r')
      | (Ready (Ok []), r') => (FillEof, buf, off, r')
      | (Ready (Ok got), r') => fill r' (splice buf off got) (off + length got)
      end
    else (Filled, buf, off, r).
Proof.
  destruct r as [|[bs|e|] r]; cbn [fill read]; destruct (Nat.ltb off (length buf)) eqn:Hlt;
    try done.
  apply Nat.ltb_lt in Hlt.
  destruct bs as [|b bs].
  { rewrite take_nil, drop_nil. done. }
  destruct (take (length buf - off) (b :: bs)) as [|x got] eqn:Hgot.
  { apply (f_equal length) in Hgot. rewrite length_take in Hgot. simpl in *. lia. }
  rewrite <-Hgot. destruct (Nat.ltb_spec (length (b :: bs)) (length buf - off)).
  - rewrite take_ge, drop_ge by lia. done.
  - rewrite length_take_le by lia.
    assert (length (splice buf off (take (length buf - off) (b :: bs))) = length buf)
      as Hl by (apply length_splice; rewrite length_take; lia).
    destruct (push_back _ r); cbn [fill]; rewrite Hl;
      replace (off + (length buf - off))%nat with (length buf) by lia;
      by rewrite Nat.ltb_irrefl.
Qed.

(** ** Clean streams: data arrives in non-empty chunks, no I/O error *)

Definition clean_event (e : read_event) : Prop :=
  match e with Data bs => bs ≠ [] | ReadErr _ => False | Cancel => True end.
Definition clean (r : reader) : Prop := Forall clean_event r.

Definition event_bytes (e : read_event) : bytes :=
  match e with Data bs => bs | _ => [] end.
Definition bytes_of (r : reader) : bytes := r ≫= event_bytes.

Fixpoint cancels (r : reader) : nat :=
  match r with
  | [] => 0
  | Cancel :: r' => S (cancels r')
  | _ :: r' => cancels r'
  end.

Lemma bytes_of_push_back bs r : bytes_of (push_back bs r) = bs ++ bytes_of r.
Proof. by destruct bs. Qed.

Lemma clean_push_back bs r : clean r → clean (push_back bs r).
Proof. destruct bs; [done|]. by constructor. Qed.

Lemma cancels_push_back bs r : cancels (push_back bs r) = cancels r.
Proof. by destruct bs. Qed.

(** On a clean stream the loop neither loses nor invents bytes, and stops
    early only at the end of the stream or at a cancellation. *)
Record fill_post (r : reader) (buf : bytes) (off : nat)
    (stop : fill_stop) (buf' : bytes) (off' : nat) (r' : reader) : Prop := {
  fill_len : length buf' = length buf;
  fill_off : (off ≤ off' ≤ length buf)%nat;
  fill_bytes : take off buf ++ bytes_of r = take off' buf' ++ bytes_of r';
  fill_clean : clean r';
  fill_filled : stop = Filled → off' = length buf;
  fill_eof : stop = FillEof → r' = [] ∧ (off' < length buf)%nat;
  fill_cancel : stop = FillCancelled → cancels r = S (cancels r') ∧ (off' < length buf)%nat;
  fill_keep : stop ≠ FillCancelled → cancels r' = cancels r;
  fill_no_err : ∀ e, stop ≠ FillErr e
}.

Lemma fill_spec r buf off stop buf' off' r' :
  clean r → (off ≤ length buf)%nat →
  fill r buf off = (stop, buf', off', r') →
  fill_post r buf off stop buf' off' r'.
Proof.
  revert buf off. induction r as [|ev r IH]; intros buf off Hclean Hoff.
  { cbn [fill]. destruct (Nat.ltb_spec off (length buf)); intros ?; simplify_eq;
      split; try done; try lia; naive_solver lia. }
  apply Forall_cons in Hclean as [Hev Hclean].
  destruct ev as [bs|e|]; cbn [fill]; destruct (Nat.ltb_spec off (length buf)) as [Hlt|Hge];
    try by (intros ?; simplify_eq; split; try done; try lia;
            first [by constructor | naive_solver lia]).
  - destruct bs as [|b bs]; [done|].
    destruct (Nat.ltb_spec (length (b :: bs)) (length buf - off)) as [Hfit|Hfull].
    + set (l := b :: bs) in *. intros Hf.
      assert (length (splice buf off l) = length buf) as Hl
        by (apply length_splice; lia).
      apply IH in Hf as [H1 H2 H3 H4 H5 H6 H7 H8 H9]; [|done|rewrite Hl; lia].
      rewrite Hl in *. rewrite take_splice in H3 by lia.
      split; [exact H1|lia| |exact H4|exact H5|exact H6|exact H7|exact H8|exact H9].
      rewrite <-H3. by rewrite <-app_assoc.
    + intros ?; simplify_eq. set (l := b :: bs) in *.
      assert (length (take (length buf - off) l) = length buf - off)%nat as Hl
        by (rewrite length_take; lia).
      split; try done; try lia.
      * rewrite length_splice; lia.
      * rewrite bytes_of_push_back.
        replace (length buf) with (off + length (take (length buf - off) l))%nat at 1 by lia.
        rewrite take_splice by lia. rewrite <-app_assoc, (app_assoc _ _ (bytes_of r)).
        by rewrite take_drop.
      * by apply clean_push_back.
      * intros _. by rewrite cancels_push_back.
Qed.

(** ** Message readers

    A computation that awaits reads: it finishes with a result, or it is
    dropped at a pending read ([None]). *)
Definition IoM (E A : Type) : Type := reader → option (Result E A) * reader.

#[global] Instance IoM_ret {E} : MRet (IoM E) := λ A a r, (Some (Ok a), r).
#[global] Instance IoM_bind {E} : MBind (IoM E) := λ A B f m r,
  match m r with
  | (Some (Ok a), r') => f a r'
  | (Some (Err e), r') => (Some (Err e), r')
  | (None, r') => (None, r')
  end.

Definition io_lift {E A} (x : Result E A) : IoM E A := λ r, (Some x, r).

(** [reader.read(&mut buf[..cap])]. *)
Definition io_read {E} (wrap_err : io_error → E) (cap : nat) : IoM E bytes := λ r,
  match read cap r with
  | (Ready x, r') => (Some (map_err wrap_err x), r')
  | (Cancelled, r') => (None, r')
  end.

(** [reader.read_exact(&mut buf)] with [buf.len() = n]. *)
Definition io_read_exact {E} (wrap_err : io_error → E) (n : nat) : IoM E bytes := λ r,
  match fill r (replicate n x00%byte) 0 with
  | (Filled, buf, _, r') => (Some (Ok buf), r')
  | (FillEof, _, _, r') => (Some (Err (wrap_err UnexpectedEof)), r')
  | (FillErr e, _, _, r') => (Some (Err (wrap_err e)), r')
  | (FillCancelled, _, _, r') => (None, r')
  end.

(** An undisturbed stream: clean and never cancelled. *)
Definition steady (r : reader) : Prop := clean r ∧ cancels r = 0%nat.

Lemma steady_nil : steady [].
Proof. split; [constructor|done]. Qed.

Lemma steady_push_back bs r : steady r → steady (push_back bs r).
Proof. intros [? ?]. split; [by apply clean_push_back|by rewrite cancels_push_back]. Qed.

Lemma steady_cons ev r : steady (ev :: r) → (∃ b bs, ev = Data (b :: bs)) ∧ steady r.
Proof.
  intros [[Hev Hr]%Forall_cons Hc]. destruct ev as [[|b bs]|e|]; try done.
  split; [by eauto|done].
Qed.

(** On an undisturbed stream a sufficient prefix is read whatever the chunks. *)
Lemma io_read_exact_enough {E} (f : io_error → E) n r bs rest :
  steady r → bytes_of r = bs ++ rest → length bs = n →
  ∃ r', io_read_exact f n r = (Some (Ok bs), r') ∧ steady r' ∧ bytes_of r' = rest.
Proof.
  intros [Hclean Hc] Hb Hn. unfold io_read_exact.
  destruct (fill r (replicate n x00%byte) 0) as [[[stop buf] off] r'] eqn:Hf.
  apply fill_spec in Hf as [H1 H2 H3 H4 H5 H6 H7 H8 H9]; [|done|lia].
  rewrite length_replicate in *. rewrite take_0 in H3. simpl in H3.
  destruct stop.
  - rewrite H5, take_ge in H3 by (done || lia).
    rewrite Hb in H3. apply app_inj_1 in H3 as [-> ->]; [|lia].
    exists r'. split_and!; [done|split; [done|by rewrite H8]|done].
  - destruct H6 as [-> ?]; [done|]. exfalso.
    rewrite app_nil_r in H3. apply (f_equal length) in H3.
    rewrite Hb, length_app, length_take in H3. lia.
  - naive_solver.
  - destruct H7; [done|]. lia.
Qed.

(** A stream that ends early makes [read_exact] fail with [UnexpectedEof]. *)
Lemma io_read_exact_short {E} (f : io_error → E) n r :
  steady r → (length (bytes_of r) < n)%nat →
  ∃ r', io_read_exact f n r = (Some (Err (f UnexpectedEof)), r').
Proof.
  intros [Hclean Hc] Hlt. unfold io_read_exact.
  destruct (fill r (replicate n x00%byte) 0) as [[[stop buf] off] r'] eqn:Hf.
  apply fill_spec in Hf as [H1 H2 H3 H4 H5 H6 H7 H8 H9]; [|done|lia].
  rewrite length_replicate in *. rewrite take_0 in H3. simpl in H3.
  destruct stop; [| |naive_solver|destruct H7; [done|lia]].
  - apply (f_equal length) in H3. rewrite length_app, length_take in H3.
    specialize (H5 eq_refl). lia.
  - eauto.
Qed.

Lemma io_bind_run {E A B} (m : IoM E A) (k : A → IoM E B) r a r' :
  m r = (Some (Ok a), r') → (m ≫= k) r = k a r'.
Proof. intros H. unfold mbind, IoM_bind. by rewrite H. Qed.

Lemma io_bind_inv {E A B} (m : IoM E A) (k : A → IoM E B) r b r' :
  (m ≫= k) r = (Some (Ok b), r') →
  ∃ a r1, m r = (Some (Ok a), r1) ∧ k a r1 = (Some (Ok b), r').
Proof. unfold mbind, IoM_bind. destruct (m r) as [[[a|]|] r1]; naive_solver. Qed.

Lemma io_read_exact_inv {E} (f : io_error → E) n r bs r' :
  steady r → io_read_exact f n r = (Some (Ok bs), r') →
  length bs = n ∧ bytes_of r = bs ++ bytes_of r' ∧ steady r'.
Proof.
  intros Hr H. destruct (Nat.lt_ge_cases (length (bytes_of r)) n) as [Hlt|Hge].
  { destruct (io_read_exact_short f n r Hr Hlt) as [? ?]. congruence. }
  assert (length (take n (bytes_of r)) = n) by (rewrite length_take; lia).
  destruct (io_read_exact_enough f n r (take n (bytes_of r)) (drop n (bytes_of r)))
    as (r'' & H' & Hs & Hb); [done|by rewrite take_drop|done|].
  rewrite H in H'. simplify_eq. rewrite Hb, take_drop. done.
Qed.

(** A one-byte read returns the first byte, or nothing at the end. *)
Lemma io_read_one {E} (f : io_error → E) r b rest :
  steady r → bytes_of r = b :: rest →
  ∃ r', io_read f 1 r = (Some (Ok [b]), r') ∧ steady r' ∧ bytes_of r' = rest.
Proof.
  intros Hs Hb. destruct r as [|ev r]; [done|].
  destruct (steady_cons _ _ Hs) as [(c & bs & ->) Hr].
  unfold bytes_of in Hb. simpl in Hb. injection Hb as -> Hb.
  exists (push_back bs r). split_and!; [|by apply steady_push_back|].
  - unfold io_read. done.
  - rewrite bytes_of_push_back. done.
Qed.

Lemma steady_no_bytes r : steady r → bytes_of r = [] → r = [].
Proof.
  intros Hs Hb. destruct r as [|ev r]; [done|].
  destruct (steady_cons _ _ Hs) as [(c & bs & ->) _]. done.
Qed.

(** ** Writers *)

Record writer : Type := Writer {
  w_out : bytes;                          (** bytes delivered so far *)
  w_fault : option (nat * io_error);      (** fails once this many are out *)
  w_flush_fault : option io_error
}.

Definition write_all (w : writer) (bs : bytes) : writer * Result io_error unit :=
  let out := w_out w ++ bs in
  match w_fault w with
  | None => (Writer out None (w_flush_fault w), Ok tt)
  | Some (n, e) =>
      if Nat.leb (length out) n
      then (Writer out (Some (n, e)) (w_flush_fault w), Ok tt)
      else (Writer (take n out) (Some (n, e)) (w_flush_fault w), Err e)
  end.

Definition flush (w : writer) : writer * Result io_error unit :=
  match w_flush_fault w with None => (w, Ok tt) | Some e => (w, Err e) end.

Definition sound_writer (w : writer) : Prop :=
  w_fault w = None ∧ w_flush_fault w = None.

(** Sequencing of write steps, stopping at the first error. *)
Definition w_bind {E A B} (m : writer * Result E A)
    (k : writer → A → writer * Result E B) : writer * Result E B :=
  match m with (w, Ok a) => k w a | (w, Err e) => (w, Err e) end.
Definition w_err {E F A} (f : E → F) (m : writer * Result E A) : writer * Result F A :=
  (fst m, map_err f (snd m)).

Lemma write_all_sound w bs :
  sound_writer w → write_all w bs = (Writer (w_out w ++ bs) None None, Ok tt).
Proof. intros [H1 H2]. unfold write_all. by rewrite H1, H2. Qed.
