(* ===== verification/Identity.v ===== *)
(** * Identity: durable identifiers and public hostnames

    [crates/common/src/lib.rs] ([AgentId], [TunnelId]) and
    [crates/common/src/public_hostname.rs] ([PublicHostname]). *)

From S2P Require Import Prelude Text.

(** ** Durable identifiers *)

Definition MAX_DURABLE_ID_BYTES : Z := 64.

Inductive DurableIdError : Type :=
| IdEmpty
| IdTooLong (actual : Z)
| IdInvalidCharacter (index : Z) (byte : byte).

#[global] Instance DurableIdError_eq_dec : EqDecision DurableIdError.
Proof. solve_decision. Defined.

Definition id_byte (b : byte) : bool :=
  is_ascii_alphanumeric b || beq b "-"%byte || beq b "_"%byte.

(** The [for (index, byte) in value.bytes().enumerate()] loop. *)
Fixpoint check_id_bytes (index : Z) (s : str) : Result DurableIdError unit :=
  match s with
  | [] => Ok tt
  | b :: r =>
      if negb (is_ascii_alphanumeric b) && negb (beq b "-"%byte)
         && negb (beq b "_"%byte)
      then Err (IdInvalidCharacter index b)
      else check_id_bytes (index + 1) r
  end.

Definition validate_durable_id (value : str) : Result DurableIdError unit :=
  match value with
  | [] => Err IdEmpty
  | _ =>
      if MAX_DURABLE_ID_BYTES <? zlen value then Err (IdTooLong (zlen value))
      else check_id_bytes 0 value
  end.

Record AgentId : Type := MkAgentId { agent_str : str }.
Record TunnelId : Type := MkTunnelId { tunnel_str : str }.

Definition AgentId_new (value : str) : Result DurableIdError AgentId :=
  validate_durable_id value ≫= λ _, Ok (MkAgentId value).

Definition TunnelId_new (value : str) : Result DurableIdError TunnelId :=
  validate_durable_id value ≫= λ _, Ok (MkTunnelId value).

#[global] Instance AgentId_eq_dec : EqDecision AgentId.
Proof. solve_decision. Defined.
#[global] Instance TunnelId_eq_dec : EqDecision TunnelId.
Proof. solve_decision. Defined.
#[global] Program Instance AgentId_countable : Countable AgentId :=
  inj_countable' agent_str MkAgentId _.
Next Obligation. by intros []. Qed.
#[global] Program Instance TunnelId_countable : Countable TunnelId :=
  inj_countable' tunnel_str MkTunnelId _.
Next Obligation. by intros []. Qed.

(** The invariant the constructors establish. *)
Definition durable_id_ok (s : str) : Prop :=
  1 ≤ zlen s ≤ MAX_DURABLE_ID_BYTES ∧ Forall (λ b, id_byte b = true) s.

#[global] Instance durable_id_ok_dec s : Decision (durable_id_ok s).
Proof. unfold durable_id_ok. apply _. Defined.

Lemma id_byte_check b :
  negb (is_ascii_alphanumeric b) && negb (beq b "-"%byte) && negb (beq b "_"%byte)
  = negb (id_byte b).
Proof. unfold id_byte. by rewrite !negb_orb. Qed.

Lemma check_id_bytes_Ok i s :
  check_id_bytes i s = Ok tt ↔ Forall (λ b, id_byte b = true) s.
Proof.
  revert i. induction s as [|b s IH]; intros i; simpl; [by split|].
  rewrite id_byte_check, Forall_cons, <-(IH (i + 1)).
  destruct (id_byte b); naive_solver.
Qed.

Lemma check_id_bytes_Err i s e :
  check_id_bytes i s = Err e ↔
  ∃ k b, e = IdInvalidCharacter (i + Z.of_nat k) b ∧ s !! k = Some b ∧
         id_byte b = false ∧ Forall (λ c, id_byte c = true) (take k s).
Proof.
  revert i. induction s as [|b s IH]; intros i; simpl.
  { split; [done|]. intros (k & c & _ & Hk & _). by rewrite lookup_nil in Hk. }
  rewrite id_byte_check. destruct (id_byte b) eqn:Hb; simpl.
  - rewrite IH. split.
    + intros (k & c & -> & Hk & Hc & Ht). exists (S k), c.
      split_and!; [f_equal; lia|done|done|by constructor].
    + intros ([|k] & c & -> & Hk & Hc & Ht); simplify_eq/=; [congruence|].
      exists k, c. apply Forall_cons in Ht as [_ Ht].
      split_and!; [f_equal; lia|done..].
  - split.
    + intros [= <-]. exists 0%nat, b. split_and!; [f_equal; lia|done..].
    + intros ([|k] & c & -> & Hk & Hc & Ht); simplify_eq/=; [f_equal; f_equal; lia|].
      apply Forall_cons in Ht as [? _]. congruence.
Qed.

Lemma validate_durable_id_Ok s : validate_durable_id s = Ok tt ↔ durable_id_ok s.
Proof.
  unfold validate_durable_id, durable_id_ok. destruct s as [|b s].
  { split; [done|]. rewrite zlen_nil. lia. }
  pose proof (zlen_nonneg s). rewrite zlen_cons.
  destruct (Z.ltb_spec MAX_DURABLE_ID_BYTES (1 + zlen s)).
  - split; [done|lia].
  - rewrite check_id_bytes_Ok. split; [split; [lia|done]|tauto].
Qed.

Lemma AgentId_new_Ok s a : AgentId_new s = Ok a ↔ a = MkAgentId s ∧ durable_id_ok s.
Proof.
  unfold AgentId_new. rewrite bind_Ok, <-validate_durable_id_Ok.
  split; [intros ([] & ? & ?); naive_solver|intros [-> ?]; by exists tt].
Qed.

Lemma TunnelId_new_Ok s a : TunnelId_new s = Ok a ↔ a = MkTunnelId s ∧ durable_id_ok s.
Proof.
  unfold TunnelId_new. rewrite bind_Ok, <-validate_durable_id_Ok.
  split; [intros ([] & ? & ?); naive_solver|intros [-> ?]; by exists tt].
Qed.

Lemma durable_id_ok_ascii s : durable_id_ok s → forallb is_ascii s = true.
Proof.
  intros [_ Hs]. induction Hs as [|b s Hb _ IH]; simpl; [done|].
  rewrite IH, andb_true_r. revert Hb. clear. destruct b; done.
Qed.

Lemma durable_id_ok_utf8 s : durable_id_ok s → from_utf8 s = Some s.
Proof. intros. by apply from_utf8_ascii, durable_id_ok_ascii. Qed.

(** The same for the parsers of length-prefixed identifiers. *)
Lemma durable_id_u8 s : durable_id_ok s → u_range 8 (zlen s).
Proof. intros [? _]. unfold u_range, MAX_DURABLE_ID_BYTES in *. lia. Qed.
Lemma durable_id_u16 s : durable_id_ok s → u_range 16 (zlen s).
Proof. intros [? _]. unfold u_range, MAX_DURABLE_ID_BYTES in *. lia. Qed.
Lemma durable_id_utf8_valid s : durable_id_ok s → utf8_valid s = true.
Proof. intros. by apply utf8_valid_ascii, durable_id_ok_ascii. Qed.
Lemma AgentId_new_map_err {F} (f : DurableIdError → F) s :
  durable_id_ok s → map_err f (AgentId_new s) = Ok (MkAgentId s).
Proof. intros. by apply map_err_Ok, AgentId_new_Ok. Qed.
Lemma TunnelId_new_map_err {F} (f : DurableIdError → F) s :
  durable_id_ok s → map_err f (TunnelId_new s) = Ok (MkTunnelId s).
Proof. intros. by apply map_err_Ok, TunnelId_new_Ok. Qed.
#[export] Hint Resolve durable_id_u8 durable_id_u16 durable_id_utf8_valid : wire.
#[export] Hint Resolve AgentId_new_map_err TunnelId_new_map_err : wire.

Lemma durable_id_ok_len s : durable_id_ok s → 1 ≤ zlen s ≤ 64.
Proof. by intros [? _]. Qed.

(** [AgentId::new] accepts exactly the strings of 1 to 64 ASCII letters,
    digits, hyphens and underscores, keeps the accepted string unchanged, and
    otherwise reports the first applicable reason: empty, too long with the
    actual length, or the index and value of the first offending byte. *)
Theorem AgentId_new_spec s :
  match AgentId_new s with
  | Ok a => agent_str a = s ∧ durable_id_ok s
  | Err IdEmpty => s = []
  | Err (IdTooLong n) => n = zlen s ∧ MAX_DURABLE_ID_BYTES < n
  | Err (IdInvalidCharacter i b) =>
      zlen s ≤ MAX_DURABLE_ID_BYTES ∧ 0 ≤ i ∧ s !! Z.to_nat i = Some b ∧
      id_byte b = false ∧ Forall (λ c, id_byte c = true) (take (Z.to_nat i) s)
  end.
Proof.
  destruct (AgentId_new s) as [a|e] eqn:H.
  { apply AgentId_new_Ok in H as [-> H]. done. }
  unfold AgentId_new, validate_durable_id in H.
  destruct s as [|b s]; [by simplify_eq/=|].
  destruct (Z.ltb_spec MAX_DURABLE_ID_BYTES (zlen (b :: s))); [by simplify_eq/=|].
  destruct (check_id_bytes 0 (b :: s)) as [[]|e'] eqn:Hc; simplify_eq/=.
  apply (check_id_bytes_Err 0 (b :: s)) in Hc as (k & c & -> & Hk & Hb & Ht).
  rewrite Z.add_0_l, Nat2Z.id. split_and!; try done; lia.
Qed.

(** ** Public hostnames *)

Definition MAX_PUBLIC_HOSTNAME_BYTES : Z := 253.
Definition MAX_DNS_LABEL_BYTES : Z := 63.

Record PublicHostname : Type := MkPublicHostname { hostname_str : str }.

Inductive PublicHostnameError : Type :=
| HostEmpty
| HostTooLong
| HostInvalidLabel
| HostIpAddress
| HostPortNotAllowed.

#[global] Instance PublicHostnameError_eq_dec : EqDecision PublicHostnameError.
Proof. solve_decision. Defined.
#[global] Instance PublicHostname_eq_dec : EqDecision PublicHostname.
Proof. solve_decision. Defined.
#[global] Program Instance PublicHostname_countable : Countable PublicHostname :=
  inj_countable' hostname_str MkPublicHostname _.
Next Obligation. by intros []. Qed.

(** The predicate of [split('.').any(...)]. *)
Definition bad_label (label : str) : bool :=
  bool_decide (label = [])
  || (MAX_DNS_LABEL_BYTES <? zlen label)
  || starts_with_byte "-"%byte label
  || ends_with_byte "-"%byte label
  || negb (forallb (λ b, is_ascii_alphanumeric b || beq b "-"%byte) label).

Definition normalize_dns_hostname (value : str) : Result PublicHostnameError str :=
  if bool_decide (value = []) then Err HostEmpty
  else
    let normalized :=
      to_ascii_lowercase (default value (strip_suffix_byte "."%byte value)) in
    if bool_decide (normalized = []) then Err HostEmpty
    else if IpParser.parses_as_ip normalized then Err HostIpAddress
    else if contains_byte ":"%byte normalized then Err HostPortNotAllowed
    else if MAX_PUBLIC_HOSTNAME_BYTES <? zlen normalized then Err HostTooLong
    else if existsb bad_label (split_byte "."%byte normalized)
    then Err HostInvalidLabel
    else Ok normalized.

Definition PublicHostname_new (value : str) : Result PublicHostnameError PublicHostname :=
  MkPublicHostname <$> normalize_dns_hostname value.

(** A canonical hostname: lower case, not an address, DNS length limits, and
    every label 1 to 63 letters, digits or inner hyphens. *)
Definition label_ok (label : str) : Prop :=
  1 ≤ zlen label ≤ MAX_DNS_LABEL_BYTES ∧
  head label ≠ Some "-"%byte ∧ last label ≠ Some "-"%byte ∧
  Forall (λ b, is_ascii_alphanumeric b = true ∨ b = "-"%byte) label.

Record hostname_ok (h : str) : Prop := {
  hostname_lower : Forall (λ b, is_ascii_uppercase b = false) h;
  hostname_not_ip : IpParser.parses_as_ip h = false;
  hostname_len : 1 ≤ zlen h ≤ MAX_PUBLIC_HOSTNAME_BYTES;
  hostname_labels : Forall label_ok (split_byte "."%byte h)
}.

Lemma bad_label_false l : bad_label l = false ↔ label_ok l.
Proof.
  unfold bad_label, label_ok. rewrite !orb_false_iff, bool_decide_eq_false, Z.ltb_ge,
    negb_false_iff, forallb_forall.
  assert ((∀ x, In x l → is_ascii_alphanumeric x || beq x "-"%byte = true) ↔
    Forall (λ b, is_ascii_alphanumeric b = true ∨ b = "-"%byte) l) as ->.
  { rewrite List.Forall_forall. by split; intros H x Hx; specialize (H x Hx); rewrite orb_true_iff, beq_true in *. }
  assert (starts_with_byte "-"%byte l = false ↔ head l ≠ Some "-"%byte) as ->.
  { destruct l; simpl; [by split|]. rewrite beq_false. split; congruence. }
  assert (ends_with_byte "-"%byte l = false ↔ last l ≠ Some "-"%byte) as ->.
  { unfold ends_with_byte. destruct (last l) as [b|]; [|by split].
    rewrite beq_false. split; congruence. }
  destruct l; [split; [naive_solver|rewrite zlen_nil; lia]|].
  rewrite zlen_cons. pose proof (zlen_nonneg l). split.
  - intros ((((_ & ?) & ?) & ?) & ?). split_and!; try done; lia.
  - intros ((? & ?) & ? & ? & ?). split_and!; try done; lia.
Qed.

Lemma any_bad_label_false ls : existsb bad_label ls = false ↔ Forall label_ok ls.
Proof.
  induction ls as [|l ls IH]; simpl; [by split|].
  rewrite orb_false_iff, bad_label_false, IH. by rewrite Forall_cons.
Qed.

Lemma to_ascii_lowercase_lower s :
  Forall (λ b, is_ascii_uppercase b = false) (to_ascii_lowercase s).
Proof.
  apply Forall_fmap, Forall_true. intros; simpl. apply byte_to_lower_not_upper.
Qed.

Lemma hostname_ok_no_dot_suffix h t : hostname_ok h → h ≠ t ++ ["."%byte].
Proof.
  intros Hok ->. destruct (split_byte_snoc_sep "."%byte t) as (p & ps & Hs).
  pose proof (hostname_labels _ Hok) as Hl. rewrite Hs, Forall_app in Hl.
  destruct Hl as [_ Hl]. apply Forall_cons in Hl as [[Hl _] _].
  rewrite zlen_nil in Hl. lia.
Qed.

Lemma hostname_ok_no_colon h : hostname_ok h → ":"%byte ∉ h.
Proof.
  intros Hok Hin. destruct (split_byte_cover "."%byte h ":"%byte) as (p & Hp & Hb); [done..|].
  pose proof (hostname_labels _ Hok) as Hl. rewrite Forall_forall in Hl.
  destruct (Hl p Hp) as (_ & _ & _ & Hbytes). rewrite Forall_forall in Hbytes.
  by destruct (Hbytes _ Hb).
Qed.

Lemma normalize_Ok_ok s h : normalize_dns_hostname s = Ok h → hostname_ok h.
Proof.
  unfold normalize_dns_hostname. intros H. inv_result.
  set (h := to_ascii_lowercase _) in *.
  rewrite any_bad_label_false in *.
  match goal with H : bool_decide (h = []) = false |- _ =>
    apply bool_decide_eq_false in H end.
  split; [apply to_ascii_lowercase_lower|done| |done].
  rewrite Z.ltb_ge in *. split; [|done].
  destruct h; [done|]. rewrite zlen_cons. pose proof (zlen_nonneg h). lia.
Qed.

Lemma normalize_ok_id h : hostname_ok h → normalize_dns_hostname h = Ok h.
Proof.
  intros Hok. unfold normalize_dns_hostname.
  pose proof (hostname_len _ Hok).
  assert (h ≠ []) by (intros ->; rewrite zlen_nil in *; lia).
  rewrite bool_decide_eq_false_2 by done.
  rewrite (proj2 (strip_suffix_byte_None _ _))
    by (intros; by apply hostname_ok_no_dot_suffix).
  cbn [default]. rewrite to_ascii_lowercase_id by apply Hok.
  rewrite bool_decide_eq_false_2 by done.
  rewrite (hostname_not_ip _ Hok).
  rewrite (proj2 (contains_byte_false _ _)) by by apply hostname_ok_no_colon.
  rewrite (proj2 (Z.ltb_ge _ _)) by lia.
  by rewrite (proj2 (any_bad_label_false _)) by apply Hok.
Qed.

Lemma PublicHostname_new_Ok s h :
  PublicHostname_new s = Ok h ↔ normalize_dns_hostname s = Ok (hostname_str h).
Proof.
  unfold PublicHostname_new. destruct (normalize_dns_hostname s), h; naive_solver.
Qed.

Lemma PublicHostname_new_id h :
  hostname_ok (hostname_str h) → PublicHostname_new (hostname_str h) = Ok h.
Proof. intros. by apply PublicHostname_new_Ok, normalize_ok_id. Qed.

Lemma PublicHostname_new_hostname_ok s h :
  PublicHostname_new s = Ok h → hostname_ok (hostname_str h).
Proof. rewrite PublicHostname_new_Ok. apply normalize_Ok_ok. Qed.

Lemma hostname_ok_ascii h : hostname_ok h → forallb is_ascii h = true.
Proof.
  intros Hok. apply forallb_forall. intros b Hb%list_elem_of_In.
  destruct (decide (b = "."%byte)) as [->|Hne]; [done|].
  destruct (split_byte_cover "."%byte h b Hb Hne) as (p & Hp & Hbp).
  pose proof (hostname_labels _ Hok) as Hl. rewrite Forall_forall in Hl.
  destruct (Hl p Hp) as (_ & _ & _ & Hbytes). rewrite Forall_forall in Hbytes.
  destruct (Hbytes _ Hbp) as [Ha| ->]; [by apply alnum_is_ascii|done].
Qed.

Lemma hostname_ok_utf8 h : hostname_ok h → from_utf8 h = Some h.
Proof. intros. by apply from_utf8_ascii, hostname_ok_ascii. Qed.

Lemma hostname_u16 h : hostname_ok h → u_range 16 (zlen h).
Proof. intros H. pose proof (hostname_len _ H). unfold u_range, MAX_PUBLIC_HOSTNAME_BYTES in *. lia. Qed.

(** [PublicHostname::new] is a canonicalisation: an accepted name is lower
    case, no IP address, at most 253 bytes with DNS-conformant labels, parsing
    the canonical form again returns it unchanged, and two accepted spellings
    denote the same host iff they agree up to case and one trailing dot. *)
Theorem hostname_canonical s h :
  PublicHostname_new s = Ok h →
  hostname_ok (hostname_str h) ∧
  PublicHostname_new (hostname_str h) = Ok h ∧
  hostname_str h = to_ascii_lowercase (default s (strip_suffix_byte "."%byte s)) ∧
  (∀ t k, PublicHostname_new t = Ok k →
     h = k ↔
     to_ascii_lowercase (default s (strip_suffix_byte "."%byte s))
     = to_ascii_lowercase (default t (strip_suffix_byte "."%byte t))).
Proof.
  intros H.
  assert (∀ t k, PublicHostname_new t = Ok k →
    hostname_str k = to_ascii_lowercase (default t (strip_suffix_byte "."%byte t)))
    as Hlow.
  { intros t k [= Hk]%PublicHostname_new_Ok. unfold normalize_dns_hostname in Hk.
    by inv_result. }
  pose proof (PublicHostname_new_hostname_ok _ _ H).
  split_and!; [done|by apply PublicHostname_new_id|by apply Hlow|].
  intros t k Hk. rewrite <-(Hlow _ _ H), <-(Hlow _ _ Hk).
  destruct h, k; simpl. split; congruence.
Qed.

Lemma hostname_canonical_witness :
  PublicHostname_new (bstr "Demo.Example.COM.") = Ok (MkPublicHostname (bstr "demo.example.com")) ∧
  PublicHostname_new (bstr "demo.example.com") = Ok (MkPublicHostname (bstr "demo.example.com")).
Proof.
  assert (PublicHostname_new (bstr "Demo.Example.COM.")
    = Ok (MkPublicHostname (bstr "demo.example.com"))) as H by (by vm_compute).
  split; [exact H|]. exact (proj1 (proj2 (hostname_canonical _ _ H))).
Defined.

Example hostname_rejections :
  PublicHostname_new (bstr ".") = Err HostEmpty ∧
  PublicHostname_new (bstr "127.0.0.1.") = Err HostIpAddress ∧
  PublicHostname_new (bstr "::1") = Err HostIpAddress ∧
  PublicHostname_new (bstr "example.com:443") = Err HostPortNotAllowed ∧
  PublicHostname_new (bstr "bad_label.example") = Err HostInvalidLabel ∧
  PublicHostname_new (bstr "bad-.example") = Err HostInvalidLabel.
Proof. by vm_compute. Qed.
