(* ===== verification/Frame.v ===== *)
(** * Frame: Tunnel Protocol v2 constants, frame types and frames

    [crates/protocol/src/wire.rs], [error.rs], [stream.rs] and [frame.rs]. *)

From S2P Require Import Prelude AsyncIo.

(** ** Wire constants *)

Definition MAGIC : bytes := [z2b 0x54; z2b 0x50; z2b 0x58; z2b 0x31].
Definition HEADER_SIZE : Z := 16.
Definition PROTOCOL_VERSION : Z := 2.
Definition VERSION : Z := PROTOCOL_VERSION.
Definition MAX_FRAME_PAYLOAD : Z := 64 * 1024.
Definition HELLO_PAYLOAD_SIZE : Z := 1.
Definition REGISTERED_PAYLOAD_SIZE : Z := 8.
Definition ERROR_PAYLOAD_SIZE : Z := 2.
Definition HEARTBEAT_PAYLOAD_SIZE : Z := 8.
Definition EMPTY_STREAM_PAYLOAD_SIZE : Z := 0.
Definition STREAM_RESET_PAYLOAD_SIZE : Z := 2.

(** ** Frame types *)

Inductive Scope : Type :=
| Control
| Stream.

Inductive FrameType : Type :=
| Hello
| Register
| Registered
| OpenStream
| DataFrame
| EndStream
| ResetStream
| Ping
| Pong
| ErrorFrame.

#[global] Instance Scope_eq_dec : EqDecision Scope.
Proof. solve_decision. Defined.
#[global] Instance FrameType_eq_dec : EqDecision FrameType.
Proof. solve_decision. Defined.

Definition FrameType_scope (t : FrameType) : Scope :=
  match t with
  | Hello | Register | Registered | Ping | Pong | ErrorFrame => Control
  | OpenStream | DataFrame | EndStream | ResetStream => Stream
  end.

Definition FrameType_as_u8 (t : FrameType) : Z :=
  match t with
  | Hello => 0x01
  | Register => 0x02
  | Registered => 0x03
  | OpenStream => 0x10
  | DataFrame => 0x11
  | EndStream => 0x12
  | ResetStream => 0x13
  | Ping => 0x20
  | Pong => 0x21
  | ErrorFrame => 0xFF
  end.

Definition FrameType_from_raw (byte : Z) : option FrameType :=
  match byte with
  | 0x01 => Some Hello
  | 0x02 => Some Register
  | 0x03 => Some Registered
  | 0x10 => Some OpenStream
  | 0x11 => Some DataFrame
  | 0x12 => Some EndStream
  | 0x13 => Some ResetStream
  | 0x20 => Some Ping
  | 0x21 => Some Pong
  | 0xFF => Some ErrorFrame
  | _ => None
  end.

(** ** Stream identifiers *)

Record StreamId : Type := MkStreamId { stream_raw : Z }.

#[global] Instance StreamId_eq_dec : EqDecision StreamId.
Proof. solve_decision. Defined.
#[global] Program Instance StreamId_countable : Countable StreamId :=
  inj_countable' stream_raw MkStreamId _.
Next Obligation. by intros []. Qed.

Definition StreamId_CONTROL : StreamId := MkStreamId 0.
Definition StreamId_new (id : Z) : option StreamId :=
  if id =? 0 then None else Some (MkStreamId id).
Definition StreamId_is_control (s : StreamId) : bool := stream_raw s =? 0.
Definition StreamId_get (s : StreamId) : Z := stream_raw s.

(** ** Protocol errors *)

Inductive ProtocolError : Type :=
| PE_Io (e : io_error)
| PE_InvalidMagic (got : bytes)
| PE_UnsupportedVersion (v : Z)
| PE_UnknownFrameType (raw : Z)
| PE_UnsupportedFlags (flags : Z)
| PE_InvalidStreamScope (frame_type : FrameType) (required : string) (got : Z)
| PE_FrameTooLarge (len : Z)
| PE_TruncatedHeader (got : Z)
| PE_TruncatedPayload (got expected : Z)
| PE_EncodeFrameTooLarge (len : Z)
| PE_EncodeValidation (msg : string).

#[global] Instance ProtocolError_eq_dec : EqDecision ProtocolError.
Proof. solve_decision. Defined.

(** ** Frames *)

Record Frame : Type := MkFrame {
  frame_type : FrameType;
  flags : Z;
  stream_id : StreamId;
  payload : bytes
}.

#[global] Instance Frame_eq_dec : EqDecision Frame.
Proof. solve_decision. Defined.

Definition WIRE_HEADER_SIZE : Z := HEADER_SIZE.
Definition MAX_WIRE_SIZE : Z := HEADER_SIZE + MAX_FRAME_PAYLOAD.

Definition validate_scope (t : FrameType) (sid : StreamId)
    : Result ProtocolError unit :=
  match FrameType_scope t with
  | Control =>
      if negb (StreamId_is_control sid)
      then Err (PE_InvalidStreamScope t "0 (control)" (StreamId_get sid))
      else Ok tt
  | Stream =>
      if StreamId_is_control sid
      then Err (PE_InvalidStreamScope t "> 0 (stream)" (StreamId_get sid))
      else Ok tt
  end.

Definition Frame_new (t : FrameType) (fl : Z) (sid : StreamId) (p : bytes)
    : Result ProtocolError Frame :=
  if negb (fl =? 0) then Err (PE_UnsupportedFlags fl)
  else
    len ← ok_or (PE_EncodeFrameTooLarge (umax 32)) (u_try_from 32 (zlen p));
    if MAX_FRAME_PAYLOAD <? len then Err (PE_EncodeFrameTooLarge len)
    else
      validate_scope t sid ≫= λ _, Ok (MkFrame t fl sid p).

Definition Frame_control (t : FrameType) (p : bytes) : Result ProtocolError Frame :=
  Frame_new t 0 StreamId_CONTROL p.
Definition Frame_stream (sid : StreamId) (t : FrameType) (p : bytes)
    : Result ProtocolError Frame :=
  Frame_new t 0 sid p.
Definition Frame_is_control (f : Frame) : bool := StreamId_is_control (stream_id f).
Definition Frame_is_stream (f : Frame) : bool := negb (StreamId_is_control (stream_id f)).

(** ** Reset codes *)

Inductive StreamResetCode : Type :=
| LocalConnectFailed
| LocalConnectTimeout
| IoFailure
| ProtocolViolation
| StreamBusy
| OpenTimeout
| IdleTimeout
| CapacityExceeded
| UnknownStream
| FlowControlExceeded
| SessionClosing.

#[global] Instance StreamResetCode_eq_dec : EqDecision StreamResetCode.
Proof. solve_decision. Defined.

Definition StreamResetCode_as_u16 (c : StreamResetCode) : Z :=
  match c with
  | LocalConnectFailed => 1
  | LocalConnectTimeout => 2
  | IoFailure => 3
  | ProtocolViolation => 4
  | StreamBusy => 5
  | OpenTimeout => 6
  | IdleTimeout => 7
  | CapacityExceeded => 8
  | UnknownStream => 9
  | FlowControlExceeded => 10
  | SessionClosing => 11
  end.

Definition StreamResetCode_to_be_bytes (c : StreamResetCode) : bytes :=
  to_be 2 (StreamResetCode_as_u16 c).

Definition StreamResetCode_of_u16 (code : Z) : option StreamResetCode :=
  match code with
  | 1 => Some LocalConnectFailed
  | 2 => Some LocalConnectTimeout
  | 3 => Some IoFailure
  | 4 => Some ProtocolViolation
  | 5 => Some StreamBusy
  | 6 => Some OpenTimeout
  | 7 => Some IdleTimeout
  | 8 => Some CapacityExceeded
  | 9 => Some UnknownStream
  | 10 => Some FlowControlExceeded
  | 11 => Some SessionClosing
  | _ => None
  end.

Definition StreamResetCode_from_be_bytes (bs : bytes) : option StreamResetCode :=
  StreamResetCode_of_u16 (from_be bs).

Definition StreamResetCode_try_from (value : Z) : Result unit StreamResetCode :=
  ok_or tt (StreamResetCode_from_be_bytes (to_be 2 value)).

Definition StreamResetCode_fmt (c : StreamResetCode) : string :=
  match c with
  | LocalConnectFailed => "local_connect_failed"
  | LocalConnectTimeout => "local_connect_timeout"
  | IoFailure => "io_failure"
  | ProtocolViolation => "protocol_violation"
  | StreamBusy => "stream_busy"
  | OpenTimeout => "open_timeout"
  | IdleTimeout => "idle_timeout"
  | CapacityExceeded => "capacity_exceeded"
  | UnknownStream => "unknown_stream"
  | FlowControlExceeded => "flow_control_exceeded"
  | SessionClosing => "session_closing"
  end.

(** ** Frame types on the wire *)

Lemma FrameType_from_as_u8 t : FrameType_from_raw (FrameType_as_u8 t) = Some t.
Proof. by destruct t. Qed.

Lemma FrameType_from_raw_Some z t : FrameType_from_raw z = Some t → z = FrameType_as_u8 t.
Proof.
  unfold FrameType_from_raw. intros H.
  repeat case_match; simplify_eq/=; done.
Qed.

Lemma FrameType_as_u8_range t : 0 ≤ FrameType_as_u8 t < 256.
Proof. by destruct t. Qed.

(** ** Well-formed frames *)

Definition scope_ok (t : FrameType) (sid : StreamId) : Prop :=
  match FrameType_scope t with
  | Control => stream_raw sid = 0
  | Stream => stream_raw sid ≠ 0
  end.

#[global] Instance scope_ok_dec t sid : Decision (scope_ok t sid).
Proof. unfold scope_ok. destruct (FrameType_scope t); apply _. Defined.

(** What [Frame::new] guarantees; the width of the identifier is its type. *)
Record frame_ok (f : Frame) : Prop := {
  frame_ok_flags : flags f = 0;
  frame_ok_len : zlen (payload f) ≤ MAX_FRAME_PAYLOAD;
  frame_ok_scope : scope_ok (frame_type f) (stream_id f)
}.

Definition frame_typed (f : Frame) : Prop := u_range 32 (stream_raw (stream_id f)).

#[global] Instance frame_ok_dec f : Decision (frame_ok f).
Proof.
  refine (cast_if (decide (flags f = 0 ∧ zlen (payload f) ≤ MAX_FRAME_PAYLOAD ∧
    scope_ok (frame_type f) (stream_id f)))).
  - by destruct_and!; split.
  - by intros []; naive_solver.
Defined.

Lemma validate_scope_Ok t sid : validate_scope t sid = Ok tt ↔ scope_ok t sid.
Proof.
  unfold validate_scope, scope_ok, StreamId_is_control.
  destruct (FrameType_scope t), (Z.eqb_spec (stream_raw sid) 0); naive_solver.
Qed.

Lemma validate_scope_Err t sid e :
  validate_scope t sid = Err e ↔
  ¬ scope_ok t sid ∧
  e = PE_InvalidStreamScope t
        (match FrameType_scope t with
         | Control => "0 (control)" | Stream => "> 0 (stream)" end)
        (stream_raw sid).
Proof.
  unfold validate_scope, scope_ok, StreamId_is_control, StreamId_get.
  destruct (FrameType_scope t), (Z.eqb_spec (stream_raw sid) 0); naive_solver.
Qed.

Lemma Frame_new_Ok t fl sid p f :
  Frame_new t fl sid p = Ok f ↔ f = MkFrame t fl sid p ∧ frame_ok f.
Proof.
  unfold Frame_new. split.
  - intros H. inv_result. apply negb_false_iff, Z.eqb_eq in Heqb as ->.
    apply u_try_from_Some in H0 as [-> _].
    match goal with H : validate_scope _ _ = Ok ?x |- _ =>
      destruct x; apply validate_scope_Ok in H end.
    split; [done|]. split; simpl; [done| |done]. by apply Z.ltb_ge.
  - intros [-> [Hf Hl Hs]]. simpl in *. subst. simpl.
    pose proof (zlen_nonneg p). unfold MAX_FRAME_PAYLOAD in *.
    rewrite u_try_from_in by (unfold u_range; lia). simpl.
    rewrite (proj2 (Z.ltb_ge _ _)) by lia.
    by rewrite (proj2 (validate_scope_Ok _ _)).
Qed.

Lemma Frame_new_id f : frame_ok f →
  Frame_new (frame_type f) (flags f) (stream_id f) (payload f) = Ok f.
Proof. intros. apply Frame_new_Ok. by destruct f. Qed.
