(* ===== verification/Codec.v ===== *)
(** * Codec: the frame encoder and the resumable frame decoder

    [crates/protocol/src/codec.rs].  The decoder keeps its progress in its own
    state, so that a caller may drop the decoding future at any read and call
    [decode] again; the refinement theorem states that however the stream is
    chunked and wherever the future is dropped, the caller sees exactly what a
    one-shot parser of the byte sequence would return. *)

From S2P Require Import Prelude AsyncIo Frame.

(** ** Encoder *)

Definition validate_frame (f : Frame) : Result ProtocolError unit :=
  len ← ok_or (PE_EncodeFrameTooLarge (umax 32)) (u_try_from 32 (zlen (payload f)));
  if MAX_FRAME_PAYLOAD <? len then Err (PE_EncodeFrameTooLarge len)
  else if negb (flags f =? 0) then Err (PE_UnsupportedFlags (flags f))
  else
    match FrameType_scope (frame_type f) with
    | Control =>
        if negb (StreamId_is_control (stream_id f))
        then Err (PE_InvalidStreamScope (frame_type f) "0 (control)"
                    (StreamId_get (stream_id f)))
        else Ok tt
    | Stream =>
        if StreamId_is_control (stream_id f)
        then Err (PE_InvalidStreamScope (frame_type f) "> 0 (stream)"
                    (StreamId_get (stream_id f)))
        else Ok tt
    end.

(** The 16 header bytes, in the order the encoder stores them. *)
Definition header_bytes (f : Frame) (payload_len : Z) : bytes :=
  let sid := StreamId_get (stream_id f) in
  MAGIC ++
  [ z2b VERSION;
    z2b (FrameType_as_u8 (frame_type f));
    z2b (Z.shiftr (flags f) 8); z2b (flags f);
    z2b (Z.shiftr sid 24); z2b (Z.shiftr sid 16); z2b (Z.shiftr sid 8); z2b sid;
    z2b (Z.shiftr payload_len 24); z2b (Z.shiftr payload_len 16);
    z2b (Z.shiftr payload_len 8); z2b payload_len ].

Definition encode (w : writer) (f : Frame) : writer * Result ProtocolError Z :=
  match validate_frame f with
  | Err e => (w, Err e)
  | Ok _ =>
      match ok_or (PE_EncodeFrameTooLarge (umax 32)) (u_try_from 32 (zlen (payload f))) with
      | Err e => (w, Err e)
      | Ok payload_len =>
          w_bind (w_err PE_Io (write_all w (header_bytes f payload_len))) (λ w _,
          w_bind (w_err PE_Io (write_all w (payload f))) (λ w _,
          (w, Ok (HEADER_SIZE + zlen (payload f)))))
      end
  end.

(** ** Decoder *)

Record PendingFrame : Type := MkPending {
  p_frame_type : FrameType;
  p_flags : Z;
  p_stream_id : StreamId;
  p_payload : bytes;
  p_offset : nat
}.

Record FrameDecoder : Type := MkDecoder {
  d_header : bytes;
  d_header_offset : nat;
  d_pending : option PendingFrame
}.

Definition HEADER_LEN : nat := Z.to_nat HEADER_SIZE.

Definition FrameDecoder_new : FrameDecoder :=
  MkDecoder (replicate HEADER_LEN x00%byte) 0 None.

Definition reset (d : FrameDecoder) : FrameDecoder :=
  MkDecoder (d_header d) 0 None.

Definition byte_at (h : bytes) (i : nat) : byte := default x00%byte (h !! i).

(** Validation of a complete header (the straight-line middle of [decode]). *)
Definition parse_header (h : bytes) : Result ProtocolError PendingFrame :=
  let magic := [byte_at h 0; byte_at h 1; byte_at h 2; byte_at h 3] in
  if bool_decide (magic ≠ MAGIC) then Err (PE_InvalidMagic magic)
  else
    let version := b2z (byte_at h 4) in
    if negb (version =? VERSION) then Err (PE_UnsupportedVersion version)
    else
      ft ← ok_or (PE_UnknownFrameType (b2z (byte_at h 5)))
             (FrameType_from_raw (b2z (byte_at h 5)));
      let fl := from_be [byte_at h 6; byte_at h 7] in
      if negb (fl =? 0) then Err (PE_UnsupportedFlags fl)
      else
        let sid := MkStreamId
          (from_be [byte_at h 8; byte_at h 9; byte_at h 10; byte_at h 11]) in
        let payload_len :=
          from_be [byte_at h 12; byte_at h 13; byte_at h 14; byte_at h 15] in
        if MAX_FRAME_PAYLOAD <? payload_len then Err (PE_FrameTooLarge payload_len)
        else Ok (MkPending ft fl sid (replicate (Z.to_nat payload_len) x00%byte) 0).

(** The payload loop and the final [Frame::new]. *)
Definition decode_pending (d : FrameDecoder) (p : PendingFrame) (r : reader)
    : option (Result ProtocolError (option Frame)) * FrameDecoder * reader :=
  match fill r (p_payload p) (p_offset p) with
  | (FillErr e, _, _, r') => (Some (Err (PE_Io e)), reset d, r')
  | (FillEof, buf, off, r') =>
      (Some (Err (PE_TruncatedPayload (Z.of_nat off) (zlen buf))), reset d, r')
  | (FillCancelled, buf, off, r') =>
      (None,
       MkDecoder (d_header d) (d_header_offset d)
         (Some (MkPending (p_frame_type p) (p_flags p) (p_stream_id p) buf off)),
       r')
  | (Filled, buf, _, r') =>
      (Some (Some <$> Frame_new (p_frame_type p) (p_flags p) (p_stream_id p) buf),
       MkDecoder (d_header d) (d_header_offset d) None, r')
  end.

(** [FrameDecoder::decode]; [None] means the future was dropped. *)
Definition decode (d : FrameDecoder) (r : reader)
    : option (Result ProtocolError (option Frame)) * FrameDecoder * reader :=
  match d_pending d with
  | Some p => decode_pending d p r
  | None =>
      match fill r (d_header d) (d_header_offset d) with
      | (FillErr e, h, off, r') =>
          (Some (Err (PE_Io e)), reset (MkDecoder h off None), r')
      | (FillEof, h, off, r') =>
          if Nat.eqb off 0 then (Some (Ok None), MkDecoder h off None, r')
          else (Some (Err (PE_TruncatedHeader (Z.of_nat off))),
                reset (MkDecoder h off None), r')
      | (FillCancelled, h, off, r') => (None, MkDecoder h off None, r')
      | (Filled, h, off, r') =>
          match parse_header h with
          | Err e => (Some (Err e), reset (MkDecoder h off None), r')
          | Ok p => decode_pending (MkDecoder h 0 (Some p)) p r'
          end
      end
  end.

(** A caller that calls [decode] again on the same decoder each time another
    [select!] branch cancelled it, at most [n] times. *)
Fixpoint drive (n : nat) (d : FrameDecoder) (r : reader)
    : option (Result ProtocolError (option Frame) * FrameDecoder * reader) :=
  match decode d r with
  | (Some res, d', r') => Some (res, d', r')
  | (None, d', r') => match n with O => None | S n' => drive n' d' r' end
  end.

(** ** One-shot reference parser of a byte sequence *)

Definition decode_bytes (s : bytes) : Result ProtocolError (option Frame) * bytes :=
  if bool_decide (s = []) then (Ok None, [])
  else if Nat.ltb (length s) HEADER_LEN
  then (Err (PE_TruncatedHeader (zlen s)), [])
  else
    let rest := drop HEADER_LEN s in
    match parse_header (take HEADER_LEN s) with
    | Err e => (Err e, rest)
    | Ok p =>
        let n := length (p_payload p) in
        if Nat.ltb (length rest) n
        then (Err (PE_TruncatedPayload (zlen rest) (Z.of_nat n)), [])
        else (Some <$> Frame_new (p_frame_type p) (p_flags p) (p_stream_id p) (take n rest),
              drop n rest)
    end.

Definition encode_frame (f : Frame) : bytes :=
  header_bytes f (zlen (payload f)) ++ payload f.

(** Receive until the stream ends or fails: the frames and the final verdict. *)
Fixpoint recv_all (n : nat) (d : FrameDecoder) (r : reader)
    : list Frame * option (Result ProtocolError unit) :=
  match drive (cancels r) d r with
  | None => ([], None)
  | Some (Err e, _, _) => ([], Some (Err e))
  | Some (Ok None, _, _) => ([], Some (Ok tt))
  | Some (Ok (Some f), d', r') =>
      match n with
      | O => ([f], None)
      | S n' => let '(fs, v) := recv_all n' d' r' in (f :: fs, v)
      end
  end.

(** ** Encoder facts *)

Lemma validate_frame_Ok f : validate_frame f = Ok tt ↔ frame_ok f.
Proof.
  assert (validate_frame f = Ok tt ↔
    ∃ g, Frame_new (frame_type f) (flags f) (stream_id f) (payload f) = Ok g) as ->.
  { unfold validate_frame, Frame_new, validate_scope.
    destruct (u_try_from 32 (zlen (payload f))); simpl;
      repeat case_match; simplify_eq/=; naive_solver. }
  setoid_rewrite Frame_new_Ok. split; [intros (? & -> & ?)|eexists]; by destruct f.
Qed.

Lemma header_bytes_be f n :
  header_bytes f n =
  MAGIC ++ [z2b VERSION; z2b (FrameType_as_u8 (frame_type f))]
    ++ to_be 2 (flags f) ++ to_be 4 (stream_raw (stream_id f)) ++ to_be 4 n.
Proof.
  unfold header_bytes, StreamId_get. cbn [to_be].
  change (8 * Z.of_nat 0) with 0. by rewrite !Z.shiftr_0_r.
Qed.

Lemma length_header_bytes f n : length (header_bytes f n) = HEADER_LEN.
Proof. done. Qed.

Lemma zlen_encode_frame f : zlen (encode_frame f) = HEADER_SIZE + zlen (payload f).
Proof. unfold encode_frame. by rewrite zlen_app. Qed.

Lemma encode_ok w f :
  frame_ok f → sound_writer w →
  encode w f = (Writer (w_out w ++ encode_frame f) None None,
                Ok (HEADER_SIZE + zlen (payload f))).
Proof.
  intros Hf Hw. unfold encode. rewrite (proj2 (validate_frame_Ok f) Hf).
  pose proof (zlen_nonneg (payload f)). pose proof (frame_ok_len _ Hf).
  unfold MAX_FRAME_PAYLOAD in *.
  rewrite u_try_from_in by (unfold u_range; lia). simpl.
  rewrite write_all_sound by done. cbn -[write_all header_bytes].
  rewrite write_all_sound by done. cbn -[header_bytes].
  unfold encode_frame. by rewrite app_assoc.
Qed.

(** ** Headers parse back *)

Definition fresh_pending (f : Frame) (n : Z) : PendingFrame :=
  MkPending (frame_type f) (flags f) (stream_id f) (replicate (Z.to_nat n) x00%byte) 0.

Lemma parse_header_bytes f n :
  flags f = 0 → frame_typed f → 0 ≤ n ≤ MAX_FRAME_PAYLOAD →
  parse_header (header_bytes f n) = Ok (fresh_pending f n).
Proof.
  intros Hfl Hsid Hn. unfold parse_header.
  rewrite header_bytes_be, Hfl.
  assert (from_be (to_be 4 (stream_raw (stream_id f))) = stream_raw (stream_id f)) as Hs
    by by apply from_be_to_be_u32.
  assert (from_be (to_be 4 n) = n) as Hp.
  { apply from_be_to_be_u32. unfold u_range, MAX_FRAME_PAYLOAD in *. lia. }
  pose proof (length_to_be 4 (stream_raw (stream_id f))) as Hls.
  pose proof (length_to_be 4 n) as Hlp.
  destruct (to_be 4 (stream_raw (stream_id f))) as [|s0 [|s1 [|s2 [|s3 [|]]]]];
    try discriminate.
  destruct (to_be 4 n) as [|n0 [|n1 [|n2 [|n3 [|]]]]]; try discriminate.
  unfold byte_at. cbn -[from_be b2z z2b FrameType_as_u8 Z.ltb MAX_FRAME_PAYLOAD VERSION].
  rewrite Hs, Hp. rewrite (b2z_z2b_small (FrameType_as_u8 _)) by apply FrameType_as_u8_range.
  rewrite FrameType_from_as_u8.
  cbn -[from_be b2z z2b Z.ltb MAX_FRAME_PAYLOAD].
  rewrite (proj2 (Z.ltb_ge _ _)) by lia.
  unfold fresh_pending. rewrite Hfl. by destruct (stream_id f).
Qed.

Lemma parse_header_inv h p :
  length h = HEADER_LEN → parse_header h = Ok p →
  ∃ f n, h = header_bytes f n ∧ p = fresh_pending f n ∧
         flags f = 0 ∧ frame_typed f ∧ 0 ≤ n ≤ MAX_FRAME_PAYLOAD.
Proof.
  intros Hlen. do 16 (destruct h as [|? h]; [done|]). destruct h; [|done]. clear Hlen.
  unfold parse_header, byte_at. cbn [lookup list_lookup default]. intros H. inv_result.
  repeat match goal with
  | H : bool_decide (_ ≠ _) = false |- _ =>
      apply bool_decide_eq_false, dec_stable in H
  | H : negb _ = false |- _ => apply negb_false_iff, Z.eqb_eq in H
  | H : FrameType_from_raw _ = Some _ |- _ => apply FrameType_from_raw_Some in H
  | H : (_ <? _) = false |- _ => apply Z.ltb_ge in H
  end.
  simplify_eq. unfold id in *.
  match goal with
  | Hfl : from_be [?x; ?y] = 0, Hv : b2z ?v = VERSION, Ht : b2z ?t = FrameType_as_u8 ?ft,
    Hn : from_be ?nb ≤ _ |- context [MkStreamId (from_be ?sb)] =>
      exists (MkFrame ft 0 (MkStreamId (from_be sb)) []), (from_be nb);
      pose proof (from_be_range sb); pose proof (from_be_range nb);
      rewrite header_bytes_be; cbn [frame_type flags stream_id stream_raw];
      rewrite !to_be_from_be by done;
      rewrite (b2z_literal _ _ Hv), (b2z_literal _ _ Ht);
      rewrite <-Hfl at 1; rewrite to_be_from_be by done
  end.
  unfold fresh_pending, frame_typed. cbn [frame_type flags stream_id stream_raw].
  split_and!; try congruence; try done; try lia.
  match goal with H : _ = MAGIC |- _ => by rewrite <-H end.
Qed.

(** ** What a successful decode means *)

Lemma decode_bytes_encode f rest :
  frame_ok f → frame_typed f →
  decode_bytes (encode_frame f ++ rest) = (Ok (Some f), rest).
Proof.
  intros Hf Ht. pose proof (frame_ok_len _ Hf). pose proof (zlen_nonneg (payload f)).
  unfold decode_bytes, encode_frame. rewrite <-app_assoc.
  rewrite bool_decide_eq_false_2 by done.
  rewrite (proj2 (Nat.ltb_ge _ _))
    by (rewrite length_app, length_header_bytes; lia).
  rewrite take_app_length', drop_app_length' by done.
  rewrite parse_header_bytes by (done || apply Hf || lia).
  cbn [fresh_pending p_payload p_frame_type p_flags p_stream_id].
  rewrite length_replicate. unfold zlen. rewrite Nat2Z.id.
  rewrite (proj2 (Nat.ltb_ge _ _)) by (rewrite length_app; lia).
  rewrite take_app_length, drop_app_length. by rewrite Frame_new_id.
Qed.

Lemma decode_bytes_frame_inv s f rest :
  decode_bytes s = (Ok (Some f), rest) →
  frame_ok f ∧ frame_typed f ∧ s = encode_frame f ++ rest.
Proof.
  unfold decode_bytes. case_bool_decide; [done|].
  destruct (Nat.ltb_spec (length s) HEADER_LEN); [done|].
  destruct (parse_header (take HEADER_LEN s)) as [p|] eqn:Hp; [|done].
  apply parse_header_inv in Hp as (g & n & Hh & -> & Hfl & Hty & Hn);
    [|rewrite length_take; lia].
  cbn [fresh_pending p_payload p_frame_type p_flags p_stream_id].
  rewrite length_replicate. destruct (Nat.ltb_spec (length (drop HEADER_LEN s)) (Z.to_nat n));
    [done|].
  destruct (Frame_new _ _ _ _) as [f'|] eqn:Hf; [|done]. intros [= -> <-].
  apply Frame_new_Ok in Hf as [-> Hok]. split_and!; [done|done|].
  unfold encode_frame. cbn [payload]. rewrite <-app_assoc, take_drop.
  assert (zlen (take (Z.to_nat n) (drop HEADER_LEN s)) = n) as ->
    by (unfold zlen; rewrite length_take; lia).
  rewrite <-(take_drop HEADER_LEN s) at 1. rewrite Hh. done.
Qed.

(** ** Decoder invariant and refinement *)

(** The bytes of the current frame the decoder has already taken. *)
Definition consumed (d : FrameDecoder) : bytes :=
  match d_pending d with
  | None => take (d_header_offset d) (d_header d)
  | Some p => d_header d ++ take (p_offset p) (p_payload p)
  end.

Definition pending_of (p0 : PendingFrame) (buf : bytes) (off : nat) : PendingFrame :=
  MkPending (p_frame_type p0) (p_flags p0) (p_stream_id p0) buf off.

Record dec_wf (d : FrameDecoder) : Prop := {
  dec_header : length (d_header d) = HEADER_LEN;
  dec_offset : (d_header_offset d < HEADER_LEN)%nat;
  dec_pending : ∀ p, d_pending d = Some p →
    d_header_offset d = 0%nat ∧ (p_offset p ≤ length (p_payload p))%nat ∧
    ∃ p0, parse_header (d_header d) = Ok p0 ∧
          p = pending_of p0 (p_payload p) (p_offset p) ∧
          length (p_payload p) = length (p_payload p0)
}.

(** Outcome of one call on a clean stream, relative to the reference parser. *)
Definition decode_post (d : FrameDecoder) (r : reader)
    (out : option (Result ProtocolError (option Frame)) * FrameDecoder * reader) : Prop :=
  let '(res, d', r') := out in
  dec_wf d' ∧ clean r' ∧
  match res with
  | Some v =>
      decode_bytes (consumed d ++ bytes_of r) = (v, bytes_of r') ∧
      consumed d' = [] ∧ cancels r' = cancels r
  | None =>
      consumed d' ++ bytes_of r' = consumed d ++ bytes_of r ∧
      cancels r = S (cancels r')
  end.

Lemma HEADER_LEN_pos : (0 < HEADER_LEN)%nat.
Proof. vm_compute. lia. Qed.

Lemma dec_wf_idle h : length h = HEADER_LEN → dec_wf (MkDecoder h 0 None).
Proof. intros. split; [done|apply HEADER_LEN_pos|done]. Qed.

Lemma dec_wf_new : dec_wf FrameDecoder_new.
Proof. by apply dec_wf_idle. Qed.

Lemma decode_bytes_past_header h p0 rest :
  length h = HEADER_LEN → parse_header h = Ok p0 →
  decode_bytes (h ++ rest) =
    let n := length (p_payload p0) in
    if Nat.ltb (length rest) n
    then (Err (PE_TruncatedPayload (zlen rest) (Z.of_nat n)), [])
    else (Some <$> Frame_new (p_frame_type p0) (p_flags p0) (p_stream_id p0) (take n rest),
          drop n rest).
Proof.
  intros Hh Hp. unfold decode_bytes.
  rewrite bool_decide_eq_false_2 by (by destruct h).
  rewrite (proj2 (Nat.ltb_ge _ _)) by (rewrite length_app; lia).
  rewrite take_app_length', drop_app_length' by done. by rewrite Hp.
Qed.

Lemma decode_pending_spec d p r :
  dec_wf d → d_pending d = Some p → clean r → decode_post d r (decode_pending d p r).
Proof.
  intros Hwf Hp Hclean.
  destruct (dec_pending _ Hwf p Hp) as (Hho & Hoff & p0 & Hparse & Heq & Hlen).
  unfold decode_pending, decode_post, consumed. rewrite Hp.
  destruct (fill r (p_payload p) (p_offset p)) as [[[stop buf] off] r'] eqn:Hf.
  apply fill_spec in Hf as [H1 H2 H3 H4 H5 H6 H7 H8 H9]; [|done|done].
  pose proof (dec_wf_idle (d_header d) (dec_header _ Hwf)) as Hidle.
  assert (p_frame_type p = p_frame_type p0 ∧ p_flags p = p_flags p0
    ∧ p_stream_id p = p_stream_id p0) as (Hm1 & Hm2 & Hm3) by (rewrite Heq; done).
  rewrite <-app_assoc, H3.
  destruct stop as [| |e|]; cbn beta iota.
  - specialize (H5 eq_refl). subst off. rewrite Hho.
    split_and!; [done|done| |done|by apply H8].
    rewrite (decode_bytes_past_header _ p0) by (apply Hwf || done).
    rewrite (take_ge buf) by lia. cbn zeta.
    rewrite (proj2 (Nat.ltb_ge _ _)) by (rewrite length_app; lia).
    rewrite take_app_length', drop_app_length' by lia. by rewrite Hm1, Hm2, Hm3.
  - destruct H6 as [-> Hlt]; [done|].
    split_and!; [done|done| |done|by apply H8].
    rewrite (decode_bytes_past_header _ p0) by (apply Hwf || done).
    rewrite app_nil_r. cbn zeta.
    assert (length (take off buf) = off) as Hl by (rewrite length_take; lia).
    rewrite (proj2 (Nat.ltb_lt _ _)) by lia.
    unfold zlen. by rewrite Hl, H1, Hlen.
  - naive_solver.
  - destruct H7 as [Hc Hlt]; [done|]. split_and!; [|done|cbn; by rewrite <-app_assoc|done].
    split; [apply Hwf|apply Hwf|]. intros q [= <-].
    split_and!; [done|cbn; lia|]. exists p0. split_and!; [done| |cbn; lia].
    unfold pending_of. by rewrite Hm1, Hm2, Hm3.
Qed.

Lemma decode_spec d r : dec_wf d → clean r → decode_post d r (decode d r).
Proof.
  intros Hwf Hclean. unfold decode. destruct (d_pending d) as [p|] eqn:Hp.
  { by apply decode_pending_spec. }
  destruct (fill r (d_header d) (d_header_offset d)) as [[[stop h] off] r'] eqn:Hf.
  pose proof (dec_header _ Hwf) as Hh. pose proof (dec_offset _ Hwf) as Ho.
  apply fill_spec in Hf as [H1 H2 H3 H4 H5 H6 H7 H8 H9]; [|done|lia].
  rewrite Hh in *. unfold decode_post.
  assert (consumed d = take (d_header_offset d) (d_header d)) as ->
    by (unfold consumed; by rewrite Hp).
  destruct stop as [| |e|].
  - specialize (H5 eq_refl). subst off. rewrite (take_ge h) in H3 by lia.
    destruct (parse_header h) as [p0|e] eqn:Hparse.
    + assert (dec_wf (MkDecoder h 0 (Some p0))) as Hwf'.
      { split; [done|apply HEADER_LEN_pos|]. intros q [= <-]. cbn.
        pose proof (parse_header_inv _ _ H1 Hparse) as (f & n & _ & -> & _).
        split_and!; [done|cbn; lia|]. by eexists. }
      pose proof (decode_pending_spec _ p0 r' Hwf' eq_refl H4) as Hpost.
      destruct (parse_header_inv _ _ H1 Hparse) as (f & n & _ & Hfresh & _).
      destruct (decode_pending _ p0 r') as [[res d'] r'']. unfold decode_post in Hpost.
      cbn [consumed d_pending d_header] in Hpost.
      rewrite Hfresh in Hpost. cbn [p_offset fresh_pending] in Hpost.
      rewrite take_0, app_nil_r in Hpost. rewrite H3.
      specialize (H8 ltac:(done)). rewrite H8 in Hpost. done.
    + split_and!; [by apply dec_wf_idle|done| |done|by apply H8].
      rewrite H3. unfold decode_bytes.
      rewrite bool_decide_eq_false_2 by (by destruct h).
      rewrite (proj2 (Nat.ltb_ge _ _)) by (rewrite length_app; lia).
      rewrite take_app_length', drop_app_length' by done. by rewrite Hparse.
  - destruct H6 as [-> Hlt]; [done|]. rewrite app_nil_r in H3. rewrite H3.
    assert (length (take off h) = off) as Hl by (rewrite length_take; lia).
    destruct (Nat.eqb_spec off 0) as [->|Hne].
    + split_and!; [by apply dec_wf_idle|done|done|done|by apply H8].
    + split_and!; [by apply dec_wf_idle|done| |done|by apply H8].
      unfold decode_bytes. rewrite bool_decide_eq_false_2.
      2: { intros Hn. rewrite Hn in Hl. cbn in Hl. lia. }
      rewrite (proj2 (Nat.ltb_lt _ _)) by lia. unfold zlen. by rewrite Hl.
  - naive_solver.
  - destruct H7 as [Hc Hlt]; [done|]. split_and!; [|done|done|done].
    split; [done|done|done].
Qed.

Lemma drive_spec n d r :
  dec_wf d → clean r → (cancels r ≤ n)%nat →
  ∃ v d' r', drive n d r = Some (v, d', r') ∧
    decode_bytes (consumed d ++ bytes_of r) = (v, bytes_of r') ∧
    dec_wf d' ∧ consumed d' = [] ∧ clean r' ∧ (cancels r' ≤ cancels r)%nat.
Proof.
  revert d r. induction n as [|n IH]; intros d r Hwf Hclean Hn; cbn [drive];
    pose proof (decode_spec d r Hwf Hclean) as Hpost;
    destruct (decode d r) as [[[v|] d'] r'];
    destruct Hpost as (Hwf' & Hclean' & Hpost); try (destruct Hpost as [? ?]; lia).
  - destruct Hpost as (? & ? & ?). exists v, d', r'. split_and!; try done; lia.
  - destruct Hpost as (? & ? & ?). exists v, d', r'. split_and!; try done; lia.
  - destruct Hpost as [Hb Hc].
    destruct (IH d' r') as (v & d'' & r'' & Hd & Hv & ?); [done..|lia|].
    exists v, d'', r''. rewrite <-Hb. split_and!; try done; naive_solver lia.
Qed.

(** ** Whole streams *)

(** [encode] called once per frame, stopping at the first error. *)
Fixpoint send_all (w : writer) (fs : list Frame) : writer * Result ProtocolError unit :=
  match fs with
  | [] => (w, Ok tt)
  | f :: fs =>
      match encode w f with
      | (w', Ok _) => send_all w' fs
      | (w', Err e) => (w', Err e)
      end
  end.

Definition sound (out : bytes) : writer := Writer out None None.

Lemma send_all_Ok fs out w' :
  send_all (sound out) fs = (w', Ok tt) →
  Forall frame_ok fs ∧ w' = sound (out ++ mjoin (encode_frame <$> fs)).
Proof.
  revert out. induction fs as [|f fs IH]; intros out; cbn [send_all].
  { intros [= <-]. cbn. by rewrite app_nil_r. }
  destruct (validate_frame f) as [[]|e] eqn:Hv.
  - apply validate_frame_Ok in Hv. rewrite encode_ok by done. cbn [w_out sound].
    intros [Hfs ->]%(IH (out ++ encode_frame f)). split; [by constructor|].
    cbn. by rewrite <-app_assoc.
  - unfold encode. rewrite Hv. done.
Qed.

Lemma encode_frame_nonempty f : encode_frame f ≠ [].
Proof. done. Qed.

Lemma recv_all_frames fs d r :
  Forall frame_ok fs → Forall frame_typed fs → dec_wf d → clean r → consumed d = [] →
  bytes_of r = mjoin (encode_frame <$> fs) →
  recv_all (length fs) d r = (fs, Some (Ok tt)).
Proof.
  intros Hok. revert d r. induction Hok as [|f fs Hf Hok IH];
    intros d r Hty Hwf Hcl Hcon Hb;
    destruct (drive_spec (cancels r) d r) as (v & d' & r' & Hd & Hv & Hwf' & Hcon' & Hcl' & _);
    try done; cbn [recv_all length]; rewrite Hd, Hcon, Hb in *.
  - cbn in Hv. by injection Hv as <- _.
  - inversion_clear Hty. cbn [fmap list_fmap mjoin list_join app] in Hv.
    rewrite decode_bytes_encode in Hv by done. injection Hv as <- Hr'.
    rewrite (IH d' r') by done. done.
Qed.

(** ** Theorems *)

(** C9. Cancellation safety and functional correctness of the incremental
    decoder: on any error-free stream, however it is cut into reads and however
    often the decode future is dropped and restarted, the decoder returns after
    at most one call per cancellation plus one, with exactly the verdict of the
    one-shot parser on the bytes of the stream, and leaves the rest unread. *)
Theorem decode_refines_reference r :
  clean r →
  ∃ d' r', drive (cancels r) FrameDecoder_new r
             = Some ((decode_bytes (bytes_of r)).1, d', r') ∧
           bytes_of r' = (decode_bytes (bytes_of r)).2 ∧ dec_wf d' ∧ consumed d' = [].
Proof.
  intros Hr. destruct (drive_spec (cancels r) FrameDecoder_new r)
    as (v & d' & r' & Hd & Hv & ?); [apply dec_wf_new|done|done|].
  cbn [consumed FrameDecoder_new d_pending d_header_offset] in Hv.
  rewrite take_0 in Hv. cbn [app] in Hv.
  exists d', r'. rewrite Hv. naive_solver.
Qed.

Definition hello_frame : Frame := MkFrame Hello 0 (MkStreamId 0) (bstr "hi").
Definition choppy : reader :=
  Cancel :: (encode_frame hello_frame ≫= λ b, [Data [b]; Cancel]).

Lemma decode_refines_reference_witness :
  clean choppy ∧ ∃ d' r', drive (cancels choppy) FrameDecoder_new choppy
    = Some (Ok (Some hello_frame), d', r').
Proof.
  assert (clean choppy) as Hc by (repeat constructor; done).
  split; [exact Hc|].
  destruct (decode_refines_reference choppy Hc) as (d' & r' & H & _).
  exists d', r'. exact H.
Defined.

(** The decoder accepts exactly the encodings: a byte string yields frame
    [f] with remainder [rest] iff [f] satisfies the frame invariant (no flags,
    bounded payload, scope matching the stream id) and the string is the
    canonical encoding of [f] followed by [rest]. *)
Theorem decode_accepts_exactly_encodings s f rest :
  decode_bytes s = (Ok (Some f), rest) ↔
  frame_ok f ∧ frame_typed f ∧ s = encode_frame f ++ rest.
Proof.
  split; [apply decode_bytes_frame_inv|].
  intros (? & ? & ->). by apply decode_bytes_encode.
Qed.

(** Sending then receiving is the identity on frame sequences: if [encode]
    accepted every frame and the transport delivers the written bytes in any
    chunking, with any cancellations of the receiver, then the receiver obtains
    the same frames in order followed by a clean end of stream. *)
Theorem send_recv_roundtrip fs w' r :
  Forall frame_typed fs →
  send_all (sound []) fs = (w', Ok tt) →
  clean r → bytes_of r = w_out w' →
  recv_all (length fs) FrameDecoder_new r = (fs, Some (Ok tt)).
Proof.
  intros Hty [Hok ->]%send_all_Ok Hr Hb.
  apply recv_all_frames; auto using dec_wf_new.
Qed.

Definition three_frames : list Frame :=
  [hello_frame; MkFrame DataFrame 0 (MkStreamId 7) []; MkFrame Ping 0 (MkStreamId 0) (bstr "x")].

Lemma send_recv_roundtrip_witness :
  recv_all 3 FrameDecoder_new [Cancel; Data (mjoin (encode_frame <$> three_frames)); Cancel]
    = (three_frames, Some (Ok tt)).
Proof.
  apply (send_recv_roundtrip three_frames (sound (mjoin (encode_frame <$> three_frames)))).
  - repeat constructor; vm_compute; congruence.
  - reflexivity.
  - repeat constructor; discriminate.
  - reflexivity.
Defined.

(** A stream that ends strictly inside a frame is always reported as a
    truncation, with the number of bytes that did arrive; it is never mistaken
    for a clean end of stream or for a shorter frame. *)
Theorem truncation_detected f n :
  frame_ok f → frame_typed f → (0 < n < length (encode_frame f))%nat →
  (decode_bytes (take n (encode_frame f))).1 =
    if Nat.ltb n HEADER_LEN then Err (PE_TruncatedHeader (Z.of_nat n))
    else Err (PE_TruncatedPayload (Z.of_nat n - HEADER_SIZE) (zlen (payload f))).
Proof.
  intros Hf Ht Hn. pose proof (frame_ok_len _ Hf). pose proof (zlen_nonneg (payload f)).
  unfold encode_frame in *. rewrite length_app, length_header_bytes in Hn.
  destruct (Nat.ltb_spec n HEADER_LEN) as [Hlt|Hge].
  - unfold decode_bytes. rewrite take_app_le by (rewrite length_header_bytes; lia).
    assert (length (take n (header_bytes f (zlen (payload f)))) = n) as Hl
      by (rewrite length_take, length_header_bytes; lia).
    rewrite bool_decide_eq_false_2 by (intros E; rewrite E in Hl; cbn in Hl; lia).
    rewrite (proj2 (Nat.ltb_lt _ _)) by lia. unfold zlen at 1. by rewrite Hl.
  - rewrite take_app_ge by (rewrite length_header_bytes; lia).
    rewrite (decode_bytes_past_header _ (fresh_pending f (zlen (payload f))))
      by (done || (apply parse_header_bytes; (done || apply Hf || lia))).
    cbv zeta; cbn [fresh_pending p_payload].
    rewrite length_replicate, length_take. unfold zlen in *. rewrite Nat2Z.id.
    rewrite length_header_bytes in *. change HEADER_SIZE with (Z.of_nat HEADER_LEN).
    rewrite (proj2 (Nat.ltb_lt _ _)) by lia. cbn [fst]. f_equal. f_equal. rewrite length_take. lia.
Qed.

Lemma truncation_detected_witness :
  (decode_bytes (take 17 (encode_frame hello_frame))).1 = Err (PE_TruncatedPayload 1 2).
Proof.
  apply (truncation_detected hello_frame 17).
  - apply validate_frame_Ok. reflexivity.
  - vm_compute. split; congruence.
  - vm_compute. lia.
Defined.

(** [encode] on a working writer: a frame that meets the invariant is
    written as its 16-byte header and payload and their total length is
    returned; any other frame leaves the writer untouched and gives an error. *)
Theorem encode_spec out f :
  encode (sound out) f =
  match validate_frame f with
  | Ok _ => (sound (out ++ encode_frame f), Ok (HEADER_SIZE + zlen (payload f)))
  | Err e => (sound out, Err e)
  end ∧ (is_ok (validate_frame f) = true ↔ frame_ok f).
Proof.
  destruct (validate_frame f) as [[]|e] eqn:Hv.
  - apply validate_frame_Ok in Hv as ?. split; [by rewrite encode_ok|done].
  - split; [unfold encode; by rewrite Hv|]. split; [done|].
    intros Hok%validate_frame_Ok. congruence.
Qed.
