(* ===== verification/Handshake.v ===== *)
(** * Handshake: payloads of HELLO, REGISTER, REGISTERED, PING/PONG and ERROR

    [crates/protocol/src/handshake.rs]: the registration request, the hello
    role, session identifiers, heartbeat sequences and the two error-code
    enumerations. *)

From S2P Require Import Prelude Text Identity Frame.

(** ** Registration requests *)

Definition ROLE_AGENT : Z := 1.
Definition REGISTER_PREFIX_SIZE : Z := 4.
Definition REGISTER_MAX_PAYLOAD_SIZE : Z :=
  REGISTER_PREFIX_SIZE + MAX_DURABLE_ID_BYTES * 2.

Record RegistrationRequest : Type := MkRegistrationRequest {
  rr_agent_id : AgentId;
  rr_tunnel_id : TunnelId
}.

#[global] Instance RegistrationRequest_eq_dec : EqDecision RegistrationRequest.
Proof. solve_decision. Defined.

Inductive RegistrationPayloadError : Type :=
| RP_TruncatedPrefix
| RP_TooLarge (actual : Z)
| RP_InvalidLength
| RP_InvalidUtf8
| RP_InvalidAgentId (e : DurableIdError)
| RP_InvalidTunnelId (e : DurableIdError).

#[global] Instance RegistrationPayloadError_eq_dec : EqDecision RegistrationPayloadError.
Proof. solve_decision. Defined.

(** [len as u16] keeps the low sixteen bits. *)
Definition RegistrationRequest_encode (q : RegistrationRequest) : bytes :=
  let agent := agent_str (rr_agent_id q) in
  let tunnel := tunnel_str (rr_tunnel_id q) in
  to_be 2 (wrap 16 (zlen agent)) ++ to_be 2 (wrap 16 (zlen tunnel)) ++ agent ++ tunnel.

Definition RegistrationRequest_decode (payload : bytes)
    : Result RegistrationPayloadError RegistrationRequest :=
  if zlen payload <? REGISTER_PREFIX_SIZE then Err RP_TruncatedPrefix
  else if REGISTER_MAX_PAYLOAD_SIZE <? zlen payload
  then Err (RP_TooLarge (zlen payload))
  else
    let agent_len := from_be (take 2 payload) in
    let tunnel_len := from_be (take 2 (drop 2 payload)) in
    expected ← ok_or RP_InvalidLength
      (checked_add USIZE_BITS REGISTER_PREFIX_SIZE agent_len ≫=
       λ size, checked_add USIZE_BITS size tunnel_len);
    if negb (expected =? zlen payload) then Err RP_InvalidLength
    else
      let agent_end := Z.to_nat (REGISTER_PREFIX_SIZE + agent_len) in
      agent ← ok_or RP_InvalidUtf8 (from_utf8 (drop 4 (take agent_end payload)));
      tunnel ← ok_or RP_InvalidUtf8 (from_utf8 (drop agent_end payload));
      agent_id ← map_err RP_InvalidAgentId (AgentId_new agent);
      tunnel_id ← map_err RP_InvalidTunnelId (TunnelId_new tunnel);
      Ok (MkRegistrationRequest agent_id tunnel_id).

(** The values the constructors can build. *)
Definition registration_ok (q : RegistrationRequest) : Prop :=
  durable_id_ok (agent_str (rr_agent_id q)) ∧ durable_id_ok (tunnel_str (rr_tunnel_id q)).

#[global] Instance registration_ok_dec q : Decision (registration_ok q).
Proof. unfold registration_ok. apply _. Defined.

(** ** Roles *)

Inductive HelloRole : Type := RoleAgent.

Definition HelloRole_as_u8 (r : HelloRole) : Z :=
  match r with RoleAgent => ROLE_AGENT end.
Definition HelloRole_from_byte (b : Z) : option HelloRole :=
  if b =? ROLE_AGENT then Some RoleAgent else None.
Definition HelloRole_try_from (b : Z) : Result unit HelloRole :=
  ok_or tt (HelloRole_from_byte b).

(** ** Session identifiers and heartbeat sequences: non-zero 64-bit numbers *)

Record TransportSessionId : Type := MkSessionId { session_raw : Z }.
Record HeartbeatSequence : Type := MkSequence { sequence_raw : Z }.

#[global] Instance TransportSessionId_eq_dec : EqDecision TransportSessionId.
Proof. solve_decision. Defined.
#[global] Instance HeartbeatSequence_eq_dec : EqDecision HeartbeatSequence.
Proof. solve_decision. Defined.
#[global] Program Instance TransportSessionId_countable : Countable TransportSessionId :=
  inj_countable' session_raw MkSessionId _.
Next Obligation. by intros []. Qed.

Definition SESSION_INVALID : TransportSessionId := MkSessionId 0.
Definition TransportSessionId_new (id : Z) : option TransportSessionId :=
  if id =? 0 then None else Some (MkSessionId id).
Definition TransportSessionId_is_invalid (s : TransportSessionId) : bool :=
  session_raw s =? 0.
Definition TransportSessionId_to_be_bytes (s : TransportSessionId) : bytes :=
  to_be 8 (session_raw s).
Definition TransportSessionId_from_be_bytes (bs : bytes) : option TransportSessionId :=
  TransportSessionId_new (from_be bs).

Definition SEQUENCE_FIRST : HeartbeatSequence := MkSequence 1.
Definition HeartbeatSequence_new (seq : Z) : option HeartbeatSequence :=
  if seq =? 0 then None else Some (MkSequence seq).
Definition HeartbeatSequence_is_invalid (s : HeartbeatSequence) : bool :=
  sequence_raw s =? 0.
Definition HeartbeatSequence_to_be_bytes (s : HeartbeatSequence) : bytes :=
  to_be 8 (sequence_raw s).
Definition HeartbeatSequence_from_be_bytes (bs : bytes) : option HeartbeatSequence :=
  HeartbeatSequence_new (from_be bs).
Definition HeartbeatSequence_checked_next (s : HeartbeatSequence) : option HeartbeatSequence :=
  checked_add 64 (sequence_raw s) 1 ≫= HeartbeatSequence_new.

(** ** Error codes *)

Inductive HandshakeErrorCode : Type :=
| HC_UnexpectedFrame
| HC_InvalidHello
| HC_InvalidRegister
| HC_ProtocolViolation
| HC_UnauthorizedAgent
| HC_UnauthorizedTunnel
| HC_TunnelDisabled
| HC_TunnelAlreadyConnected.

#[global] Instance HandshakeErrorCode_eq_dec : EqDecision HandshakeErrorCode.
Proof. solve_decision. Defined.

Definition HandshakeErrorCode_as_u16 (c : HandshakeErrorCode) : Z :=
  match c with
  | HC_UnexpectedFrame => 1 | HC_InvalidHello => 2
  | HC_InvalidRegister => 3 | HC_ProtocolViolation => 4
  | HC_UnauthorizedAgent => 5 | HC_UnauthorizedTunnel => 6
  | HC_TunnelDisabled => 7 | HC_TunnelAlreadyConnected => 8
  end.
Definition HandshakeErrorCode_of_u16 (code : Z) : option HandshakeErrorCode :=
  match code with
  | 1 => Some HC_UnexpectedFrame | 2 => Some HC_InvalidHello
  | 3 => Some HC_InvalidRegister | 4 => Some HC_ProtocolViolation
  | 5 => Some HC_UnauthorizedAgent | 6 => Some HC_UnauthorizedTunnel
  | 7 => Some HC_TunnelDisabled | 8 => Some HC_TunnelAlreadyConnected
  | _ => None
  end.
Definition HandshakeErrorCode_to_be_bytes (c : HandshakeErrorCode) : bytes :=
  to_be 2 (HandshakeErrorCode_as_u16 c).
Definition HandshakeErrorCode_from_be_bytes (bs : bytes) : option HandshakeErrorCode :=
  HandshakeErrorCode_of_u16 (from_be bs).
Definition HandshakeErrorCode_try_from (code : Z) : Result unit HandshakeErrorCode :=
  ok_or tt (HandshakeErrorCode_of_u16 code).

Inductive HeartbeatErrorCode : Type :=
| HB_HeartbeatTimeout
| HB_HeartbeatSequenceMismatch
| HB_UnsolicitedPong
| HB_AgentPingNotSupported
| HB_InvalidHeartbeatPayload
| HB_UnexpectedFrame.

#[global] Instance HeartbeatErrorCode_eq_dec : EqDecision HeartbeatErrorCode.
Proof. solve_decision. Defined.

Definition HeartbeatErrorCode_as_u16 (c : HeartbeatErrorCode) : Z :=
  match c with
  | HB_HeartbeatTimeout => 1 | HB_HeartbeatSequenceMismatch => 2
  | HB_UnsolicitedPong => 3 | HB_AgentPingNotSupported => 4
  | HB_InvalidHeartbeatPayload => 5 | HB_UnexpectedFrame => 6
  end.
Definition HeartbeatErrorCode_of_u16 (code : Z) : option HeartbeatErrorCode :=
  match code with
  | 1 => Some HB_HeartbeatTimeout | 2 => Some HB_HeartbeatSequenceMismatch
  | 3 => Some HB_UnsolicitedPong | 4 => Some HB_AgentPingNotSupported
  | 5 => Some HB_InvalidHeartbeatPayload | 6 => Some HB_UnexpectedFrame
  | _ => None
  end.
Definition HeartbeatErrorCode_to_be_bytes (c : HeartbeatErrorCode) : bytes :=
  to_be 2 (HeartbeatErrorCode_as_u16 c).
Definition HeartbeatErrorCode_from_be_bytes (bs : bytes) : option HeartbeatErrorCode :=
  HeartbeatErrorCode_of_u16 (from_be bs).
Definition HeartbeatErrorCode_try_from (code : Z) : Result unit HeartbeatErrorCode :=
  ok_or tt (HeartbeatErrorCode_of_u16 code).

(** ** Fixed-size wire values

    What the session code relies on when it reads a fixed-size payload: the
    encoding has the fixed size, decodes to itself, and every byte string of
    that size that decodes is the encoding of the result. *)

Class WireValue (A : Type) : Type := {
  wv_size : nat;
  wv_ok : A → Prop;
  wv_enc : A → bytes;
  wv_dec : bytes → option A;
  wv_length : ∀ a, length (wv_enc a) = wv_size;
  wv_dec_enc : ∀ a, wv_ok a → wv_dec (wv_enc a) = Some a;
  wv_enc_dec : ∀ bs a, length bs = wv_size → wv_dec bs = Some a → wv_enc a = bs ∧ wv_ok a
}.

(** Two-byte codes given by a numbering of an enumeration. *)
Section codes.
Context {C : Type} (as_u16 : C → Z) (of_u16 : Z → option C).
Context (as_range : ∀ c, u_range 16 (as_u16 c)).
Context (of_as : ∀ c, of_u16 (as_u16 c) = Some c).
Context (as_of : ∀ z c, of_u16 z = Some c → as_u16 c = z).

Program Definition code_value : WireValue C := {|
  wv_size := 2; wv_ok := λ _, True;
  wv_enc := λ c, to_be 2 (as_u16 c); wv_dec := λ bs, of_u16 (from_be bs) |}.
Next Obligation. intros; apply length_to_be. Qed.
Next Obligation. intros; cbn beta. rewrite from_be_to_be_u16; auto. Qed.
Next Obligation.
  intros bs c Hl Hd. split; [|done]. rewrite (as_of _ _ Hd). by apply to_be_from_be.
Qed.
End codes.

(** Non-zero eight-byte numbers. *)
Section numbers.
Context {N : Type} (raw : N → Z) (mk : Z → N).
Context (raw_mk : ∀ z, raw (mk z) = z) (mk_raw : ∀ n, mk (raw n) = n).

Program Definition nonzero_value : WireValue N := {|
  wv_size := 8; wv_ok := λ n, 0 < raw n < 2 ^ 64;
  wv_enc := λ n, to_be 8 (raw n);
  wv_dec := λ bs, if from_be bs =? 0 then None else Some (mk (from_be bs)) |}.
Next Obligation. intros; apply length_to_be. Qed.
Next Obligation.
  intros n Hn; cbn beta in *. rewrite from_be_to_be_u64 by (unfold u_range; lia).
  rewrite (proj2 (Z.eqb_neq _ _)) by lia. by rewrite mk_raw.
Qed.
Next Obligation.
  intros bs n Hl Hd; cbn beta in *. pose proof (from_be_u_range bs 8 Hl) as Hr.
  destruct (Z.eqb_spec (from_be bs) 0); simplify_eq. rewrite raw_mk.
  split; [by apply to_be_from_be|]. unfold u_range in Hr. lia.
Qed.
End numbers.

#[global] Instance StreamResetCode_value : WireValue StreamResetCode.
Proof.
  refine (code_value StreamResetCode_as_u16 StreamResetCode_of_u16 _ _ _).
  - intros []; by vm_compute.
  - by intros [].
  - unfold StreamResetCode_of_u16. intros. repeat case_match; by simplify_eq.
Defined.

#[global] Instance HandshakeErrorCode_value : WireValue HandshakeErrorCode.
Proof.
  refine (code_value HandshakeErrorCode_as_u16 HandshakeErrorCode_of_u16 _ _ _).
  - intros []; by vm_compute.
  - by intros [].
  - unfold HandshakeErrorCode_of_u16. intros. repeat case_match; by simplify_eq.
Defined.

#[global] Instance HeartbeatErrorCode_value : WireValue HeartbeatErrorCode.
Proof.
  refine (code_value HeartbeatErrorCode_as_u16 HeartbeatErrorCode_of_u16 _ _ _).
  - intros []; by vm_compute.
  - by intros [].
  - unfold HeartbeatErrorCode_of_u16. intros. repeat case_match; by simplify_eq.
Defined.

#[global] Instance TransportSessionId_value : WireValue TransportSessionId.
Proof. refine (nonzero_value session_raw MkSessionId _ _); [done|by intros []]. Defined.

#[global] Instance HeartbeatSequence_value : WireValue HeartbeatSequence.
Proof. refine (nonzero_value sequence_raw MkSequence _ _); [done|by intros []]. Defined.

(** ** Registration lemmas *)

Lemma registration_encode_eq q :
  registration_ok q →
  RegistrationRequest_encode q =
    to_be 2 (zlen (agent_str (rr_agent_id q))) ++
    to_be 2 (zlen (tunnel_str (rr_tunnel_id q))) ++
    agent_str (rr_agent_id q) ++ tunnel_str (rr_tunnel_id q).
Proof.
  intros [Ha%durable_id_ok_len Ht%durable_id_ok_len]. unfold RegistrationRequest_encode.
  by rewrite !wrap_small by (unfold u_range; lia).
Qed.

Lemma registration_decode_encode q :
  registration_ok q → RegistrationRequest_decode (RegistrationRequest_encode q) = Ok q.
Proof.
  intros Hq. rewrite registration_encode_eq by done. destruct Hq as [Ha Ht].
  destruct q as [[a] [t]]. cbn [rr_agent_id rr_tunnel_id agent_str tunnel_str] in *.
  pose proof (durable_id_ok_len _ Ha). pose proof (durable_id_ok_len _ Ht).
  assert (∀ x, length (to_be 2 x) = 2%nat) as Hl by (intros; apply length_to_be).
  unfold RegistrationRequest_decode. rewrite !zlen_app, !zlen_to_be.
  rewrite !(proj2 (Z.ltb_ge _ _)) by (unfold REGISTER_MAX_PAYLOAD_SIZE,
    REGISTER_PREFIX_SIZE, MAX_DURABLE_ID_BYTES; lia).
  rewrite !take_to_be, drop_to_be, take_to_be.
  rewrite !from_be_to_be_u16 by (unfold u_range; lia).
  unfold checked_add, REGISTER_PREFIX_SIZE, USIZE_BITS.
  rewrite (proj2 (Z.ltb_lt (4 + zlen a) _)) by lia. cbn [mbind option_bind].
  rewrite (proj2 (Z.ltb_lt _ _)) by lia. cbn [ok_or mbind result_bind].
  rewrite (proj2 (Z.eqb_eq _ _)) by lia. cbn [negb].
  assert (Z.to_nat (4 + zlen a) = 4 + length a)%nat as -> by (unfold zlen; lia).
  rewrite (app_assoc (to_be 2 (zlen a))).
  set (p := to_be 2 (zlen a) ++ to_be 2 (zlen t)).
  assert (length p = 4%nat) as Hp by (unfold p; rewrite length_app, !Hl; done).
  rewrite (app_assoc p), take_app_length', drop_app_length', drop_app_length'
    by (rewrite ?length_app; lia).
  rewrite !durable_id_ok_utf8 by done. cbn [ok_or mbind result_bind].
  rewrite (proj2 (AgentId_new_Ok a (MkAgentId a))), (proj2 (TunnelId_new_Ok t (MkTunnelId t)))
    by done. done.
Qed.

Lemma registration_decode_inv p q :
  RegistrationRequest_decode p = Ok q →
  registration_ok q ∧ p = RegistrationRequest_encode q.
Proof.
  unfold RegistrationRequest_decode. intros H. inv_result.
  repeat match goal with
  | H : from_utf8 _ = Some _ |- _ => apply from_utf8_Some in H; subst
  | H : AgentId_new _ = Ok _ |- _ => apply AgentId_new_Ok in H as [-> ?]
  | H : TunnelId_new _ = Ok _ |- _ => apply TunnelId_new_Ok in H as [-> ?]
  end.
  assert (registration_ok (MkRegistrationRequest
    (MkAgentId (drop 4 (take (Z.to_nat (REGISTER_PREFIX_SIZE + from_be (take 2 p))) p)))
    (MkTunnelId (drop (Z.to_nat (REGISTER_PREFIX_SIZE + from_be (take 2 p))) p)))) as Hok
    by done.
  split; [done|]. rewrite registration_encode_eq by done.
  cbn [rr_agent_id rr_tunnel_id agent_str tunnel_str].
  rewrite Z.ltb_ge, negb_false_iff, Z.eqb_eq in *.
  apply bind_Some in H0 as (n & [-> _]%checked_add_Some & [-> _]%checked_add_Some).
  destruct p as [|b0 [|b1 [|b2 [|b3 p]]]]; try done.
  cbn [take drop] in *. rewrite take_0 in *. unfold REGISTER_PREFIX_SIZE in *.
  pose proof (from_be_range [b0; b1]). pose proof (from_be_range [b2; b3]).
  set (n := from_be [b0; b1]) in *. set (m := from_be [b2; b3]) in *.
  assert (Z.to_nat (4 + n) = 4 + Z.to_nat n)%nat as -> by lia. cbn [Nat.add take drop].
  rewrite !zlen_cons in *. rewrite !drop_0.
  assert (zlen (take (Z.to_nat n) p) = n) as -> by (unfold zlen in *; rewrite length_take; lia).
  assert (zlen (drop (Z.to_nat n) p) = m) as -> by (unfold zlen in *; rewrite length_drop; lia).
  unfold n, m. rewrite !to_be_from_be by done. cbn [app]. by rewrite take_drop.
Qed.

(** ** Theorems *)

(** REGISTER payloads: decoding succeeds exactly on the canonical encoding
    of a request with two valid identifiers, and every such encoding fits the
    advertised maximum of 132 bytes. *)
Theorem registration_canonical p q :
  (RegistrationRequest_decode p = Ok q ↔
   registration_ok q ∧ p = RegistrationRequest_encode q) ∧
  (registration_ok q → zlen (RegistrationRequest_encode q) ≤ REGISTER_MAX_PAYLOAD_SIZE).
Proof.
  split; [split; [apply registration_decode_inv|]|].
  - intros [? ->]. by apply registration_decode_encode.
  - intros Hq. rewrite registration_encode_eq by done. destruct Hq as [Ha Ht].
    apply durable_id_ok_len in Ha, Ht. rewrite !zlen_app, !zlen_to_be.
    unfold REGISTER_MAX_PAYLOAD_SIZE, REGISTER_PREFIX_SIZE, MAX_DURABLE_ID_BYTES. lia.
Qed.

(** All fixed-size control payloads (reset, handshake-error and
    heartbeat-error codes, session identifiers, heartbeat sequences) decode to
    what was encoded, and a payload of the right size decodes only if it is the
    encoding of the result; zero session identifiers and sequences never decode. *)
Theorem control_values_roundtrip :
  (∀ c, StreamResetCode_from_be_bytes (StreamResetCode_to_be_bytes c) = Some c) ∧
  (∀ c, HandshakeErrorCode_from_be_bytes (HandshakeErrorCode_to_be_bytes c) = Some c) ∧
  (∀ c, HeartbeatErrorCode_from_be_bytes (HeartbeatErrorCode_to_be_bytes c) = Some c) ∧
  (∀ bs s, length bs = 8%nat → TransportSessionId_from_be_bytes bs = Some s ↔
     TransportSessionId_to_be_bytes s = bs ∧ 0 < session_raw s < 2 ^ 64) ∧
  (∀ bs s, length bs = 8%nat → HeartbeatSequence_from_be_bytes bs = Some s ↔
     HeartbeatSequence_to_be_bytes s = bs ∧ 0 < sequence_raw s < 2 ^ 64).
Proof.
  split_and!.
  - intros c. exact (wv_dec_enc c I).
  - intros c. exact (wv_dec_enc c I).
  - intros c. exact (wv_dec_enc c I).
  - intros bs s Hl. split; [exact (wv_enc_dec bs s Hl)|].
    intros [<- Hs]. exact (wv_dec_enc s Hs).
  - intros bs s Hl. split; [exact (wv_enc_dec bs s Hl)|].
    intros [<- Hs]. exact (wv_dec_enc s Hs).
Qed.

(** Heartbeat sequences never wrap: the successor of a valid sequence is the
    next number, still valid, and there is none exactly at the 64-bit maximum. *)
Theorem heartbeat_next_no_wrap s :
  0 < sequence_raw s < 2 ^ 64 →
  match HeartbeatSequence_checked_next s with
  | Some s' => sequence_raw s' = sequence_raw s + 1 ∧ 0 < sequence_raw s' < 2 ^ 64
  | None => sequence_raw s = 2 ^ 64 - 1
  end.
Proof.
  intros Hs. unfold HeartbeatSequence_checked_next, checked_add.
  destruct (Z.ltb_spec (sequence_raw s + 1) (2 ^ 64)); cbn [mbind option_bind]; [|lia].
  unfold HeartbeatSequence_new. rewrite (proj2 (Z.eqb_neq _ _)) by lia. simpl. lia.
Qed.

Lemma heartbeat_next_no_wrap_witness :
  match HeartbeatSequence_checked_next (MkSequence (2 ^ 64 - 1)) with
  | Some s' => sequence_raw s' = 2 ^ 64 - 1 + 1 ∧ 0 < sequence_raw s' < 2 ^ 64
  | None => 2 ^ 64 - 1 = 2 ^ 64 - 1
  end.
Proof. apply (heartbeat_next_no_wrap (MkSequence (2 ^ 64 - 1))). simpl. lia. Defined.
