(* ===== verification/Cursor.v ===== *)
(** * Cursor: bounded parsing of message payloads, and the message envelope

    The private [Cursor] of [crates/protocol/src/enrollment.rs] and
    [hostname.rs] and the [Input] of [crates/control-plane/src/snapshot_codec.rs]
    are one parser over a borrowed slice with an offset; they differ in the
    error a short input gives.  [Format p R] says that [p] accepts exactly the
    byte strings that [R] relates to the value it returns, and the combinator
    lemmas compute [R] along the structure of a parser.

    The second half is the 12-byte header envelope that the enrollment and the
    hostname protocol both put around a payload. *)

From S2P Require Import Prelude Text AsyncIo.

(** ** The cursor *)

Record Cursor : Type := MkCursor { c_bytes : bytes; c_offset : Z }.

Definition Cursor_new (bs : bytes) : Cursor := MkCursor bs 0.

(** [Cursor::take], before the error is chosen. *)
Definition cursor_take (length : Z) (c : Cursor) : option (bytes * Cursor) :=
  end_ ← checked_add USIZE_BITS (c_offset c) length;
  if (c_offset c <=? end_) && (end_ <=? zlen (c_bytes c)) then
    Some (take (Z.to_nat length) (drop (Z.to_nat (c_offset c)) (c_bytes c)),
          MkCursor (c_bytes c) end_)
  else None.

Definition cursor_is_empty (c : Cursor) : bool := c_offset c =? zlen (c_bytes c).

(** ** Parsers *)

Definition Parser (E A : Type) : Type := Cursor → Result E (A * Cursor).

#[global] Instance Parser_ret {E} : MRet (Parser E) := λ A a c, Ok (a, c).
#[global] Instance Parser_bind {E} : MBind (Parser E) := λ A B f m c,
  match m c with Ok (a, c') => f a c' | Err e => Err e end.

Definition p_lift {E A} (x : Result E A) : Parser E A := λ c,
  match x with Ok a => Ok (a, c) | Err e => Err e end.

(** [for _ in 0..n { items.push(p()?) }] *)
Fixpoint p_repeat {E A} (n : nat) (p : Parser E A) : Parser E (list A) :=
  match n with
  | O => mret []
  | S n' => x ← p; xs ← p_repeat n' p; mret (x :: xs)
  end.

Section primitives.
Context {E : Type} (short : E).

Definition p_take (n : Z) : Parser E bytes := λ c, ok_or short (cursor_take n c).
Definition p_array (n : Z) : Parser E bytes := p_take n.
Definition p_uint (n : nat) : Parser E Z :=
  bs ← p_array (Z.of_nat n); mret (from_be bs).
Definition p_u8 : Parser E Z := p_uint 1.
Definition p_u16 : Parser E Z := p_uint 2.
Definition p_u32 : Parser E Z := p_uint 4.
Definition p_u64 : Parser E Z := p_uint 8.

(** A length of [n] bytes, then that many bytes. *)
Definition p_prefixed (n : nat) : Parser E bytes :=
  length ← p_uint n; p_take length.
Definition p_string (n : nat) (not_utf8 : E) : Parser E str :=
  bs ← p_prefixed n; p_lift (ok_or not_utf8 (from_utf8 bs)).
End primitives.

(** Run a parser on a whole payload. *)
Definition parse_all {E A} (p : Parser E A) (trailing : E) (payload : bytes) : Result E A :=
  match p (Cursor_new payload) with
  | Ok (a, c) => if cursor_is_empty c then Ok a else Err trailing
  | Err e => Err e
  end.

(** ** Formats *)

Definition cursor_wf (c : Cursor) : Prop :=
  0 ≤ c_offset c ≤ zlen (c_bytes c) ∧ zlen (c_bytes c) < 2 ^ USIZE_BITS.
Definition rest (c : Cursor) : bytes := drop (Z.to_nat (c_offset c)) (c_bytes c).
Definition advance (c : Cursor) (s : bytes) : Cursor :=
  MkCursor (c_bytes c) (c_offset c + zlen s).

Definition Format {E A} (p : Parser E A) (R : A → bytes → Prop) : Prop :=
  ∀ c a c', cursor_wf c →
    p c = Ok (a, c') ↔ ∃ s, R a s ∧ s `prefix_of` rest c ∧ c' = advance c s.

Lemma zlen_rest c : cursor_wf c → zlen (rest c) = zlen (c_bytes c) - c_offset c.
Proof. intros [? ?]. unfold rest, zlen in *. rewrite length_drop. lia. Qed.

Lemma prefix_zlen {A} (s t : list A) : s `prefix_of` t → zlen s ≤ zlen t.
Proof. intros ?%prefix_length. unfold zlen. lia. Qed.

Lemma advance_wf c s : cursor_wf c → s `prefix_of` rest c → cursor_wf (advance c s).
Proof.
  intros Hc Hs%prefix_zlen. rewrite zlen_rest in Hs by done. destruct Hc.
  pose proof (zlen_nonneg s). unfold cursor_wf, advance. simpl. lia.
Qed.

Lemma rest_advance c s t : cursor_wf c → rest c = s ++ t → rest (advance c s) = t.
Proof.
  intros [? ?] Hr. unfold rest, advance in *. simpl.
  pose proof (zlen_nonneg s). rewrite Z2Nat.inj_add by lia.
  rewrite <-drop_drop, Hr. unfold zlen. by rewrite Nat2Z.id, drop_app_length.
Qed.

Lemma advance_app c s t : advance (advance c s) t = advance c (s ++ t).
Proof. unfold advance. simpl. f_equal. rewrite zlen_app. lia. Qed.

Lemma advance_nil c : advance c [] = c.
Proof. destruct c. unfold advance. simpl. f_equal. rewrite zlen_nil. lia. Qed.

Section formats.
Context {E : Type}.

Lemma format_ext {A} (p : Parser E A) R R' :
  Format p R → (∀ a s, R a s ↔ R' a s) → Format p R'.
Proof. intros Hp HR c a c' Hc. rewrite (Hp c a c' Hc). by setoid_rewrite HR. Qed.

Lemma format_ret {A} (x : A) : Format (E:=E) (mret x) (λ a s, a = x ∧ s = []).
Proof.
  intros c a c' Hc. split.
  - intros [= <- <-]. exists []. rewrite advance_nil. split_and!; try done.
    apply prefix_nil.
  - intros (s & [-> ->] & _ & ->). by rewrite advance_nil.
Qed.

Lemma format_lift {A} (x : Result E A) : Format (p_lift x) (λ a s, x = Ok a ∧ s = []).
Proof.
  intros c a c' Hc. unfold p_lift. destruct x as [y|e]; [|naive_solver].
  rewrite (format_ret y c a c' Hc). naive_solver.
Qed.

Lemma format_bind {A B} (p : Parser E A) (k : A → Parser E B) R Rk :
  Format p R → (∀ a s, R a s → Format (k a) (Rk a)) →
  Format (p ≫= k) (λ b s, ∃ a s1 s2, s = s1 ++ s2 ∧ R a s1 ∧ Rk a b s2).
Proof.
  intros Hp Hk c b c' Hc. unfold mbind, Parser_bind. split.
  - destruct (p c) as [[a c1]|e] eqn:H1; [|done]. intros H2.
    apply (Hp c a c1 Hc) in H1 as (s1 & HR & [t Ht] & ->).
    apply (Hk a s1 HR) in H2 as (s2 & HRk & Hs2 & ->).
    2: { apply advance_wf; [done|]. by exists t. }
    rewrite (rest_advance c s1 t) in Hs2 by done.
    exists (s1 ++ s2). rewrite advance_app. split_and!; [naive_solver| |done].
    rewrite Ht. by apply prefix_app.
  - intros (s & (a & s1 & s2 & -> & HR & HRk) & Hpre & ->).
    destruct Hpre as [t Ht]. rewrite <-app_assoc in Ht.
    assert (p c = Ok (a, advance c s1)) as ->.
    { apply Hp; [done|]. exists s1. split_and!; [done| |done]. by eexists. }
    apply (Hk a s1 HR); [apply advance_wf; [done|by eexists]|].
    exists s2. rewrite (rest_advance c s1 (s2 ++ t)), advance_app by done.
    split_and!; [done|by eexists|done].
Qed.

Lemma format_map {A B} (p : Parser E A) (f : A → B) R :
  Format p R → Format (x ← p; mret (f x)) (λ b s, ∃ a, b = f a ∧ R a s).
Proof.
  intros Hp. eapply format_ext.
  { eapply format_bind; [done|]. intros. apply format_ret. }
  intros b s. split.
  - intros (a & s1 & s2 & -> & HR & -> & ->). rewrite app_nil_r. by eauto.
  - intros (a & -> & HR). exists a, s, []. by rewrite app_nil_r.
Qed.

Lemma format_lift_bind {A B} (x : Result E A) (k : A → Parser E B) Rk :
  (∀ a, x = Ok a → Format (k a) (Rk a)) →
  Format (p_lift x ≫= k) (λ b s, ∃ a, x = Ok a ∧ Rk a b s).
Proof.
  intros Hk c b c' Hc. unfold mbind, Parser_bind, p_lift. destruct x as [a|e].
  - rewrite (Hk a eq_refl c b c' Hc). naive_solver.
  - naive_solver.
Qed.

Lemma format_guard {A} (b : bool) (e : E) (p : Parser E A) R :
  Format p R → Format (if b then p_lift (Err e) else p) (λ a s, b = false ∧ R a s).
Proof.
  intros Hp c a c' Hc. destruct b; [naive_solver|].
  rewrite (Hp c a c' Hc). naive_solver.
Qed.

Lemma format_take (short : E) n :
  0 ≤ n → Format (p_take short n) (λ a s, a = s ∧ zlen s = n).
Proof.
  intros Hn c a c' Hc. pose proof (zlen_rest c Hc) as Hr. destruct Hc as [Ho Hlen].
  unfold p_take, cursor_take. rewrite ok_or_Ok, bind_Some.
  setoid_rewrite checked_add_Some. split.
  - intros (? & [-> Hlt] & H). case_match eqn:Hle; simplify_eq.
    exists (take (Z.to_nat n) (rest c)). fold (rest c).
    assert (zlen (take (Z.to_nat n) (rest c)) = n) as Hz.
    { unfold zlen in *. rewrite length_take. lia. }
    unfold advance. rewrite Hz. split_and!; try done. apply prefix_take.
  - intros (s & [-> Hs] & Hp & ->). exists (c_offset c + n).
    pose proof (prefix_zlen _ _ Hp). destruct Hp as [t Ht]. split; [lia|].
    rewrite !(proj2 (Z.leb_le _ _)) by lia. cbn [andb]. unfold advance.
    fold (rest c). rewrite Ht, take_app_length' by (unfold zlen in *; lia).
    by rewrite Hs.
Qed.

Lemma format_uint (short : E) n :
  Format (p_uint short n) (λ z s, u_range (8 * Z.of_nat n) z ∧ s = to_be n z).
Proof.
  eapply format_ext.
  { eapply format_bind; [apply format_take; lia|]. intros. apply format_ret. }
  intros z s. split.
  - intros (a & s1 & s2 & -> & [-> Hs] & [-> ->]). rewrite app_nil_r.
    assert (length s1 = n) by (unfold zlen in *; lia).
    split; [by apply from_be_u_range|by rewrite to_be_from_be].
  - intros [Hz ->]. exists (to_be n z), (to_be n z), []. rewrite app_nil_r.
    rewrite zlen_to_be, from_be_to_be; done.
Qed.

Lemma format_prefixed (short : E) n :
  Format (p_prefixed short n)
    (λ v s, u_range (8 * Z.of_nat n) (zlen v) ∧ s = to_be n (zlen v) ++ v).
Proof.
  eapply format_ext.
  { eapply format_bind; [apply format_uint|].
    intros z s [Hz _]. apply (format_take short z). unfold u_range in Hz. lia. }
  intros v s. split.
  - intros (a & s1 & s2 & -> & [? ->] & [-> <-]). done.
  - intros [? ->]. exists (zlen v), (to_be n (zlen v)), v. done.
Qed.

Lemma format_string (short not_utf8 : E) n :
  Format (p_string short n not_utf8)
    (λ v s, u_range (8 * Z.of_nat n) (zlen v) ∧ utf8_valid v = true ∧
            s = to_be n (zlen v) ++ v).
Proof.
  eapply format_ext.
  { eapply format_bind; [apply format_prefixed|]. intros. apply format_lift. }
  intros v s. setoid_rewrite ok_or_Ok. unfold from_utf8. split.
  - intros (a & s1 & s2 & -> & [? ->] & [Hu ->]). rewrite app_nil_r.
    case_match; by simplify_eq.
  - intros (? & Hu & ->). exists v, (to_be n (zlen v) ++ v), [].
    by rewrite app_nil_r, Hu.
Qed.

Lemma format_repeat {A} n (p : Parser E A) R :
  Format p R →
  Format (p_repeat n p)
    (λ l s, length l = n ∧ ∃ ss, Forall2 R l ss ∧ s = mjoin ss).
Proof.
  intros Hp. induction n as [|n IH]; simpl.
  - eapply format_ext; [apply format_ret|]. intros l s. split.
    + intros [-> ->]. split; [done|]. exists []. by split; [constructor|].
    + intros [->%nil_length_inv (ss & H & ->)]. by inversion_clear H.
  - eapply format_ext.
    { eapply format_bind; [done|]. intros. eapply format_bind; [done|].
      intros. apply format_ret. }
    intros l s. split.
    + intros (x & s1 & s2 & -> & HR & (xs & s3 & s4 & -> & [Hl (ss & HF & ->)] & [-> ->])).
      split; [simpl; lia|]. exists (s1 :: ss). rewrite app_nil_r.
      by split; [constructor|].
    + intros [Hl (ss & HF & ->)]. destruct l as [|x xs]; [done|].
      inversion_clear HF as [|? s1 ? ss' HR HF']. exists x, s1, (mjoin ss').
      split_and!; [done|done|]. exists xs, (mjoin ss'), []. rewrite app_nil_r.
      split_and!; [done|simpl in Hl; lia|by eexists|done..].
Qed.

(** A parser run on a whole payload accepts exactly its format. *)
Lemma parse_all_Ok {A} (p : Parser E A) R e payload a :
  Format p R → zlen payload < 2 ^ USIZE_BITS →
  parse_all p e payload = Ok a ↔ R a payload.
Proof.
  intros Hp Hlen. unfold parse_all.
  assert (cursor_wf (Cursor_new payload)) as Hc
    by (pose proof (zlen_nonneg payload); split; simpl; lia).
  assert (rest (Cursor_new payload) = payload) as Hrest by done.
  split.
  - destruct (p _) as [[b c]|] eqn:H; [|done]. apply Hp in H as (s & HR & [t Ht] & ->); [|done].
    case_match eqn:He; [|done]. intros [= ->]. rewrite Hrest in Ht.
    unfold cursor_is_empty, advance in He. apply Z.eqb_eq in He. simpl in He.
    rewrite Ht, zlen_app in He. assert (t = []) as -> by (destruct t; [done|];
      rewrite zlen_cons in He; pose proof (zlen_nonneg t); lia).
    by rewrite Ht, app_nil_r.
  - intros HR. assert (p (Cursor_new payload) = Ok (a, advance (Cursor_new payload) payload))
      as ->. { apply Hp; [done|]. exists payload. by rewrite Hrest. }
    unfold cursor_is_empty, advance. simpl. by rewrite Z.eqb_refl.
Qed.
End formats.

(** Walk a parser, computing its format. *)
Ltac format_walk :=
  repeat first
    [ apply format_ret | apply format_lift | apply format_uint | apply format_string
    | apply format_prefixed | (apply format_take; done) | apply format_guard
    | apply format_map | (apply format_lift_bind; intros ? ?)
    | eapply format_bind; [|intros ? ? ?] ].

(** Prove a computed format from the shape of the bytes. *)
Ltac format_build :=
  repeat match goal with |- ∃ _, _ => eexists | |- _ ∧ _ => split end;
  try reflexivity; try done.

(** ** The message envelope

    [EnrollmentProtocolError] and [HostnameProtocolError] have the same five
    constructors. *)

Inductive MessageProtocolError : Type :=
| MP_Io (e : io_error)
| MP_InvalidHeader
| MP_InvalidMessageType
| MP_InvalidPayload
| MP_MessageTooLarge.

#[global] Instance MessageProtocolError_eq_dec : EqDecision MessageProtocolError.
Proof. solve_decision. Defined.

Definition MESSAGE_HEADER_BYTES : Z := 12.

(** What distinguishes one protocol from the other. *)
Record Envelope (M : Type) : Type := MkEnvelope {
  env_magic : bytes;
  env_version : Z;
  env_max : Z;
  env_encode : M → Result MessageProtocolError (Z * bytes);
  env_decode : Z → bytes → Result MessageProtocolError M
}.
Arguments env_magic {M}.
Arguments env_version {M}.
Arguments env_max {M}.
Arguments env_encode {M}.
Arguments env_decode {M}.

Section envelope.
Context {M : Type} (env : Envelope M).

Definition message_header (message_type len : Z) : bytes :=
  env_magic env ++ [z2b (env_version env); z2b message_type; x00%byte; x00%byte]
    ++ to_be 4 (wrap 32 len).

Definition write_message (w : writer) (m : M) : writer * Result MessageProtocolError unit :=
  match env_encode env m with
  | Err e => (w, Err e)
  | Ok (message_type, payload) =>
      if env_max env <? zlen payload then (w, Err MP_MessageTooLarge)
      else
        w_bind (w_err MP_Io (write_all w (message_header message_type (zlen payload)))) (λ w _,
        w_bind (w_err MP_Io (write_all w payload)) (λ w _,
        w_err MP_Io (flush w)))
  end.

Definition header_ok (h : bytes) : bool :=
  bool_decide (take 4 h = env_magic env) &&
  bool_decide (h !! 4%nat = Some (z2b (env_version env))) &&
  bool_decide (h !! 6%nat = Some x00%byte) && bool_decide (h !! 7%nat = Some x00%byte).

Definition read_message : IoM MessageProtocolError (option M) :=
  first ← io_read MP_Io 1;
  match first with
  | [] => mret None
  | _ =>
      tail ← io_read_exact MP_Io 11;
      let header := first ++ tail in
      if negb (header_ok header) then io_lift (Err MP_InvalidHeader)
      else
        let payload_len := from_be (drop 8 header) in
        if env_max env <? payload_len then io_lift (Err MP_MessageTooLarge)
        else
          payload ← io_read_exact MP_Io (Z.to_nat payload_len);
          io_lift (Some <$> env_decode env (b2z (default x00%byte (header !! 5%nat))) payload)
  end.
End envelope.

(** What a payload codec promises the envelope. *)
Class EnvelopeLaws {M} (env : Envelope M) (ok : M → Prop) : Prop := {
  env_magic_len : length (env_magic env) = 4%nat;
  env_max_small : 0 ≤ env_max env < 2 ^ 32;
  env_canonical : ∀ ty p m, 0 ≤ ty < 256 → zlen p ≤ env_max env →
    env_decode env ty p = Ok m ↔ ok m ∧ env_encode env m = Ok (ty, p);
  env_type_range : ∀ m ty p, env_encode env m = Ok (ty, p) → 0 ≤ ty < 256
}.

Section envelope_laws.
Context {M : Type} (env : Envelope M) (ok : M → Prop) `{!EnvelopeLaws env ok}.

(** The bytes of a message on the wire. *)
Definition message_bytes (ty : Z) (p : bytes) : bytes :=
  message_header env ty (zlen p) ++ p.

Lemma write_message_sound out m :
  write_message env (Writer out None None) m =
  match env_encode env m with
  | Err e => (Writer out None None, Err e)
  | Ok (ty, p) =>
      if env_max env <? zlen p then (Writer out None None, Err MP_MessageTooLarge)
      else (Writer (out ++ message_bytes ty p) None None, Ok tt)
  end.
Proof.
  unfold write_message, message_bytes. destruct (env_encode env m) as [[ty p]|]; [|done].
  case_match; [done|]. cbn. by rewrite app_assoc.
Qed.

Lemma read_message_complete r ty p m tl :
  steady r → ok m → env_encode env m = Ok (ty, p) → zlen p ≤ env_max env →
  bytes_of r = message_bytes ty p ++ tl →
  ∃ r', read_message env r = (Some (Ok (Some m)), r') ∧ steady r' ∧ bytes_of r' = tl.
Proof.
  intros Hr Hok Henc Hmax Hb.
  pose proof (env_type_range _ _ _ Henc) as Hty. pose proof env_max_small as Hsm.
  pose proof (zlen_nonneg p) as Hp0. pose proof (env_magic_len (env:=env)) as Hm.
  unfold message_bytes, message_header in Hb.
  destruct (env_magic env) as [|m0 [|m1 [|m2 [|m3 []]]]] eqn:Hmagic; try done.
  rewrite wrap_small in Hb by (unfold u_range; lia).
  set (ver := z2b (env_version env)) in *.
  set (hd := [m1; m2; m3; ver; z2b ty; x00%byte; x00%byte] ++ to_be 4 (zlen p)).
  assert (bytes_of r = m0 :: (hd ++ p ++ tl)) as Hb'.
  { rewrite Hb. unfold hd. cbn [app]. by rewrite <-!app_assoc. }
  destruct (io_read_one MP_Io r m0 _ Hr Hb') as (r1 & H1 & Hr1 & Hb1).
  destruct (io_read_exact_enough MP_Io 11 r1 hd (p ++ tl)) as (r2 & H2 & Hr2 & Hb2);
    [done|done|by unfold hd; rewrite length_app, length_to_be|].
  destruct (io_read_exact_enough MP_Io (length p) r2 p tl) as (r3 & H3 & Hr3 & Hb3);
    [done..|].
  exists r3. split_and!; [|done|done]. unfold read_message.
  erewrite io_bind_run by exact H1. cbn beta iota. erewrite io_bind_run by exact H2.
  unfold hd, header_ok. rewrite Hmagic. cbn [app drop take lookup list_lookup].
  rewrite !bool_decide_eq_true_2 by done. cbn [andb negb].
  rewrite drop_0, from_be_to_be_u32 by (unfold u_range; lia).
  rewrite (proj2 (Z.ltb_ge _ _)) by lia. unfold zlen at 1. rewrite Nat2Z.id.
  erewrite io_bind_run by exact H3. unfold io_lift. cbn [default].
  unfold id. rewrite b2z_z2b_small by done.
  by rewrite (proj2 (env_canonical ty p m Hty Hmax)).
Qed.

Lemma read_message_sound r m r' :
  steady r → read_message env r = (Some (Ok (Some m)), r') →
  ∃ ty p, ok m ∧ env_encode env m = Ok (ty, p) ∧ zlen p ≤ env_max env ∧
          bytes_of r = message_bytes ty p ++ bytes_of r'.
Proof.
  intros Hr H. pose proof (env_magic_len (env:=env)) as Hm. pose proof env_max_small.
  apply io_bind_inv in H as (first & r1 & H1 & H).
  destruct (bytes_of r) as [|b0 bs] eqn:Hb.
  { apply steady_no_bytes in Hb as ->; [|done]. cbn in H1. by simplify_eq/=. }
  destruct (io_read_one MP_Io r b0 bs Hr Hb) as (? & H1' & Hr1 & Hb1).
  rewrite H1 in H1'. simplify_eq.
  apply io_bind_inv in H as (tail & r2 & H2 & H).
  apply io_read_exact_inv in H2 as (Hl & Hb2 & Hr2); [|done]. cbv zeta in H.
  destruct (header_ok env ([b0] ++ tail)) eqn:Hh; [|done].
  cbn [negb] in H. destruct (Z.ltb_spec (env_max env) (from_be (drop 8 ([b0] ++ tail))));
    [done|].
  apply io_bind_inv in H as (payload & r3 & H3 & H).
  apply io_read_exact_inv in H3 as (Hpl & Hb3 & Hr3); [|done].
  unfold io_lift in H. simplify_eq.
  do 11 (destruct tail as [|? tail]; [done|]). destruct tail; [|done].
  cbn [app drop lookup list_lookup default] in *. unfold id in *.
  destruct (env_decode env _ payload) as [m'|] eqn:Hd; simplify_eq/=.
  unfold header_ok in Hh. rewrite !andb_true_iff, !bool_decide_eq_true in Hh.
  destruct Hh as (((Hmg & Hv) & H6) & H7). simplify_eq/=.
  match type of Hpl with _ = Z.to_nat (from_be ?l) => pose proof (from_be_range l) as Hfr;
    assert (from_be l = zlen payload) as Hlen by (unfold zlen; lia) end.
  apply env_canonical in Hd as [Hok He]; [|apply b2z_range|lia].
  do 2 eexists. split_and!; [done|done|lia|].
  unfold message_bytes, message_header. rewrite <-Hlen, wrap_small by exact Hfr.
  rewrite <-Hmg, z2b_b2z, to_be_from_be by done. by rewrite Hb2, Hb3.
Qed.
End envelope_laws.
