(* ===== verification/EnrollmentProto.v ===== *)
(** * EnrollmentProto: the certificate-enrollment protocol

    [crates/protocol/src/enrollment.rs]: message types, payload codec, the
    redacting [Debug] output, and the envelope instance. *)

From S2P Require Import Prelude Text Hex AsyncIo Identity Cursor.

Definition ENROLLMENT_PROTOCOL_MAGIC : bytes := bstr "TPE1".
Definition ENROLLMENT_PROTOCOL_VERSION : Z := 1.
Definition MAX_ENROLLMENT_MESSAGE_BYTES : Z := 64 * 1024.
Definition TOKEN_BYTES : Z := 32.
Definition REQUEST_ID_BYTES : Z := 16.
Definition FINGERPRINT_BYTES : Z := 32.

Record EnrollmentToken : Type := MkToken { token_bytes : bytes }.
Record EnrollmentRequestId : Type := MkRequestId { request_id_bytes : bytes }.

#[global] Instance EnrollmentToken_eq_dec : EqDecision EnrollmentToken.
Proof. solve_decision. Defined.
#[global] Instance EnrollmentRequestId_eq_dec : EqDecision EnrollmentRequestId.
Proof. solve_decision. Defined.

Inductive EnrollmentErrorCode : Type :=
| EE_InvalidRequest
| EE_Unauthorized
| EE_TokenExpired
| EE_IdentityMismatch
| EE_InvalidCsr
| EE_Conflict
| EE_Internal
| EE_CredentialRevoked
| EE_RequestExpired.

#[global] Instance EnrollmentErrorCode_eq_dec : EqDecision EnrollmentErrorCode.
Proof. solve_decision. Defined.

Definition EnrollmentErrorCode_as_u16 (c : EnrollmentErrorCode) : Z :=
  match c with
  | EE_InvalidRequest => 1 | EE_Unauthorized => 2 | EE_TokenExpired => 3
  | EE_IdentityMismatch => 4 | EE_InvalidCsr => 5 | EE_Conflict => 6
  | EE_Internal => 7 | EE_CredentialRevoked => 8 | EE_RequestExpired => 9
  end.

Definition EnrollmentErrorCode_from_raw (value : Z)
    : Result MessageProtocolError EnrollmentErrorCode :=
  match value with
  | 1 => Ok EE_InvalidRequest | 2 => Ok EE_Unauthorized | 3 => Ok EE_TokenExpired
  | 4 => Ok EE_IdentityMismatch | 5 => Ok EE_InvalidCsr | 6 => Ok EE_Conflict
  | 7 => Ok EE_Internal | 8 => Ok EE_CredentialRevoked | 9 => Ok EE_RequestExpired
  | _ => Err MP_InvalidPayload
  end.

Inductive EnrollmentMessage : Type :=
| Enroll (request_id : EnrollmentRequestId) (token next_renewal_token : EnrollmentToken)
    (agent_id : AgentId) (tunnel_id : TunnelId) (csr_der : bytes)
| Issued (request_id : EnrollmentRequestId) (generation not_after_unix : Z)
    (certificate_pem server_ca_pem fingerprint : bytes)
| Activate (request_id : EnrollmentRequestId) (renewal_token : EnrollmentToken)
    (fingerprint : bytes)
| Activated (snapshot_version : Z)
| EnrollmentError (code : EnrollmentErrorCode).

#[global] Instance EnrollmentMessage_eq_dec : EqDecision EnrollmentMessage.
Proof. solve_decision. Defined.

(** ** Encoding *)

Definition push_id (output : bytes) (value : str) : Result MessageProtocolError bytes :=
  length ← ok_or MP_InvalidPayload (u_try_from 8 (zlen value));
  Ok (output ++ to_be 1 length ++ value).

Definition push_bytes (output value : bytes) : Result MessageProtocolError bytes :=
  length ← ok_or MP_MessageTooLarge (u_try_from 32 (zlen value));
  Ok (output ++ to_be 4 length ++ value).

Definition encode_payload (m : EnrollmentMessage) : Result MessageProtocolError (Z * bytes) :=
  match m with
  | Enroll request_id token next_renewal_token agent_id tunnel_id csr_der =>
      let output := request_id_bytes request_id ++ token_bytes token
                      ++ token_bytes next_renewal_token in
      output ← push_id output (agent_str agent_id);
      output ← push_id output (tunnel_str tunnel_id);
      output ← push_bytes output csr_der;
      Ok (1, output)
  | Issued request_id generation not_after_unix certificate_pem server_ca_pem fingerprint =>
      let output := request_id_bytes request_id ++ to_be 8 generation
                      ++ to_be 8 not_after_unix in
      output ← push_bytes output certificate_pem;
      output ← push_bytes output server_ca_pem;
      Ok (2, output ++ fingerprint)
  | Activate request_id renewal_token fingerprint =>
      Ok (3, request_id_bytes request_id ++ token_bytes renewal_token ++ fingerprint)
  | Activated snapshot_version => Ok (4, to_be 8 snapshot_version)
  | EnrollmentError code => Ok (5, to_be 2 (EnrollmentErrorCode_as_u16 code))
  end.

(** ** Decoding *)

Abbreviation EParser := (Parser MessageProtocolError).
Abbreviation e_array := (p_array MP_InvalidPayload).
Abbreviation e_u64 := (p_u64 MP_InvalidPayload).
Abbreviation e_string := (p_string MP_InvalidPayload 1 MP_InvalidPayload).
Abbreviation e_bytes := (p_prefixed MP_InvalidPayload 4).

Definition parse_enroll : EParser EnrollmentMessage :=
  request_id ← e_array REQUEST_ID_BYTES;
  token ← e_array TOKEN_BYTES;
  next ← e_array TOKEN_BYTES;
  agent ← e_string;
  agent_id ← p_lift (map_err (λ _, MP_InvalidPayload) (AgentId_new agent));
  tunnel ← e_string;
  tunnel_id ← p_lift (map_err (λ _, MP_InvalidPayload) (TunnelId_new tunnel));
  csr_der ← e_bytes;
  mret (Enroll (MkRequestId request_id) (MkToken token) (MkToken next)
          agent_id tunnel_id csr_der).

Definition parse_issued : EParser EnrollmentMessage :=
  request_id ← e_array REQUEST_ID_BYTES;
  generation ← e_u64;
  not_after ← e_u64;
  certificate ← e_bytes;
  server_ca ← e_bytes;
  fingerprint ← e_array FINGERPRINT_BYTES;
  mret (Issued (MkRequestId request_id) generation not_after certificate server_ca
          fingerprint).

Definition parse_activate : EParser EnrollmentMessage :=
  request_id ← e_array REQUEST_ID_BYTES;
  token ← e_array TOKEN_BYTES;
  fingerprint ← e_array FINGERPRINT_BYTES;
  mret (Activate (MkRequestId request_id) (MkToken token) fingerprint).

Definition parse_activated : EParser EnrollmentMessage :=
  version ← e_u64; mret (Activated version).

Definition parse_error : EParser EnrollmentMessage :=
  raw ← p_u16 MP_InvalidPayload;
  code ← p_lift (EnrollmentErrorCode_from_raw raw);
  mret (EnrollmentError code).

Definition decode_payload (message_type : Z) (payload : bytes)
    : Result MessageProtocolError EnrollmentMessage :=
  match message_type with
  | 1 => parse_all parse_enroll MP_InvalidPayload payload
  | 2 => parse_all parse_issued MP_InvalidPayload payload
  | 3 => parse_all parse_activate MP_InvalidPayload payload
  | 4 => parse_all parse_activated MP_InvalidPayload payload
  | 5 => parse_all parse_error MP_InvalidPayload payload
  | _ => Err MP_InvalidMessageType
  end.

Definition enrollment_envelope : Envelope EnrollmentMessage :=
  MkEnvelope _ ENROLLMENT_PROTOCOL_MAGIC ENROLLMENT_PROTOCOL_VERSION
    MAX_ENROLLMENT_MESSAGE_BYTES encode_payload decode_payload.

Definition write_enrollment_message : writer → EnrollmentMessage →
    writer * Result MessageProtocolError unit := write_message enrollment_envelope.
Definition read_enrollment_message : IoM MessageProtocolError (option EnrollmentMessage) :=
  read_message enrollment_envelope.

(** ** Debug output

    The structured output of [fmt]: the struct name and the named fields with
    the value each one is printed from. *)

Inductive debug_value : Type :=
| DRequestId (r : EnrollmentRequestId)
| DAgent (a : AgentId)
| DTunnel (t : TunnelId)
| DNumber (n : Z)
| DHex (digits : list byte)
| DCode (c : EnrollmentErrorCode).

Definition HexFingerprint_fmt (fp : bytes) : list byte :=
  fp ≫= λ b, [hex_digit (Z.shiftr (b2z b) 4); hex_digit (Z.land (b2z b) 15)].

Definition EnrollmentToken_fmt (t : EnrollmentToken) : string :=
  "EnrollmentToken([REDACTED])".

Definition EnrollmentMessage_fmt (m : EnrollmentMessage)
    : string * list (string * debug_value) :=
  match m with
  | Enroll request_id _ _ agent_id tunnel_id csr_der =>
      ("Enroll", [("request_id", DRequestId request_id); ("agent_id", DAgent agent_id);
                  ("tunnel_id", DTunnel tunnel_id); ("csr_bytes", DNumber (zlen csr_der))])
  | Issued request_id generation not_after_unix certificate_pem server_ca_pem fingerprint =>
      ("Issued", [("request_id", DRequestId request_id); ("generation", DNumber generation);
                  ("not_after_unix", DNumber not_after_unix);
                  ("certificate_bytes", DNumber (zlen certificate_pem));
                  ("server_ca_bytes", DNumber (zlen server_ca_pem));
                  ("fingerprint", DHex (HexFingerprint_fmt fingerprint))])
  | Activate request_id _ fingerprint =>
      ("Activate", [("request_id", DRequestId request_id);
                    ("fingerprint", DHex (HexFingerprint_fmt fingerprint))])
  | Activated snapshot_version =>
      ("Activated", [("snapshot_version", DNumber snapshot_version)])
  | EnrollmentError code => ("Error", [("code", DCode code)])
  end%string.

(** ** Well-formed messages: the values the field types admit *)

Definition enrollment_ok (m : EnrollmentMessage) : Prop :=
  match m with
  | Enroll r t n a u _ =>
      zlen (request_id_bytes r) = REQUEST_ID_BYTES ∧ zlen (token_bytes t) = TOKEN_BYTES ∧
      zlen (token_bytes n) = TOKEN_BYTES ∧ durable_id_ok (agent_str a) ∧
      durable_id_ok (tunnel_str u)
  | Issued r g n _ _ f =>
      zlen (request_id_bytes r) = REQUEST_ID_BYTES ∧ u_range 64 g ∧ u_range 64 n ∧
      zlen f = FINGERPRINT_BYTES
  | Activate r t f =>
      zlen (request_id_bytes r) = REQUEST_ID_BYTES ∧ zlen (token_bytes t) = TOKEN_BYTES ∧
      zlen f = FINGERPRINT_BYTES
  | Activated v => u_range 64 v
  | EnrollmentError _ => True
  end.

Ltac destruct_format :=
  repeat match goal with
  | H : ∃ _, _ |- _ => destruct H as [? H]
  | H : _ ∧ _ |- _ => destruct H
  | H : map_err _ _ = Ok _ |- _ => apply map_err_Ok in H
  | H : AgentId_new _ = Ok _ |- _ => apply AgentId_new_Ok in H
  | H : TunnelId_new _ = Ok _ |- _ => apply TunnelId_new_Ok in H
  end; subst.

Lemma push_id_Ok out v r :
  push_id out v = Ok r ↔ u_range 8 (zlen v) ∧ r = out ++ to_be 1 (zlen v) ++ v.
Proof.
  unfold push_id. rewrite bind_Ok. setoid_rewrite ok_or_Ok.
  setoid_rewrite u_try_from_Some. naive_solver.
Qed.

Lemma push_bytes_Ok out v r :
  push_bytes out v = Ok r ↔ u_range 32 (zlen v) ∧ r = out ++ to_be 4 (zlen v) ++ v.
Proof.
  unfold push_bytes. rewrite bind_Ok. setoid_rewrite ok_or_Ok.
  setoid_rewrite u_try_from_Some. naive_solver.
Qed.

Lemma code_from_raw_Ok z c :
  EnrollmentErrorCode_from_raw z = Ok c ↔ z = EnrollmentErrorCode_as_u16 c.
Proof.
  split; [|intros ->; by destruct c].
  unfold EnrollmentErrorCode_from_raw. intros. repeat case_match; by simplify_eq.
Qed.

(** The bytes of a message, when every length fits its prefix. *)
Lemma encode_payload_Ok m ty s :
  encode_payload m = Ok (ty, s) ↔
  match m with
  | Enroll r t n a u d =>
      ty = 1 ∧ (u_range 8 (zlen (agent_str a)) ∧ u_range 8 (zlen (tunnel_str u)) ∧
        u_range 32 (zlen d)) ∧
      s = request_id_bytes r ++ token_bytes t ++ token_bytes n ++
          (to_be 1 (zlen (agent_str a)) ++ agent_str a) ++
          (to_be 1 (zlen (tunnel_str u)) ++ tunnel_str u) ++ (to_be 4 (zlen d) ++ d)
  | Issued r g n c k f =>
      ty = 2 ∧ (u_range 32 (zlen c) ∧ u_range 32 (zlen k)) ∧
      s = request_id_bytes r ++ to_be 8 g ++ to_be 8 n ++
          (to_be 4 (zlen c) ++ c) ++ (to_be 4 (zlen k) ++ k) ++ f
  | Activate r t f => ty = 3 ∧ True ∧ s = request_id_bytes r ++ token_bytes t ++ f
  | Activated v => ty = 4 ∧ True ∧ s = to_be 8 v
  | EnrollmentError c => ty = 5 ∧ True ∧ s = to_be 2 (EnrollmentErrorCode_as_u16 c)
  end.
Proof.
  destruct m; unfold encode_payload; rewrite ?bind_Ok.
  - split.
    + intros H. destruct_format. inv_result. rewrite push_id_Ok, push_bytes_Ok in *.
      destruct_format. by rewrite <-!app_assoc.
    + intros (-> & (? & ? & ?) & ->). eexists. split; [by apply push_id_Ok|].
      apply bind_Ok. eexists. split; [by apply push_id_Ok|].
      apply bind_Ok. eexists. split; [by apply push_bytes_Ok|]. by rewrite <-!app_assoc.
  - split.
    + intros H. destruct_format. inv_result. rewrite push_bytes_Ok in *.
      destruct_format. by rewrite <-!app_assoc.
    + intros (-> & (? & ?) & ->). eexists. split; [by apply push_bytes_Ok|].
      apply bind_Ok. eexists. split; [by apply push_bytes_Ok|]. by rewrite <-!app_assoc.
  - naive_solver.
  - naive_solver.
  - naive_solver.
Qed.

Definition is_format (ty : Z) (p : EParser EnrollmentMessage) : Prop :=
  Format p (λ m s, enrollment_ok m ∧ encode_payload m = Ok (ty, s)).

Lemma parse_enroll_format : is_format 1 parse_enroll.
Proof.
  eapply format_ext; [unfold parse_enroll; format_walk|]. intros m s.
  rewrite encode_payload_Ok. split.
  - intros H. destruct_format. done.
  - destruct m as [[r] [t] [n] [a] [u] d| | | |]; intros [Hok H]; destruct_format; try done.
    destruct Hok as (? & ? & ? & ? & ?). format_build; auto with wire.
Qed.

Lemma parse_issued_format : is_format 2 parse_issued.
Proof.
  eapply format_ext; [unfold parse_issued; format_walk|]. intros m s.
  rewrite encode_payload_Ok. split.
  - intros H. destruct_format. done.
  - destruct m as [|[r] g n c k f| | |]; intros [Hok H]; destruct_format; try done.
    destruct Hok as (? & ? & ? & ?). format_build.
Qed.

Lemma parse_activate_format : is_format 3 parse_activate.
Proof.
  eapply format_ext; [unfold parse_activate; format_walk|]. intros m s.
  rewrite encode_payload_Ok. split.
  - intros H. destruct_format. done.
  - destruct m as [| |[r] [t] f| |]; intros [Hok H]; destruct_format; try done.
    destruct Hok as (? & ? & ?). format_build.
Qed.

Lemma parse_activated_format : is_format 4 parse_activated.
Proof.
  eapply format_ext; [unfold parse_activated; format_walk|]. intros m s.
  rewrite encode_payload_Ok. split.
  - intros H. destruct_format. done.
  - destruct m; intros [Hok H]; destruct_format; try done. format_build.
Qed.

Lemma parse_error_format : is_format 5 parse_error.
Proof.
  eapply format_ext; [unfold parse_error; format_walk|]. intros m s.
  rewrite encode_payload_Ok. split.
  - intros H. destruct_format.
    match goal with H : _ = Ok _ |- _ => apply code_from_raw_Ok in H as -> end. done.
  - destruct m as [| | | |c]; intros [Hok H]; destruct_format; try done. format_build.
    + by destruct c.
    + by apply code_from_raw_Ok.
Qed.

(** ** The codec meets the envelope's interface *)

Lemma decode_payload_Ok ty p m :
  zlen p ≤ MAX_ENROLLMENT_MESSAGE_BYTES →
  decode_payload ty p = Ok m ↔ enrollment_ok m ∧ encode_payload m = Ok (ty, p).
Proof.
  intros Hp. assert (zlen p < 2 ^ USIZE_BITS) as Hs
    by (unfold MAX_ENROLLMENT_MESSAGE_BYTES, USIZE_BITS in *; lia).
  assert (ty = 1 ∨ ty = 2 ∨ ty = 3 ∨ ty = 4 ∨ ty = 5 ∨
    (ty ≠ 1 ∧ ty ≠ 2 ∧ ty ≠ 3 ∧ ty ≠ 4 ∧ ty ≠ 5)) as [->|[->|[->|[->|[->|Hty]]]]] by lia;
    cbn [decode_payload].
  - apply (parse_all_Ok _ _ _ _ _ parse_enroll_format Hs).
  - apply (parse_all_Ok _ _ _ _ _ parse_issued_format Hs).
  - apply (parse_all_Ok _ _ _ _ _ parse_activate_format Hs).
  - apply (parse_all_Ok _ _ _ _ _ parse_activated_format Hs).
  - apply (parse_all_Ok _ _ _ _ _ parse_error_format Hs).
  - rewrite encode_payload_Ok. split; [|destruct m; lia].
    unfold decode_payload. repeat case_match; naive_solver lia.
Qed.

#[global] Instance enrollment_laws : EnvelopeLaws enrollment_envelope enrollment_ok.
Proof.
  split; [done|done| |].
  - intros. by apply decode_payload_Ok.
  - intros m ty p. cbn [env_encode enrollment_envelope]. rewrite encode_payload_Ok.
    destruct m; lia.
Qed.

(** ** Theorems *)

(** Enrollment messages survive the wire: whatever a party manages to write
    is read back by the peer unchanged, for any chunking of the transport, and
    the bytes that follow are left unread. *)
Theorem enrollment_roundtrip m out w' r tl :
  enrollment_ok m →
  write_enrollment_message (Writer out None None) m = (w', Ok tt) →
  steady r → out ++ bytes_of r = w_out w' ++ tl →
  ∃ r', read_enrollment_message r = (Some (Ok (Some m)), r') ∧ bytes_of r' = tl.
Proof.
  intros Hok Hw Hr Hb. unfold write_enrollment_message in Hw.
  rewrite write_message_sound in Hw.
  destruct (env_encode _ m) as [[ty p]|] eqn:He; [|done].
  destruct (Z.ltb_spec (env_max enrollment_envelope) (zlen p)); [done|].
  injection Hw as <-. cbn [w_out] in Hb. rewrite <-app_assoc in Hb. simplify_list_eq.
  destruct (read_message_complete enrollment_envelope enrollment_ok r ty p m tl)
    as (r' & ? & _ & ?); eauto.
Qed.

Definition sample_activate : EnrollmentMessage :=
  Activate (MkRequestId (replicate 16 x07%byte)) (MkToken (replicate 32 x09%byte))
    (replicate 32 xab%byte).

Lemma enrollment_roundtrip_witness :
  ∃ w', write_enrollment_message (Writer [] None None) sample_activate = (w', Ok tt) ∧
  ∃ r', read_enrollment_message [Data (take 5 (w_out w')); Data (drop 5 (w_out w'))]
        = (Some (Ok (Some sample_activate)), r') ∧ bytes_of r' = [].
Proof.
  eexists. split; [reflexivity|].
  eapply (enrollment_roundtrip sample_activate []).
  - by repeat split.
  - reflexivity.
  - split; [repeat constructor; discriminate|reflexivity].
  - reflexivity.
Defined.

(** A reader of the enrollment protocol accepts only canonical messages:
    when an undisturbed stream yields a message, the message is well formed, its
    payload respects the 64 KiB limit and the bytes consumed are exactly the
    encoding of that message. *)
Theorem enrollment_canonical r m r' :
  steady r → read_enrollment_message r = (Some (Ok (Some m)), r') →
  ∃ ty p, enrollment_ok m ∧ encode_payload m = Ok (ty, p) ∧
          zlen p ≤ MAX_ENROLLMENT_MESSAGE_BYTES ∧
          bytes_of r = message_bytes enrollment_envelope ty p ++ bytes_of r'.
Proof. intros Hr H. by apply (read_message_sound enrollment_envelope enrollment_ok). Qed.

Definition sample_wire : bytes :=
  ENROLLMENT_PROTOCOL_MAGIC ++
  [z2b 1; z2b 4; x00; x00; x00; x00; x00; x08; x00; x00; x00; x00; x00; x00; x00; x2a]%byte.

Lemma enrollment_canonical_witness :
  ∃ ty p, enrollment_ok (Activated 42) ∧ encode_payload (Activated 42) = Ok (ty, p) ∧
          zlen p ≤ MAX_ENROLLMENT_MESSAGE_BYTES ∧
          sample_wire = message_bytes enrollment_envelope ty p ++ bytes_of [].
Proof.
  apply (enrollment_canonical [Data sample_wire] (Activated 42) []).
  - split; [repeat constructor; discriminate|reflexivity].
  - reflexivity.
Defined.

(** Log redaction: the debug output of an enrollment message does not depend
    on any bearer token it carries, nor on the contents of the certificate
    request and certificates, only on their lengths. *)
Theorem debug_redacts_secrets :
  (∀ t t', EnrollmentToken_fmt t = EnrollmentToken_fmt t') ∧
  (∀ r a u t n d t' n' d', zlen d = zlen d' →
     EnrollmentMessage_fmt (Enroll r t n a u d) = EnrollmentMessage_fmt (Enroll r t' n' a u d')) ∧
  (∀ r f t t', EnrollmentMessage_fmt (Activate r t f) = EnrollmentMessage_fmt (Activate r t' f)) ∧
  (∀ r g e f c k c' k', zlen c = zlen c' → zlen k = zlen k' →
     EnrollmentMessage_fmt (Issued r g e c k f) = EnrollmentMessage_fmt (Issued r g e c' k' f)).
Proof. cbn. split_and!; try done; congruence. Qed.
