(* ===== verification/HostnameProto.v ===== *)
(** * HostnameProto: the managed-hostname protocol

    [crates/protocol/src/hostname.rs]. *)

From S2P Require Import Prelude Text AsyncIo Identity Cursor.

Definition HOSTNAME_PROTOCOL_MAGIC : bytes := bstr "TPH1".
Definition HOSTNAME_PROTOCOL_VERSION : Z := 1.
Definition MAX_HOSTNAME_MESSAGE_BYTES : Z := 1024.

Inductive HostnameErrorCode : Type :=
| HE_InvalidRequest
| HE_Unauthorized
| HE_Conflict
| HE_Capacity
| HE_Internal.

#[global] Instance HostnameErrorCode_eq_dec : EqDecision HostnameErrorCode.
Proof. solve_decision. Defined.

Definition HostnameErrorCode_as_u16 (c : HostnameErrorCode) : Z :=
  match c with
  | HE_InvalidRequest => 1 | HE_Unauthorized => 2 | HE_Conflict => 3
  | HE_Capacity => 4 | HE_Internal => 5
  end.

Definition HostnameErrorCode_from_raw (value : Z)
    : Result MessageProtocolError HostnameErrorCode :=
  match value with
  | 1 => Ok HE_InvalidRequest | 2 => Ok HE_Unauthorized | 3 => Ok HE_Conflict
  | 4 => Ok HE_Capacity | 5 => Ok HE_Internal
  | _ => Err MP_InvalidPayload
  end.

Inductive HostnameMessage : Type :=
| Allocate (agent_id : AgentId) (tunnel_id : TunnelId)
| Release (agent_id : AgentId) (tunnel_id : TunnelId)
| Allocated (hostname : PublicHostname) (catalog_version : Z) (changed : bool)
| Released (hostname : option PublicHostname) (catalog_version : Z) (changed : bool)
| HostnameError (code : HostnameErrorCode).

#[global] Instance HostnameMessage_eq_dec : EqDecision HostnameMessage.
Proof. solve_decision. Defined.

Definition nonzero_version (value : Z) : Result MessageProtocolError Z :=
  if value =? 0 then Err MP_InvalidPayload else Ok value.

(** ** Encoding *)

Definition push_string (output : bytes) (value : str) : Result MessageProtocolError bytes :=
  length ← ok_or MP_InvalidPayload (u_try_from 16 (zlen value));
  Ok (output ++ to_be 2 length ++ value).

Definition bool_byte (b : bool) : bytes := to_be 1 (if b then 1 else 0).

Definition is_some {A} (o : option A) : bool := match o with Some _ => true | None => false end.

Definition encode_hostname_payload (m : HostnameMessage)
    : Result MessageProtocolError (Z * bytes) :=
  match m with
  | Allocate agent_id tunnel_id =>
      output ← push_string [] (agent_str agent_id);
      output ← push_string output (tunnel_str tunnel_id);
      Ok (1, output)
  | Release agent_id tunnel_id =>
      output ← push_string [] (agent_str agent_id);
      output ← push_string output (tunnel_str tunnel_id);
      Ok (2, output)
  | Allocated hostname catalog_version changed =>
      _ ← nonzero_version catalog_version;
      output ← push_string [] (hostname_str hostname);
      Ok (3, output ++ to_be 8 catalog_version ++ bool_byte changed)
  | Released hostname catalog_version changed =>
      _ ← nonzero_version catalog_version;
      if negb (eqb changed (is_some hostname)) then Err MP_InvalidPayload
      else
        output ← match hostname with
                 | Some hostname => push_string (to_be 1 1) (hostname_str hostname)
                 | None => Ok (to_be 1 0)
                 end;
        Ok (4, output ++ to_be 8 catalog_version ++ bool_byte changed)
  | HostnameError code => Ok (5, to_be 2 (HostnameErrorCode_as_u16 code))
  end.

(** ** Decoding *)

Abbreviation HParser := (Parser MessageProtocolError).
Abbreviation h_u8 := (p_u8 MP_InvalidPayload).
Abbreviation h_u64 := (p_u64 MP_InvalidPayload).
Abbreviation h_string := (p_string MP_InvalidPayload 2 MP_InvalidPayload).

Definition h_boolean : HParser bool :=
  raw ← h_u8;
  p_lift (match raw with
          | 0 => Ok false
          | 1 => Ok true
          | _ => Err MP_InvalidPayload
          end).

(** A hostname that must already be in canonical form. *)
Definition h_hostname : HParser PublicHostname :=
  raw_hostname ← h_string;
  hostname ← p_lift (map_err (λ _, MP_InvalidPayload) (PublicHostname_new raw_hostname));
  if negb (bool_decide (hostname_str hostname = raw_hostname))
  then p_lift (Err MP_InvalidPayload)
  else mret hostname.

Definition h_ids : HParser (AgentId * TunnelId) :=
  agent ← h_string;
  agent_id ← p_lift (map_err (λ _, MP_InvalidPayload) (AgentId_new agent));
  tunnel ← h_string;
  tunnel_id ← p_lift (map_err (λ _, MP_InvalidPayload) (TunnelId_new tunnel));
  mret (agent_id, tunnel_id).

Definition parse_allocate : HParser HostnameMessage :=
  ids ← h_ids; mret (Allocate ids.1 ids.2).
Definition parse_release : HParser HostnameMessage :=
  ids ← h_ids; mret (Release ids.1 ids.2).

Definition parse_allocated : HParser HostnameMessage :=
  hostname ← h_hostname;
  raw ← h_u64;
  catalog_version ← p_lift (nonzero_version raw);
  changed ← h_boolean;
  mret (Allocated hostname catalog_version changed).

Definition h_optional_hostname : HParser (option PublicHostname) :=
  tag ← h_u8;
  match tag with
  | 0 => mret None
  | 1 => hostname ← h_hostname; mret (Some hostname)
  | _ => p_lift (Err MP_InvalidPayload)
  end.

Definition parse_released : HParser HostnameMessage :=
  hostname ← h_optional_hostname;
  raw ← h_u64;
  catalog_version ← p_lift (nonzero_version raw);
  changed ← h_boolean;
  if negb (eqb changed (is_some hostname))
  then p_lift (Err MP_InvalidPayload)
  else mret (Released hostname catalog_version changed).

Definition parse_hostname_error : HParser HostnameMessage :=
  raw ← p_u16 MP_InvalidPayload;
  code ← p_lift (HostnameErrorCode_from_raw raw);
  mret (HostnameError code).

Definition decode_hostname_payload (message_type : Z) (payload : bytes)
    : Result MessageProtocolError HostnameMessage :=
  match message_type with
  | 1 => parse_all parse_allocate MP_InvalidPayload payload
  | 2 => parse_all parse_release MP_InvalidPayload payload
  | 3 => parse_all parse_allocated MP_InvalidPayload payload
  | 4 => parse_all parse_released MP_InvalidPayload payload
  | 5 => parse_all parse_hostname_error MP_InvalidPayload payload
  | _ => Err MP_InvalidMessageType
  end.

Definition hostname_envelope : Envelope HostnameMessage :=
  MkEnvelope _ HOSTNAME_PROTOCOL_MAGIC HOSTNAME_PROTOCOL_VERSION
    MAX_HOSTNAME_MESSAGE_BYTES encode_hostname_payload decode_hostname_payload.

Definition write_hostname_message : writer → HostnameMessage →
    writer * Result MessageProtocolError unit := write_message hostname_envelope.
Definition read_hostname_message : IoM MessageProtocolError (option HostnameMessage) :=
  read_message hostname_envelope.

(** ** Well-formed messages *)

Definition hostname_message_ok (m : HostnameMessage) : Prop :=
  match m with
  | Allocate a t | Release a t => durable_id_ok (agent_str a) ∧ durable_id_ok (tunnel_str t)
  | Allocated h v _ => hostname_ok (hostname_str h) ∧ u_range 64 v
  | Released h v _ => (∀ x, h = Some x → hostname_ok (hostname_str x)) ∧ u_range 64 v
  | HostnameError _ => True
  end.

(** ** Formats of the parts *)

Definition prefixed (s : str) : bytes := to_be 2 (zlen s) ++ s.

Lemma push_string_Ok out v r :
  push_string out v = Ok r ↔ u_range 16 (zlen v) ∧ r = out ++ prefixed v.
Proof.
  unfold push_string. rewrite bind_Ok. setoid_rewrite ok_or_Ok.
  setoid_rewrite u_try_from_Some. naive_solver.
Qed.

Lemma nonzero_version_Ok v r : nonzero_version v = Ok r ↔ r = v ∧ v ≠ 0.
Proof. unfold nonzero_version. destruct (Z.eqb_spec v 0); naive_solver. Qed.

Lemma h_boolean_format : Format h_boolean (λ b s, s = bool_byte b).
Proof.
  eapply format_ext; [unfold h_boolean; format_walk|]. intros b s. split.
  - intros (z & s1 & s2 & -> & [_ ->] & Hb & ->). rewrite app_nil_r.
    repeat case_match; by simplify_eq.
  - intros ->. exists (if b then 1 else 0), (bool_byte b), []. by destruct b.
Qed.

Lemma h_hostname_format :
  Format h_hostname (λ h s, hostname_ok (hostname_str h) ∧ s = prefixed (hostname_str h)).
Proof.
  eapply format_ext.
  { unfold h_hostname. eapply format_bind; [apply format_string|]. intros ? ? ?.
    apply format_lift_bind. intros ? ?. apply format_guard, format_ret. }
  intros h s. split.
  - intros (raw & s1 & s2 & -> & (? & ? & ->) & h' & Hn%map_err_Ok & Hg & -> & ->).
    apply negb_false_iff, bool_decide_eq_true in Hg as <-. rewrite app_nil_r.
    split; [by eapply PublicHostname_new_hostname_ok|done].
  - intros [Hok ->]. exists (hostname_str h), (prefixed (hostname_str h)), [].
    rewrite app_nil_r. split_and!; [done|by apply hostname_u16| |done|].
    + by apply utf8_valid_ascii, hostname_ok_ascii.
    + exists h. rewrite map_err_Ok, bool_decide_eq_true_2 by done.
      split_and!; try done. by apply PublicHostname_new_id.
Qed.

Lemma h_ids_format :
  Format h_ids (λ p s,
    (durable_id_ok (agent_str p.1) ∧ durable_id_ok (tunnel_str p.2)) ∧
    s = prefixed (agent_str p.1) ++ prefixed (tunnel_str p.2)).
Proof.
  eapply format_ext; [unfold h_ids; format_walk|]. intros [[a] [t]] s. split.
  - intros (? & ? & ? & -> & (? & ? & ->) & ? & [? ?]%map_err_Ok%AgentId_new_Ok &
      ? & ? & ? & -> & (? & ? & ->) & ? & ? & [? ?]%map_err_Ok%TunnelId_new_Ok & ->).
    simplify_eq/=. by rewrite app_nil_r.
  - intros [[Ha Ht] ->]. cbn [fst snd agent_str tunnel_str] in *.
    exists a, (prefixed a), (prefixed t). split_and!; auto with wire.
    exists (MkAgentId a). split; [auto with wire|].
    exists t, (prefixed t), []. rewrite app_nil_r. split_and!; auto with wire.
    exists (MkTunnelId t). split_and!; auto with wire.
Qed.

Lemma h_optional_hostname_format :
  Format h_optional_hostname (λ o s,
    (∀ x, o = Some x → hostname_ok (hostname_str x)) ∧
    s = match o with
        | Some h => to_be 1 1 ++ prefixed (hostname_str h)
        | None => to_be 1 0
        end).
Proof.
  eapply format_ext.
  { unfold h_optional_hostname. eapply format_bind; [apply format_uint|].
    intros tag s _. instantiate (1 := λ tag o s,
      (tag = 0 ∧ o = None ∧ s = []) ∨
      (tag = 1 ∧ ∃ h, o = Some h ∧ hostname_ok (hostname_str h) ∧ s = prefixed (hostname_str h))).
    assert (tag = 0 ∨ tag = 1 ∨ (tag ≠ 0 ∧ tag ≠ 1)) as [->|[->|Ht]] by lia; cbv beta.
    - eapply format_ext; [apply format_ret|]. naive_solver lia.
    - eapply format_ext; [apply format_map, h_hostname_format|]. naive_solver lia.
    - assert (∀ A (x y z : A), match tag with 0 => x | 1 => y | _ => z end = z) as Hm.
      { intros. repeat case_match; naive_solver lia. }
      rewrite Hm. eapply format_ext; [apply format_lift|]. naive_solver lia. }
  intros o s. split.
  - intros (tag & ? & ? & -> & [_ ->] & [(-> & -> & ->)|(-> & h & -> & ? & ->)]).
    + split; [done|by rewrite app_nil_r].
    + split; [naive_solver|done].
  - intros [Ho ->]. destruct o as [h|].
    + exists 1, (to_be 1 1), (prefixed (hostname_str h)).
      split_and!; [done|done|done|]. right. split; [done|]. exists h. auto.
    + exists 0, (to_be 1 0), []. split_and!; [done|done|done|]. by left.
Qed.

(** ** Encoding as a relation *)

Lemma encode_hostname_payload_Ok m ty s :
  hostname_message_ok m →
  encode_hostname_payload m = Ok (ty, s) ↔
  match m with
  | Allocate a t => ty = 1 ∧ s = prefixed (agent_str a) ++ prefixed (tunnel_str t)
  | Release a t => ty = 2 ∧ s = prefixed (agent_str a) ++ prefixed (tunnel_str t)
  | Allocated h v c =>
      ty = 3 ∧ v ≠ 0 ∧ s = prefixed (hostname_str h) ++ to_be 8 v ++ bool_byte c
  | Released h v c =>
      ty = 4 ∧ v ≠ 0 ∧ c = is_some h ∧
      s = (match h with
           | Some h => to_be 1 1 ++ prefixed (hostname_str h)
           | None => to_be 1 0
           end) ++ to_be 8 v ++ bool_byte c
  | HostnameError c => ty = 5 ∧ s = to_be 2 (HostnameErrorCode_as_u16 c)
  end.
Proof.
  assert (∀ out v, u_range 16 (zlen v) → push_string out v = Ok (out ++ prefixed v)) as Hp
    by (intros; by apply push_string_Ok).
  destruct m as [a t|a t|h v c|h v c|c]; cbn [hostname_message_ok encode_hostname_payload].
  - intros [Ha%durable_id_u16 Ht%durable_id_u16]. rewrite Hp by done. cbn [mbind result_bind].
    rewrite Hp by done. naive_solver.
  - intros [Ha%durable_id_u16 Ht%durable_id_u16]. rewrite Hp by done. cbn [mbind result_bind].
    rewrite Hp by done. naive_solver.
  - intros [Hh%hostname_u16 Hv]. rewrite Hp by done. unfold nonzero_version.
    destruct (Z.eqb_spec v 0); naive_solver.
  - intros [Hh Hv]. unfold nonzero_version. destruct (Z.eqb_spec v 0); [naive_solver|].
    destruct h as [h|]; [rewrite (Hp (to_be 1 1)) by (apply hostname_u16; auto)|];
      destruct c; cbn; naive_solver.
  - naive_solver.
Qed.

Definition is_hostname_format (ty : Z) (p : HParser HostnameMessage) : Prop :=
  Format p (λ m s, hostname_message_ok m ∧ encode_hostname_payload m = Ok (ty, s)).

(** It is enough to relate well-formed messages to their bytes. *)
Lemma hostname_format_intro ty p R :
  Format p R →
  (∀ m s, R m s → hostname_message_ok m) →
  (∀ m s, hostname_message_ok m → R m s ↔ encode_hostname_payload m = Ok (ty, s)) →
  is_hostname_format ty p.
Proof. intros Hp H1 H2. eapply format_ext; [done|]. naive_solver. Qed.

Lemma parse_ids_format ty f :
  (∀ a t, hostname_message_ok (f a t) ↔ durable_id_ok (agent_str a) ∧ durable_id_ok (tunnel_str t)) →
  (∀ m s, hostname_message_ok m → encode_hostname_payload m = Ok (ty, s) ↔
     ∃ a t, m = f a t ∧ s = prefixed (agent_str a) ++ prefixed (tunnel_str t)) →
  is_hostname_format ty (ids ← h_ids; mret (f ids.1 ids.2)).
Proof.
  intros Hok Henc. eapply hostname_format_intro; [apply format_map, h_ids_format| |].
  - intros m s ([a t] & -> & H & _). by apply Hok.
  - intros m s Hm. rewrite Henc by done. split.
    + intros ([a t] & -> & _ & ->). eauto.
    + intros (a & t & -> & ->). exists (a, t). apply Hok in Hm. done.
Qed.

Lemma parse_allocate_format : is_hostname_format 1 parse_allocate.
Proof.
  apply (parse_ids_format 1 Allocate); [done|]. intros m s Hm.
  rewrite encode_hostname_payload_Ok by done. destruct m; naive_solver.
Qed.

Lemma parse_release_format : is_hostname_format 2 parse_release.
Proof.
  apply (parse_ids_format 2 Release); [done|]. intros m s Hm.
  rewrite encode_hostname_payload_Ok by done. destruct m; naive_solver.
Qed.

Lemma parse_allocated_format : is_hostname_format 3 parse_allocated.
Proof.
  eapply format_ext.
  { unfold parse_allocated. eapply format_bind; [apply h_hostname_format|intros ? ? ?].
    eapply format_bind; [apply format_uint|intros ? ? ?].
    apply format_lift_bind; intros ? ?. apply format_map, h_boolean_format. }
  intros m s. split.
  - intros (h & ? & ? & -> & [? ->] & v & ? & ? & -> & [? ->] & ? & [-> ?]%nonzero_version_Ok &
      c & -> & ->). assert (hostname_message_ok (Allocated h v c)) by done.
    split; [done|]. by apply encode_hostname_payload_Ok.
  - intros [Hok He]. rewrite encode_hostname_payload_Ok in He by done.
    destruct m as [| |h v c| |]; [naive_solver..| |naive_solver|naive_solver].
    destruct He as (_ & Hv & ->), Hok as [Hh Hr].
    format_build. by apply nonzero_version_Ok.
Qed.

Lemma parse_released_format : is_hostname_format 4 parse_released.
Proof.
  eapply format_ext.
  { unfold parse_released. eapply format_bind; [apply h_optional_hostname_format|intros ? ? ?].
    eapply format_bind; [apply format_uint|intros ? ? ?].
    apply format_lift_bind; intros ? ?. eapply format_bind; [apply h_boolean_format|intros ? ? ?].
    apply format_guard, format_ret. }
  intros m s. split.
  - intros (h & ? & ? & -> & [Hh ->] & v & ? & ? & -> & [? ->] & ? & [-> ?]%nonzero_version_Ok &
      c & ? & ? & -> & -> & Hc & -> & ->). assert (hostname_message_ok (Released h v c)) by done.
    apply negb_false_iff, eqb_prop in Hc. rewrite app_nil_r.
    split; [done|]. by apply encode_hostname_payload_Ok.
  - intros [Hok He]. rewrite encode_hostname_payload_Ok in He by done.
    destruct m as [| | |h v c|]; [naive_solver..| |naive_solver].
    destruct He as (_ & Hv & -> & ->), Hok as [Hh Hr].
    eexists h, _, _. split_and!; [done|done|done|].
    eexists v, _, _. split_and!; [done|done|done|].
    exists v. split; [by apply nonzero_version_Ok|].
    exists (is_some h), (bool_byte (is_some h)), []. rewrite app_nil_r, eqb_reflx. done.
Qed.

Lemma hostname_code_from_raw_Ok z c :
  HostnameErrorCode_from_raw z = Ok c ↔ z = HostnameErrorCode_as_u16 c.
Proof.
  split; [|intros ->; by destruct c].
  unfold HostnameErrorCode_from_raw. intros. repeat case_match; by simplify_eq.
Qed.

Lemma parse_hostname_error_format : is_hostname_format 5 parse_hostname_error.
Proof.
  eapply format_ext; [unfold parse_hostname_error; format_walk|]. intros m s. split.
  - intros (z & ? & ? & -> & [? ->] & c & -> & ->%hostname_code_from_raw_Ok & ->).
    rewrite app_nil_r. done.
  - intros [Hok He]. rewrite encode_hostname_payload_Ok in He by done.
    destruct m as [| | | |c]; [naive_solver..|]. destruct He as [_ ->].
    exists (HostnameErrorCode_as_u16 c), (to_be 2 (HostnameErrorCode_as_u16 c)), [].
    rewrite app_nil_r. split_and!; [done|by destruct c|done|].
    exists c. split_and!; [done|by apply hostname_code_from_raw_Ok|done].
Qed.

(** ** The codec meets the envelope's interface *)

Lemma decode_hostname_payload_Ok ty p m :
  zlen p ≤ MAX_HOSTNAME_MESSAGE_BYTES →
  decode_hostname_payload ty p = Ok m ↔
  hostname_message_ok m ∧ encode_hostname_payload m = Ok (ty, p).
Proof.
  intros Hp. assert (zlen p < 2 ^ USIZE_BITS) as Hs
    by (unfold MAX_HOSTNAME_MESSAGE_BYTES, USIZE_BITS in *; lia).
  assert (ty = 1 ∨ ty = 2 ∨ ty = 3 ∨ ty = 4 ∨ ty = 5 ∨
    (ty ≠ 1 ∧ ty ≠ 2 ∧ ty ≠ 3 ∧ ty ≠ 4 ∧ ty ≠ 5)) as [->|[->|[->|[->|[->|Hty]]]]] by lia;
    cbn [decode_hostname_payload].
  - apply (parse_all_Ok _ _ _ _ _ parse_allocate_format Hs).
  - apply (parse_all_Ok _ _ _ _ _ parse_release_format Hs).
  - apply (parse_all_Ok _ _ _ _ _ parse_allocated_format Hs).
  - apply (parse_all_Ok _ _ _ _ _ parse_released_format Hs).
  - apply (parse_all_Ok _ _ _ _ _ parse_hostname_error_format Hs).
  - split.
    + unfold decode_hostname_payload. repeat case_match; naive_solver lia.
    + intros [Hok He]. rewrite encode_hostname_payload_Ok in He by done.
      destruct m; naive_solver lia.
Qed.

Lemma encode_hostname_type m ty p : encode_hostname_payload m = Ok (ty, p) → 1 ≤ ty ≤ 5.
Proof. destruct m; cbn; intros H; inv_result; lia. Qed.

#[global] Instance hostname_laws : EnvelopeLaws hostname_envelope hostname_message_ok.
Proof.
  split; [done|done| |].
  - intros. by apply decode_hostname_payload_Ok.
  - intros m ty p H%encode_hostname_type. lia.
Qed.

(** ** Theorems *)

(** Hostname messages: a reader on an undisturbed stream obtains message [m]
    and stops before [tl] iff [m] is well formed, encodable within 1 KiB, and the
    stream is the canonical encoding of [m] followed by [tl]; in particular a
    hostname in non-canonical spelling, a zero catalog version and a [Released]
    whose flag contradicts its hostname are all refused. *)
Theorem hostname_protocol_exact r m tl :
  steady r →
  (∃ r', read_hostname_message r = (Some (Ok (Some m)), r') ∧ bytes_of r' = tl) ↔
  ∃ ty p, hostname_message_ok m ∧ encode_hostname_payload m = Ok (ty, p) ∧
          zlen p ≤ MAX_HOSTNAME_MESSAGE_BYTES ∧
          bytes_of r = message_bytes hostname_envelope ty p ++ tl.
Proof.
  intros Hr. split.
  - intros (r' & H & <-). by apply (read_message_sound hostname_envelope hostname_message_ok).
  - intros (ty & p & Hok & He & Hp & Hb).
    destruct (read_message_complete hostname_envelope hostname_message_ok r ty p m tl)
      as (r' & ? & _ & ?); eauto.
Qed.

Definition sample_released : HostnameMessage :=
  Released (Some (MkPublicHostname (bstr "a.example"))) 7 true.
Definition sample_released_bytes : bytes :=
  message_bytes hostname_envelope 4
    (to_be 1 1 ++ prefixed (bstr "a.example") ++ to_be 8 7 ++ to_be 1 1).

Lemma hostname_protocol_exact_witness :
  ∃ r', read_hostname_message [Data (take 1 sample_released_bytes); Data (drop 1 sample_released_bytes)]
          = (Some (Ok (Some sample_released)), r') ∧ bytes_of r' = [].
Proof.
  apply (hostname_protocol_exact
    [Data (take 1 sample_released_bytes); Data (drop 1 sample_released_bytes)]
    sample_released []).
  - split; [repeat constructor; discriminate|reflexivity].
  - do 2 eexists. split_and!; [|reflexivity|vm_compute; discriminate|reflexivity].
    split; [|by vm_compute]. intros x [= <-].
    apply (PublicHostname_new_hostname_ok (bstr "a.example")). by vm_compute.
Defined.
