(* ===== verification/Admission.v ===== *)
(** * Admission: connections per source address

    [crates/edge/src/admission.rs]: a shared table counts the open connections of
    every source address; a permit holds one of them until it is dropped.  Both
    operations run under the table's mutex, so the permits taken and dropped by
    concurrent connections form a sequence. *)

From S2P Require Import Prelude Net.

Record PeerAdmission : Type := MkAdmission {
  max_connections_per_ip : Z;
  pa_active : gmap IpAddr Z
}.

Definition PeerAdmission_new (max : Z) : PeerAdmission := MkAdmission max ∅.

(** [try_acquire]: a permit is its peer. *)
Definition peer_try_acquire (peer : IpAddr) (p : PeerAdmission) : option IpAddr * PeerAdmission :=
  if max_connections_per_ip p <=? default 0 (pa_active p !! peer) then (None, p)
  else (Some peer,
        MkAdmission (max_connections_per_ip p)
          (<[peer := default 0 (pa_active p !! peer) + 1]> (pa_active p))).

(** [Drop for PeerAdmissionPermit]. *)
Definition permit_drop (peer : IpAddr) (p : PeerAdmission) : PeerAdmission :=
  match pa_active p !! peer with
  | None => p
  | Some count =>
      let count := saturating_sub count 1 in
      MkAdmission (max_connections_per_ip p)
        (if count =? 0 then delete peer (pa_active p) else <[peer := count]> (pa_active p))
  end.

(** Connections that arrive and end, with the permits they hold. *)
Inductive admission_step : PeerAdmission * list IpAddr → PeerAdmission * list IpAddr → Prop :=
| adm_acquire peer p p' permits :
    peer_try_acquire peer p = (Some peer, p') →
    admission_step (p, permits) (p', peer :: permits)
| adm_refuse peer p p' permits :
    peer_try_acquire peer p = (None, p') → admission_step (p, permits) (p', permits)
| adm_drop peer p before after :
    admission_step (p, before ++ peer :: after) (permit_drop peer p, before ++ after).

(** Permits out for an address. *)
Definition held (peer : IpAddr) (permits : list IpAddr) : Z := zlen (filter (λ q, q = peer) permits).

Lemma held_nonneg peer permits : 0 ≤ held peer permits.
Proof. unfold held, zlen. lia. Qed.

Lemma held_cons peer q permits :
  held peer (q :: permits) = (if decide (q = peer) then 1 else 0) + held peer permits.
Proof.
  unfold held. rewrite filter_cons. destruct (decide (q = peer)); [|lia].
  unfold zlen. cbn [length]. lia.
Qed.

Lemma held_middle peer q before after :
  held peer (before ++ q :: after) = (if decide (q = peer) then 1 else 0) + held peer (before ++ after).
Proof.
  unfold held. rewrite !filter_app, filter_cons. unfold zlen.
  destruct (decide (q = peer)); rewrite !length_app; cbn [length]; lia.
Qed.

Definition admission_inv (max : Z) (s : PeerAdmission * list IpAddr) : Prop :=
  max_connections_per_ip s.1 = max ∧
  ∀ peer, pa_active s.1 !! peer = (if decide (held peer s.2 = 0) then None else Some (held peer s.2)) ∧
          held peer s.2 ≤ max.

Lemma inv_count max s peer :
  admission_inv max s → default 0 (pa_active s.1 !! peer) = held peer s.2.
Proof.
  intros [_ Hinv]. destruct (Hinv peer) as [-> _]. case_decide as Hz; [|done]. by rewrite Hz.
Qed.

Lemma admission_inv_step max s s' :
  admission_step s s' → admission_inv max s → admission_inv max s'.
Proof.
  intros Hstep Hinv. destruct Hstep as [peer p p' permits Ha|peer p p' permits Ha|peer p before after];
    pose proof Hinv as [Hmax Hall]; cbn [fst snd] in *.
  - unfold peer_try_acquire in Ha. case_match eqn:Hle; [done|]. injection Ha as <-.
    pose proof (inv_count _ _ peer Hinv) as Hcount. cbn in Hcount. rewrite Hcount in *.
    split; [done|]. intros q. cbn [fst snd pa_active]. rewrite held_cons.
    destruct (Hall q) as [Hq Hle']. pose proof (held_nonneg q permits).
    destruct (decide (peer = q)) as [->|Hne].
    + rewrite lookup_insert_eq, decide_False by lia. split; [f_equal; lia|lia].
    + by rewrite lookup_insert_ne, Z.add_0_l.
  - unfold peer_try_acquire in Ha. case_match; [|done]. by injection Ha as <-.
  - pose proof (held_middle peer peer before after) as Hp. rewrite decide_True in Hp by done.
    pose proof (held_nonneg peer (before ++ after)) as Hnn.
    assert (pa_active p !! peer = Some (1 + held peer (before ++ after))) as Hl.
    { rewrite (proj1 (Hall peer)), Hp, decide_False by lia. done. }
    unfold permit_drop. rewrite Hl. cbn zeta.
    replace (saturating_sub (1 + held peer (before ++ after)) 1) with (held peer (before ++ after))
      by (unfold saturating_sub; lia).
    split; [done|]. intros q. cbn [fst snd pa_active]. destruct (Hall q) as [Hq Hle].
    rewrite held_middle in Hq, Hle. destruct (decide (peer = q)) as [->|Hne].
    + split; [|lia]. destruct (Z.eqb_spec (held q (before ++ after)) 0) as [Hz|Hz].
      * by rewrite lookup_delete_eq, decide_True.
      * by rewrite lookup_insert_eq, decide_False.
    + rewrite Z.add_0_l in Hq, Hle. split; [|done].
      destruct (held peer (before ++ after) =? 0); [by rewrite lookup_delete_ne|by rewrite lookup_insert_ne].
Qed.

(** C40. Admission is exact.  After any connections have arrived and ended, an address
    is admitted exactly when fewer of its connections than the limit are open; no
    address ever has more; and the table holds an entry exactly for the addresses
    with an open connection, so it does not grow with the addresses seen. *)
Theorem admission_exact max p permits :
  0 ≤ max →
  rtc admission_step (PeerAdmission_new max, []) (p, permits) →
  ∀ peer,
    held peer permits ≤ max ∧
    (is_Some (peer_try_acquire peer p).1 ↔ held peer permits < max) ∧
    (is_Some (pa_active p !! peer) ↔ peer ∈ permits).
Proof.
  intros Hm Hr peer. assert (admission_inv max (p, permits)) as Hinv.
  { eapply rtc_invariant; [intros s s'; apply admission_inv_step|exact Hr|].
    split; [done|]. intros q. by rewrite decide_True. }
  pose proof (inv_count _ _ peer Hinv) as Hc. destruct Hinv as [Hmax Hall]. cbn [fst snd] in *.
  destruct (Hall peer) as [Hl Hle]. split_and!; [done| |].
  - unfold peer_try_acquire. rewrite Hc, Hmax.
    destruct (Z.leb_spec max (held peer permits)); cbn; split; try lia; [by intros []|by eexists].
  - rewrite Hl. assert (held peer permits = 0 ↔ peer ∉ permits) as Hz.
    { unfold held. split.
      - intros Hz Hin. assert (peer ∈ filter (λ q, q = peer) permits) as Hf by (by apply list_elem_of_filter).
        destruct (filter (λ q, q = peer) permits); [by apply not_elem_of_nil in Hf|by cbn in Hz].
      - intros Hout. rewrite filter_none; [done|]. apply Forall_forall. by intros q Hq ->. }
    destruct (decide (held peer permits = 0)) as [H0|H0].
    + split; [by intros []|]. intros Hin. by apply Hz in H0.
    + split; [|by eexists]. intros _. destruct (decide (peer ∈ permits)) as [|Hout]; [done|]. by destruct (H0 (proj2 Hz Hout)).
Qed.

Lemma admission_exact_witness :
  let peer := V4 2130706433 in
  let p := MkAdmission 2 {[ peer := 1 ]} in
  held peer [peer] ≤ 2 ∧ (is_Some (peer_try_acquire peer p).1 ↔ held peer [peer] < 2) ∧
  (is_Some (pa_active p !! peer) ↔ peer ∈ [peer]).
Proof.
  apply (admission_exact 2 (MkAdmission 2 {[ V4 2130706433 := 1 ]}) [V4 2130706433]); [lia|].
  apply rtc_once, adm_acquire. vm_compute. reflexivity.
Defined.
