(* ===== verification/FairQueue.v ===== *)
(** * FairQueue: the bounded round-robin queue of the multiplexed writer

    [BoundedFairQueue] of [crates/common/src/bounded_fair_queue.rs]: a FIFO per
    key, with round-robin service between the keys that have items. *)

From S2P Require Import Prelude.

Section fair_queue.
Context {K V : Type} `{Countable K}.

Record BoundedFairQueue : Type := MkFairQueue {
  fq_capacity : Z;            (** [NonZeroUsize] *)
  fq_len : Z;
  fq_active : list K;
  fq_queues : gmap K (list V)
}.

(** [FairQueueFull(value)] hands the value back. *)
Inductive FairQueueFull : Type := MkFull (value : V).

(** [pop] panics where the source has [expect], and on underflow of [len]. *)
Inductive PopOutcome : Type :=
| PopPanic
| PopReturn (result : option V) (queue : BoundedFairQueue).

Definition FairQueue_new (capacity : Z) : BoundedFairQueue :=
  MkFairQueue capacity 0 [] ∅.

Definition push (q : BoundedFairQueue) (key : K) (value : V)
    : Result FairQueueFull BoundedFairQueue :=
  if fq_len q =? fq_capacity q then Err (MkFull value)
  else
    match fq_queues q !! key with
    | Some queue =>
        Ok (MkFairQueue (fq_capacity q) (fq_len q + 1) (fq_active q)
              (<[key := queue ++ [value]]> (fq_queues q)))
    | None =>
        Ok (MkFairQueue (fq_capacity q) (fq_len q + 1) (fq_active q ++ [key])
              (<[key := [value]]> (fq_queues q)))
    end.

Definition pop (q : BoundedFairQueue) : PopOutcome :=
  match fq_active q with
  | [] => PopReturn None q
  | key :: active =>
      match fq_queues q !! key with
      | None => PopPanic
      | Some [] => PopPanic
      | Some (value :: queue) =>
          if fq_len q =? 0 then PopPanic
          else
            match queue with
            | _ :: _ =>
                PopReturn (Some value)
                  (MkFairQueue (fq_capacity q) (fq_len q - 1) (active ++ [key])
                     (<[key := queue]> (fq_queues q)))
            | [] =>
                PopReturn (Some value)
                  (MkFairQueue (fq_capacity q) (fq_len q - 1) active
                     (delete key (fq_queues q)))
            end
      end
  end.

Definition fq_is_empty (q : BoundedFairQueue) : bool := fq_len q =? 0.
Definition active_keys (q : BoundedFairQueue) : Z := zlen (fq_active q).

(** ** Abstract scheduler: the active keys in service order, each with its
    pending items *)

Abbreviation schedule := (list (K * list V)).

Definition items (q : BoundedFairQueue) (k : K) : list V := default [] (fq_queues q !! k).
Definition abs (q : BoundedFairQueue) : schedule := (λ k, (k, items q k)) <$> fq_active q.

Fixpoint spec_push (s : schedule) (key : K) (value : V) : schedule :=
  match s with
  | [] => [(key, [value])]
  | (k, l) :: s' =>
      if decide (k = key) then (k, l ++ [value]) :: s'
      else (k, l) :: spec_push s' key value
  end.

Definition spec_pop (s : schedule) : option (V * schedule) :=
  match s with
  | (k, v :: l) :: s' => Some (v, s' ++ (if l is _ :: _ then [(k, l)] else []))
  | _ => None
  end.

Fixpoint spec_size (s : schedule) : Z :=
  match s with [] => 0 | (_, l) :: s' => zlen l + spec_size s' end.

(** ** Invariant *)

Record fq_wf (q : BoundedFairQueue) : Prop := {
  fq_nodup : NoDup (fq_active q);
  fq_dom : ∀ k, k ∈ fq_active q ↔ is_Some (fq_queues q !! k);
  fq_nonempty : ∀ k l, fq_queues q !! k = Some l → l ≠ [];
  fq_size : fq_len q = spec_size (abs q);
  fq_bound : fq_len q ≤ fq_capacity q
}.

Lemma spec_size_nonneg s : 0 ≤ spec_size s.
Proof. induction s as [|[k l] s IH]; simpl; [lia|]. pose proof (zlen_nonneg l). lia. Qed.

Lemma spec_size_app s t : spec_size (s ++ t) = spec_size s + spec_size t.
Proof. induction s as [|[k l] s IH]; simpl; lia. Qed.

Lemma spec_size_push s key value : spec_size (spec_push s key value) = spec_size s + 1.
Proof.
  induction s as [|[k l] s IH]; simpl; [done|].
  case_decide; simpl; [rewrite zlen_app; change (zlen [value]) with 1|]; lia.
Qed.

Lemma spec_size_pop s v s' : spec_pop s = Some (v, s') → spec_size s = spec_size s' + 1.
Proof.
  destruct s as [|[k [|w l]] s]; try done. intros [= <- <-].
  rewrite spec_size_app. cbn [spec_size]. rewrite zlen_cons.
  destruct l; cbn [spec_size]; rewrite ?zlen_nil, ?zlen_cons; lia.
Qed.

(** Keys other than the one written keep their items. *)
Lemma abs_insert_other q key l (act act' : list K) c n :
  key ∉ act →
  (λ k, (k, items (MkFairQueue c n act' (<[key := l]> (fq_queues q))) k)) <$> act
  = (λ k, (k, items q k)) <$> act.
Proof.
  intros Hk. apply list_fmap_ext. intros i k Hi%list_elem_of_lookup_2.
  unfold items. simpl. by rewrite lookup_insert_ne by set_solver.
Qed.

Lemma abs_delete_other q key (act act' : list K) c n :
  key ∉ act →
  (λ k, (k, items (MkFairQueue c n act' (delete key (fq_queues q))) k)) <$> act
  = (λ k, (k, items q k)) <$> act.
Proof.
  intros Hk. apply list_fmap_ext. intros i k Hi%list_elem_of_lookup_2.
  unfold items. simpl. by rewrite lookup_delete_ne by set_solver.
Qed.

Lemma spec_push_present (f : K → list V) act key value :
  NoDup act → key ∈ act →
  spec_push ((λ k, (k, f k)) <$> act) key value
  = (λ k, (k, if decide (k = key) then f k ++ [value] else f k)) <$> act.
Proof.
  induction 1 as [|k act Hk Hnd IH]; [set_solver|]. intros Hin. simpl.
  case_decide as Hkk.
  - subst. f_equal. apply list_fmap_ext. intros i x Hx%list_elem_of_lookup_2.
    rewrite decide_False by set_solver. done.
  - f_equal. apply IH. set_solver.
Qed.

Lemma spec_push_absent (f : K → list V) act key value :
  key ∉ act →
  spec_push ((λ k, (k, f k)) <$> act) key value
  = ((λ k, (k, f k)) <$> act) ++ [(key, [value])].
Proof.
  induction act as [|k act IH]; [done|]. intros Hin. simpl.
  rewrite decide_False by set_solver. f_equal. apply IH. set_solver.
Qed.

Lemma abs_push q key value q' :
  fq_wf q → push q key value = Ok q' → abs q' = spec_push (abs q) key value.
Proof.
  intros [Hnd Hdom _ _ _] Hp. unfold push in Hp. case_match; [done|].
  destruct (fq_queues q !! key) as [l|] eqn:Hl; injection Hp as <-.
  - assert (key ∈ fq_active q) as Hin by (apply Hdom; eauto).
    unfold abs. rewrite spec_push_present by done. cbn [fq_active].
    apply list_fmap_ext. intros i k _. unfold items. cbn [fq_queues].
    case_decide; subst; [by rewrite lookup_insert_eq, Hl|by rewrite lookup_insert_ne].
  - assert (key ∉ fq_active q) as Hin.
    { rewrite Hdom, Hl. by intros [? ?]. }
    unfold abs. rewrite spec_push_absent by done. cbn [fq_active].
    rewrite fmap_app. f_equal.
    + by apply abs_insert_other.
    + simpl. unfold items. simpl. by rewrite lookup_insert_eq.
Qed.

Lemma push_wf q key value q' : fq_wf q → push q key value = Ok q' → fq_wf q'.
Proof.
  intros Hwf Hp. pose proof (abs_push _ _ _ _ Hwf Hp) as Habs.
  destruct Hwf as [Hnd Hdom Hne Hsz Hb]. unfold push in Hp.
  destruct (Z.eqb_spec (fq_len q) (fq_capacity q)); [done|].
  assert (fq_len q' = spec_size (abs q')) as Hsz'.
  { rewrite Habs, spec_size_push, <-Hsz. by case_match; simplify_eq. }
  destruct (fq_queues q !! key) as [l|] eqn:Hl; injection Hp as <-;
    split; cbn [fq_active fq_queues fq_len fq_capacity] in *; try done; try lia.
  - intros k. rewrite Hdom, lookup_insert_is_Some'. naive_solver.
  - intros k l' [[_ <-]|[_ ?]]%lookup_insert_Some; [by destruct l|eauto].
  - apply NoDup_app. split_and!; [done| |by apply NoDup_singleton].
    intros k Hk%Hdom ->%list_elem_of_singleton. rewrite Hl in Hk. by destruct Hk.
  - intros k. rewrite elem_of_app, Hdom, list_elem_of_singleton, lookup_insert_is_Some'.
    naive_solver.
  - intros k l' [[_ <-]|[_ ?]]%lookup_insert_Some; [done|eauto].
Qed.

(** ** Popping *)

Inductive pop_spec (q : BoundedFairQueue) : PopOutcome → Prop :=
| pop_spec_empty : abs q = [] → fq_len q = 0 → pop_spec q (PopReturn None q)
| pop_spec_item v q' :
    spec_pop (abs q) = Some (v, abs q') → fq_wf q' →
    fq_len q' = fq_len q - 1 → fq_capacity q' = fq_capacity q →
    pop_spec q (PopReturn (Some v) q').

Lemma pop_ok q : fq_wf q → pop_spec q (pop q).
Proof.
  intros [Hnd Hdom Hne Hsz Hb]. unfold pop.
  destruct (fq_active q) as [|key act] eqn:Hact.
  { constructor; [by unfold abs; rewrite Hact|]. rewrite Hsz. unfold abs. by rewrite Hact. }
  assert (abs q = (key, items q key) :: ((λ k, (k, items q k)) <$> act)) as Habs
    by (unfold abs; by rewrite Hact).
  apply NoDup_cons in Hnd as [Hk Hnd].
  assert (is_Some (fq_queues q !! key)) as [l Hl] by (apply Hdom; set_solver).
  rewrite Hl. pose proof (Hne _ _ Hl). destruct l as [|v l]; [done|].
  assert (items q key = v :: l) as Hit by (unfold items; by rewrite Hl).
  rewrite Hit in Habs. rewrite Habs in Hsz. cbn [spec_size] in Hsz.
  rewrite zlen_cons in Hsz. pose proof (zlen_nonneg l).
  pose proof (spec_size_nonneg ((λ k, (k, items q k)) <$> act)).
  destruct (Z.eqb_spec (fq_len q) 0); [lia|].
  destruct l as [|w l].
  - assert (∀ c n, abs (MkFairQueue c n act (delete key (fq_queues q)))
      = (λ k, (k, items q k)) <$> act) as Ha by (intros; by apply abs_delete_other).
    apply pop_spec_item; [by rewrite Habs, Ha; simpl; rewrite app_nil_r| |done|done].
    split; rewrite ?Ha; cbn [fq_active fq_queues fq_len fq_capacity]; try done; try lia.
    + intros k. destruct (decide (k = key)) as [->|].
      * rewrite lookup_delete_eq. split; [done|by intros [? ?]].
      * rewrite lookup_delete_ne by done. rewrite <-Hdom. set_solver.
    + intros k l' [_ ?]%lookup_delete_Some. eauto.
    + rewrite zlen_nil in Hsz. lia.
  - set (q' := MkFairQueue _ _ _ _).
    assert (abs q' = ((λ k, (k, items q k)) <$> act) ++ [(key, w :: l)]) as Ha.
    { unfold abs, q'. cbn [fq_active]. rewrite fmap_app. f_equal.
      - by apply abs_insert_other.
      - simpl. unfold items. simpl. by rewrite lookup_insert_eq. }
    apply pop_spec_item; [by rewrite Habs, Ha| |done|done].
    split; rewrite ?Ha; cbn [q' fq_active fq_queues fq_len fq_capacity]; try done; try lia.
    + apply NoDup_app. split_and!; [done| |by apply NoDup_singleton]. set_solver.
    + intros k. rewrite elem_of_app, list_elem_of_singleton, lookup_insert_is_Some'.
      rewrite <-Hdom. set_solver.
    + intros k l' [[_ <-]|[_ ?]]%lookup_insert_Some; [done|eauto].
    + rewrite spec_size_app. cbn [spec_size]. lia.
Qed.

(** ** The FIFO of each key *)

Lemma push_items q key v q' k :
  push q key v = Ok q' → items q' k = items q k ++ (if decide (k = key) then [v] else []).
Proof.
  unfold push, items. intros Hp. case_match; [done|].
  destruct (fq_queues q !! key) as [l|] eqn:Hl; simplify_eq/=; case_decide; subst;
    rewrite ?lookup_insert_eq, ?lookup_insert_ne, ?Hl by done; cbn; by rewrite ?app_nil_r.
Qed.

Lemma pop_items q v q' :
  pop q = PopReturn (Some v) q' →
  ∃ key, items q key = v :: items q' key ∧ ∀ k, k ≠ key → items q' k = items q k.
Proof.
  unfold pop, items. intros Hp. destruct (fq_active q) as [|key act]; [done|]. exists key.
  destruct (fq_queues q !! key) as [[|w l]|] eqn:Hl; try done.
  case_match; [done|]. destruct l as [|x l]; simplify_eq/=.
  - split; [by rewrite lookup_delete_eq|]. intros k ?. by rewrite lookup_delete_ne.
  - split; [by rewrite lookup_insert_eq|]. intros k ?. by rewrite lookup_insert_ne.
Qed.

Lemma items_empty q k : fq_wf q → fq_len q = 0 → items q k = [].
Proof.
  intros Hwf Hlen. unfold items.
  destruct (fq_queues q !! k) as [l|] eqn:Hl; [|done]. exfalso.
  assert (k ∈ fq_active q) as Hk by (apply (fq_dom _ Hwf); eauto).
  pose proof (fq_size _ Hwf) as Hsz. rewrite Hlen in Hsz. unfold abs in Hsz.
  apply list_elem_of_split in Hk as (l1 & l2 & Hact). rewrite Hact in Hsz.
  rewrite fmap_app, spec_size_app in Hsz. cbn in Hsz. unfold items at 2 in Hsz.
  rewrite Hl in Hsz. cbn in Hsz.
  pose proof (spec_size_nonneg ((λ k, (k, items q k)) <$> l1)).
  pose proof (spec_size_nonneg ((λ k, (k, items q k)) <$> l2)).
  destruct l as [|v l]; [by eapply fq_nonempty|]. rewrite zlen_cons in Hsz.
  pose proof (zlen_nonneg l). lia.
Qed.

(** ** Sequences of operations *)

Inductive fq_op : Type := OpPush (key : K) (value : V) | OpPop.

(** A step: a rejected push leaves the queue alone; [None] is a panic. *)
Definition fq_step (q : BoundedFairQueue) (op : fq_op) : option (option V * BoundedFairQueue) :=
  match op with
  | OpPush k v => Some (None, match push q k v with Ok q' => q' | Err _ => q end)
  | OpPop => match pop q with PopPanic => None | PopReturn r q' => Some (r, q') end
  end.

Fixpoint fq_run (q : BoundedFairQueue) (ops : list fq_op)
    : option (list (option V) * BoundedFairQueue) :=
  match ops with
  | [] => Some ([], q)
  | op :: ops =>
      '(r, q') ← fq_step q op;
      '(rs, q'') ← fq_run q' ops;
      Some (r :: rs, q'')
  end.

Definition is_pop (op : fq_op) : bool := match op with OpPop => true | _ => false end.
Definition pops (ops : list fq_op) : nat := length (List.filter is_pop ops).

Lemma new_wf capacity : 0 < capacity → fq_wf (FairQueue_new capacity).
Proof.
  intros. split; simpl; try done; try lia.
  - constructor.
  - intros k. rewrite lookup_empty. split; [set_solver|by intros [? ?]].
Qed.

Lemma push_capacity q k v q' : push q k v = Ok q' → fq_capacity q' = fq_capacity q.
Proof. unfold push. intros. by repeat case_match; simplify_eq. Qed.
Lemma push_len q k v q' : push q k v = Ok q' → fq_len q' = fq_len q + 1.
Proof. unfold push. intros. by repeat case_match; simplify_eq. Qed.

Lemma fq_step_wf q op :
  fq_wf q → ∃ r q', fq_step q op = Some (r, q') ∧ fq_wf q' ∧ fq_capacity q' = fq_capacity q.
Proof.
  intros Hwf. destruct op as [k v|]; simpl.
  - destruct (push q k v) as [q'|] eqn:Hp; [|naive_solver].
    eexists _, _. split_and!; [done|by eapply push_wf|by eapply push_capacity].
  - destruct (pop_ok q Hwf) as [| v q']; naive_solver.
Qed.

Lemma fq_run_wf q ops :
  fq_wf q → ∃ rs q', fq_run q ops = Some (rs, q') ∧ fq_wf q' ∧ fq_capacity q' = fq_capacity q.
Proof.
  revert q. induction ops as [|op ops IH]; intros q Hwf; simpl; [naive_solver|].
  destruct (fq_step_wf q op Hwf) as (r & q1 & -> & Hwf1 & Hc). simpl.
  destruct (IH q1 Hwf1) as (rs & q2 & -> & ? & ?). naive_solver congruence.
Qed.

(** A key at position [i] with items [l] keeps its items (more may be added
    behind) and moves one place forward at each pop, until it is served. *)
Definition at_position (s : schedule) (i : nat) (k : K) (l : list V) : Prop :=
  ∃ more, s !! i = Some (k, l ++ more).

Lemma at_position_push s i k l key value :
  at_position s i k l → at_position (spec_push s key value) i k l.
Proof.
  intros [more Hi]. revert i Hi. induction s as [|[k' l'] s IH]; intros i Hi; [done|].
  simpl. case_decide; destruct i as [|i]; simplify_eq/=.
  - exists (more ++ [value]). by rewrite app_assoc.
  - by exists more.
  - by exists more.
  - by apply IH.
Qed.

Lemma at_position_pop s i k l v s' :
  at_position s (S i) k l → spec_pop s = Some (v, s') → at_position s' i k l.
Proof.
  intros [more Hi] Hp. destruct s as [|[k' [|w l']] s]; simplify_eq/=.
  exists more. by apply lookup_app_l_Some.
Qed.

Lemma at_position_step q op r q' i k l :
  fq_wf q → fq_step q op = Some (r, q') → at_position (abs q) (i + pops [op])%nat k l →
  at_position (abs q') i k l.
Proof.
  intros Hwf Hs Hat. destruct op as [key v|].
  - rewrite Nat.add_0_r in Hat. simpl in Hs. destruct (push q key v) as [q1|] eqn:Hp;
      simplify_eq; [|done]. rewrite (abs_push _ _ _ _ Hwf Hp). by apply at_position_push.
  - change (pops [OpPop]) with 1%nat in Hat. rewrite Nat.add_1_r in Hat. simpl in Hs.
    destruct (pop_ok q Hwf) as [Ha _|v q1 Hsp]; simplify_eq.
    + destruct Hat as [? Hat]. by rewrite Ha in Hat.
    + by eapply at_position_pop.
Qed.

Lemma pops_cons op ops : pops (op :: ops) = (pops [op] + pops ops)%nat.
Proof. by destruct op. Qed.

Lemma at_position_run q ops rs q' i k l :
  fq_wf q → fq_run q ops = Some (rs, q') → at_position (abs q) (i + pops ops)%nat k l →
  at_position (abs q') i k l ∧ fq_wf q'.
Proof.
  revert q rs. induction ops as [|op ops IH]; intros q rs Hwf Hr Hat; simpl in Hr.
  { simplify_eq. by rewrite Nat.add_0_r in Hat. }
  destruct (fq_step_wf q op Hwf) as (r & q1 & Hs & Hwf1 & _). rewrite Hs in Hr. simpl in Hr.
  destruct (fq_run q1 ops) as [[rs' q2]|] eqn:Hr2; simplify_eq/=.
  apply (IH q1 rs' Hwf1 Hr2). apply (at_position_step q op r q1 _ k l Hwf Hs).
  rewrite pops_cons in Hat. by replace (i + pops ops + pops [op])%nat
    with (i + (pops [op] + pops ops))%nat by lia.
Qed.
End fair_queue.
Arguments BoundedFairQueue K V {_ _}.
Arguments FairQueueFull V : clear implicits.
Arguments fq_op K V : clear implicits.

(** ** Theorems *)

Section theorems.
Context {K V : Type} `{Countable K}.
Implicit Types q : BoundedFairQueue K V.

(** C34. The fair queue never panics and never exceeds its bound: from an empty
    queue, any sequence of pushes and pops runs to completion (the two [expect]s
    of [pop] and the decrement of [len] cannot fail), keeps the invariant that
    the active list has no duplicates and lists exactly the keys with pending
    items, and [len] is the number of pending items, at most the capacity. *)
Theorem fair_queue_safe (capacity : Z) (ops : list (fq_op K V)) :
  0 < capacity →
  ∃ rs q', fq_run (FairQueue_new capacity) ops = Some (rs, q') ∧ fq_wf q' ∧
           0 ≤ fq_len q' ≤ capacity.
Proof.
  intros Hc. destruct (fq_run_wf (FairQueue_new capacity) ops) as (rs & q' & Hr & Hwf & Hq);
    [by apply new_wf|]. exists rs, q'. split_and!; [done|done| |].
  - rewrite (fq_size _ Hwf). apply spec_size_nonneg.
  - pose proof (fq_bound _ Hwf) as Hb. by rewrite Hq in Hb.
Qed.

(** C33. The hash-map implementation refines the abstract scheduler (an ordered
    list of keys with their pending items): a push appends to the key's own
    FIFO, or starts a new key at the end of the rotation, and is refused with
    the value handed back exactly when the queue is full; a pop serves the
    first item of the first key and moves that key to the end of the rotation,
    and returns nothing exactly when there is no item. *)
Theorem fair_queue_refines q key value :
  fq_wf q →
  (push q key value = Err (MkFull value) ∧ fq_len q = fq_capacity q ∨
   ∃ q', push q key value = Ok q' ∧ fq_len q < fq_capacity q ∧ fq_wf q' ∧
         abs q' = spec_push (abs q) key value) ∧
  (pop q = PopReturn None q ∧ fq_len q = 0 ∧ abs q = [] ∨
   ∃ v q', pop q = PopReturn (Some v) q' ∧ 0 < fq_len q ∧ fq_wf q' ∧
           spec_pop (abs q) = Some (v, abs q')).
Proof.
  intros Hwf. split.
  - destruct (push q key value) as [q'|[v]] eqn:Hp; [right|left].
    + exists q'. split_and!; [done| |by eapply push_wf|by apply abs_push].
      pose proof (fq_bound _ Hwf). unfold push in Hp.
      destruct (Z.eqb_spec (fq_len q) (fq_capacity q)); [done|lia].
    + unfold push in Hp. destruct (Z.eqb_spec (fq_len q) (fq_capacity q)).
      * by simplify_eq.
      * by repeat case_match.
  - pose proof (pop_ok q Hwf) as Hs. inversion Hs as [Ha Hl Hp|v q' Hsp Hwf' Hl _ Hp].
    + by left.
    + right. exists v, q'. split_and!; try done.
      pose proof (fq_size _ Hwf') as Hsz. pose proof (spec_size_nonneg (abs q')). lia.
Qed.

(** C12. Round-robin fairness with an exact bound: if a key is at position [i]
    of the rotation with [v] as its oldest item, then after any interleaving of
    pushes and exactly [i] pops the next pop returns [v]; no traffic on other
    keys can delay it further. *)
Theorem fair_queue_bounded_wait q ops rs q' i k v l :
  fq_wf q → abs q !! i = Some (k, v :: l) → pops ops = i →
  fq_run q ops = Some (rs, q') →
  ∃ q'', pop q' = PopReturn (Some v) q'' ∧ fq_wf q''.
Proof.
  intros Hwf Hi Hn Hr.
  destruct (at_position_run q ops rs q' 0 k [v] Hwf Hr) as [[more Hat] Hwf'].
  { exists l. simpl. by rewrite Hn. }
  pose proof (pop_ok q' Hwf') as Hs. inversion Hs as [Ha _ Hp|w q'' Hsp Hwf'' _ _ Hp].
  - by rewrite Ha in Hat.
  - exists q''. destruct (abs q') as [|[k' l'] s]; simplify_eq/=. done.
Qed.
End theorems.

Definition busy_queue : BoundedFairQueue Z Z :=
  MkFairQueue 8 4 [1; 2] {[1 := [10; 11; 12]; 2 := [20]]}.

Lemma busy_queue_wf : fq_wf busy_queue.
Proof.
  split; simpl; try done.
  - repeat constructor; set_solver.
  - intros k. rewrite lookup_insert_is_Some', lookup_singleton_is_Some. set_solver.
  - intros k l. rewrite lookup_insert_Some, lookup_singleton_Some. naive_solver.
Qed.

Lemma fair_queue_safe_witness :
  ∃ rs q', fq_run (FairQueue_new 2) [OpPush 1 10; OpPush 1 11; OpPush 2 20; OpPop; OpPop; OpPop]
             = Some (rs, q') ∧ fq_wf q' ∧ 0 ≤ fq_len q' ≤ 2.
Proof. apply (fair_queue_safe (K := Z) (V := Z) 2). lia. Defined.

Lemma fair_queue_refines_witness :
  (push busy_queue 2 21 = Err (MkFull 21) ∧ fq_len busy_queue = fq_capacity busy_queue ∨
   ∃ q', push busy_queue 2 21 = Ok q' ∧ fq_len busy_queue < fq_capacity busy_queue ∧ fq_wf q' ∧
         abs q' = spec_push (abs busy_queue) 2 21) ∧
  (pop busy_queue = PopReturn None busy_queue ∧ fq_len busy_queue = 0 ∧ abs busy_queue = [] ∨
   ∃ v q', pop busy_queue = PopReturn (Some v) q' ∧ 0 < fq_len busy_queue ∧ fq_wf q' ∧
           spec_pop (abs busy_queue) = Some (v, abs q')).
Proof. apply (fair_queue_refines busy_queue 2 21). exact busy_queue_wf. Defined.

Lemma fair_queue_bounded_wait_witness :
  ∃ rs q' q'', fq_run busy_queue [OpPush 1 13; OpPush 3 30; OpPop] = Some (rs, q') ∧
               pop q' = PopReturn (Some 20) q'' ∧ fq_wf q''.
Proof.
  destruct (fq_run_wf busy_queue [OpPush 1 13; OpPush 3 30; OpPop] busy_queue_wf)
    as (rs & q' & Hr & _ & _).
  destruct (fair_queue_bounded_wait busy_queue [OpPush 1 13; OpPush 3 30; OpPop] rs q' 1 2 20 []
    busy_queue_wf eq_refl eq_refl Hr) as (q'' & ? & ?).
  exists rs, q', q''. auto.
Defined.
