(* ===== verification/Channels.v ===== *)
(** * Channels: the fair semaphore and the bounded channel of the runtime

    The runtime's [Semaphore] and [mpsc] are library code: the components that
    use them are parametric in an implementation that satisfies the documented
    laws.  The state of either object is observed through a few functions;
    every operation's law says what becomes of them.  A blocking operation of the
    channel ([send], [recv]) is its [try_] form, enabled when it does not report
    that it would block; the future of [acquire] is polled, and waits in a queue. *)

From S2P Require Import Prelude.

(** ** Semaphores *)

Inductive TryAcquireError : Type :=
| NoPermits
| SemaphoreClosed.

(** What a semaphore hands out: the permits that are free, the pending [acquire]
    futures in the order in which they asked, and those that were given a permit
    and have not been polled since.  Futures are known by a number. *)
Record Permits : Type := MkPermits {
  free : Z;
  waiting : list nat;
  granted : list nat
}.

Definition permits_take (p : Permits) : Permits :=
  MkPermits (free p - 1) (waiting p) (granted p).

(** A returned permit goes to the future that has waited longest. *)
Definition permits_release (p : Permits) : Permits :=
  match waiting p with
  | [] => MkPermits (free p + 1) [] (granted p)
  | i :: waiting => MkPermits (free p) waiting (granted p ++ [i])
  end.

Definition without (i : nat) (l : list nat) : list nat := filter (λ j, j ≠ i) l.

(** Polling the [i]-th future: whether it is ready.  The first poll takes a free
    permit or joins the queue. *)
Definition permits_poll (p : Permits) (i : nat) : bool * Permits :=
  if decide (i ∈ granted p) then (true, MkPermits (free p) (waiting p) (without i (granted p)))
  else if decide (i ∈ waiting p) then (false, p)
  else if 0 <? free p then (true, permits_take p)
  else (false, MkPermits (free p) (waiting p ++ [i]) (granted p)).

(** Dropping the [i]-th future: it leaves the queue, or returns its permit. *)
Definition permits_cancel (p : Permits) (i : nat) : Permits :=
  if decide (i ∈ granted p)
  then permits_release (MkPermits (free p) (waiting p) (without i (granted p)))
  else MkPermits (free p) (without i (waiting p)) (granted p).

Class Semaphore (Sem : Type) : Type := {
  sem_new : Z → Sem;
  sem_try_acquire : Sem → Result TryAcquireError Sem;
  (** [None] when the semaphore is closed. *)
  sem_poll_acquire : Sem → nat → option (bool * Sem);
  sem_cancel_acquire : Sem → nat → Sem;
  (** Dropping a permit. *)
  sem_release : Sem → Sem;
  sem_permits : Sem → Permits;
  sem_open : Sem → bool
}.

(** The semaphore is fair: permits are given out in the order they were
    requested, and a cancelled request loses its place. *)
Class SemaphoreLaws (Sem : Type) `{Semaphore Sem} : Prop := {
  sem_new_permits n : 0 ≤ n → sem_permits (sem_new n) = MkPermits n [] [];
  sem_new_open n : sem_open (sem_new n) = true;
  sem_try_acquire_Ok s s' :
    sem_try_acquire s = Ok s' →
    0 < free (sem_permits s) ∧ sem_permits s' = permits_take (sem_permits s) ∧
    sem_open s' = sem_open s;
  sem_try_acquire_NoPermits s :
    sem_try_acquire s = Err NoPermits → free (sem_permits s) ≤ 0;
  sem_try_acquire_Closed s :
    sem_try_acquire s = Err SemaphoreClosed → sem_open s = false;
  sem_poll_acquire_Some s i b s' :
    sem_poll_acquire s i = Some (b, s') →
    permits_poll (sem_permits s) i = (b, sem_permits s') ∧ sem_open s' = sem_open s;
  sem_poll_acquire_None s i :
    sem_poll_acquire s i = None → sem_open s = false;
  sem_cancel_acquire_permits s i :
    sem_permits (sem_cancel_acquire s i) = permits_cancel (sem_permits s) i;
  sem_cancel_acquire_open s i : sem_open (sem_cancel_acquire s i) = sem_open s;
  sem_release_permits s : sem_permits (sem_release s) = permits_release (sem_permits s);
  sem_release_open s : sem_open (sem_release s) = sem_open s
}.

(** The permits themselves. *)
Definition fifo_semaphore : Semaphore Permits := {|
  sem_new n := MkPermits n [] [];
  sem_try_acquire p := if 0 <? free p then Ok (permits_take p) else Err NoPermits;
  sem_poll_acquire p i := Some (permits_poll p i);
  sem_cancel_acquire := permits_cancel;
  sem_release := permits_release;
  sem_permits p := p;
  sem_open _ := true
|}.

(** ** Bounded multi-producer channels *)

Inductive TrySendError : Type :=
| SendFull
| SendClosed.

Class Mpsc (C : Type → Type) : Type := {
  mpsc_channel {A} : Z → C A;
  mpsc_try_send {A} : C A → A → Result TrySendError (C A);
  mpsc_try_recv {A} : C A → option (A * C A);
  (** Dropping the receiver drops what is buffered. *)
  mpsc_close {A} : C A → C A;
  mpsc_items {A} : C A → list A;
  mpsc_capacity {A} : C A → Z;
  mpsc_open {A} : C A → bool
}.

Class MpscLaws (C : Type → Type) `{Mpsc C} : Prop := {
  mpsc_channel_items A n : mpsc_items (mpsc_channel (A := A) n) = [];
  mpsc_channel_capacity A n : mpsc_capacity (mpsc_channel (A := A) n) = n;
  mpsc_channel_open A n : mpsc_open (mpsc_channel (A := A) n) = true;
  mpsc_try_send_Ok A (c c' : C A) a :
    mpsc_try_send c a = Ok c' →
    zlen (mpsc_items c) < mpsc_capacity c ∧ mpsc_open c = true ∧
    mpsc_items c' = mpsc_items c ++ [a] ∧ mpsc_capacity c' = mpsc_capacity c ∧
    mpsc_open c' = true;
  mpsc_try_send_Full A (c : C A) a :
    mpsc_try_send c a = Err SendFull →
    mpsc_open c = true ∧ mpsc_capacity c ≤ zlen (mpsc_items c);
  mpsc_try_send_Closed A (c : C A) a :
    mpsc_try_send c a = Err SendClosed → mpsc_open c = false;
  mpsc_try_recv_Some A (c c' : C A) a :
    mpsc_try_recv c = Some (a, c') →
    mpsc_items c = a :: mpsc_items c' ∧ mpsc_capacity c' = mpsc_capacity c ∧
    mpsc_open c' = mpsc_open c;
  mpsc_try_recv_None A (c : C A) : mpsc_try_recv c = None → mpsc_items c = [];
  mpsc_close_items A (c : C A) : mpsc_items (mpsc_close c) = [];
  mpsc_close_capacity A (c : C A) : mpsc_capacity (mpsc_close c) = mpsc_capacity c;
  mpsc_close_open A (c : C A) : mpsc_open (mpsc_close c) = false
}.

Record list_channel (A : Type) : Type := MkListChannel {
  lc_items : list A;
  lc_capacity : Z;
  lc_open : bool
}.
Arguments MkListChannel {A} _ _ _.
Arguments lc_items {A} _.
Arguments lc_capacity {A} _.
Arguments lc_open {A} _.

Definition list_mpsc : Mpsc list_channel := {|
  mpsc_channel _ n := MkListChannel [] n true;
  mpsc_try_send _ c a :=
    if lc_open c then
      if zlen (lc_items c) <? lc_capacity c
      then Ok (MkListChannel (lc_items c ++ [a]) (lc_capacity c) true)
      else Err SendFull
    else Err SendClosed;
  mpsc_try_recv _ c :=
    match lc_items c with
    | [] => None
    | a :: l => Some (a, MkListChannel l (lc_capacity c) (lc_open c))
    end;
  mpsc_close _ c := MkListChannel [] (lc_capacity c) false;
  mpsc_items _ c := lc_items c;
  mpsc_capacity _ c := lc_capacity c;
  mpsc_open _ c := lc_open c
|}.

(** ** The laws hold of the permits and of the list *)

Lemma fifo_semaphore_laws : @SemaphoreLaws Permits fifo_semaphore.
Proof.
  split; cbn; try done.
  - intros p p' Hp. destruct (Z.ltb_spec 0 (free p)); by simplify_eq.
  - intros p Hp. by destruct (Z.ltb_spec 0 (free p)); simplify_eq.
  - intros p Hp. by case_match.
  - intros p i b p' [= ->]. done.
Qed.

Lemma list_mpsc_laws : @MpscLaws list_channel list_mpsc.
Proof.
  split; simpl; try done; intros A c; repeat intro; repeat case_match; simplify_eq/=;
    split_and?; done || lia.
Qed.

(** ** Permits and their owners *)

(** The permits a semaphore has not handed to anybody who was polled since. *)
Definition unowned (p : Permits) : Z := free p + zlen (granted p).

(** [queued] are the pending futures: each is in exactly one of the two lists,
    and nobody waits while a permit is free. *)
Record permits_inv (queued : nat → Prop) (p : Permits) : Prop := {
  pi_free : 0 ≤ free p;
  pi_fair : waiting p ≠ [] → free p = 0;
  pi_nodup : NoDup (granted p ++ waiting p);
  pi_queued i : i ∈ granted p ++ waiting p ↔ queued i
}.

Lemma permits_inv_iff (Q Q' : nat → Prop) p :
  (∀ i, Q i ↔ Q' i) → permits_inv Q p → permits_inv Q' p.
Proof. intros HQ [? ? ? Hq]. split; try done. intros i. by rewrite Hq. Qed.

Lemma without_elem i j l : j ∈ without i l ↔ j ∈ l ∧ j ≠ i.
Proof. unfold without. rewrite list_elem_of_filter. naive_solver. Qed.
Lemma without_cons i j l :
  without i (j :: l) = if decide (j = i) then without i l else j :: without i l.
Proof.
  unfold without. destruct (decide (j = i)); [by rewrite filter_cons_False by naive_solver|].
  by rewrite filter_cons_True.
Qed.
Lemma without_absent i l : i ∉ l → without i l = l.
Proof.
  induction l as [|j l IH]; intros Hi; [done|].
  rewrite without_cons, decide_False, IH by set_solver. done.
Qed.
Lemma without_app i l k : without i (l ++ k) = without i l ++ without i k.
Proof. apply filter_app. Qed.
Lemma without_length i l : NoDup l → i ∈ l → zlen (without i l) = zlen l - 1.
Proof.
  intros Hnd Hi. induction Hnd as [|j l Hj Hnd IH]; [set_solver|].
  rewrite without_cons, zlen_cons. case_decide as Hji.
  - subst. rewrite without_absent by done. lia.
  - rewrite zlen_cons, IH by set_solver. lia.
Qed.

Lemma permits_take_inv Q p :
  permits_inv Q p → 0 < free p → permits_inv Q (permits_take p) ∧ unowned (permits_take p) = unowned p - 1.
Proof.
  intros [Hf Hw Hnd Hq] Hpos. unfold unowned. cbn. split; [|lia]. split; cbn; try done; [lia|].
  intros ?%Hw. lia.
Qed.

Lemma permits_release_inv Q p :
  permits_inv Q p → permits_inv Q (permits_release p) ∧ unowned (permits_release p) = unowned p + 1.
Proof.
  intros [Hf Hw Hnd Hq]. unfold permits_release, unowned. destruct (waiting p) as [|i w] eqn:Hwt; cbn.
  - split; [|lia]. split; cbn; try done. lia.
  - rewrite zlen_app, zlen_cons, zlen_nil. split; [|lia]. split; cbn; [done| | |].
    + intros _. by apply Hw.
    + by rewrite <-app_assoc.
    + intros j. by rewrite <-app_assoc, <-Hq.
Qed.

(** A future that is ready is no longer pending. *)
Lemma permits_poll_ready Q p i p' :
  permits_inv Q p → permits_poll p i = (true, p') →
  permits_inv (λ j, Q j ∧ j ≠ i) p' ∧ unowned p' = unowned p - 1.
Proof.
  intros Hinv Hp. pose proof Hinv as [Hf Hw Hnd Hq]. unfold permits_poll in Hp.
  destruct (decide (i ∈ granted p)) as [Hg|Hg]; [|destruct (decide (i ∈ waiting p)); [done|]].
  - injection Hp as <-. apply NoDup_app in Hnd as Hnd'. destruct Hnd' as (Hndg & Hdis & _).
    unfold unowned. cbn. rewrite without_length by done. split; [|lia].
    assert (waiting p = without i (waiting p)) as Hwi
      by (symmetry; apply without_absent; by apply Hdis).
    split; cbn; try done.
    + rewrite Hwi, <-without_app. by apply NoDup_filter.
    + intros j. rewrite Hwi, <-without_app, without_elem, Hq. done.
  - destruct (Z.ltb_spec 0 (free p)) as [Hpos|]; [|done]. injection Hp as <-.
    destruct (permits_take_inv Q p Hinv Hpos) as [Hinv' ?]. split; [|done].
    eapply permits_inv_iff; [|exact Hinv']. intros j. rewrite <-Hq. set_solver.
Qed.

Lemma permits_poll_pending Q p i p' :
  permits_inv Q p → permits_poll p i = (false, p') →
  permits_inv (λ j, Q j ∨ j = i) p' ∧ unowned p' = unowned p ∧
  (waiting p' = waiting p ∧ i ∈ waiting p ∧ p' = p ∨ waiting p' = waiting p ++ [i]) ∧
  granted p' = granted p.
Proof.
  intros Hinv Hp. pose proof Hinv as [Hf Hw Hnd Hq]. unfold permits_poll in Hp.
  destruct (decide (i ∈ granted p)) as [Hg|Hg]; [done|]. destruct (decide (i ∈ waiting p)) as [Hi|Hi].
  - injection Hp as <-. split_and!; try done; [|by left].
    eapply permits_inv_iff; [|exact Hinv]. intros j. rewrite <-Hq. set_solver.
  - destruct (Z.ltb_spec 0 (free p)) as [|Hz]; [done|]. injection Hp as <-. split_and!; try done; [|by right].
    split; cbn; [done|lia| |].
    + rewrite app_assoc. apply NoDup_app. split_and!; [done| |apply NoDup_singleton]. set_solver.
    + intros j. rewrite app_assoc, elem_of_app, list_elem_of_singleton, Hq. done.
Qed.

Lemma permits_cancel_inv Q p i :
  permits_inv Q p → permits_inv (λ j, Q j ∧ j ≠ i) (permits_cancel p i) ∧
  unowned (permits_cancel p i) = unowned p.
Proof.
  intros Hinv. pose proof Hinv as [Hf Hw Hnd Hq]. unfold permits_cancel.
  destruct (decide (i ∈ granted p)) as [Hg|Hg].
  - destruct (permits_poll_ready Q p i (MkPermits (free p) (waiting p) (without i (granted p))))
      as [Hinv1 Hun]; [done|unfold permits_poll; by rewrite decide_True|].
    destruct (permits_release_inv _ _ Hinv1) as [Hinv2 ->]. split; [done|lia].
  - split; [|done]. split; cbn; [done| | |].
    + intros Hne. apply Hw. intros E. by rewrite E in Hne.
    + rewrite <-(without_absent i (granted p)), <-without_app by done. by apply NoDup_filter.
    + intros j. rewrite <-(without_absent i (granted p)), <-without_app, without_elem, Hq by done. done.
Qed.

(** *** First come, first served *)

Lemma ready_position p j p' : permits_poll p j = (true, p') → waiting p' = waiting p.
Proof.
  unfold permits_poll. intros Hp. repeat case_decide; try done; [by injection Hp as <-|].
  case_match; [|done]. by injection Hp as <-.
Qed.

Lemma release_position p i n :
  waiting p !! n = Some i →
  match n with
  | O => i ∈ granted (permits_release p)
  | S n => waiting (permits_release p) !! n = Some i
  end.
Proof.
  unfold permits_release. destruct (waiting p) as [|j w]; [done|].
  destruct n; cbn; intros; simplify_eq; [set_solver|done].
Qed.

Lemma without_position i j n l :
  j ≠ i → l !! n = Some i → ∃ m, (m ≤ n)%nat ∧ without j l !! m = Some i.
Proof.
  intros Hj. revert n. induction l as [|k l IH]; intros n Hn; [done|].
  rewrite without_cons. case_decide as Hk; destruct n as [|n]; simplify_eq/=.
  - destruct (IH n Hn) as (m & ? & ?). exists m. split; [lia|done].
  - by exists 0%nat.
  - destruct (IH n Hn) as (m & ? & ?). exists (S m). split; [lia|done].
Qed.
