(* ===== verification/BoundedQueue.v ===== *)
(** * BoundedQueue: admission to the DATA pipeline and its occupancy telemetry

    [BoundedQueueSender], [BoundedQueueItem] and [BoundedQueueTelemetry] of
    [crates/common/src/bounded_fair_queue.rs], as a transition system in which
    any number of [send] calls run concurrently with one consumer.  A step is
    one atomic operation: an operation of the semaphore, of the channel, or one
    atomic memory access, with the compare-and-exchange loop of [update_peak]
    spelt out. *)

From S2P Require Import Prelude Channels.

(** ** Telemetry *)

Record BoundedQueueTelemetry : Type := MkQueueTelemetry {
  admission_waits : Z;
  admitted_items : Z;
  peak_admitted_items : Z
}.

Definition QueueTelemetry_default : BoundedQueueTelemetry := MkQueueTelemetry 0 0 0.

Definition admission_waited (t : BoundedQueueTelemetry) : BoundedQueueTelemetry :=
  MkQueueTelemetry (wrap USIZE_BITS (admission_waits t + 1)) (admitted_items t)
    (peak_admitted_items t).

(** [admitted] up to [update_peak]: the gauge is incremented; the value it
    then had is the candidate for the peak. *)
Definition admitted (t : BoundedQueueTelemetry) : Z * BoundedQueueTelemetry :=
  let current := wrap USIZE_BITS (admitted_items t + 1) in
  (current, MkQueueTelemetry (admission_waits t) current (peak_admitted_items t)).

(** [Drop for BoundedQueueOccupancyGuard]. *)
Definition guard_drop (t : BoundedQueueTelemetry) : BoundedQueueTelemetry :=
  MkQueueTelemetry (admission_waits t) (wrap USIZE_BITS (admitted_items t - 1))
    (peak_admitted_items t).

Definition set_peak (t : BoundedQueueTelemetry) (peak : Z) : BoundedQueueTelemetry :=
  MkQueueTelemetry (admission_waits t) (admitted_items t) peak.

(** One turn of [while candidate > current { compare_exchange_weak }]: the
    loop ends, with the peak raised if the exchange succeeded, or goes on with
    the value the exchange saw.  [spurious] is the failure a weak exchange may
    report although the values agree. *)
Definition update_peak_turn (peak candidate current : Z) (spurious : bool) : Z * option Z :=
  if current <? candidate then
    if (peak =? current) && negb spurious then (candidate, None) else (peak, Some peak)
  else (peak, None).

(** ** The queue and the calls in progress *)

Inductive send_result : Type :=
| Sent
| BoundedQueueClosed
| SendDropped.           (** the future was dropped at an await *)

Inductive send_pc (V : Type) : Type :=
| SendStart (v : V)                        (** before [try_acquire_owned] *)
| SendWaiting (v : V)                      (** before the first poll of [acquire_owned()] *)
| SendQueued (v : V)                       (** suspended at its [await] *)
| SendPermit (v : V)                       (** permit held *)
| SendCounted (v : V) (candidate : Z)      (** in [update_peak], before the load *)
| SendPeak (v : V) (candidate current : Z) (** in the loop of [update_peak] *)
| SendReady (v : V)                        (** at [sender.send(item).await] *)
| SendDropItem (r : send_result)           (** dropping the item: its permit *)
| SendDropGuard (r : send_result)          (** dropping the item: its guard *)
| SendDone (r : send_result).
Arguments SendStart {V} v.
Arguments SendWaiting {V} v.
Arguments SendQueued {V} v.
Arguments SendPermit {V} v.
Arguments SendCounted {V} v candidate.
Arguments SendPeak {V} v candidate current.
Arguments SendReady {V} v.
Arguments SendDropItem {V} r.
Arguments SendDropGuard {V} r.
Arguments SendDone {V} r.

Section queue.
Context {Sem : Type} `{Semaphore Sem} {C : Type → Type} `{Mpsc C} {V : Type}.

Record queue : Type := MkQueue {
  q_permits : Sem;
  q_channel : C V;
  q_telemetry : option BoundedQueueTelemetry;
  q_sends : list (send_pc V);     (** every call of [send] so far *)
  q_held : list V;                (** items the consumer owns *)
  q_dropping : Z                  (** items whose permit is gone, not their guard *)
}.

Definition bounded_queue_channel_inner (capacity : Z)
    (telemetry : option BoundedQueueTelemetry) : queue :=
  MkQueue (sem_new capacity) (mpsc_channel capacity) telemetry [] [] 0.

Definition set_permits (q : queue) (s : Sem) : queue :=
  MkQueue s (q_channel q) (q_telemetry q) (q_sends q) (q_held q) (q_dropping q).
Definition set_channel (q : queue) (c : C V) : queue :=
  MkQueue (q_permits q) c (q_telemetry q) (q_sends q) (q_held q) (q_dropping q).
Definition on_telemetry (f : BoundedQueueTelemetry → BoundedQueueTelemetry) (q : queue) : queue :=
  MkQueue (q_permits q) (q_channel q) (f <$> q_telemetry q) (q_sends q) (q_held q) (q_dropping q).
Definition set_send (q : queue) (i : nat) (pc : send_pc V) : queue :=
  MkQueue (q_permits q) (q_channel q) (q_telemetry q) (<[i := pc]> (q_sends q)) (q_held q)
    (q_dropping q).
Definition set_held (q : queue) (held : list V) (dropping : Z) : queue :=
  MkQueue (q_permits q) (q_channel q) (q_telemetry q) (q_sends q) held dropping.

(** The next atomic operation of the [i]-th [send] call; [None] while it is
    blocked or after it returned. *)
Definition send_advance (q : queue) (i : nat) (pc : send_pc V) (spurious : bool)
    : option (send_pc V * queue) :=
  match pc with
  | SendStart v =>
      match sem_try_acquire (q_permits q) with
      | Ok s => Some (SendPermit v, set_permits q s)
      | Err NoPermits => Some (SendWaiting v, on_telemetry admission_waited q)
      | Err SemaphoreClosed => Some (SendDone BoundedQueueClosed, q)
      end
  | SendWaiting v =>
      match sem_poll_acquire (q_permits q) i with
      | Some (true, s) => Some (SendPermit v, set_permits q s)
      | Some (false, s) => Some (SendQueued v, set_permits q s)
      | None => Some (SendDone BoundedQueueClosed, q)
      end
  | SendQueued v =>
      match sem_poll_acquire (q_permits q) i with
      | Some (true, s) => Some (SendPermit v, set_permits q s)
      | Some (false, _) => None
      | None => Some (SendDone BoundedQueueClosed, q)
      end
  | SendPermit v =>
      match q_telemetry q with
      | None => Some (SendReady v, q)
      | Some t => Some (SendCounted v (admitted t).1, on_telemetry (λ t, (admitted t).2) q)
      end
  | SendCounted v candidate =>
      match q_telemetry q with
      | None => None
      | Some t => Some (SendPeak v candidate (peak_admitted_items t), q)
      end
  | SendPeak v candidate current =>
      match q_telemetry q with
      | None => None
      | Some t =>
          let '(peak, next) :=
            update_peak_turn (peak_admitted_items t) candidate current spurious in
          Some (match next with
                | Some current' => SendPeak v candidate current'
                | None => SendReady v
                end, on_telemetry (λ t, set_peak t peak) q)
      end
  | SendReady v =>
      match mpsc_try_send (q_channel q) v with
      | Ok c => Some (SendDone Sent, set_channel q c)
      | Err SendFull => None
      | Err SendClosed => Some (SendDropItem BoundedQueueClosed, q)
      end
  | SendDropItem r => Some (SendDropGuard r, set_permits q (sem_release (q_permits q)))
  | SendDropGuard r => Some (SendDone r, on_telemetry guard_drop q)
  | SendDone _ => None
  end.

(** Dropping the [i]-th [send] future at one of its two awaits.  (The runtime may
    make a task yield before it polls the semaphore.) *)
Definition send_cancel (q : queue) (i : nat) (pc : send_pc V) : option (send_pc V * queue) :=
  match pc with
  | SendWaiting _ | SendQueued _ =>
      Some (SendDone SendDropped, set_permits q (sem_cancel_acquire (q_permits q) i))
  | SendReady _ => Some (SendDropItem SendDropped, q)
  | _ => None
  end.

Inductive action : Type :=
| ActSend (v : V)                        (** a producer calls [send] *)
| ActAdvance (i : nat) (spurious : bool)
| ActCancel (i : nat)
| ActRecv                                (** the consumer receives an item *)
| ActDropItem (j : nat)                  (** it drops one: the permit, ... *)
| ActDropGuard                           (** ... then the guard *)
| ActClose.                              (** it drops the receiver *)

(** The fields of an item are dropped in the order of their declaration: the
    permit before the occupancy guard. *)
Definition step (q : queue) (a : action) : option queue :=
  match a with
  | ActSend v =>
      Some (MkQueue (q_permits q) (q_channel q) (q_telemetry q) (q_sends q ++ [SendStart v])
              (q_held q) (q_dropping q))
  | ActAdvance i spurious =>
      pc ← q_sends q !! i;
      '(pc', q') ← send_advance q i pc spurious;
      Some (set_send q' i pc')
  | ActCancel i =>
      pc ← q_sends q !! i;
      '(pc', q') ← send_cancel q i pc;
      Some (set_send q' i pc')
  | ActRecv =>
      '(v, c) ← mpsc_try_recv (q_channel q);
      Some (set_held (set_channel q c) (q_held q ++ [v]) (q_dropping q))
  | ActDropItem j =>
      _ ← q_held q !! j;
      Some (set_held (set_permits q (sem_release (q_permits q)))
              (delete j (q_held q)) (q_dropping q + 1))
  | ActDropGuard =>
      if 0 <? q_dropping q
      then Some (set_held (on_telemetry guard_drop q) (q_held q) (q_dropping q - 1))
      else None
  | ActClose =>
      Some (set_held (set_channel q (mpsc_close (q_channel q)))
              (q_held q ++ mpsc_items (q_channel q)) (q_dropping q))
  end.

Fixpoint run (q : queue) (acts : list action) : option queue :=
  match acts with
  | [] => Some q
  | a :: acts => q' ← step q a; run q' acts
  end.

(** ** What the calls in progress own *)

Definition owns_permit (pc : send_pc V) : Z :=
  match pc with
  | SendPermit _ | SendCounted _ _ | SendPeak _ _ _ | SendReady _ | SendDropItem _ => 1
  | _ => 0
  end.
Definition owns_guard (pc : send_pc V) : Z :=
  match pc with
  | SendCounted _ _ | SendPeak _ _ _ | SendReady _ | SendDropItem _ | SendDropGuard _ => 1
  | _ => 0
  end.

Fixpoint total (f : send_pc V → Z) (l : list (send_pc V)) : Z :=
  match l with [] => 0 | pc :: l => f pc + total f l end.

Lemma total_app f l k : total f (l ++ k) = total f l + total f k.
Proof. induction l; simpl; lia. Qed.

Lemma total_insert f l i pc pc' :
  l !! i = Some pc → total f (<[i := pc']> l) = total f l - f pc + f pc'.
Proof.
  revert i. induction l as [|x l IH]; intros [|i] Hi; simplify_eq/=; [lia|].
  rewrite (IH _ Hi). lia.
Qed.

Lemma total_nonneg f l : (∀ pc, 0 ≤ f pc) → 0 ≤ total f l.
Proof. intros Hf. induction l as [|pc l IH]; simpl; [lia|]. specialize (Hf pc). lia. Qed.

Lemma total_lookup f l i pc :
  (∀ pc, 0 ≤ f pc) → l !! i = Some pc → f pc ≤ total f l.
Proof.
  intros Hf. revert i. induction l as [|x l IH]; intros [|i] Hi; simplify_eq/=.
  - pose proof (total_nonneg f l Hf). lia.
  - specialize (IH _ Hi). specialize (Hf x). lia.
Qed.

(** The calls suspended in the semaphore's queue. *)
Definition is_queued (l : list (send_pc V)) (i : nat) : Prop := ∃ v, l !! i = Some (SendQueued v).

(** Items that occupy the pipeline: queued, scheduled and in flight. *)
Definition occupancy (q : queue) : Z :=
  total owns_permit (q_sends q) + zlen (mpsc_items (q_channel q)) + zlen (q_held q).

(** Occupancy guards not yet dropped. *)
Definition guards (q : queue) : Z :=
  total owns_guard (q_sends q) + zlen (mpsc_items (q_channel q)) + zlen (q_held q)
  + q_dropping q.
End queue.
Arguments queue Sem C V : clear implicits.
Arguments action V : clear implicits.

(** ** Invariant *)

Section invariant.
Context {Sem : Type} `{SemaphoreLaws Sem} {C : Type → Type} `{MpscLaws C} {V : Type}.
Implicit Types q : queue Sem C V.

Record queue_inv (capacity : Z) q : Prop := {
  qi_permits : unowned (sem_permits (q_permits q)) + occupancy q = capacity;
  qi_queue : permits_inv (is_queued (q_sends q)) (sem_permits (q_permits q));
  qi_sem_open : sem_open (q_permits q) = true;
  qi_capacity : mpsc_capacity (q_channel q) = capacity;
  qi_dropping : 0 ≤ q_dropping q;
  qi_gauge t : q_telemetry q = Some t → admitted_items t = wrap USIZE_BITS (guards q)
}.

Lemma owns_permit_nonneg (pc : send_pc V) : 0 ≤ owns_permit pc.
Proof. by destruct pc. Qed.
Lemma owns_guard_nonneg (pc : send_pc V) : 0 ≤ owns_guard pc.
Proof. by destruct pc. Qed.

Lemma wrap_wrap_add w a b : wrap w (wrap w a + b) = wrap w (a + b).
Proof. unfold wrap. apply Zplus_mod_idemp_l. Qed.

Lemma queue_inv_new capacity tel :
  0 < capacity → (∀ t, tel = Some t → admitted_items t = 0) →
  queue_inv capacity (bounded_queue_channel_inner capacity tel).
Proof.
  intros Hc Htel. split; simpl.
  - unfold occupancy, unowned. simpl. rewrite mpsc_channel_items, sem_new_permits by lia.
    change (zlen (@nil V)) with 0. change (zlen (granted _)) with 0. cbn. lia.
  - rewrite sem_new_permits by lia. split; cbn; try done; [lia|constructor|].
    intros i. split; [set_solver|]. by intros [v ?].
  - apply sem_new_open.
  - apply mpsc_channel_capacity.
  - lia.
  - intros t Ht. rewrite (Htel t Ht). unfold guards. simpl.
    rewrite mpsc_channel_items. done.
Qed.

(** Every operation moves permits and guards between the places that own
    them: what it does to the totals is all the invariant depends on. *)
Lemma queue_inv_move capacity q q' d :
  queue_inv capacity q →
  unowned (sem_permits (q_permits q')) + occupancy q'
    = unowned (sem_permits (q_permits q)) + occupancy q →
  permits_inv (is_queued (q_sends q')) (sem_permits (q_permits q')) →
  sem_open (q_permits q') = sem_open (q_permits q) →
  mpsc_capacity (q_channel q') = mpsc_capacity (q_channel q) →
  0 ≤ q_dropping q' →
  guards q' = guards q + d →
  (∀ t', q_telemetry q' = Some t' → ∃ t, q_telemetry q = Some t ∧
     (d = 0 ∧ admitted_items t' = admitted_items t ∨
      admitted_items t' = wrap USIZE_BITS (admitted_items t + d))) →
  queue_inv capacity q'.
Proof.
  intros [Hp Hq Hs Hc Hd Hg] Hp' Hq' Hs' Hc' Hd' Hg' Ht. split; try done; try congruence; try lia.
  intros t' Ht'. destruct (Ht t' Ht') as (t & Htel & [[-> ->]| ->]).
  - rewrite (Hg t Htel), Hg'. f_equal. lia.
  - by rewrite (Hg t Htel), Hg', wrap_wrap_add.
Qed.

(** The telemetry of a step that changes the number of guards by [d]. *)
Definition gauge_moves (d : Z) (tel tel' : option BoundedQueueTelemetry) : Prop :=
  ∀ t', tel' = Some t' → ∃ t, tel = Some t ∧
    (d = 0 ∧ admitted_items t' = admitted_items t ∨
     admitted_items t' = wrap USIZE_BITS (admitted_items t + d)).

Lemma gauge_same tel : gauge_moves 0 tel tel.
Proof. intros t Ht. exists t. auto. Qed.
Lemma gauge_fmap d f tel :
  (∀ t, d = 0 ∧ admitted_items (f t) = admitted_items t ∨
        admitted_items (f t) = wrap USIZE_BITS (admitted_items t + d)) →
  gauge_moves d tel (f <$> tel).
Proof. intros Hf t' (t & -> & ->)%fmap_Some. eauto. Qed.

(** The calls in the queue, when the [i]-th one goes on. *)
Lemma is_queued_insert (l : list (send_pc V)) i pc pc' j :
  l !! i = Some pc →
  is_queued (<[i := pc']> l) j ↔
  if decide (j = i) then ∃ v, pc' = SendQueued v else is_queued l j.
Proof.
  intros Hi. unfold is_queued. case_decide as Hj.
  - subst. rewrite list_lookup_insert_eq by by eapply lookup_lt_Some. naive_solver.
  - by rewrite list_lookup_insert_ne by done.
Qed.

(** A call that is not in the queue and does not enter it. *)
Lemma queue_unmoved (l : list (send_pc V)) i pc pc' p :
  l !! i = Some pc → (∀ v, pc ≠ SendQueued v) → (∀ v, pc' ≠ SendQueued v) →
  permits_inv (is_queued l) p → permits_inv (is_queued (<[i := pc']> l)) p.
Proof.
  intros Hi Hpc Hpc'. apply permits_inv_iff. intros j. rewrite is_queued_insert by done.
  case_decide as Hj; [|done]. subst. unfold is_queued. rewrite Hi. naive_solver.
Qed.

Lemma queue_left (l : list (send_pc V)) i pc pc' p :
  l !! i = Some pc → (∀ v, pc' ≠ SendQueued v) →
  permits_inv (λ j, is_queued l j ∧ j ≠ i) p → permits_inv (is_queued (<[i := pc']> l)) p.
Proof.
  intros Hi Hpc'. apply permits_inv_iff. intros j. rewrite is_queued_insert by done.
  case_decide; naive_solver.
Qed.

Lemma queue_joined (l : list (send_pc V)) i pc v p :
  l !! i = Some pc → permits_inv (λ j, is_queued l j ∨ j = i) p →
  permits_inv (is_queued (<[i := SendQueued v]> l)) p.
Proof.
  intros Hi. apply permits_inv_iff. intros j. rewrite is_queued_insert by done.
  case_decide; naive_solver.
Qed.

(** A step of the [i]-th call that acquires [da] permits, enqueues [di] items
    and counts [d] guards. *)
Lemma send_move capacity q i pc pc' sem chan tel da di d :
  queue_inv capacity q → q_sends q !! i = Some pc →
  unowned (sem_permits sem) = unowned (sem_permits (q_permits q)) - da →
  permits_inv (is_queued (<[i := pc']> (q_sends q))) (sem_permits sem) →
  sem_open sem = sem_open (q_permits q) →
  zlen (mpsc_items chan) = zlen (mpsc_items (q_channel q)) + di →
  mpsc_capacity chan = mpsc_capacity (q_channel q) →
  owns_permit pc' = owns_permit pc + da - di →
  d = owns_guard pc' - owns_guard pc + di →
  gauge_moves d (q_telemetry q) tel →
  queue_inv capacity (MkQueue sem chan tel (<[i := pc']> (q_sends q)) (q_held q) (q_dropping q)).
Proof.
  intros Hinv Hi Hsem Hqueue Hopen Hitems Hcap Hown Hd Hg.
  apply (queue_inv_move capacity q _ d); unfold occupancy, guards; cbn -[zlen];
    rewrite ?(total_insert _ _ _ _ _ Hi); try done; try lia.
  by apply (qi_dropping capacity).
Qed.

(** The same for a call outside the queue that leaves the semaphore alone. *)
Lemma send_local capacity q i pc pc' chan tel di d :
  queue_inv capacity q → q_sends q !! i = Some pc →
  (∀ v, pc ≠ SendQueued v) → (∀ v, pc' ≠ SendQueued v) →
  zlen (mpsc_items chan) = zlen (mpsc_items (q_channel q)) + di →
  mpsc_capacity chan = mpsc_capacity (q_channel q) →
  owns_permit pc' = owns_permit pc - di →
  d = owns_guard pc' - owns_guard pc + di →
  gauge_moves d (q_telemetry q) tel →
  queue_inv capacity
    (MkQueue (q_permits q) chan tel (<[i := pc']> (q_sends q)) (q_held q) (q_dropping q)).
Proof.
  intros Hinv Hi Hn Hn' Hitems Hcap Hown Hd Hg.
  eapply (send_move capacity q i pc pc' _ _ _ 0 di d); eauto; try lia.
  eapply queue_unmoved; eauto. by apply qi_queue with (capacity := capacity).
Qed.

(** A poll of the [acquire] future of the [i]-th call. *)
Lemma send_poll_inv capacity q i pc v s (ready : bool) :
  queue_inv capacity q → q_sends q !! i = Some pc → owns_permit pc = 0 → owns_guard pc = 0 →
  sem_poll_acquire (q_permits q) i = Some (ready, s) →
  queue_inv capacity (set_send (set_permits q s) i (if ready then SendPermit v else SendQueued v)).
Proof.
  intros Hinv Hi Hp Hg [Hpoll Hopen]%sem_poll_acquire_Some. pose proof (qi_queue _ _ Hinv) as Hq.
  destruct ready.
  - destruct (permits_poll_ready _ _ _ _ Hq Hpoll) as [Hq' Hun].
    eapply (send_move capacity q i _ _ _ _ _ 1 0 0); eauto using gauge_same; cbn; try lia.
    by eapply queue_left.
  - destruct (permits_poll_pending _ _ _ _ Hq Hpoll) as (Hq' & Hun & _).
    eapply (send_move capacity q i _ _ _ _ _ 0 0 0); eauto using gauge_same; cbn; try lia.
    by eapply queue_joined.
Qed.

Lemma send_advance_inv capacity q i pc pc' q' spurious :
  queue_inv capacity q → q_sends q !! i = Some pc →
  send_advance q i pc spurious = Some (pc', q') →
  queue_inv capacity (set_send q' i pc').
Proof.
  intros Hinv Hi Hs. pose proof (qi_queue _ _ Hinv) as Hq.
  destruct pc as [v|v|v|v|v cur|v cur seen|v|r|r|r]; cbn [send_advance] in Hs.
  - destruct (sem_try_acquire _) as [s|[]] eqn:Ha; try discriminate; injection Hs as <- <-.
    + apply sem_try_acquire_Ok in Ha as (Hpos & Hs & ?).
      destruct (permits_take_inv _ _ Hq Hpos) as [Hq' Hun]. rewrite <-Hs in Hq', Hun.
      eapply (send_move capacity q i _ _ _ _ _ 1 0 0); eauto using gauge_same; cbn; try lia.
      by eapply queue_unmoved.
    + eapply (send_local capacity q i _ _ _ _ 0 0); eauto; try (simpl; lia). apply gauge_fmap. by left.
    + apply sem_try_acquire_Closed in Ha. by rewrite (qi_sem_open _ _ Hinv) in Ha.
  - destruct (sem_poll_acquire _ i) as [[[] s]|] eqn:Ha; injection Hs as <- <-.
    + by eapply (send_poll_inv _ _ _ _ _ _ true).
    + by eapply (send_poll_inv _ _ _ _ _ _ false).
    + apply sem_poll_acquire_None in Ha. by rewrite (qi_sem_open _ _ Hinv) in Ha.
  - destruct (sem_poll_acquire _ i) as [[[] s]|] eqn:Ha; simplify_eq.
    + by eapply (send_poll_inv _ _ _ _ _ _ true).
    + apply sem_poll_acquire_None in Ha. by rewrite (qi_sem_open _ _ Hinv) in Ha.
  - destruct (q_telemetry q) as [t|] eqn:Ht; injection Hs as <- <-.
    + eapply (send_local capacity q i _ _ _ _ 0 1); eauto; try (simpl; lia). apply gauge_fmap. by right.
    + eapply (send_local capacity q i _ _ _ _ 0 1); eauto; try (simpl; lia). by rewrite Ht.
  - destruct (q_telemetry q) as [t|] eqn:Ht; [|done]; cbn in Hs; try injection Hs as <- <-.
    eapply (send_local capacity q i _ _ _ _ 0 0); eauto using gauge_same; simpl; lia.
  - destruct (q_telemetry q) as [t|] eqn:Ht; [|done]; cbn in Hs; try injection Hs as <- <-.
    destruct (update_peak_turn _ _ _ _) as [peak [seen'|]]; injection Hs as <- <-;
      (eapply (send_local capacity q i _ _ _ _ 0 0); eauto; try (simpl; lia);
       apply gauge_fmap; by left).
  - destruct (mpsc_try_send _ v) as [c|[]] eqn:Hsend; try discriminate; injection Hs as <- <-.
    + apply mpsc_try_send_Ok in Hsend as (_ & _ & Hit & Hcap & _).
      assert (zlen (mpsc_items c) = zlen (mpsc_items (q_channel q)) + 1)
        by (rewrite Hit, zlen_app; done).
      eapply (send_local capacity q i _ _ _ _ 1 0); eauto using gauge_same; cbn -[zlen]; done || lia.
    + eapply (send_local capacity q i _ _ _ _ 0 0); eauto using gauge_same; simpl; lia.
  - injection Hs as <- <-. destruct (permits_release_inv _ _ Hq) as [Hq' Hun].
    rewrite <-sem_release_permits in Hq', Hun.
    eapply (send_move capacity q i _ _ _ _ _ (-1) 0 0); eauto using gauge_same; cbn; try lia;
      [by eapply queue_unmoved|apply sem_release_open].
  - injection Hs as <- <-. eapply (send_local capacity q i _ _ _ _ 0 (-1)); eauto; try (simpl; lia).
    apply gauge_fmap. by right.
  - done.
Qed.

Lemma send_cancel_inv capacity q i pc pc' q' :
  queue_inv capacity q → q_sends q !! i = Some pc → send_cancel q i pc = Some (pc', q') →
  queue_inv capacity (set_send q' i pc').
Proof.
  intros Hinv Hi Hc. pose proof (qi_queue _ _ Hinv) as Hq. destruct pc; try done; injection Hc as <- <-.
  1,2: destruct (permits_cancel_inv _ _ i Hq) as [Hq' Hun]; rewrite <-sem_cancel_acquire_permits in Hq', Hun;
    eapply (send_move capacity q i _ _ _ _ _ 0 0 0); eauto using gauge_same; cbn; try lia;
      [by eapply queue_left|apply sem_cancel_acquire_open].
  eapply (send_local capacity q i _ _ _ _ 0 0); eauto using gauge_same; simpl; lia.
Qed.

Lemma step_inv capacity q a q' :
  queue_inv capacity q → step q a = Some q' → queue_inv capacity q'.
Proof.
  intros Hinv Hs. pose proof (qi_queue _ _ Hinv) as Hq.
  pose proof (qi_dropping _ _ Hinv). pose proof (gauge_same (q_telemetry q)).
  destruct a as [v|i sp|i| |j| |]; cbn [step] in Hs.
  - simplify_eq. apply (queue_inv_move capacity q _ 0); unfold occupancy, guards; cbn -[zlen];
      rewrite ?total_app; simpl; try done; try lia.
    eapply permits_inv_iff; [|exact Hq]. intros j. unfold is_queued. setoid_rewrite lookup_app_Some.
    split; [naive_solver|]. intros (w & [?|[_ Hw]]); [by exists w|].
    by apply list_lookup_singleton_Some in Hw as [_ ?].
  - destruct (q_sends q !! i) as [pc|] eqn:Hi; simplify_eq/=.
    destruct (send_advance q i pc sp) as [[pc' q1]|] eqn:Ha; simplify_eq/=.
    by eapply send_advance_inv.
  - destruct (q_sends q !! i) as [pc|] eqn:Hi; simplify_eq/=.
    destruct (send_cancel q i pc) as [[pc' q1]|] eqn:Hc; simplify_eq/=.
    by eapply send_cancel_inv.
  - destruct (mpsc_try_recv _) as [[v c]|] eqn:Hr; simplify_eq/=.
    apply mpsc_try_recv_Some in Hr as (Hit & Hcap & _).
    apply (queue_inv_move capacity q _ 0); unfold occupancy, guards; cbn -[zlen];
      rewrite ?Hit, ?zlen_app, ?zlen_cons, ?zlen_nil; done || lia.
  - destruct (q_held q !! j) as [v|] eqn:Hj; simplify_eq/=.
    assert (zlen (delete j (q_held q)) = zlen (q_held q) - 1).
    { apply lookup_lt_Some in Hj as Hlt. unfold zlen. rewrite length_delete; [lia|eauto]. }
    destruct (permits_release_inv _ _ Hq) as [Hq' Hun]. rewrite <-sem_release_permits in Hq', Hun.
    apply (queue_inv_move capacity q _ 0); unfold occupancy, guards; cbn -[zlen];
      try done; try lia. apply sem_release_open.
  - case_match; simplify_eq.
    apply (queue_inv_move capacity q _ (-1)); unfold occupancy, guards; cbn -[zlen];
      try done; try lia.
    apply gauge_fmap. by right.
  - simplify_eq.
    apply (queue_inv_move capacity q _ 0); unfold occupancy, guards; cbn -[zlen];
      rewrite ?mpsc_close_items, ?mpsc_close_capacity, ?zlen_app; try done;
      change (zlen (@nil V)) with 0; lia.
Qed.

Lemma run_inv capacity q acts q' :
  queue_inv capacity q → run q acts = Some q' → queue_inv capacity q'.
Proof.
  revert q. induction acts as [|a acts IH]; intros q Hinv Hr; simplify_eq/=; [done|].
  destruct (step q a) as [q1|] eqn:Hs; simplify_eq/=.
  eapply IH; [|done]. by eapply step_inv.
Qed.

(** ** The gauge and its peak *)

Definition gauge q : Z := default 0 (admitted_items <$> q_telemetry q).
Definition peak q : Z := default 0 (peak_admitted_items <$> q_telemetry q).

(** The largest value the gauge had in the states of a run. *)
Fixpoint high_water (hw : Z) q (acts : list (action V)) : Z :=
  match acts with
  | [] => hw
  | a :: acts =>
      match step q a with
      | Some q' => high_water (Z.max hw (gauge q')) q' acts
      | None => hw
      end
  end.

(** The candidate a call has yet to offer to the peak. *)
Definition pending_peak (pc : send_pc V) : option Z :=
  match pc with SendCounted _ c | SendPeak _ c _ => Some c | _ => None end.

Record peak_inv (hw : Z) q : Prop := {
  pk_gauge : gauge q ≤ hw;
  pk_peak : peak q ≤ hw;
  pk_pending i pc c : q_sends q !! i = Some pc → pending_peak pc = Some c → c ≤ hw;
  pk_seen i v c cur : q_sends q !! i = Some (SendPeak v c cur) → cur ≤ peak q;
  pk_reached : hw ≤ peak q ∨
    ∃ i pc c, q_sends q !! i = Some pc ∧ pending_peak pc = Some c ∧ hw ≤ c
}.

Lemma step_guards q a q' : step q a = Some q' → guards q' ≤ guards q + 1.
Proof.
  intros Hs. destruct a as [v|i sp|i| |j| |]; cbn [step] in Hs.
  - simplify_eq. unfold guards; cbn -[zlen]. rewrite total_app. simpl. lia.
  - destruct (q_sends q !! i) as [pc|] eqn:Hi; simplify_eq/=.
    destruct (send_advance q i pc sp) as [[pc' q1]|] eqn:Ha; simplify_eq/=.
    destruct pc; cbn [send_advance mbind option_bind] in Ha; repeat case_match; simplify_eq/=;
      unfold guards; cbn -[zlen];
      rewrite ?(total_insert _ _ _ _ _ Hi); cbn -[zlen]; try lia.
    + match goal with H : mpsc_try_send _ _ = Ok _ |- _ =>
        apply mpsc_try_send_Ok in H as (_ & _ & -> & _) end.
      rewrite zlen_app. change (zlen [v]) with 1. lia.
  - destruct (q_sends q !! i) as [pc|] eqn:Hi; simplify_eq/=.
    destruct pc; simplify_eq/=; unfold guards; cbn -[zlen];
      rewrite ?(total_insert _ _ _ _ _ Hi); simpl; lia.
  - destruct (mpsc_try_recv _) as [[v c]|] eqn:Hr; simplify_eq/=.
    apply mpsc_try_recv_Some in Hr as (Hit & _). unfold guards; cbn -[zlen].
    rewrite Hit, zlen_app, !zlen_cons, zlen_nil. lia.
  - destruct (q_held q !! j) as [v|] eqn:Hj; simplify_eq/=. unfold guards; cbn -[zlen].
    assert (zlen (delete j (q_held q)) = zlen (q_held q) - 1); [|lia].
    apply lookup_lt_Some in Hj as Hlt. unfold zlen. rewrite length_delete; [lia|eauto].
  - case_match; simplify_eq. unfold guards; cbn -[zlen]. lia.
  - simplify_eq. unfold guards; cbn -[zlen].
    rewrite mpsc_close_items, zlen_app. change (zlen (@nil V)) with 0. lia.
Qed.

Lemma update_peak_turn_spec p c cur sp p' next :
  cur ≤ p → update_peak_turn p c cur sp = (p', next) →
  p ≤ p' ∧ (p' = p ∨ p' = c) ∧ (next = None → c ≤ p') ∧ (∀ cur', next = Some cur' → cur' ≤ p').
Proof.
  unfold update_peak_turn. intros. repeat case_match; simplify_eq; split_and!; try done;
    try lia; naive_solver lia.
Qed.

Lemma peak_move hw q q' i pc pc' :
  peak_inv hw q → q_sends q !! i = Some pc → q_sends q' = q_sends q →
  peak q ≤ peak q' ≤ Z.max hw (gauge q') →
  (∀ c, pending_peak pc' = Some c → c ≤ Z.max hw (gauge q')) →
  (∀ v c cur, pc' = SendPeak v c cur → cur ≤ peak q') →
  (∀ c, pending_peak pc = Some c → c ≤ peak q' ∨ pending_peak pc' = Some c) →
  (gauge q' ≤ hw ∨ pending_peak pc' = Some (gauge q')) →
  peak_inv (Z.max hw (gauge q')) (set_send q' i pc').
Proof.
  intros [Hg Hp Hpend Hseen Hr] Hi Hs Hpeak Hc Hsn Hold Hnew.
  apply lookup_lt_Some in Hi as Hlt.
  split; change (gauge (set_send q' i pc')) with (gauge q');
    change (peak (set_send q' i pc')) with (peak q'); cbn [q_sends set_send]; rewrite ?Hs;
    [lia|lia| | |].
  - intros j pcj c. destruct (decide (j = i)) as [->|].
    + rewrite list_lookup_insert_eq by done. intros [= <-]. apply Hc.
    + rewrite list_lookup_insert_ne by done. intros Hj ?.
      pose proof (Hpend _ _ _ Hj ltac:(done)). lia.
  - intros j v c cur. destruct (decide (j = i)) as [->|].
    + rewrite list_lookup_insert_eq by done. intros [= ->]. by eapply Hsn.
    + rewrite list_lookup_insert_ne by done. intros Hj. pose proof (Hseen _ _ _ _ Hj). lia.
  - destruct (Z.le_gt_cases (gauge q') hw) as [Hle|Hgt].
    + rewrite Z.max_l by done. destruct Hr as [?|(j & pcj & c & Hj & Hpc & ?)]; [left; lia|].
      destruct (decide (j = i)) as [->|]; simplify_eq.
      * destruct (Hold c Hpc) as [?|Hc']; [left; lia|right].
        exists i, pc', c. rewrite list_lookup_insert_eq by done. done.
      * right. exists j, pcj, c. rewrite list_lookup_insert_ne by done. done.
    + destruct Hnew as [?|Hnew]; [lia|right]. exists i, pc', (gauge q').
      rewrite list_lookup_insert_eq by done. split_and!; [done|done|lia].
Qed.

(** Steps of the consumer and new calls only lower the gauge. *)
Lemma peak_lower hw q q' l :
  peak_inv hw q → q_sends q' = q_sends q ++ l → (∀ pc, pc ∈ l → pending_peak pc = None) →
  peak q' = peak q → gauge q' ≤ gauge q →
  peak_inv (Z.max hw (gauge q')) q'.
Proof.
  intros [Hg Hp Hpend Hseen Hr] Hs Hl Hpeak Hgauge. rewrite Z.max_l by lia.
  assert (∀ i pc, q_sends q' !! i = Some pc →
            q_sends q !! i = Some pc ∨ pending_peak pc = None) as Hlook.
  { intros i pc. rewrite Hs. intros [?|[_ ?]]%lookup_app_Some; [by left|].
    right. apply Hl. by eapply list_elem_of_lookup_2. }
  split; rewrite ?Hpeak; [lia|done| | |].
  - intros i pc c Hi Hc. destruct (Hlook _ _ Hi); [eauto|congruence].
  - intros i v c cur Hi. destruct (Hlook _ _ Hi) as [?|Hn]; [eauto|done].
  - destruct Hr as [?|(i & pc & c & Hi & ?)]; [by left|right].
    exists i, pc, c. rewrite Hs. split; [by apply lookup_app_l_Some|done].
Qed.

Lemma gauge_drop capacity q :
  queue_inv capacity q → 1 ≤ guards q < 2 ^ USIZE_BITS →
  gauge (on_telemetry guard_drop q) ≤ gauge q.
Proof.
  intros Hinv Hg. unfold gauge, on_telemetry. cbn.
  destruct (q_telemetry q) as [t|] eqn:Ht; [|done]. cbn.
  rewrite (qi_gauge _ _ Hinv t Ht), (wrap_small _ (guards q)) by (unfold u_range; lia).
  rewrite wrap_small by (unfold u_range; lia). lia.
Qed.

Lemma guards_nonneg capacity q : queue_inv capacity q → 0 ≤ guards q.
Proof.
  intros Hinv. pose proof (qi_dropping _ _ Hinv). unfold guards.
  pose proof (total_nonneg owns_guard (q_sends q) owns_guard_nonneg).
  pose proof (zlen_nonneg (mpsc_items (q_channel q))). pose proof (zlen_nonneg (q_held q)). lia.
Qed.

Lemma guards_pos capacity q :
  queue_inv capacity q →
  (0 < q_dropping q ∨ ∃ i pc, q_sends q !! i = Some pc ∧ owns_guard pc = 1) →
  1 ≤ guards q.
Proof.
  intros Hinv Hpos. pose proof (qi_dropping _ _ Hinv). unfold guards.
  pose proof (total_nonneg owns_guard (q_sends q) owns_guard_nonneg).
  pose proof (zlen_nonneg (mpsc_items (q_channel q))). pose proof (zlen_nonneg (q_held q)).
  destruct Hpos as [?|(i & pc & Hi & Hg)]; [lia|].
  pose proof (total_lookup owns_guard _ _ _ owns_guard_nonneg Hi). lia.
Qed.

(** A step of a call that neither offers a candidate nor raises the gauge. *)
Lemma peak_quiet hw q q' i pc pc' :
  peak_inv hw q → q_sends q !! i = Some pc → q_sends q' = q_sends q →
  pending_peak pc = None → pending_peak pc' = None →
  peak q' = peak q → gauge q' ≤ gauge q →
  peak_inv (Z.max hw (gauge q')) (set_send q' i pc').
Proof.
  intros Hpk Hi Hs Hn Hn' Hp Hg. pose proof (pk_gauge _ _ Hpk). pose proof (pk_peak _ _ Hpk).
  apply (peak_move hw q q' i pc pc'); auto; try lia.
  - intros c ?. congruence.
  - by intros v c cur ->.
  - intros c ?. congruence.
Qed.

Lemma send_advance_peak capacity hw q i pc pc' q' sp :
  queue_inv capacity q → guards q < 2 ^ USIZE_BITS → peak_inv hw q →
  q_sends q !! i = Some pc → send_advance q i pc sp = Some (pc', q') →
  peak_inv (Z.max hw (gauge q')) (set_send q' i pc').
Proof.
  intros Hinv Hlt Hpk Hi Hs. pose proof Hpk as [Hg Hp Hpend Hseen _].
  destruct pc as [v|v|v|v|v cand|v cand cur|v|r|r|r]; cbn [send_advance] in Hs;
    try (repeat case_match; simplify_eq; eapply peak_quiet; eauto; try done;
         unfold peak, gauge; cbn; by destruct (q_telemetry _)).
  - destruct (q_telemetry q) as [t|] eqn:Ht; injection Hs as <- <-.
    + apply (peak_move hw q _ i (SendPermit v) (SendCounted v (admitted t).1)); auto; try done;
        unfold peak, gauge in *; cbn; rewrite Ht in *; cbn in *; try lia.
      * intros c [= <-]. lia.
      * by right.
    + by eapply peak_quiet.
  - destruct (q_telemetry q) as [t|] eqn:Ht; [|done]. injection Hs as <- <-.
    apply (peak_move hw q _ i (SendCounted v cand) (SendPeak v cand (peak_admitted_items t)));
      auto; try done; unfold peak, gauge in *; cbn; rewrite Ht in *; cbn in *; try lia.
    + intros c [= <-]. pose proof (Hpend _ _ _ Hi eq_refl). lia.
    + intros ? ? ? [= <- <- <-]. lia.
  - destruct (q_telemetry q) as [t|] eqn:Ht; [|done].
    destruct (update_peak_turn _ _ _ _) as [p' next] eqn:Hu. injection Hs as <- <-.
    pose proof (Hseen _ _ _ _ Hi) as Hcur. pose proof (Hpend _ _ _ Hi eq_refl) as Hcand.
    assert (peak q = peak_admitted_items t) as Hpt by (unfold peak; by rewrite Ht).
    assert (gauge (on_telemetry (λ t, set_peak t p') q) = gauge q) as Hgq
      by (unfold gauge; cbn; by rewrite Ht).
    rewrite Hpt in *. destruct (update_peak_turn_spec _ _ _ _ _ _ Hcur Hu) as (? & ? & Hn & Hn').
    eapply (peak_move hw q _ i); eauto; rewrite ?Hgq; unfold peak; cbn; rewrite ?Ht; cbn;
      [lia|destruct next; naive_solver lia|destruct next; naive_solver| |lia].
    intros c [= <-]. destruct next; [by right|left; auto].
  - injection Hs as <- <-. eapply peak_quiet; eauto.
    + unfold peak. cbn. by destruct (q_telemetry q).
    + apply (gauge_drop capacity); [done|]. split; [|done].
      apply (guards_pos capacity); [done|]. right. eauto.
Qed.

Lemma step_peak capacity hw q a q' :
  queue_inv capacity q → guards q < 2 ^ USIZE_BITS → peak_inv hw q →
  step q a = Some q' → peak_inv (Z.max hw (gauge q')) q'.
Proof.
  intros Hinv Hlt Hpk Hs. destruct a as [v|i sp|i| |j| |]; cbn [step] in Hs.
  - simplify_eq. apply (peak_lower hw q _ [SendStart v]); try done.
    by intros pc ->%list_elem_of_singleton.
  - destruct (q_sends q !! i) as [pc|] eqn:Hi; simplify_eq/=.
    destruct (send_advance q i pc sp) as [[pc' q1]|] eqn:Ha; simplify_eq/=.
    change (gauge (set_send q1 i pc')) with (gauge q1).
    by eapply send_advance_peak.
  - destruct (q_sends q !! i) as [pc|] eqn:Hi; simplify_eq/=.
    destruct (send_cancel q i pc) as [[pc' q1]|] eqn:Ha; simplify_eq/=.
    change (gauge (set_send q1 i pc')) with (gauge q1).
    destruct pc; try done; injection Ha as <- <-; by eapply (peak_quiet hw q).
  - destruct (mpsc_try_recv _) as [[v c]|] eqn:Hr; simplify_eq/=.
    apply (peak_lower hw q _ []); try done; [by rewrite app_nil_r|set_solver].
  - destruct (q_held q !! j) as [v|] eqn:Hj; simplify_eq/=.
    apply (peak_lower hw q _ []); try done; [by rewrite app_nil_r|set_solver].
  - case_match; simplify_eq.
    apply (peak_lower hw q _ []); try done; [by rewrite app_nil_r|set_solver| |].
    + unfold peak. cbn. by destruct (q_telemetry q).
    + apply (gauge_drop capacity); [done|]. split; [|done].
      apply (guards_pos capacity); [done|]. left. lia.
  - simplify_eq. apply (peak_lower hw q _ []); try done; [by rewrite app_nil_r|set_solver].
Qed.

Lemma run_guards q acts q' : run q acts = Some q' → guards q' ≤ guards q + zlen acts.
Proof.
  revert q. induction acts as [|a acts IH]; intros q Hr; simplify_eq/=;
    [rewrite zlen_nil; lia|]. destruct (step q a) as [q1|] eqn:Hs; simplify_eq/=.
  apply IH in Hr. apply step_guards in Hs. rewrite zlen_cons. lia.
Qed.

Lemma step_telemetry q a q' :
  step q a = Some q' → q_telemetry q ≠ None → q_telemetry q' ≠ None.
Proof.
  intros Hs Ht. destruct a; cbn [step] in Hs; unfold mbind, option_bind, send_advance, send_cancel in Hs;
    repeat case_match; simplify_eq; cbn; rewrite ?fmap_None; congruence.
Qed.

Lemma run_telemetry q acts q' :
  run q acts = Some q' → q_telemetry q ≠ None → q_telemetry q' ≠ None.
Proof.
  revert q. induction acts as [|a acts IH]; intros q Hr Ht; simplify_eq/=; [done|].
  destruct (step q a) as [q1|] eqn:Hs; simplify_eq/=. eapply IH; eauto using step_telemetry.
Qed.

Lemma run_peak capacity hw q acts q' :
  queue_inv capacity q → peak_inv hw q → guards q + zlen acts < 2 ^ USIZE_BITS →
  run q acts = Some q' → peak_inv (high_water hw q acts) q'.
Proof.
  revert q hw. induction acts as [|a acts IH]; intros q hw Hinv Hpk Hlt Hr; simplify_eq/=; [done|].
  destruct (step q a) as [q1|] eqn:Hs; simplify_eq/=.
  rewrite zlen_cons in Hlt. pose proof (zlen_nonneg acts). pose proof (step_guards _ _ _ Hs).
  apply IH; [by eapply step_inv| |lia|done]. eapply step_peak; eauto. lia.
Qed.

(** ** The order of admission *)

(** Permits that come back to the semaphore in a step. *)
Definition releases q (a : action V) : nat :=
  match a with
  | ActDropItem _ => 1
  | ActAdvance i _ => match q_sends q !! i with Some (SendDropItem _) => 1 | _ => 0 end
  | ActCancel i => if decide (i ∈ granted (sem_permits (q_permits q))) then 1 else 0
  | _ => 0
  end.
Fixpoint released q (acts : list (action V)) : nat :=
  match acts with
  | [] => 0
  | a :: acts => releases q a + match step q a with Some q' => released q' acts | None => 0 end
  end.

(** The calls that wait for a permit, first come first. *)
Abbreviation waiters q := (waiting (sem_permits (q_permits q))).

(** What a step does to the permits. *)
Inductive permits_step q (a : action V) (p : Permits) : Prop :=
| ps_same : p = sem_permits (q_permits q) → releases q a = 0%nat → permits_step q a p
| ps_take : p = permits_take (sem_permits (q_permits q)) → releases q a = 0%nat → permits_step q a p
| ps_ready j : permits_poll (sem_permits (q_permits q)) j = (true, p) → releases q a = 0%nat →
    permits_step q a p
| ps_join j v : permits_poll (sem_permits (q_permits q)) j = (false, p) →
    q_sends q !! j = Some (SendWaiting v) → releases q a = 0%nat → permits_step q a p
| ps_release : p = permits_release (sem_permits (q_permits q)) → releases q a = 1%nat →
    permits_step q a p
| ps_cancel j : a = ActCancel j → p = permits_cancel (sem_permits (q_permits q)) j →
    permits_step q a p.

Lemma step_permits capacity q a q' :
  queue_inv capacity q → step q a = Some q' → permits_step q a (sem_permits (q_permits q')).
Proof.
  intros Hinv Hs.
  destruct a as [v|i sp|i| |j| |]; cbn [step] in Hs; try (simplify_eq; by apply ps_same).
  - destruct (q_sends q !! i) as [pc|] eqn:Hi; simplify_eq/=.
    destruct (send_advance q i pc sp) as [[pc' q1]|] eqn:Ha; simplify_eq/=.
    assert (releases q (ActAdvance i sp) = match pc with SendDropItem _ => 1 | _ => 0 end)%nat as Hrel
      by (cbn; by rewrite Hi).
    destruct pc; cbn [send_advance] in Ha; repeat case_match; simplify_eq; cbn; try by apply ps_same.
    + apply ps_take; [by eapply sem_try_acquire_Ok|done].
    + eapply ps_ready; [by eapply sem_poll_acquire_Some|done].
    + eapply ps_join; [by eapply sem_poll_acquire_Some|done|done].
    + eapply ps_ready; [by eapply sem_poll_acquire_Some|done].
    + apply ps_release; [apply sem_release_permits|done].
  - destruct (q_sends q !! i) as [pc|] eqn:Hi; simplify_eq/=.
    destruct (send_cancel q i pc) as [[pc' q1]|] eqn:Ha; simplify_eq/=.
    destruct pc; try done; injection Ha as <- <-; cbn.
    1,2: by eapply ps_cancel; [|apply sem_cancel_acquire_permits].
    apply ps_same; [done|]. cbn. apply decide_False. intros Hg.
    destruct (proj1 (pi_queued _ _ (qi_queue _ _ Hinv) i)) as [w Hw]; [set_solver|]. congruence.
  - destruct (mpsc_try_recv _) as [[v c]|]; simplify_eq/=. by apply ps_same.
  - destruct (q_held q !! j); simplify_eq/=. apply ps_release; [apply sem_release_permits|done].
  - case_match; simplify_eq. by apply ps_same.
Qed.

(** A call keeps its place, and moves up with every permit that comes back. *)
Lemma step_position capacity q a q' i n :
  queue_inv capacity q → step q a = Some q' → a ≠ ActCancel i → waiters q !! n = Some i →
  (∃ m, (m + releases q a ≤ n)%nat ∧ waiters q' !! m = Some i) ∨ i ∉ waiters q'.
Proof.
  intros Hinv Hs Ha Hn. pose proof (qi_queue _ _ Hinv) as Hq.
  pose proof (pi_nodup _ _ (qi_queue _ _ (step_inv _ _ _ _ Hinv Hs))) as Hnd.
  apply NoDup_app in Hnd as (_ & Hdis & _).
  assert (∀ p, waiting p = waiters q → sem_permits (q_permits q') = permits_release p →
    (∃ m, (m + 1 ≤ n)%nat ∧ waiters q' !! m = Some i) ∨ i ∉ waiters q') as Hrelease.
  { intros p Hp Hq'. rewrite <-Hp in Hn. apply release_position in Hn. rewrite <-Hq' in Hn.
    destruct n as [|n]; [right; by apply Hdis|left]. exists n. split; [lia|done]. }
  destruct (step_permits _ _ _ _ Hinv Hs) as [Hp Hr|Hp Hr|j Hp Hr|j v Hp Hj Hr|Hp Hr|j -> Hp].
  - left. exists n. rewrite Hr, Hp. split; [lia|done].
  - left. exists n. rewrite Hr, Hp. split; [lia|done].
  - left. exists n. rewrite Hr. split; [lia|]. by rewrite (ready_position _ _ _ Hp).
  - left. exists n. rewrite Hr. split; [lia|].
    destruct (permits_poll_pending _ _ _ _ Hq Hp) as (_ & _ & [(-> & _)| ->] & _); [done|].
    by apply lookup_app_l_Some.
  - rewrite Hr. by eapply Hrelease.
  - cbn [releases]. unfold permits_cancel in Hp. destruct (decide (j ∈ _)) as [Hg|Hg].
    + by eapply Hrelease; [|exact Hp].
    + left. destruct (without_position i j n (waiters q)) as (m & ? & Hm); [naive_solver|done|].
      exists m. split; [lia|]. by rewrite Hp.
Qed.

(** Only a call that has not been polled enters the queue. *)
Lemma step_joins capacity q a q' i :
  queue_inv capacity q → step q a = Some q' → i ∈ waiters q' →
  i ∈ waiters q ∨ ∃ v, q_sends q !! i = Some (SendWaiting v).
Proof.
  intros Hinv Hs Hi. pose proof (qi_queue _ _ Hinv) as Hq.
  assert (∀ p, waiting p = waiters q → i ∈ waiting (permits_release p) → i ∈ waiters q) as Hrelease.
  { intros p <-. unfold permits_release. destruct (waiting p); set_solver. }
  destruct (step_permits _ _ _ _ Hinv Hs) as [Hp _|Hp _|j Hp _|j v Hp Hj _|Hp _|j -> Hp];
    try (left; by rewrite Hp in Hi).
  - left. by rewrite <-(ready_position _ _ _ Hp).
  - destruct (permits_poll_pending _ _ _ _ Hq Hp) as (_ & _ & [(Hw & _)|Hw] & _); rewrite Hw in Hi;
      [by left|]. apply elem_of_app in Hi as [?| ->%list_elem_of_singleton]; eauto.
  - left. rewrite Hp in Hi. by eapply Hrelease.
  - left. rewrite Hp in Hi. unfold permits_cancel in Hi. case_decide; [by eapply Hrelease; [|exact Hi]|].
    by apply without_elem in Hi as [? _].
Qed.

(** A call that has been polled is never again before its first poll. *)
Definition polled (pc : send_pc V) : Prop :=
  match pc with SendStart _ | SendWaiting _ => False | _ => True end.

Lemma step_polled q a q' i pc :
  step q a = Some q' → q_sends q !! i = Some pc → polled pc →
  ∃ pc', q_sends q' !! i = Some pc' ∧ polled pc'.
Proof.
  intros Hs Hi Hpc.
  assert (∀ l j pc', l = q_sends q → (j = i → polled pc') →
    ∃ pc1, <[j := pc']> l !! i = Some pc1 ∧ polled pc1) as Hins.
  { intros l j pc' -> Hp. destruct (decide (j = i)) as [->|Hj].
    - exists pc'. split; [|auto]. apply list_lookup_insert_eq. by eapply lookup_lt_Some.
    - exists pc. by rewrite list_lookup_insert_ne. }
  destruct a as [v|j sp|j| |j| |]; cbn [step] in Hs.
  - simplify_eq. exists pc. split; [by apply lookup_app_l_Some|done].
  - destruct (q_sends q !! j) as [pcj|] eqn:Hj; simplify_eq/=.
    destruct (send_advance q j pcj sp) as [[pc' q1]|] eqn:Ha; simplify_eq/=.
    apply Hins; [|intros ->; simplify_eq];
      destruct pcj; cbn [send_advance] in Ha; repeat case_match; simplify_eq; done.
  - destruct (q_sends q !! j) as [pcj|] eqn:Hj; simplify_eq/=.
    destruct (send_cancel q j pcj) as [[pc' q1]|] eqn:Ha; simplify_eq/=.
    apply Hins; [|intros ->; simplify_eq]; destruct pcj; by simplify_eq/=.
  - destruct (mpsc_try_recv _) as [[v c]|]; simplify_eq/=. eauto.
  - destruct (q_held q !! j); simplify_eq/=. eauto.
  - case_match; simplify_eq. cbn. eauto.
  - simplify_eq. cbn. eauto.
Qed.

(** Once out of the queue, a call is out for good. *)
Lemma run_served capacity q acts q' i pc :
  queue_inv capacity q → run q acts = Some q' → q_sends q !! i = Some pc → polled pc →
  i ∉ waiters q → i ∉ waiters q'.
Proof.
  revert q pc. induction acts as [|a acts IH]; intros q pc Hinv Hr Hi Hpc Hout; simplify_eq/=; [done|].
  destruct (step q a) as [q1|] eqn:Hs; simplify_eq/=.
  destruct (step_polled _ _ _ _ _ Hs Hi Hpc) as (pc' & Hi' & Hpc').
  eapply IH; [by eapply step_inv|done..|]. intros Hin.
  destruct (step_joins _ _ _ _ _ Hinv Hs Hin) as [?|[v ?]]; [done|]. by simplify_eq.
Qed.

Lemma run_position capacity q acts q' i n :
  queue_inv capacity q → run q acts = Some q' → ActCancel i ∉ acts → waiters q !! n = Some i →
  (n < released q acts)%nat → i ∉ waiters q'.
Proof.
  revert q n. induction acts as [|a acts IH]; intros q n Hinv Hr Hcan Hn Hlt; cbn [released run] in *; [lia|].
  destruct (step q a) as [q1|] eqn:Hs; simplify_eq/=.
  apply not_elem_of_cons in Hcan as [Ha Hcan]. pose proof (step_inv _ _ _ _ Hinv Hs) as Hinv1.
  destruct (step_position _ _ _ _ i n Hinv Hs) as [(m & Hm & Hm')|Hout]; [done|done| |].
  - eapply IH; eauto. lia.
  - assert (is_queued (q_sends q) i) as [v Hi].
    { apply (pi_queued _ _ (qi_queue _ _ Hinv)). apply elem_of_app. right.
      by eapply list_elem_of_lookup_2. }
    destruct (step_polled _ _ _ _ _ Hs Hi I) as (pc' & Hi' & Hpc'). by eapply run_served.
Qed.
End invariant.

(** ** Theorems *)

Section theorems.
Context {Sem : Type} `{SemaphoreLaws Sem} {C : Type → Type} `{MpscLaws C} {V : Type}.

(** C26. Queued, scheduled and in-flight items share one hard admission bound:
    whatever the interleaving of concurrent [send] calls, cancellations, the
    consumer and the closing of the receiver, every permit is free, granted to a
    suspended call or owned by exactly one item, so that at most [capacity] items
    are in the pipeline and none leaks a permit; a call that has its permit never
    waits for room in the channel; a suspended call either has been granted a
    permit, and then goes on when it is polled, or stands in the queue while no
    permit is free; and the queue is first come, first served: whatever happens
    next, a call with [n] others before it has been granted its permit once
    [n + 1] permits have come back, unless it is itself cancelled. *)
Theorem bounded_queue_admission capacity tel acts (q : queue Sem C V) :
  0 < capacity → (∀ t, tel = Some t → admitted_items t = 0) →
  run (bounded_queue_channel_inner capacity tel) acts = Some q →
  let permits := sem_permits (q_permits q) in
  free permits + zlen (granted permits) + occupancy q = capacity ∧ 0 ≤ free permits ∧
  0 ≤ occupancy q ≤ capacity ∧
  (∀ i v, q_sends q !! i = Some (SendReady v) → mpsc_open (q_channel q) = true →
     ∃ c, mpsc_try_send (q_channel q) v = Ok c) ∧
  (∀ i v, q_sends q !! i = Some (SendQueued v) →
     (i ∈ granted permits ∧
      ∃ q', step q (ActAdvance i false) = Some q' ∧ q_sends q' !! i = Some (SendPermit v)) ∨
     (i ∈ waiting permits ∧ free permits = 0)) ∧
  (∀ i n acts' q', waiting permits !! n = Some i → run q acts' = Some q' →
     ActCancel i ∉ acts' → (n < released q acts')%nat →
     i ∉ waiting (sem_permits (q_permits q'))).
Proof.
  intros Hc Htel Hr permits.
  assert (queue_inv capacity q) as Hinv by (eapply run_inv; [by apply queue_inv_new|done]).
  pose proof (qi_permits _ _ Hinv) as Hp. pose proof (qi_queue _ _ Hinv) as Hq.
  pose proof (pi_free _ _ Hq) as Hf. fold permits in Hp, Hq, Hf. unfold unowned in Hp.
  pose proof (zlen_nonneg (granted permits)).
  pose proof (total_nonneg owns_permit (q_sends q) owns_permit_nonneg).
  pose proof (zlen_nonneg (mpsc_items (q_channel q))). pose proof (zlen_nonneg (q_held q)).
  assert (0 ≤ occupancy q) by (unfold occupancy; lia).
  split_and!; [lia|lia|lia|lia| | |].
  - intros i v Hi Hopen.
    pose proof (total_lookup owns_permit _ _ _ owns_permit_nonneg Hi) as Hown. cbn in Hown.
    destruct (mpsc_try_send (q_channel q) v) as [c|[]] eqn:Hs; [by exists c| |].
    + apply mpsc_try_send_Full in Hs as [_ Hfull]. rewrite (qi_capacity _ _ Hinv) in Hfull.
      unfold occupancy in *. lia.
    + apply mpsc_try_send_Closed in Hs. congruence.
  - intros i v Hi. assert (i ∈ granted permits ++ waiting permits) as [Hg|Hw]%elem_of_app
      by (apply (pi_queued _ _ Hq); by exists v).
    + left. split; [done|]. cbn [step]. rewrite Hi. cbn.
      destruct (sem_poll_acquire (q_permits q) i) as [[ready s]|] eqn:Ha.
      * apply sem_poll_acquire_Some in Ha as [Ha _]. unfold permits_poll in Ha.
        rewrite decide_True in Ha by done. injection Ha as <- _.
        eexists. split; [done|]. cbn. apply list_lookup_insert_eq. by eapply lookup_lt_Some.
      * apply sem_poll_acquire_None in Ha. by rewrite (qi_sem_open _ _ Hinv) in Ha.
    + right. split; [done|]. apply (pi_fair _ _ Hq). by intros E; rewrite E in Hw; apply not_elem_of_nil in Hw.
  - intros i n acts' q' Hn Hr' Hcan Hlt. by eapply (run_position capacity q acts').
Qed.

(** The occupancy telemetry is exact under concurrency: the gauge counts
    the occupancy guards not yet dropped, and once no call is inside
    [update_peak] the recorded peak is the largest value the gauge ever had,
    although the peak is maintained by a weak compare-and-exchange loop that
    concurrent calls may overtake and that may fail spuriously. *)
Theorem queue_telemetry_exact capacity acts (q : queue Sem C V) :
  0 < capacity → zlen acts < 2 ^ USIZE_BITS →
  run (bounded_queue_channel_inner capacity (Some QueueTelemetry_default)) acts = Some q →
  gauge q = guards q ∧
  peak q ≤ high_water 0 (bounded_queue_channel_inner (Sem := Sem) (C := C) capacity
                           (Some QueueTelemetry_default)) acts ∧
  ((∀ i pc, q_sends q !! i = Some pc → pending_peak pc = None) →
   peak q = high_water 0 (bounded_queue_channel_inner (Sem := Sem) (C := C) capacity
                            (Some QueueTelemetry_default)) acts).
Proof.
  intros Hc Hlen Hr. set (q0 := bounded_queue_channel_inner _ _) in *.
  assert (queue_inv capacity q0) as Hinv0.
  { apply queue_inv_new; [done|]. by intros t [= <-]. }
  assert (guards q0 = 0) as Hg0.
  { unfold guards, q0. cbn. rewrite mpsc_channel_items. done. }
  assert (peak_inv (high_water 0 q0 acts) q) as [_ Hp _ _ Hreach].
  { eapply run_peak; eauto; [|lia]. split; cbn; try done; lia. }
  assert (queue_inv capacity q) as Hinv by by eapply run_inv.
  split_and!; [|done|].
  - destruct (q_telemetry q) as [t|] eqn:Ht.
    + unfold gauge. rewrite Ht. cbn. rewrite (qi_gauge _ _ Hinv t Ht). apply wrap_small.
      split; [by eapply guards_nonneg|]. pose proof (run_guards q0 acts q Hr). lia.
    + by pose proof (run_telemetry q0 acts q Hr ltac:(done)).
  - intros Hquiet. destruct Hreach as [?|(i & pc & c & Hi & Hpc & _)]; [lia|].
    by rewrite (Hquiet i pc Hi) in Hpc.
Qed.
End theorems.

(** ** Concrete runs *)

Abbreviation test_queue capacity tel :=
  (bounded_queue_channel_inner (Sem := Permits) (H := fifo_semaphore) (C := list_channel)
     (H0 := list_mpsc) (V := Z) capacity tel).
Abbreviation test_run capacity tel acts :=
  (run (Sem := Permits) (H := fifo_semaphore) (C := list_channel) (H0 := list_mpsc) (V := Z)
     (test_queue capacity tel) acts).

(** A [send] that is not disturbed. *)
Definition send_undisturbed (i : nat) (v : Z) : list (action Z) :=
  ActSend v :: replicate 5 (ActAdvance i false).

(** Two calls compete for one permit; the second waits, is admitted when the
    consumer drops the first item, and loses a race in [update_peak]. *)
Definition contended : list (action Z) :=
  send_undisturbed 0 7
  ++ [ActSend 8; ActAdvance 1 false; ActAdvance 1 false; ActRecv; ActDropItem 0]
  ++ replicate 5 (ActAdvance 1 true).

(** An item's permit is dropped before its occupancy guard, so the gauge
    and its peak can exceed the capacity although the occupancy never does:
    with capacity one, a second item is admitted and counted while the guard
    of the first is still alive, and the recorded peak stays at two. *)
Theorem gauge_exceeds_capacity :
  ∃ acts q, test_run 1 (Some QueueTelemetry_default) acts = Some q ∧
    occupancy (H0 := list_mpsc) q = 1 ∧ gauge q = 2 ∧ peak q = 2.
Proof.
  exists (send_undisturbed 0 7 ++ [ActRecv; ActDropItem 0] ++ send_undisturbed 1 8).
  exists (MkQueue (MkPermits 0 [] []) (MkListChannel [8] 1 true) (Some (MkQueueTelemetry 0 2 2))
            [SendDone Sent; SendDone Sent] [] 1).
  split_and!; by vm_compute.
Qed.

(** Two calls queue up behind an item. *)
Definition crowded : list (action Z) :=
  send_undisturbed 0 7 ++ [ActSend 8; ActSend 9; ActAdvance 2 false; ActAdvance 1 false;
                           ActAdvance 2 false; ActAdvance 1 false].
Definition crowded_queue : queue Permits list_channel Z :=
  default (test_queue 1 (Some QueueTelemetry_default))
    (test_run 1 (Some QueueTelemetry_default) crowded).

Lemma bounded_queue_admission_witness :
  waiting (q_permits crowded_queue) = [2%nat; 1%nat] ∧
  occupancy (H0 := list_mpsc) crowded_queue ≤ 1 ∧
  ∃ q', run (H := fifo_semaphore) (H0 := list_mpsc) crowded_queue [ActRecv; ActDropItem 0] = Some q' ∧
    2%nat ∉ waiting (q_permits q').
Proof.
  assert (test_run 1 (Some QueueTelemetry_default) crowded = Some crowded_queue) as Hr by by vm_compute.
  destruct (bounded_queue_admission (H := fifo_semaphore) (H0 := fifo_semaphore_laws)
              (H1 := list_mpsc) (H2 := list_mpsc_laws) 1 (Some QueueTelemetry_default)
              crowded crowded_queue) as (_ & _ & [_ Ho] & _ & _ & Hfifo).
  - lia.
  - by intros t [= <-].
  - exact Hr.
  - split; [by vm_compute|]. split; [exact Ho|].
    destruct (run (H := fifo_semaphore) (H0 := list_mpsc) crowded_queue [ActRecv; ActDropItem 0])
      as [q'|] eqn:Hq'; [|by vm_compute in Hq'].
    exists q'. split; [done|]. apply (Hfifo 2%nat 0%nat [ActRecv; ActDropItem 0] q').
    + by vm_compute.
    + exact Hq'.
    + set_solver.
    + by apply Nat.ltb_lt; vm_compute.
Defined.

Lemma queue_telemetry_exact_witness :
  ∃ q, test_run 1 (Some QueueTelemetry_default) contended = Some q ∧
    gauge q = guards (H0 := list_mpsc) q.
Proof.
  set (q := MkQueue (MkPermits 0 [] []) (MkListChannel [] 1 true) (Some (MkQueueTelemetry 1 2 1))
              [SendDone Sent; SendPeak 8 2 1] [] 1).
  assert (test_run 1 (Some QueueTelemetry_default) contended = Some q) as Hr by by vm_compute.
  exists q. split; [exact Hr|].
  eapply (queue_telemetry_exact (H := fifo_semaphore) (H0 := fifo_semaphore_laws)
            (H1 := list_mpsc) (H2 := list_mpsc_laws) 1 contended).
  - lia.
  - by vm_compute.
  - exact Hr.
Defined.
