(* ===== verification/Telemetry.v ===== *)
(** * Telemetry: the process-wide counters of the multiplexed transport

    [crates/common/src/multiplex_telemetry.rs].  All sessions of a process
    share one set of atomic counters; gauges are maintained by guards whose
    [Drop] undoes what their creation did.  [snapshot] loads the counters one
    after the other, so it is a function of the states at which the loads
    happen. *)

From S2P Require Import Prelude Channels BoundedQueue.

Record MultiplexTelemetryInner : Type := MkTelemetry {
  active_streams : Z;
  peak_active_streams : Z;
  sent_data_frames : Z;
  sent_data_bytes : Z;
  received_data_frames : Z;
  received_data_bytes : Z;
  data_pipeline_capacity_frames : Z;
  flow_control_resets : Z;
  control_burst_yields : Z
}.

Record MultiplexTelemetry : Type := MkMultiplexTelemetry {
  inner : MultiplexTelemetryInner;
  data_queue : BoundedQueueTelemetry
}.

Record MultiplexTelemetrySnapshot : Type := MkTelemetrySnapshot {
  ts_active_streams : Z;
  ts_peak_active_streams : Z;
  ts_sent_data_frames : Z;
  ts_sent_data_bytes : Z;
  ts_received_data_frames : Z;
  ts_received_data_bytes : Z;
  ts_data_admission_waits : Z;
  ts_data_pipeline_frames : Z;
  ts_data_pipeline_capacity_frames : Z;
  ts_peak_data_pipeline_frames : Z;
  ts_flow_control_resets : Z;
  ts_control_burst_yields : Z
}.

Definition Telemetry_default : MultiplexTelemetry :=
  MkMultiplexTelemetry (MkTelemetry 0 0 0 0 0 0 0 0 0) QueueTelemetry_default.

(** [u64::try_from(value).unwrap_or(u64::MAX)]. *)
Definition to_u64 (value : Z) : Z := default (umax 64) (u_try_from 64 value).

(** [fetch_add] and [fetch_sub] wrap around. *)
Definition fetch_add (x d : Z) : Z := wrap 64 (x + d).

(** The whole of [snapshot] when the capacity is loaded from [at_capacity], the
    queue's counters from [at_queue] and the remaining ones from [at_rest]. *)
Definition snapshot (at_capacity at_queue at_rest : MultiplexTelemetry)
    : MultiplexTelemetrySnapshot :=
  let queue := data_queue at_queue in
  let rest := inner at_rest in
  MkTelemetrySnapshot (active_streams rest) (peak_active_streams rest)
    (sent_data_frames rest) (sent_data_bytes rest)
    (received_data_frames rest) (received_data_bytes rest)
    (to_u64 (admission_waits queue)) (to_u64 (admitted_items queue))
    (data_pipeline_capacity_frames (inner at_capacity))
    (to_u64 (peak_admitted_items queue))
    (flow_control_resets rest) (control_burst_yields rest).

Definition on_inner (f : MultiplexTelemetryInner → MultiplexTelemetryInner)
    (t : MultiplexTelemetry) : MultiplexTelemetry :=
  MkMultiplexTelemetry (f (inner t)) (data_queue t).

Definition add_capacity (d : Z) (i : MultiplexTelemetryInner) : MultiplexTelemetryInner :=
  MkTelemetry (active_streams i) (peak_active_streams i) (sent_data_frames i)
    (sent_data_bytes i) (received_data_frames i) (received_data_bytes i)
    (fetch_add (data_pipeline_capacity_frames i) d)
    (flow_control_resets i) (control_burst_yields i).

(** [session_capacity] also returns a guard that remembers [to_u64 frames];
    [session_capacity_drop] is its [Drop]. *)
Definition session_capacity (frames : Z) (t : MultiplexTelemetry) : MultiplexTelemetry :=
  on_inner (add_capacity (to_u64 frames)) t.
Definition session_capacity_drop (guard_frames : Z) (t : MultiplexTelemetry) : MultiplexTelemetry :=
  on_inner (add_capacity (- guard_frames)) t.

(** [stream_opened], with [update_peak] run to its end; [stream_drop] is the
    [Drop] of the guard it returns. *)
Definition stream_opened (t : MultiplexTelemetry) : MultiplexTelemetry :=
  on_inner (λ i,
    let active := fetch_add (active_streams i) 1 in
    MkTelemetry active (Z.max (peak_active_streams i) active) (sent_data_frames i)
      (sent_data_bytes i) (received_data_frames i) (received_data_bytes i)
      (data_pipeline_capacity_frames i) (flow_control_resets i) (control_burst_yields i)) t.
Definition stream_drop (t : MultiplexTelemetry) : MultiplexTelemetry :=
  on_inner (λ i,
    MkTelemetry (fetch_add (active_streams i) (-1)) (peak_active_streams i) (sent_data_frames i)
      (sent_data_bytes i) (received_data_frames i) (received_data_bytes i)
      (data_pipeline_capacity_frames i) (flow_control_resets i) (control_burst_yields i)) t.

Definition data_sent (bytes : Z) (t : MultiplexTelemetry) : MultiplexTelemetry :=
  on_inner (λ i,
    MkTelemetry (active_streams i) (peak_active_streams i) (fetch_add (sent_data_frames i) 1)
      (fetch_add (sent_data_bytes i) (to_u64 bytes)) (received_data_frames i)
      (received_data_bytes i) (data_pipeline_capacity_frames i) (flow_control_resets i)
      (control_burst_yields i)) t.
Definition data_received (bytes : Z) (t : MultiplexTelemetry) : MultiplexTelemetry :=
  on_inner (λ i,
    MkTelemetry (active_streams i) (peak_active_streams i) (sent_data_frames i)
      (sent_data_bytes i) (fetch_add (received_data_frames i) 1)
      (fetch_add (received_data_bytes i) (to_u64 bytes)) (data_pipeline_capacity_frames i)
      (flow_control_resets i) (control_burst_yields i)) t.
Definition flow_control_reset (t : MultiplexTelemetry) : MultiplexTelemetry :=
  on_inner (λ i,
    MkTelemetry (active_streams i) (peak_active_streams i) (sent_data_frames i)
      (sent_data_bytes i) (received_data_frames i) (received_data_bytes i)
      (data_pipeline_capacity_frames i) (fetch_add (flow_control_resets i) 1)
      (control_burst_yields i)) t.
Definition control_burst_yielded (t : MultiplexTelemetry) : MultiplexTelemetry :=
  on_inner (λ i,
    MkTelemetry (active_streams i) (peak_active_streams i) (sent_data_frames i)
      (sent_data_bytes i) (received_data_frames i) (received_data_bytes i)
      (data_pipeline_capacity_frames i) (flow_control_resets i)
      (fetch_add (control_burst_yields i) 1)) t.

(** ** Runs: the guards alive and the counters *)

Inductive tel_op : Type :=
| OpSession (frames : Z)
| OpSessionDrop (i : nat)
| OpStream
| OpStreamDrop
| OpSent (bytes : Z)
| OpReceived (bytes : Z)
| OpReset
| OpYield.

Record tel_state : Type := MkTelState {
  tel : MultiplexTelemetry;
  session_guards : list Z;     (** the [frames] of every live capacity guard *)
  stream_guards : nat
}.

Definition set_tel (s : tel_state) (t : MultiplexTelemetry) : tel_state :=
  MkTelState t (session_guards s) (stream_guards s).

Definition tel_step (s : tel_state) (op : tel_op) : option tel_state :=
  match op with
  | OpSession frames =>
      Some (MkTelState (session_capacity frames (tel s)) (session_guards s ++ [to_u64 frames])
              (stream_guards s))
  | OpSessionDrop i =>
      frames ← session_guards s !! i;
      Some (MkTelState (session_capacity_drop frames (tel s)) (delete i (session_guards s))
              (stream_guards s))
  | OpStream => Some (MkTelState (stream_opened (tel s)) (session_guards s) (S (stream_guards s)))
  | OpStreamDrop =>
      match stream_guards s with
      | O => None
      | S n => Some (MkTelState (stream_drop (tel s)) (session_guards s) n)
      end
  | OpSent n => Some (set_tel s (data_sent n (tel s)))
  | OpReceived n => Some (set_tel s (data_received n (tel s)))
  | OpReset => Some (set_tel s (flow_control_reset (tel s)))
  | OpYield => Some (set_tel s (control_burst_yielded (tel s)))
  end.

Fixpoint tel_run (s : tel_state) (ops : list tel_op) : option tel_state :=
  match ops with [] => Some s | op :: ops => s' ← tel_step s op; tel_run s' ops end.

Fixpoint zsum (l : list Z) : Z := match l with [] => 0 | x :: l => x + zsum l end.

Lemma zsum_app l k : zsum (l ++ k) = zsum l + zsum k.
Proof. induction l; simpl; lia. Qed.

Lemma zsum_delete l i x : l !! i = Some x → zsum (delete i l) = zsum l - x.
Proof.
  revert i. induction l as [|y l IH]; intros [|i] Hi; simplify_eq/=; [lia|].
  cbn. rewrite (IH _ Hi). lia.
Qed.

(** What each operation contributes to the monotone counters. *)
Record tally : Type := MkTally {
  n_sent : Z; b_sent : Z; n_received : Z; b_received : Z; n_resets : Z; n_yields : Z
}.
Fixpoint tally_of (ops : list tel_op) : tally :=
  match ops with
  | [] => MkTally 0 0 0 0 0 0
  | op :: ops =>
      let '(MkTally a b c d e f) := tally_of ops in
      match op with
      | OpSent n => MkTally (a + 1) (b + to_u64 n) c d e f
      | OpReceived n => MkTally a b (c + 1) (d + to_u64 n) e f
      | OpReset => MkTally a b c d (e + 1) f
      | OpYield => MkTally a b c d e (f + 1)
      | _ => MkTally a b c d e f
      end
  end.

Definition counters (i : MultiplexTelemetryInner) : list Z :=
  [sent_data_frames i; sent_data_bytes i; received_data_frames i; received_data_bytes i;
   flow_control_resets i; control_burst_yields i].
Definition tally_counters (n : tally) : list Z :=
  [n_sent n; b_sent n; n_received n; b_received n; n_resets n; n_yields n].

Lemma fetch_add_range x d : u_range 64 (fetch_add x d).
Proof. apply Z.mod_pos_bound. lia. Qed.

Record tel_inv (s : tel_state) : Prop := {
  ti_capacity : data_pipeline_capacity_frames (inner (tel s)) = wrap 64 (zsum (session_guards s));
  ti_active : active_streams (inner (tel s)) = wrap 64 (Z.of_nat (stream_guards s));
  ti_range : Forall (u_range 64) (counters (inner (tel s)))
}.

Lemma tel_step_inv s op s' : tel_inv s → tel_step s op = Some s' → tel_inv s'.
Proof.
  intros [Hc Ha Hr] Hs.
  assert (Forall (u_range 64) (counters (inner (tel s')))) as Hr'.
  { unfold counters in *. rewrite !Forall_cons in *.
    destruct op; cbn in Hs; unfold mbind, option_bind in Hs; repeat case_match; simplify_eq;
      cbn; naive_solver (apply fetch_add_range). }
  destruct op; cbn in Hs; simplify_eq; try by split.
  - split; cbn; [|done|done]. unfold fetch_add. rewrite Hc, wrap_wrap_add, zsum_app. cbn.
    f_equal. lia.
  - destruct (session_guards s !! i) as [frames|] eqn:Hi; simplify_eq/=.
    split; cbn; [|done|done]. unfold fetch_add.
    by rewrite Hc, wrap_wrap_add, (zsum_delete _ _ _ Hi).
  - split; cbn -[Z.of_nat]; [done| |done]. unfold fetch_add. rewrite Ha, wrap_wrap_add. f_equal. lia.
  - destruct (stream_guards s) as [|n] eqn:Hn; simplify_eq. split; cbn; [done| |done].
    unfold fetch_add. rewrite Ha, wrap_wrap_add. f_equal. lia.
Qed.

Lemma tel_inv_default : tel_inv (MkTelState Telemetry_default [] 0).
Proof. split; [done|done|]. repeat constructor; by vm_compute. Qed.

(** The counters after a run from [i]. *)
Definition counted (i i' : MultiplexTelemetryInner) (n : tally) : Prop :=
  counters i' = wrap 64 <$> zip_with Z.add (counters i) (tally_counters n).

Lemma counted_refl i : Forall (u_range 64) (counters i) → counted i i (MkTally 0 0 0 0 0 0).
Proof.
  unfold counted, counters. rewrite !Forall_cons. intros (? & ? & ? & ? & ? & ? & _). cbn.
  by rewrite !Z.add_0_r, !wrap_small.
Qed.

Lemma tel_run_spec s ops s' :
  tel_inv s → tel_run s ops = Some s' →
  tel_inv s' ∧ counted (inner (tel s)) (inner (tel s')) (tally_of ops).
Proof.
  revert s. induction ops as [|op ops IH]; intros s Hinv Hr; simplify_eq/=.
  { split; [done|apply counted_refl, Hinv]. }
  destruct (tel_step s op) as [s1|] eqn:Hs; simplify_eq/=.
  pose proof (tel_step_inv _ _ _ Hinv Hs) as Hinv1.
  destruct (IH s1 Hinv1 Hr) as (? & Hcnt).
  destruct (tally_of ops) as [a b c d e f]; unfold counted in *; cbn in *.
  split; [done|]. rewrite Hcnt.
  destruct op; cbn in Hs; unfold mbind, option_bind in Hs; repeat case_match; simplify_eq;
    cbn in *; unfold fetch_add in *; rewrite ?wrap_wrap_add;
    repeat (f_equal; try lia).
Qed.

(** The largest number of live streams, from [n] on. *)
Fixpoint streams_high (n : Z) (ops : list tel_op) : Z :=
  match ops with
  | [] => n
  | OpStream :: ops => Z.max n (streams_high (n + 1) ops)
  | OpStreamDrop :: ops => Z.max n (streams_high (n - 1) ops)
  | _ :: ops => streams_high n ops
  end.

Lemma streams_high_ge n ops : n ≤ streams_high n ops.
Proof. induction ops as [|[] ops IH]; cbn; lia. Qed.

Lemma tel_run_peak s ops s' :
  tel_inv s → Z.of_nat (stream_guards s) ≤ peak_active_streams (inner (tel s)) →
  Z.of_nat (stream_guards s) + zlen ops < 2 ^ 64 → tel_run s ops = Some s' →
  peak_active_streams (inner (tel s')) =
    Z.max (peak_active_streams (inner (tel s))) (streams_high (Z.of_nat (stream_guards s)) ops).
Proof.
  revert s. induction ops as [|op ops IH]; intros s Hinv Hge Hlt Hr; [simplify_eq/=; lia|].
  cbn [tel_run] in Hr. destruct (tel_step s op) as [s1|] eqn:Hs; simplify_eq/=.
  pose proof (tel_step_inv _ _ _ Hinv Hs) as Hinv1. rewrite zlen_cons in Hlt.
  pose proof (zlen_nonneg ops) as Hn. pose proof (ti_active _ Hinv) as Ha.
  specialize (IH s1 Hinv1).
  destruct op; cbn in Hs; simplify_eq; cbn -[Z.of_nat] in *;
    try (apply IH; [done|lia|done]).
  - destruct (session_guards s !! i); simplify_eq/=. apply IH; [done|lia|done].
  - unfold fetch_add in *. rewrite Ha, wrap_wrap_add, wrap_small in IH by (split; lia).
    pose proof (streams_high_ge (Z.of_nat (stream_guards s) + 1) ops).
    replace (Z.of_nat (S (stream_guards s))) with (Z.of_nat (stream_guards s) + 1) in IH by lia.
    rewrite IH; [lia|lia|lia|done].
  - destruct (stream_guards s) as [|n] eqn:Hg; simplify_eq. cbn -[Z.of_nat] in *.
    replace (Z.of_nat (S n) - 1) with (Z.of_nat n) by lia. rewrite IH; [lia|lia|lia|done].
Qed.

(** ** Theorems *)

(** The shared counters are exact whatever the interleaving of sessions
    and streams: the capacity gauge is the sum of the capacities of the live
    sessions and the stream gauge the number of live streams, because every
    guard removes exactly what it added; the six event counters count exactly
    the recorded events and bytes, all of them modulo the 64-bit wrap-around of
    the atomics; and the peak is the largest number of streams that were ever
    alive together, on runs too short to wrap. *)
Theorem telemetry_exact ops s' :
  tel_run (MkTelState Telemetry_default [] 0) ops = Some s' →
  data_pipeline_capacity_frames (inner (tel s')) = wrap 64 (zsum (session_guards s')) ∧
  active_streams (inner (tel s')) = wrap 64 (Z.of_nat (stream_guards s')) ∧
  counters (inner (tel s')) = wrap 64 <$> tally_counters (tally_of ops) ∧
  (zlen ops < 2 ^ 64 → peak_active_streams (inner (tel s')) = streams_high 0 ops).
Proof.
  intros Hr. destruct (tel_run_spec (MkTelState Telemetry_default [] 0) ops s')
    as ([Hc Ha _] & Hcnt); [exact tel_inv_default|done|].
  split_and!; [done|done|by rewrite Hcnt|]. intros Hlen.
  rewrite (tel_run_peak (MkTelState Telemetry_default [] 0) ops s' tel_inv_default); [|done..].
  change (Z.max 0 (streams_high 0 ops) = streams_high 0 ops).
  pose proof (streams_high_ge 0 ops). lia.
Qed.

Definition two_sessions : list tel_op :=
  [OpSession 2; OpStream; OpSession 5; OpSent 17; OpStream; OpSessionDrop 0; OpReceived 23;
   OpStreamDrop; OpReset].

Lemma telemetry_exact_witness :
  ∃ s', tel_run (MkTelState Telemetry_default [] 0) two_sessions = Some s' ∧
    data_pipeline_capacity_frames (inner (tel s')) = wrap 64 (zsum (session_guards s')) ∧
    zsum (session_guards s') = 5.
Proof.
  destruct (tel_run (MkTelState Telemetry_default [] 0) two_sessions) as [s'|] eqn:Hr; [|done].
  exists s'. split; [done|]. split; [apply (telemetry_exact two_sessions s' Hr)|].
  vm_compute in Hr. by simplify_eq.
Defined.

(** Loading the capacity before the queue's counters does not keep the
    observed occupancy below the observed capacity: when a session registers
    its capacity and admits a frame between the two loads, the snapshot
    reports one frame in a pipeline of capacity zero. *)
Theorem snapshot_can_exceed_capacity :
  ∃ before after,
    after = MkMultiplexTelemetry (inner (session_capacity 4 before))
              (admitted (data_queue before)).2 ∧
    ts_data_pipeline_capacity_frames (snapshot before after after) = 0 ∧
    ts_data_pipeline_frames (snapshot before after after) = 1 ∧
    ts_data_pipeline_frames (snapshot after after after)
      ≤ ts_data_pipeline_capacity_frames (snapshot after after after).
Proof. exists Telemetry_default. eexists. split; [done|]. by vm_compute. Qed.
