(* ===== verification/WriterActor.v ===== *)
(** * WriterActor: the task that owns the write half of a session

    [writer_actor] of [crates/edge/src/multiplex.rs] and, with the same text,
    of [crates/agent/src/multiplex.rs].  Control frames take precedence over
    DATA, except that after a burst of [MAX_CONTROL_FRAME_BURST] control frames
    a scheduled DATA frame is written first; DATA is scheduled by the fair
    queue.  The actor is a machine whose events are the answers of its two
    channels and of the socket; no assumption is made on the answers. *)

From S2P Require Import Prelude AsyncIo Frame Codec FairQueue BoundedQueue Telemetry.

Definition MULTIPLEXED_DATA_PAYLOAD_SIZE : Z := 16 * 1024.
Definition MAX_CONTROL_FRAME_BURST : Z := 8.

(** [mpsc::error::TryRecvError]. *)
Inductive TryRecvError : Type :=
| RecvEmpty
| RecvDisconnected.

(** What the actor returns; the two callers wrap it in their own error type. *)
Inductive writer_error : Type :=
| WE_ProtocolDecode (e : ProtocolError)
| WE_FairQueueInvariant
| WE_SessionIo (e : io_error).

Inductive writer_pc : Type :=
| AtLoop                                   (** the [while] condition *)
| AtFill                                   (** the inner [while] *)
| AtControl                                (** [control_rx.try_recv()] *)
| AtPop                                    (** [scheduled.pop()] *)
| AtSelect                                 (** the [select!] *)
| AtShutdown                               (** [writer.shutdown()] *)
| Finished (r : Result writer_error unit)
| Panicked.

Inductive origin : Type := FromControl | FromData.

#[global] Instance origin_eq_dec : EqDecision origin.
Proof. solve_decision. Defined.

Record WriterActor : Type := MkWriterActor {
  wa_pc : writer_pc;
  control_open : bool;
  data_open : bool;
  control_burst : Z;
  data_capacity : Z;
  scheduled : BoundedFairQueue StreamId Frame;
  wa_wire : writer;
  wa_telemetry : MultiplexTelemetry;
  (** The frames whose encoding went out, and where they came from. *)
  wa_written : list (origin * Frame)
}.

Definition writer_actor_new (capacity : Z) (wire : writer) (t : MultiplexTelemetry)
    : WriterActor :=
  MkWriterActor AtLoop true true 0 capacity (FairQueue_new capacity) wire t [].

Inductive writer_event : Type :=
| EvTau                                    (** a local step *)
| EvTryData (r : Result TryRecvError Frame)
| EvTryControl (r : Result TryRecvError Frame)
| EvPop (control_is_empty : bool)
| EvControl (o : option Frame)             (** the [select!] branches *)
| EvData (o : option Frame)
| EvShutdown (r : Result io_error unit).

Definition at_pc (w : WriterActor) (pc : writer_pc) : WriterActor :=
  MkWriterActor pc (control_open w) (data_open w) (control_burst w) (data_capacity w)
    (scheduled w) (wa_wire w) (wa_telemetry w) (wa_written w).
Definition close_control (w : WriterActor) (pc : writer_pc) : WriterActor :=
  MkWriterActor pc false (data_open w) (control_burst w) (data_capacity w)
    (scheduled w) (wa_wire w) (wa_telemetry w) (wa_written w).
Definition close_data (w : WriterActor) (pc : writer_pc) : WriterActor :=
  MkWriterActor pc (control_open w) false (control_burst w) (data_capacity w)
    (scheduled w) (wa_wire w) (wa_telemetry w) (wa_written w).

(** [scheduled.push(frame.value().stream_id, frame)]. *)
Definition schedule_frame (w : WriterActor) (frame : Frame) (pc : writer_pc) : WriterActor :=
  match push (scheduled w) (stream_id frame) frame with
  | Ok q =>
      MkWriterActor pc (control_open w) (data_open w) (control_burst w) (data_capacity w)
        q (wa_wire w) (wa_telemetry w) (wa_written w)
  | Err _ => at_pc w (Finished (Err WE_FairQueueInvariant))
  end.

(** [FrameEncoder::encode(&mut writer, &frame).await?], then the burst counter
    and back to the loop. *)
Definition write_control (w : WriterActor) (frame : Frame) : WriterActor :=
  match encode (wa_wire w) frame with
  | (wire, Err e) =>
      MkWriterActor (Finished (Err (WE_ProtocolDecode e))) (control_open w) (data_open w)
        (control_burst w) (data_capacity w) (scheduled w) wire (wa_telemetry w) (wa_written w)
  | (wire, Ok _) =>
      MkWriterActor AtLoop (control_open w) (data_open w)
        (saturating_add USIZE_BITS (control_burst w) 1) (data_capacity w) (scheduled w) wire
        (wa_telemetry w) (wa_written w ++ [(FromControl, frame)])
  end.

Definition write_data (w : WriterActor) (frame : Frame) (q : BoundedFairQueue StreamId Frame)
    (control_is_empty : bool) : WriterActor :=
  let t :=
    if (MAX_CONTROL_FRAME_BURST <=? control_burst w) && control_open w && negb control_is_empty
    then control_burst_yielded (wa_telemetry w) else wa_telemetry w in
  match encode (wa_wire w) frame with
  | (wire, Err e) =>
      MkWriterActor (Finished (Err (WE_ProtocolDecode e))) (control_open w) (data_open w)
        (control_burst w) (data_capacity w) q wire t (wa_written w)
  | (wire, Ok _) =>
      let t' :=
        if decide (frame_type frame = DataFrame) then data_sent (zlen (payload frame)) t else t in
      MkWriterActor AtLoop (control_open w) (data_open w) 0 (data_capacity w) q wire t'
        (wa_written w ++ [(FromData, frame)])
  end.

(** One step: the event the current point of the code waits for; [None] for
    any other event. *)
Definition writer_step (w : WriterActor) (ev : writer_event) : option WriterActor :=
  match wa_pc w with
  | AtLoop =>
      match ev with
      | EvTau =>
          Some (at_pc w (if control_open w || data_open w || negb (fq_is_empty (scheduled w))
                         then AtFill else AtShutdown))
      | _ => None
      end
  | AtFill =>
      if data_open w && (fq_len (scheduled w) <? data_capacity w) then
        match ev with
        | EvTryData (Ok frame) => Some (schedule_frame w frame AtFill)
        | EvTryData (Err RecvEmpty) => Some (at_pc w AtControl)
        | EvTryData (Err RecvDisconnected) => Some (close_data w AtFill)
        | _ => None
        end
      else match ev with EvTau => Some (at_pc w AtControl) | _ => None end
  | AtControl =>
      if control_open w
         && ((control_burst w <? MAX_CONTROL_FRAME_BURST) || fq_is_empty (scheduled w)) then
        match ev with
        | EvTryControl (Ok frame) => Some (write_control w frame)
        | EvTryControl (Err RecvEmpty) => Some (at_pc w AtPop)
        | EvTryControl (Err RecvDisconnected) => Some (close_control w AtPop)
        | _ => None
        end
      else match ev with EvTau => Some (at_pc w AtPop) | _ => None end
  | AtPop =>
      match ev with
      | EvPop control_is_empty =>
          match pop (scheduled w) with
          | PopPanic => Some (at_pc w Panicked)
          | PopReturn (Some frame) q => Some (write_data w frame q control_is_empty)
          | PopReturn None _ =>
              Some (at_pc w (if negb (control_open w) && negb (data_open w)
                             then AtShutdown else AtSelect))
          end
      | _ => None
      end
  | AtSelect =>
      match ev with
      | EvControl o =>
          if control_open w then
            match o with
            | Some frame => Some (write_control w frame)
            | None => Some (close_control w AtLoop)
            end
          else None
      | EvData o =>
          if data_open w then
            match o with
            | Some frame => Some (schedule_frame w frame AtLoop)
            | None => Some (close_data w AtLoop)
            end
          else None
      | _ => None
      end
  | AtShutdown =>
      match ev with
      | EvShutdown r => Some (at_pc w (Finished (map_err WE_SessionIo r)))
      | _ => None
      end
  | Finished _ | Panicked => None
  end.

Fixpoint writer_run (w : WriterActor) (evs : list writer_event) : option WriterActor :=
  match evs with
  | [] => Some w
  | ev :: evs => match writer_step w ev with Some w' => writer_run w' evs | None => None end
  end.

(** The frames the two channels handed over in a run. *)
Definition control_input (ev : writer_event) : list Frame :=
  match ev with EvTryControl (Ok f) | EvControl (Some f) => [f] | _ => [] end.
Definition data_input (ev : writer_event) : list Frame :=
  match ev with EvTryData (Ok f) | EvData (Some f) => [f] | _ => [] end.
Definition control_in (evs : list writer_event) : list Frame := evs ≫= control_input.
Definition data_in (evs : list writer_event) : list Frame := evs ≫= data_input.

(** The frames written from one of the channels, and those of one stream. *)
Definition written_from (o : origin) (l : list (origin * Frame)) : list Frame :=
  snd <$> filter (λ p, p.1 = o) l.
Definition of_stream (s : StreamId) (fs : list Frame) : list Frame :=
  filter (λ f, stream_id f = s) fs.

(** ** Invariant *)

Record writer_inv (capacity : Z) (w : WriterActor) : Prop := {
  wi_wf : fq_wf (scheduled w);
  wi_capacity : fq_capacity (scheduled w) = capacity;
  wi_data_capacity : data_capacity w = capacity;
  wi_positive : 0 < capacity;
  wi_keyed k f : f ∈ items (scheduled w) k → stream_id f = k;
  wi_burst : 0 ≤ control_burst w;
  wi_pc :
    match wa_pc w with
    | AtSelect => fq_len (scheduled w) = 0 ∧ control_open w || data_open w = true
    | AtShutdown | Finished (Ok _) | Finished (Err (WE_SessionIo _)) =>
        control_open w = false ∧ data_open w = false ∧ fq_len (scheduled w) = 0
    | Finished (Err WE_FairQueueInvariant) | Panicked => False
    | _ => True
    end
}.

Lemma writer_inv_new capacity wire t :
  0 < capacity → writer_inv capacity (writer_actor_new capacity wire t).
Proof.
  intros Hc. split; try done; [by apply new_wf|].
  intros k f. cbn. unfold items. cbn. rewrite lookup_empty. set_solver.
Qed.

Lemma writer_inv_pc capacity w pc :
  writer_inv capacity w →
  match pc with
  | AtSelect => fq_len (scheduled w) = 0 ∧ control_open w || data_open w = true
  | AtShutdown | Finished (Ok _) | Finished (Err (WE_SessionIo _)) =>
      control_open w = false ∧ data_open w = false ∧ fq_len (scheduled w) = 0
  | Finished (Err WE_FairQueueInvariant) | Panicked => False
  | _ => True
  end → writer_inv capacity (at_pc w pc).
Proof. by intros [] ?; split. Qed.

Lemma schedule_frame_inv capacity w f pc :
  writer_inv capacity w → fq_len (scheduled w) < capacity → (pc = AtFill ∨ pc = AtLoop) →
  writer_inv capacity (schedule_frame w f pc) ∧
  ∃ q, push (scheduled w) (stream_id f) f = Ok q ∧ scheduled (schedule_frame w f pc) = q ∧
       wa_written (schedule_frame w f pc) = wa_written w ∧ wa_pc (schedule_frame w f pc) = pc.
Proof.
  intros [Hwf Hcap Hdc Hpos Hk Hb Hpc] Hlt Hpc'. unfold schedule_frame.
  destruct (push (scheduled w) (stream_id f) f) as [q|] eqn:Hp.
  - split; [|by exists q]. split; cbn; try done.
    + by eapply push_wf.
    + by rewrite (push_capacity _ _ _ _ Hp).
    + intros k f'. rewrite (push_items _ _ _ _ _ Hp), elem_of_app.
      case_decide; [|set_solver]. intros [?| ->%list_elem_of_singleton]; [eauto|done].
    + by destruct Hpc' as [-> | ->].
  - exfalso. unfold push in Hp. destruct (Z.eqb_spec (fq_len (scheduled w)) (fq_capacity (scheduled w)));
      [lia|]. by repeat case_match.
Qed.

Lemma write_control_inv capacity w f :
  writer_inv capacity w → writer_inv capacity (write_control w f).
Proof.
  intros [Hwf Hcap Hdc Hpos Hk Hb Hpc]. unfold write_control.
  destruct (encode (wa_wire w) f) as [wire [n|e]]; split; cbn; try done.
  unfold saturating_add, umax, USIZE_BITS. lia.
Qed.

Lemma write_data_inv capacity w f q b :
  writer_inv capacity w → pop (scheduled w) = PopReturn (Some f) q →
  writer_inv capacity (write_data w f q b).
Proof.
  intros [Hwf Hcap Hdc Hpos Hk Hb Hpc] Hp.
  pose proof (pop_ok _ Hwf) as Hs. rewrite Hp in Hs. inversion Hs as [|v q' Hsp Hwf' Hl Hc]; subst.
  destruct (pop_items _ _ _ Hp) as (key & Hkey & Hother).
  assert (∀ k f', f' ∈ items q k → stream_id f' = k) as Hk'.
  { intros k f' Hin. apply Hk. destruct (decide (k = key)) as [->|].
    - rewrite Hkey. set_solver.
    - by rewrite <-Hother. }
  unfold write_data. destruct (encode (wa_wire w) f) as [wire [n|e]]; split; cbn; done.
Qed.

Lemma writer_step_inv capacity w ev w' :
  writer_inv capacity w → writer_step w ev = Some w' → writer_inv capacity w'.
Proof.
  intros Hinv Hs. pose proof Hinv as [Hwf Hcap Hdc Hpos Hk Hb Hpc].
  unfold writer_step in Hs. destruct (wa_pc w) eqn:Hat.
  - destruct ev; simplify_eq. apply writer_inv_pc; [done|]. unfold fq_is_empty.
    destruct (control_open w), (data_open w); try done; cbn.
    by destruct (Z.eqb_spec (fq_len (scheduled w)) 0).
  - destruct (data_open w && (fq_len (scheduled w) <? data_capacity w)) eqn:Hg.
    + destruct ev as [|[f|[]]| | | | |]; simplify_eq.
      * apply schedule_frame_inv; [done|lia|by left].
      * by apply writer_inv_pc.
      * by split.
    + destruct ev; simplify_eq. by apply writer_inv_pc.
  - case_match.
    + destruct ev as [| |[f|[]]| | | |]; simplify_eq.
      * by apply write_control_inv.
      * by apply writer_inv_pc.
      * by split.
    + destruct ev; simplify_eq. by apply writer_inv_pc.
  - destruct ev; simplify_eq. pose proof (pop_ok _ Hwf) as Hp.
    destruct (pop (scheduled w)) as [|[f|] q] eqn:Hpop; inversion Hp; simplify_eq.
    + by apply write_data_inv.
    + apply writer_inv_pc; [done|]. by destruct (control_open w), (data_open w).
  - destruct ev as [| | | |[f|]|[f|]|]; simplify_eq; case_match; simplify_eq.
    + by apply write_control_inv.
    + by split.
    + apply schedule_frame_inv; [done|lia|by right].
    + by split.
  - destruct ev; simplify_eq. apply writer_inv_pc; [done|]. by destruct r.
  - done.
  - done.
Qed.

Lemma writer_run_inv capacity w evs w' :
  writer_inv capacity w → writer_run w evs = Some w' → writer_inv capacity w'.
Proof.
  revert w. induction evs as [|ev evs IH]; intros w Hinv Hr; simplify_eq/=; [done|].
  destruct (writer_step w ev) as [w1|] eqn:Hs; [|done]. eauto using writer_step_inv.
Qed.

(** ** Accounting: every frame received is written or still scheduled *)

Definition encode_failed (w : WriterActor) : Prop :=
  ∃ e, wa_pc w = Finished (Err (WE_ProtocolDecode e)).

Lemma written_from_app o l k : written_from o (l ++ k) = written_from o l ++ written_from o k.
Proof. unfold written_from. by rewrite filter_app, fmap_app. Qed.

Lemma of_stream_app s l k : of_stream s (l ++ k) = of_stream s l ++ of_stream s k.
Proof. apply filter_app. Qed.

Lemma of_stream_one s f : of_stream s [f] = if decide (s = stream_id f) then [f] else [].
Proof. unfold of_stream. rewrite filter_cons, filter_nil. repeat case_decide; congruence. Qed.

Definition data_account (w : WriterActor) (s : StreamId) : list Frame :=
  of_stream s (written_from FromData (wa_written w)) ++ items (scheduled w) s.

Lemma write_control_account w f :
  ¬ encode_failed (write_control w f) →
  wa_written (write_control w f) = wa_written w ++ [(FromControl, f)] ∧
  scheduled (write_control w f) = scheduled w.
Proof.
  unfold encode_failed, write_control.
  destruct (encode (wa_wire w) f) as [wire [n|e]]; cbn; [done|]. intros []. eauto.
Qed.

Lemma write_data_account w f q b :
  ¬ encode_failed (write_data w f q b) →
  wa_written (write_data w f q b) = wa_written w ++ [(FromData, f)] ∧
  scheduled (write_data w f q b) = q.
Proof.
  unfold encode_failed, write_data.
  destruct (encode (wa_wire w) f) as [wire [n|e]]; cbn; [done|]. intros []. eauto.
Qed.

Lemma written_from_same o f : written_from o [(o, f)] = [f].
Proof. by destruct o. Qed.
Lemma written_from_other o o' f : o ≠ o' → written_from o [(o', f)] = [].
Proof. by destruct o, o'. Qed.

(** What a step on event [ev] adds to the account. *)
Definition accounts (ev : writer_event) (w w' : WriterActor) : Prop :=
  written_from FromControl (wa_written w')
    = written_from FromControl (wa_written w) ++ control_input ev ∧
  ∀ s, data_account w' s = data_account w s ++ of_stream s (data_input ev).

Lemma accounts_quiet ev w w' :
  wa_written w' = wa_written w → scheduled w' = scheduled w →
  control_input ev = [] → data_input ev = [] → accounts ev w w'.
Proof.
  unfold accounts, data_account. intros -> -> -> ->. cbn. rewrite app_nil_r. split; [done|].
  intros s. by rewrite app_nil_r.
Qed.

Lemma accounts_control ev w f :
  ¬ encode_failed (write_control w f) → control_input ev = [f] → data_input ev = [] →
  accounts ev w (write_control w f).
Proof.
  unfold accounts, data_account. intros Hok -> ->.
  destruct (write_control_account w f Hok) as [-> ->].
  rewrite !written_from_app, written_from_same, written_from_other by done. split; [done|].
  intros s. by rewrite !app_nil_r.
Qed.

Lemma accounts_schedule capacity ev w f pc :
  writer_inv capacity w → fq_len (scheduled w) < capacity → (pc = AtFill ∨ pc = AtLoop) →
  control_input ev = [] → data_input ev = [f] →
  accounts ev w (schedule_frame w f pc).
Proof.
  unfold accounts, data_account. intros Hinv Hlt Hpc -> ->.
  destruct (schedule_frame_inv capacity w f pc Hinv Hlt Hpc) as (_ & q & Hp & -> & -> & _).
  rewrite app_nil_r. split; [done|]. intros s.
  rewrite (push_items _ _ _ _ s Hp), of_stream_one. by rewrite app_assoc.
Qed.

Lemma accounts_pop capacity ev w f q b :
  writer_inv capacity w → pop (scheduled w) = PopReturn (Some f) q →
  ¬ encode_failed (write_data w f q b) → control_input ev = [] → data_input ev = [] →
  accounts ev w (write_data w f q b).
Proof.
  unfold accounts, data_account. intros Hinv Hp Hok -> ->.
  destruct (write_data_account w f q b Hok) as [-> ->].
  destruct (pop_items _ _ _ Hp) as (key & Hkey & Hother).
  assert (stream_id f = key) as Hid by (apply (wi_keyed _ _ Hinv); rewrite Hkey; set_solver).
  rewrite !written_from_app, written_from_same, written_from_other by done.
  split; [done|]. intros s.
  rewrite of_stream_app, of_stream_one, app_nil_r. case_decide as Hs.
  - subst. by rewrite Hkey, <-app_assoc.
  - rewrite Hother by congruence. by rewrite app_nil_r.
Qed.

Lemma writer_step_account capacity w ev w' :
  writer_inv capacity w → writer_step w ev = Some w' → ¬ encode_failed w' → accounts ev w w'.
Proof.
  intros Hinv Hs Hok. pose proof Hinv as [Hwf Hcap Hdc Hpos Hk Hb Hpc].
  unfold writer_step in Hs. destruct (wa_pc w) eqn:Hat; try done.
  - destruct ev; simplify_eq. by apply accounts_quiet.
  - destruct (data_open w && (fq_len (scheduled w) <? data_capacity w)) eqn:Hg.
    + destruct ev as [|[f|[]]| | | | |]; simplify_eq; try by apply accounts_quiet.
      eapply accounts_schedule; eauto; lia.
    + destruct ev; simplify_eq. by apply accounts_quiet.
  - case_match.
    + destruct ev as [| |[f|[]]| | | |]; simplify_eq; try by apply accounts_quiet.
      by apply accounts_control.
    + destruct ev; simplify_eq. by apply accounts_quiet.
  - destruct ev; simplify_eq.
    destruct (pop (scheduled w)) as [|[f|] q] eqn:Hpop; simplify_eq; try by apply accounts_quiet.
    by eapply accounts_pop.
  - destruct ev as [| | | |[f|]|[f|]|]; simplify_eq; case_match; simplify_eq;
      try by apply accounts_quiet.
    + by apply accounts_control.
    + eapply accounts_schedule; eauto; lia.
  - destruct ev; simplify_eq. by apply accounts_quiet.
Qed.

Lemma writer_run_account capacity w evs w' :
  writer_inv capacity w → writer_run w evs = Some w' → ¬ encode_failed w' →
  written_from FromControl (wa_written w')
    = written_from FromControl (wa_written w) ++ control_in evs ∧
  ∀ s, data_account w' s = data_account w s ++ of_stream s (data_in evs).
Proof.
  revert w. induction evs as [|ev evs IH]; intros w Hinv Hr Hok; simplify_eq/=.
  { unfold control_in, data_in. cbn. rewrite app_nil_r. split; [done|].
    intros s. by rewrite app_nil_r. }
  destruct (writer_step w ev) as [w1|] eqn:Hs; [|done].
  pose proof (writer_step_inv _ _ _ _ Hinv Hs) as Hinv1.
  destruct (IH w1 Hinv1 Hr Hok) as [-> Hd].
  destruct (writer_step_account capacity w ev w1) as [-> Hd1]; [done|done| |].
  { intros [e He]. destruct evs as [|ev' evs]; simplify_eq/=; [by eapply Hok; exists e|].
    unfold writer_step in Hr. by rewrite He in Hr. }
  split; [by rewrite <-app_assoc|]. intros s.
  rewrite Hd, Hd1, <-app_assoc, <-of_stream_app. done.
Qed.

(** ** The bytes on the wire *)

Record wire_inv (out : bytes) (w : WriterActor) : Prop := {
  wr_wire : wa_wire w = sound (out ++ mjoin (encode_frame <$> (snd <$> wa_written w)));
  wr_scheduled k f : f ∈ items (scheduled w) k → frame_ok f;
  wr_written : Forall frame_ok (snd <$> wa_written w);
  wr_ok : ¬ encode_failed w
}.

Lemma wire_inv_new out capacity t : wire_inv out (writer_actor_new capacity (sound out) t).
Proof.
  split; cbn; [by rewrite app_nil_r| |by constructor|by intros [e ?]].
  intros k f. unfold items. cbn. rewrite lookup_empty. set_solver.
Qed.

Lemma encode_sound out f : frame_ok f →
  encode (sound out) f = (sound (out ++ encode_frame f), Ok (HEADER_SIZE + zlen (payload f))).
Proof. intros Hf. by rewrite encode_ok. Qed.

Lemma wire_append out (l : list (origin * Frame)) o f :
  (out ++ mjoin (encode_frame <$> (snd <$> l))) ++ encode_frame f
  = out ++ mjoin (encode_frame <$> (snd <$> l ++ [(o, f)])).
Proof. rewrite !fmap_app, join_app. cbn. by rewrite app_nil_r, app_assoc. Qed.

Lemma write_control_wire out w f :
  wire_inv out w → frame_ok f → wire_inv out (write_control w f).
Proof.
  intros [Hw Hs Hf Hok] Hfr. unfold write_control. rewrite Hw, encode_sound by done.
  split; cbn -[encode_frame]; [by rewrite (wire_append _ _ FromControl)|done| |by intros [e ?]].
  rewrite fmap_app, Forall_app. split; [done|by constructor].
Qed.

Lemma write_data_wire out w f q b :
  wire_inv out w → pop (scheduled w) = PopReturn (Some f) q → wire_inv out (write_data w f q b).
Proof.
  intros [Hw Hs Hf Hok] Hp. destruct (pop_items _ _ _ Hp) as (key & Hkey & Hother).
  assert (frame_ok f) by (apply (Hs key); rewrite Hkey; set_solver).
  unfold write_data. rewrite Hw, encode_sound by done.
  split; cbn -[encode_frame]; [by rewrite (wire_append _ _ FromData)| | |by intros [e ?]].
  - intros k f'. destruct (decide (k = key)) as [->|].
    + intros ?. apply (Hs key). rewrite Hkey. set_solver.
    + rewrite Hother by done. apply Hs.
  - rewrite fmap_app, Forall_app. split; [done|by constructor].
Qed.

Lemma writer_step_wire capacity out w ev w' :
  writer_inv capacity w → wire_inv out w →
  Forall frame_ok (control_input ev ++ data_input ev) →
  writer_step w ev = Some w' → wire_inv out w'.
Proof.
  intros Hinv Hwire Hin Hs. pose proof (wi_data_capacity _ _ Hinv). pose proof (wi_pc _ _ Hinv) as Hpc.
  pose proof (wi_positive _ _ Hinv).
  assert (∀ f pc, fq_len (scheduled w) < capacity → pc = AtFill ∨ pc = AtLoop → frame_ok f →
            wire_inv out (schedule_frame w f pc)) as Hsched.
  { intros f pc Hlt Hpc' Hf.
    destruct (schedule_frame_inv capacity w f pc Hinv Hlt Hpc') as (_ & q & Hp & Hq & Hwr & Hat).
    destruct Hwire as [Hw Hsc Hfr Hok]. split; rewrite ?Hwr; try done.
    - rewrite <-Hw. unfold schedule_frame. by rewrite Hp.
    - intros k f'. rewrite Hq, (push_items _ _ _ _ k Hp), elem_of_app.
      case_decide; [|set_solver]. intros [?| ->%list_elem_of_singleton]; eauto.
    - intros [e He]. rewrite Hat in He. by destruct Hpc'; subst. }
  assert (∀ w1, wa_wire w1 = wa_wire w → scheduled w1 = scheduled w →
            wa_written w1 = wa_written w → ¬ encode_failed w1 → wire_inv out w1) as Hquiet.
  { intros w1 Hw1 Hs1 Hwr1 Hok1. destruct Hwire as [Hw Hsc Hfr Hok].
    split; rewrite ?Hw1, ?Hs1, ?Hwr1; done. }
  unfold writer_step in Hs. destruct (wa_pc w) eqn:Hat; try done;
    repeat (case_match; try done); simplify_eq; cbn in Hin;
    try (apply Hquiet; try done; intros [e He]; cbn in He; unfold map_err in He; by repeat case_match);
    try (apply Forall_cons in Hin as [Hf _]).
  all: first [ by apply write_control_wire | by apply write_data_wire
             | apply Hsched; auto; lia ].
Qed.

Lemma writer_run_wire capacity out w evs w' :
  writer_inv capacity w → wire_inv out w →
  Forall frame_ok (control_in evs) → Forall frame_ok (data_in evs) →
  writer_run w evs = Some w' → wire_inv out w'.
Proof.
  revert w. induction evs as [|ev evs IH]; intros w Hinv Hw Hc Hd Hr; simplify_eq/=; [done|].
  destruct (writer_step w ev) as [w1|] eqn:Hs; [|done].
  unfold control_in, data_in in *. cbn in Hc, Hd. rewrite !Forall_app in Hc, Hd.
  apply (IH w1); [by eapply writer_step_inv| |naive_solver..].
  eapply writer_step_wire; eauto. rewrite Forall_app. naive_solver.
Qed.

(** ** Latency of DATA under a stream of control frames *)

(** How many frames can still go out before the one at position [i]. *)
Definition patience (w : WriterActor) (i : nat) : nat :=
  (9 * i + 8 - Z.to_nat (Z.min (control_burst w) 8))%nat.

(** Steps that leave the frame where it is, and do not write. *)
Inductive latency_step (w w' : WriterActor) (i : nat) (k : StreamId) (v : Frame) : Prop :=
| lat_quiet : wa_written w' = wa_written w → control_burst w' = control_burst w →
    at_position (abs (scheduled w')) i k [v] → latency_step w w' i k v
| lat_control f : wa_written w' = wa_written w ++ [(FromControl, f)] →
    control_burst w < 8 → control_burst w' = control_burst w + 1 →
    at_position (abs (scheduled w')) i k [v] → latency_step w w' i k v
| lat_data f j : i = S j → wa_written w' = wa_written w ++ [(FromData, f)] →
    control_burst w' = 0 → at_position (abs (scheduled w')) j k [v] → latency_step w w' i k v
| lat_served : wa_written w' = wa_written w ++ [(FromData, v)] → latency_step w w' i k v.

Lemma at_position_nonempty (q : BoundedFairQueue StreamId Frame) i k v :
  fq_wf q → at_position (abs q) i k [v] → 0 < fq_len q.
Proof.
  intros Hwf [more Hi]. rewrite (fq_size _ Hwf).
  apply list_elem_of_split_length in Hi as (l1 & l2 & -> & _).
  rewrite spec_size_app. cbn. pose proof (spec_size_nonneg l1). pose proof (spec_size_nonneg l2).
  rewrite zlen_cons. pose proof (zlen_nonneg more). lia.
Qed.

Lemma pop_latency capacity w i k v f q b :
  writer_inv capacity w → at_position (abs (scheduled w)) i k [v] →
  pop (scheduled w) = PopReturn (Some f) q → ¬ encode_failed (write_data w f q b) →
  latency_step w (write_data w f q b) i k v.
Proof.
  intros Hinv Hat Hp Hok. pose proof (pop_ok _ (wi_wf _ _ Hinv)) as Hs. rewrite Hp in Hs.
  inversion Hs as [|v' q' Hsp Hwf' Hl Hc]; subst.
  destruct (write_data_account w f q b Hok) as [Hwr Hq].
  assert (control_burst (write_data w f q b) = 0) as Hb.
  { unfold encode_failed, write_data in *.
    destruct (encode (wa_wire w) f) as [wire [n|e]]; cbn in *; [done|]. destruct Hok. eauto. }
  destruct i as [|j].
  - destruct Hat as [more Hi]. destruct (abs (scheduled w)) as [|[k' l] s]; simplify_eq/=.
    by apply lat_served.
  - eapply lat_data; [done|done|done|]. rewrite Hq. by eapply at_position_pop.
Qed.

Lemma writer_step_latency capacity w ev w' i k v :
  writer_inv capacity w → at_position (abs (scheduled w)) i k [v] →
  writer_step w ev = Some w' → ¬ encode_failed w' → latency_step w w' i k v.
Proof.
  intros Hinv Hat Hs Hok. pose proof Hinv as [Hwf _ Hdc _ _ Hb Hpc].
  pose proof (at_position_nonempty _ _ _ _ Hwf Hat) as Hne.
  unfold writer_step in Hs. destruct (wa_pc w) eqn:Hw; try done.
  - destruct ev; simplify_eq. by apply lat_quiet.
  - destruct (data_open w && (fq_len (scheduled w) <? data_capacity w)) eqn:Hg.
    + destruct ev as [|[f|[]]| | | | |]; simplify_eq; try by apply lat_quiet.
      destruct (schedule_frame_inv _ w f AtFill Hinv) as (_ & q & Hp & Hq & Hwr & _);
        [lia|by left|].
      apply lat_quiet; [done| |].
      * unfold schedule_frame. by rewrite Hp.
      * rewrite Hq, (abs_push _ _ _ _ Hwf Hp). by apply at_position_push.
    + destruct ev; simplify_eq. by apply lat_quiet.
  - destruct (control_open w && _) eqn:Hg.
    + destruct ev as [| |[f|[]]| | | |]; simplify_eq; try by apply lat_quiet.
      assert (control_burst w < 8) as Hb8.
      { unfold fq_is_empty, MAX_CONTROL_FRAME_BURST in Hg. lia. }
      destruct (write_control_account w f Hok) as [Hwr Hq].
      eapply lat_control; [done|done| |by rewrite Hq].
      unfold encode_failed, write_control in *.
      destruct (encode (wa_wire w) f) as [wire [n|e]]; cbn in *; [|by destruct Hok; eauto].
      unfold saturating_add, umax, USIZE_BITS. lia.
    + destruct ev; simplify_eq. by apply lat_quiet.
  - destruct ev; simplify_eq.
    destruct (pop (scheduled w)) as [|[f|] q] eqn:Hpop; simplify_eq; try by apply lat_quiet.
    by eapply pop_latency.
  - lia.
  - lia.
Qed.

Lemma elem_of_take_mono {A} (x : A) n m l : (n ≤ m)%nat → x ∈ take n l → x ∈ take m l.
Proof.
  intros Hle. rewrite !elem_of_take. intros (i & ? & ?). exists i. split; [done|lia].
Qed.

Lemma writer_step_prefix w ev w' :
  writer_step w ev = Some w' → ∃ new, wa_written w' = wa_written w ++ new.
Proof.
  assert (∃ new, wa_written w = wa_written w ++ new) as Hnil
    by (exists []; by rewrite app_nil_r).
  intros Hs. unfold writer_step, write_control, write_data, schedule_frame in Hs.
  repeat case_match; simplify_eq; cbn; eauto.
Qed.

Lemma writer_run_prefix w evs w' :
  writer_run w evs = Some w' → ∃ new, wa_written w' = wa_written w ++ new.
Proof.
  revert w. induction evs as [|ev evs IH]; intros w Hr; simplify_eq/=.
  { exists []. by rewrite app_nil_r. }
  destruct (writer_step w ev) as [w1|] eqn:Hs; [|done].
  destruct (IH w1 Hr) as [n1 ->]. destruct (writer_step_prefix _ _ _ Hs) as [n2 ->].
  exists (n2 ++ n1). by rewrite app_assoc.
Qed.

Lemma writer_run_latency capacity w evs w' i k v :
  writer_inv capacity w → at_position (abs (scheduled w)) i k [v] →
  writer_run w evs = Some w' → ¬ encode_failed w' →
  ∃ new, wa_written w' = wa_written w ++ new ∧
    ((patience w i < length new)%nat → (FromData, v) ∈ take (S (patience w i)) new).
Proof.
  revert w i. induction evs as [|ev evs IH]; intros w i Hinv Hat Hr Hok; simplify_eq/=.
  { exists []. rewrite app_nil_r. split; [done|]. simpl. lia. }
  destruct (writer_step w ev) as [w1|] eqn:Hs; [|done].
  pose proof (writer_step_inv _ _ _ _ Hinv Hs) as Hinv1.
  assert (¬ encode_failed w1) as Hok1.
  { intros [e He]. destruct evs as [|ev' evs]; simplify_eq/=; [by eapply Hok; exists e|].
    unfold writer_step in Hr. by rewrite He in Hr. }
  pose proof (wi_burst _ _ Hinv) as Hb. unfold patience in *.
  destruct (writer_step_latency _ _ _ _ _ _ _ Hinv Hat Hs Hok1)
    as [Hwr Hcb Hat1|f Hwr Hlt Hcb Hat1|f j -> Hwr Hcb Hat1|Hwr].
  - destruct (IH w1 i Hinv1 Hat1 Hr Hok) as (new & -> & Hnew).
    exists new. rewrite Hwr. split; [done|]. by rewrite Hcb in Hnew.
  - destruct (IH w1 i Hinv1 Hat1 Hr Hok) as (new & -> & Hnew).
    exists ((FromControl, f) :: new). rewrite Hwr, <-app_assoc. split; [done|]. cbn [length take]. intros Hl.
    rewrite elem_of_cons. right.
    replace (9 * i + 8 - Z.to_nat (Z.min (control_burst w) 8))%nat
      with (S (9 * i + 8 - Z.to_nat (Z.min (control_burst w1) 8)))%nat by lia.
    apply Hnew. lia.
  - destruct (IH w1 j Hinv1 Hat1 Hr Hok) as (new & -> & Hnew).
    exists ((FromData, f) :: new). rewrite Hwr, <-app_assoc. split; [done|]. cbn [length take]. intros Hl.
    rewrite elem_of_cons. right.
    eapply elem_of_take_mono; [|apply Hnew; lia]. lia.
  - destruct (writer_run_prefix w1 evs w' Hr) as [new ->].
    exists ((FromData, v) :: new). rewrite Hwr, <-app_assoc. split; [done|]. cbn [length take]. intros _.
    rewrite elem_of_cons. by left.
Qed.

(** ** Shutting down *)














(** ** Theorems *)


(** What the writer's accounts say of a run on a transport that does not fail. *)
Lemma writer_accounts capacity t evs w :
  0 < capacity →
  Forall frame_ok (control_in evs) → Forall frame_ok (data_in evs) →
  writer_run (writer_actor_new capacity (sound []) t) evs = Some w →
  written_from FromControl (wa_written w) = control_in evs ∧
  (∀ s, of_stream s (written_from FromData (wa_written w)) ++ items (scheduled w) s
        = of_stream s (data_in evs)) ∧
  w_out (wa_wire w) = mjoin (encode_frame <$> (snd <$> wa_written w)) ∧
  wa_pc w ≠ Panicked ∧ (∀ e, wa_pc w = Finished (Err e) → ∃ io, e = WE_SessionIo io) ∧
  (∀ r, wa_pc w = Finished r → ∀ s,
     of_stream s (written_from FromData (wa_written w)) = of_stream s (data_in evs)).
Proof.
  intros Hc Hctl Hdat Hr. pose proof (writer_inv_new capacity (sound []) t Hc) as Hinv0.
  pose proof (writer_run_inv _ _ _ _ Hinv0 Hr) as Hinv.
  assert (wire_inv [] w) as [Hw _ _ Hok].
  { by eapply (writer_run_wire capacity); [|apply wire_inv_new|..]. }
  destruct (writer_run_account _ _ _ _ Hinv0 Hr Hok) as [Hca Hda].
  assert (∀ s, data_account w s = of_stream s (data_in evs)) as Hda'.
  { intros s. rewrite Hda. unfold data_account, items. cbn. rewrite lookup_empty. done. }
  pose proof (wi_pc _ _ Hinv) as Hpc.
  split_and!; [done|exact Hda'|by rewrite Hw| | |].
  - intros He. by rewrite He in Hpc.
  - intros e He. rewrite He in Hpc. destruct e as [e| |io]; [|done|by exists io].
    destruct Hok. by exists e.
  - intros r He s. rewrite <-Hda'. unfold data_account. rewrite (items_empty _ s (wi_wf _ _ Hinv)).
    { by rewrite app_nil_r. }
    rewrite He in Hpc. destruct r as [|[e| |io]]; [naive_solver| |done|naive_solver].
    destruct Hok. by exists e.
Qed.

(** C11. The writer neither loses nor reorders: whatever the channels answer, and
    as long as no write fails, the control frames written are exactly those
    received, in order; for every stream the DATA-queue frames written,
    followed by those still scheduled, are exactly those received, in order;
    the bytes on the wire are the encodings of the frames written; the actor
    never panics and never reports a violated queue bound; and it finishes
    only after everything it received has been written. *)
Theorem writer_delivers capacity t evs w :
  0 < capacity →
  Forall frame_ok (control_in evs) → Forall frame_ok (data_in evs) →
  writer_run (writer_actor_new capacity (sound []) t) evs = Some w →
  written_from FromControl (wa_written w) = control_in evs ∧
  (∀ s, of_stream s (written_from FromData (wa_written w)) ++ items (scheduled w) s
        = of_stream s (data_in evs)) ∧
  w_out (wa_wire w) = mjoin (encode_frame <$> (snd <$> wa_written w)) ∧
  wa_pc w ≠ Panicked ∧ (∀ e, wa_pc w = Finished (Err e) → ∃ io, e = WE_SessionIo io) ∧
  (∀ r, wa_pc w = Finished r → ∀ s,
     of_stream s (written_from FromData (wa_written w)) = of_stream s (data_in evs)).
Proof. apply writer_accounts. Qed.

(** C24. A permanently ready control producer cannot starve DATA, with an exact
    bound: a DATA frame that heads its stream's queue at position [i] of the
    rotation is among the next [9 * (i + 1)] frames written, for every
    interleaving of control traffic, traffic on other streams and new
    arrivals (each of the [i + 1] services is preceded by at most
    [MAX_CONTROL_FRAME_BURST] control frames). *)
Theorem data_latency_bound capacity w evs w' i k v l :
  writer_inv capacity w → abs (scheduled w) !! i = Some (k, v :: l) →
  writer_run w evs = Some w' → ¬ encode_failed w' →
  ∃ new, wa_written w' = wa_written w ++ new ∧
    ((9 * (i + 1) ≤ length new)%nat → (FromData, v) ∈ take (9 * (i + 1)) new).
Proof.
  intros Hinv Hi Hr Hok.
  destruct (writer_run_latency capacity w evs w' i k v) as (new & Hw & Hnew); [done| |done|done|].
  { by exists l. }
  exists new. split; [done|]. intros Hl.
  eapply elem_of_take_mono; [|apply Hnew]; unfold patience; lia.
Qed.


(** ** Witnesses, and a reordering *)

Definition data_frame (s : Z) (text : string) : Frame :=
  MkFrame DataFrame 0 (MkStreamId s) (bstr text).
Definition open_frame (s : Z) : Frame := MkFrame OpenStream 0 (MkStreamId s) [].

(** Eight control frames are queued in front of the acknowledgement of stream
    9, and the first DATA of stream 9 is queued behind it. *)
Definition acks (n : Z) : list Frame := open_frame <$> seqZ 1 n.
Definition busy_events : list writer_event :=
  [EvTau; EvTryData (Ok (data_frame 9 "banner"))]
  ++ (acks 8 ≫= λ f, [EvTryData (Err RecvEmpty); EvTryControl (Ok f); EvTau])
  ++ [EvTryData (Err RecvEmpty); EvTau; EvPop false; EvTau;
      EvTryData (Err RecvEmpty); EvTryControl (Ok (open_frame 9))].

Definition busy_writer : WriterActor :=
  default (writer_actor_new 4 (sound []) Telemetry_default)
    (writer_run (writer_actor_new 4 (sound []) Telemetry_default) busy_events).

Lemma busy_writer_run :
  writer_run (writer_actor_new 4 (sound []) Telemetry_default) busy_events = Some busy_writer.
Proof. by vm_compute. Qed.

(** The burst limit lets DATA overtake the OPEN_STREAM acknowledgement of
    its own stream: when eight control frames have just been written, the
    first DATA frame of a freshly accepted stream is written before the
    acknowledgement that its producer queued first. *)
Theorem data_overtakes_acknowledgement :
  ∃ evs w, writer_run (writer_actor_new 4 (sound []) Telemetry_default) evs = Some w ∧
    control_in evs = acks 9 ∧ data_in evs = [data_frame 9 "banner"] ∧
    snd <$> wa_written w = acks 8 ++ [data_frame 9 "banner"; open_frame 9].
Proof.
  exists busy_events, busy_writer. split; [exact busy_writer_run|]. split_and!; by vm_compute.
Qed.

Lemma frames_ok_busy : Forall frame_ok (control_in busy_events) ∧ Forall frame_ok (data_in busy_events).
Proof. split; apply (bool_decide_unpack _); by vm_compute. Qed.

Lemma writer_delivers_witness :
  written_from FromControl (wa_written busy_writer) = acks 9 ∧
  w_out (wa_wire busy_writer) = mjoin (encode_frame <$> (snd <$> wa_written busy_writer)).
Proof.
  destruct frames_ok_busy as [Hc Hd].
  destruct (writer_delivers 4 Telemetry_default busy_events busy_writer ltac:(lia) Hc Hd
              busy_writer_run) as (H1 & _ & H3 & _).
  split; [exact H1|exact H3].
Defined.

Lemma data_latency_bound_witness :
  ∃ w, writer_inv 4 w ∧ abs (scheduled w) !! 0%nat = Some (MkStreamId 9, [data_frame 9 "banner"]) ∧
    ∃ new, wa_written busy_writer = wa_written w ++ new ∧
      ((9 ≤ length new)%nat → (FromData, data_frame 9 "banner") ∈ take 9 new).
Proof.
  set (w0 := writer_actor_new 4 (sound []) Telemetry_default).
  set (w := default w0 (writer_run w0 (take 2 busy_events))).
  assert (writer_run w0 (take 2 busy_events) = Some w) as Hr by by vm_compute.
  assert (writer_run w (drop 2 busy_events) = Some busy_writer) as Hr' by by vm_compute.
  assert (writer_inv 4 w) as Hinv
    by (eapply writer_run_inv; [|exact Hr]; apply writer_inv_new; lia).
  exists w. split; [exact Hinv|]. split; [by vm_compute|].
  apply (data_latency_bound 4 w (drop 2 busy_events) busy_writer 0 (MkStreamId 9) _ []);
    [exact Hinv|by vm_compute|exact Hr'|]. intros [e He]. by vm_compute in He.
Defined.







