(* ===== verification/StreamTask.v ===== *)
(** * StreamTask: the task that bridges one logical stream

    [run_ingress_stream] of [crates/edge/src/multiplex.rs] and
    [run_local_stream] of [crates/agent/src/multiplex.rs].  Each task is a
    machine with one state per await of the code; an event is the answer that
    completes an await ([select!] picks any branch that is ready), and a step
    lists the effects that follow it.  Time is an integer; every event carries
    the instant at which it happens. *)

From S2P Require Import Prelude AsyncIo Frame Codec Handshake FairQueue BoundedQueue Telemetry.
From S2P Require Import WriterActor.

(** ** Frames a task sends *)

Definition decode_reset (frame : Frame) : option StreamResetCode :=
  if negb (zlen (payload frame) =? STREAM_RESET_PAYLOAD_SIZE) then None
  else StreamResetCode_from_be_bytes (payload frame).

Definition reset_frame (sid : StreamId) (code : StreamResetCode) : Result ProtocolError Frame :=
  Frame_stream sid ResetStream (StreamResetCode_to_be_bytes code).

(** ** Edge types *)

Inductive RoutedStreamCloseReason : Type :=
| ClosedGraceful
| ClosedPeerReset (code : StreamResetCode)
| ClosedSession
| ClosedIoFailure
| ClosedOpenTimeout
| ClosedIdleTimeout
| ClosedProtocolViolation.

Inductive RouteError : Type :=
| RuntimeDraining
| SessionNotFound (id : TransportSessionId)
| TunnelNotConnected (tunnel : bytes)
| SessionBusy (id : TransportSessionId)
| RouteSessionClosing (id : TransportSessionId)
| RouteCapacityExceeded (id : TransportSessionId)
| StreamIdExhausted (id : TransportSessionId)
| StreamRejected (code : StreamResetCode)
| RouteOpenTimeout (id : StreamId).

#[global] Instance RoutedStreamCloseReason_eq_dec : EqDecision RoutedStreamCloseReason.
Proof. solve_decision. Defined.
#[global] Instance RouteError_eq_dec : EqDecision RouteError.
Proof. solve_decision. Defined.

(** ** The answers a task waits for *)

(** [write_all]: done, or failed after [n] bytes of the payload went out. *)
Inductive write_outcome : Type :=
| WriteDone
| WriteFailed (n : nat).

Inductive relay_event : Type :=
| OnInbound (o : option Frame)              (** [inbound.recv()] *)
| OnRead (r : Result io_error bytes)        (** [read(&mut buffer)] on the socket *)
| OnIdle                                    (** the idle timer *)
| OnWritten (w : write_outcome)             (** [write_all(&frame.payload)] *)
| OnShutdown (ok : bool)                    (** [shutdown()] of the socket *)
| OnSent (ok : bool)                        (** [send_data] *)
| OnResetSent (ok : bool).                  (** [send_reset], result ignored *)

(** What a step does besides changing the state. *)
Inductive effect : Type :=
| Written (bs : bytes)                      (** bytes given to the socket *)
| WriteClosed                               (** the socket's write half shut down *)
| DataQueued (f : Frame)                    (** accepted by the DATA queue *)
| ControlQueued (f : Frame)                 (** accepted by the control channel *)
| Respond (r : Result RouteError StreamId)
| Complete (reason : RoutedStreamCloseReason)
| NotifyClosed (sid : StreamId).

#[global] Instance effect_eq_dec : EqDecision effect.
Proof. solve_decision. Defined.

(** ** The relay loop of the Edge *)

Inductive relay_pc : Type :=
| RelaySelect (ingress_ended agent_ended : bool)
| RelayWriting (p : bytes) (ingress_ended : bool)
| RelayShutting (ingress_ended : bool)
| RelaySending (f : Frame) (ingress_ended agent_ended : bool)
| RelayResetting (f : Frame) (reason : RoutedStreamCloseReason)
| RelayStopped (reason : RoutedStreamCloseReason).

Record relay : Type := MkRelay {
  relay_at : relay_pc;
  idle_deadline : Z
}.

(** [if ingress_ended && agent_ended { break; }] at the head of the loop. *)
Definition relay_loop (ingress_ended agent_ended : bool) (deadline : Z) : relay :=
  MkRelay (if ingress_ended && agent_ended then RelayStopped ClosedGraceful
           else RelaySelect ingress_ended agent_ended) deadline.

Section relay.
Context (sid : StreamId) (stream_idle_timeout : Z).

(** [let _ = send_reset(..).await; close_reason = reason; break]. *)
Definition relay_reset (code : StreamResetCode) (reason : RoutedStreamCloseReason) (deadline : Z)
    : relay :=
  MkRelay (match reset_frame sid code with
           | Ok f => RelayResetting f reason
           | Err _ => RelayStopped reason
           end) deadline.

(** [send_data(..).await]; a frame that cannot be built is an error too. *)
Definition relay_send (ft : FrameType) (p : bytes) (ingress_ended agent_ended : bool)
    (deadline : Z) : relay :=
  MkRelay (match Frame_stream sid ft p with
           | Ok f => RelaySending f ingress_ended agent_ended
           | Err _ => RelayStopped ClosedSession
           end) deadline.

(** The [inbound.recv()] branch. *)
Definition relay_inbound (ingress_ended agent_ended : bool) (frame : Frame) (deadline : Z)
    : relay :=
  match frame_type frame with
  | DataFrame =>
      if negb agent_ended then MkRelay (RelayWriting (payload frame) ingress_ended) deadline
      else relay_reset ProtocolViolation ClosedProtocolViolation deadline
  | EndStream =>
      if bool_decide (payload frame = []) && negb agent_ended
      then MkRelay (RelayShutting ingress_ended) deadline
      else relay_reset ProtocolViolation ClosedProtocolViolation deadline
  | ResetStream =>
      match decode_reset frame with
      | Some code => MkRelay (RelayStopped (ClosedPeerReset code)) deadline
      | None => relay_reset ProtocolViolation ClosedProtocolViolation deadline
      end
  | _ => relay_reset ProtocolViolation ClosedProtocolViolation deadline
  end.

Definition relay_step (r : relay) (now : Z) (ev : relay_event) : option (relay * list effect) :=
  let deadline := idle_deadline r in
  match relay_at r, ev with
  | RelaySelect ie ae, OnInbound None => Some (MkRelay (RelayStopped ClosedSession) deadline, [])
  | RelaySelect ie ae, OnInbound (Some frame) =>
      Some (relay_inbound ie ae frame (now + stream_idle_timeout), [])
  | RelaySelect ie ae, OnRead res =>
      if ie then None
      else
        match res with
        | Ok [] => Some (relay_send EndStream [] true ae deadline, [])
        | Ok bs =>
            if zlen bs <=? MULTIPLEXED_DATA_PAYLOAD_SIZE
            then Some (relay_send DataFrame bs ie ae (now + stream_idle_timeout), [])
            else None
        | Err _ => Some (relay_reset IoFailure ClosedIoFailure deadline, [])
        end
  | RelaySelect ie ae, OnIdle =>
      if deadline <=? now then Some (relay_reset IdleTimeout ClosedIdleTimeout deadline, [])
      else None
  | RelayWriting p ie, OnWritten WriteDone => Some (relay_loop ie false deadline, [Written p])
  | RelayWriting p ie, OnWritten (WriteFailed n) =>
      Some (relay_reset IoFailure ClosedIoFailure deadline, [Written (take n p)])
  | RelayShutting ie, OnShutdown true => Some (relay_loop ie true deadline, [WriteClosed])
  | RelayShutting ie, OnShutdown false =>
      Some (relay_reset IoFailure ClosedIoFailure deadline, [])
  | RelaySending f ie ae, OnSent true => Some (relay_loop ie ae deadline, [DataQueued f])
  | RelaySending f ie ae, OnSent false =>
      Some (MkRelay (RelayStopped ClosedSession) deadline, [])
  | RelayResetting f reason, OnResetSent ok =>
      Some (MkRelay (RelayStopped reason) deadline, if ok then [ControlQueued f] else [])
  | _, _ => None
  end.
End relay.

(** ** The whole Edge task *)

Inductive ingress_event : Type :=
| OnOpenSent (ok : bool)                    (** [send_stream(OpenStream)] *)
| OnOpened (o : option Frame)               (** [inbound.recv()] within the timeout *)
| OnOpenTimeout
| OnRelay (ev : relay_event)
| OnRejectSent (ok : bool)                  (** [send_reset] of a failed open *)
| OnNotified.                               (** [event_tx.send(Closed)] *)

Inductive ingress_pc : Type :=
| IngressAnnounce (f : Frame)
| IngressAwaitOpen (deadline : Z)
| IngressRejecting (f : Frame) (reason : RoutedStreamCloseReason)
| IngressRelay (r : relay)
| IngressNotify
| IngressDone.

Section ingress.
Context (session_id : TransportSessionId) (sid : StreamId).
Context (stream_open_timeout stream_idle_timeout : Z).

(** The early exits: answer, complete, then [event_tx.send(Closed)]. *)
Definition ingress_close (reason : RoutedStreamCloseReason) : ingress_pc * list effect :=
  (IngressNotify, [Complete reason]).

Definition ingress_start : ingress_pc * list effect :=
  match Frame_stream sid OpenStream [] with
  | Ok f => (IngressAnnounce f, [])
  | Err _ =>
      (IngressNotify, [Respond (Err (RouteSessionClosing session_id)); Complete ClosedSession])
  end.

(** Answer, then [send_reset], then complete. *)
Definition ingress_reject (e : RouteError) (code : StreamResetCode)
    (reason : RoutedStreamCloseReason) : ingress_pc * list effect :=
  match reset_frame sid code with
  | Ok f => (IngressRejecting f reason, [Respond (Err e)])
  | Err _ => (IngressNotify, [Respond (Err e); Complete reason])
  end.

Definition ingress_opened (now : Z) (o : option Frame) : ingress_pc * list effect :=
  match o with
  | Some frame =>
      if decide (frame_type frame = OpenStream ∧ payload frame = []) then
        (IngressRelay (relay_loop false false (now + stream_idle_timeout)), [Respond (Ok sid)])
      else if decide (frame_type frame = ResetStream) then
        let code := default ProtocolViolation (decode_reset frame) in
        (IngressNotify, [Respond (Err (StreamRejected code)); Complete (ClosedPeerReset code)])
      else ingress_reject (StreamRejected ProtocolViolation) ProtocolViolation
             ClosedProtocolViolation
  | None =>
      (IngressNotify, [Respond (Err (RouteSessionClosing session_id)); Complete ClosedSession])
  end.

(** Leaving the relay loop completes the stream. *)
Definition ingress_relayed (r : relay) : ingress_pc * list effect :=
  match relay_at r with
  | RelayStopped reason => ingress_close reason
  | _ => (IngressRelay r, [])
  end.

Definition ingress_step (pc : ingress_pc) (now : Z) (ev : ingress_event)
    : option (ingress_pc * list effect) :=
  match pc, ev with
  | IngressAnnounce f, OnOpenSent true =>
      Some (IngressAwaitOpen (now + stream_open_timeout), [ControlQueued f])
  | IngressAnnounce f, OnOpenSent false =>
      Some (IngressNotify,
            [Respond (Err (RouteSessionClosing session_id)); Complete ClosedSession])
  | IngressAwaitOpen _, OnOpened o => Some (ingress_opened now o)
  | IngressAwaitOpen deadline, OnOpenTimeout =>
      if deadline <=? now
      then Some (ingress_reject (RouteOpenTimeout sid) OpenTimeout ClosedOpenTimeout)
      else None
  | IngressRejecting f reason, OnRejectSent ok =>
      let '(pc', effs) := ingress_close reason in
      Some (pc', (if ok then [ControlQueued f] else []) ++ effs)
  | IngressRelay r, OnRelay ev =>
      match relay_step sid stream_idle_timeout r now ev with
      | Some (r', effs) => let '(pc', effs') := ingress_relayed r' in Some (pc', effs ++ effs')
      | None => None
      end
  | IngressNotify, OnNotified => Some (IngressDone, [NotifyClosed sid])
  | _, _ => None
  end.

(** A run with the instants of its events; the effects in order. *)
Fixpoint ingress_run (pc : ingress_pc) (evs : list (Z * ingress_event))
    : option (ingress_pc * list effect) :=
  match evs with
  | [] => Some (pc, [])
  | (now, ev) :: evs =>
      match ingress_step pc now ev with
      | Some (pc', effs) =>
          match ingress_run pc' evs with
          | Some (pc'', effs') => Some (pc'', effs ++ effs')
          | None => None
          end
      | None => None
      end
  end.

(** [run_ingress_stream]. *)
Definition run_ingress_stream (evs : list (Z * ingress_event)) : option (ingress_pc * list effect) :=
  match ingress_run ingress_start.1 evs with
  | Some (pc, effs) => Some (pc, ingress_start.2 ++ effs)
  | None => None
  end.
End ingress.

(** ** The Agent task *)

Inductive local_relay_pc : Type :=
| LocalSelect (local_ended peer_ended : bool)
| LocalWriting (p : bytes) (local_ended : bool)
| LocalShutting (local_ended : bool)
| LocalSending (f : Frame) (local_ended peer_ended : bool)
| LocalResetting (f : Frame)
| LocalStopped.

Record local_relay : Type := MkLocalRelay {
  local_at : local_relay_pc;
  local_idle : Z
}.

Inductive connect_outcome : Type :=
| Connected
| ConnectFailed
| ConnectTimedOut.

Inductive local_event : Type :=
| OnConnected (c : connect_outcome)
| OnEarlyInbound (o : option Frame)         (** [inbound.recv()] while connecting *)
| OnAckSent (ok : bool)                     (** [send_stream(OpenStream)] *)
| OnLocalRelay (ev : relay_event)
| OnLocalRejectSent (ok : bool)
| OnLocalNotified.

Inductive local_pc : Type :=
| LocalConnecting
| LocalRejecting (f : Frame)                (** [send_reset] of a failed open *)
| LocalAcking (f : Frame)
| LocalRelay (r : local_relay)
| LocalNotify
| LocalDone.

Definition local_loop (local_ended peer_ended : bool) (deadline : Z) : local_relay :=
  MkLocalRelay (if local_ended && peer_ended then LocalStopped
                else LocalSelect local_ended peer_ended) deadline.

Section local.
Context (sid : StreamId) (stream_idle_timeout : Z).

Definition local_reset (code : StreamResetCode) (deadline : Z) : local_relay :=
  MkLocalRelay (match reset_frame sid code with
                | Ok f => LocalResetting f
                | Err _ => LocalStopped
                end) deadline.

Definition local_send (ft : FrameType) (p : bytes) (local_ended peer_ended : bool) (deadline : Z)
    : local_relay :=
  MkLocalRelay (match Frame_stream sid ft p with
                | Ok f => LocalSending f local_ended peer_ended
                | Err _ => LocalStopped
                end) deadline.

Definition local_inbound (local_ended peer_ended : bool) (frame : Frame) (deadline : Z)
    : local_relay :=
  match frame_type frame with
  | DataFrame =>
      if negb peer_ended then MkLocalRelay (LocalWriting (payload frame) local_ended) deadline
      else local_reset ProtocolViolation deadline
  | EndStream =>
      if bool_decide (payload frame = []) && negb peer_ended
      then MkLocalRelay (LocalShutting local_ended) deadline
      else local_reset ProtocolViolation deadline
  | ResetStream =>
      match decode_reset frame with
      | Some _ => MkLocalRelay LocalStopped deadline
      | None => local_reset ProtocolViolation deadline
      end
  | _ => local_reset ProtocolViolation deadline
  end.

Definition local_relay_step (r : local_relay) (now : Z) (ev : relay_event)
    : option (local_relay * list effect) :=
  let deadline := local_idle r in
  match local_at r, ev with
  | LocalSelect le pe, OnInbound None => Some (MkLocalRelay LocalStopped deadline, [])
  | LocalSelect le pe, OnInbound (Some frame) =>
      Some (local_inbound le pe frame (now + stream_idle_timeout), [])
  | LocalSelect le pe, OnRead res =>
      if le then None
      else
        match res with
        | Ok [] => Some (local_send EndStream [] true pe deadline, [])
        | Ok bs =>
            if zlen bs <=? MULTIPLEXED_DATA_PAYLOAD_SIZE
            then Some (local_send DataFrame bs le pe (now + stream_idle_timeout), [])
            else None
        | Err _ => Some (local_reset IoFailure deadline, [])
        end
  | LocalSelect le pe, OnIdle =>
      if deadline <=? now then Some (local_reset IdleTimeout deadline, []) else None
  | LocalWriting p le, OnWritten WriteDone => Some (local_loop le false deadline, [Written p])
  | LocalWriting p le, OnWritten (WriteFailed n) =>
      Some (local_reset IoFailure deadline, [Written (take n p)])
  | LocalShutting le, OnShutdown true => Some (local_loop le true deadline, [WriteClosed])
  | LocalShutting le, OnShutdown false => Some (local_reset IoFailure deadline, [])
  | LocalSending f le pe, OnSent true => Some (local_loop le pe deadline, [DataQueued f])
  | LocalSending f le pe, OnSent false => Some (MkLocalRelay LocalStopped deadline, [])
  | LocalResetting f, OnResetSent ok =>
      Some (MkLocalRelay LocalStopped deadline, if ok then [ControlQueued f] else [])
  | _, _ => None
  end.

(** [let _ = send_reset(..).await] before [event_tx.send(Closed)]. *)
Definition local_reject (code : StreamResetCode) : local_pc :=
  match reset_frame sid code with Ok f => LocalRejecting f | Err _ => LocalNotify end.

Definition local_connected (now : Z) (c : connect_outcome) : local_pc :=
  match c with
  | Connected =>
      match Frame_stream sid OpenStream [] with Ok f => LocalAcking f | Err _ => LocalNotify end
  | ConnectFailed => local_reject LocalConnectFailed
  | ConnectTimedOut => local_reject LocalConnectTimeout
  end.

(** A frame before the connection is up ends the stream; only a well-formed
    RESET is not answered. *)
Definition local_early (o : option Frame) : local_pc :=
  match o with
  | Some frame =>
      if negb (bool_decide (frame_type frame = ResetStream))
         || bool_decide (decode_reset frame = None)
      then local_reject ProtocolViolation else LocalNotify
  | None => LocalNotify
  end.

Definition local_relayed (r : local_relay) : local_pc :=
  match local_at r with LocalStopped => LocalNotify | _ => LocalRelay r end.

Definition local_step (pc : local_pc) (now : Z) (ev : local_event)
    : option (local_pc * list effect) :=
  match pc, ev with
  | LocalConnecting, OnConnected c => Some (local_connected now c, [])
  | LocalConnecting, OnEarlyInbound o => Some (local_early o, [])
  | LocalRejecting f, OnLocalRejectSent ok =>
      Some (LocalNotify, if ok then [ControlQueued f] else [])
  | LocalAcking f, OnAckSent true =>
      Some (LocalRelay (local_loop false false (now + stream_idle_timeout)), [ControlQueued f])
  | LocalAcking f, OnAckSent false => Some (LocalNotify, [])
  | LocalRelay r, OnLocalRelay ev =>
      match local_relay_step r now ev with
      | Some (r', effs) => Some (local_relayed r', effs)
      | None => None
      end
  | LocalNotify, OnLocalNotified => Some (LocalDone, [NotifyClosed sid])
  | _, _ => None
  end.

Fixpoint local_run (pc : local_pc) (evs : list (Z * local_event))
    : option (local_pc * list effect) :=
  match evs with
  | [] => Some (pc, [])
  | (now, ev) :: evs =>
      match local_step pc now ev with
      | Some (pc', effs) =>
          match local_run pc' evs with
          | Some (pc'', effs') => Some (pc'', effs ++ effs')
          | None => None
          end
      | None => None
      end
  end.

(** [run_local_stream]. *)
Definition run_local_stream (evs : list (Z * local_event)) : option (local_pc * list effect) :=
  local_run LocalConnecting evs.
End local.

(** ** Half-streams

    What one direction of a stream looks like as a sequence of frames: the
    DATA frames of consecutive chunks, then an END once the source is at its
    end. *)

Definition data_of (sid : StreamId) (chunk : bytes) : Frame := MkFrame DataFrame 0 sid chunk.
Definition end_of (sid : StreamId) : Frame := MkFrame EndStream 0 sid [].

Record half (sid : StreamId) (bs : bytes) (ended : bool) (fs : list Frame) : Prop := {
  half_chunks : ∃ chunks, mjoin chunks = bs ∧
    Forall (λ c : bytes, c ≠ [] ∧ zlen c ≤ MULTIPLEXED_DATA_PAYLOAD_SIZE) chunks ∧
    fs = (data_of sid <$> chunks) ++ (if ended then [end_of sid] else [])
}.

(** The bytes of the DATA frames up to the first other frame, and whether that
    frame is a proper END. *)
Fixpoint body (fs : list Frame) : bytes :=
  match fs with
  | [] => []
  | f :: fs => if decide (frame_type f = DataFrame) then payload f ++ body fs else []
  end.
Fixpoint ends (fs : list Frame) : bool :=
  match fs with
  | [] => false
  | f :: fs =>
      if decide (frame_type f = DataFrame) then ends fs
      else bool_decide (frame_type f = EndStream ∧ payload f = [])
  end.

Definition is_data (f : Frame) : Prop := frame_type f = DataFrame.

Lemma body_app fs gs : Forall is_data fs → body (fs ++ gs) = body fs ++ body gs.
Proof.
  induction 1 as [|f fs Hf Hfs IH]; [done|]. cbn. rewrite !decide_True by done.
  by rewrite IH, app_assoc.
Qed.
Lemma ends_app fs gs : Forall is_data fs → ends (fs ++ gs) = ends gs.
Proof. induction 1 as [|f fs Hf Hfs IH]; [done|]. cbn. by rewrite decide_True. Qed.
Lemma body_ended fs gs : ends fs = true → body (fs ++ gs) = body fs ∧ ends (fs ++ gs) = true.
Proof.
  induction fs as [|f fs IH]; [done|]. cbn. case_decide; [|by intros ->].
  intros [-> ->]%IH. done.
Qed.
Lemma body_prefix fs gs : body fs `prefix_of` body (fs ++ gs).
Proof.
  induction fs as [|f fs IH]; cbn; [apply prefix_nil|]. case_decide; [|done].
  by apply prefix_app.
Qed.

(** A receiver of a prefix sees a prefix of the bytes; one that sees the END
    has seen everything. *)
Lemma body_of_prefix fs gs :
  fs `prefix_of` gs → body fs `prefix_of` body gs ∧
  (ends fs = true → body fs = body gs ∧ ends gs = true).
Proof.
  intros [k ->]. split; [apply body_prefix|]. intros [-> ->]%(body_ended _ k). done.
Qed.

Lemma half_body sid bs ended fs : half sid bs ended fs → body fs = bs ∧ ends fs = ended.
Proof.
  intros [(chunks & <- & _ & ->)].
  assert (Forall is_data (data_of sid <$> chunks)) as Hd by (apply Forall_fmap, Forall_true; done).
  rewrite body_app, ends_app by done. split.
  - assert (body (data_of sid <$> chunks) = mjoin chunks) as ->.
    { clear Hd. induction chunks as [|c chunks IH]; [done|].
      rewrite fmap_cons. cbn [body]. rewrite decide_True, IH by done. done. }
    destruct ended; cbn; by rewrite app_nil_r.
  - by destruct ended.
Qed.

Lemma half_nil sid : half sid [] false [].
Proof. split. exists []. done. Qed.
Lemma half_data sid bs fs c :
  half sid bs false fs → c ≠ [] → zlen c ≤ MULTIPLEXED_DATA_PAYLOAD_SIZE →
  half sid (bs ++ c) false (fs ++ [data_of sid c]).
Proof.
  intros [(chunks & <- & Hok & ->)] Hc Hl. split. exists (chunks ++ [c]).
  rewrite join_app, Forall_app, fmap_app, !app_nil_r. cbn. rewrite app_nil_r.
  split_and!; [done|done|by constructor|done].
Qed.
Lemma half_end sid bs fs : half sid bs false fs → half sid bs true (fs ++ [end_of sid]).
Proof.
  intros [(chunks & <- & Hok & ->)]. split. exists chunks. rewrite app_nil_r. done.
Qed.

(** ** What a relay run moves *)

Section relay_account.
Context (sid : StreamId) (stream_idle_timeout : Z).

Fixpoint relay_run (r : relay) (evs : list (Z * relay_event)) : option (relay * list effect) :=
  match evs with
  | [] => Some (r, [])
  | (now, ev) :: evs =>
      match relay_step sid stream_idle_timeout r now ev with
      | Some (r', effs) =>
          match relay_run r' evs with
          | Some (r'', effs') => Some (r'', effs ++ effs')
          | None => None
          end
      | None => None
      end
  end.

Definition read_of (ev : relay_event) : bytes :=
  match ev with OnRead (Ok bs) => bs | _ => [] end.
Definition inbound_of (ev : relay_event) : list Frame :=
  match ev with OnInbound (Some f) => [f] | _ => [] end.
Definition written_of (e : effect) : bytes := match e with Written bs => bs | _ => [] end.
Definition queued_of (e : effect) : list Frame := match e with DataQueued f => [f] | _ => [] end.
Definition closes (e : effect) : bool := match e with WriteClosed => true | _ => false end.

(** Bytes read from the socket, frames handed to the DATA queue, frames taken
    from the inbound queue, bytes written to the socket, write half closed. *)
Record account : Type := MkAccount {
  a_read : bytes; a_queued : list Frame; a_inbound : list Frame; a_written : bytes; a_closed : bool
}.
Definition add_step (a : account) (ev : relay_event) (effs : list effect) : account :=
  MkAccount (a_read a ++ read_of ev) (a_queued a ++ (effs ≫= queued_of))
    (a_inbound a ++ inbound_of ev) (a_written a ++ (effs ≫= written_of))
    (a_closed a || existsb closes effs).

(** The receiving direction while the peer has not ended, and after. *)
Definition receiving (a : account) (agent_ended : bool) : Prop :=
  a_written a = body (a_inbound a) ∧ a_closed a = agent_ended ∧
  if agent_ended then ends (a_inbound a) = true else Forall is_data (a_inbound a).

(** What holds whatever became of the stream. *)
Record safe (a : account) : Prop := {
  safe_queued : ∃ bs ended, half sid bs ended (a_queued a) ∧ bs `prefix_of` a_read a ∧
    (ended = true → bs = a_read a);
  safe_written : a_written a `prefix_of` body (a_inbound a);
  safe_closed : a_closed a = true → ends (a_inbound a) = true ∧ a_written a = body (a_inbound a)
}.

Definition relay_inv (r : relay) (a : account) : Prop :=
  match relay_at r with
  | RelaySelect ie ae =>
      half sid (a_read a) ie (a_queued a) ∧ receiving a ae
  | RelayWriting p ie =>
      half sid (a_read a) ie (a_queued a) ∧
      ∃ f fs, a_inbound a = fs ++ [f] ∧ is_data f ∧ payload f = p ∧ Forall is_data fs ∧
              a_written a = body fs ∧ a_closed a = false
  | RelayShutting ie =>
      half sid (a_read a) ie (a_queued a) ∧ ends (a_inbound a) = true ∧
      a_written a = body (a_inbound a) ∧ a_closed a = false
  | RelaySending f ie ae =>
      receiving a ae ∧
      half sid (a_read a) ie (a_queued a ++ [f])
  | RelayResetting _ reason => safe a ∧ reason ≠ ClosedGraceful
  | RelayStopped reason =>
      safe a ∧
      (reason = ClosedGraceful →
         half sid (a_read a) true (a_queued a) ∧ receiving a true)
  end.

Lemma half_unsent bs ended fs f :
  half sid bs ended (fs ++ [f]) → ∃ bs', half sid bs' false fs ∧ bs' `prefix_of` bs.
Proof.
  intros [(chunks & <- & Hok & Heq)]. destruct ended.
  - apply app_inj_2 in Heq as [-> _]; [|done]. exists (mjoin chunks).
    split; [|done]. split. exists chunks. rewrite app_nil_r. done.
  - rewrite app_nil_r in Heq. destruct chunks as [|c chunks _] using rev_ind; [by destruct fs|].
    rewrite fmap_app in Heq. apply app_inj_2 in Heq as [-> _]; [|done].
    apply Forall_app in Hok as [Hok _]. exists (mjoin chunks). split.
    + split. exists chunks. rewrite app_nil_r. done.
    + rewrite join_app. by apply prefix_app_r.
Qed.

Lemma safe_half bs ended a :
  half sid bs ended (a_queued a) → bs `prefix_of` a_read a → (ended = true → bs = a_read a) →
  a_written a `prefix_of` body (a_inbound a) →
  (a_closed a = true → ends (a_inbound a) = true ∧ a_written a = body (a_inbound a)) →
  safe a.
Proof. intros. split; eauto 6. Qed.

Lemma receiving_safe bs ended a ae :
  half sid bs ended (a_queued a) → bs `prefix_of` a_read a → (ended = true → bs = a_read a) →
  receiving a ae → safe a.
Proof.
  intros Hh Hp Hend (Hw & Hc & He). apply (safe_half bs ended); [done|done|done|by rewrite Hw|].
  rewrite Hc. intros ->. done.
Qed.

Lemma relay_inv_safe r a : relay_inv r a → safe a.
Proof.
  unfold relay_inv. destruct (relay_at r) as [ie ae|p ie|ie|f ie ae|f reason|reason].
  - intros [Hh Hr]. by apply (receiving_safe (a_read a) ie _ ae).
  - intros (Hh & f & fs & HI & Hf & _ & Hfs & Hw & Hc).
    eapply safe_half; [done|done|done| |by rewrite Hc].
    rewrite Hw, HI. apply body_prefix.
  - intros (Hh & He & Hw & Hc). eapply safe_half; [done|done|done|by rewrite Hw|by rewrite Hc].
  - intros [Hr Hh]. destruct (half_unsent _ _ _ _ Hh) as (bs & Hh' & Hp).
    by apply (receiving_safe bs false _ ae).
  - by intros [].
  - by intros [].
Qed.

(** More input never makes a safe account unsafe. *)
Lemma safe_more a ev : read_of ev = [] → safe a → safe (add_step a ev []).
Proof.
  intros Hread [(bs & ended & Hh & Hp & Hend) Hw Hc].
  apply (safe_half bs ended); cbn; rewrite ?Hread, ?app_nil_r.
  - done.
  - done.
  - done.
  - etrans; [exact Hw|]. apply body_prefix.
  - rewrite orb_false_r. intros [He Hb]%Hc.
    destruct (body_ended _ (inbound_of ev) He) as [-> ->]. done.
Qed.

Lemma relay_reset_inv code reason deadline a :
  safe a → reason ≠ ClosedGraceful → relay_inv (relay_reset sid code reason deadline) a.
Proof. intros Hs Hr. unfold relay_inv, relay_reset. by destruct (reset_frame sid code). Qed.

Lemma relay_loop_inv ie ae deadline a :
  half sid (a_read a) ie (a_queued a) → receiving a ae → relay_inv (relay_loop ie ae deadline) a.
Proof.
  intros Hh Hr. unfold relay_inv, relay_loop. cbn. destruct ie, ae; cbn; try done.
  split; [by apply (receiving_safe (a_read a) true _ true)|done].
Qed.

Lemma relay_inbound_inv ie ae f deadline a :
  half sid (a_read a) ie (a_queued a) → receiving a ae →
  relay_inv (relay_inbound sid ie ae f deadline) (add_step a (OnInbound (Some f)) []).
Proof.
  intros Hh Hr. pose proof Hr as (Hw & Hc & He).
  assert (safe (add_step a (OnInbound (Some f)) [])) as Hs
    by (apply safe_more; [done|]; by apply (receiving_safe (a_read a) ie _ ae)).
  assert (relay_inv (relay_reset sid ProtocolViolation ClosedProtocolViolation deadline)
            (add_step a (OnInbound (Some f)) [])) as Hviol by by apply relay_reset_inv.
  unfold relay_inbound. destruct (frame_type f) eqn:Hft; try exact Hviol.
  - destruct ae; [exact Hviol|]. unfold relay_inv. cbn. rewrite !app_nil_r, orb_false_r.
    split; [done|]. exists f, (a_inbound a). done.
  - case_bool_decide as Hp; [|exact Hviol]. destruct ae; [exact Hviol|].
    unfold relay_inv. cbn. rewrite !app_nil_r, orb_false_r.
    rewrite ends_app, body_app by done. cbn. rewrite Hft. cbn.
    rewrite bool_decide_true, app_nil_r by done. done.
  - destruct (decode_reset f) as [code|]; [|exact Hviol]. by split.
Qed.

Lemma Frame_stream_Ok ft p f : Frame_stream sid ft p = Ok f → f = MkFrame ft 0 sid p.
Proof. intros [? _]%Frame_new_Ok. done. Qed.

Lemma relay_step_inv r now ev r' effs a :
  relay_inv r a → relay_step sid stream_idle_timeout r now ev = Some (r', effs) →
  relay_inv r' (add_step a ev effs).
Proof.
  intros Hinv Hs. pose proof (relay_inv_safe _ _ Hinv) as Hsafe.
  pose proof (λ Hread, safe_more a ev Hread Hsafe) as Hmore.
  unfold relay_step in Hs. unfold relay_inv in Hinv.
  destruct (relay_at r) as [ie ae|p ie|ie|f ie ae|f reason|reason] eqn:Hat; [| | | | |done].
  - destruct Hinv as [Hh Hr]. destruct ev as [[f|]|[[|b bs]|e]| |w|ok|ok|ok]; simplify_eq.
    + by apply relay_inbound_inv.
    + by split; [apply Hmore|].
    + destruct ie; simplify_eq. unfold relay_send.
      destruct (Frame_stream sid EndStream []) as [f|] eqn:Hf; [|by split; [apply Hmore|]].
      apply Frame_stream_Ok in Hf as ->. unfold relay_inv, receiving; cbn.
      rewrite !app_nil_r, orb_false_r. split; [done|]. by apply half_end.
    + destruct ie; [done|]. destruct (Z.leb_spec (zlen (b :: bs)) MULTIPLEXED_DATA_PAYLOAD_SIZE);
        simplify_eq. unfold relay_send.
      destruct (Frame_stream sid DataFrame (b :: bs)) as [f|] eqn:Hf.
      2:{ split; [|done]. destruct Hr as (Hw & Hc & He).
          apply (safe_half (a_read a) false); cbn; rewrite ?app_nil_r, ?orb_false_r;
            [done|by apply prefix_app_r|done|by rewrite Hw|by rewrite Hc; intros ->]. }
      apply Frame_stream_Ok in Hf as ->. unfold relay_inv, receiving; cbn -[zlen].
      rewrite !app_nil_r, orb_false_r. split; [done|]. by apply half_data.
    + destruct ie; simplify_eq. by apply relay_reset_inv; [apply Hmore|].
    + case_match; simplify_eq. by apply relay_reset_inv; [apply Hmore|].
  - destruct Hinv as (Hh & f & fs & HI & Hf & Hp & Hfs & Hw & Hc).
    destruct ev as [| | |[|n]| | |]; simplify_eq.
    + apply relay_loop_inv; cbn; rewrite ?app_nil_r; [done|].
      unfold receiving; cbn. rewrite Hw, Hc, HI, !app_nil_r. rewrite body_app by done.
      cbn. rewrite decide_True by done. rewrite app_nil_r. split_and!; [done|done|].
      apply Forall_app; split; [done|by constructor].
    + apply relay_reset_inv; [|done].
      apply (safe_half (a_read a) ie); cbn; rewrite ?app_nil_r; [done|done|done| |by rewrite Hc].
      rewrite Hw, HI, body_app by done. cbn. rewrite decide_True, app_nil_r by done.
      apply prefix_app, prefix_take.
  - destruct Hinv as (Hh & He & Hw & Hc). destruct ev as [| | | |[]| |]; simplify_eq.
    + apply relay_loop_inv; cbn; rewrite ?app_nil_r; [done|].
      unfold receiving; cbn. rewrite Hc, !app_nil_r. done.
    + by apply relay_reset_inv; [apply Hmore|].
  - destruct Hinv as (Hr & Hh). destruct ev as [| | | | |[]|]; simplify_eq.
    + apply relay_loop_inv; cbn; rewrite ?app_nil_r; [done|].
      unfold receiving in *; cbn. by rewrite orb_false_r, !app_nil_r.
    + by split; [apply Hmore|].
  - destruct Hinv as [_ Hreason]. destruct ev as [| | | | | |ok]; simplify_eq.
    split; [|done]. destruct ok; by apply Hmore.
Qed.

Definition account_of (a : account) (evs : list (Z * relay_event)) (effs : list effect) : account :=
  MkAccount (a_read a ++ (evs ≫= λ p, read_of p.2)) (a_queued a ++ (effs ≫= queued_of))
    (a_inbound a ++ (evs ≫= λ p, inbound_of p.2)) (a_written a ++ (effs ≫= written_of))
    (a_closed a || existsb closes effs).

Lemma relay_run_inv r evs r' effs a :
  relay_inv r a → relay_run r evs = Some (r', effs) → relay_inv r' (account_of a evs effs).
Proof.
  revert r a effs. induction evs as [|[now ev] evs IH]; intros r a effs Hinv Hr; simplify_eq/=.
  - unfold account_of. cbn. rewrite !app_nil_r, orb_false_r. by destruct a.
  - destruct (relay_step sid stream_idle_timeout r now ev) as [[r1 e1]|] eqn:Hs; [|done].
    destruct (relay_run r1 evs) as [[r2 e2]|] eqn:Hr2; simplify_eq.
    pose proof (IH r1 _ _ (relay_step_inv _ _ _ _ _ _ Hinv Hs) Hr2) as Hi.
    unfold account_of, add_step in *. cbn in Hi.
    rewrite !bind_app, existsb_app, !app_assoc, orb_assoc. cbn. by rewrite !app_assoc.
Qed.
End relay_account.

(** ** The two relay loops *)

Definition forget (r : relay) : local_relay :=
  MkLocalRelay
    (match relay_at r with
     | RelaySelect ie ae => LocalSelect ie ae
     | RelayWriting p ie => LocalWriting p ie
     | RelayShutting ie => LocalShutting ie
     | RelaySending f ie ae => LocalSending f ie ae
     | RelayResetting f _ => LocalResetting f
     | RelayStopped _ => LocalStopped
     end) (idle_deadline r).

Lemma forget_reset sid code reason deadline :
  forget (relay_reset sid code reason deadline) = local_reset sid code deadline.
Proof. unfold relay_reset, local_reset, forget. by destruct (reset_frame sid code). Qed.
Lemma forget_send sid ft p ie ae deadline :
  forget (relay_send sid ft p ie ae deadline) = local_send sid ft p ie ae deadline.
Proof. unfold relay_send, local_send, forget. by destruct (Frame_stream sid ft p). Qed.
Lemma forget_loop ie ae deadline : forget (relay_loop ie ae deadline) = local_loop ie ae deadline.
Proof. by destruct ie, ae. Qed.
Lemma forget_inbound sid ie ae f deadline :
  forget (relay_inbound sid ie ae f deadline) = local_inbound sid ie ae f deadline.
Proof.
  unfold relay_inbound, local_inbound. destruct (frame_type f); try apply forget_reset.
  - destruct ae; [apply forget_reset|done].
  - case_bool_decide; destruct ae; done || apply forget_reset.
  - destruct (decode_reset f); [done|apply forget_reset].
Qed.

Lemma forget_step sid timeout r now ev :
  local_relay_step sid timeout (forget r) now ev
  = (λ p, (forget p.1, p.2)) <$> relay_step sid timeout r now ev.
Proof.
  unfold local_relay_step, relay_step. destruct r as [at_ deadline]; cbn.
  destruct at_ as [ie ae|p ie|ie|f ie ae|f reason|reason],
    ev as [[fr|]|[[|b bs]|e]| |[|n]|[]|[]|ok]; cbn -[zlen]; try done;
    try (destruct ie; [done|]); cbn -[zlen]; try case_match; cbn -[zlen];
    by rewrite ?forget_reset, ?forget_send, ?forget_loop, ?forget_inbound.
Qed.

(** ** Lifecycle of the Edge task *)

Definition lifecycle_of (e : effect) : list effect :=
  match e with Respond _ | Complete _ | NotifyClosed _ => [e] | _ => [] end.
Definition lifecycle (effs : list effect) : list effect := effs ≫= lifecycle_of.

Definition empty_account : account := MkAccount [] [] [] [] false.

(** The account of a task: its relay events, and all its effects. *)
Definition tally_events (a : account) (evs : list relay_event) (effs : list effect) : account :=
  MkAccount (a_read a ++ (evs ≫= read_of)) (a_queued a ++ (effs ≫= queued_of))
    (a_inbound a ++ (evs ≫= inbound_of)) (a_written a ++ (effs ≫= written_of))
    (a_closed a || existsb closes effs).

Lemma tally_app a evs evs' effs effs' :
  tally_events (tally_events a evs effs) evs' effs' = tally_events a (evs ++ evs') (effs ++ effs').
Proof.
  unfold tally_events. cbn. by rewrite !bind_app, existsb_app, !app_assoc, orb_assoc.
Qed.

Lemma tally_one a ev effs : tally_events a [ev] effs = add_step a ev effs.
Proof. unfold tally_events, add_step. cbn. by rewrite !app_nil_r. Qed.

(** Effects that move no stream data. *)
Definition inert (e : effect) : bool :=
  match e with Written _ | WriteClosed | DataQueued _ => false | _ => true end.

Lemma tally_inert a effs : forallb inert effs = true → tally_events a [] effs = a.
Proof.
  intros Hi. assert (effs ≫= queued_of = [] ∧ effs ≫= written_of = [] ∧ existsb closes effs = false)
    as (H1 & H2 & H3).
  { induction effs as [|e effs IH]; [done|]. cbn in *. by destruct e; try apply IH. }
  unfold tally_events. rewrite H1, H2, H3. cbn. rewrite !app_nil_r, orb_false_r. by destruct a.
Qed.

Definition relay_event_of (ev : ingress_event) : list relay_event :=
  match ev with OnRelay ev => [ev] | _ => [] end.

Section ingress_life.
Context (session_id : TransportSessionId) (sid : StreamId).
Context (stream_open_timeout stream_idle_timeout : Z).

(** A finished stream: answered once, completed once; graceful completion
    means that both directions were carried to their end, a failed open that
    nothing was carried. *)
Record outcome (a : account) (resp : Result RouteError StreamId)
    (reason : RoutedStreamCloseReason) : Prop := {
  out_safe : safe sid a;
  out_resp x : resp = Ok x → x = sid;
  out_err e : resp = Err e → a = empty_account;
  out_graceful : reason = ClosedGraceful →
    resp = Ok sid ∧ half sid (a_read a) true (a_queued a) ∧ receiving a true
}.

Definition ingress_inv (pc : ingress_pc) (a : account) (life : list effect) : Prop :=
  match pc with
  | IngressAnnounce _ | IngressAwaitOpen _ => a = empty_account ∧ life = []
  | IngressRejecting _ reason =>
      a = empty_account ∧ (∃ e, life = [Respond (Err e)]) ∧ reason ≠ ClosedGraceful
  | IngressRelay r => relay_inv sid r a ∧ life = [Respond (Ok sid)]
  | IngressNotify => ∃ resp reason, outcome a resp reason ∧ life = [Respond resp; Complete reason]
  | IngressDone =>
      ∃ resp reason, outcome a resp reason ∧
        life = [Respond resp; Complete reason; NotifyClosed sid]
  end.

Lemma empty_safe : safe sid empty_account.
Proof. apply (safe_half sid [] false); cbn; [apply half_nil|done|done|done|done]. Qed.

Lemma empty_outcome e reason : reason ≠ ClosedGraceful → outcome empty_account (Err e) reason.
Proof. intros Hr. split; [apply empty_safe|done|done|done]. Qed.

Lemma lifecycle_app l k : lifecycle (l ++ k) = lifecycle l ++ lifecycle k.
Proof. apply bind_app. Qed.

Lemma relay_step_life r now ev r' effs :
  relay_step sid stream_idle_timeout r now ev = Some (r', effs) → lifecycle effs = [].
Proof. unfold relay_step. intros Hs. by repeat case_match; simplify_eq. Qed.

Lemma ingress_reject_inv e code reason :
  reason ≠ ClosedGraceful →
  ingress_inv (ingress_reject sid e code reason).1 empty_account
    (lifecycle (ingress_reject sid e code reason).2) ∧
  forallb inert (ingress_reject sid e code reason).2 = true.
Proof.
  intros Hr. unfold ingress_reject. destruct (reset_frame sid code); (split; [|done]); cbn.
  - split_and!; [done|eauto|done].
  - exists (Err e), reason. split; [by apply empty_outcome|done].
Qed.

Lemma ingress_step_inv pc now ev pc' effs a life :
  ingress_inv pc a life →
  ingress_step session_id sid stream_open_timeout stream_idle_timeout pc now ev
    = Some (pc', effs) →
  ingress_inv pc' (tally_events a (relay_event_of ev) effs) (life ++ lifecycle effs).
Proof.
  intros Hinv Hs. unfold ingress_step in Hs.
  destruct pc as [f|deadline|f reason|r| |]; [| | | | |by destruct ev].
  - destruct Hinv as [-> ->]. destruct ev as [[]| | | | |]; simplify_eq; [done|].
    cbn. eexists _, _. split; [|reflexivity]; by apply empty_outcome.
  - destruct Hinv as [-> ->]. destruct ev as [|o| | | |]; simplify_eq.
    + unfold ingress_opened in *. destruct o as [frame|]; simplify_eq/=.
      * case_decide as Hopen; simplify_eq/=.
        { split; [|done]. apply relay_loop_inv; [apply half_nil|]. done. }
        case_decide; simplify_eq/=.
        { eexists _, _. split; [|reflexivity]; by apply empty_outcome. }
        pose proof (ingress_reject_inv (StreamRejected ProtocolViolation) ProtocolViolation
                      ClosedProtocolViolation ltac:(done)) as [Hrej Hin].
        destruct (ingress_reject _ _ _ _) as [pc1 effs1]; simplify_eq. by rewrite tally_inert.
      * eexists _, _. split; [|reflexivity]; by apply empty_outcome.
    + case_match; [|done].
      pose proof (ingress_reject_inv (RouteOpenTimeout sid) OpenTimeout ClosedOpenTimeout
                    ltac:(done)) as [Hrej Hin].
      destruct (ingress_reject _ _ _ _) as [pc1 effs1]; simplify_eq. by rewrite tally_inert.
  - destruct Hinv as (-> & (e & ->) & Hr). destruct ev as [| | | |ok|]; simplify_eq/=.
    exists (Err e), reason. destruct ok; (split; [by apply empty_outcome|done]).
  - destruct Hinv as (Hrel & ->). destruct ev as [| | |ev| |]; simplify_eq.
    destruct (relay_step _ _ r now ev) as [[r' effs1]|] eqn:Hstep; [|done].
    pose proof (relay_step_inv _ _ _ _ _ _ _ _ Hrel Hstep) as Hrel'.
    pose proof (relay_step_life _ _ _ _ _ Hstep) as Hlife.
    assert (∀ x, add_step a ev (effs1 ++ [Complete x]) = add_step a ev effs1) as Hadd.
    { intros x. unfold add_step. rewrite !bind_app, existsb_app. cbn.
      by rewrite !app_nil_r, orb_false_r. }
    unfold ingress_relayed in Hs. cbn [relay_event_of]. rewrite tally_one.
    destruct (relay_at r') eqn:Hat; simplify_eq/=;
      rewrite ?app_nil_r, ?lifecycle_app, ?Hlife, ?Hadd; try (split; [done|done]).
    exists (Ok sid), reason. split; [|done].
    unfold relay_inv in Hrel'. rewrite Hat in Hrel'. destruct Hrel' as [Hsafe Hgr].
    split; [done|by intros x [= <-]|done|]. intros Hg. by destruct (Hgr Hg).
  - destruct Hinv as (resp & reason & Hout & ->). destruct ev; simplify_eq.
    exists resp, reason. by rewrite tally_inert.
Qed.

Lemma ingress_run_inv pc evs pc' effs a life :
  ingress_inv pc a life →
  ingress_run session_id sid stream_open_timeout stream_idle_timeout pc evs = Some (pc', effs) →
  ingress_inv pc' (tally_events a (evs ≫= λ p, relay_event_of p.2) effs) (life ++ lifecycle effs).
Proof.
  revert pc a life effs.
  induction evs as [|[now ev] evs IH]; intros pc a life effs Hinv Hr; simplify_eq/=.
  { rewrite tally_inert, app_nil_r by done. done. }
  destruct (ingress_step _ _ _ _ pc now ev) as [[pc1 e1]|] eqn:Hs; [|done].
  destruct (ingress_run _ _ _ _ pc1 evs) as [[pc2 e2]|] eqn:Hr2; simplify_eq.
  rewrite lifecycle_app, app_assoc, <-tally_app. eapply IH; [|done]. by eapply ingress_step_inv.
Qed.

Lemma ingress_start_inv :
  ingress_inv (ingress_start session_id sid).1 empty_account
    (lifecycle (ingress_start session_id sid).2) ∧
  forallb inert (ingress_start session_id sid).2 = true.
Proof.
  unfold ingress_start. destruct (Frame_stream sid OpenStream []); [done|]. split; [|done].
  cbn. eexists _, _. split; [|reflexivity]; by apply empty_outcome.
Qed.
End ingress_life.

(** ** Lifecycle of the Agent task *)

Definition local_event_of (ev : local_event) : list relay_event :=
  match ev with OnLocalRelay ev => [ev] | _ => [] end.

Section local_life.
Context (sid : StreamId) (stream_idle_timeout : Z).

Definition local_inv (pc : local_pc) (a : account) (life : list effect) : Prop :=
  match pc with
  | LocalConnecting | LocalRejecting _ | LocalAcking _ => a = empty_account ∧ life = []
  | LocalRelay r => (∃ r', forget r' = r ∧ relay_inv sid r' a) ∧ life = []
  | LocalNotify => safe sid a ∧ life = []
  | LocalDone => safe sid a ∧ life = [NotifyClosed sid]
  end.

Lemma local_reject_inv code : local_inv (local_reject sid code) empty_account [].
Proof. unfold local_reject. destruct (reset_frame sid code); [done|]. split; [apply empty_safe|done]. Qed.

Lemma local_step_inv pc now ev pc' effs a life :
  local_inv pc a life → local_step sid stream_idle_timeout pc now ev = Some (pc', effs) →
  local_inv pc' (tally_events a (local_event_of ev) effs) (life ++ lifecycle effs).
Proof.
  intros Hinv Hs. pose proof (empty_safe sid) as He. unfold local_step in Hs.
  destruct pc as [|f|f|r| |]; [| | | | |by destruct ev].
  - destruct Hinv as [-> ->]. destruct ev as [c|o| | | |]; simplify_eq; rewrite tally_inert by done.
    + destruct c; [|apply local_reject_inv..]. unfold local_connected.
      by destruct (Frame_stream sid OpenStream []).
    + destruct o as [frame|]; [|done]. unfold local_early.
      case_match; [apply local_reject_inv|done].
  - destruct Hinv as [-> ->]. destruct ev as [| | | |ok|]; simplify_eq. by destruct ok.
  - destruct Hinv as [-> ->]. destruct ev as [| |[]| | |]; simplify_eq; [|done].
    split; [|done]. exists (relay_loop false false (now + stream_idle_timeout)). split; [done|].
    apply relay_loop_inv; [apply half_nil|done].
  - destruct Hinv as ((r0 & <- & Hrel) & ->). destruct ev as [| | |ev| |]; simplify_eq.
    rewrite forget_step in Hs.
    destruct (relay_step sid stream_idle_timeout r0 now ev) as [[r' effs1]|] eqn:Hstep; simplify_eq/=.
    pose proof (relay_step_inv _ _ _ _ _ _ _ _ Hrel Hstep) as Hrel'.
    rewrite (relay_step_life _ _ _ _ _ _ _ Hstep). change [ev] with ([ev] ++ []).
    rewrite app_nil_r, tally_one. unfold local_relayed.
    destruct (local_at (forget r')) eqn:Hat; try (split; [by exists r'|done]).
    split; [by eapply relay_inv_safe|done].
  - destruct Hinv as (Hsafe & ->). destruct ev; simplify_eq. by rewrite tally_inert.
Qed.

Lemma local_run_inv pc evs pc' effs a life :
  local_inv pc a life → local_run sid stream_idle_timeout pc evs = Some (pc', effs) →
  local_inv pc' (tally_events a (evs ≫= λ p, local_event_of p.2) effs) (life ++ lifecycle effs).
Proof.
  revert pc a life effs.
  induction evs as [|[now ev] evs IH]; intros pc a life effs Hinv Hr; simplify_eq/=.
  { rewrite tally_inert, app_nil_r by done. done. }
  destruct (local_step _ _ pc now ev) as [[pc1 e1]|] eqn:Hs; [|done].
  destruct (local_run _ _ pc1 evs) as [[pc2 e2]|] eqn:Hr2; simplify_eq.
  rewrite lifecycle_app, app_assoc, <-tally_app. eapply IH; [|done]. by eapply local_step_inv.
Qed.
End local_life.

(** ** The idle deadline *)

Definition progress (ev : relay_event) : bool :=
  match ev with OnInbound (Some _) | OnRead (Ok (_ :: _)) => true | _ => false end.

(** The deadline after the events, when it was [deadline] before. *)
Definition next_deadline (timeout deadline : Z) (p : Z * relay_event) : Z :=
  if progress p.2 then p.1 + timeout else deadline.

Section idle.
Context (sid : StreamId) (timeout : Z).

Lemma relay_reset_deadline code reason d : idle_deadline (relay_reset sid code reason d) = d.
Proof. done. Qed.

Lemma relay_step_deadline r now ev r' effs :
  relay_step sid timeout r now ev = Some (r', effs) →
  idle_deadline r' = next_deadline timeout (idle_deadline r) (now, ev).
Proof.
  unfold relay_step, next_deadline. intros Hs.
  destruct (relay_at r) as [ie ae|p ie|ie|f ie ae|f reason|reason],
    ev as [[fr|]|[[|b bs]|e]| |[|n]|[]|[]|ok]; simplify_eq; try done;
    repeat case_match; simplify_eq/=; try done.
  unfold relay_inbound. by repeat case_match.
Qed.

(** A stream about to end, or ended, for idleness. *)
Definition idled (r : relay) : bool :=
  match relay_at r with
  | RelayResetting _ ClosedIdleTimeout | RelayStopped ClosedIdleTimeout => true
  | _ => false
  end.

Lemma relay_step_idled r now ev r' effs :
  relay_step sid timeout r now ev = Some (r', effs) → idled r' = true →
  idled r = true ∨ (ev = OnIdle ∧ idle_deadline r ≤ now).
Proof.
  unfold relay_step, idled. intros Hs Hi.
  destruct (relay_at r) as [ie ae|p ie|ie|f ie ae|f reason|reason],
    ev as [[fr|]|[[|b bs]|e]| |[|n]|[]|[]|ok]; simplify_eq; try done;
    unfold relay_inbound, relay_send, relay_reset, relay_loop in *;
    repeat case_match; simplify_eq/=; try done; try (by left);
    (right; split; [done|by apply Z.leb_le]).
Qed.

Lemma relay_run_idled r evs r' effs :
  relay_run sid timeout r evs = Some (r', effs) → idled r = false → idled r' = true →
  ∃ pre now post, evs = pre ++ (now, OnIdle) :: post ∧
    foldl (next_deadline timeout) (idle_deadline r) pre ≤ now.
Proof.
  revert r effs. induction evs as [|[now ev] evs IH]; intros r effs Hr Hi Hi'; simplify_eq/=;
    [congruence|].
  destruct (relay_step sid timeout r now ev) as [[r1 e1]|] eqn:Hs; [|done].
  destruct (relay_run sid timeout r1 evs) as [[r2 e2]|] eqn:Hr2; simplify_eq.
  destruct (idled r1) eqn:Hi1.
  - destruct (relay_step_idled _ _ _ _ _ Hs Hi1) as [?|[-> Hle]]; [congruence|].
    exists [], now, evs. done.
  - destruct (IH r1 e2 Hr2 Hi1 Hi') as (pre & now' & post & -> & Hle).
    exists ((now, ev) :: pre), now', post. split; [done|].
    cbn. by rewrite <-(relay_step_deadline _ _ _ _ _ Hs).
Qed.

(** With a clock that does not run backwards the deadline is at least
    [timeout] after every progress so far. *)
Lemma deadline_after pre d t ev now :
  foldl (next_deadline timeout) d pre ≤ now →
  StronglySorted (λ p q : Z * relay_event, p.1 ≤ q.1) pre →
  (t, ev) ∈ pre → progress ev = true → t + timeout ≤ now.
Proof.
  revert d. induction pre as [|p pre IH] using rev_ind; intros d Hle Hsort Hin Hp; [set_solver|].
  rewrite foldl_app in Hle. cbn in Hle. apply elem_of_app in Hin as [Hin|Heq].
  - assert (t ≤ p.1) as Ht.
    { by apply (StronglySorted_app_1_elem_of _ _ _ (t, ev) p Hsort); [|left]. }
    apply StronglySorted_app_1_l in Hsort.
    unfold next_deadline at 1 in Hle. case_match; [lia|]. by eapply IH.
  - apply list_elem_of_singleton in Heq as <-. unfold next_deadline at 1 in Hle. cbn in Hle.
    by rewrite Hp in Hle.
Qed.
End idle.

(** ** Theorems *)

Lemma ingress_stream_accounts session_id sid open_timeout idle_timeout evs pc effs :
  run_ingress_stream session_id sid open_timeout idle_timeout evs = Some (pc, effs) →
  let a := tally_events empty_account (evs ≫= λ p, relay_event_of p.2) effs in
  safe sid a ∧
  (pc = IngressDone → ∃ resp reason,
     lifecycle effs = [Respond resp; Complete reason; NotifyClosed sid] ∧
     outcome sid a resp reason).
Proof.
  unfold run_ingress_stream. intros Hr.
  destruct (ingress_run _ _ _ _ _ evs) as [[pc1 effs1]|] eqn:Hrun; simplify_eq.
  destruct (ingress_start_inv session_id sid) as [Hinv Hin].
  pose proof (ingress_run_inv _ _ _ _ _ _ _ _ _ _ Hinv Hrun) as Hi.
  replace (tally_events empty_account (evs ≫= λ p, relay_event_of p.2)
             ((ingress_start session_id sid).2 ++ effs1))
    with (tally_events empty_account (evs ≫= λ p, relay_event_of p.2) effs1).
  2:{ rewrite <-(app_nil_l (evs ≫= _)), <-tally_app, tally_inert by done. by rewrite app_nil_l. }
  rewrite lifecycle_app. set (a := tally_events _ _ effs1) in *. cbn zeta.
  split.
  - pose proof (empty_safe sid) as He. destruct pc; cbn in Hi.
    + by destruct Hi as [-> _].
    + by destruct Hi as [-> _].
    + by destruct Hi as [-> _].
    + destruct Hi as [Hi _]. by eapply relay_inv_safe.
    + destruct Hi as (? & ? & [] & _). done.
    + destruct Hi as (? & ? & [] & _). done.
  - intros ->. destruct Hi as (resp & reason & Hout & Hl). eauto.
Qed.

(** C23. The Edge side of a stream, for every sequence of answers from the
    channels, the sockets and the timers.  At any time, the frames in the DATA
    queue are the chunks of a prefix of what was read from the visitor
    followed by at most one END, which means all of it; what was written to the
    visitor is a prefix
    of the DATA received; and its write half is closed only after a proper END
    and with all of that DATA written.  When the task is done it has answered
    the opener exactly once, then completed exactly once, then released its
    slot; a failed open carried no byte; and a graceful completion means that
    both directions were carried to their end, without loss. *)
Theorem ingress_stream_outcome session_id sid open_timeout idle_timeout evs pc effs :
  run_ingress_stream session_id sid open_timeout idle_timeout evs = Some (pc, effs) →
  let a := tally_events empty_account (evs ≫= λ p, relay_event_of p.2) effs in
  safe sid a ∧
  (pc = IngressDone → ∃ resp reason,
     lifecycle effs = [Respond resp; Complete reason; NotifyClosed sid] ∧
     outcome sid a resp reason).
Proof. apply ingress_stream_accounts. Qed.

Lemma local_stream_accounts sid idle_timeout evs pc effs :
  run_local_stream sid idle_timeout evs = Some (pc, effs) →
  safe sid (tally_events empty_account (evs ≫= λ p, local_event_of p.2) effs) ∧
  lifecycle effs = (if pc is LocalDone then [NotifyClosed sid] else []).
Proof.
  intros Hr. assert (local_inv sid LocalConnecting empty_account []) as Hinv by done.
  pose proof (local_run_inv _ _ _ _ _ _ _ _ Hinv Hr) as Hi. cbn [app] in Hi.
  set (a := tally_events _ _ _) in *. pose proof (empty_safe sid) as He.
  destruct pc; cbn in Hi.
  - by destruct Hi as [-> ->].
  - by destruct Hi as [-> ->].
  - by destruct Hi as [-> ->].
  - destruct Hi as [(r' & _ & Hrel) ->]. split; [by eapply relay_inv_safe|done].
  - by destruct Hi.
  - by destruct Hi.
Qed.

(** C30. The Agent side of a stream keeps the same promise towards the local
    service, and releases its slot exactly once, as its last effect. *)
Theorem local_stream_safe sid idle_timeout evs pc effs :
  run_local_stream sid idle_timeout evs = Some (pc, effs) →
  safe sid (tally_events empty_account (evs ≫= λ p, local_event_of p.2) effs) ∧
  lifecycle effs = (if pc is LocalDone then [NotifyClosed sid] else []).
Proof. apply local_stream_accounts. Qed.

(** C31. The two relay loops are the same machine: the Agent's loop makes, on
    every event, the step of the Edge's loop with the close reason erased, and
    has the same effects. *)
Theorem relay_loops_agree sid timeout r now ev :
  local_relay_step sid timeout (forget r) now ev
  = (λ p, (forget p.1, p.2)) <$> relay_step sid timeout r now ev.
Proof. apply forget_step. Qed.

(** A stream is closed as idle only when it was: with a clock that does
    not run backwards, a relay that ends with [ClosedIdleTimeout] did so on
    the timer, at an instant at least [timeout] after its start and after
    every inbound frame and every non-empty read before that instant. *)
Theorem idle_timeout_exact sid timeout start evs r' effs :
  relay_run sid timeout (relay_loop false false (start + timeout)) evs = Some (r', effs) →
  relay_at r' = RelayStopped ClosedIdleTimeout →
  StronglySorted (λ p q : Z * relay_event, p.1 ≤ q.1) ((start, OnIdle) :: evs) →
  ∃ pre now post, evs = pre ++ (now, OnIdle) :: post ∧ start + timeout ≤ now ∧
    ∀ t ev, (t, ev) ∈ pre → progress ev = true → t + timeout ≤ now.
Proof.
  intros Hr Hat Hsort.
  destruct (relay_run_idled sid timeout _ _ _ _ Hr) as (pre & now & post & -> & Hle);
    [done|by unfold idled; rewrite Hat|].
  exists pre, now, post. split; [done|].
  apply StronglySorted_cons in Hsort as [Hall Hsort].
  apply StronglySorted_app_1_l in Hsort as Hpre.
  split; [|by intros t ev; eapply deadline_after].
  revert Hle. cbn [relay_loop idle_deadline andb].
  assert (∀ p, p ∈ pre → start ≤ p.1) as Hstart.
  { intros p Hp. rewrite Forall_forall in Hall. apply (Hall p). set_solver. }
  clear -Hstart. revert Hstart.
  assert (∀ d, start + timeout ≤ d → (∀ p, p ∈ pre → start ≤ p.1) →
            start + timeout ≤ foldl (next_deadline timeout) d pre) as Hgen.
  { induction pre as [|p pre IH]; intros d Hd Hs; cbn; [done|]. apply IH; [|set_solver].
    unfold next_deadline. case_match; [|done]. specialize (Hs p ltac:(left)). lia. }
  intros Hs Hle. specialize (Hgen _ ltac:(reflexivity) Hs). lia.
Qed.

(** ** Witnesses, and a stall *)

Definition S1 : StreamId := MkStreamId 1.
Definition E1 : TransportSessionId := MkSessionId 1.

(** A visitor that sends a request, reads the response, and both sides end. *)
Definition graceful_events : list (Z * ingress_event) :=
  [(0, OnOpenSent true); (1, OnOpened (Some (open_frame 1)));
   (2, OnRelay (OnRead (Ok (bstr "GET")))); (2, OnRelay (OnSent true));
   (3, OnRelay (OnRead (Ok []))); (3, OnRelay (OnSent true));
   (4, OnRelay (OnInbound (Some (data_frame 1 "200")))); (5, OnRelay (OnWritten WriteDone));
   (6, OnRelay (OnInbound (Some (end_of S1)))); (6, OnRelay (OnShutdown true)); (7, OnNotified)].

Lemma ingress_stream_outcome_witness :
  ∃ effs, run_ingress_stream E1 S1 5 60 graceful_events = Some (IngressDone, effs) ∧
    ∃ resp reason, lifecycle effs = [Respond resp; Complete reason; NotifyClosed S1].
Proof.
  destruct (run_ingress_stream E1 S1 5 60 graceful_events) as [[pc effs]|] eqn:Hr;
    [|by vm_compute in Hr].
  assert (pc = IngressDone) as -> by (vm_compute in Hr; congruence).
  exists effs. split; [done|].
  destruct (ingress_stream_outcome E1 S1 5 60 graceful_events IngressDone effs Hr)
    as [_ (resp & reason & Hl & _)]; [done|]. exists resp, reason. exact Hl.
Defined.

Definition refused_events : list (Z * local_event) :=
  [(0, OnConnected ConnectFailed); (0, OnLocalRejectSent true); (1, OnLocalNotified)].

Lemma local_stream_safe_witness :
  ∃ effs, run_local_stream S1 60 refused_events = Some (LocalDone, effs) ∧
    lifecycle effs = [NotifyClosed S1].
Proof.
  eexists. split; [reflexivity|].
  eapply (local_stream_safe S1 60 refused_events LocalDone). reflexivity.
Defined.

Lemma idle_timeout_exact_witness :
  ∃ pre now post, [(3, OnRead (Ok (bstr "x"))); (4, OnSent true); (63, OnIdle); (63, OnResetSent true)]
    = pre ++ (now, OnIdle) :: post ∧ 0 + 60 ≤ now ∧
    ∀ t ev, (t, ev) ∈ pre → progress ev = true → t + 60 ≤ now.
Proof.
  eapply (idle_timeout_exact S1 60 0).
  - reflexivity.
  - reflexivity.
  - repeat constructor; cbn; lia.
Defined.

(** The idle deadline does not bound a blocked write.  For every length
    [stall], a stream whose local service accepts no byte for [stall] time
    units stays alive, and resumes when the service does: while [write_all]
    is pending no other event is possible, in particular not the timer. *)
Theorem blocked_write_outlives_deadline timeout stall :
  0 ≤ timeout → 0 ≤ stall →
  let stalled := [(0, OnConnected Connected); (0, OnAckSent true);
                  (0, OnLocalRelay (OnInbound (Some (data_frame 1 "x"))))] in
  (∃ pc effs, run_local_stream S1 timeout stalled = Some (pc, effs) ∧
     ∀ now ev pc' effs', local_step S1 timeout pc now ev = Some (pc', effs') →
       ∃ w, ev = OnLocalRelay (OnWritten w)) ∧
  run_local_stream S1 timeout (stalled ++ [(stall, OnLocalRelay (OnWritten WriteDone))])
    = Some (LocalRelay (local_loop false false timeout),
            [ControlQueued (open_frame 1); Written (bstr "x")]).
Proof.
  intros Ht Hs. cbn zeta. split.
  - eexists _, _. split; [reflexivity|]. intros now ev pc' effs' Hstep.
    destruct ev as [| | |ev| |]; try done. destruct ev as [| | |w| | |]; try done. by exists w.
  - reflexivity.
Qed.

Lemma blocked_write_outlives_deadline_witness :
  run_local_stream S1 60
    [(0, OnConnected Connected); (0, OnAckSent true);
     (0, OnLocalRelay (OnInbound (Some (data_frame 1 "x"))));
     (1000000, OnLocalRelay (OnWritten WriteDone))]
    = Some (LocalRelay (local_loop false false 60),
            [ControlQueued (open_frame 1); Written (bstr "x")]).
Proof. apply (blocked_write_outlives_deadline 60 1000000); lia. Defined.

(** ** An overtaken acknowledgement *)

(** A stream that both sides accept can be refused.  The Agent's task queues
    its acknowledgement and then the first bytes of a service that speaks first;
    behind eight control frames the writer sends the DATA frame first; and the
    Edge's task, which waits for the acknowledgement, answers the visitor with a
    protocol violation and resets the stream. *)
Theorem overtaken_acknowledgement_refuses_stream :
  run_local_stream (MkStreamId 9) 60
      [(0, OnConnected Connected); (0, OnAckSent true);
       (1, OnLocalRelay (OnRead (Ok (bstr "banner")))); (1, OnLocalRelay (OnSent true))]
    = Some (LocalRelay (local_loop false false 61),
            [ControlQueued (open_frame 9); DataQueued (data_frame 9 "banner")]) ∧
  (∃ w, writer_run (writer_actor_new 4 (sound []) Telemetry_default) busy_events = Some w ∧
     control_in busy_events = acks 9 ∧ data_in busy_events = [data_frame 9 "banner"] ∧
     of_stream (MkStreamId 9) (snd <$> wa_written w) = [data_frame 9 "banner"; open_frame 9]) ∧
  (∃ f, run_ingress_stream E1 (MkStreamId 9) 5 60
      [(0, OnOpenSent true); (1, OnOpened (Some (data_frame 9 "banner")))]
    = Some (IngressRejecting f ClosedProtocolViolation,
            [ControlQueued (open_frame 9); Respond (Err (StreamRejected ProtocolViolation))])).
Proof.
  split_and!.
  - by vm_compute.
  - exists busy_writer. split; [exact busy_writer_run|]. split_and!; by vm_compute.
  - eexists. reflexivity.
Qed.
