(* ===== verification/EdgeSession.v ===== *)
(** * EdgeSession: the session loop of the Edge

    [run_edge_session] of [crates/edge/src/multiplex.rs]: heartbeats, the
    allocation of stream identifiers, and the dispatch of the Agent's frames
    to the stream tasks.  One event is one answer to the [select!], or the
    completion of an await inside one of its branches; the contents of the
    per-stream queues belong to the environment, which answers [try_send]. *)

From S2P Require Import Prelude AsyncIo Frame Codec Handshake FairQueue BoundedQueue Telemetry.
From S2P Require Import WriterActor StreamTask.

Inductive HandshakeState : Type :=
| AwaitHello
| AwaitRegister
| Established
| Closed.

Definition HandshakeState_as_str (s : HandshakeState) : string :=
  match s with
  | AwaitHello => "await_hello"
  | AwaitRegister => "await_register"
  | Established => "established"
  | Closed => "closed"
  end.

Inductive AgentTransportError : Type :=
| TE_HandshakeTimeout (state : HandshakeState)
| TE_ProtocolViolation (reason : string)
| TE_RegistrationRejected (code : HandshakeErrorCode)
| TE_ProtocolDecode (e : ProtocolError)
| TE_UnexpectedEof (state : HandshakeState)
| TE_SessionIo (e : io_error)
| TE_HeartbeatTimeout (sequence : HeartbeatSequence)
| TE_HeartbeatSequenceMismatch (expected got : HeartbeatSequence)
| TE_InvalidHeartbeatPayload (ft : FrameType)
| TE_HeartbeatSequenceExhausted
| TE_StreamIdExhausted.

(** [std::io::Error::other] and [BrokenPipe]. *)
Definition IO_OTHER : io_error := IoFailed KindOther.
Definition IO_BROKEN_PIPE : io_error := IoFailed KindBrokenPipe.

Definition closed_writer : AgentTransportError := TE_SessionIo IO_BROKEN_PIPE.

(** The writer task's result, or a failed join. *)
Inductive writer_exit : Type :=
| WriterReturned (r : Result writer_error unit)
| WriterJoinError.

Definition edge_writer_error (e : writer_error) : AgentTransportError :=
  match e with
  | WE_ProtocolDecode e => TE_ProtocolDecode e
  | WE_FairQueueInvariant => TE_SessionIo IO_OTHER
  | WE_SessionIo e => TE_SessionIo e
  end.

Definition writer_result (x : writer_exit) : Result AgentTransportError unit :=
  match x with
  | WriterReturned r => map_err edge_writer_error r
  | WriterJoinError => Err (TE_SessionIo IO_OTHER)
  end.

Definition decode_heartbeat (frame : Frame) : option HeartbeatSequence :=
  if negb (zlen (payload frame) =? HEARTBEAT_PAYLOAD_SIZE) then None
  else HeartbeatSequence_from_be_bytes (payload frame).

(** ** State *)

Record edge_config : Type := MkEdgeConfig {
  max_streams_per_session : Z;
  heartbeat_interval : Z;
  pong_timeout : Z
}.

(** [SessionCommand]; an [Open] is known by a tag. *)
Inductive SessionCommand : Type :=
| CmdOpen (tag : nat)
| CmdBeginDrain
| CmdRevokeAuthorization.

Inductive after_send : Type :=
| AfterReset                  (** back to the loop *)
| AfterPing.                  (** the rest of the heartbeat branch *)

Inductive edge_pc : Type :=
| EdgeLoop
| EdgeSending (f : Frame) (k : after_send)   (** [control_tx.send(frame).await?] *)
| EdgeEnding                                 (** [writer_task.await] *)
| EdgeReturned (r : Result AgentTransportError unit).

Record EdgeSession : Type := MkEdgeSession {
  es_pc : edge_pc;
  es_streams : gset StreamId;
  next_stream_id : Z;
  heartbeat_sequence : HeartbeatSequence;
  pending_heartbeat : option HeartbeatSequence;
  draining : bool;
  heartbeat_timer : Z
}.

(** The answer of [sender.try_send(frame)]. *)
Inductive try_sent : Type := TrySent | TryFull | TryClosed.

Inductive edge_event : Type :=
| EvDecoded (r : Result ProtocolError (option Frame)) (t : try_sent)
| EvCommand (o : option SessionCommand)
| EvClosed (sid : StreamId)
| EvTimer
| EvWriter (x : writer_exit)
| EvControlSent (ok : bool).

Inductive edge_effect : Type :=
| Delivered (sid : StreamId) (f : Frame)     (** queued for the stream's task *)
| Dropped (sid : StreamId)                   (** the task's sender is dropped *)
| Spawned (tag : nat) (sid : StreamId)
| Answered (tag : nat) (e : RouteError)
| ControlSent (f : Frame)
| CountReset                                 (** [telemetry.flow_control_reset()] *)
| CountReceived (n : Z).                     (** [telemetry.data_received(n)] *)

Definition edge_session_new (c : edge_config) (now : Z) : EdgeSession :=
  MkEdgeSession EdgeLoop ∅ 1 SEQUENCE_FIRST None false (now + heartbeat_interval c).

Definition es_at (s : EdgeSession) (pc : edge_pc) : EdgeSession :=
  MkEdgeSession pc (es_streams s) (next_stream_id s) (heartbeat_sequence s)
    (pending_heartbeat s) (draining s) (heartbeat_timer s).
Definition es_with_streams (s : EdgeSession) (streams : gset StreamId) : EdgeSession :=
  MkEdgeSession (es_pc s) streams (next_stream_id s) (heartbeat_sequence s)
    (pending_heartbeat s) (draining s) (heartbeat_timer s).

(** An early return; the fields of a returned state only record what they were. *)
Definition es_fail (s : EdgeSession) (e : AgentTransportError) : EdgeSession :=
  es_at s (EdgeReturned (Err e)).

(** [break], then [streams.clear()]: every remaining sender is dropped. *)
Definition es_break (s : EdgeSession) : EdgeSession * list edge_effect :=
  (es_at (es_with_streams s ∅) EdgeEnding, Dropped <$> elements (es_streams s)).

Section edge_session.
Context (session_id : TransportSessionId) (c : edge_config).

(** [send_reset(&control_tx, sid, code).await?]. *)
Definition es_reset (s : EdgeSession) (sid : StreamId) (code : StreamResetCode) : EdgeSession :=
  match reset_frame sid code with
  | Ok f => es_at s (EdgeSending f AfterReset)
  | Err e => es_fail s (TE_ProtocolDecode e)
  end.

(** [streams.remove(&sid)]. *)
Definition es_remove (s : EdgeSession) (sid : StreamId) : EdgeSession * list edge_effect :=
  (es_with_streams s (es_streams s ∖ {[sid]}),
   if decide (sid ∈ es_streams s) then [Dropped sid] else []).

(** The branch for the frames of a stream. *)
Definition es_stream_frame (s : EdgeSession) (frame : Frame) (t : try_sent)
    : EdgeSession * list edge_effect :=
  let sid := stream_id frame in
  if bool_decide (frame_type frame = DataFrame)
     && (MULTIPLEXED_DATA_PAYLOAD_SIZE <? zlen (payload frame)) then
    let '(s', effs) := es_remove s sid in
    (es_reset s' sid FlowControlExceeded, CountReset :: effs)
  else
    let count :=
      if decide (frame_type frame = DataFrame) then [CountReceived (zlen (payload frame))] else [] in
    if decide (sid ∈ es_streams s) then
      match t with
      | TrySent => (s, count ++ [Delivered sid frame])
      | TryFull =>
          let '(s', effs) := es_remove s sid in
          (es_reset s' sid FlowControlExceeded, count ++ CountReset :: effs)
      | TryClosed =>
          let '(s', effs) := es_remove s sid in
          (if decide (frame_type frame = ResetStream) then s' else es_reset s' sid UnknownStream,
           count ++ effs)
      end
    else
      (if decide (frame_type frame = ResetStream) then s else es_reset s sid UnknownStream, count).

Definition es_pong (s : EdgeSession) (now : Z) (frame : Frame) : EdgeSession :=
  match decode_heartbeat frame with
  | None => es_fail s (TE_InvalidHeartbeatPayload Pong)
  | Some got =>
      match pending_heartbeat s with
      | None => es_fail s (TE_ProtocolViolation "unsolicited PONG")
      | Some expected =>
          if decide (got = expected) then
            MkEdgeSession (es_pc s) (es_streams s) (next_stream_id s) (heartbeat_sequence s)
              None (draining s) (now + heartbeat_interval c)
          else es_fail s (TE_HeartbeatSequenceMismatch expected got)
      end
  end.

Definition es_frame (s : EdgeSession) (now : Z) (frame : Frame) (t : try_sent)
    : EdgeSession * list edge_effect :=
  match frame_type frame with
  | Pong => (es_pong s now frame, [])
  | OpenStream | DataFrame | EndStream | ResetStream => es_stream_frame s frame t
  | ErrorFrame => (es_fail s (TE_ProtocolViolation "Agent sent ERROR"), [])
  | _ => (es_fail s (TE_ProtocolViolation "unexpected established-session frame"), [])
  end.

(** [next_stream_id.checked_add(1).unwrap_or_default()]. *)
Definition bump_stream_id (n : Z) : Z := default 0 (checked_add 32 n 1).

Definition es_open (s : EdgeSession) (tag : nat) : EdgeSession * list edge_effect :=
  if draining s then (s, [Answered tag RuntimeDraining])
  else if max_streams_per_session c <=? Z.of_nat (size (es_streams s)) then
    (s, [Answered tag (RouteCapacityExceeded session_id)])
  else
    match StreamId_new (next_stream_id s) with
    | None => (s, [Answered tag (StreamIdExhausted session_id)])
    | Some sid =>
        (MkEdgeSession (es_pc s) (es_streams s ∪ {[sid]}) (bump_stream_id (next_stream_id s))
           (heartbeat_sequence s) (pending_heartbeat s) (draining s) (heartbeat_timer s),
         [Spawned tag sid])
    end.

Definition es_begin_drain (s : EdgeSession) : EdgeSession * list edge_effect :=
  let s' := MkEdgeSession (es_pc s) (es_streams s) (next_stream_id s) (heartbeat_sequence s)
              (pending_heartbeat s) true (heartbeat_timer s) in
  if decide (es_streams s = ∅) then es_break s' else (s', []).

Definition es_command (s : EdgeSession) (o : option SessionCommand)
    : EdgeSession * list edge_effect :=
  match o with
  | None => es_break s
  | Some (CmdOpen tag) => es_open s tag
  | Some CmdBeginDrain => es_begin_drain s
  | Some CmdRevokeAuthorization => es_break s
  end.

Definition es_stream_closed (s : EdgeSession) (sid : StreamId) : EdgeSession * list edge_effect :=
  let '(s', effs) := es_remove s sid in
  if draining s' && bool_decide (es_streams s' = ∅) then
    let '(s'', effs') := es_break s' in (s'', effs ++ effs')
  else (s', effs).

Definition es_heartbeat (s : EdgeSession) : EdgeSession :=
  match pending_heartbeat s with
  | Some sequence => es_fail s (TE_HeartbeatTimeout sequence)
  | None =>
      match Frame_control Ping (HeartbeatSequence_to_be_bytes (heartbeat_sequence s)) with
      | Ok f => es_at s (EdgeSending f AfterPing)
      | Err e => es_fail s (TE_ProtocolDecode e)
      end
  end.

(** After [send_control(Ping)]. *)
Definition es_pinged (s : EdgeSession) (now : Z) : EdgeSession :=
  match HeartbeatSequence_checked_next (heartbeat_sequence s) with
  | Some next =>
      MkEdgeSession EdgeLoop (es_streams s) (next_stream_id s) next
        (Some (heartbeat_sequence s)) (draining s) (now + pong_timeout c)
  | None =>
      MkEdgeSession (EdgeReturned (Err TE_HeartbeatSequenceExhausted)) (es_streams s)
        (next_stream_id s) (heartbeat_sequence s) (Some (heartbeat_sequence s)) (draining s)
        (heartbeat_timer s)
  end.

Definition edge_step (s : EdgeSession) (now : Z) (ev : edge_event)
    : option (EdgeSession * list edge_effect) :=
  match es_pc s, ev with
  | EdgeLoop, EvDecoded (Err e) _ => Some (es_fail s (TE_ProtocolDecode e), [])
  | EdgeLoop, EvDecoded (Ok None) _ => Some (es_break s)
  | EdgeLoop, EvDecoded (Ok (Some frame)) t => Some (es_frame s now frame t)
  | EdgeLoop, EvCommand o => Some (es_command s o)
  | EdgeLoop, EvClosed sid => Some (es_stream_closed s sid)
  | EdgeLoop, EvTimer => if heartbeat_timer s <=? now then Some (es_heartbeat s, []) else None
  | EdgeLoop, EvWriter x => Some (es_at s (EdgeReturned (writer_result x)), [])
  | EdgeSending f k, EvControlSent true =>
      Some (match k with AfterReset => es_at s EdgeLoop | AfterPing => es_pinged s now end,
            [ControlSent f])
  | EdgeSending f k, EvControlSent false => Some (es_fail s closed_writer, [])
  | EdgeEnding, EvWriter x => Some (es_at s (EdgeReturned (writer_result x)), [])
  | _, _ => None
  end.

Fixpoint edge_run (s : EdgeSession) (evs : list (Z * edge_event))
    : option (EdgeSession * list edge_effect) :=
  match evs with
  | [] => Some (s, [])
  | (now, ev) :: evs =>
      match edge_step s now ev with
      | Some (s', effs) =>
          match edge_run s' evs with
          | Some (s'', effs') => Some (s'', effs ++ effs')
          | None => None
          end
      | None => None
      end
  end.
End edge_session.

(** ** Identifiers *)

Definition spawned_of (e : edge_effect) : list StreamId :=
  match e with Spawned _ sid => [sid] | _ => [] end.
Definition spawned (effs : list edge_effect) : list StreamId := effs ≫= spawned_of.

(** The commands answered or accepted. *)
Definition answered_of (e : edge_effect) : list nat :=
  match e with Spawned tag _ | Answered tag _ => [tag] | _ => [] end.
Definition answered (effs : list edge_effect) : list nat := effs ≫= answered_of.
Definition open_tag (ev : edge_event) : list nat :=
  match ev with EvCommand (Some (CmdOpen tag)) => [tag] | _ => [] end.

(** The number of identifiers allocated so far. *)
Definition allocated (s : EdgeSession) : Z :=
  if next_stream_id s =? 0 then 2 ^ 32 - 1 else next_stream_id s - 1.
Definition first_ids (n : Z) : list StreamId := MkStreamId <$> seqZ 1 n.

Record edge_inv (c : edge_config) (s : EdgeSession) : Prop := {
  ei_next : u_range 32 (next_stream_id s);
  ei_streams sid : sid ∈ es_streams s → 1 ≤ stream_raw sid ≤ allocated s;
  ei_size : Z.of_nat (size (es_streams s)) ≤ Z.max 0 (max_streams_per_session c);
  ei_sequence : 1 ≤ sequence_raw (heartbeat_sequence s) < 2 ^ 64;
  ei_pending q : pending_heartbeat s = Some q →
    match es_pc s with
    | EdgeReturned _ => True
    | EdgeSending _ AfterPing => False
    | _ => sequence_raw q + 1 = sequence_raw (heartbeat_sequence s)
    end
}.

Lemma edge_inv_new c now : edge_inv c (edge_session_new c now).
Proof. split; cbn; rewrite ?size_empty; try done; try lia; set_solver. Qed.

Lemma StreamId_new_Some n sid : StreamId_new n = Some sid ↔ n ≠ 0 ∧ sid = MkStreamId n.
Proof. unfold StreamId_new. destruct (Z.eqb_spec n 0); naive_solver. Qed.

Lemma first_ids_snoc n : 0 ≤ n → first_ids (n + 1) = first_ids n ++ [MkStreamId (n + 1)].
Proof.
  intros Hn. unfold first_ids. rewrite seqZ_app by lia. rewrite fmap_app. f_equal.
  change (seqZ (1 + n) 1) with [1 + n]. cbn. f_equal. f_equal. lia.
Qed.

Section steps.
Context (session_id : TransportSessionId) (c : edge_config).
Implicit Types s : EdgeSession.

(** Steps that leave the identifiers and the heartbeat alone, and only remove
    streams. *)
Lemma edge_inv_shrink s s' :
  edge_inv c s → next_stream_id s' = next_stream_id s →
  heartbeat_sequence s' = heartbeat_sequence s → es_streams s' ⊆ es_streams s →
  (pending_heartbeat s' = None ∨
   pending_heartbeat s' = pending_heartbeat s ∧ es_pc s = EdgeLoop ∧
     match es_pc s' with EdgeSending _ AfterPing => False | _ => True end ∨
   (∃ r, es_pc s' = EdgeReturned r)) →
  edge_inv c s'.
Proof.
  intros [Hn Hs Hsz Hq Hp] Hn' Hq' Hsub Hpend. split; rewrite ?Hn', ?Hq'; try done.
  - intros sid Hin. unfold allocated. rewrite Hn'. by apply Hs, Hsub.
  - etrans; [|exact Hsz]. apply inj_le, subseteq_size, Hsub.
  - intros q Hq0. destruct Hpend as [?|[(Hpe & Hpc & Hpc')|(r & ->)]]; [congruence| |done].
    rewrite Hpe in Hq0. specialize (Hp q Hq0). rewrite Hpc in Hp.
    destruct (es_pc s') as [|f []| |]; done.
Qed.

(** A step that answers no command, spawns no stream and sends no PING. *)
Record quiet s s' (effs : list edge_effect) : Prop := {
  qt_next : next_stream_id s' = next_stream_id s;
  qt_sequence : heartbeat_sequence s' = heartbeat_sequence s;
  qt_streams : es_streams s' ⊆ es_streams s;
  qt_draining : draining s' = draining s;
  qt_pending : pending_heartbeat s' = None ∨
    pending_heartbeat s' = pending_heartbeat s ∧
      match es_pc s' with EdgeSending _ AfterPing => False | _ => True end ∨
    (∃ r, es_pc s' = EdgeReturned r);
  qt_spawned : spawned effs = [];
  qt_answered : answered effs = []
}.

Lemma quiet_inv s s' effs : edge_inv c s → es_pc s = EdgeLoop → quiet s s' effs → edge_inv c s'.
Proof.
  intros Hinv Hpc [Hn Hq Hs _ Hp _ _]. apply (edge_inv_shrink s); auto.
  destruct Hp as [?|[[? ?]|?]]; auto.
Qed.

Lemma removed_effects s sid : spawned (es_remove s sid).2 = [] ∧ answered (es_remove s sid).2 = [].
Proof. unfold es_remove. cbn. by case_decide. Qed.
Lemma broken_effects s : spawned (es_break s).2 = [] ∧ answered (es_break s).2 = [].
Proof.
  unfold es_break. cbn. induction (elements (es_streams s)) as [|sid l [IH1 IH2]]; [done|].
  by split.
Qed.

Lemma quiet_fail s e : quiet s (es_fail s e) [].
Proof. split; cbn; try done. right. right. by eexists. Qed.
Lemma quiet_reset s s0 effs sid code :
  es_pc s = EdgeLoop → quiet s s0 effs → pending_heartbeat s0 = pending_heartbeat s →
  quiet s (es_reset s0 sid code) effs.
Proof.
  intros Hpc [Hn Hq Hs Hd Hp Hsp Ha] Hpe. unfold es_reset.
  destruct (reset_frame sid code); split; cbn; try done; [right; left; done|].
  right. right. by eexists.
Qed.
Lemma quiet_refl s effs :
  es_pc s = EdgeLoop → spawned effs = [] → answered effs = [] → quiet s s effs.
Proof. intros Hpc ? ?. split; try done. right; left. by rewrite Hpc. Qed.

Lemma answered_app l k : answered (l ++ k) = answered l ++ answered k.
Proof. apply bind_app. Qed.
Lemma spawned_app l k : spawned (l ++ k) = spawned l ++ spawned k.
Proof. apply bind_app. Qed.

Lemma quiet_remove s sid pre :
  es_pc s = EdgeLoop → spawned pre = [] → answered pre = [] →
  quiet s (es_remove s sid).1 (pre ++ (es_remove s sid).2).
Proof.
  intros Hpc Hs Ha. destruct (removed_effects s sid) as [Hrs Hra].
  split; rewrite ?spawned_app, ?answered_app, ?Hs, ?Ha, ?Hrs, ?Hra; cbn; try done; [set_solver|].
  right; left. by rewrite Hpc.
Qed.

Lemma quiet_removed s sid pre s1 e1 :
  es_remove s sid = (s1, e1) → es_pc s = EdgeLoop → spawned pre = [] → answered pre = [] →
  quiet s s1 (pre ++ e1) ∧ pending_heartbeat s1 = pending_heartbeat s.
Proof.
  intros Hr Hpc Hs Ha. pose proof (quiet_remove s sid pre Hpc Hs Ha) as Hq.
  rewrite Hr in Hq. split; [done|]. unfold es_remove in Hr. by simplify_eq.
Qed.

Lemma quiet_stream_frame s f t :
  es_pc s = EdgeLoop →
  quiet s (es_stream_frame s f t).1 (es_stream_frame s f t).2.
Proof.
  intros Hpc. unfold es_stream_frame.
  set (count := if decide (frame_type f = DataFrame)
                then [CountReceived (zlen (payload f))] else []).
  assert (spawned count = [] ∧ answered count = []) as [Hcs Hca]
    by (unfold count; by case_decide).
  destruct (es_remove s (stream_id f)) as [s1 e1] eqn:Hr.
  destruct (quiet_removed _ _ count _ _ Hr Hpc Hcs Hca) as [Hq Hp].
  destruct (quiet_removed _ _ [CountReset] _ _ Hr Hpc eq_refl eq_refl) as [Hq0 _].
  destruct (bool_decide _ && _); [by apply quiet_reset|].
  case_decide as Hin; [destruct t|]; cbn [fst snd].
  - apply quiet_refl; [done|rewrite spawned_app, Hcs; done|rewrite answered_app, Hca; done].
  - apply quiet_reset; [done| |done].
    destruct (quiet_removed _ _ (count ++ [CountReset]) _ _ Hr Hpc) as [Hq1 _].
    + by rewrite spawned_app, Hcs.
    + by rewrite answered_app, Hca.
    + by rewrite <-app_assoc in Hq1.
  - case_decide; [done|]. by apply quiet_reset.
  - case_decide; [by apply quiet_refl|]. apply quiet_reset; [done|by apply quiet_refl|done].
Qed.

Lemma quiet_break s0 s pre :
  next_stream_id s0 = next_stream_id s → heartbeat_sequence s0 = heartbeat_sequence s →
  draining s0 = draining s → pending_heartbeat s0 = pending_heartbeat s →
  es_streams s0 ⊆ es_streams s → spawned pre = [] → answered pre = [] →
  quiet s (es_break s0).1 (pre ++ (es_break s0).2).
Proof.
  intros Hn Hq Hd Hp Hs Hsp Ha. destruct (broken_effects s0) as [Hbs Hba].
  split; rewrite ?spawned_app, ?answered_app, ?Hsp, ?Ha, ?Hbs, ?Hba; cbn; try done.
  right; left. done.
Qed.

Lemma quiet_closed s sid :
  es_pc s = EdgeLoop → quiet s (es_stream_closed s sid).1 (es_stream_closed s sid).2.
Proof.
  intros Hpc. unfold es_stream_closed. destruct (removed_effects s sid) as [Hrs Hra].
  destruct (es_remove s sid) as [s1 e1] eqn:Hr.
  destruct (quiet_removed _ _ [] _ _ Hr Hpc eq_refl eq_refl) as [Hq Hp].
  destruct (draining s1 && _); [|done].
  destruct Hq. by apply quiet_break.
Qed.

Lemma quiet_pong s now f : es_pc s = EdgeLoop → quiet s (es_pong c s now f) [].
Proof.
  intros Hpc. unfold es_pong. repeat case_match; try apply quiet_fail.
  split; cbn; try done. by left.
Qed.

Lemma quiet_frame s now f t :
  es_pc s = EdgeLoop → quiet s (es_frame c s now f t).1 (es_frame c s now f t).2.
Proof.
  intros Hpc. unfold es_frame.
  case_match; try apply quiet_fail; first [by apply quiet_stream_frame|by apply quiet_pong].
Qed.

(** ** What a step does *)

(** The postcondition of a step, as far as identifiers and commands go. *)
Record step_post s (ev : edge_event) s' (effs : list edge_effect) : Prop := {
  sp_inv : edge_inv c s';
  sp_spawned : first_ids (allocated s') = first_ids (allocated s) ++ spawned effs;
  sp_answered : answered effs = open_tag ev
}.

Lemma quiet_post s ev s' effs :
  edge_inv c s → es_pc s = EdgeLoop → open_tag ev = [] → quiet s s' effs →
  step_post s ev s' effs.
Proof.
  intros Hinv Hpc Hev Hq. split; [by eapply quiet_inv| |].
  - destruct Hq as [Hn _ _ _ _ Hsp _]. unfold allocated. by rewrite Hn, Hsp, app_nil_r.
  - destruct Hq as [_ _ _ _ _ _ ->]. done.
Qed.

Lemma returned_post s ev s' r :
  edge_inv c s → s' = es_at s (EdgeReturned r) → open_tag ev = [] → step_post s ev s' [].
Proof.
  intros Hinv -> Hev. split; [|by rewrite app_nil_r|done].
  apply (edge_inv_shrink s); try done. right. right. by eexists.
Qed.

Lemma allocated_bump s :
  u_range 32 (next_stream_id s) → next_stream_id s ≠ 0 →
  u_range 32 (bump_stream_id (next_stream_id s)) ∧
  (if bump_stream_id (next_stream_id s) =? 0 then 2 ^ 32 - 1
   else bump_stream_id (next_stream_id s) - 1) = next_stream_id s ∧
  allocated s = next_stream_id s - 1.
Proof.
  unfold u_range, allocated, bump_stream_id, checked_add, umax.
  intros Hn H0. destruct (Z.eqb_spec (next_stream_id s) 0); [done|].
  case_match; cbn; [destruct (Z.eqb_spec (next_stream_id s + 1) 0)|]; lia.
Qed.

Lemma open_post s tag :
  edge_inv c s → es_pc s = EdgeLoop →
  step_post s (EvCommand (Some (CmdOpen tag)))
    (es_open session_id c s tag).1 (es_open session_id c s tag).2.
Proof.
  intros Hinv Hpc. unfold es_open.
  destruct (draining s); [by split; [|rewrite app_nil_r|]|].
  destruct (Z.leb_spec (max_streams_per_session c) (Z.of_nat (size (es_streams s))));
    [by split; [|rewrite app_nil_r|]|].
  destruct (StreamId_new (next_stream_id s)) as [sid|] eqn:Hid;
    [|by split; [|rewrite app_nil_r|]].
  apply StreamId_new_Some in Hid as [Hnz ->].
  destruct Hinv as [Hn Hs Hsz Hq Hp].
  destruct (allocated_bump s Hn Hnz) as (Hr & Ha & Ha0).
  split; [split|..]; cbn; try done.
  - intros sid Hin. unfold allocated at 1. cbn. rewrite Ha.
    apply elem_of_union in Hin as [Hin| ->%elem_of_singleton].
    + specialize (Hs sid Hin). lia.
    + unfold u_range in Hn. cbn. lia.
  - pose proof (size_union_alt (es_streams s) {[MkStreamId (next_stream_id s)]}) as ->.
    pose proof (subseteq_size ({[MkStreamId (next_stream_id s)]} ∖ es_streams s)
                  {[MkStreamId (next_stream_id s)]} ltac:(set_solver)) as Hle.
    rewrite size_singleton in Hle. lia.
  - unfold allocated at 1. cbn. rewrite Ha, Ha0.
    replace (next_stream_id s) with (next_stream_id s - 1 + 1) at 1 by lia.
    rewrite first_ids_snoc by (unfold u_range in Hn; lia).
    do 3 f_equal. lia.
Qed.

Lemma sending_post s f k now :
  edge_inv c s → es_pc s = EdgeSending f k →
  step_post s (EvControlSent true)
    (match k with AfterReset => es_at s EdgeLoop | AfterPing => es_pinged c s now end)
    [ControlSent f].
Proof.
  intros [Hn Hs Hsz Hq Hp] Hpc. rewrite Hpc in Hp. destruct k.
  - split; [by split|by rewrite app_nil_r|done].
  - unfold es_pinged. pose proof (heartbeat_next_no_wrap (heartbeat_sequence s) ltac:(lia)) as Hnext.
    destruct (HeartbeatSequence_checked_next (heartbeat_sequence s)) as [n|].
    + split; [split|..]; cbn; rewrite ?app_nil_r; try done; [lia|].
      intros q [= <-]. lia.
    + split; [split|..]; cbn; rewrite ?app_nil_r; done.
Qed.
Lemma quiet_broken s s' effs : es_break s = (s', effs) → quiet s s' effs.
Proof.
  intros Hb. pose proof (quiet_break s s [] eq_refl eq_refl eq_refl eq_refl) as Hq.
  rewrite Hb in Hq. by apply Hq.
Qed.

Lemma begin_drain_post s s' effs :
  edge_inv c s → es_pc s = EdgeLoop → es_begin_drain s = (s', effs) →
  step_post s (EvCommand (Some CmdBeginDrain)) s' effs.
Proof.
  intros [Hn Hs Hsz Hq Hp] Hpc Hstep. unfold es_begin_drain in Hstep.
  set (s0 := MkEdgeSession _ _ _ _ _ true _) in Hstep.
  assert (edge_inv c s0) as Hinv by by split.
  case_decide; [|simplify_eq; by split; [|rewrite app_nil_r|]].
  destruct (quiet_post s0 (EvCommand (Some CmdBeginDrain)) s' effs) as [Hi Hsp Ha]; try done.
  by apply quiet_broken.
Qed.

Lemma edge_step_post s now ev s' effs :
  edge_inv c s → edge_step session_id c s now ev = Some (s', effs) → step_post s ev s' effs.
Proof.
  intros Hinv Hstep. unfold edge_step in Hstep.
  destruct (es_pc s) as [|f k| |r] eqn:Hpc; destruct ev as [[[f'|]|e] t|o|sid| |x|[]];
    simplify_eq.
  - apply quiet_post; try done.
    pose proof (quiet_frame s now f' t Hpc) as Hq. by rewrite Hstep in Hq.
  - apply quiet_post; try done. by apply quiet_broken.
  - apply quiet_post; try done. apply quiet_fail.
  - destruct o as [[tag| |]|]; cbn -[es_break] in Hstep.
    + pose proof (open_post s tag Hinv Hpc) as Hp. by rewrite Hstep in Hp.
    + by eapply begin_drain_post.
    + apply quiet_post; try done. by apply quiet_broken.
    + apply quiet_post; try done. by apply quiet_broken.
  - apply quiet_post; try done.
    pose proof (quiet_closed s sid Hpc) as Hq. by rewrite Hstep in Hq.
  - case_match; simplify_eq. unfold es_heartbeat.
    destruct (pending_heartbeat s) as [q|] eqn:Hq; [by eapply returned_post|].
    destruct (Frame_control _ _); [|by eapply returned_post].
    destruct Hinv. split; [|by rewrite app_nil_r|done]. split; cbn; try done. by rewrite Hq.
  - by eapply returned_post.
  - by apply sending_post.
  - by eapply returned_post.
  - by eapply returned_post.
Qed.

Lemma edge_run_post s evs s' effs :
  edge_inv c s → edge_run session_id c s evs = Some (s', effs) →
  edge_inv c s' ∧ first_ids (allocated s') = first_ids (allocated s) ++ spawned effs ∧
  answered effs = evs.*2 ≫= open_tag.
Proof.
  revert s effs. induction evs as [|[now ev] evs IH]; intros s effs Hinv Hrun; cbn in Hrun.
  { simplify_eq. by rewrite app_nil_r. }
  destruct (edge_step session_id c s now ev) as [[s1 e1]|] eqn:Hstep; [|done].
  destruct (edge_run session_id c s1 evs) as [[s2 e2]|] eqn:Hrest; [|done]. simplify_eq.
  destruct (edge_step_post s now ev s1 e1 Hinv Hstep) as [Hi Hs Ha].
  destruct (IH s1 e2 Hi Hrest) as (Hi2 & Hs2 & Ha2).
  rewrite spawned_app, answered_app, app_assoc, <-Hs, Ha, Ha2. done.
Qed.
(** Draining is for good, and admits no stream. *)
Lemma edge_step_draining s now ev s' effs :
  edge_step session_id c s now ev = Some (s', effs) → draining s = true →
  draining s' = true ∧ es_streams s' ⊆ es_streams s ∧ spawned effs = [].
Proof.
  intros Hstep Hd. unfold edge_step in Hstep.
  assert (∀ s1 e1, quiet s s1 e1 →
    draining s1 = true ∧ es_streams s1 ⊆ es_streams s ∧ spawned e1 = []) as Hquiet.
  { intros s1 e1 [_ _ ? -> _ ? _]. done. }
  destruct (es_pc s) as [|f k| |r] eqn:Hpc; destruct ev as [[[f'|]|e] t|o|sid| |x|[]];
    simplify_eq; try done.
  - apply Hquiet. pose proof (quiet_frame s now f' t Hpc) as Hq. by rewrite Hstep in Hq.
  - by apply Hquiet, quiet_broken.
  - destruct o as [[tag| |]|]; cbn -[es_break] in Hstep.
    + unfold es_open in Hstep. rewrite Hd in Hstep. by simplify_eq.
    + unfold es_begin_drain in Hstep. case_decide; simplify_eq; [|done].
      apply quiet_broken in Hstep as [_ _ ? ? _ ? _]. done.
    + by apply Hquiet, quiet_broken.
    + by apply Hquiet, quiet_broken.
  - apply Hquiet. pose proof (quiet_closed s sid Hpc) as Hq. by rewrite Hstep in Hq.
  - case_match; simplify_eq. unfold es_heartbeat. by repeat case_match.
  - destruct k; [done|]. unfold es_pinged. by case_match.
Qed.

Lemma edge_run_draining s evs s' effs :
  edge_run session_id c s evs = Some (s', effs) → draining s = true →
  draining s' = true ∧ es_streams s' ⊆ es_streams s ∧ spawned effs = [].
Proof.
  revert s effs. induction evs as [|[now ev] evs IH]; intros s effs Hrun Hd; cbn in Hrun.
  { by simplify_eq. }
  destruct (edge_step session_id c s now ev) as [[s1 e1]|] eqn:Hstep; [|done].
  destruct (edge_run session_id c s1 evs) as [[s2 e2]|] eqn:Hrest; [|done]. simplify_eq.
  destruct (edge_step_draining s now ev s1 e1 Hstep Hd) as (Hd1 & Hs1 & He1).
  destruct (IH s1 e2 Hrest Hd1) as (Hd2 & Hs2 & He2).
  rewrite spawned_app, He1, He2. split_and!; [done| |done]. by etrans.
Qed.

(** A refusal for want of identifiers happens only once they are all used. *)
Lemma edge_step_exhausted s now ev s' effs tag id :
  edge_inv c s → edge_step session_id c s now ev = Some (s', effs) →
  Answered tag (StreamIdExhausted id) ∈ effs → allocated s' = 2 ^ 32 - 1.
Proof.
  intros Hinv Hstep Hin.
  assert (tag ∈ answered effs) as Ht.
  { unfold answered. apply list_elem_of_bind. exists (Answered tag (StreamIdExhausted id)).
    split; [by apply elem_of_cons; left|done]. }
  destruct (edge_step_post s now ev s' effs Hinv Hstep) as [_ _ Ha]. rewrite Ha in Ht.
  destruct ev as [| [[tag'| |]|] | | | | ]; try by apply elem_of_nil in Ht.
  unfold edge_step in Hstep. destruct (es_pc s); simplify_eq.
  cbn in Hstep. unfold es_open in Hstep.
  destruct (draining s); [by simplify_eq; set_solver|].
  destruct (_ <=? _); [by simplify_eq; set_solver|].
  destruct (StreamId_new (next_stream_id s)) eqn:Hid; simplify_eq; [set_solver|].
  unfold StreamId_new in Hid. unfold allocated. by case_match.
Qed.
End steps.

Lemma first_ids_length n : length (first_ids n) = Z.to_nat n.
Proof. unfold first_ids. by rewrite length_fmap, length_seqZ. Qed.
Lemma first_ids_inj n m : 0 ≤ n → 0 ≤ m → first_ids n = first_ids m → n = m.
Proof. intros ? ? H%(f_equal length). rewrite !first_ids_length in H. lia. Qed.
Lemma first_ids_NoDup n : NoDup (first_ids n).
Proof. unfold first_ids. apply NoDup_fmap_2; [intros x y; congruence|apply NoDup_seqZ]. Qed.
Lemma elem_of_first_ids n sid : sid ∈ first_ids n ↔ 1 ≤ stream_raw sid ≤ n.
Proof.
  unfold first_ids. rewrite list_elem_of_fmap. setoid_rewrite elem_of_seqZ.
  split; [intros (x & -> & ?); cbn; lia|]. intros ?. exists (stream_raw sid).
  destruct sid. cbn in *. split; [done|lia].
Qed.
Lemma allocated_range c s : edge_inv c s → 0 ≤ allocated s ≤ 2 ^ 32 - 1.
Proof.
  intros [Hn _ _ _ _]. unfold allocated, u_range in *. destruct (Z.eqb_spec (next_stream_id s) 0); lia.
Qed.

Lemma edge_run_exhausted session_id c s evs s' effs tag id :
  edge_inv c s → edge_run session_id c s evs = Some (s', effs) →
  Answered tag (StreamIdExhausted id) ∈ effs → allocated s' = 2 ^ 32 - 1.
Proof.
  revert s effs. induction evs as [|[now ev] evs IH]; intros s effs Hinv Hrun Hin; cbn in Hrun.
  { simplify_eq. by apply elem_of_nil in Hin. }
  destruct (edge_step session_id c s now ev) as [[s1 e1]|] eqn:Hstep; [|done].
  destruct (edge_run session_id c s1 evs) as [[s2 e2]|] eqn:Hrest; [|done]. simplify_eq.
  pose proof (edge_step_post _ _ _ _ _ _ _ Hinv Hstep) as [Hi _ _].
  apply elem_of_app in Hin as [Hin|Hin]; [|by eapply IH].
  pose proof (edge_step_exhausted _ _ _ _ _ _ _ _ _ Hinv Hstep Hin) as Ha.
  destruct (edge_run_post _ _ _ _ _ _ Hi Hrest) as (Hi2 & Hs2 & _).
  apply (f_equal length) in Hs2. rewrite length_app, !first_ids_length in Hs2.
  pose proof (allocated_range _ _ Hi2). lia.
Qed.

(** C29. Stream identifiers and commands, over every run of an Edge session: the
    streams spawned carry the identifiers 1, 2, 3, ... in the order of their
    commands, so none is 0, exceeds 32 bits or is ever used twice; an OPEN is
    refused for want of identifiers only when all 2^32 - 1 have been used; every
    Open command the loop takes is accepted or refused exactly once, in order;
    the open streams are among those spawned and never more than the limit; and
    a session that drains spawns nothing more. *)
Theorem edge_stream_identifiers session_id c now evs s effs :
  edge_run session_id c (edge_session_new c now) evs = Some (s, effs) →
  spawned effs = first_ids (zlen (spawned effs)) ∧
  NoDup (spawned effs) ∧ (∀ sid, sid ∈ spawned effs → 1 ≤ stream_raw sid < 2 ^ 32) ∧
  (∀ tag id, Answered tag (StreamIdExhausted id) ∈ effs →
     zlen (spawned effs) = 2 ^ 32 - 1) ∧
  answered effs = evs.*2 ≫= open_tag ∧
  (∀ sid, sid ∈ es_streams s → sid ∈ spawned effs) ∧
  Z.of_nat (size (es_streams s)) ≤ Z.max 0 (max_streams_per_session c) ∧
  (draining s = true → ∀ evs' s' effs', edge_run session_id c s evs' = Some (s', effs') →
     spawned effs' = [] ∧ es_streams s' ⊆ es_streams s).
Proof.
  intros Hrun. pose proof (edge_inv_new c now) as Hnew.
  destruct (edge_run_post _ _ _ _ _ _ Hnew Hrun) as (Hinv & Hsp & Ha).
  change (first_ids (allocated (edge_session_new c now))) with ([] : list StreamId) in Hsp.
  pose proof (allocated_range _ _ Hinv) as Hr. cbn in Hsp.
  assert (zlen (spawned effs) = allocated s) as Hlen.
  { unfold zlen. rewrite <-Hsp, first_ids_length. lia. }
  split_and!.
  - by rewrite Hlen, Hsp.
  - rewrite <-Hsp. apply first_ids_NoDup.
  - intros sid. rewrite <-Hsp, elem_of_first_ids. lia.
  - intros tag id Hin. rewrite Hlen. exact (edge_run_exhausted _ _ _ _ _ _ _ _ Hnew Hrun Hin).
  - done.
  - intros sid Hin. rewrite <-Hsp, elem_of_first_ids. by apply (ei_streams _ _ Hinv).
  - by apply ei_size.
  - intros Hd evs' s' effs' Hrun'.
    destruct (edge_run_draining _ _ _ _ _ _ Hrun' Hd) as (_ & ? & ?). done.
Qed.

(** ** Heartbeats *)

Inductive hb_entry : Type :=
| HbPing (q : HeartbeatSequence)      (** a PING handed to the writer *)
| HbPong (q : HeartbeatSequence)      (** a PONG the session accepted *)
| HbRejected (f : Frame)              (** a PONG that ended the session *)
| HbTimeout (q : HeartbeatSequence).  (** the session gave up *)

Definition hb_sent (now : Z) (e : edge_effect) : list (Z * hb_entry) :=
  match e with
  | ControlSent f =>
      if decide (frame_type f = Ping) then
        match decode_heartbeat f with Some q => [(now, HbPing q)] | None => [] end
      else []
  | _ => []
  end.

Definition hb_entries (now : Z) (ev : edge_event) (s' : EdgeSession) (effs : list edge_effect)
    : list (Z * hb_entry) :=
  match ev with
  | EvDecoded (Ok (Some f)) _ =>
      if decide (frame_type f = Pong) then
        match es_pc s', decode_heartbeat f with
        | EdgeReturned _, _ | _, None => [(now, HbRejected f)]
        | _, Some q => [(now, HbPong q)]
        end
      else []
  | EvTimer =>
      match es_pc s' with
      | EdgeReturned (Err (TE_HeartbeatTimeout q)) => [(now, HbTimeout q)]
      | _ => []
      end
  | EvControlSent _ => effs ≫= hb_sent now
  | _ => []
  end.

Fixpoint hb_log (session_id : TransportSessionId) (c : edge_config) (s : EdgeSession)
    (evs : list (Z * edge_event)) : list (Z * hb_entry) :=
  match evs with
  | [] => []
  | (now, ev) :: evs =>
      match edge_step session_id c s now ev with
      | Some (s', effs) => hb_entries now ev s' effs ++ hb_log session_id c s' evs
      | None => []
      end
  end.

(** The protocol: PINGs and PONGs of the same sequence number alternate, one
    interval apart; a wrong PONG, and only a wrong one, or a PONG that is late
    ends the session. *)
Fixpoint hb_ok (c : edge_config) (last next : Z) (awaiting : bool) (log : list (Z * hb_entry))
    : Prop :=
  match log with
  | [] => True
  | (t, HbPing q) :: log =>
      awaiting = false ∧ q = MkSequence next ∧ last + heartbeat_interval c ≤ t ∧
      hb_ok c t next true log
  | (t, HbPong q) :: log =>
      awaiting = true ∧ q = MkSequence next ∧ hb_ok c t (next + 1) false log
  | (t, HbRejected f) :: log =>
      (awaiting = true → decode_heartbeat f ≠ Some (MkSequence next)) ∧ log = []
  | (t, HbTimeout q) :: log =>
      awaiting = true ∧ q = MkSequence next ∧ last + pong_timeout c ≤ t ∧ log = []
  end.

(** The times of the events never go back. *)
Fixpoint clocked (clock : Z) (evs : list (Z * edge_event)) : Prop :=
  match evs with [] => True | (now, _) :: evs => clock ≤ now ∧ clocked now evs end.

Lemma heartbeat_frame ft q :
  FrameType_scope ft = Control →
  1 ≤ sequence_raw q < 2 ^ 64 →
  ∃ f, Frame_control ft (HeartbeatSequence_to_be_bytes q) = Ok f ∧ frame_type f = ft ∧
    decode_heartbeat f = Some q.
Proof.
  intros Hscope Hq.
  exists (MkFrame ft 0 StreamId_CONTROL (HeartbeatSequence_to_be_bytes q)). split_and!.
  - apply Frame_new_Ok. split; [done|]. split; [done| |].
    + cbn [payload]. unfold HeartbeatSequence_to_be_bytes. by rewrite zlen_to_be.
    + unfold scope_ok. cbn [frame_type stream_id]. by rewrite Hscope.
  - done.
  - unfold decode_heartbeat. cbn [payload]. unfold HeartbeatSequence_to_be_bytes.
    destruct control_values_roundtrip as (_ & _ & _ & _ & Hrt).
    assert (0 < sequence_raw q < 2 ^ 64) as Hr by lia.
    rewrite (proj2 (Hrt _ q (length_to_be _ _)) (conj eq_refl Hr)).
    by rewrite zlen_to_be.
Qed.

Lemma decode_heartbeat_range f q : decode_heartbeat f = Some q → 1 ≤ sequence_raw q < 2 ^ 64.
Proof.
  unfold decode_heartbeat. destruct (Z.eqb_spec (zlen (payload f)) HEARTBEAT_PAYLOAD_SIZE) as [Hl|];
    cbn [negb]; [|done].
  intros Hd. destruct control_values_roundtrip as (_ & _ & _ & _ & Hrt).
  apply Hrt in Hd as [_ Hd]; [lia|]. apply Nat2Z.inj. exact Hl.
Qed.

Section heartbeats.
Context (session_id : TransportSessionId) (c : edge_config).

Definition steady (s s' : EdgeSession) : Prop :=
  heartbeat_timer s' = heartbeat_timer s ∧ pending_heartbeat s' = pending_heartbeat s ∧
  heartbeat_sequence s' = heartbeat_sequence s ∧
  match es_pc s' with
  | EdgeSending f k => k = AfterReset ∧ frame_type f ≠ Ping
  | _ => True
  end.

Lemma steady_reset s s0 sid code : steady s s0 → steady s (es_reset s0 sid code).
Proof.
  intros (?&?&?&?). unfold es_reset. destruct (reset_frame sid code) as [f|] eqn:Hf; [|done].
  apply Frame_new_Ok in Hf as [-> _]. done.
Qed.

Lemma steady_stream_frame s f t :
  es_pc s = EdgeLoop → steady s (es_stream_frame s f t).1.
Proof.
  intros Hpc. assert (steady s s) by (by unfold steady; rewrite Hpc).
  assert (steady s (es_remove s (stream_id f)).1) by (by unfold steady; cbn; rewrite Hpc).
  unfold es_stream_frame. destruct (es_remove s (stream_id f)) as [s1 e1].
  repeat first [done | apply steady_reset | case_match]; cbn; by try apply steady_reset.
Qed.

Definition hb_rel (clock last next : Z) (awaiting : bool) (s : EdgeSession) : Prop :=
  match es_pc s with
  | EdgeReturned _ | EdgeEnding => True
  | EdgeSending f AfterPing =>
      awaiting = false ∧ frame_type f = Ping ∧ decode_heartbeat f = Some (MkSequence next) ∧
      pending_heartbeat s = None ∧ heartbeat_sequence s = MkSequence next ∧
      last + heartbeat_interval c ≤ clock
  | pc =>
      match pc with EdgeSending f _ => frame_type f ≠ Ping | _ => True end ∧
      heartbeat_timer s = last + (if awaiting then pong_timeout c else heartbeat_interval c) ∧
      pending_heartbeat s = (if awaiting then Some (MkSequence next) else None) ∧
      heartbeat_sequence s = MkSequence (if awaiting then next + 1 else next)
  end.

Lemma hb_rel_steady clock last next aw s now s' :
  es_pc s = EdgeLoop → hb_rel clock last next aw s → steady s s' → hb_rel now last next aw s'.
Proof.
  unfold hb_rel. intros -> (_ & Ht & Hp & Hq) (Ht' & Hp' & Hq' & Hpc').
  destruct (es_pc s') as [|f []| |]; try done.
  - by rewrite Ht', Hp', Hq'.
  - rewrite Ht', Hp', Hq'. by destruct Hpc'.
  - by destruct Hpc'.
Qed.

Lemma steady_closed s sid : es_pc s = EdgeLoop → steady s (es_stream_closed s sid).1.
Proof. intros Hpc. unfold es_stream_closed. cbn. case_match; cbn; [done|]. by unfold steady; cbn; rewrite Hpc. Qed.

Lemma steady_command s o : es_pc s = EdgeLoop → steady s (es_command session_id c s o).1.
Proof.
  intros Hpc. destruct o as [[tag| |]|]; cbn; try done.
  - unfold es_open. repeat case_match; by unfold steady; cbn; rewrite Hpc.
  - unfold es_begin_drain. case_match; by unfold steady; cbn; rewrite ?Hpc.
Qed.

(** What one step adds to the log. *)
Definition hb_step_ok (last next : Z) (aw : bool) (now : Z) (s' : EdgeSession)
    (log : list (Z * hb_entry)) : Prop :=
  match log with
  | [] => hb_rel now last next aw s'
  | [(t, HbPing q)] =>
      t = now ∧ aw = false ∧ q = MkSequence next ∧ last + heartbeat_interval c ≤ now ∧
      hb_rel now now next true s'
  | [(t, HbPong q)] =>
      t = now ∧ aw = true ∧ q = MkSequence next ∧ hb_rel now now (next + 1) false s'
  | [(t, HbRejected f)] =>
      (aw = true → decode_heartbeat f ≠ Some (MkSequence next)) ∧ ∃ r, es_pc s' = EdgeReturned r
  | [(t, HbTimeout q)] =>
      t = now ∧ aw = true ∧ q = MkSequence next ∧ last + pong_timeout c ≤ now ∧
      ∃ r, es_pc s' = EdgeReturned r
  | _ => False
  end.

Lemma hb_pong clock last next aw s now f :
  es_pc s = EdgeLoop → hb_rel clock last next aw s → frame_type f = Pong →
  hb_step_ok last next aw now (es_pong c s now f)
    (match es_pc (es_pong c s now f), decode_heartbeat f with
     | EdgeReturned _, _ | _, None => [(now, HbRejected f)]
     | _, Some q => [(now, HbPong q)]
     end).
Proof.
  intros Hpc Hrel Hf. unfold hb_rel in Hrel. rewrite Hpc in Hrel. destruct Hrel as (_ & Ht & Hp & Hq).
  unfold es_pong. destruct (decode_heartbeat f) as [q|] eqn:Hd; cbn.
  2: { rewrite Hd. split; [done|]. by eexists. }
  destruct (pending_heartbeat s) as [q'|] eqn:Hp'; cbn.
  2: { destruct aw; [done|]. split; [done|]. by eexists. }
  destruct aw; simplify_eq. case_decide; cbn.
  - subst. by rewrite Hpc.
  - rewrite Hd. split; [congruence|]. by eexists.
Qed.

Lemma hb_timer clock last next aw s now :
  edge_inv c s → es_pc s = EdgeLoop → hb_rel clock last next aw s → heartbeat_timer s ≤ now →
  hb_step_ok last next aw now (es_heartbeat s) (hb_entries now EvTimer (es_heartbeat s) []).
Proof.
  intros Hinv Hpc Hrel Hle. unfold hb_rel in Hrel. rewrite Hpc in Hrel.
  destruct Hrel as (_ & Ht & Hp & Hq). unfold es_heartbeat. rewrite Hp. destruct aw.
  - cbn. split_and!; try done; [lia|]. by eexists.
  - destruct (heartbeat_frame Ping (heartbeat_sequence s) eq_refl (ei_sequence _ _ Hinv))
      as (f & -> & Hf & Hd).
    cbn. rewrite Hq in Hd. split_and!; try done. lia.
Qed.

Lemma hb_pinged clock last next aw s now f :
  es_pc s = EdgeSending f AfterPing → edge_inv c s → hb_rel clock last next aw s → clock ≤ now →
  hb_step_ok last next aw now (es_pinged c s now) (hb_sent now (ControlSent f) ++ []).
Proof.
  intros Hpc Hinv Hrel Hle. unfold hb_rel in Hrel. rewrite Hpc in Hrel.
  destruct Hrel as (-> & Hf & Hd & Hp & Hq & Hl). unfold hb_sent. rewrite Hf, Hd. cbn.
  split_and!; try done; [lia|]. unfold es_pinged.
  pose proof (heartbeat_next_no_wrap (heartbeat_sequence s)) as Hn.
  pose proof (ei_sequence _ _ Hinv). specialize (Hn ltac:(lia)).
  destruct (HeartbeatSequence_checked_next (heartbeat_sequence s)) as [[n]|]; [|done].
  cbn in Hn. unfold hb_rel. cbn. rewrite Hq in *. cbn in Hn. split_and!; try done. by f_equal; lia.
Qed.

(** The PINGs are the only control frames of a step that the log records. *)
Lemma hb_step clock last next aw s now ev s' effs :
  edge_inv c s → hb_rel clock last next aw s → clock ≤ now →
  edge_step session_id c s now ev = Some (s', effs) →
  hb_step_ok last next aw now s' (hb_entries now ev s' effs).
Proof.
  intros Hinv Hrel Hle Hstep. unfold edge_step in Hstep.
  destruct (es_pc s) as [|f k| |r] eqn:Hpc; destruct ev as [[[f'|]|e] t|o|sid| |x|[]];
    simplify_eq; cbn [hb_entries]; try done.
  - case_decide as Hf.
    + unfold es_frame in Hstep. rewrite Hf in Hstep. simplify_eq. by eapply hb_pong.
    + eapply hb_rel_steady; [done..|]. pose proof (steady_stream_frame s f' t Hpc) as Hs.
      unfold es_frame in Hstep. destruct (frame_type f'); simplify_eq; try done;
        by rewrite Hstep in Hs.
  - unfold es_break in Hstep. by simplify_eq.
  - eapply hb_rel_steady; [done..|]. pose proof (steady_command s o Hpc) as Hs.
    by rewrite Hstep in Hs.
  - eapply hb_rel_steady; [done..|]. pose proof (steady_closed s sid Hpc) as Hs.
    by rewrite Hstep in Hs.
  - destruct (Z.leb_spec (heartbeat_timer s) now); simplify_eq. by eapply hb_timer.
  - destruct k; [|by eapply hb_pinged].
    unfold hb_rel in Hrel. rewrite Hpc in Hrel. destruct Hrel as [Hf Hrel].
    cbn. unfold hb_sent. by rewrite decide_False.
Qed.

Lemma hb_over s evs r : es_pc s = EdgeReturned r → hb_log session_id c s evs = [].
Proof. intros Hpc. destruct evs as [|[now ev] evs]; cbn; [done|]. unfold edge_step. by rewrite Hpc. Qed.

Lemma hb_log_ok clock last next aw s evs :
  edge_inv c s → hb_rel clock last next aw s → clocked clock evs →
  hb_ok c last next aw (hb_log session_id c s evs).
Proof.
  revert clock last next aw s.
  induction evs as [|[now ev] evs IH]; intros clock last next aw s Hinv Hrel; cbn; [done|].
  intros [Hle Hclk]. destruct (edge_step session_id c s now ev) as [[s1 e1]|] eqn:Hstep; [|done].
  pose proof (hb_step _ _ _ _ _ _ _ _ _ Hinv Hrel Hle Hstep) as Hs.
  destruct (edge_step_post _ _ _ _ _ _ _ Hinv Hstep) as [Hi _ _].
  destruct (hb_entries now ev s1 e1) as [|[t [q|q|f|q]] [|? ?]]; try done; cbn in Hs |- *.
  - by eapply IH.
  - destruct Hs as (-> & -> & -> & ? & ?). split_and!; try done. by eapply IH.
  - destruct Hs as (-> & -> & -> & ?). split_and!; try done. by eapply IH.
  - destruct Hs as [Hf [r Hr]]. by rewrite (hb_over s1 evs r Hr).
  - destruct Hs as (-> & -> & -> & ? & [r Hr]). by rewrite (hb_over s1 evs r Hr).
Qed.
End heartbeats.

(** C22. The heartbeat of a session that starts at [now] follows the protocol on
    every sequence of events whose times do not go back: PINGs carry 1, 2, 3, ...,
    each sent one interval or more after the start or the previous PONG, with
    never two unanswered; a PONG is accepted exactly when it answers the PING
    that is outstanding, and any other ends the session; a timeout comes only
    with a PING outstanding for [pong_timeout], and names it. *)
Theorem edge_heartbeat_protocol session_id c now evs :
  clocked now evs →
  hb_ok c now 1 false (hb_log session_id c (edge_session_new c now) evs).
Proof.
  intros Hclk. apply (hb_log_ok _ _ now); [apply edge_inv_new| |done].
  by unfold hb_rel.
Qed.

(** ** Dispatch *)

Definition delivered_of (sid : StreamId) (e : edge_effect) : list Frame :=
  match e with Delivered sid' f => if decide (sid' = sid) then [f] else [] | _ => [] end.
Definition delivered (sid : StreamId) (effs : list edge_effect) : list Frame :=
  effs ≫= delivered_of sid.

(** The frames of the stream the session decodes. *)
Definition arrived_of (sid : StreamId) (ev : edge_event) : list Frame :=
  match ev with
  | EvDecoded (Ok (Some f)) _ =>
      match frame_type f with
      | OpenStream | DataFrame | EndStream | ResetStream =>
          if decide (stream_id f = sid) then [f] else []
      | _ => []
      end
  | _ => []
  end.
Definition arrived (sid : StreamId) (evs : list (Z * edge_event)) : list Frame :=
  evs.*2 ≫= arrived_of sid.

Section dispatch.
Context (session_id : TransportSessionId) (c : edge_config) (sid : StreamId).

(** A step keeps the stream and hands its frame over, or drops it for good. *)
Definition dispatch_post (open open' : gset StreamId) (frames out : list Frame) : Prop :=
  if decide (sid ∈ open) then (sid ∈ open' ∧ out = frames) ∨ ((sid ∉ open') ∧ out = [])
  else (sid ∉ open') ∧ out = [].

Lemma delivered_app l k : delivered sid (l ++ k) = delivered sid l ++ delivered sid k.
Proof. apply bind_app. Qed.
Lemma delivered_remove s sid' : delivered sid (es_remove s sid').2 = [].
Proof. unfold es_remove. cbn. by case_decide. Qed.
Lemma delivered_break s : delivered sid (es_break s).2 = [].
Proof. unfold es_break. cbn. by induction (elements (es_streams s)). Qed.
Lemma es_reset_streams s sid' code : es_streams (es_reset s sid' code) = es_streams s.
Proof. unfold es_reset. by destruct (reset_frame sid' code). Qed.

Lemma dispatch_same open open' : open' = open → dispatch_post open open' [] [].
Proof. unfold dispatch_post. intros ->. case_decide; auto. Qed.

Lemma dispatch_removed open open' sid' frames out :
  open' = open ∖ {[sid']} → out = [] → (sid' ≠ sid → frames = []) →
  dispatch_post open open' frames out.
Proof.
  unfold dispatch_post. intros -> -> Hf. destruct (decide (sid' = sid)) as [->|Hne].
  - case_decide; [right|]; (split; [set_solver|done]).
  - rewrite (Hf Hne). case_decide; [left|]; (split; [set_solver|done]).
Qed.

Lemma dispatch_break s s' effs :
  es_break s = (s', effs) → dispatch_post (es_streams s) (es_streams s') [] (delivered sid effs).
Proof.
  intros Hb. pose proof (delivered_break s) as Hd. rewrite Hb in Hd. cbn [snd] in Hd. rewrite Hd.
  unfold es_break in Hb. simplify_eq. unfold dispatch_post. cbn.
  case_decide; [right|]; set_solver.
Qed.

Lemma dispatch_stream_frame s f t :
  let frames := if decide (stream_id f = sid) then [f] else [] in
  dispatch_post (es_streams s) (es_streams (es_stream_frame s f t).1) frames
    (delivered sid (es_stream_frame s f t).2).
Proof.
  intros frames. unfold es_stream_frame.
  set (count := if decide (frame_type f = DataFrame)
                then [CountReceived (zlen (payload f))] else []).
  assert (delivered sid count = []) as Hc by (unfold count; by case_decide).
  pose proof (delivered_remove s (stream_id f)) as Hr.
  assert (stream_id f ≠ sid → frames = []) as Hf.
  { intros Hne. unfold frames. by rewrite decide_False. }
  destruct (es_remove s (stream_id f)) as [s1 e1] eqn:He. cbn [snd] in Hr.
  assert (es_streams s1 = es_streams s ∖ {[stream_id f]}) as Hs1.
  { unfold es_remove in He. by simplify_eq. }
  destruct (bool_decide _ && _).
  { cbn [fst snd]. apply (dispatch_removed (es_streams s) _ (stream_id f)); [|exact Hr|done].
    by rewrite es_reset_streams. }
  case_decide as Hin; [destruct t|]; cbn [fst snd]; rewrite ?delivered_app, ?Hc.
  - cbn. rewrite app_nil_r. unfold dispatch_post. case_decide; [by left|].
    split; [done|]. by rewrite decide_False by congruence.
  - apply (dispatch_removed (es_streams s) _ (stream_id f)); [|exact Hr|done]. by rewrite es_reset_streams.
  - apply (dispatch_removed (es_streams s) _ (stream_id f)); [|exact Hr|done].
    case_decide; by rewrite ?es_reset_streams.
  - assert (es_streams (if decide (frame_type f = ResetStream) then s
              else es_reset s (stream_id f) UnknownStream) = es_streams s) as Hs.
    { case_decide; by rewrite ?es_reset_streams. }
    apply (dispatch_removed (es_streams s) _ (stream_id f)); [rewrite Hs; set_solver|done|done].
Qed.

Lemma dispatch_open s tag :
  edge_inv c s → stream_raw sid ≤ allocated s →
  dispatch_post (es_streams s) (es_streams (es_open session_id c s tag).1) []
    (delivered sid (es_open session_id c s tag).2).
Proof.
  intros Hinv Ha. unfold es_open. repeat case_match; try by apply dispatch_same.
  apply StreamId_new_Some in H1 as [Hnz ->]. unfold dispatch_post. cbn.
  assert (sid ≠ MkStreamId (next_stream_id s)) as Hne.
  { intros ->. cbn in Ha. unfold allocated in Ha.
    destruct (Z.eqb_spec (next_stream_id s) 0); [done|lia]. }
  case_decide; [left|]; (split; [set_solver|done]).
Qed.

Lemma dispatch_step s now ev s' effs :
  edge_inv c s → stream_raw sid ≤ allocated s →
  edge_step session_id c s now ev = Some (s', effs) →
  dispatch_post (es_streams s) (es_streams s') (arrived_of sid ev) (delivered sid effs).
Proof.
  intros Hinv Ha Hstep. unfold edge_step in Hstep.
  destruct (es_pc s) as [|f k| |r] eqn:Hpc; destruct ev as [[[f'|]|e] t|o|sid'| |x|[]];
    simplify_eq; try by apply dispatch_same.
  - unfold es_frame in Hstep. cbn. pose proof (dispatch_stream_frame s f' t) as Hd.
    cbn zeta in Hd.
    destruct (frame_type f') eqn:Hft; simplify_eq;
      first [by rewrite Hstep in Hd | apply dispatch_same; unfold es_pong; by repeat case_match].
  - by apply dispatch_break.
  - destruct o as [[tag| |]|]; cbn -[es_break] in Hstep; try by apply dispatch_break.
    + pose proof (dispatch_open s tag Hinv Ha) as Hd. by rewrite Hstep in Hd.
    + unfold es_begin_drain in Hstep. case_decide; [|by simplify_eq; apply dispatch_same].
      by apply dispatch_break in Hstep.
  - unfold es_stream_closed in Hstep. pose proof (delivered_remove s sid') as Hr.
    destruct (es_remove s sid') as [s1 e1] eqn:He. cbn [snd] in Hr.
    assert (es_streams s1 = es_streams s ∖ {[sid']}) as Hs1.
    { unfold es_remove in He. by simplify_eq. }
    destruct (draining s1 && _); [|simplify_eq; by eapply dispatch_removed].
    unfold es_break in Hstep. cbn zeta in Hstep. injection Hstep as <- <-.
    rewrite delivered_app, Hr. change (Dropped <$> _) with (es_break s1).2.
    rewrite delivered_break. unfold dispatch_post. cbn. case_decide; [right|]; set_solver.
  - case_match; simplify_eq. apply dispatch_same. unfold es_heartbeat. by repeat case_match.
  - apply dispatch_same. destruct k; [done|]. unfold es_pinged. by case_match.
Qed.

Lemma dispatch_run s evs s' effs :
  edge_inv c s → stream_raw sid ≤ allocated s →
  edge_run session_id c s evs = Some (s', effs) →
  if decide (sid ∈ es_streams s) then
    delivered sid effs `prefix_of` arrived sid evs ∧
    (sid ∈ es_streams s' → delivered sid effs = arrived sid evs)
  else (sid ∉ es_streams s') ∧ delivered sid effs = [].
Proof.
  revert s effs. induction evs as [|[now ev] evs IH]; intros s effs Hinv Ha Hrun; cbn in Hrun.
  { simplify_eq. by case_decide. }
  destruct (edge_step session_id c s now ev) as [[s1 e1]|] eqn:Hstep; [|done].
  destruct (edge_run session_id c s1 evs) as [[s2 e2]|] eqn:Hrest; [|done]. simplify_eq.
  pose proof (dispatch_step s now ev s1 e1 Hinv Ha Hstep) as Hd.
  destruct (edge_step_post _ _ _ _ _ _ _ Hinv Hstep) as [Hi Hs _].
  assert (stream_raw sid ≤ allocated s1) as Ha1.
  { apply (f_equal length) in Hs. rewrite length_app, !first_ids_length in Hs.
    pose proof (allocated_range _ _ Hinv). pose proof (allocated_range _ _ Hi). lia. }
  specialize (IH s1 e2 Hi Ha1 Hrest).
  change (arrived sid ((now, ev) :: evs)) with (arrived_of sid ev ++ arrived sid evs).
  rewrite delivered_app. unfold dispatch_post in Hd.
  destruct (decide (sid ∈ es_streams s)).
  - destruct Hd as [[Hin ->]|[Hout ->]].
    + rewrite decide_True in IH by done. destruct IH as [IH1 IH2].
      split; [by apply prefix_app|]. intros Hin'. by rewrite IH2.
    + rewrite decide_False in IH by done. destruct IH as [IH1 ->].
      split; [apply prefix_nil|done].
  - destruct Hd as [Hout ->]. by rewrite decide_False in IH by done.
Qed.
End dispatch.

(** Frames of a stream reach its task in the order they arrive, and a stream
    once dropped gets nothing more: from any reachable state on, what is queued
    for an open stream is a prefix of the frames the session decodes for it, and
    is all of them as long as the stream stays open; a stream that was spawned
    and dropped is never opened again, whatever still arrives for it. *)
Theorem edge_dispatch_in_order session_id c now sid before s effs evs s' effs' :
  edge_run session_id c (edge_session_new c now) before = Some (s, effs) →
  edge_run session_id c s evs = Some (s', effs') →
  sid ∈ spawned effs →
  (sid ∈ es_streams s → delivered sid effs' `prefix_of` arrived sid evs) ∧
  (sid ∈ es_streams s → sid ∈ es_streams s' → delivered sid effs' = arrived sid evs) ∧
  (sid ∉ es_streams s → sid ∉ es_streams s' ∧ delivered sid effs' = []).
Proof.
  intros Hrun Hrun' Hin.
  destruct (edge_run_post _ _ _ _ _ _ (edge_inv_new c now) Hrun) as (Hinv & Hsp & _).
  change (first_ids (allocated (edge_session_new c now))) with ([] : list StreamId) in Hsp.
  cbn in Hsp. rewrite <-Hsp, elem_of_first_ids in Hin.
  pose proof (dispatch_run _ _ sid _ _ _ _ Hinv (proj2 Hin) Hrun') as Hd.
  case_decide; naive_solver.
Qed.

(** ** A session with two streams and one heartbeat *)

Definition small_config : edge_config := MkEdgeConfig 2 10 5.
Definition pong_frame (q : Z) : Frame := MkFrame Pong 0 StreamId_CONTROL (to_be 8 q).
Definition opening : list (Z * edge_event) :=
  [(1, EvCommand (Some (CmdOpen 0))); (2, EvCommand (Some (CmdOpen 1)));
   (3, EvCommand (Some (CmdOpen 2)))].
Definition serving : list (Z * edge_event) :=
  [(4, EvDecoded (Ok (Some (open_frame 1))) TrySent); (10, EvTimer); (10, EvControlSent true);
   (11, EvDecoded (Ok (Some (data_frame 2 "late"))) TryFull); (11, EvControlSent true);
   (12, EvDecoded (Ok (Some (data_frame 1 "hello"))) TrySent);
   (12, EvDecoded (Ok (Some (data_frame 2 "more"))) TrySent); (12, EvControlSent true);
   (13, EvDecoded (Ok (Some (pong_frame 1))) TrySent);
   (14, EvCommand (Some CmdBeginDrain)); (15, EvCommand (Some (CmdOpen 3)))].
Abbreviation small_run s evs := (edge_run (MkSessionId 7) small_config s evs).
Definition open_session : EdgeSession :=
  MkEdgeSession EdgeLoop {[MkStreamId 1; MkStreamId 2]} 3 (MkSequence 1) None false 10.
Definition drained_session : EdgeSession :=
  MkEdgeSession EdgeLoop {[MkStreamId 1]} 3 (MkSequence 2) None true 23.
Definition opening_effects : list edge_effect :=
  [Spawned 0 (MkStreamId 1); Spawned 1 (MkStreamId 2);
   Answered 2 (RouteCapacityExceeded (MkSessionId 7))].
Definition serving_effects : list edge_effect :=
  match small_run open_session serving with Some (_, effs) => effs | None => [] end.

Lemma opening_run :
  small_run (edge_session_new small_config 0) opening = Some (open_session, opening_effects).
Proof. by vm_compute. Qed.
Lemma serving_run :
  small_run open_session serving = Some (drained_session, serving_effects).
Proof. by vm_compute. Qed.

Lemma edge_stream_identifiers_witness :
  spawned opening_effects = first_ids 2 ∧ answered opening_effects = [0; 1; 2]%nat ∧
  spawned serving_effects = [] ∧ answered serving_effects = [3%nat].
Proof.
  destruct (edge_stream_identifiers (MkSessionId 7) small_config 0 opening open_session
              opening_effects opening_run) as (H1 & _ & _ & _ & H5 & _).
  split; [exact H1|]. split; [exact H5|]. split; by vm_compute.
Defined.

Lemma edge_heartbeat_protocol_witness :
  hb_log (MkSessionId 7) small_config (edge_session_new small_config 0) (opening ++ serving) =
    [(10, HbPing (MkSequence 1)); (13, HbPong (MkSequence 1))] ∧
  hb_ok small_config 0 1 false
    (hb_log (MkSessionId 7) small_config (edge_session_new small_config 0) (opening ++ serving)).
Proof.
  split; [by vm_compute|]. apply (edge_heartbeat_protocol (MkSessionId 7) small_config 0).
  cbn. lia.
Defined.

Lemma edge_dispatch_in_order_witness :
  delivered (MkStreamId 1) serving_effects = [open_frame 1; data_frame 1 "hello"] ∧
  delivered (MkStreamId 2) serving_effects `prefix_of` arrived (MkStreamId 2) serving.
Proof.
  destruct (edge_dispatch_in_order (MkSessionId 7) small_config 0 (MkStreamId 1) opening
    open_session opening_effects serving drained_session serving_effects opening_run serving_run
    ltac:(apply (bool_decide_unpack _); by vm_compute)) as (_ & H1 & _).
  destruct (edge_dispatch_in_order (MkSessionId 7) small_config 0 (MkStreamId 2) opening
    open_session opening_effects serving drained_session serving_effects opening_run serving_run
    ltac:(apply (bool_decide_unpack _); by vm_compute)) as (H2 & _ & _).
  split; [apply H1|apply H2]; apply (bool_decide_unpack _); by vm_compute.
Defined.

(** ** An Agent that does not read *)

(** The Agent leaves a PING unanswered, stops reading, and sends one frame of a
    stream that is not open. *)
Definition unread : list (Z * edge_event) :=
  [(10, EvTimer); (10, EvControlSent true);
   (11, EvDecoded (Ok (Some (data_frame 9 "x"))) TrySent)].
Definition unread_session : EdgeSession :=
  MkEdgeSession
    (EdgeSending (MkFrame ResetStream 0 (MkStreamId 9) (StreamResetCode_to_be_bytes UnknownStream))
       AfterReset) ∅ 1 (MkSequence 2) (Some (MkSequence 1)) false 15.

(** An Agent that stops reading suspends its own heartbeat deadline.  The
    answer to a frame of an unknown stream is sent inside the branch of the
    session's loop: while the control queue has no room, the session waits for
    it and for nothing else.  The deadline of the pending PONG passes
    unobserved, at any time after it, and a revocation is not taken either. *)
Theorem unread_socket_suspends_heartbeat :
  (∃ effs, small_run (edge_session_new small_config 0) unread = Some (unread_session, effs)) ∧
  pending_heartbeat unread_session = Some (MkSequence 1) ∧ heartbeat_timer unread_session = 15 ∧
  (∀ now, edge_step (MkSessionId 7) small_config unread_session now EvTimer = None ∧
     edge_step (MkSessionId 7) small_config unread_session now
       (EvCommand (Some CmdRevokeAuthorization)) = None) ∧
  (∀ now ev r, edge_step (MkSessionId 7) small_config unread_session now ev = Some r →
     ∃ ok, ev = EvControlSent ok).
Proof.
  split_and!; [eexists; by vm_compute|done..|].
  intros now ev r Hstep. destruct ev as [| | | | |ok]; try done. by exists ok.
Qed.
