(* ===== verification/AgentSession.v ===== *)
(** * AgentSession: the session loop of the Agent

    [AgentSession::run_multiplexed_inner] of [crates/agent/src/multiplex.rs]:
    admission of the streams the Edge opens, the answers to its PINGs, the
    dispatch of its frames to the stream tasks, and the drain on shutdown.  The
    [select!] is biased: the shutdown signal is looked at before the drain
    deadline, and both before anything else.  [signal_at] is the time of the
    shutdown signal; the other branches become ready as the environment says. *)

From S2P Require Import Prelude AsyncIo Net Frame Codec Handshake FairQueue BoundedQueue.
From S2P Require Import Telemetry WriterActor StreamTask EdgeSession.

(** ** Errors and configuration *)

Inductive AgentError : Type :=
| AE_Connect (e : io_error)
| AE_PlaintextRemoteEdge (addr : SocketAddr)
| AE_ConnectTimeout
| AE_HandshakeTimeout
| AE_TlsHandshakeTimeout
| AE_TlsTransport (e : io_error)
| AE_TlsAuthentication (reason : string)
| AE_ProtocolViolation (reason : string)
| AE_ProtocolDecode (e : ProtocolError)
| AE_UnexpectedFrame (ft : FrameType)
| AE_InvalidRegisteredPayload (reason : string)
| AE_RegistrationRejected (code : option HandshakeErrorCode)
| AE_SessionIo (e : io_error)
| AE_ConnectionClosed
| AE_InvalidHeartbeatPayload (ft : FrameType)
| AE_HeartbeatRejected (code : option HeartbeatErrorCode).

Inductive AgentSessionCloseReason : Type := PeerClosed | LocalShutdown.

#[global] Instance AgentSessionCloseReason_eq_dec : EqDecision AgentSessionCloseReason.
Proof. solve_decision. Defined.

(** Durations in milliseconds. *)
Record MultiplexedAgentConfig : Type := MkAgentConfig {
  ac_local_addr : SocketAddr;
  ac_connect_timeout : Z;
  ac_max_concurrent_streams : Z;
  ac_per_stream_queue_capacity : Z;
  ac_control_queue_capacity : Z;
  ac_data_queue_capacity : Z;
  ac_stream_idle_timeout : Z
}.

Definition MultiplexedAgentConfig_new (local_addr : SocketAddr) : MultiplexedAgentConfig :=
  MkAgentConfig local_addr 5000 32 8 32 128 60000.

Inductive MultiplexedAgentConfigError : Type :=
| ZeroConnectTimeout
| ZeroMaxStreams
| ZeroPerStreamQueue
| ZeroControlQueue
| ZeroDataQueue
| ZeroIdleTimeout.

Definition MultiplexedAgentConfig_validate (c : MultiplexedAgentConfig)
    : Result MultiplexedAgentConfigError unit :=
  if ac_connect_timeout c =? 0 then Err ZeroConnectTimeout
  else if ac_max_concurrent_streams c =? 0 then Err ZeroMaxStreams
  else if ac_per_stream_queue_capacity c =? 0 then Err ZeroPerStreamQueue
  else if ac_control_queue_capacity c =? 0 then Err ZeroControlQueue
  else if ac_data_queue_capacity c =? 0 then Err ZeroDataQueue
  else if ac_stream_idle_timeout c =? 0 then Err ZeroIdleTimeout
  else Ok tt.

(** The reason [run_multiplexed_inner] gives for an invalid configuration. *)
Definition config_reason (e : MultiplexedAgentConfigError) : string :=
  match e with
  | ZeroConnectTimeout => "zero connect timeout"
  | ZeroMaxStreams => "zero max streams"
  | ZeroPerStreamQueue => "zero per-stream queue"
  | ZeroControlQueue => "zero control queue"
  | ZeroDataQueue => "zero data queue"
  | ZeroIdleTimeout => "zero idle timeout"
  end.

Definition agent_writer_error (e : writer_error) : AgentError :=
  match e with
  | WE_ProtocolDecode e => AE_ProtocolDecode e
  | WE_FairQueueInvariant => AE_SessionIo IO_OTHER
  | WE_SessionIo e => AE_SessionIo e
  end.

(** The writer's result once the writer is done: [ok] on success. *)
Definition agent_writer_result (ok : AgentSessionCloseReason) (x : writer_exit)
    : Result AgentError AgentSessionCloseReason :=
  match x with
  | WriterReturned (Ok _) => Ok ok
  | WriterReturned (Err e) => Err (agent_writer_error e)
  | WriterJoinError => Err (AE_SessionIo IO_OTHER)
  end.

Definition decode_heartbeat_error (frame : Frame) : AgentError :=
  AE_HeartbeatRejected
    (if zlen (payload frame) =? 2 then HeartbeatErrorCode_from_be_bytes (payload frame) else None).

Inductive RuntimeShutdownConfigError : Type := ZeroDrainTimeout.

Definition RuntimeShutdownConfig_validate (drain_timeout : Z)
    : Result RuntimeShutdownConfigError unit :=
  if drain_timeout =? 0 then Err ZeroDrainTimeout else Ok tt.

(** ** State *)

Inductive agent_pc : Type :=
| AgentLoop
| AgentSending (f : Frame)                    (** [control_tx.send(frame).await?] *)
| AgentJoining                                (** [stream_tasks.join_next().await] *)
| AgentEnding                                 (** [writer_task.await] *)
| AgentReturned (r : Result AgentError AgentSessionCloseReason).

Record AgentRun : Type := MkAgentRun {
  ag_pc : agent_pc;
  ag_streams : gset StreamId;
  ag_tasks : nat;                             (** tasks of the [JoinSet] not yet joined *)
  ag_draining : bool;
  ag_forced : bool;
  ag_deadline : Z;                            (** [drain_deadline] *)
  ag_reason : AgentSessionCloseReason
}.

Inductive agent_event : Type :=
| AvShutdown
| AvDeadline
| AvDecoded (r : Result ProtocolError (option Frame)) (t : try_sent)
| AvClosed (sid : StreamId)
| AvJoined
| AvWriter (x : writer_exit)
| AvControlSent (ok : bool).

Inductive agent_effect : Type :=
| AgDelivered (sid : StreamId) (f : Frame)
| AgDropped (sid : StreamId)
| AgSpawned (sid : StreamId)
| AgControlSent (f : Frame)
| AgCountReset
| AgCountReceived (n : Z)
| AgAbortAll.

Definition YEAR_MS : Z := 365 * 24 * 60 * 60 * 1000.

Definition agent_run_new (now : Z) : AgentRun :=
  MkAgentRun AgentLoop ∅ 0 false false (now + YEAR_MS) PeerClosed.

Definition ag_at (s : AgentRun) (pc : agent_pc) : AgentRun :=
  MkAgentRun pc (ag_streams s) (ag_tasks s) (ag_draining s) (ag_forced s) (ag_deadline s)
    (ag_reason s).
Definition ag_with_streams (s : AgentRun) (streams : gset StreamId) : AgentRun :=
  MkAgentRun (ag_pc s) streams (ag_tasks s) (ag_draining s) (ag_forced s) (ag_deadline s)
    (ag_reason s).
Definition ag_with_tasks (s : AgentRun) (tasks : nat) : AgentRun :=
  MkAgentRun (ag_pc s) (ag_streams s) tasks (ag_draining s) (ag_forced s) (ag_deadline s)
    (ag_reason s).

Definition ag_fail (s : AgentRun) (e : AgentError) : AgentRun := ag_at s (AgentReturned (Err e)).

(** [while stream_tasks.join_next().await.is_some() {}]. *)
Definition ag_join (s : AgentRun) : AgentRun :=
  ag_at s (match ag_tasks s with O => AgentEnding | S _ => AgentJoining end).

(** What follows the loop, up to the writer's end. *)
Definition ag_break (s : AgentRun) : AgentRun * list agent_effect :=
  (ag_join (ag_with_streams s ∅),
   (AgDropped <$> elements (ag_streams s)) ++ (if ag_forced s then [AgAbortAll] else [])).

Section agent_session.
Context (config : MultiplexedAgentConfig).
(** The shutdown signal and [drain_timeout], when the caller gave them. *)
Context (shutdown : option (Z * Z)).

Definition signalled (now : Z) : bool :=
  match shutdown with Some (signal_at, _) => signal_at <=? now | None => false end.
Definition drain_timeout : Z := match shutdown with Some (_, d) => d | None => 0 end.

Definition ag_begin_drain (s : AgentRun) (now : Z) : AgentRun * list agent_effect :=
  let s' := MkAgentRun (ag_pc s) (ag_streams s) (ag_tasks s) true (ag_forced s)
              (now + drain_timeout) LocalShutdown in
  if decide (ag_streams s = ∅) then ag_break s' else (s', []).

Definition ag_force (s : AgentRun) : AgentRun * list agent_effect :=
  ag_break (MkAgentRun (ag_pc s) (ag_streams s) (ag_tasks s) (ag_draining s) true
              (ag_deadline s) LocalShutdown).

Definition ag_reset (s : AgentRun) (sid : StreamId) (code : StreamResetCode) : AgentRun :=
  match reset_frame sid code with
  | Ok f => ag_at s (AgentSending f)
  | Err e => ag_fail s (AE_ProtocolDecode e)
  end.

Definition ag_remove (s : AgentRun) (sid : StreamId) : AgentRun * list agent_effect :=
  (ag_with_streams s (ag_streams s ∖ {[sid]}),
   if decide (sid ∈ ag_streams s) then [AgDropped sid] else []).

Definition ag_ping (s : AgentRun) (frame : Frame) : AgentRun :=
  match decode_heartbeat frame with
  | None => ag_fail s (AE_InvalidHeartbeatPayload Ping)
  | Some sequence =>
      match Frame_control Pong (HeartbeatSequence_to_be_bytes sequence) with
      | Ok f => ag_at s (AgentSending f)
      | Err e => ag_fail s (AE_ProtocolDecode e)
      end
  end.

Definition ag_open (s : AgentRun) (frame : Frame) : AgentRun * list agent_effect :=
  let sid := stream_id frame in
  if ag_draining s then (ag_reset s sid SessionClosing, [])
  else if negb (zlen (payload frame) =? 0) || bool_decide (sid ∈ ag_streams s) then
    (ag_reset s sid ProtocolViolation, [])
  else if ac_max_concurrent_streams config <=? Z.of_nat (size (ag_streams s)) then
    (ag_reset s sid CapacityExceeded, [])
  else
    (MkAgentRun (ag_pc s) (ag_streams s ∪ {[sid]}) (S (ag_tasks s)) (ag_draining s) (ag_forced s)
       (ag_deadline s) (ag_reason s), [AgSpawned sid]).

Definition ag_stream_frame (s : AgentRun) (frame : Frame) (t : try_sent)
    : AgentRun * list agent_effect :=
  let sid := stream_id frame in
  if bool_decide (frame_type frame = DataFrame)
     && (MULTIPLEXED_DATA_PAYLOAD_SIZE <? zlen (payload frame)) then
    let '(s', effs) := ag_remove s sid in
    (ag_reset s' sid FlowControlExceeded, AgCountReset :: effs)
  else
    let count :=
      if decide (frame_type frame = DataFrame) then [AgCountReceived (zlen (payload frame))]
      else [] in
    if decide (sid ∈ ag_streams s) then
      match t with
      | TrySent => (s, count ++ [AgDelivered sid frame])
      | TryFull =>
          let '(s', effs) := ag_remove s sid in
          (ag_reset s' sid FlowControlExceeded, count ++ AgCountReset :: effs)
      | TryClosed =>
          let '(s', effs) := ag_remove s sid in
          (if decide (frame_type frame = ResetStream) then s' else ag_reset s' sid UnknownStream,
           count ++ effs)
      end
    else
      (if decide (frame_type frame = ResetStream) then s else ag_reset s sid UnknownStream, count).

Definition ag_frame (s : AgentRun) (frame : Frame) (t : try_sent)
    : AgentRun * list agent_effect :=
  match frame_type frame with
  | Ping => (ag_ping s frame, [])
  | OpenStream => ag_open s frame
  | DataFrame | EndStream | ResetStream => ag_stream_frame s frame t
  | ErrorFrame => (ag_fail s (decode_heartbeat_error frame), [])
  | ft => (ag_fail s (AE_UnexpectedFrame ft), [])
  end.

Definition ag_stream_closed (s : AgentRun) (sid : StreamId) : AgentRun * list agent_effect :=
  let '(s', effs) := ag_remove s sid in
  if ag_draining s' && bool_decide (ag_streams s' = ∅) then
    let '(s'', effs') := ag_break s' in (s'', effs ++ effs')
  else (s', effs).

Definition agent_step (s : AgentRun) (now : Z) (ev : agent_event)
    : option (AgentRun * list agent_effect) :=
  match ag_pc s with
  | AgentLoop =>
      if negb (ag_draining s) && signalled now then
        match ev with AvShutdown => Some (ag_begin_drain s now) | _ => None end
      else if ag_draining s && (ag_deadline s <=? now) then
        match ev with AvDeadline => Some (ag_force s) | _ => None end
      else
        match ev with
        | AvDecoded (Err e) _ => Some (ag_fail s (AE_ProtocolDecode e), [])
        | AvDecoded (Ok None) _ => Some (ag_break s)
        | AvDecoded (Ok (Some frame)) t => Some (ag_frame s frame t)
        | AvClosed sid => Some (ag_stream_closed s sid)
        | AvJoined => match ag_tasks s with O => None | S n => Some (ag_with_tasks s n, []) end
        | AvWriter x => Some (ag_at s (AgentReturned (agent_writer_result LocalShutdown x)), [])
        | _ => None
        end
  | AgentSending f =>
      match ev with
      | AvControlSent true => Some (ag_at s AgentLoop, [AgControlSent f])
      | AvControlSent false => Some (ag_fail s AE_ConnectionClosed, [])
      | _ => None
      end
  | AgentJoining =>
      match ev, ag_tasks s with
      | AvJoined, S n => Some (ag_join (ag_with_tasks s n), [])
      | _, _ => None
      end
  | AgentEnding =>
      match ev with
      | AvWriter x => Some (ag_at s (AgentReturned (agent_writer_result (ag_reason s) x)), [])
      | _ => None
      end
  | AgentReturned _ => None
  end.

Fixpoint agent_run (s : AgentRun) (evs : list (Z * agent_event))
    : option (AgentRun * list agent_effect) :=
  match evs with
  | [] => Some (s, [])
  | (now, ev) :: evs =>
      match agent_step s now ev with
      | Some (s', effs) =>
          match agent_run s' evs with
          | Some (s'', effs') => Some (s'', effs ++ effs')
          | None => None
          end
      | None => None
      end
  end.

(** [run_multiplexed_inner] and its two callers: the configuration is checked first. *)
Definition run_multiplexed_inner (now : Z) (evs : list (Z * agent_event))
    : option (AgentRun * list agent_effect) :=
  match MultiplexedAgentConfig_validate config with
  | Err e => Some (ag_fail (agent_run_new now) (AE_ProtocolViolation (config_reason e)), [])
  | Ok _ => agent_run (agent_run_new now) evs
  end.

Definition run_multiplexed_until_shutdown (now : Z) (evs : list (Z * agent_event))
    : option (AgentRun * list agent_effect) :=
  match RuntimeShutdownConfig_validate drain_timeout with
  | Err _ =>
      Some (ag_fail (agent_run_new now) (AE_ProtocolViolation "zero shutdown drain timeout"), [])
  | Ok _ => run_multiplexed_inner now evs
  end.
End agent_session.

Definition run_multiplexed (config : MultiplexedAgentConfig) (now : Z)
    (evs : list (Z * agent_event)) : option (AgentRun * list agent_effect) :=
  run_multiplexed_inner config None now evs.

(** ** Replies *)

Inductive reply : Type :=
| ReplyPong (q : HeartbeatSequence)
| ReplyOpen (sid : StreamId).

(** What a decoded frame calls for. *)
Definition owed_of (ev : agent_event) : list reply :=
  match ev with
  | AvDecoded (Ok (Some f)) _ =>
      match frame_type f with
      | Ping => match decode_heartbeat f with Some q => [ReplyPong q] | None => [] end
      | OpenStream => [ReplyOpen (stream_id f)]
      | _ => []
      end
  | _ => []
  end.

(** The codes that refuse an OPEN_STREAM. *)
Definition refuses (code : StreamResetCode) : bool :=
  match code with SessionClosing | ProtocolViolation | CapacityExceeded => true | _ => false end.

Definition reply_frame (f : Frame) : list reply :=
  match frame_type f with
  | Pong => match decode_heartbeat f with Some q => [ReplyPong q] | None => [] end
  | ResetStream =>
      match decode_reset f with
      | Some code => if refuses code then [ReplyOpen (stream_id f)] else []
      | None => []
      end
  | _ => []
  end.
Definition reply_of (e : agent_effect) : list reply :=
  match e with
  | AgSpawned sid => [ReplyOpen sid]
  | AgControlSent f => reply_frame f
  | _ => []
  end.
Definition owed (evs : list (Z * agent_event)) : list reply := evs.*2 ≫= owed_of.
Definition replies (effs : list agent_effect) : list reply := effs ≫= reply_of.
Definition reply_pending (s : AgentRun) : list reply :=
  match ag_pc s with AgentSending f => reply_frame f | _ => [] end.
Definition ag_returned (s : AgentRun) : bool :=
  match ag_pc s with AgentReturned _ => true | _ => false end.

Lemma reset_frame_reply sid code f :
  reset_frame sid code = Ok f → reply_frame f = if refuses code then [ReplyOpen sid] else [].
Proof. intros [-> _]%Frame_new_Ok. by destruct code. Qed.

Section replies.
Context (config : MultiplexedAgentConfig) (shutdown : option (Z * Z)).
Implicit Types s : AgentRun.

(** Nothing owed is lost but when the session ends. *)
Definition replied s (due : list reply) s' (effs : list agent_effect) : Prop :=
  if ag_returned s' then replies effs `prefix_of` due
  else due = replies effs ++ reply_pending s'.

Lemma replies_app l k : replies (l ++ k) = replies l ++ replies k.
Proof. apply bind_app. Qed.
Lemma replies_remove s sid : replies (ag_remove s sid).2 = [].
Proof. unfold ag_remove. cbn. by case_decide. Qed.
Lemma replies_break s : replies (ag_break s).2 = [].
Proof.
  unfold ag_break. cbn. rewrite replies_app.
  induction (elements (ag_streams s)); cbn; [by case_match|done].
Qed.
Lemma replied_break s s0 pre :
  replies pre = [] → replied s [] (ag_break s0).1 (pre ++ (ag_break s0).2).
Proof.
  intros Hp. unfold replied. rewrite replies_app, Hp, replies_break.
  unfold ag_break, ag_join, ag_with_streams. cbn. by destruct (ag_tasks s0).
Qed.
Lemma replied_reset s s0 sid code due effs :
  replies effs = [] → due = (if refuses code then [ReplyOpen sid] else []) →
  replied s due (ag_reset s0 sid code) effs.
Proof.
  intros He ->. unfold replied, ag_reset.
  destruct (reset_frame sid code) as [f|] eqn:Hf; cbn; rewrite He; [|apply prefix_nil].
  unfold reply_pending. cbn. by rewrite (reset_frame_reply _ _ _ Hf).
Qed.
Lemma replied_quiet s due effs :
  ag_pc s = AgentLoop → due = replies effs → replied s due s effs.
Proof.
  intros Hpc ->. unfold replied, ag_returned, reply_pending. by rewrite Hpc, app_nil_r.
Qed.

Lemma replied_stream_frame s f t :
  ag_pc s = AgentLoop → replied s [] (ag_stream_frame s f t).1 (ag_stream_frame s f t).2.
Proof.
  intros Hpc. unfold ag_stream_frame.
  set (count := if decide (frame_type f = DataFrame)
                then [AgCountReceived (zlen (payload f))] else []).
  assert (replies count = []) as Hc by (unfold count; by case_decide).
  pose proof (replies_remove s (stream_id f)) as Hr.
  destruct (ag_remove s (stream_id f)) as [s1 e1] eqn:He. cbn [snd] in Hr.
  assert (ag_pc s1 = AgentLoop) as Hpc1 by (unfold ag_remove in He; by simplify_eq).
  destruct (bool_decide _ && _); [by apply replied_reset|].
  case_decide; [destruct t|]; cbn [fst snd].
  - apply replied_quiet; [done|]. by rewrite replies_app, Hc.
  - apply replied_reset; [|done]. by rewrite replies_app, Hc.
  - assert (replies (count ++ e1) = []) as Hce by by rewrite replies_app, Hc, Hr.
    case_decide; [|by apply replied_reset].
    unfold replied, ag_returned, reply_pending. by rewrite Hpc1, Hce.
  - case_decide; [|by apply replied_reset]. by apply replied_quiet.
Qed.

Lemma replied_frame s f t :
  ag_pc s = AgentLoop →
  replied s (owed_of (AvDecoded (Ok (Some f)) t))
    (ag_frame config s f t).1 (ag_frame config s f t).2.
Proof.
  intros Hpc. unfold ag_frame. cbn [owed_of].
  destruct (frame_type f) eqn:Hft; try (by apply replied_stream_frame);
    try (by apply prefix_nil).
  - unfold ag_open. case_match; [by apply replied_reset|].
    case_match; [by apply replied_reset|]. case_match; [by apply replied_reset|].
    unfold replied, ag_returned, reply_pending. cbn. by rewrite Hpc.
  - unfold ag_ping. destruct (decode_heartbeat f) as [q|] eqn:Hd; [|by apply prefix_nil].
    destruct (heartbeat_frame Pong q eq_refl (decode_heartbeat_range _ _ Hd)) as (f' & -> & Hf' & Hd').
    unfold replied, reply_pending. cbn. unfold reply_frame. by rewrite Hf', Hd'.
Qed.

Lemma replied_closed s sid :
  ag_pc s = AgentLoop → replied s [] (ag_stream_closed s sid).1 (ag_stream_closed s sid).2.
Proof.
  intros Hpc. unfold ag_stream_closed. pose proof (replies_remove s sid) as Hr.
  destruct (ag_remove s sid) as [s1 e1] eqn:He. cbn [snd] in Hr.
  destruct (ag_draining s1 && _); [by apply (replied_break s)|].
  unfold ag_remove in He. injection He as <- <-.
  unfold replied, ag_returned, reply_pending. cbn [ag_pc ag_with_streams fst snd].
  by rewrite Hpc, Hr.
Qed.

(** One step pays what it owes or keeps it pending. *)
Lemma agent_step_replies s now ev s' effs :
  agent_step config shutdown s now ev = Some (s', effs) →
  replied s (reply_pending s ++ owed_of ev) s' effs.
Proof.
  unfold agent_step. intros Hstep. unfold reply_pending.
  destruct (ag_pc s) as [|f| | |r] eqn:Hpc; [..|done].
  - cbn [app]. destruct (negb _ && _).
    { destruct ev; try done. simplify_eq. unfold ag_begin_drain in Hstep.
      case_decide; [|simplify_eq; unfold replied, ag_returned, reply_pending; cbn; by rewrite Hpc].
      pose proof (replied_break s (MkAgentRun (ag_pc s) (ag_streams s) (ag_tasks s) true
        (ag_forced s) (now + drain_timeout shutdown) LocalShutdown) [] eq_refl) as Hb.
      by rewrite Hstep in Hb. }
    destruct (_ && _).
    { destruct ev; try done. simplify_eq. unfold ag_force in Hstep.
      pose proof (replied_break s (MkAgentRun (ag_pc s) (ag_streams s) (ag_tasks s)
        (ag_draining s) true (ag_deadline s) LocalShutdown) [] eq_refl) as Hb.
      by rewrite Hstep in Hb. }
    destruct ev as [| |[[f|]|e] t|sid| |x|]; try done; simplify_eq; try by apply prefix_nil.
    + pose proof (replied_frame s f t Hpc) as Hf. by rewrite Hstep in Hf.
    + pose proof (replied_break s s [] eq_refl) as Hb. by rewrite Hstep in Hb.
    + pose proof (replied_closed s sid Hpc) as Hc. by rewrite Hstep in Hc.
    + case_match; simplify_eq. unfold replied, ag_returned, reply_pending. cbn. by rewrite Hpc.
  - destruct ev as [| | | | | |[]]; try done; simplify_eq; unfold replied; cbn; [by rewrite !app_nil_r|].
    apply prefix_nil.
  - destruct ev; try done. destruct (ag_tasks s) as [|n]; simplify_eq.
    unfold replied, ag_join. cbn. by destruct n.
  - destruct ev; try done. simplify_eq. by apply prefix_nil.
Qed.

Lemma agent_run_replies s evs s' effs :
  agent_run config shutdown s evs = Some (s', effs) →
  replied s (reply_pending s ++ owed evs) s' effs.
Proof.
  revert s effs. induction evs as [|[now ev] evs IH]; intros s effs Hrun; cbn in Hrun.
  { simplify_eq. unfold replied. rewrite app_nil_r.
    destruct (ag_returned s') eqn:Hr; [|done]. apply prefix_nil. }
  destruct (agent_step config shutdown s now ev) as [[s1 e1]|] eqn:Hstep; [|done].
  destruct (agent_run config shutdown s1 evs) as [[s2 e2]|] eqn:Hrest; [|done]. simplify_eq.
  apply agent_step_replies in Hstep. pose proof (IH s1 e2 Hrest) as Hrep.
  change (owed ((now, ev) :: evs)) with (owed_of ev ++ owed evs). rewrite app_assoc.
  unfold replied in *. rewrite replies_app. destruct (ag_returned s1) eqn:Hret.
  - unfold ag_returned in Hret.
    destruct evs as [|[now' ev'] evs]; cbn in Hrest.
    + simplify_eq. unfold ag_returned. rewrite !app_nil_r.
      by destruct (ag_pc s').
    + unfold agent_step in Hrest. by destruct (ag_pc s1).
  - rewrite Hstep, <-app_assoc. destruct (ag_returned s'); [by apply prefix_app|].
    by rewrite Hrep, app_assoc.
Qed.
End replies.

(** C27. The Agent answers the Edge: over every run, the PONGs it sends and the
    streams it accepts or refuses answer the PINGs and OPEN_STREAMs it decodes,
    each exactly once, in the same order and with the same sequence number or
    stream.  At most the last answer is still on its way to the writer, and
    answers are lost only when the session ends. *)
Theorem agent_answers_in_order config shutdown now evs s effs :
  agent_run config shutdown (agent_run_new now) evs = Some (s, effs) →
  replies effs `prefix_of` owed evs ∧
  (ag_returned s = false → owed evs = replies effs ++ reply_pending s) ∧
  (ag_pc s = AgentLoop → owed evs = replies effs).
Proof.
  intros Hrun. pose proof (agent_run_replies _ _ _ _ _ _ Hrun) as Hr.
  change (reply_pending (agent_run_new now) ++ owed evs) with (owed evs) in Hr.
  unfold replied in Hr. destruct (ag_returned s) eqn:Hret.
  - split_and!; [done|done|]. unfold ag_returned in Hret. by intros Hpc; rewrite Hpc in Hret.
  - split_and!; [rewrite Hr; by apply prefix_app_r|done|].
    intros Hpc. rewrite Hr. unfold reply_pending. rewrite Hpc. by rewrite app_nil_r.
Qed.

(** ** Shutdown *)

Section shutdown.
Context (config : MultiplexedAgentConfig) (shutdown : option (Z * Z)).
Implicit Types s : AgentRun.

Record agent_inv s : Prop := {
  av_size : Z.of_nat (size (ag_streams s)) ≤ Z.max 0 (ac_max_concurrent_streams config);
  av_idle : ag_draining s = false → ag_reason s = PeerClosed ∧ ag_forced s = false;
  av_drain : ag_draining s = true → ag_reason s = LocalShutdown ∧
    ∃ signal_at timeout, shutdown = Some (signal_at, timeout) ∧
      signal_at + timeout ≤ ag_deadline s;
  av_pc : match ag_pc s with
          | AgentJoining => ag_streams s = ∅ ∧ ag_tasks s ≠ 0%nat
          | AgentEnding => ag_streams s = ∅ ∧ ag_tasks s = 0%nat
          | AgentReturned (Ok PeerClosed) => ag_draining s = false ∧ ag_tasks s = 0%nat
          | _ => True
          end
}.

Lemma agent_inv_new now : agent_inv (agent_run_new now).
Proof. split; cbn; try done. rewrite size_empty. lia. Qed.

(** Steps that change neither the drain nor the number of tasks. *)
Record calm s s' : Prop := {
  cm_streams : ag_streams s' ⊆ ag_streams s;
  cm_draining : ag_draining s' = ag_draining s;
  cm_reason : ag_reason s' = ag_reason s;
  cm_forced : ag_forced s' = ag_forced s;
  cm_deadline : ag_deadline s' = ag_deadline s;
  cm_tasks : ag_tasks s' = ag_tasks s;
  cm_pc : match ag_pc s' with
          | AgentJoining => ag_streams s' = ∅ ∧ ag_tasks s' ≠ 0%nat
          | AgentEnding => ag_streams s' = ∅ ∧ ag_tasks s' = 0%nat
          | AgentReturned (Ok PeerClosed) => False
          | _ => True
          end
}.

Lemma calm_inv s s' : agent_inv s → calm s s' → agent_inv s'.
Proof.
  intros [Hsz Hi Hd Hp] [Hs Hdr Hr Hf Hdl Ht Hpc]. split; rewrite ?Hdr, ?Hr, ?Hf, ?Hdl; try done.
  - etrans; [|exact Hsz]. apply inj_le, subseteq_size, Hs.
  - by destruct (ag_pc s') as [| | | |[[]|]].
Qed.

Lemma calm_reset s s0 sid code : calm s s0 → calm s (ag_reset s0 sid code).
Proof. intros []. unfold ag_reset. by destruct (reset_frame sid code); split. Qed.
Lemma calm_refl s : ag_pc s = AgentLoop → calm s s.
Proof. intros Hpc. split; try done. by rewrite Hpc. Qed.
Lemma calm_removed s sid s' effs :
  ag_pc s = AgentLoop → ag_remove s sid = (s', effs) → calm s s' ∧ ag_pc s' = AgentLoop.
Proof.
  unfold ag_remove. intros Hpc [= <- <-]. split; [|done]. split; cbn; try done; [set_solver|].
  by rewrite Hpc.
Qed.
Lemma calm_break s s' effs : ag_break s = (s', effs) → calm s s'.
Proof.
  unfold ag_break, ag_join. intros [= <- <-]. split; cbn; try done.
  by destruct (ag_tasks s).
Qed.
Lemma calm_trans s s1 s2 : calm s s1 → calm s1 s2 → calm s s2.
Proof. intros [] []. split; try congruence; try done. by etrans. Qed.

Lemma calm_stream_frame s f t :
  ag_pc s = AgentLoop → calm s (ag_stream_frame s f t).1.
Proof.
  intros Hpc. pose proof (calm_refl s Hpc). unfold ag_stream_frame.
  destruct (ag_remove s (stream_id f)) as [s1 e1] eqn:He.
  apply calm_removed in He as [Hc _]; [|done].
  destruct (bool_decide _ && _); [by apply calm_reset|].
  case_decide; [destruct t|]; cbn [fst]; try done; try by apply calm_reset.
  - case_decide; [done|by apply calm_reset].
  - case_decide; [done|by apply calm_reset].
Qed.

Lemma calm_frame s f t :
  ag_pc s = AgentLoop → frame_type f ≠ OpenStream → calm s (ag_frame config s f t).1.
Proof.
  intros Hpc Hf. unfold ag_frame. destruct (frame_type f) eqn:Hft; try done;
    try by apply calm_stream_frame.
  unfold ag_ping. destruct (decode_heartbeat f); [|done]. by destruct (Frame_control Pong _).
Qed.

Lemma calm_closed s sid s' effs :
  ag_pc s = AgentLoop → ag_stream_closed s sid = (s', effs) → calm s s'.
Proof.
  intros Hpc. unfold ag_stream_closed. destruct (ag_remove s sid) as [s1 e1] eqn:He.
  apply calm_removed in He as [Hc _]; [|done]. destruct (ag_draining s1 && _).
  - destruct (ag_break s1) as [s2 e2] eqn:Hb. intros [= <- <-].
    eapply calm_trans; [done|]. by eapply calm_break.
  - by intros [= <- <-].
Qed.

Lemma agent_inv_break s s' effs : agent_inv s → ag_break s = (s', effs) → agent_inv s'.
Proof. intros Hinv Hb. eapply calm_inv; [done|]. by eapply calm_break. Qed.

Lemma agent_inv_drain s now s' effs :
  agent_inv s → ag_pc s = AgentLoop → signalled shutdown now = true →
  ag_begin_drain shutdown s now = (s', effs) → agent_inv s'.
Proof.
  intros [Hsz Hi Hd Hp] Hpc Hsig. unfold ag_begin_drain.
  set (s0 := MkAgentRun _ _ _ true _ _ _).
  assert (agent_inv s0) as Hinv.
  { split; cbn; try done; [|by rewrite Hpc]. intros _. split; [done|].
    unfold signalled, drain_timeout in *. destruct shutdown as [[t d]|]; [|done].
    exists t, d. split; [done|]. apply Z.leb_le in Hsig. lia. }
  case_decide; [by apply agent_inv_break|]. by intros [= <- <-].
Qed.

Lemma agent_inv_force s s' effs :
  agent_inv s → ag_pc s = AgentLoop → ag_draining s = true →
  ag_force s = (s', effs) → agent_inv s'.
Proof.
  intros [Hsz Hi Hd Hp] Hpc Hdr Hf. eapply agent_inv_break; [|exact Hf].
  split; cbn; try done; [by rewrite Hdr|].
  intros _. by destruct (Hd Hdr).
Qed.

Lemma agent_inv_open s f :
  agent_inv s → ag_pc s = AgentLoop → agent_inv (ag_open config s f).1.
Proof.
  intros Hinv Hpc. unfold ag_open.
  assert (∀ code, agent_inv (ag_reset s (stream_id f) code)) as Hreset.
  { intros code. eapply calm_inv; [done|]. by apply calm_reset, calm_refl. }
  case_match; [apply Hreset|]. case_match; [apply Hreset|].
  destruct (Z.leb_spec (ac_max_concurrent_streams config) (Z.of_nat (size (ag_streams s))));
    [apply Hreset|].
  destruct Hinv as [Hsz Hi Hd Hp]. split; cbn; try done; [|by intros _; apply Hi|by rewrite Hpc].
  pose proof (size_union_alt (ag_streams s) {[stream_id f]}) as ->.
  pose proof (subseteq_size ({[stream_id f]} ∖ ag_streams s)
                {[stream_id f]} ltac:(set_solver)) as Hle.
  rewrite size_singleton in Hle. lia.
Qed.

Lemma agent_step_inv s now ev s' effs :
  agent_inv s → agent_step config shutdown s now ev = Some (s', effs) → agent_inv s'.
Proof.
  intros Hinv Hstep. unfold agent_step in Hstep.
  destruct (ag_pc s) as [|f| | |r] eqn:Hpc; [..|done].
  - destruct (negb (ag_draining s) && signalled shutdown now) eqn:Hsig.
    { apply andb_true_iff in Hsig as [_ Hsig].
      destruct ev; try done. injection Hstep as Hstep. by eapply agent_inv_drain. }
    destruct (ag_draining s && _) eqn:Hdl.
    { apply andb_true_iff in Hdl as [Hdr _].
      destruct ev; try done. simplify_eq. by eapply agent_inv_force. }
    destruct ev as [| |[[f|]|e] t|sid| |x|]; try done; simplify_eq.
    + destruct (decide (frame_type f = OpenStream)) as [Hft|Hft].
      * unfold ag_frame in Hstep. rewrite Hft in Hstep.
        pose proof (agent_inv_open s f Hinv Hpc) as Ho. by rewrite Hstep in Ho.
      * pose proof (calm_frame s f t Hpc Hft) as Hc. rewrite Hstep in Hc. by eapply calm_inv.
    + by eapply agent_inv_break.
    + by destruct Hinv.
    + eapply calm_inv; [done|]. by eapply calm_closed.
    + case_match; simplify_eq. destruct Hinv. split; cbn; try done. by rewrite Hpc.
    + destruct Hinv. split; cbn; try done. unfold agent_writer_result. by repeat case_match.
  - destruct Hinv. destruct ev as [| | | | | |[]]; try done; simplify_eq; by split.
  - destruct Hinv as [Hsz Hi Hd Hp]. rewrite Hpc in Hp. destruct Hp as [Hs Ht].
    destruct ev; try done. destruct (ag_tasks s) as [|n] eqn:Hn; simplify_eq.
    split; cbn; try done. by destruct n.
  - destruct Hinv as [Hsz Hi Hd Hp]. rewrite Hpc in Hp. destruct Hp as [Hs Ht].
    destruct ev; try done. simplify_eq. split; cbn; try done. unfold agent_writer_result.
    destruct x as [[|]|]; [|done..]. destruct (ag_reason s) eqn:Hr; [|done].
    split; [|done]. destruct (ag_draining s); [|done]. by destruct (Hd eq_refl).
Qed.

(** ** Tasks and admission times *)

Definition spawn_of (e : agent_effect) : list StreamId :=
  match e with AgSpawned sid => [sid] | _ => [] end.
Definition spawns (effs : list agent_effect) : list StreamId := effs ≫= spawn_of.
Definition join_of (ev : agent_event) : nat := match ev with AvJoined => 1 | _ => 0 end.
Definition joins (evs : list (Z * agent_event)) : nat := sum_list_with join_of evs.*2.

Lemma spawns_app l k : spawns (l ++ k) = spawns l ++ spawns k.
Proof. apply bind_app. Qed.
Lemma spawns_remove s sid : spawns (ag_remove s sid).2 = [].
Proof. unfold ag_remove. cbn. by case_decide. Qed.
Lemma spawns_break s s' effs : ag_break s = (s', effs) → spawns effs = [].
Proof.
  unfold ag_break. intros [= _ <-]. rewrite spawns_app.
  induction (elements (ag_streams s)); cbn; [by case_match|done].
Qed.
Lemma spawns_stream_frame s f t : spawns (ag_stream_frame s f t).2 = [].
Proof.
  unfold ag_stream_frame.
  set (count := if decide (frame_type f = DataFrame)
                then [AgCountReceived (zlen (payload f))] else []).
  assert (spawns count = []) as Hc by (unfold count; by case_decide).
  pose proof (spawns_remove s (stream_id f)) as Hr.
  destruct (ag_remove s (stream_id f)) as [s1 e1]. cbn [snd] in Hr.
  destruct (bool_decide _ && _); [exact Hr|].
  case_decide; [destruct t|]; cbn [fst snd]; by rewrite ?spawns_app, ?Hc.
Qed.

(** Tasks spawned and joined, and the time of admission. *)
Definition task_post s (now : Z) (ev : agent_event) s' (effs : list agent_effect) : Prop :=
  (ag_tasks s + length (spawns effs) = ag_tasks s' + join_of ev)%nat ∧
  (spawns effs ≠ [] → signalled shutdown now = false).

Lemma calm_tasks s now ev s' effs :
  calm s s' → spawns effs = [] → join_of ev = 0%nat → task_post s now ev s' effs.
Proof. intros [] He Hj. unfold task_post. rewrite He, Hj. cbn. split; [lia|done]. Qed.

Lemma reset_tasks s now ev sid code :
  join_of ev = 0%nat → task_post s now ev (ag_reset s sid code) [].
Proof.
  intros Hj. unfold task_post, ag_reset. rewrite Hj.
  destruct (reset_frame sid code); cbn; (split; [lia|done]).
Qed.

Lemma open_tasks s now f t :
  signalled shutdown now = false ∨ ag_draining s = true →
  task_post s now (AvDecoded (Ok (Some f)) t) (ag_open config s f).1 (ag_open config s f).2.
Proof.
  intros Hsig. unfold ag_open.
  destruct (ag_draining s); [by apply reset_tasks|].
  case_match; [by apply reset_tasks|]. case_match; [by apply reset_tasks|].
  split; cbn; [lia|]. intros _. by destruct Hsig.
Qed.

Lemma agent_step_tasks s now ev s' effs :
  agent_step config shutdown s now ev = Some (s', effs) → task_post s now ev s' effs.
Proof.
  intros Hstep. unfold agent_step in Hstep.
  destruct (ag_pc s) as [|f| | |r] eqn:Hpc; [..|done].
  - destruct (negb (ag_draining s) && signalled shutdown now) eqn:Hsig.
    { destruct ev; try done. simplify_eq. unfold ag_begin_drain in Hstep.
      case_decide; [|simplify_eq; split; cbn; [lia|done]].
      pose proof (spawns_break _ _ _ Hstep) as Hs. apply calm_break in Hstep as [].
      unfold task_post. rewrite Hs. cbn in *. split; [lia|done]. }
    destruct (ag_draining s && (ag_deadline s <=? now)).
    { destruct ev; try done. simplify_eq. unfold ag_force in Hstep.
      pose proof (spawns_break _ _ _ Hstep) as Hs. apply calm_break in Hstep as [].
      unfold task_post. rewrite Hs. cbn in *. split; [lia|done]. }
    assert (signalled shutdown now = false ∨ ag_draining s = true) as Hor.
    { destruct (ag_draining s), (signalled shutdown now); auto. }
    destruct ev as [| |[[f|]|e] t|sid| |x|]; try done; simplify_eq.
    + destruct (decide (frame_type f = OpenStream)) as [Hft|Hft].
      * unfold ag_frame in Hstep. rewrite Hft in Hstep.
        pose proof (open_tasks s now f t Hor) as Ho. by rewrite Hstep in Ho.
      * pose proof (calm_frame s f t Hpc Hft) as Hc. rewrite Hstep in Hc.
        apply calm_tasks; [done| |done]. pose proof (spawns_stream_frame s f t) as Hs.
        unfold ag_frame in Hstep. destruct (frame_type f); simplify_eq; try done;
          by rewrite Hstep in Hs.
    + apply calm_tasks; [by eapply calm_break|by eapply spawns_break|done].
    + by split; cbn; [lia|].
    + apply calm_tasks; [by eapply calm_closed| |done].
      unfold ag_stream_closed in Hstep. pose proof (spawns_remove s sid) as Hr.
      destruct (ag_remove s sid) as [s1 e1]. cbn [snd] in Hr.
      destruct (ag_draining s1 && _); [|by simplify_eq].
      destruct (ag_break s1) as [s2 e2] eqn:Hb. simplify_eq.
      by rewrite spawns_app, Hr, (spawns_break _ _ _ Hb).
    + destruct (ag_tasks s) eqn:Ht; simplify_eq. split; cbn; [lia|done].
    + by split; cbn; [lia|].
  - destruct ev as [| | | | | |[]]; try done; simplify_eq; by split; cbn; [lia|].
  - destruct ev; try done. destruct (ag_tasks s) as [|n] eqn:Hn; simplify_eq.
    by split; cbn; [lia|].
  - destruct ev; try done. simplify_eq. by split; cbn; [lia|].
Qed.

Fixpoint spawn_times s (evs : list (Z * agent_event)) : list Z :=
  match evs with
  | [] => []
  | (now, ev) :: evs =>
      match agent_step config shutdown s now ev with
      | Some (s', effs) => ((λ _, now) <$> spawns effs) ++ spawn_times s' evs
      | None => []
      end
  end.

Lemma agent_run_shutdown s evs s' effs :
  agent_inv s → agent_run config shutdown s evs = Some (s', effs) →
  agent_inv s' ∧ (ag_tasks s + length (spawns effs) = ag_tasks s' + joins evs)%nat ∧
  Forall (λ t, signalled shutdown t = false) (spawn_times s evs).
Proof.
  revert s effs. induction evs as [|[now ev] evs IH]; intros s effs Hinv Hrun; cbn in Hrun.
  { simplify_eq. cbn. split_and!; [done|lia|constructor]. }
  cbn [spawn_times]. destruct (agent_step config shutdown s now ev) as [[s1 e1]|] eqn:Hstep; [|done].
  destruct (agent_run config shutdown s1 evs) as [[s2 e2]|] eqn:Hrest; [|done]. simplify_eq.
  pose proof (agent_step_inv _ _ _ _ _ Hinv Hstep) as Hi.
  apply agent_step_tasks in Hstep as [Ht Hsig].
  destruct (IH s1 e2 Hi Hrest) as (Hi2 & Ht2 & Hs2).
  rewrite spawns_app, length_app. unfold joins in *. cbn. split_and!; [done|lia|].
  apply Forall_app. split; [|done]. destruct (spawns e1); cbn; [constructor|].
  constructor; [by apply Hsig|]. apply Forall_fmap, Forall_true. intros ?. by apply Hsig.
Qed.
End shutdown.

(** C28. Admission and shutdown of an Agent session, over every run: the open
    streams never exceed the limit; no stream is accepted at or after the
    shutdown signal; every task ever spawned is either joined or still in the
    task set; an orderly close reports the peer's end only when no shutdown was
    under way and after every task has been joined; and while the session is at
    the head of its loop, a drain is forced at its deadline: from then on nothing
    else can happen there, and it drops every stream and aborts their tasks.  A
    session that is sending a control frame comes back to the loop first; one that
    has left the loop no longer looks at the deadline
    ([unforced_drain_ignores_deadline]). *)
Theorem agent_shutdown config shutdown now evs s effs :
  agent_run config shutdown (agent_run_new now) evs = Some (s, effs) →
  Z.of_nat (size (ag_streams s)) ≤ Z.max 0 (ac_max_concurrent_streams config) ∧
  (∀ signal_at timeout, shutdown = Some (signal_at, timeout) →
     Forall (λ t, t < signal_at) (spawn_times config shutdown (agent_run_new now) evs)) ∧
  length (spawns effs) = (ag_tasks s + joins evs)%nat ∧
  (ag_pc s = AgentReturned (Ok PeerClosed) →
     ag_draining s = false ∧ length (spawns effs) = joins evs) ∧
  (ag_draining s = true → ag_reason s = LocalShutdown ∧
     ∃ signal_at timeout, shutdown = Some (signal_at, timeout) ∧
       signal_at + timeout ≤ ag_deadline s) ∧
  (ag_draining s = true → ag_pc s = AgentLoop → ∀ t ev s' effs', ag_deadline s ≤ t →
     agent_step config shutdown s t ev = Some (s', effs') →
     ev = AvDeadline ∧ ag_forced s' = true ∧ ag_streams s' = ∅ ∧ AgAbortAll ∈ effs').
Proof.
  intros Hrun.
  destruct (agent_run_shutdown _ _ _ _ _ _ (agent_inv_new config shutdown now) Hrun)
    as (Hinv & Ht & Hs).
  destruct Hinv as [Hsz Hi Hd Hp]. cbn in Ht. split_and!; [done| |done| |done|].
  - intros signal_at timeout ->. eapply Forall_impl; [exact Hs|]. cbn. intros t Hlt.
    by apply Z.leb_gt in Hlt.
  - intros Hpc. rewrite Hpc in Hp. destruct Hp as [? Ht0]. rewrite Ht0 in Ht. done.
  - intros Hdr Hpc t ev s' effs' Hle Hstep. unfold agent_step in Hstep.
    rewrite Hpc, Hdr in Hstep. cbn [negb andb] in Hstep.
    rewrite (proj2 (Z.leb_le _ _) Hle) in Hstep. destruct ev; simplify_eq.
    unfold ag_force, ag_break in Hstep. injection Hstep as <- <-. cbn.
    split_and!; try done. apply elem_of_app. right. by apply list_elem_of_singleton.
Qed.

(** ** Dispatch *)

Definition ag_delivered_of (sid : StreamId) (e : agent_effect) : list Frame :=
  match e with AgDelivered sid' f => if decide (sid' = sid) then [f] else [] | _ => [] end.
Definition ag_delivered (sid : StreamId) (effs : list agent_effect) : list Frame :=
  effs ≫= ag_delivered_of sid.
Definition ag_arrived_of (sid : StreamId) (ev : agent_event) : list Frame :=
  match ev with
  | AvDecoded (Ok (Some f)) _ =>
      match frame_type f with
      | DataFrame | EndStream | ResetStream => if decide (stream_id f = sid) then [f] else []
      | _ => []
      end
  | _ => []
  end.
Definition ag_arrived (sid : StreamId) (evs : list (Z * agent_event)) : list Frame :=
  evs.*2 ≫= ag_arrived_of sid.
Definition opens (sid : StreamId) (ev : agent_event) : Prop :=
  match ev with
  | AvDecoded (Ok (Some f)) _ => frame_type f = OpenStream ∧ stream_id f = sid
  | _ => False
  end.

Section dispatch.
Context (config : MultiplexedAgentConfig) (shutdown : option (Z * Z)) (sid : StreamId).
Implicit Types s : AgentRun.

Lemma ag_delivered_app l k : ag_delivered sid (l ++ k) = ag_delivered sid l ++ ag_delivered sid k.
Proof. apply bind_app. Qed.
Lemma ag_delivered_remove s sid' : ag_delivered sid (ag_remove s sid').2 = [].
Proof. unfold ag_remove. cbn. by case_decide. Qed.
Lemma ag_reset_streams s sid' code : ag_streams (ag_reset s sid' code) = ag_streams s.
Proof. unfold ag_reset. by destruct (reset_frame sid' code). Qed.

Lemma ag_dispatch_break s s' effs :
  ag_break s = (s', effs) → ag_streams s' = ∅ ∧ ag_delivered sid effs = [].
Proof.
  unfold ag_break. intros [= <- <-]. split; [done|]. rewrite ag_delivered_app.
  induction (elements (ag_streams s)); cbn; [by case_match|done].
Qed.
Lemma dispatch_emptied open out : out = [] → dispatch_post sid open ∅ [] out.
Proof. intros ->. unfold dispatch_post. case_decide; [right|]; set_solver. Qed.

Lemma ag_dispatch_frame s f t :
  let frames := if decide (stream_id f = sid) then [f] else [] in
  dispatch_post sid (ag_streams s) (ag_streams (ag_stream_frame s f t).1) frames
    (ag_delivered sid (ag_stream_frame s f t).2).
Proof.
  intros frames. unfold ag_stream_frame.
  set (count := if decide (frame_type f = DataFrame)
                then [AgCountReceived (zlen (payload f))] else []).
  assert (ag_delivered sid count = []) as Hc by (unfold count; by case_decide).
  pose proof (ag_delivered_remove s (stream_id f)) as Hr.
  assert (stream_id f ≠ sid → frames = []) as Hf.
  { intros Hne. unfold frames. by rewrite decide_False. }
  destruct (ag_remove s (stream_id f)) as [s1 e1] eqn:He. cbn [snd] in Hr.
  assert (ag_streams s1 = ag_streams s ∖ {[stream_id f]}) as Hs1.
  { unfold ag_remove in He. by simplify_eq. }
  destruct (bool_decide _ && _).
  { cbn [fst snd]. apply (dispatch_removed sid _ _ (stream_id f)); [|exact Hr|done].
    by rewrite ag_reset_streams. }
  case_decide as Hin; [destruct t|]; cbn [fst snd]; rewrite ?ag_delivered_app, ?Hc.
  - cbn. rewrite app_nil_r. unfold dispatch_post. case_decide; [by left|].
    split; [done|]. by rewrite decide_False by congruence.
  - apply (dispatch_removed sid _ _ (stream_id f)); [|exact Hr|done]. by rewrite ag_reset_streams.
  - apply (dispatch_removed sid _ _ (stream_id f)); [|exact Hr|done].
    case_decide; by rewrite ?ag_reset_streams.
  - assert (ag_streams (if decide (frame_type f = ResetStream) then s
              else ag_reset s (stream_id f) UnknownStream) = ag_streams s) as Hs.
    { case_decide; by rewrite ?ag_reset_streams. }
    apply (dispatch_removed sid _ _ (stream_id f)); [rewrite Hs; set_solver|done|done].
Qed.

Lemma ag_dispatch_open s f :
  stream_id f ≠ sid →
  dispatch_post sid (ag_streams s) (ag_streams (ag_open config s f).1) []
    (ag_delivered sid (ag_open config s f).2).
Proof.
  intros Hne. unfold ag_open.
  destruct (ag_draining s); [apply dispatch_same, ag_reset_streams|].
  destruct (_ || _); [apply dispatch_same, ag_reset_streams|].
  destruct (_ <=? _); [apply dispatch_same, ag_reset_streams|].
  unfold dispatch_post. cbn. case_decide; [left|]; (split; [set_solver|done]).
Qed.

Lemma ag_dispatch_step s now ev s' effs :
  ¬ opens sid ev → agent_step config shutdown s now ev = Some (s', effs) →
  dispatch_post sid (ag_streams s) (ag_streams s') (ag_arrived_of sid ev) (ag_delivered sid effs).
Proof.
  intros Hop Hstep. unfold agent_step in Hstep.
  destruct (ag_pc s) as [|f| | |r] eqn:Hpc; [..|done].
  - destruct (negb (ag_draining s) && signalled shutdown now).
    { destruct ev; try done. simplify_eq. unfold ag_begin_drain in Hstep.
      case_decide; [|simplify_eq; by apply dispatch_same].
      apply ag_dispatch_break in Hstep as [-> ->]. by apply dispatch_emptied. }
    destruct (ag_draining s && (ag_deadline s <=? now)).
    { destruct ev; try done. simplify_eq.
      apply ag_dispatch_break in Hstep as [-> ->]. by apply dispatch_emptied. }
    destruct ev as [| |[[f|]|e] t|sid'| |x|]; try done; simplify_eq; try by apply dispatch_same.
    + unfold ag_frame in Hstep. cbn in Hop |- *. pose proof (ag_dispatch_frame s f t) as Hd.
      cbn zeta in Hd. destruct (frame_type f) eqn:Hft; simplify_eq;
        first [by rewrite Hstep in Hd | by apply dispatch_same | idtac].
      * assert (stream_id f ≠ sid) as Hne by naive_solver.
        pose proof (ag_dispatch_open s f Hne) as Ho. by rewrite Hstep in Ho.
      * apply dispatch_same. unfold ag_ping. destruct (decode_heartbeat f); [|done].
        by destruct (Frame_control Pong _).
    + apply ag_dispatch_break in Hstep as [-> ->]. by apply dispatch_emptied.
    + unfold ag_stream_closed in Hstep. pose proof (ag_delivered_remove s sid') as Hr.
      destruct (ag_remove s sid') as [s1 e1] eqn:He. cbn [snd] in Hr.
      assert (ag_streams s1 = ag_streams s ∖ {[sid']}) as Hs1.
      { unfold ag_remove in He. by simplify_eq. }
      destruct (ag_draining s1 && _); [|simplify_eq; by eapply dispatch_removed].
      destruct (ag_break s1) as [s2 e2] eqn:Hb. simplify_eq.
      apply ag_dispatch_break in Hb as [-> Hb]. rewrite ag_delivered_app, Hr, Hb.
      by apply dispatch_emptied.
    + destruct (ag_tasks s); simplify_eq. by apply dispatch_same.
  - destruct ev as [| | | | | |[]]; try done; simplify_eq; by apply dispatch_same.
  - destruct ev; try done. destruct (ag_tasks s) as [|n]; simplify_eq. by apply dispatch_same.
  - destruct ev; try done. simplify_eq. by apply dispatch_same.
Qed.

Lemma ag_dispatch_run s evs s' effs :
  Forall (λ ev, ¬ opens sid ev.2) evs →
  agent_run config shutdown s evs = Some (s', effs) →
  if decide (sid ∈ ag_streams s) then
    ag_delivered sid effs `prefix_of` ag_arrived sid evs ∧
    (sid ∈ ag_streams s' → ag_delivered sid effs = ag_arrived sid evs)
  else (sid ∉ ag_streams s') ∧ ag_delivered sid effs = [].
Proof.
  intros Hno. revert s effs.
  induction Hno as [|[now ev] evs Hop Hno IH]; intros s effs Hrun; cbn in Hrun.
  { simplify_eq. by case_decide. }
  destruct (agent_step config shutdown s now ev) as [[s1 e1]|] eqn:Hstep; [|done].
  destruct (agent_run config shutdown s1 evs) as [[s2 e2]|] eqn:Hrest; [|done]. simplify_eq.
  pose proof (ag_dispatch_step s now ev s1 e1 Hop Hstep) as Hd. specialize (IH s1 e2 Hrest).
  change (ag_arrived sid ((now, ev) :: evs)) with (ag_arrived_of sid ev ++ ag_arrived sid evs).
  rewrite ag_delivered_app. unfold dispatch_post in Hd.
  destruct (decide (sid ∈ ag_streams s)).
  - destruct Hd as [[Hin ->]|[Hout ->]].
    + rewrite decide_True in IH by done. destruct IH as [IH1 IH2].
      split; [by apply prefix_app|]. intros Hin'. by rewrite IH2.
    + rewrite decide_False in IH by done. destruct IH as [IH1 ->].
      split; [apply prefix_nil|done].
  - destruct Hd as [Hout ->]. by rewrite decide_False in IH by done.
Qed.
End dispatch.

(** The Agent hands the frames of a stream to its task in the order they
    arrive, and nothing more once it has dropped the stream: while no new
    OPEN_STREAM names it, what is queued for an open stream is a prefix of the
    DATA, END and RESET frames decoded for it, and is all of them as long as
    the stream stays open. *)
Theorem agent_dispatch_in_order config shutdown sid s evs s' effs :
  Forall (λ ev, ¬ opens sid ev.2) evs →
  agent_run config shutdown s evs = Some (s', effs) →
  (sid ∈ ag_streams s → ag_delivered sid effs `prefix_of` ag_arrived sid evs) ∧
  (sid ∈ ag_streams s → sid ∈ ag_streams s' → ag_delivered sid effs = ag_arrived sid evs) ∧
  (sid ∉ ag_streams s → sid ∉ ag_streams s' ∧ ag_delivered sid effs = []).
Proof.
  intros Hno Hrun. pose proof (ag_dispatch_run _ _ sid _ _ _ _ Hno Hrun) as Hd.
  case_decide; naive_solver.
Qed.

(** ** Examples *)

Definition agent_config : MultiplexedAgentConfig :=
  MultiplexedAgentConfig_new (MkSocketAddr (V4 2130706433) 8080).
Definition ping_frame (q : Z) : Frame := MkFrame Ping 0 StreamId_CONTROL (to_be 8 q).
Abbreviation shutdown_run s evs := (agent_run agent_config (Some (100, 10)) s evs).

(** A stream overflows and is dropped; then the shutdown signal comes. *)
Definition overflowing : list (Z * agent_event) :=
  [(1, AvDecoded (Ok (Some (open_frame 1))) TrySent);
   (2, AvDecoded (Ok (Some (data_frame 1 "x"))) TrySent);
   (3, AvDecoded (Ok (Some (ping_frame 1))) TrySent); (3, AvControlSent true);
   (4, AvDecoded (Ok (Some (data_frame 1 "overflow"))) TryFull); (4, AvControlSent true);
   (100, AvShutdown)].
Definition hanging : AgentRun :=
  MkAgentRun AgentJoining ∅ 1 true false 110 LocalShutdown.
Definition hanging_effects : list agent_effect :=
  match shutdown_run (agent_run_new 0) overflowing with Some (_, effs) => effs | None => [] end.

Lemma overflowing_run :
  shutdown_run (agent_run_new 0) overflowing = Some (hanging, hanging_effects).
Proof. by vm_compute. Qed.

(** The drain deadline does not bound a shutdown.  A stream whose local
    service accepts no bytes overflows its queue and is dropped from the map,
    while its task stays blocked in [write_all].  The shutdown signal then finds
    no open stream and leaves the loop at once, unforced: the tasks are not
    aborted, and the session waits for this one without looking at the deadline
    again, while the only event that can end the task is its write. *)
Theorem unforced_drain_ignores_deadline :
  (∃ effs, shutdown_run (agent_run_new 0) overflowing = Some (hanging, effs) ∧
     AgSpawned (MkStreamId 1) ∈ effs ∧ AgDelivered (MkStreamId 1) (data_frame 1 "x") ∈ effs ∧
     AgAbortAll ∉ effs) ∧
  (∀ now ev s' effs, agent_step agent_config (Some (100, 10)) hanging now ev = Some (s', effs) →
     ev = AvJoined) ∧
  (∃ pc effs, run_local_stream (MkStreamId 1) 60000
      [(1, OnConnected Connected); (1, OnAckSent true);
       (2, OnLocalRelay (OnInbound (Some (data_frame 1 "x"))))] = Some (pc, effs) ∧
     ∀ now ev pc' effs', local_step (MkStreamId 1) 60000 pc now ev = Some (pc', effs') →
       ∃ w, ev = OnLocalRelay (OnWritten w)).
Proof.
  split_and!.
  - exists hanging_effects. split; [exact overflowing_run|].
    assert (hanging_effects = [AgSpawned (MkStreamId 1); AgCountReceived 1;
      AgDelivered (MkStreamId 1) (data_frame 1 "x");
      AgControlSent (MkFrame Pong 0 StreamId_CONTROL (to_be 8 1)); AgCountReceived 8;
      AgCountReset; AgDropped (MkStreamId 1);
      AgControlSent (MkFrame ResetStream 0 (MkStreamId 1)
        (StreamResetCode_to_be_bytes FlowControlExceeded))]) as -> by by vm_compute.
    split_and!; [by left|by do 2 right; left|].
    rewrite !elem_of_cons, elem_of_nil. naive_solver.
  - intros now ev s' effs. by destruct ev.
  - eexists _, _. split; [reflexivity|]. intros now ev pc' effs' Hstep.
    destruct ev as [| | |ev| |]; try done. destruct ev as [| | |w| | |]; try done. by exists w.
Qed.

Lemma agent_answers_in_order_witness :
  replies hanging_effects = [ReplyOpen (MkStreamId 1); ReplyPong (MkSequence 1)] ∧
  owed overflowing = replies hanging_effects.
Proof.
  destruct (agent_answers_in_order agent_config (Some (100, 10)) 0 overflowing hanging
              hanging_effects overflowing_run) as (_ & H & _).
  split; [by vm_compute|]. rewrite (H eq_refl). apply app_nil_r.
Defined.

Lemma agent_shutdown_witness :
  Forall (λ t, t < 100) (spawn_times agent_config (Some (100, 10)) (agent_run_new 0) overflowing) ∧
  spawn_times agent_config (Some (100, 10)) (agent_run_new 0) overflowing = [1] ∧
  length (spawns hanging_effects) = (1 + joins overflowing)%nat.
Proof.
  destruct (agent_shutdown agent_config (Some (100, 10)) 0 overflowing hanging
              hanging_effects overflowing_run) as (_ & H2 & H3 & _).
  split; [exact (H2 100 10 eq_refl)|]. split; [by vm_compute|exact H3].
Defined.

Lemma agent_dispatch_in_order_witness :
  ag_delivered (MkStreamId 1) (drop 1 hanging_effects)
    `prefix_of` ag_arrived (MkStreamId 1) (drop 1 overflowing).
Proof.
  eapply (agent_dispatch_in_order agent_config (Some (100, 10)) (MkStreamId 1)
    (MkAgentRun AgentLoop {[MkStreamId 1]} 1 false false YEAR_MS PeerClosed)
    (drop 1 overflowing) hanging (drop 1 hanging_effects)).
  - repeat constructor; cbn; naive_solver.
  - by vm_compute.
  - apply (bool_decide_unpack _). by vm_compute.
Defined.
