(* ===== verification/Tunnel.v ===== *)
(** * Tunnel: a stream end to end

    The composition of the parts of a multiplexed session: the two stream
    tasks, the writer of one side, the wire, the frame decoder and the session
    loop of the other side.  The channels between them are FIFO queues, so a
    receiver has, at any time, a prefix of what was sent; the wire delivers a
    prefix of the bytes written, in any chunking.  The theorems say what the
    composition promises: at any time each end has a prefix of what the other
    end produced, and an end that is told that the stream is over has all of
    it. *)

From S2P Require Import Prelude AsyncIo Net Frame Codec Handshake FairQueue BoundedQueue.
From S2P Require Import Telemetry WriterActor StreamTask EdgeSession AgentSession.

(** ** The wire *)

(** A decoder that has seen a prefix of the bytes has a prefix of the frames. *)
Lemma decode_bytes_prefix s k f more f' rest :
  frame_ok f → frame_typed f → s ++ k = encode_frame f ++ more →
  decode_bytes s = (Ok (Some f'), rest) → f' = f ∧ rest ++ k = more.
Proof.
  intros Hok Hty Hs (Hok' & Hty' & ->)%decode_bytes_frame_inv.
  pose proof (decode_bytes_encode f more Hok Hty) as H1.
  pose proof (decode_bytes_encode f' (rest ++ k) Hok' Hty') as H2.
  rewrite <-app_assoc in Hs. rewrite Hs, H1 in H2. by simplify_eq.
Qed.

Lemma recv_all_prefix fs n d r :
  Forall frame_ok fs → Forall frame_typed fs → dec_wf d → clean r → consumed d = [] →
  bytes_of r `prefix_of` mjoin (encode_frame <$> fs) →
  (recv_all n d r).1 `prefix_of` fs.
Proof.
  intros Hok. revert n d r. induction Hok as [|f fs Hf Hok IH];
    intros n d r Hty Hwf Hcl Hcon [k Hb];
    destruct (drive_spec (cancels r) d r) as (v & d' & r' & Hd & Hv & Hwf' & Hcon' & Hcl' & _);
    try done; rewrite Hcon in Hv; cbn [app] in Hv.
  - symmetry in Hb. apply app_nil in Hb as [Hb ->]. rewrite Hb in Hv. cbn in Hv.
    injection Hv as <- _. by destruct n; cbn; rewrite Hd.
  - inversion Hty as [|? ? Hty1 Hty2]; subst.
    destruct v as [[f'|]|e]; [|destruct n; cbn; rewrite Hd; apply prefix_nil..].
    symmetry in Hb. cbn [fmap list_fmap mjoin list_join] in Hb.
    destruct (decode_bytes_prefix _ _ _ _ _ _ Hf Hty1 Hb Hv) as [-> Hrest].
    destruct n as [|n]; cbn; rewrite Hd.
    + apply prefix_cons, prefix_nil.
    + pose proof (IH n d' r' Hty2 Hwf' Hcl' Hcon' ltac:(by exists k)) as Hp.
      destruct (recv_all n d' r') as [gs v]. by apply prefix_cons.
Qed.

(** ** Frames of one direction *)

(** DATA and END are the frames the tasks put in the DATA queue. *)
Definition carries (f : Frame) : Prop := frame_type f = DataFrame ∨ frame_type f = EndStream.
#[global] Instance carries_dec f : Decision (carries f).
Proof. unfold carries. apply _. Defined.

(** Other frames among them can only cut the direction short. *)
Lemma body_carried fs :
  body fs `prefix_of` body (filter carries fs) ∧
  (ends fs = true → body fs = body (filter carries fs) ∧ ends (filter carries fs) = true).
Proof.
  induction fs as [|f fs [IH1 IH2]]; [done|]. rewrite filter_cons. cbn [body ends].
  destruct (decide (carries f)) as [Hc|Hc].
  - cbn [body ends]. case_decide; [|done].
    split; [by apply prefix_app|]. by intros [-> ?]%IH2.
  - assert (frame_type f ≠ DataFrame) as Hd by (intros ?; apply Hc; by left).
    rewrite !decide_False by done.
    split; [apply prefix_nil|]. intros [? _]%bool_decide_eq_true. by destruct Hc; right.
Qed.

Lemma filter_prefix {A} (P : A → Prop) `{!∀ x, Decision (P x)} l k :
  l `prefix_of` k → filter P l `prefix_of` filter P k.
Proof. intros [m ->]. rewrite filter_app. by apply prefix_app_r. Qed.

Lemma filter_forall {A} (P : A → Prop) `{!∀ x, Decision (P x)} l : Forall P l → filter P l = l.
Proof. induction 1 as [|x l Hx Hl IH]; [done|]. by rewrite filter_cons, decide_True, IH. Qed.

Lemma half_carries sid bs ended fs : half sid bs ended fs → filter carries fs = fs.
Proof.
  intros [(chunks & _ & _ & ->)]. apply filter_forall. apply Forall_app. split.
  - apply Forall_fmap, Forall_true. intros c. unfold compose, carries. by left.
  - destruct ended; constructor; [|constructor]. unfold carries. by right.
Qed.

Definition stream_frames (sid : StreamId) (fs : list Frame) : list Frame :=
  filter carries (of_stream sid fs).

Lemma stream_frames_written sid l :
  Forall (λ f, stream_id f = sid → ¬ carries f) (written_from FromControl l) →
  stream_frames sid (snd <$> l) = stream_frames sid (written_from FromData l).
Proof.
  unfold stream_frames, of_stream, written_from.
  induction l as [|[o f] l IH]; intros Hc; [done|].
  rewrite !filter_cons in *. cbn [fmap list_fmap fst snd] in *. rewrite filter_cons.
  destruct o.
  - rewrite decide_True in Hc by done.
    rewrite (decide_False (P := FromControl = FromData)) by done.
    inversion Hc as [|? ? Hf Hc']; subst. rewrite <-IH by done.
    case_decide as Hs; [|done]. rewrite filter_cons, decide_False; [done|by apply Hf].
  - rewrite decide_False in Hc by done.
    rewrite (decide_True (P := FromData = FromData)) by done.
    cbn [fmap list_fmap snd]. rewrite (filter_cons _ f).
    case_decide; [|by apply IH]. rewrite !filter_cons, IH by done. done.
Qed.

(** One direction, from the DATA queue of one side to the frames the other
    side decodes. *)
Section link.
Context (sid : StreamId) (capacity : Z) (t : MultiplexTelemetry) (evs : list writer_event) (w : WriterActor).
Hypothesis capacity_pos : 0 < capacity.
Hypothesis control_ok : Forall frame_ok (control_in evs) ∧ Forall frame_typed (control_in evs).
Hypothesis data_ok : Forall frame_ok (data_in evs) ∧ Forall frame_typed (data_in evs).
Hypothesis writer_runs : writer_run (writer_actor_new capacity (sound []) t) evs = Some w.
(** The control channel carries no DATA or END frame of the stream. *)
Hypothesis control_lifecycle : Forall (λ f, stream_id f = sid → ¬ carries f) (control_in evs).

Lemma link_delivers bs ended queued r n got :
  half sid bs ended queued →
  of_stream sid (data_in evs) `prefix_of` queued →
  clean r → bytes_of r `prefix_of` w_out (wa_wire w) →
  got = (recv_all n FrameDecoder_new r).1 →
  stream_frames sid got `prefix_of` queued.
Proof.
  intros Hhalf Hq Hcl Hb ->.
  destruct control_ok as [Hco Hct], data_ok as [Hdo Hdt].
  destruct (writer_accounts capacity t evs w) as (Hctl & Hdat & Hwire & _); try done.
  assert (∀ P : Frame → Prop, Forall P (control_in evs) → Forall P (data_in evs) →
            Forall P (snd <$> wa_written w)) as Hall.
  { intros P Hc Hd. apply Forall_fmap, Forall_forall. intros [o f] Hin. cbn.
    destruct o.
    - rewrite <-Hctl in Hc. rewrite Forall_forall in Hc. apply Hc.
      unfold written_from. apply list_elem_of_fmap. exists (FromControl, f).
      by rewrite list_elem_of_filter.
    - rewrite Forall_forall in Hd. apply Hd.
      assert (f ∈ of_stream (stream_id f) (data_in evs)) as Hf.
      { rewrite <-Hdat. apply elem_of_app. left. unfold of_stream, written_from.
        rewrite list_elem_of_filter. split; [done|]. apply list_elem_of_fmap.
        exists (FromData, f). by rewrite list_elem_of_filter. }
      unfold of_stream in Hf. by rewrite list_elem_of_filter in Hf; destruct Hf. }
  assert ((recv_all n FrameDecoder_new r).1 `prefix_of` (snd <$> wa_written w)) as Hp.
  { apply recv_all_prefix; auto using dec_wf_new. by rewrite <-Hwire. }
  rewrite <-(half_carries _ _ _ _ Hhalf).
  trans (stream_frames sid (snd <$> wa_written w)); [apply filter_prefix, filter_prefix, Hp|].
  rewrite stream_frames_written by (by rewrite Hctl).
  unfold stream_frames. apply filter_prefix. etrans; [|exact Hq].
  rewrite <-Hdat. by apply prefix_app_r.
Qed.
End link.

(** ** The tasks at the two ends *)

(** Bytes an end read from its socket and wrote to it, whether it closed its
    write half, the frames it queued and those it took from the session. *)
Definition ingress_read (evs : list (Z * ingress_event)) : bytes :=
  (evs ≫= λ p, relay_event_of p.2) ≫= read_of.
Definition local_read (evs : list (Z * local_event)) : bytes :=
  (evs ≫= λ p, local_event_of p.2) ≫= read_of.
Definition socket_written (effs : list effect) : bytes := effs ≫= written_of.
Definition write_closed (effs : list effect) : bool := existsb closes effs.
Definition frames_queued (effs : list effect) : list Frame := effs ≫= queued_of.

Definition ingress_taken_of (ev : ingress_event) : list Frame :=
  match ev with
  | OnOpened (Some f) => [f]
  | OnRelay ev => inbound_of ev
  | _ => []
  end.
Definition local_taken_of (ev : local_event) : list Frame :=
  match ev with
  | OnEarlyInbound (Some f) => [f]
  | OnLocalRelay ev => inbound_of ev
  | _ => []
  end.
Definition ingress_taken (evs : list (Z * ingress_event)) : list Frame :=
  evs.*2 ≫= ingress_taken_of.
Definition local_taken (evs : list (Z * local_event)) : list Frame := evs.*2 ≫= local_taken_of.

Definition local_inbound_frames (evs : list (Z * local_event)) : list Frame :=
  (evs ≫= λ p, local_event_of p.2) ≫= inbound_of.
Definition ingress_inbound_frames (evs : list (Z * ingress_event)) : list Frame :=
  (evs ≫= λ p, relay_event_of p.2) ≫= inbound_of.

Lemma local_relay_inbound sid timeout evs : ∀ pc pc' effs,
  local_run sid timeout pc evs = Some (pc', effs) →
  match pc with
  | LocalConnecting =>
      local_inbound_frames evs = local_taken evs ∨ local_inbound_frames evs = []
  | LocalAcking _ | LocalRelay _ => local_inbound_frames evs = local_taken evs
  | _ => local_inbound_frames evs = [] ∧ local_taken evs = []
  end.
Proof.
  induction evs as [|[now ev] evs IH]; intros pc pc' effs Hrun; [destruct pc; by auto|].
  cbn in Hrun. destruct (local_step sid timeout pc now ev) as [[pc1 e1]|] eqn:Hstep; [|done].
  destruct (local_run sid timeout pc1 evs) as [[pc2 e2]|] eqn:Hrest; [|done].
  specialize (IH _ _ _ Hrest). unfold local_inbound_frames in *. cbn. rewrite bind_app.
  unfold local_taken in *. cbn [fmap list_fmap mbind list_bind snd].
  unfold local_step in Hstep.
  destruct pc as [|f|f|r| |], ev as [c|o|ok|rev|ok|]; simplify_eq; cbn [local_event_of local_taken_of].
  all: try (by destruct ok); cbn in *.
  - unfold local_connected, local_reject in IH. repeat case_match; naive_solver.
  - right. unfold local_early, local_reject in IH. repeat case_match; naive_solver.
  - destruct ok; simplify_eq; cbn in IH; [done|by destruct IH as [-> ->]].
  - destruct (local_relay_step sid timeout r now rev) as [[r' e']|]; simplify_eq.
    rewrite app_nil_r. f_equal. unfold local_relayed in IH.
    destruct (local_at r'); try done; by destruct IH as [-> ->].
  - done.
Qed.

Lemma ingress_relay_inbound session_id sid open_timeout idle_timeout evs : ∀ pc pc' effs,
  ingress_run session_id sid open_timeout idle_timeout pc evs = Some (pc', effs) →
  match pc with
  | IngressAnnounce _ | IngressAwaitOpen _ =>
      ingress_inbound_frames evs = [] ∨
      ∃ f, frame_type f = OpenStream ∧ ingress_taken evs = f :: ingress_inbound_frames evs
  | IngressRelay _ => ingress_inbound_frames evs = ingress_taken evs
  | _ => ingress_inbound_frames evs = [] ∧ ingress_taken evs = []
  end.
Proof.
  induction evs as [|[now ev] evs IH]; intros pc pc' effs Hrun; [destruct pc; by auto|].
  cbn in Hrun. destruct (ingress_step _ _ _ _ pc now ev) as [[pc1 e1]|] eqn:Hstep; [|done].
  destruct (ingress_run _ _ _ _ pc1 evs) as [[pc2 e2]|] eqn:Hrest; [|done].
  specialize (IH _ _ _ Hrest). unfold ingress_inbound_frames in *. cbn. rewrite bind_app.
  unfold ingress_taken in *. cbn [fmap list_fmap mbind list_bind snd].
  unfold ingress_step in Hstep.
  destruct pc as [f|d|f reason|r| |], ev as [ok|o| |rev|ok|]; simplify_eq; cbn in *.
  - destruct ok; simplify_eq; cbn in IH; [done|]. destruct IH as [-> _]. by left.
  - unfold ingress_opened, ingress_reject in Hstep. destruct o as [f|]; simplify_eq.
    2:{ destruct IH as [-> _]. by left. }
    case_decide as Hf; simplify_eq; [right; exists f; cbn in *; by rewrite IH; destruct Hf|].
    case_decide; simplify_eq; [destruct IH as [-> _]; by left|].
    destruct (reset_frame sid ProtocolViolation); simplify_eq; destruct IH as [-> _]; by left.
  - unfold ingress_reject in Hstep. destruct (d <=? now); [|done].
    destruct (reset_frame sid OpenTimeout); simplify_eq; cbn in IH; destruct IH as [-> _]; by left.
  - by destruct ok; simplify_eq.
  - destruct (relay_step sid idle_timeout r now rev) as [[r' e']|]; simplify_eq.
    unfold ingress_relayed in Hstep. rewrite app_nil_r. f_equal.
    destruct (relay_at r'); cbn in Hstep; simplify_eq; try done. by destruct IH as [-> ->].
  - done.
Qed.

(** ** What a receiver gets *)

Lemma receiver_gets sid sid' bs ended queued a :
  safe sid' a → half sid bs ended queued → filter carries (a_inbound a) `prefix_of` queued →
  a_written a `prefix_of` bs ∧ (a_closed a = true → a_written a = bs ∧ ended = true).
Proof.
  intros [_ Hw Hc] Hhalf Hp. destruct (half_body _ _ _ _ Hhalf) as [Hb He].
  destruct (body_carried (a_inbound a)) as [Hb1 He1].
  destruct (body_of_prefix _ _ Hp) as [Hb2 He2]. rewrite Hb in Hb2, He2. rewrite He in He2.
  split; [by do 2 (etrans; [eassumption|])|].
  intros [H1 H2]%Hc. destruct (He1 H1) as [H3 H4]. destruct (He2 H4) as [H5 H6].
  split; congruence.
Qed.

(** The frames a session decodes. *)
Definition agent_decoded (evs : list (Z * agent_event)) : list Frame :=
  evs.*2 ≫= λ ev, match ev with AvDecoded (Ok (Some f)) _ => [f] | _ => [] end.
Definition edge_decoded (evs : list (Z * edge_event)) : list Frame :=
  evs.*2 ≫= λ ev, match ev with EvDecoded (Ok (Some f)) _ => [f] | _ => [] end.

Lemma agent_arrived_frames sid evs :
  filter carries (ag_arrived sid evs) = stream_frames sid (agent_decoded evs).
Proof.
  unfold ag_arrived, agent_decoded, stream_frames, of_stream.
  induction evs as [|[now ev] evs IH]; [done|]. cbn [fmap list_fmap mbind list_bind snd].
  rewrite !filter_app, IH. f_equal.
  destruct ev as [| |[[f|]|e] t|sid'| |x|]; try done. cbn [ag_arrived_of].
  rewrite filter_cons, filter_nil. destruct (decide (stream_id f = sid)) as [Hs|Hs].
  - destruct (frame_type f) eqn:Hf; rewrite ?filter_cons, ?filter_nil; try done;
      rewrite decide_False; try done; unfold carries; rewrite Hf; by intros [].
  - by destruct (frame_type f).
Qed.

Lemma edge_arrived_frames sid evs :
  filter carries (arrived sid evs) = stream_frames sid (edge_decoded evs).
Proof.
  unfold arrived, edge_decoded, stream_frames, of_stream.
  induction evs as [|[now ev] evs IH]; [done|]. cbn [fmap list_fmap mbind list_bind snd].
  rewrite !filter_app, IH. f_equal.
  destruct ev as [[[f|]|e] t|o|sid'| |x|]; try done. cbn [arrived_of].
  rewrite filter_cons, filter_nil. destruct (decide (stream_id f = sid)) as [Hs|Hs].
  - destruct (frame_type f) eqn:Hf; rewrite ?filter_cons, ?filter_nil; try done;
      rewrite decide_False; try done; unfold carries; rewrite Hf; by intros [].
  - by destruct (frame_type f).
Qed.

Lemma agent_arrived_app sid pre post :
  ag_arrived sid (pre ++ post) = ag_arrived sid pre ++ ag_arrived sid post.
Proof. unfold ag_arrived. by rewrite fmap_app, bind_app. Qed.
Lemma arrived_app sid pre post : arrived sid (pre ++ post) = arrived sid pre ++ arrived sid post.
Proof. unfold arrived. by rewrite fmap_app, bind_app. Qed.

(** ** From the visitor to the local service *)

Section to_service.
Context (session_id : TransportSessionId) (sid : StreamId) (open_timeout idle_timeout : Z).
Context (config : MultiplexedAgentConfig) (shutdown : option (Z * Z)).
Context (capacity : Z) (t : MultiplexTelemetry).

(** The Edge's task for the visitor, and the Edge's writer. *)
Context (visitor : list (Z * ingress_event)) (visitor_pc : ingress_pc) (visitor_effs : list effect).
Hypothesis visitor_runs :
  run_ingress_stream session_id sid open_timeout idle_timeout visitor
    = Some (visitor_pc, visitor_effs).
Context (wevs : list writer_event) (w : WriterActor).
Hypothesis capacity_pos : 0 < capacity.
Hypothesis control_ok : Forall frame_ok (control_in wevs) ∧ Forall frame_typed (control_in wevs).
Hypothesis data_ok : Forall frame_ok (data_in wevs) ∧ Forall frame_typed (data_in wevs).
Hypothesis writer_runs : writer_run (writer_actor_new capacity (sound []) t) wevs = Some w.
Hypothesis control_lifecycle : Forall (λ f, stream_id f = sid → ¬ carries f) (control_in wevs).
(** The DATA queue is FIFO, and only this task queues frames of the stream. *)
Hypothesis data_fifo : of_stream sid (data_in wevs) `prefix_of` frames_queued visitor_effs.

(** The wire, and the Agent's session: its events up to and after the one that
    accepts the stream. *)
Context (r : reader) (n : nat).
Hypothesis wire_clean : clean r.
Hypothesis wire_prefix : bytes_of r `prefix_of` w_out (wa_wire w).
Context (before after : list (Z * agent_event)) (s0 s1 : AgentRun) (e1 : list agent_effect).
Hypothesis agent_after : agent_run config shutdown s0 after = Some (s1, e1).
Hypothesis agent_reads : agent_decoded (before ++ after) = (recv_all n FrameDecoder_new r).1.
(** The Edge sends DATA only once the stream is open, and opens it once. *)
Hypothesis nothing_early : ag_arrived sid before = [].
Hypothesis opened_once : Forall (λ ev, ¬ opens sid ev.2) after.

(** The Agent's task for the local service. *)
Context (service : list (Z * local_event)) (service_pc : local_pc) (service_effs : list effect).
Hypothesis service_runs :
  run_local_stream sid (ac_stream_idle_timeout config) service = Some (service_pc, service_effs).
Hypothesis queue_fifo : local_taken service `prefix_of` ag_delivered sid e1.

Lemma service_frames :
  filter carries (local_inbound_frames service) `prefix_of` frames_queued visitor_effs.
Proof.
  destruct (ingress_stream_accounts _ _ _ _ _ _ _ visitor_runs) as [Hsafe _].
  destruct (safe_queued _ _ Hsafe) as (bs & ended & Hhalf & _).
  change (a_queued _) with (frames_queued visitor_effs) in Hhalf.
  pose proof (local_relay_inbound _ _ _ _ _ _ service_runs) as [Hin|Hin]; cbn in Hin;
    rewrite Hin; [|apply prefix_nil].
  trans (filter carries (ag_arrived sid after)).
  - apply filter_prefix. etrans; [exact queue_fifo|].
    pose proof (ag_dispatch_run config shutdown sid s0 after s1 e1 opened_once agent_after) as Hd.
    case_decide; [by destruct Hd|]. destruct Hd as [_ ->]. apply prefix_nil.
  - pose proof (agent_arrived_app sid before after) as Happ. rewrite nothing_early in Happ.
    cbn [app] in Happ. rewrite <-Happ, agent_arrived_frames, agent_reads.
    by eapply (link_delivers sid capacity t wevs w).
Qed.

(** C1. End to end, towards the local service: whatever the scheduling of the
    tasks, the chunking of the wire and the interleaving with other streams, at
    any time the bytes the Agent has written to the local service are a prefix
    of the bytes the Edge has read from the visitor, and the Agent closes its
    write half only after writing every byte the visitor ever sent. *)
Theorem tunnel_to_service :
  socket_written service_effs `prefix_of` ingress_read visitor ∧
  (write_closed service_effs = true → socket_written service_effs = ingress_read visitor).
Proof.
  destruct (ingress_stream_accounts _ _ _ _ _ _ _ visitor_runs) as [Hsafe _].
  destruct (safe_queued _ _ Hsafe) as (bs & ended & Hhalf & Hread & Hend).
  destruct (local_stream_accounts _ _ _ _ _ service_runs) as [Hlocal _].
  destruct (receiver_gets _ _ _ _ _ _ Hlocal Hhalf service_frames) as [Hw Hc].
  split; [by etrans|]. intros Hcl. destruct (Hc Hcl) as [Hbs Hended].
  etrans; [exact Hbs|exact (Hend Hended)].
Qed.
End to_service.

(** ** From the local service to the visitor *)

Section to_visitor.
Context (session_id : TransportSessionId) (sid : StreamId) (open_timeout idle_timeout : Z).
Context (c : edge_config) (config : MultiplexedAgentConfig) (now : Z).
Context (capacity : Z) (t : MultiplexTelemetry).

(** The Agent's task for the local service, and the Agent's writer. *)
Context (service : list (Z * local_event)) (service_pc : local_pc) (service_effs : list effect).
Hypothesis service_runs :
  run_local_stream sid (ac_stream_idle_timeout config) service = Some (service_pc, service_effs).
Context (wevs : list writer_event) (w : WriterActor).
Hypothesis capacity_pos : 0 < capacity.
Hypothesis control_ok : Forall frame_ok (control_in wevs) ∧ Forall frame_typed (control_in wevs).
Hypothesis data_ok : Forall frame_ok (data_in wevs) ∧ Forall frame_typed (data_in wevs).
Hypothesis writer_runs : writer_run (writer_actor_new capacity (sound []) t) wevs = Some w.
Hypothesis control_lifecycle : Forall (λ f, stream_id f = sid → ¬ carries f) (control_in wevs).
Hypothesis data_fifo : of_stream sid (data_in wevs) `prefix_of` frames_queued service_effs.

(** The wire, and the Edge's session; the Agent sends no frame of the stream
    before the stream exists. *)
Context (r : reader) (n : nat).
Hypothesis wire_clean : clean r.
Hypothesis wire_prefix : bytes_of r `prefix_of` w_out (wa_wire w).
Context (before after : list (Z * edge_event)) (s0 s1 : EdgeSession) (e0 e1 : list edge_effect).
Hypothesis edge_before : edge_run session_id c (edge_session_new c now) before = Some (s0, e0).
Hypothesis edge_after : edge_run session_id c s0 after = Some (s1, e1).
Hypothesis edge_reads : edge_decoded (before ++ after) = (recv_all n FrameDecoder_new r).1.
Hypothesis stream_spawned : sid ∈ spawned e0.
Hypothesis nothing_early : arrived sid before = [].

(** The Edge's task for the visitor. *)
Context (visitor : list (Z * ingress_event)) (visitor_pc : ingress_pc) (visitor_effs : list effect).
Hypothesis visitor_runs :
  run_ingress_stream session_id sid open_timeout idle_timeout visitor
    = Some (visitor_pc, visitor_effs).
Hypothesis queue_fifo : ingress_taken visitor `prefix_of` delivered sid e1.

Lemma visitor_inbound :
  filter carries (ingress_inbound_frames visitor) `prefix_of` filter carries (ingress_taken visitor).
Proof.
  unfold run_ingress_stream in visitor_runs.
  destruct (ingress_run _ _ _ _ _ visitor) as [[pc effs]|] eqn:Hrun; [|done].
  apply ingress_relay_inbound in Hrun. unfold ingress_start in Hrun.
  destruct (Frame_stream sid OpenStream []); cbn in Hrun.
  - destruct Hrun as [->|(f & Hf & ->)]; [apply prefix_nil|].
    rewrite filter_cons, decide_False; [done|]. unfold carries. rewrite Hf. by intros [].
  - destruct Hrun as [-> _]. apply prefix_nil.
Qed.

Lemma visitor_frames :
  filter carries (ingress_inbound_frames visitor) `prefix_of` frames_queued service_effs.
Proof.
  destruct (local_stream_accounts _ _ _ _ _ service_runs) as [Hsafe _].
  destruct (safe_queued _ _ Hsafe) as (bs & ended & Hhalf & _).
  change (a_queued _) with (frames_queued service_effs) in Hhalf.
  etrans; [exact visitor_inbound|].
  destruct (edge_run_post _ _ _ _ _ _ (edge_inv_new c now) edge_before) as (Hinv & Hsp & _).
  change (first_ids (allocated (edge_session_new c now))) with ([] : list StreamId) in Hsp.
  cbn in Hsp. pose proof stream_spawned as Hin. rewrite <-Hsp, elem_of_first_ids in Hin.
  trans (filter carries (arrived sid after)).
  - apply filter_prefix. etrans; [exact queue_fifo|].
    pose proof (dispatch_run _ _ sid _ _ _ _ Hinv (proj2 Hin) edge_after) as Hd.
    case_decide; [by destruct Hd|]. destruct Hd as [_ ->]. apply prefix_nil.
  - pose proof (arrived_app sid before after) as Happ. rewrite nothing_early in Happ.
    cbn [app] in Happ. rewrite <-Happ, edge_arrived_frames, edge_reads.
    by eapply (link_delivers sid capacity t wevs w).
Qed.

(** C2. End to end, towards the visitor: at any time the bytes the Edge has
    written to the visitor are a prefix of the bytes the Agent has read from the
    local service, and the Edge closes its write half only after writing every
    byte the service ever sent. *)
Theorem tunnel_to_visitor :
  socket_written visitor_effs `prefix_of` local_read service ∧
  (write_closed visitor_effs = true → socket_written visitor_effs = local_read service).
Proof.
  destruct (local_stream_accounts _ _ _ _ _ service_runs) as [Hsafe _].
  destruct (safe_queued _ _ Hsafe) as (bs & ended & Hhalf & Hread & Hend).
  destruct (ingress_stream_accounts _ _ _ _ _ _ _ visitor_runs) as [Hvisitor _].
  destruct (receiver_gets _ _ _ _ _ _ Hvisitor Hhalf visitor_frames) as [Hw Hc].
  split; [by etrans|]. intros Hcl. destruct (Hc Hcl) as [Hbs Hended].
  etrans; [exact Hbs|exact (Hend Hended)].
Qed.
End to_visitor.

(** ** A stream that carries two bytes each way and is closed *)

Definition SID : StreamId := MkStreamId 1.
Definition hi : Frame := data_frame 1 "hi".
Definition hi_end : Frame := end_of SID.

Definition hi_writer : list writer_event :=
  [EvTau; EvTryData (Err RecvEmpty); EvTryControl (Ok (open_frame 1)); EvTau;
   EvTryData (Ok hi); EvTryData (Ok hi_end); EvTryData (Err RecvEmpty);
   EvTryControl (Err RecvEmpty); EvPop true; EvTau; EvTryData (Err RecvEmpty);
   EvTryControl (Err RecvEmpty); EvPop true].
Definition hi_written : WriterActor :=
  default (writer_actor_new 4 (sound []) Telemetry_default)
    (writer_run (writer_actor_new 4 (sound []) Telemetry_default) hi_writer).
Definition hi_wire : bytes := mjoin (encode_frame <$> [open_frame 1; hi; hi_end]).
Definition hi_reader : reader := [Cancel; Data (take 5 hi_wire); Data (drop 5 hi_wire)].

Definition hi_visitor : list (Z * ingress_event) :=
  [(0, OnOpenSent true); (1, OnOpened (Some (open_frame 1)));
   (2, OnRelay (OnRead (Ok (bstr "hi")))); (2, OnRelay (OnSent true));
   (3, OnRelay (OnRead (Ok []))); (3, OnRelay (OnSent true));
   (4, OnRelay (OnInbound (Some hi))); (4, OnRelay (OnWritten WriteDone));
   (5, OnRelay (OnInbound (Some hi_end))); (5, OnRelay (OnShutdown true)); (5, OnNotified)].
Definition hi_service : list (Z * local_event) :=
  [(0, OnConnected Connected); (0, OnAckSent true);
   (1, OnLocalRelay (OnRead (Ok (bstr "hi")))); (1, OnLocalRelay (OnSent true));
   (1, OnLocalRelay (OnRead (Ok []))); (1, OnLocalRelay (OnSent true));
   (3, OnLocalRelay (OnInbound (Some hi))); (3, OnLocalRelay (OnWritten WriteDone));
   (4, OnLocalRelay (OnInbound (Some hi_end))); (4, OnLocalRelay (OnShutdown true));
   (4, OnLocalNotified)].
Definition visitor_result : option (ingress_pc * list effect) :=
  run_ingress_stream (MkSessionId 7) SID 60 60 hi_visitor.
Definition service_result : option (local_pc * list effect) :=
  run_local_stream SID (ac_stream_idle_timeout agent_config) hi_service.
Definition hi_visitor_effs : list effect :=
  match visitor_result with Some (_, effs) => effs | None => [] end.
Definition hi_service_effs : list effect :=
  match service_result with Some (_, effs) => effs | None => [] end.

Definition agent_before_hi : list (Z * agent_event) :=
  [(0, AvDecoded (Ok (Some (open_frame 1))) TrySent)].
Definition agent_after_hi : list (Z * agent_event) :=
  [(3, AvDecoded (Ok (Some hi)) TrySent); (4, AvDecoded (Ok (Some hi_end)) TrySent)].
Definition edge_before_hi : list (Z * edge_event) := [(0, EvCommand (Some (CmdOpen 0)))].
Definition edge_after_hi : list (Z * edge_event) :=
  [(1, EvDecoded (Ok (Some (open_frame 1))) TrySent); (4, EvDecoded (Ok (Some hi)) TrySent);
   (5, EvDecoded (Ok (Some hi_end)) TrySent)].

Lemma hi_frames_ok :
  (Forall frame_ok (control_in hi_writer) ∧ Forall frame_typed (control_in hi_writer)) ∧
  (Forall frame_ok (data_in hi_writer) ∧ Forall frame_typed (data_in hi_writer)) ∧
  Forall (λ f, stream_id f = SID → ¬ carries f) (control_in hi_writer).
Proof.
  split_and!; repeat constructor; try (by vm_compute); try (apply (bool_decide_unpack _); by vm_compute).
Qed.

Lemma tunnel_to_service_witness :
  socket_written hi_service_effs = bstr "hi" ∧
  socket_written hi_service_effs = ingress_read hi_visitor.
Proof.
  destruct hi_frames_ok as (Hc & Hd & Hl). split; [by vm_compute|].
  apply (tunnel_to_service (MkSessionId 7) SID 60 60 agent_config None 4 Telemetry_default
    hi_visitor IngressDone hi_visitor_effs ltac:(by vm_compute) hi_writer hi_written ltac:(lia)
    Hc Hd ltac:(by vm_compute) Hl ltac:(apply (bool_decide_unpack _); by vm_compute)
    hi_reader 2 ltac:(repeat constructor; by vm_compute)
    ltac:(apply (bool_decide_unpack _); by vm_compute)
    agent_before_hi agent_after_hi
    (MkAgentRun AgentLoop {[SID]} 1 false false YEAR_MS PeerClosed)
    (MkAgentRun AgentLoop {[SID]} 1 false false YEAR_MS PeerClosed)
    [AgCountReceived 2; AgDelivered SID hi; AgDelivered SID hi_end]
    ltac:(by vm_compute) ltac:(by vm_compute) ltac:(by vm_compute)
    ltac:(repeat constructor; by intros [])
    hi_service LocalDone hi_service_effs ltac:(by vm_compute)
    ltac:(apply (bool_decide_unpack _); by vm_compute)).
  by vm_compute.
Defined.

Lemma tunnel_to_visitor_witness :
  socket_written hi_visitor_effs = bstr "hi" ∧
  socket_written hi_visitor_effs = local_read hi_service.
Proof.
  destruct hi_frames_ok as (Hc & Hd & Hl). split; [by vm_compute|].
  apply (tunnel_to_visitor (MkSessionId 7) SID 60 60 small_config agent_config 0 4
    Telemetry_default hi_service LocalDone hi_service_effs ltac:(by vm_compute) hi_writer
    hi_written ltac:(lia) Hc Hd ltac:(by vm_compute) Hl
    ltac:(apply (bool_decide_unpack _); by vm_compute)
    hi_reader 2 ltac:(repeat constructor; by vm_compute)
    ltac:(apply (bool_decide_unpack _); by vm_compute)
    edge_before_hi edge_after_hi
    (MkEdgeSession EdgeLoop {[SID]} 2 (MkSequence 1) None false 10)
    (MkEdgeSession EdgeLoop {[SID]} 2 (MkSequence 1) None false 10)
    [Spawned 0 SID]
    [Delivered SID (open_frame 1); CountReceived 2; Delivered SID hi; Delivered SID hi_end]
    ltac:(by vm_compute) ltac:(by vm_compute) ltac:(by vm_compute)
    ltac:(apply (bool_decide_unpack _); by vm_compute) ltac:(by vm_compute)
    hi_visitor IngressDone hi_visitor_effs ltac:(by vm_compute)
    ltac:(apply (bool_decide_unpack _); by vm_compute)).
  by vm_compute.
Defined.
