(* ===== verification/Authorization.v ===== *)
(** * Authorization: certificate-to-agent-to-tunnel snapshots

    [crates/control-plane/src/lib.rs]: building a snapshot from grants, the
    authorization decision, the canonical grant view, and the versioned
    publisher that distributes snapshots to subscribers. *)

From S2P Require Import Prelude Text Identity.

Record CertificateFingerprint : Type := MkFingerprint { fp_bytes : bytes }.

#[global] Instance CertificateFingerprint_eq_dec : EqDecision CertificateFingerprint.
Proof. solve_decision. Defined.
#[global] Program Instance CertificateFingerprint_countable : Countable CertificateFingerprint :=
  inj_countable' fp_bytes MkFingerprint _.
Next Obligation. by intros []. Qed.

Inductive TunnelStatus : Type := Enabled | Disabled.

#[global] Instance TunnelStatus_eq_dec : EqDecision TunnelStatus.
Proof. solve_decision. Defined.

Record TunnelGrant : Type := MkTunnelGrant {
  tg_tunnel_id : TunnelId;
  tg_status : TunnelStatus
}.

Record AgentGrant : Type := MkAgentGrant {
  ag_certificate : CertificateFingerprint;
  ag_agent_id : AgentId;
  ag_tunnels : list TunnelGrant
}.

#[global] Instance TunnelGrant_eq_dec : EqDecision TunnelGrant.
Proof. solve_decision. Defined.
#[global] Instance AgentGrant_eq_dec : EqDecision AgentGrant.
Proof. solve_decision. Defined.

Record AuthorizedAgent : Type := MkAuthorizedAgent {
  aa_agent_id : AgentId;
  aa_tunnels : gmap TunnelId TunnelStatus
}.

Record AuthorizationSnapshot : Type := MkSnapshot {
  as_agents : gmap CertificateFingerprint AuthorizedAgent
}.

#[global] Instance AuthorizedAgent_eq_dec : EqDecision AuthorizedAgent.
Proof. solve_decision. Defined.
#[global] Instance AuthorizationSnapshot_eq_dec : EqDecision AuthorizationSnapshot.
Proof. solve_decision. Defined.

Inductive SnapshotError : Type :=
| DuplicateCertificate (certificate : CertificateFingerprint)
| DuplicateTunnel (agent_id : AgentId) (tunnel_id : TunnelId).

Inductive AuthorizationError : Type :=
| UnknownCertificate
| AgentMismatch
| TunnelNotAuthorized
| TunnelDisabled.

#[global] Instance SnapshotError_eq_dec : EqDecision SnapshotError.
Proof. solve_decision. Defined.
#[global] Instance AuthorizationError_eq_dec : EqDecision AuthorizationError.
Proof. solve_decision. Defined.

(** ** Construction *)

(** The inner loop: insert every tunnel, refusing a second insertion. *)
Fixpoint insert_tunnels (agent_id : AgentId) (tunnels : gmap TunnelId TunnelStatus)
    (grants : list TunnelGrant) : Result SnapshotError (gmap TunnelId TunnelStatus) :=
  match grants with
  | [] => Ok tunnels
  | tunnel :: grants =>
      match tunnels !! tg_tunnel_id tunnel with
      | Some _ => Err (DuplicateTunnel agent_id (tg_tunnel_id tunnel))
      | None => insert_tunnels agent_id (<[tg_tunnel_id tunnel := tg_status tunnel]> tunnels) grants
      end
  end.

(** The outer loop over the grants. *)
Fixpoint insert_grants (agents : gmap CertificateFingerprint AuthorizedAgent)
    (grants : list AgentGrant)
    : Result SnapshotError (gmap CertificateFingerprint AuthorizedAgent) :=
  match grants with
  | [] => Ok agents
  | grant :: grants =>
      tunnels ← insert_tunnels (ag_agent_id grant) ∅ (ag_tunnels grant);
      match agents !! ag_certificate grant with
      | Some _ => Err (DuplicateCertificate (ag_certificate grant))
      | None =>
          insert_grants
            (<[ag_certificate grant := MkAuthorizedAgent (ag_agent_id grant) tunnels]> agents)
            grants
      end
  end.

Definition AuthorizationSnapshot_new (grants : list AgentGrant)
    : Result SnapshotError AuthorizationSnapshot :=
  agents ← insert_grants ∅ grants; Ok (MkSnapshot agents).

(** ** Queries *)

Definition authorize (s : AuthorizationSnapshot) (certificate : CertificateFingerprint)
    (agent_id : AgentId) (tunnel_id : TunnelId) : Result AuthorizationError unit :=
  agent ← ok_or UnknownCertificate (as_agents s !! certificate);
  if negb (bool_decide (aa_agent_id agent = agent_id)) then Err AgentMismatch
  else
    match aa_tunnels agent !! tunnel_id with
    | Some Disabled => Err TunnelDisabled
    | Some Enabled => Ok tt
    | None => Err TunnelNotAuthorized
    end.

Definition certificate_count (s : AuthorizationSnapshot) : Z := Z.of_nat (size (as_agents s)).

Definition contains_tunnel (s : AuthorizationSnapshot) (tunnel_id : TunnelId) : bool :=
  existsb (λ p, bool_decide (is_Some (aa_tunnels p.2 !! tunnel_id))) (map_to_list (as_agents s)).

(** [Ord] of the keys is the byte order of their contents. *)
Definition tunnel_grant_le (x y : TunnelGrant) : Prop :=
  bytes_le (tunnel_str (tg_tunnel_id x)) (tunnel_str (tg_tunnel_id y)).
Definition agent_grant_le (x y : AgentGrant) : Prop :=
  bytes_le (fp_bytes (ag_certificate x)) (fp_bytes (ag_certificate y)).

#[global] Instance tunnel_grant_le_dec : RelDecision tunnel_grant_le.
Proof. intros x y. unfold tunnel_grant_le. apply _. Defined.
#[global] Instance agent_grant_le_dec : RelDecision agent_grant_le.
Proof. intros x y. unfold agent_grant_le. apply _. Defined.

Definition agent_tunnels (a : AuthorizedAgent) : list TunnelGrant :=
  merge_sort tunnel_grant_le
    ((λ p, MkTunnelGrant p.1 p.2) <$> map_to_list (aa_tunnels a)).

Definition grants (s : AuthorizationSnapshot) : list AgentGrant :=
  merge_sort agent_grant_le
    ((λ p, MkAgentGrant p.1 (aa_agent_id p.2) (agent_tunnels p.2))
       <$> map_to_list (as_agents s)).

(** ** Versions and the publisher *)

(** [NonZeroU64]. *)
Record SnapshotVersion : Type := MkVersion { version_raw : Z }.

Definition SnapshotVersion_new (value : Z) : option SnapshotVersion :=
  if value =? 0 then None else Some (MkVersion value).

#[global] Instance SnapshotVersion_eq_dec : EqDecision SnapshotVersion.
Proof. solve_decision. Defined.

Record VersionedAuthorizationSnapshot : Type := MkVersioned {
  va_version : SnapshotVersion;
  va_snapshot : AuthorizationSnapshot
}.

#[global] Instance VersionedAuthorizationSnapshot_eq_dec :
  EqDecision VersionedAuthorizationSnapshot.
Proof. solve_decision. Defined.

Inductive SnapshotSourceHealth : Type := Live | Stale.

Definition SnapshotSourceHealth_as_u8 (h : SnapshotSourceHealth) : Z :=
  match h with Live => 1 | Stale => 2 end.
Definition SnapshotSourceHealth_from_raw (raw : Z) : SnapshotSourceHealth :=
  match raw with 1 => Live | _ => Stale end.

Inductive SnapshotPublishOutcome : Type :=
| Applied (previous current : SnapshotVersion)
| Unchanged (version : SnapshotVersion).

Inductive SnapshotUpdateError : Type :=
| StaleVersion (current received : SnapshotVersion)
| ConflictingVersion (version : SnapshotVersion).

(** The latest-value channel ([tokio::sync::watch]): what the publisher needs
    of it is that a receiver reads the value sent last. *)
Class LatestValue (W : Type → Type) : Type := {
  watch_channel : ∀ {A}, A → W A;
  send_replace : ∀ {A}, W A → A → W A;
  borrow : ∀ {A}, W A → A
}.

Class LatestValueLaws (W : Type → Type) `{LatestValue W} : Prop := {
  borrow_channel : ∀ A (a : A), borrow (watch_channel a) = a;
  borrow_send : ∀ A (w : W A) a, borrow (send_replace w a) = a
}.

Section publisher.
Context {W : Type → Type} `{LatestValue W}.

(** The publisher state and the parts it shares with its subscriptions. *)
Record SnapshotPublisherState : Type := MkPublisher {
  ps_current : VersionedAuthorizationSnapshot;
  ps_updates : W VersionedAuthorizationSnapshot;
  ps_health : Z
}.

Definition authorization_snapshot_channel (initial : VersionedAuthorizationSnapshot)
    : SnapshotPublisherState :=
  MkPublisher initial (watch_channel initial) (SnapshotSourceHealth_as_u8 Live).

Definition publish (state : SnapshotPublisherState) (candidate : VersionedAuthorizationSnapshot)
    : Result SnapshotUpdateError SnapshotPublishOutcome * SnapshotPublisherState :=
  let current := ps_current state in
  if version_raw (va_version candidate) <? version_raw (va_version current)
  then (Err (StaleVersion (va_version current) (va_version candidate)), state)
  else if bool_decide (va_version candidate = va_version current) then
    if bool_decide (va_snapshot candidate = va_snapshot current)
    then (Ok (Unchanged (va_version current)), state)
    else (Err (ConflictingVersion (va_version current)), state)
  else
    (Ok (Applied (va_version current) (va_version candidate)),
     MkPublisher candidate (send_replace (ps_updates state) candidate) (ps_health state)).

Definition set_source_health (state : SnapshotPublisherState) (health : SnapshotSourceHealth)
    : SnapshotPublisherState :=
  MkPublisher (ps_current state) (send_replace (ps_updates state) (ps_current state))
    (SnapshotSourceHealth_as_u8 health).

(** What a subscription reads. *)
Definition subscription_current (state : SnapshotPublisherState)
    : VersionedAuthorizationSnapshot := borrow (ps_updates state).
Definition source_health (state : SnapshotPublisherState) : SnapshotSourceHealth :=
  SnapshotSourceHealth_from_raw (ps_health state).

(** Everything that changes the publisher. *)
Inductive publisher_step : SnapshotPublisherState → SnapshotPublisherState → Prop :=
| step_publish s candidate : publisher_step s (publish s candidate).2
| step_health s h : publisher_step s (set_source_health s h).
End publisher.
Arguments SnapshotPublisherState W : clear implicits.

(** ** Construction lemmas *)

Lemma insert_tunnels_Ok a m ts m' :
  insert_tunnels a m ts = Ok m' ↔
  NoDup (tg_tunnel_id <$> ts) ∧ (∀ t, t ∈ tg_tunnel_id <$> ts → m !! t = None) ∧
  m' = list_to_map ((λ g, (tg_tunnel_id g, tg_status g)) <$> ts) ∪ m.
Proof.
  revert m. induction ts as [|[t st] ts IH]; intros m; cbn [insert_tunnels].
  { rewrite fmap_nil. cbn. rewrite (left_id_L ∅ (∪)). split; [|naive_solver].
    intros [= ->]. split_and!; [constructor|set_solver|done]. }
  cbn [tg_tunnel_id tg_status fmap list_fmap].
  rewrite list_to_map_cons, NoDup_cons. destruct (m !! t) as [?|] eqn:Ht.
  { split; [done|]. intros (_ & Hm & _). rewrite Hm in Ht; [done|set_solver]. }
  rewrite IH. split.
  - intros (Hnd & Hm & ->). split_and!; [|done| |].
    + intros Hin. specialize (Hm t Hin). by rewrite lookup_insert_eq in Hm.
    + intros x [->|Hx]%elem_of_cons; [done|]. specialize (Hm x Hx).
      by apply lookup_insert_None in Hm as [? _].
    + rewrite <-insert_union_l, insert_union_r; [done|].
      apply not_elem_of_list_to_map. rewrite <-list_fmap_compose.
      intros Hin. specialize (Hm t Hin). by rewrite lookup_insert_eq in Hm.
  - intros ((Hnin & Hnd) & Hm & ->). split_and!; [done| |].
    + intros x Hx. rewrite lookup_insert_ne by set_solver. apply Hm. set_solver.
    + rewrite <-insert_union_l, insert_union_r; [done|].
      apply not_elem_of_list_to_map. by rewrite <-list_fmap_compose.
Qed.

(** The agent a grant describes, when its tunnels are distinct. *)
Definition grant_agent (g : AgentGrant) : AuthorizedAgent :=
  MkAuthorizedAgent (ag_agent_id g)
    (list_to_map ((λ t, (tg_tunnel_id t, tg_status t)) <$> ag_tunnels g)).

Definition grant_ok (g : AgentGrant) : Prop := NoDup (tg_tunnel_id <$> ag_tunnels g).

Lemma insert_grants_Ok m gs m' :
  insert_grants m gs = Ok m' ↔
  Forall grant_ok gs ∧ NoDup (ag_certificate <$> gs) ∧
  (∀ c, c ∈ ag_certificate <$> gs → m !! c = None) ∧
  m' = list_to_map ((λ g, (ag_certificate g, grant_agent g)) <$> gs) ∪ m.
Proof.
  revert m. induction gs as [|g gs IH]; intros m; cbn [insert_grants].
  { rewrite fmap_nil. cbn. rewrite (left_id_L ∅ (∪)). split; [|naive_solver].
    intros [= ->]. split_and!; [constructor|constructor|set_solver|done]. }
  cbn [fmap list_fmap]. rewrite list_to_map_cons, NoDup_cons, Forall_cons, bind_Ok.
  setoid_rewrite insert_tunnels_Ok. setoid_rewrite (right_id_L ∅ (∪)).
  destruct (m !! ag_certificate g) as [?|] eqn:Ht.
  { split; [naive_solver|]. intros (_ & _ & Hm & _). rewrite Hm in Ht; [done|set_solver]. }
  split.
  - intros (tm & (Hnd & _ & ->) & H). fold (grant_agent g) in H.
    apply IH in H as (Hok & Hnd' & Hm & ->). split_and!; [done|done| |done| |].
    + intros Hin. specialize (Hm _ Hin). by rewrite lookup_insert_eq in Hm.
    + intros x [->|Hx]%elem_of_cons; [done|]. specialize (Hm x Hx).
      by apply lookup_insert_None in Hm as [? _].
    + rewrite <-insert_union_l, insert_union_r; [done|].
      apply not_elem_of_list_to_map. rewrite <-list_fmap_compose.
      intros Hin. specialize (Hm _ Hin). by rewrite lookup_insert_eq in Hm.
  - intros ((Hg & Hok) & (Hnin & Hnd) & Hm & ->). eexists. split; [by split_and!|].
    fold (grant_agent g). apply IH. split_and!; [done|done| |].
    + intros x Hx. rewrite lookup_insert_ne by set_solver. apply Hm. set_solver.
    + rewrite <-insert_union_l, insert_union_r; [done|].
      apply not_elem_of_list_to_map. by rewrite <-list_fmap_compose.
Qed.

(** A list of grants is acceptable when no certificate and, within a grant, no
    tunnel occurs twice. *)
Definition grants_ok (gs : list AgentGrant) : Prop :=
  Forall grant_ok gs ∧ NoDup (ag_certificate <$> gs).

Lemma snapshot_new_Ok gs s :
  AuthorizationSnapshot_new gs = Ok s ↔
  grants_ok gs ∧
  s = MkSnapshot (list_to_map ((λ g, (ag_certificate g, grant_agent g)) <$> gs)).
Proof.
  unfold AuthorizationSnapshot_new, grants_ok. rewrite bind_Ok.
  setoid_rewrite insert_grants_Ok. setoid_rewrite (right_id_L ∅ (∪)). split.
  - intros (m & (? & ? & _ & ->) & [= <-]). done.
  - intros [[? ?] ->]. eexists. split; [split_and!|]; done.
Qed.

Lemma snapshot_lookup gs s c a :
  AuthorizationSnapshot_new gs = Ok s →
  as_agents s !! c = Some a ↔ ∃ g, g ∈ gs ∧ ag_certificate g = c ∧ grant_agent g = a.
Proof.
  intros [[_ Hnd] ->]%snapshot_new_Ok. cbn [as_agents].
  rewrite <-elem_of_list_to_map by (by rewrite <-list_fmap_compose).
  rewrite list_elem_of_fmap. naive_solver.
Qed.

Lemma grant_lookup g t st :
  grant_ok g → aa_tunnels (grant_agent g) !! t = Some st ↔ MkTunnelGrant t st ∈ ag_tunnels g.
Proof.
  intros Hg. cbn. rewrite <-elem_of_list_to_map by (by rewrite <-list_fmap_compose).
  rewrite list_elem_of_fmap. split.
  - intros ([t' st'] & [= -> ->] & ?). done.
  - intros ?. by exists (MkTunnelGrant t st).
Qed.

(** ** The canonical view *)

#[global] Instance tunnel_grant_le_total : Total tunnel_grant_le.
Proof. intros x y. apply (total bytes_le). Qed.
#[global] Instance tunnel_grant_le_trans : Transitive tunnel_grant_le.
Proof. intros x y z. apply (transitivity (R := bytes_le)). Qed.
#[global] Instance agent_grant_le_total : Total agent_grant_le.
Proof. intros x y. apply (total bytes_le). Qed.
#[global] Instance agent_grant_le_trans : Transitive agent_grant_le.
Proof. intros x y z. apply (transitivity (R := bytes_le)). Qed.

Lemma agent_tunnels_perm a :
  agent_tunnels a ≡ₚ (λ p, MkTunnelGrant p.1 p.2) <$> map_to_list (aa_tunnels a).
Proof. apply merge_sort_Permutation. Qed.

Lemma agent_tunnels_pairs a :
  (λ t, (tg_tunnel_id t, tg_status t)) <$> agent_tunnels a ≡ₚ map_to_list (aa_tunnels a).
Proof.
  rewrite agent_tunnels_perm, <-list_fmap_compose.
  rewrite (list_fmap_ext _ id); [by rewrite list_fmap_id|]. by intros i [] _.
Qed.

Lemma agent_tunnels_ids a : tg_tunnel_id <$> agent_tunnels a ≡ₚ (map_to_list (aa_tunnels a)).*1.
Proof. rewrite <-agent_tunnels_pairs, <-list_fmap_compose. done. Qed.

(** The grant a snapshot entry is presented as. *)
Definition entry_grant (p : CertificateFingerprint * AuthorizedAgent) : AgentGrant :=
  MkAgentGrant p.1 (aa_agent_id p.2) (agent_tunnels p.2).

Lemma entry_grant_ok p : grant_ok (entry_grant p).
Proof.
  unfold grant_ok, entry_grant. cbn. rewrite agent_tunnels_ids. apply NoDup_fst_map_to_list.
Qed.

Lemma entry_grant_agent p : grant_agent (entry_grant p) = p.2.
Proof.
  destruct p as [c [a m]]. unfold grant_agent, entry_grant. cbn. f_equal.
  rewrite (list_to_map_proper _ (map_to_list m)).
  - apply list_to_map_to_list.
  - rewrite <-list_fmap_compose. apply (entry_grant_ok (c, MkAuthorizedAgent a m)).
  - apply (agent_tunnels_pairs (MkAuthorizedAgent a m)).
Qed.

Lemma grants_perm s : grants s ≡ₚ entry_grant <$> map_to_list (as_agents s).
Proof. apply merge_sort_Permutation. Qed.

Lemma grants_certificates s : ag_certificate <$> grants s ≡ₚ (map_to_list (as_agents s)).*1.
Proof. by rewrite grants_perm, <-list_fmap_compose. Qed.

Lemma grants_grants_ok s : grants_ok (grants s).
Proof.
  split.
  - rewrite grants_perm. apply Forall_fmap, Forall_true. intros. apply entry_grant_ok.
  - rewrite grants_certificates. apply NoDup_fst_map_to_list.
Qed.

Lemma snapshot_new_grants s : AuthorizationSnapshot_new (grants s) = Ok s.
Proof.
  apply snapshot_new_Ok. split; [apply grants_grants_ok|]. destruct s as [m]. f_equal.
  rewrite (list_to_map_proper _ (map_to_list m)).
  - by rewrite list_to_map_to_list.
  - rewrite <-list_fmap_compose. apply (grants_grants_ok (MkSnapshot m)).
  - rewrite grants_perm, <-list_fmap_compose.
    rewrite (list_fmap_ext _ id); [by rewrite list_fmap_id|].
    intros i [c a] _. cbn -[grant_agent]. by rewrite entry_grant_agent.
Qed.

Lemma grants_ok_perm gs gs' : gs ≡ₚ gs' → grants_ok gs → grants_ok gs'.
Proof. unfold grants_ok. intros Hp [? ?]. by rewrite <-Hp. Qed.

(** A list with distinct keys has at most one sorted rearrangement. *)
Lemma sorted_grants_unique l1 l2 :
  NoDup (ag_certificate <$> l1) → Sorted agent_grant_le l1 → Sorted agent_grant_le l2 →
  l1 ≡ₚ l2 → l1 = l2.
Proof.
  intros Hnd H1 H2 Hp. apply (Sorted_unique_strong agent_grant_le); try done.
  intros x y Hx Hy Hxy Hyx. rewrite <-Hp in Hy.
  assert (fp_bytes (ag_certificate x) = fp_bytes (ag_certificate y)) as Hc
    by (apply (anti_symm bytes_le); done).
  apply list_elem_of_lookup in Hx as [i Hi], Hy as [j Hj].
  assert (i = j) as ->; [|congruence].
  eapply (NoDup_lookup _ i j (ag_certificate x) Hnd); rewrite list_lookup_fmap.
  - by rewrite Hi.
  - rewrite Hj. cbn. f_equal. destruct (ag_certificate x), (ag_certificate y).
    cbn in Hc. by subst.
Qed.

Lemma snapshot_new_perm gs gs' :
  grants_ok gs → gs ≡ₚ gs' → AuthorizationSnapshot_new gs = AuthorizationSnapshot_new gs'.
Proof.
  intros Hok Hp. pose proof (grants_ok_perm _ _ Hp Hok) as Hok'.
  rewrite (proj2 (snapshot_new_Ok gs _) (conj Hok eq_refl)).
  rewrite (proj2 (snapshot_new_Ok gs' _) (conj Hok' eq_refl)). do 2 f_equal.
  apply list_to_map_proper; [|by rewrite Hp]. rewrite <-list_fmap_compose. apply Hok.
Qed.

(** ** Theorems *)

(** C32. The authorization decision is exactly the grant list: on a snapshot built
    from [gs], a certificate, agent and tunnel are accepted iff some grant binds
    that certificate to that agent and lists the tunnel as enabled; otherwise the
    error tells which of the four conditions fails first. *)
Theorem authorize_decision gs s c a t :
  AuthorizationSnapshot_new gs = Ok s →
  match authorize s c a t with
  | Ok _ => ∃ g, g ∈ gs ∧ ag_certificate g = c ∧ ag_agent_id g = a ∧
                 MkTunnelGrant t Enabled ∈ ag_tunnels g
  | Err UnknownCertificate => ∀ g, g ∈ gs → ag_certificate g ≠ c
  | Err AgentMismatch =>
      (∃ g, g ∈ gs ∧ ag_certificate g = c) ∧
      ∀ g, g ∈ gs → ag_certificate g = c → ag_agent_id g ≠ a
  | Err TunnelDisabled =>
      ∃ g, g ∈ gs ∧ ag_certificate g = c ∧ ag_agent_id g = a ∧
           MkTunnelGrant t Disabled ∈ ag_tunnels g ∧ MkTunnelGrant t Enabled ∉ ag_tunnels g
  | Err TunnelNotAuthorized =>
      ∃ g, g ∈ gs ∧ ag_certificate g = c ∧ ag_agent_id g = a ∧
           t ∉ tg_tunnel_id <$> ag_tunnels g
  end.
Proof.
  intros Hs. pose proof Hs as [[Hok Hnd] _]%snapshot_new_Ok.
  pose proof (λ x, snapshot_lookup gs s c x Hs) as Hl. unfold authorize.
  destruct (as_agents s !! c) as [ag|] eqn:Hc; cbn [ok_or mbind result_bind].
  2: { intros g Hg Hgc. assert (None = Some (grant_agent g)); [|done]. apply Hl. eauto. }
  destruct (proj1 (Hl ag) eq_refl) as (g & Hg & Hgc & <-).
  assert (∀ h, h ∈ gs → ag_certificate h = c → grant_agent h = grant_agent g) as Huniq.
  { intros h ? ?. assert (Some (grant_agent g) = Some (grant_agent h)) by (apply Hl; eauto).
    congruence. }
  assert (grant_ok g) as Hgok by (by eapply Forall_forall in Hok).
  pose proof (grant_lookup g t) as Ht.
  case_bool_decide as Ha; cbn [negb].
  2: { split; [eauto|]. intros h Hh Hhc <-. apply Ha.
       change (aa_agent_id (grant_agent g) = aa_agent_id (grant_agent h)).
       by rewrite (Huniq h). }
  destruct (aa_tunnels (grant_agent g) !! t) as [[]|] eqn:Hst; exists g; split_and!; try done.
  - by apply Ht.
  - by apply Ht.
  - intros Hin%Ht; [congruence|done].
  - intros ([t' st] & -> & Hin)%list_elem_of_fmap. cbn in *.
    apply Ht in Hin; [|done]. congruence.
Qed.

(** Building a snapshot: it succeeds iff no certificate occurs twice and no
    grant lists a tunnel twice, and the result does not depend on the order of
    the grants, so it is a function of the authorization content alone. *)
Theorem snapshot_new_total_and_order_independent gs :
  (is_ok (AuthorizationSnapshot_new gs) = true ↔ grants_ok gs) ∧
  (∀ gs', grants_ok gs → gs ≡ₚ gs' →
     AuthorizationSnapshot_new gs = AuthorizationSnapshot_new gs').
Proof.
  split.
  - rewrite is_ok_true. setoid_rewrite snapshot_new_Ok. naive_solver.
  - intros gs'. apply snapshot_new_perm.
Qed.

(** The grant view is canonical: it rebuilds the snapshot it was taken from,
    it is sorted by certificate with each grant's tunnels sorted by identifier,
    and it is the only sorted arrangement of these grants, so the hash-map
    iteration order cannot be observed. *)
Theorem grants_canonical s :
  AuthorizationSnapshot_new (grants s) = Ok s ∧
  Sorted agent_grant_le (grants s) ∧
  Forall (λ g, Sorted tunnel_grant_le (ag_tunnels g)) (grants s) ∧
  (∀ l, l ≡ₚ grants s → Sorted agent_grant_le l → l = grants s).
Proof.
  split_and!.
  - apply snapshot_new_grants.
  - apply (Sorted_merge_sort agent_grant_le).
  - rewrite grants_perm. apply Forall_fmap, Forall_true. intros p. cbn.
    apply (Sorted_merge_sort tunnel_grant_le).
  - intros l Hl Hs. symmetry. apply sorted_grants_unique; try done.
    + apply grants_grants_ok.
    + apply (Sorted_merge_sort agent_grant_le).
Qed.

Definition sample_grants : list AgentGrant :=
  [ MkAgentGrant (MkFingerprint [x02%byte]) (MkAgentId (bstr "b"))
      [MkTunnelGrant (MkTunnelId (bstr "t2")) Disabled; MkTunnelGrant (MkTunnelId (bstr "t1")) Enabled];
    MkAgentGrant (MkFingerprint [x01%byte]) (MkAgentId (bstr "a")) [] ].

Lemma authorize_decision_witness :
  ∃ s, AuthorizationSnapshot_new sample_grants = Ok s ∧
  ∃ g, g ∈ sample_grants ∧ ag_certificate g = MkFingerprint [x02%byte] ∧
       ag_agent_id g = MkAgentId (bstr "b") ∧
       MkTunnelGrant (MkTunnelId (bstr "t1")) Enabled ∈ ag_tunnels g.
Proof.
  eexists. split; [reflexivity|].
  exact (authorize_decision sample_grants _ (MkFingerprint [x02%byte]) (MkAgentId (bstr "b"))
    (MkTunnelId (bstr "t1")) eq_refl).
Defined.

(** ** Publication *)

Section publication.
Context {W : Type → Type} `{LatestValueLaws W}.
Implicit Types s : SnapshotPublisherState W.

Definition published_version s : Z := version_raw (va_version (ps_current s)).

(** The subscribers see the publisher's current snapshot. *)
Definition in_sync s : Prop := subscription_current s = ps_current s.

Lemma publish_spec s v :
  (publish s v).2 = s ∨
  published_version s < version_raw (va_version v) ∧
  ps_current (publish s v).2 = v ∧ in_sync (publish s v).2.
Proof.
  unfold publish, published_version.
  destruct (Z.ltb_spec (version_raw (va_version v)) (version_raw (va_version (ps_current s))));
    [by left|].
  case_bool_decide as Hv; [case_bool_decide; by left|]. right. split_and!.
  - assert (version_raw (va_version v) ≠ version_raw (va_version (ps_current s))); [|lia].
    intros Heq. apply Hv. destruct (va_version v), (va_version (ps_current s)).
    cbn in Heq. by subst.
  - done.
  - unfold in_sync, subscription_current. cbn. by rewrite borrow_send.
Qed.

Lemma publisher_step_spec s s' :
  publisher_step s s' → in_sync s →
  in_sync s' ∧ (ps_current s' = ps_current s ∨ published_version s < published_version s').
Proof.
  intros [s0 v|s0 h] Hs.
  - destruct (publish_spec s0 v) as [->|(? & Hc & ?)]; [auto|].
    split; [done|]. right. unfold published_version at 2. by rewrite Hc.
  - split; [|by left]. unfold in_sync, subscription_current. cbn. by rewrite borrow_send.
Qed.

Lemma publisher_steps_spec s s' :
  rtc publisher_step s s' → in_sync s →
  in_sync s' ∧ (ps_current s' = ps_current s ∨ published_version s < published_version s').
Proof.
  induction 1 as [s|s1 s2 s3 Hstep _ IH]; [auto|]. intros Hs.
  destruct (publisher_step_spec _ _ Hstep Hs) as [Hs2 H12].
  destruct (IH Hs2) as [Hs3 H23]. split; [done|].
  destruct H12 as [Heq|Hlt], H23 as [Heq'|Hlt'].
  - left. congruence.
  - right. unfold published_version in *. by rewrite <-Heq.
  - right. unfold published_version in *. by rewrite Heq'.
  - right. lia.
Qed.

(** Distribution is monotone and free of equivocation: from a fresh channel,
    after any sequence of publications (accepted or refused) and health changes,
    every subscriber reads the publisher's current snapshot, a later state never
    has a smaller version, and two states with the same version carry the same
    snapshot. *)
Theorem publication_monotone initial s1 s2 :
  rtc publisher_step (authorization_snapshot_channel initial) s1 →
  rtc publisher_step s1 s2 →
  subscription_current s1 = ps_current s1 ∧ subscription_current s2 = ps_current s2 ∧
  published_version s1 ≤ published_version s2 ∧
  (published_version s1 = published_version s2 →
   subscription_current s1 = subscription_current s2).
Proof.
  intros H1 H2. assert (in_sync (authorization_snapshot_channel initial)) as Hinit.
  { unfold in_sync, subscription_current. cbn. by rewrite borrow_channel. }
  destruct (publisher_steps_spec _ _ H1 Hinit) as [Hs1 _].
  destruct (publisher_steps_spec _ _ H2 Hs1) as [Hs2 Hor].
  unfold in_sync in *. rewrite Hs1, Hs2.
  destruct Hor as [Heq|Hlt]; split_and!; try done; unfold published_version in *.
  - by rewrite Heq.
  - lia.
  - lia.
Qed.
End publication.

#[global] Instance cell_watch : LatestValue id := {|
  watch_channel := λ _ a, a; send_replace := λ _ _ a, a; borrow := λ _ a, a |}.
#[global] Instance cell_watch_laws : LatestValueLaws id.
Proof. by split. Qed.

Definition version_1 : VersionedAuthorizationSnapshot := MkVersioned (MkVersion 1) (MkSnapshot ∅).
Definition version_2 : VersionedAuthorizationSnapshot := MkVersioned (MkVersion 2) (MkSnapshot ∅).

Lemma publication_monotone_witness :
  let s0 := authorization_snapshot_channel (W := id) version_1 in
  let s1 := (publish s0 version_2).2 in
  let s2 := (publish s1 version_1).2 in
  subscription_current s1 = ps_current s1 ∧ subscription_current s2 = ps_current s2 ∧
  published_version s1 ≤ published_version s2 ∧
  (published_version s1 = published_version s2 →
   subscription_current s1 = subscription_current s2).
Proof.
  intros s0 s1 s2. apply (publication_monotone (W := id) version_1 s1 s2).
  - apply rtc_once. exact (step_publish s0 version_2).
  - apply rtc_once. exact (step_publish s1 version_1).
Defined.
