(* ===== verification/Registry.v ===== *)
(** * Registry: registration of Agents and routing to their sessions

    The Edge's view of its Agents: the registration policy
    ([EdgeRegistrationPolicy] of [crates/edge/src/tls.rs]), the handshake
    ([perform_authorized_handshake] of [crates/edge/src/agent_transport.rs]),
    and the session and tunnel maps with their router
    ([crates/edge/src/multiplex.rs]).  The whole is a transition system over
    any number of connections, the control plane that publishes snapshots and
    the runtime loop that applies them; what happens under the authorization
    gate is one step. *)

From stdpp Require Import sorting.
From S2P Require Import Prelude Text AsyncIo Identity Frame Codec Handshake Authorization.
From S2P Require Import Telemetry WriterActor StreamTask EdgeSession.

(** ** The registration policy *)

Record AuthorizedRegistration : Type := MkAuthorized {
  ar_certificate : option CertificateFingerprint;
  ar_agent_id : AgentId;
  ar_tunnel_id : TunnelId;
  ar_snapshot_version : option SnapshotVersion
}.

#[global] Instance AuthorizedRegistration_eq_dec : EqDecision AuthorizedRegistration.
Proof. solve_decision. Defined.

(** The subscription of [MutualTls] is the state of the publisher; the two
    flags say whether the policy keeps its producer and whether it takes
    updates from it. *)
Inductive EdgeRegistrationMode : Type :=
| LoopbackDevelopment (registrations : list RegistrationRequest)
| MutualTls (static_source local_updates : bool).

Definition is_mutual_tls (mode : EdgeRegistrationMode) : bool :=
  match mode with MutualTls _ _ => true | LoopbackDevelopment _ => false end.

Definition has_live_updates (mode : EdgeRegistrationMode) : bool :=
  match mode with
  | MutualTls static_source local_updates => negb static_source || local_updates
  | LoopbackDevelopment _ => false
  end.

Definition is_dynamic_snapshot_authorization (mode : EdgeRegistrationMode) : bool :=
  match mode with MutualTls false _ => true | _ => false end.

Definition policy_contains_tunnel (mode : EdgeRegistrationMode)
    (current : VersionedAuthorizationSnapshot) (tunnel : TunnelId) : bool :=
  match mode with
  | LoopbackDevelopment registrations =>
      existsb (λ r, bool_decide (rr_tunnel_id r = tunnel)) registrations
  | MutualTls _ _ => contains_tunnel (va_snapshot current) tunnel
  end.

Definition handshake_code (e : AuthorizationError) : HandshakeErrorCode :=
  match e with
  | UnknownCertificate | AgentMismatch => HC_UnauthorizedAgent
  | TunnelNotAuthorized => HC_UnauthorizedTunnel
  | TunnelDisabled => HC_TunnelDisabled
  end.

Definition policy_authorize (mode : EdgeRegistrationMode)
    (current : VersionedAuthorizationSnapshot) (peer_certificate : option CertificateFingerprint)
    (request : RegistrationRequest) : Result HandshakeErrorCode AuthorizedRegistration :=
  match mode with
  | LoopbackDevelopment registrations =>
      if existsb (λ allowed, bool_decide (allowed = request)) registrations then
        Ok (MkAuthorized None (rr_agent_id request) (rr_tunnel_id request) None)
      else if existsb (λ allowed, bool_decide (rr_agent_id allowed = rr_agent_id request))
                registrations then Err HC_UnauthorizedTunnel
      else Err HC_UnauthorizedAgent
  | MutualTls _ _ =>
      certificate ← ok_or HC_UnauthorizedAgent peer_certificate;
      _ ← map_err handshake_code
            (authorize (va_snapshot current) certificate (rr_agent_id request)
               (rr_tunnel_id request));
      Ok (MkAuthorized (Some certificate) (rr_agent_id request) (rr_tunnel_id request)
            (Some (va_version current)))
  end.

Definition is_ok {E A} (r : Result E A) : bool := match r with Ok _ => true | Err _ => false end.

Definition reauthorize (mode : EdgeRegistrationMode) (current : VersionedAuthorizationSnapshot)
    (principal : AuthorizedRegistration) : bool :=
  is_ok (policy_authorize mode current (ar_certificate principal)
           (MkRegistrationRequest (ar_agent_id principal) (ar_tunnel_id principal))).

Definition principal_is_authorized (snapshot : VersionedAuthorizationSnapshot)
    (principal : AuthorizedRegistration) : bool :=
  match ar_certificate principal with
  | None => false
  | Some certificate =>
      is_ok (authorize (va_snapshot snapshot) certificate (ar_agent_id principal)
               (ar_tunnel_id principal))
  end.

(** ** The handshake *)

(** How a connection ends; a refused handshake may have sent an ERROR first. *)
Inductive conn_end : Type :=
| EndHandshake (e : AgentTransportError) (sent : option HandshakeErrorCode)
| EndHandshakeTimeout
| EndUnpublished                 (** authorization changed before publication *)
| EndSession.                    (** [run_edge_session] returned *)

Definition hs_frame (state : HandshakeState) (decoded : Result ProtocolError (option Frame))
    : Result conn_end Frame :=
  match decoded with
  | Ok (Some f) => Ok f
  | Ok None => Err (EndHandshake (TE_UnexpectedEof state) None)
  | Err e => Err (EndHandshake (TE_ProtocolDecode e) None)
  end.

(** [send_error_and_close], then a protocol violation. *)
Definition hs_violation (code : HandshakeErrorCode) (reason : string) : conn_end :=
  EndHandshake (TE_ProtocolViolation reason) (Some code).

Definition check_hello (decoded : Result ProtocolError (option Frame)) : Result conn_end unit :=
  f ← hs_frame AwaitHello decoded;
  if negb (bool_decide (frame_type f = Hello)) then
    Err (hs_violation HC_UnexpectedFrame "expected HELLO first")
  else if negb (zlen (payload f) =? HELLO_PAYLOAD_SIZE) then
    Err (hs_violation HC_InvalidHello "invalid HELLO payload length")
  else if negb (b2z (byte_at (payload f) 0) =? ROLE_AGENT) then
    Err (hs_violation HC_InvalidHello "unknown HELLO role")
  else Ok tt.

Definition check_register (mode : EdgeRegistrationMode) (current : VersionedAuthorizationSnapshot)
    (peer_certificate : option CertificateFingerprint)
    (decoded : Result ProtocolError (option Frame)) : Result conn_end AuthorizedRegistration :=
  f ← hs_frame AwaitRegister decoded;
  if negb (bool_decide (frame_type f = Register)) then
    Err (hs_violation HC_UnexpectedFrame "expected REGISTER as second frame")
  else
    registration ← map_err
      (λ _, hs_violation HC_InvalidRegister "invalid REGISTER payload")
      (RegistrationRequest_decode (payload f));
    map_err (λ code, EndHandshake (TE_RegistrationRejected code) (Some code))
      (policy_authorize mode current peer_certificate registration).

(** [TransportSessionIdAllocator::next_id]: the new counter and the identifier. *)
Definition next_id (counter : Z) : Z * option TransportSessionId :=
  match checked_add 64 counter 1 with
  | Some next => (next, TransportSessionId_new next)
  | None => (counter, None)
  end.

(** ** State *)

Inductive conn_pc : Type :=
| ConnHello
| ConnRegister
| ConnAuthorized (p : AuthorizedRegistration)
| ConnClaimed (p : AuthorizedRegistration)
| ConnSending (p : AuthorizedRegistration) (id : TransportSessionId)
| ConnEstablished (p : AuthorizedRegistration) (id : TransportSessionId)
| ConnLive (p : AuthorizedRegistration) (id : TransportSessionId)
| ConnReleasing (t : TunnelId) (why : conn_end)  (** the claim is about to be dropped *)
| ConnDone (why : conn_end).

Record conn : Type := MkConn {
  cn_certificate : option CertificateFingerprint;
  cn_pc : conn_pc
}.

(** [LiveSession]: the command sender is known by the connection it leads to. *)
Record LiveSession : Type := MkLiveSession {
  ls_conn : nat;
  ls_authorization : AuthorizedRegistration
}.

Inductive AuthorizationSourceStatus : Type := SourceStatic | SourceLive | SourceStale.

Record EdgeAuthorizationStatus : Type := MkAuthorizationStatus {
  st_version : option SnapshotVersion;
  st_source : AuthorizationSourceStatus;
  st_revoked_sessions : Z
}.

(** [Ord] of the keys. *)
Definition session_id_le (a b : TransportSessionId) : Prop := session_raw a ≤ session_raw b.
Definition binding_le (a b : TunnelId * TransportSessionId) : Prop :=
  bytes_le (tunnel_str a.1) (tunnel_str b.1).
#[global] Instance session_id_le_dec : RelDecision session_id_le.
Proof. intros a b. unfold session_id_le. apply _. Defined.
#[global] Instance binding_le_dec : RelDecision binding_le.
Proof. intros a b. unfold binding_le. apply _. Defined.

Definition sorted_session_ids (sessions : gmap TransportSessionId LiveSession)
    : list TransportSessionId :=
  merge_sort session_id_le (map_to_list sessions).*1.

Definition sorted_tunnel_bindings (tunnels : gmap TunnelId TransportSessionId)
    : list (TunnelId * TransportSessionId) :=
  merge_sort binding_le (map_to_list tunnels).

Section registry.
Context {W : Type → Type} `{LatestValue W}.
Context (mode : EdgeRegistrationMode).

Record registry : Type := MkRegistry {
  rg_publisher : SnapshotPublisherState W;
  rg_update : option VersionedAuthorizationSnapshot;  (** taken by the loop, not yet applied *)
  rg_status : EdgeAuthorizationStatus;
  rg_sessions : gmap TransportSessionId LiveSession;
  rg_tunnels : gmap TunnelId TransportSessionId;
  rg_session_updates : list TransportSessionId;
  rg_tunnel_updates : list (TunnelId * TransportSessionId);
  rg_claims : gset TunnelId;
  rg_counter : Z;
  rg_accepting : bool;
  rg_conns : list conn
}.

Definition source_status (h : SnapshotSourceHealth) : AuthorizationSourceStatus :=
  match h with Live => SourceLive | Stale => SourceStale end.

(** [MultiplexedEdgeRuntime::bind]. *)
Definition registry_new (publisher : SnapshotPublisherState W) : registry :=
  MkRegistry publisher None
    (MkAuthorizationStatus
       (if is_mutual_tls mode then Some (va_version (subscription_current publisher)) else None)
       (if has_live_updates mode then source_status (source_health publisher) else SourceStatic) 0)
    ∅ ∅ [] [] ∅ 0 true [].

Definition rg_with_conn (s : registry) (i : nat) (pc : conn_pc) : registry :=
  MkRegistry (rg_publisher s) (rg_update s) (rg_status s) (rg_sessions s) (rg_tunnels s)
    (rg_session_updates s) (rg_tunnel_updates s) (rg_claims s) (rg_counter s) (rg_accepting s)
    (alter (λ c, MkConn (cn_certificate c) pc) i (rg_conns s)).
Definition rg_with_claims (s : registry) (claims : gset TunnelId) : registry :=
  MkRegistry (rg_publisher s) (rg_update s) (rg_status s) (rg_sessions s) (rg_tunnels s)
    (rg_session_updates s) (rg_tunnel_updates s) claims (rg_counter s) (rg_accepting s)
    (rg_conns s).
Definition rg_with_counter (s : registry) (counter : Z) : registry :=
  MkRegistry (rg_publisher s) (rg_update s) (rg_status s) (rg_sessions s) (rg_tunnels s)
    (rg_session_updates s) (rg_tunnel_updates s) (rg_claims s) counter (rg_accepting s)
    (rg_conns s).
Definition rg_with_publisher (s : registry) (p : SnapshotPublisherState W) : registry :=
  MkRegistry p (rg_update s) (rg_status s) (rg_sessions s) (rg_tunnels s)
    (rg_session_updates s) (rg_tunnel_updates s) (rg_claims s) (rg_counter s) (rg_accepting s)
    (rg_conns s).

(** The two maps and the lists their watchers see. *)
Definition rg_with_maps (s : registry) (sessions : gmap TransportSessionId LiveSession)
    (tunnels : gmap TunnelId TransportSessionId) : registry :=
  MkRegistry (rg_publisher s) (rg_update s) (rg_status s) sessions tunnels
    (sorted_session_ids sessions) (sorted_tunnel_bindings tunnels) (rg_claims s) (rg_counter s)
    (rg_accepting s) (rg_conns s).

(** Dropping the claim of a connection that has one, before its end. *)
Definition rg_release (s : registry) (i : nat) (p : AuthorizedRegistration) (why : conn_end)
    : registry := rg_with_conn s i (ConnReleasing (ar_tunnel_id p) why).

(** The end of [run_accepted_session], under the gate. *)
Definition rg_remove (s : registry) (p : AuthorizedRegistration) (id : TransportSessionId)
    : registry :=
  rg_with_maps s (delete id (rg_sessions s))
    (if decide (rg_tunnels s !! ar_tunnel_id p = Some id)
     then delete (ar_tunnel_id p) (rg_tunnels s) else rg_tunnels s).

(** Publication of an established session, under the gate. *)
Definition rg_publish (s : registry) (i : nat) (p : AuthorizedRegistration)
    (id : TransportSessionId) : registry :=
  if reauthorize mode (subscription_current (rg_publisher s)) p then
    rg_with_conn (rg_with_maps s (<[id := MkLiveSession i p]> (rg_sessions s))
                    (<[ar_tunnel_id p := id]> (rg_tunnels s))) i (ConnLive p id)
  else rg_release s i p EndUnpublished.

Definition revoked (snapshot : VersionedAuthorizationSnapshot)
    (sessions : gmap TransportSessionId LiveSession) : gmap TransportSessionId LiveSession :=
  filter (λ kv, principal_is_authorized snapshot (ls_authorization kv.2) = false) sessions.

(** [reconcile_authorization_snapshot], under the gate. *)
Definition reconcile_authorization_snapshot (s : registry)
    (snapshot : VersionedAuthorizationSnapshot) (source : AuthorizationSourceStatus) : registry :=
  let revoked_ids := revoked snapshot (rg_sessions s) in
  let s' :=
    if decide (revoked_ids = ∅) then s
    else rg_with_maps s (rg_sessions s ∖ revoked_ids)
           (filter (λ kv, revoked_ids !! kv.2 = None) (rg_tunnels s)) in
  MkRegistry (rg_publisher s') None
    (MkAuthorizationStatus (Some (va_version snapshot)) source
       (saturating_add 64 (st_revoked_sessions (rg_status s)) (Z.of_nat (size revoked_ids))))
    (rg_sessions s') (rg_tunnels s') (rg_session_updates s') (rg_tunnel_updates s')
    (rg_claims s') (rg_counter s') (rg_accepting s') (rg_conns s').

Definition mark_snapshot_source_stale (s : registry) : registry :=
  MkRegistry (rg_publisher s) (rg_update s)
    (MkAuthorizationStatus (st_version (rg_status s)) SourceStale
       (st_revoked_sessions (rg_status s)))
    (rg_sessions s) (rg_tunnels s) (rg_session_updates s) (rg_tunnel_updates s) (rg_claims s)
    (rg_counter s) (rg_accepting s) (rg_conns s).

(** ** Steps *)

Inductive rg_action : Type :=
| RgAccept (certificate : option CertificateFingerprint)
| RgHello (i : nat) (decoded : Result ProtocolError (option Frame))
| RgRegister (i : nat) (decoded : Result ProtocolError (option Frame))
| RgClaim (i : nat)
| RgAllocate (i : nat)
| RgSent (i : nat) (ok : bool)          (** REGISTERED written, or not *)
| RgTimeout (i : nat)                   (** the handshake deadline *)
| RgPublish (i : nat)
| RgEnd (i : nat)                       (** [run_edge_session] returns *)
| RgRelease (i : nat)                   (** [Drop for TunnelRegistrationClaim] *)
| RgSnapshot (v : VersionedAuthorizationSnapshot)   (** the control plane publishes *)
| RgHealth (h : SnapshotSourceHealth)
| RgTake                                (** [updates.changed()] *)
| RgReconcile
| RgSourceClosed
| RgShutdown                            (** the signal: [accepting_streams] *)
| RgClear.                              (** after the drain *)

Definition conn_at (s : registry) (i : nat) : option conn_pc := cn_pc <$> rg_conns s !! i.

(** [claims.claim], for the connection [i]. *)
Definition rg_claim (s : registry) (i : nat) (p : AuthorizedRegistration) : registry :=
  if decide (ar_tunnel_id p ∈ rg_claims s) then
    rg_with_conn s i (ConnDone (EndHandshake (TE_RegistrationRejected HC_TunnelAlreadyConnected)
                                  (Some HC_TunnelAlreadyConnected)))
  else rg_with_conn (rg_with_claims s (rg_claims s ∪ {[ar_tunnel_id p]})) i (ConnClaimed p).

Definition rg_allocate (s : registry) (i : nat) (p : AuthorizedRegistration) : registry :=
  let '(counter, id) := next_id (rg_counter s) in
  let s' := rg_with_counter s counter in
  match id with
  | Some id => rg_with_conn s' i (ConnSending p id)
  | None =>
      rg_release s' i p
        (EndHandshake (TE_ProtocolViolation "session ID allocator exhausted") None)
  end.

Definition rg_step (s : registry) (a : rg_action) : option registry :=
  match a with
  | RgAccept certificate =>
      Some (MkRegistry (rg_publisher s) (rg_update s) (rg_status s) (rg_sessions s)
              (rg_tunnels s) (rg_session_updates s) (rg_tunnel_updates s) (rg_claims s)
              (rg_counter s) (rg_accepting s) (rg_conns s ++ [MkConn certificate ConnHello]))
  | RgHello i decoded =>
      match conn_at s i with
      | Some ConnHello =>
          Some (rg_with_conn s i
                  (match check_hello decoded with Ok _ => ConnRegister | Err e => ConnDone e end))
      | _ => None
      end
  | RgRegister i decoded =>
      match rg_conns s !! i with
      | Some (MkConn certificate ConnRegister) =>
          Some (rg_with_conn s i
                  (match check_register mode (subscription_current (rg_publisher s)) certificate
                           decoded with
                   | Ok p => ConnAuthorized p
                   | Err e => ConnDone e
                   end))
      | _ => None
      end
  | RgClaim i =>
      match conn_at s i with Some (ConnAuthorized p) => Some (rg_claim s i p) | _ => None end
  | RgAllocate i =>
      match conn_at s i with Some (ConnClaimed p) => Some (rg_allocate s i p) | _ => None end
  | RgSent i ok =>
      match conn_at s i with
      | Some (ConnSending p id) =>
          Some (if ok then rg_with_conn s i (ConnEstablished p id)
                else rg_release s i p (EndHandshake (TE_SessionIo IO_OTHER) None))
      | _ => None
      end
  | RgTimeout i =>
      match conn_at s i with
      | Some ConnHello | Some ConnRegister => Some (rg_with_conn s i (ConnDone EndHandshakeTimeout))
      | Some (ConnSending p id) => Some (rg_release s i p EndHandshakeTimeout)
      | _ => None
      end
  | RgPublish i =>
      match conn_at s i with
      | Some (ConnEstablished p id) => Some (rg_publish s i p id)
      | _ => None
      end
  | RgEnd i =>
      match conn_at s i with
      | Some (ConnLive p id) => Some (rg_release (rg_remove s p id) i p EndSession)
      | _ => None
      end
  | RgRelease i =>
      match conn_at s i with
      | Some (ConnReleasing t why) =>
          Some (rg_with_conn (rg_with_claims s (rg_claims s ∖ {[t]})) i (ConnDone why))
      | _ => None
      end
  | RgSnapshot v => Some (rg_with_publisher s (publish (rg_publisher s) v).2)
  | RgHealth h => Some (rg_with_publisher s (set_source_health (rg_publisher s) h))
  | RgTake =>
      if has_live_updates mode && bool_decide (rg_update s = None) then
        Some (MkRegistry (rg_publisher s) (Some (subscription_current (rg_publisher s)))
                (rg_status s) (rg_sessions s) (rg_tunnels s) (rg_session_updates s)
                (rg_tunnel_updates s) (rg_claims s) (rg_counter s) (rg_accepting s) (rg_conns s))
      else None
  | RgReconcile =>
      match rg_update s with
      | Some snapshot =>
          Some (reconcile_authorization_snapshot s snapshot
                  (source_status (source_health (rg_publisher s))))
      | None => None
      end
  | RgSourceClosed => Some (mark_snapshot_source_stale s)
  | RgShutdown =>
      Some (MkRegistry (rg_publisher s) (rg_update s) (rg_status s) (rg_sessions s) (rg_tunnels s)
              (rg_session_updates s) (rg_tunnel_updates s) (rg_claims s) (rg_counter s) false
              (rg_conns s))
  | RgClear => Some (rg_with_maps s ∅ ∅)
  end.

Fixpoint rg_run (s : registry) (acts : list rg_action) : option registry :=
  match acts with
  | [] => Some s
  | a :: acts => match rg_step s a with Some s' => rg_run s' acts | None => None end
  end.

(** ** The router *)

Definition resolve_tunnel (s : registry) (t : TunnelId) : option TransportSessionId :=
  rg_tunnels s !! t.
Definition is_connected (s : registry) (id : TransportSessionId) : bool :=
  bool_decide (is_Some (rg_sessions s !! id)).

(** [enqueue_io]; [sent] is the answer of the session's command queue. *)
Definition enqueue_io (s : registry) (id : TransportSessionId) (sent : try_sent)
    : Result RouteError LiveSession :=
  if negb (rg_accepting s) then Err RuntimeDraining
  else
    session ← ok_or (SessionNotFound id) (rg_sessions s !! id);
    match sent with
    | TrySent => Ok session
    | TryFull => Err (SessionBusy id)
    | TryClosed => Err (RouteSessionClosing id)
    end.

(** Up to the release of the gate. *)
Definition open_tunnel_io_tracked (s : registry) (t : TunnelId) (sent : try_sent)
    : Result RouteError LiveSession :=
  id ← ok_or (TunnelNotConnected (tunnel_str t)) (resolve_tunnel s t);
  enqueue_io s id sent.

(** [finish_open]: the response of the session, if it gave one. *)
Definition finish_open (id : TransportSessionId) (response : option (Result RouteError StreamId))
    : Result RouteError StreamId :=
  default (Err (RouteSessionClosing id)) response.
End registry.
Arguments registry W : clear implicits.

(** ** Invariant: claims, identifiers and maps *)

(** The tunnel whose claim a connection holds, and its session identifier. *)
Definition holds (pc : conn_pc) : option TunnelId :=
  match pc with
  | ConnClaimed p | ConnSending p _ | ConnEstablished p _ | ConnLive p _ => Some (ar_tunnel_id p)
  | ConnReleasing t _ => Some t
  | _ => None
  end.
Definition ident (pc : conn_pc) : option TransportSessionId :=
  match pc with
  | ConnSending _ id | ConnEstablished _ id | ConnLive _ id => Some id
  | _ => None
  end.
Definition is_live (pc : conn_pc) : bool := match pc with ConnLive _ _ => true | _ => false end.

Section invariant.
Context {W : Type → Type} `{LatestValueLaws W}.
Context (mode : EdgeRegistrationMode).
Implicit Types s : registry W.

Definition claim_at s (i : nat) : option TunnelId := conn_at s i ≫= holds.
Definition ident_at s (i : nat) : option TransportSessionId := conn_at s i ≫= ident.

Record rg_inv s : Prop := {
  ri_claims t : t ∈ rg_claims s ↔ ∃ i, claim_at s i = Some t;
  ri_exclusive i j t : claim_at s i = Some t → claim_at s j = Some t → i = j;
  ri_counter : 0 ≤ rg_counter s < 2 ^ 64;
  ri_ident i id : ident_at s i = Some id → 1 ≤ session_raw id ≤ rg_counter s;
  ri_fresh i j id : ident_at s i = Some id → ident_at s j = Some id → i = j;
  ri_sessions id ls : rg_sessions s !! id = Some ls →
    conn_at s (ls_conn ls) = Some (ConnLive (ls_authorization ls) id);
  ri_tunnels t id : rg_tunnels s !! t = Some id ↔
    ∃ ls, rg_sessions s !! id = Some ls ∧ ar_tunnel_id (ls_authorization ls) = t;
  ri_session_updates : rg_session_updates s = sorted_session_ids (rg_sessions s);
  ri_tunnel_updates : rg_tunnel_updates s = sorted_tunnel_bindings (rg_tunnels s)
}.

Lemma rg_inv_new publisher : rg_inv (registry_new mode publisher).
Proof.
  split; try done.
  - intros t. cbn. split; [set_solver|]. intros [i Hi]. done.
  - intros t id. cbn. rewrite !lookup_empty. split; [done|]. by intros (ls & Hl & _).
Qed.

Lemma conn_at_with s i pc j :
  conn_at (rg_with_conn s i pc) j = if decide (i = j) then (λ _, pc) <$> conn_at s i else conn_at s j.
Proof.
  unfold conn_at, rg_with_conn. cbn. case_decide as Hij.
  - subst j. rewrite list_lookup_alter_eq. by destruct (rg_conns s !! i).
  - by rewrite list_lookup_alter_ne.
Qed.

Lemma conn_at_other s i pc j : i ≠ j → conn_at (rg_with_conn s i pc) j = conn_at s j.
Proof. intros ?. rewrite conn_at_with. by rewrite decide_False. Qed.
Lemma conn_at_same s i pc pc0 :
  conn_at s i = Some pc0 → conn_at (rg_with_conn s i pc) i = Some pc.
Proof. intros Hi. rewrite conn_at_with, decide_True by done. by rewrite Hi. Qed.

(** A connection moves on without changing what it owns, or giving up its
    identifier; it is not in the registry before or after. *)
Lemma rg_inv_move s i pc0 pc :
  rg_inv s → conn_at s i = Some pc0 → is_live pc0 = false →
  holds pc = holds pc0 → (ident pc = ident pc0 ∨ ident pc = None) →
  rg_inv (rg_with_conn s i pc).
Proof.
  intros Hinv Hi Hlive Hh Hid.
  assert (∀ j, claim_at (rg_with_conn s i pc) j = claim_at s j) as Hc.
  { intros j. unfold claim_at. rewrite conn_at_with. case_decide as Hij; [|done]. subst j.
    rewrite Hi. cbn. done. }
  assert (∀ j id, ident_at (rg_with_conn s i pc) j = Some id → ident_at s j = Some id) as Hd.
  { intros j id. unfold ident_at. rewrite conn_at_with. case_decide as Hij; [|done]. subst j.
    rewrite Hi. cbn. destruct Hid as [->| ->]; done. }
  destruct Hinv as [H1 H2 H3 H4 H5 H6 H7 H8 H9]. split; try done.
  - intros t. rewrite H1. by setoid_rewrite Hc.
  - intros j k t. rewrite !Hc. apply H2.
  - intros j id Hj. apply (H4 j), Hd, Hj.
  - intros j k id Hj Hk. apply (H5 j k id); by apply Hd.
  - intros id ls Hs. pose proof (H6 id ls Hs) as Hl. rewrite conn_at_with.
    case_decide as Hij; [|done]. subst i. rewrite Hi in Hl. by simplify_eq.
Qed.

Lemma rg_inv_claim s i p :
  rg_inv s → conn_at s i = Some (ConnAuthorized p) → rg_inv (rg_claim s i p).
Proof.
  intros Hinv Hi. unfold rg_claim. case_decide as Ht; [by eapply rg_inv_move; eauto|].
  set (s1 := rg_with_claims s (rg_claims s ∪ {[ar_tunnel_id p]})).
  assert (∀ j, claim_at (rg_with_conn s1 i (ConnClaimed p)) j
             = if decide (i = j) then Some (ar_tunnel_id p) else claim_at s j) as Hc.
  { intros j. unfold claim_at. rewrite conn_at_with. change (conn_at s1) with (conn_at s).
    case_decide as Hij; [|done]. by rewrite Hi. }
  assert (∀ j id, ident_at (rg_with_conn s1 i (ConnClaimed p)) j = Some id →
            ident_at s j = Some id) as Hd.
  { intros j id. unfold ident_at. rewrite conn_at_with. change (conn_at s1) with (conn_at s).
    case_decide as Hij; [|done]. by rewrite Hi. }
  destruct Hinv as [H1 H2 H3 H4 H5 H6 H7 H8 H9].
  assert (∀ j t, claim_at s j = Some t → t ∈ rg_claims s) as Hin.
  { intros j t Hj. apply H1. by exists j. }
  split; try done.
  - intros t. cbn. rewrite elem_of_union, elem_of_singleton, H1. setoid_rewrite Hc. split.
    + intros [[j Hj]| ->]; [|exists i; by rewrite decide_True].
      exists j. rewrite decide_False; [done|]. intros ->. unfold claim_at in Hj. by rewrite Hi in Hj.
    + intros [j Hj]. case_decide; simplify_eq; [by right|]. left. by exists j.
  - intros j k t. rewrite !Hc. intros Hj Hk.
    destruct (decide (i = j)) as [<-|], (decide (i = k)) as [<-|]; [done| | |by eapply H2].
    + injection Hj as <-. by destruct Ht; eapply Hin.
    + injection Hk as <-. by destruct Ht; eapply Hin.
  - intros j id Hj. apply (H4 j), Hd, Hj.
  - intros j k id Hj Hk. apply (H5 j k id); by apply Hd.
  - intros id ls Hs. pose proof (H6 id ls Hs) as Hl. rewrite conn_at_with.
    change (conn_at s1) with (conn_at s). case_decide as Hij; [|done]. subst i.
    rewrite Hi in Hl. by simplify_eq.
Qed.

Lemma next_id_spec counter :
  0 ≤ counter < 2 ^ 64 →
  match next_id counter with
  | (next, Some id) => next = counter + 1 ∧ next < 2 ^ 64 ∧ id = MkSessionId next
  | (next, None) => next = counter ∧ counter = 2 ^ 64 - 1
  end.
Proof.
  intros Hc. unfold next_id, checked_add. destruct (Z.ltb_spec (counter + 1) (2 ^ 64)); [|lia].
  unfold TransportSessionId_new. destruct (Z.eqb_spec (counter + 1) 0); [lia|]. done.
Qed.

Lemma rg_inv_allocate s i p :
  rg_inv s → conn_at s i = Some (ConnClaimed p) → rg_inv (rg_allocate s i p).
Proof.
  intros Hinv Hi. unfold rg_allocate. pose proof (next_id_spec _ (ri_counter _ Hinv)) as Hn.
  destruct (next_id (rg_counter s)) as [next [id|]].
  2: { destruct Hn as [-> _]. apply (rg_inv_move _ i (ConnClaimed p)); auto.
       by destruct Hinv; split. }
  destruct Hn as (-> & Hlt & ->). set (s1 := rg_with_counter s (rg_counter s + 1)).
  set (s2 := rg_with_conn s1 i _).
  assert (∀ j, claim_at s2 j = claim_at s j) as Hc.
  { intros j. unfold claim_at, s2. rewrite conn_at_with. change (conn_at s1) with (conn_at s).
    case_decide as Hij; [|done]. subst j. by rewrite Hi. }
  assert (∀ j, ident_at s2 j =
    if decide (i = j) then Some (MkSessionId (rg_counter s + 1)) else ident_at s j) as Hd.
  { intros j. unfold ident_at, s2. rewrite conn_at_with. change (conn_at s1) with (conn_at s).
    case_decide as Hij; [|done]. by rewrite Hi. }
  destruct Hinv as [H1 H2 H3 H4 H5 H6 H7 H8 H9]. split; try done.
  - intros t. change (rg_claims s2) with (rg_claims s). rewrite H1. by setoid_rewrite Hc.
  - intros j k t. rewrite !Hc. apply H2.
  - cbn. lia.
  - intros j id. rewrite Hd. cbn. case_decide; [intros [= <-]; cbn; lia|].
    intros Hj. specialize (H4 j id Hj). lia.
  - intros j k id. rewrite !Hd. intros Hj Hk.
    destruct (decide (i = j)) as [<-|], (decide (i = k)) as [<-|]; [done| | |by eapply H5].
    + injection Hj as <-. specialize (H4 _ _ Hk). cbn in H4. lia.
    + injection Hk as <-. specialize (H4 _ _ Hj). cbn in H4. lia.
  - intros id ls Hs. pose proof (H6 id ls Hs) as Hl. unfold s2. rewrite conn_at_with.
    change (conn_at s1) with (conn_at s). case_decide as Hij; [|done]. subst i.
    rewrite Hi in Hl. by simplify_eq.
Qed.

(** Publishing finds neither the identifier nor the tunnel in use. *)
Lemma publish_fresh s i p id :
  rg_inv s → conn_at s i = Some (ConnEstablished p id) →
  rg_sessions s !! id = None ∧ rg_tunnels s !! ar_tunnel_id p = None.
Proof.
  intros Hinv Hi. split; apply eq_None_not_Some.
  - intros [ls Hls]. pose proof (ri_sessions _ Hinv _ _ Hls) as Hl.
    assert (ident_at s i = Some id) as Hid by (unfold ident_at; by rewrite Hi).
    assert (ident_at s (ls_conn ls) = Some id) as Hid' by (unfold ident_at; by rewrite Hl).
    pose proof (ri_fresh _ Hinv _ _ _ Hid Hid') as Hij. by rewrite <-Hij, Hi in Hl.
  - intros [id' (ls & Hls & Ht)%(ri_tunnels _ Hinv)].
    pose proof (ri_sessions _ Hinv _ _ Hls) as Hl.
    assert (claim_at s i = Some (ar_tunnel_id p)) as Hid by (unfold claim_at; by rewrite Hi).
    assert (claim_at s (ls_conn ls) = Some (ar_tunnel_id p)) as Hid'
      by (unfold claim_at; rewrite Hl; cbn; by rewrite Ht).
    pose proof (ri_exclusive _ Hinv _ _ _ Hid Hid') as Hij. by rewrite <-Hij, Hi in Hl.
Qed.

Lemma rg_inv_publish s i p id :
  rg_inv s → conn_at s i = Some (ConnEstablished p id) → rg_inv (rg_publish mode s i p id).
Proof.
  intros Hinv Hi. unfold rg_publish.
  destruct (reauthorize _ _ _); [|by eapply rg_inv_move; eauto].
  destruct (publish_fresh s i p id Hinv Hi) as [Hns Hnt].
  set (s1 := rg_with_maps s _ _). set (s2 := rg_with_conn s1 i _).
  assert (∀ j, claim_at s2 j = claim_at s j) as Hc.
  { intros j. unfold claim_at, s2. rewrite conn_at_with. change (conn_at s1) with (conn_at s).
    case_decide as Hij; [|done]. subst j. by rewrite Hi. }
  assert (∀ j, ident_at s2 j = ident_at s j) as Hd.
  { intros j. unfold ident_at, s2. rewrite conn_at_with. change (conn_at s1) with (conn_at s).
    case_decide as Hij; [|done]. subst j. by rewrite Hi. }
  destruct Hinv as [H1 H2 H3 H4 H5 H6 H7 H8 H9]. split; try done.
  - intros t. change (rg_claims s2) with (rg_claims s). rewrite H1. by setoid_rewrite Hc.
  - intros j k t. rewrite !Hc. apply H2.
  - intros j id'. rewrite Hd. apply H4.
  - intros j k id'. rewrite !Hd. apply H5.
  - intros id' ls. cbn. unfold s2. rewrite conn_at_with. change (conn_at s1) with (conn_at s).
    rewrite lookup_insert_Some. intros [[<- <-]|[Hne Hls]]; cbn.
    + rewrite decide_True by done. by rewrite Hi.
    + pose proof (H6 _ _ Hls) as Hl. case_decide as Hij; [|done]. subst i. by rewrite Hi in Hl.
  - intros t id'. cbn. rewrite lookup_insert_Some, H7. setoid_rewrite lookup_insert_Some. split.
    + intros [[<- <-]|[Hne (ls & Hls & Ht)]].
      * exists (MkLiveSession i p). auto.
      * exists ls. split; [|done]. right. split; [|done]. intros <-. congruence.
    + intros (ls & [[<- <-]|[Hne Hls]] & <-); [by left|]. right. split; [|by exists ls].
      intros Heq. assert (rg_tunnels s !! ar_tunnel_id p = Some id') as Ht; [|congruence].
      apply H7. by exists ls.
Qed.

(** The session of a live connection, if it is still in the registry. *)
Lemma live_session s i p id ls :
  rg_inv s → conn_at s i = Some (ConnLive p id) → rg_sessions s !! id = Some ls →
  ls = MkLiveSession i p.
Proof.
  intros Hinv Hi Hls. pose proof (ri_sessions _ Hinv _ _ Hls) as Hl.
  assert (ident_at s i = Some id) as Hid by (unfold ident_at; by rewrite Hi).
  assert (ident_at s (ls_conn ls) = Some id) as Hid' by (unfold ident_at; by rewrite Hl).
  pose proof (ri_fresh _ Hinv _ _ _ Hid Hid') as Hij. rewrite <-Hij, Hi in Hl.
  destruct ls as [j q]. cbn in *. by simplify_eq.
Qed.

Lemma removed_tunnels s i p id t id' :
  rg_inv s → conn_at s i = Some (ConnLive p id) →
  rg_tunnels (rg_remove s p id) !! t = Some id' ↔ id' ≠ id ∧ rg_tunnels s !! t = Some id'.
Proof.
  intros Hinv Hi. unfold rg_remove. cbn. case_decide as Hp.
  - rewrite lookup_delete_Some. split.
    + intros [Hne Ht]. split; [|done]. intros ->.
      apply (ri_tunnels _ Hinv) in Ht as (ls & Hls & <-).
      rewrite (live_session _ _ _ _ _ Hinv Hi Hls) in Hne. done.
    + intros [Hne Ht]. split; [|done]. intros <-. congruence.
  - split; [|by intros []]. intros Ht. split; [|done]. intros ->.
    pose proof Ht as Ht'. apply (ri_tunnels _ Hinv) in Ht' as (ls & Hls & <-).
    rewrite (live_session _ _ _ _ _ Hinv Hi Hls) in Ht. done.
Qed.

Lemma rg_inv_end s i p id why :
  rg_inv s → conn_at s i = Some (ConnLive p id) →
  rg_inv (rg_release (rg_remove s p id) i p why).
Proof.
  intros Hinv Hi. unfold rg_release. set (s1 := rg_remove s p id). set (s2 := rg_with_conn s1 i _).
  assert (∀ j, claim_at s2 j = claim_at s j) as Hc.
  { intros j. unfold claim_at, s2. rewrite conn_at_with. change (conn_at s1) with (conn_at s).
    case_decide as Hij; [|done]. subst j. by rewrite Hi. }
  assert (∀ j id', ident_at s2 j = Some id' → ident_at s j = Some id') as Hd.
  { intros j id'. unfold ident_at, s2. rewrite conn_at_with. change (conn_at s1) with (conn_at s).
    case_decide as Hij; [|done]. subst j. by rewrite Hi. }
  assert (∀ t id', rg_tunnels s2 !! t = Some id' ↔ id' ≠ id ∧ rg_tunnels s !! t = Some id') as Ht.
  { intros t id'. by apply (removed_tunnels s i). }
  destruct Hinv as [H1 H2 H3 H4 H5 H6 H7 H8 H9]. split; try done.
  - intros t. change (rg_claims s2) with (rg_claims s). rewrite H1. by setoid_rewrite Hc.
  - intros j k t. rewrite !Hc. apply H2.
  - intros j id' Hj. apply (H4 j), Hd, Hj.
  - intros j k id' Hj Hk. apply (H5 j k id'); by apply Hd.
  - intros id' ls. cbn. rewrite lookup_delete_Some. intros [Hne Hls].
    pose proof (H6 _ _ Hls) as Hl. unfold s2. rewrite conn_at_with.
    change (conn_at s1) with (conn_at s). case_decide as Hij; [|done]. subst i.
    rewrite Hi in Hl. by simplify_eq.
  - intros t id'. rewrite Ht, H7. cbn. setoid_rewrite lookup_delete_Some. naive_solver.
Qed.

Lemma rg_inv_release s i t why :
  rg_inv s → conn_at s i = Some (ConnReleasing t why) →
  rg_inv (rg_with_conn (rg_with_claims s (rg_claims s ∖ {[t]})) i (ConnDone why)).
Proof.
  intros Hinv Hi. set (s1 := rg_with_claims s _). set (s2 := rg_with_conn s1 i _).
  assert (∀ j, claim_at s2 j = if decide (i = j) then None else claim_at s j) as Hc.
  { intros j. unfold claim_at, s2. rewrite conn_at_with. change (conn_at s1) with (conn_at s).
    case_decide as Hij; [|done]. by rewrite Hi. }
  assert (∀ j id', ident_at s2 j = Some id' → ident_at s j = Some id') as Hd.
  { intros j id'. unfold ident_at, s2. rewrite conn_at_with. change (conn_at s1) with (conn_at s).
    case_decide as Hij; [|done]. subst j. by rewrite Hi. }
  assert (claim_at s i = Some t) as Hit by (unfold claim_at; by rewrite Hi).
  destruct Hinv as [H1 H2 H3 H4 H5 H6 H7 H8 H9]. split; try done.
  - intros t'. cbn. rewrite elem_of_difference, elem_of_singleton, H1. setoid_rewrite Hc. split.
    + intros [[j Hj] Hne]. exists j. rewrite decide_False; [done|]. intros ->. congruence.
    + intros [j Hj]. case_decide as Hij; [done|]. split; [by exists j|]. intros ->.
      apply Hij. by apply (H2 i j t).
  - intros j k t'. rewrite !Hc. repeat case_decide; try done. apply H2.
  - intros j id' Hj. apply (H4 j), Hd, Hj.
  - intros j k id' Hj Hk. apply (H5 j k id'); by apply Hd.
  - intros id' ls Hls. pose proof (H6 _ _ Hls) as Hl. unfold s2. rewrite conn_at_with.
    change (conn_at s1) with (conn_at s). case_decide as Hij; [|done]. subst i.
    rewrite Hi in Hl. by simplify_eq.
Qed.

(** Dropping sessions together with their tunnels. *)
Lemma rg_inv_shrink s (gone : gmap TransportSessionId LiveSession) :
  rg_inv s → gone ⊆ rg_sessions s →
  rg_inv (rg_with_maps s (rg_sessions s ∖ gone)
            (filter (λ kv, gone !! kv.2 = None) (rg_tunnels s))).
Proof.
  intros [H1 H2 H3 H4 H5 H6 H7 H8 H9] Hsub. split; try done.
  - intros id ls. cbn. rewrite lookup_difference_Some. intros [Hls _]. by apply H6.
  - intros t id. cbn. rewrite map_lookup_filter_Some, H7. cbn.
    setoid_rewrite lookup_difference_Some. naive_solver.
Qed.

Lemma revoked_subseteq v sessions : revoked v sessions ⊆ sessions.
Proof. apply map_filter_subseteq. Qed.

Lemma rg_inv_reconcile s v source :
  rg_inv s → rg_inv (reconcile_authorization_snapshot s v source).
Proof.
  intros Hinv. unfold reconcile_authorization_snapshot.
  set (s' := if decide (revoked v (rg_sessions s) = ∅) then s else _).
  assert (rg_inv s') as [H1 H2 H3 H4 H5 H6 H7 H8 H9]; [|by split].
  unfold s'. case_decide; [done|]. apply rg_inv_shrink; [done|]. apply revoked_subseteq.
Qed.

Lemma conn_at_accept s certificate i :
  conn_at (MkRegistry (rg_publisher s) (rg_update s) (rg_status s) (rg_sessions s)
             (rg_tunnels s) (rg_session_updates s) (rg_tunnel_updates s) (rg_claims s)
             (rg_counter s) (rg_accepting s) (rg_conns s ++ [MkConn certificate ConnHello])) i
  = if decide (i = length (rg_conns s)) then Some ConnHello else conn_at s i.
Proof.
  unfold conn_at. cbn. case_decide as Hi.
  - subst i. by rewrite list_lookup_middle.
  - destruct (decide (i < length (rg_conns s))%nat).
    + by rewrite lookup_app_l.
    + rewrite !lookup_ge_None_2; [done|lia|]. rewrite length_app. cbn. lia.
Qed.

Lemma rg_inv_accept s certificate s' :
  rg_inv s → rg_step mode s (RgAccept certificate) = Some s' → rg_inv s'.
Proof.
  intros Hinv [= <-]. set (s' := MkRegistry _ _ _ _ _ _ _ _ _ _ _).
  assert (conn_at s (length (rg_conns s)) = None) as Hnone.
  { unfold conn_at. by rewrite lookup_ge_None_2. }
  assert (∀ j, claim_at s' j = claim_at s j ∧ ident_at s' j = ident_at s j) as Hsame.
  { intros j. unfold claim_at, ident_at, s'. rewrite conn_at_accept.
    case_decide as Hj; [|done]. by rewrite Hj, Hnone. }
  destruct Hinv as [H1 H2 H3 H4 H5 H6 H7 H8 H9]. split; try done.
  - intros t. cbn. rewrite H1. f_equiv. intros j. by rewrite (proj1 (Hsame j)).
  - intros j k t. rewrite (proj1 (Hsame j)), (proj1 (Hsame k)). apply H2.
  - intros j id. rewrite (proj2 (Hsame j)). apply H4.
  - intros j k id. rewrite (proj2 (Hsame j)), (proj2 (Hsame k)). apply H5.
  - intros id ls Hls. unfold s'. rewrite conn_at_accept. pose proof (H6 _ _ Hls) as Hl.
    case_decide as Hj; [|done]. by rewrite Hj, Hnone in Hl.
Qed.

Lemma rg_inv_step s a s' : rg_inv s → rg_step mode s a = Some s' → rg_inv s'.
Proof.
  intros Hinv Hstep. destruct a; cbn -[rg_with_conn reconcile_authorization_snapshot] in Hstep.
  all: try (by destruct Hinv; simplify_eq; split).
  - by eapply rg_inv_accept.
  - destruct (conn_at s i) as [[]|] eqn:Hi; simplify_eq.
    case_match; by eapply rg_inv_move; eauto.
  - destruct (rg_conns s !! i) as [[cert []]|] eqn:Hi; simplify_eq.
    assert (conn_at s i = Some ConnRegister) as Hc by (unfold conn_at; by rewrite Hi).
    case_match; by eapply rg_inv_move; eauto.
  - destruct (conn_at s i) as [[]|] eqn:Hi; simplify_eq. by apply rg_inv_claim.
  - destruct (conn_at s i) as [[]|] eqn:Hi; simplify_eq. by apply rg_inv_allocate.
  - destruct (conn_at s i) as [[]|] eqn:Hi; simplify_eq.
    case_match; eapply rg_inv_move; eauto.
  - destruct (conn_at s i) as [[]|] eqn:Hi; simplify_eq; eapply rg_inv_move; eauto.
  - destruct (conn_at s i) as [[]|] eqn:Hi; simplify_eq. by apply rg_inv_publish.
  - destruct (conn_at s i) as [[]|] eqn:Hi; simplify_eq. by apply rg_inv_end.
  - destruct (conn_at s i) as [[]|] eqn:Hi; simplify_eq. by apply rg_inv_release.
  - case_match; simplify_eq. by destruct Hinv; split.
  - destruct (rg_update s); simplify_eq. by apply rg_inv_reconcile.
  - simplify_eq. destruct Hinv as [H1 H2 H3 H4 H5 H6 H7 H8 H9]. split; try done.
    intros t id. cbn. rewrite lookup_empty. split; [done|]. by intros (ls & Hl & _).
Qed.

Lemma rg_inv_run s acts s' : rg_inv s → rg_run mode s acts = Some s' → rg_inv s'.
Proof.
  revert s. induction acts as [|a acts IH]; intros s Hinv Hrun; cbn in Hrun; [by simplify_eq|].
  destruct (rg_step mode s a) as [s1|] eqn:Hstep; [|done].
  eapply IH; [|done]. by eapply rg_inv_step.
Qed.
End invariant.

(** ** Authorization *)

Section authorization.
Context {W : Type → Type} `{LatestValueLaws W}.
Context (mode : EdgeRegistrationMode) (mutual_tls : is_mutual_tls mode = true).
Implicit Types s : registry W.

Definition rg_current s : VersionedAuthorizationSnapshot := subscription_current (rg_publisher s).
Definition version_of (v : VersionedAuthorizationSnapshot) : Z := version_raw (va_version v).

(** Every snapshot that was current at some time of a run. *)
Fixpoint rg_history s (acts : list rg_action) : list VersionedAuthorizationSnapshot :=
  rg_current s ::
  match acts with
  | [] => []
  | a :: acts => match rg_step mode s a with Some s' => rg_history s' acts | None => [] end
  end.

(** The version the registry has been reconciled with. *)
Definition applied s (version : Z) : Prop :=
  ∃ v, st_version (rg_status s) = Some v ∧ version_raw v = version.

Record auth_inv (past : list VersionedAuthorizationSnapshot) s : Prop := {
  au_sync : in_sync (rg_publisher s);
  au_past v : v ∈ past → version_of v ≤ version_of (rg_current s) ∧
    (version_of v = version_of (rg_current s) → v = rg_current s);
  au_current : rg_current s ∈ past;
  au_update v : rg_update s = Some v → v ∈ past ∧
    ∃ n, applied s n ∧ n ≤ version_of v;
  au_applied : ∃ n, applied s n ∧ n ≤ version_of (rg_current s);
  au_sessions id ls : rg_sessions s !! id = Some ls →
    ∃ v n, v ∈ past ∧ applied s n ∧ n ≤ version_of v ∧
      principal_is_authorized v (ls_authorization ls) = true
}.

Lemma reauthorize_mutual_tls v p : reauthorize mode v p = principal_is_authorized v p.
Proof.
  destruct mode as [|static updates]; [done|]. unfold reauthorize, principal_is_authorized. cbn.
  destruct (ar_certificate p) as [c|]; cbn; [|done].
  by destruct (authorize (va_snapshot v) c (ar_agent_id p) (ar_tunnel_id p)).
Qed.

(** A step that leaves the publisher, the status and the update alone, and whose
    new sessions are authorized by the current snapshot. *)
Lemma auth_inv_same past s s' :
  auth_inv past s → rg_publisher s' = rg_publisher s → rg_update s' = rg_update s →
  st_version (rg_status s') = st_version (rg_status s) →
  (∀ id ls, rg_sessions s' !! id = Some ls → rg_sessions s !! id = Some ls ∨
     principal_is_authorized (rg_current s) (ls_authorization ls) = true) →
  auth_inv past s'.
Proof.
  intros [H1 H2 H3 H4 H5 H6] Hp Hu Hst Hs.
  assert (rg_current s' = rg_current s) as Hc by (unfold rg_current; by rewrite Hp).
  assert (∀ n, applied s' n ↔ applied s n) as Ha by (intros n; unfold applied; by rewrite Hst).
  split; rewrite ?Hp, ?Hc, ?Hu; try done.
  - intros v Hv. setoid_rewrite Ha. by apply H4.
  - by setoid_rewrite Ha.
  - intros id ls Hls. setoid_rewrite Ha. destruct (Hs id ls Hls) as [Hold|Hok]; [by eapply H6|].
    destruct H5 as (n & Hn & Hle). exists (rg_current s), n. done.
Qed.

Lemma auth_inv_publisher past s p :
  auth_inv past s → publisher_step (rg_publisher s) p →
  let s' := rg_with_publisher s p in auth_inv (past ++ [rg_current s']) s'.
Proof.
  intros [H1 H2 H3 H4 H5 H6] Hstep s'.
  destruct (publisher_step_spec _ _ Hstep H1) as [Hsync Hor].
  assert (rg_current s' = ps_current p) as Hc by exact Hsync.
  assert (rg_current s = ps_current (rg_publisher s)) as Hc0 by exact H1.
  assert (version_of (rg_current s) ≤ version_of (rg_current s')) as Hle.
  { unfold version_of. rewrite Hc, Hc0. destruct Hor as [->|Hlt]; [done|].
    unfold published_version in Hlt. lia. }
  split.
  - done.
  - intros v [Hv|Hv]%elem_of_app; [|by apply list_elem_of_singleton in Hv as ->].
    destruct (H2 v Hv) as [Hv1 Hv2]. split; [lia|]. intros Heq.
    rewrite Hv2 by lia. rewrite Hc, Hc0. destruct Hor as [->|Hlt]; [done|].
    unfold published_version in Hlt. unfold version_of in *. rewrite Hc in *. rewrite Hc0 in *. lia.
  - apply elem_of_app. right. by apply list_elem_of_singleton.
  - intros v Hv. destruct (H4 v Hv) as [Hin Hn]. split; [set_solver|done].
  - destruct H5 as (n & Hn & Hl). exists n. split; [done|]. lia.
  - intros id ls Hls. destruct (H6 id ls Hls) as (v & n & Hin & ?). exists v, n.
    split; [set_solver|done].
Qed.

Lemma auth_inv_reconcile past s v source :
  auth_inv past s → rg_update s = Some v →
  auth_inv past (reconcile_authorization_snapshot s v source).
Proof.
  intros [H1 H2 H3 H4 H5 H6] Hv. destruct (H4 v Hv) as [Hin _].
  set (s' := reconcile_authorization_snapshot s v source).
  assert (applied s' (version_of v)) as Ha by (by eexists).
  assert (rg_publisher s' = rg_publisher s) as Hp.
  { unfold s', reconcile_authorization_snapshot. by case_decide. }
  assert (rg_current s' = rg_current s) as Hc by (unfold rg_current; by rewrite Hp).
  split; rewrite ?Hp, ?Hc; try done.
  - exists (version_of v). split; [done|]. by apply H2.
  - intros id ls Hls. exists v, (version_of v). split_and!; [done|done|lia|].
    destruct (principal_is_authorized v (ls_authorization ls)) eqn:Hok; [done|]. exfalso.
    assert (∀ ls', rg_sessions s !! id = Some ls' → ls' = ls →
              revoked v (rg_sessions s) !! id = Some ls) as Hrev.
    { intros ls' Hl ->. unfold revoked. by apply map_lookup_filter_Some. }
    unfold s', reconcile_authorization_snapshot in Hls. case_decide as He; cbn in Hls.
    + specialize (Hrev ls Hls eq_refl). rewrite He in Hrev. by rewrite lookup_empty in Hrev.
    + apply lookup_difference_Some in Hls as [Hl Hn]. by rewrite (Hrev ls Hl eq_refl) in Hn.
Qed.

(** More of the past is no obstacle. *)
Lemma auth_inv_grow past s : auth_inv past s → auth_inv (past ++ [rg_current s]) s.
Proof.
  intros [H1 H2 H3 H4 H5 H6]. split; try done.
  - intros v [Hv|Hv]%elem_of_app; [by apply H2|]. apply list_elem_of_singleton in Hv as ->. done.
  - apply elem_of_app. by left.
  - intros v Hv. destruct (H4 v Hv) as [Hin ?]. split; [set_solver|done].
  - intros id ls Hls. destruct (H6 id ls Hls) as (v & n & Hin & ?). exists v, n.
    split; [set_solver|done].
Qed.

(** Steps of a connection other than publication. *)
Lemma auth_inv_sessions past s s' :
  auth_inv past s → rg_publisher s' = rg_publisher s → rg_update s' = rg_update s →
  st_version (rg_status s') = st_version (rg_status s) → rg_sessions s' ⊆ rg_sessions s →
  auth_inv (past ++ [rg_current s']) s'.
Proof.
  intros Hinv Hp Hu Hst Hs. apply auth_inv_grow. eapply auth_inv_same; try done.
  intros id ls Hls. left. by eapply lookup_weaken.
Qed.

Lemma auth_inv_publish past s i p id :
  auth_inv past s → auth_inv (past ++ [rg_current (rg_publish mode s i p id)])
                             (rg_publish mode s i p id).
Proof.
  intros Hinv. unfold rg_publish. rewrite reauthorize_mutual_tls.
  destruct (principal_is_authorized _ p) eqn:Hok; [|by apply (auth_inv_sessions past s)].
  apply auth_inv_grow. eapply auth_inv_same; try done. intros id' ls. cbn.
  rewrite lookup_insert_Some. intros [[<- <-]|[_ Hls]]; [by right|by left].
Qed.

Lemma auth_inv_take past s :
  auth_inv past s →
  auth_inv past (MkRegistry (rg_publisher s) (Some (subscription_current (rg_publisher s)))
    (rg_status s) (rg_sessions s) (rg_tunnels s) (rg_session_updates s) (rg_tunnel_updates s)
    (rg_claims s) (rg_counter s) (rg_accepting s) (rg_conns s)).
Proof. intros [H1 H2 H3 H4 H5 H6]. split; try done. by intros v [= <-]. Qed.

Lemma auth_inv_step past s a s' :
  auth_inv past s → rg_step mode s a = Some s' → auth_inv (past ++ [rg_current s']) s'.
Proof.
  intros Hinv Hstep.
  destruct a; cbn -[rg_with_conn rg_publish reconcile_authorization_snapshot] in Hstep.
  all: try match type of Hstep with
       | context [conn_at ?r ?i] => destruct (conn_at r i) as [[]|]; simplify_eq
       end.
  all: try (by simplify_eq; apply (auth_inv_sessions past s)).
  - destruct (rg_conns s !! i) as [[cert []]|]; simplify_eq. by apply (auth_inv_sessions past s).
  - unfold rg_claim. case_decide; by apply (auth_inv_sessions past s).
  - unfold rg_allocate. destruct (next_id (rg_counter s)) as [next [id|]];
      by apply (auth_inv_sessions past s).
  - destruct ok; by apply (auth_inv_sessions past s).
  - by apply auth_inv_publish.
  - apply (auth_inv_sessions past s); try done. cbn. apply delete_subseteq.
  - simplify_eq. apply (auth_inv_publisher past s); [done|]. constructor.
  - simplify_eq. apply (auth_inv_publisher past s); [done|]. constructor.
  - case_match; simplify_eq. by apply auth_inv_grow, auth_inv_take.
  - destruct (rg_update s) as [v|] eqn:Hu; simplify_eq.
    by apply auth_inv_grow, auth_inv_reconcile.
  - simplify_eq. apply (auth_inv_sessions past s); try done. cbn. apply map_empty_subseteq.
Qed.

Lemma auth_inv_new initial :
  let s := registry_new mode (authorization_snapshot_channel initial) in
  auth_inv [rg_current s] s.
Proof.
  intros s. assert (rg_current s = initial) as Hc
    by (unfold rg_current, subscription_current, s; cbn; by rewrite borrow_channel).
  assert (applied s (version_of (rg_current s))) as Ha.
  { unfold applied, s. cbn. rewrite mutual_tls. by eexists. }
  split; try done.
  - intros v ->%list_elem_of_singleton. done.
  - by apply list_elem_of_singleton.
  - by exists (version_of (rg_current s)).
Qed.

Lemma auth_inv_run past s acts s' :
  auth_inv (past ++ [rg_current s]) s → rg_run mode s acts = Some s' →
  auth_inv (past ++ rg_history s acts) s'.
Proof.
  revert past s. induction acts as [|a acts IH]; intros past s Hinv Hrun; cbn in Hrun |- *.
  { by simplify_eq. }
  destruct (rg_step mode s a) as [s1|] eqn:Hstep; [|done].
  pose proof (auth_inv_step _ _ _ _ Hinv Hstep) as Hi. specialize (IH _ _ Hi Hrun).
  by rewrite <-app_assoc in IH.
Qed.
End authorization.

(** C3. Only authorized tunnels are routed, over every run of a mutual-TLS Edge
    with any number of connections, publications and reconciliations in any
    order: a tunnel that resolves to a session was registered by the Agent of
    that session, whose certificate, agent and tunnel are authorized by a
    snapshot at least as new as the one the registry was last reconciled with;
    and once the newest snapshot has been reconciled, by that snapshot itself. *)
Theorem routed_sessions_authorized {W} `{LatestValueLaws W} static updates initial acts
    (s : registry W) t id :
  let mode := MutualTls static updates in
  let s0 := registry_new mode (authorization_snapshot_channel initial) in
  rg_run mode s0 acts = Some s → resolve_tunnel s t = Some id →
  ∃ ls v n, rg_sessions s !! id = Some ls ∧ ar_tunnel_id (ls_authorization ls) = t ∧
    v ∈ rg_history mode s0 acts ∧ applied s n ∧ n ≤ version_of v ∧
    principal_is_authorized v (ls_authorization ls) = true ∧
    (n = version_of (rg_current s) → v = rg_current s).
Proof.
  intros mode s0 Hrun Ht.
  pose proof (rg_inv_run mode _ _ _ (rg_inv_new mode _) Hrun) as Hinv.
  pose proof (auth_inv_run mode eq_refl [] s0 acts s (auth_inv_new mode eq_refl initial) Hrun)
    as [H1 H2 H3 H4 H5 H6]. cbn [app] in *.
  apply (ri_tunnels _ Hinv) in Ht as (ls & Hls & Ht).
  destruct (H6 id ls Hls) as (v & n & Hin & Ha & Hle & Hok).
  exists ls, v, n. split_and!; try done. intros Heq. destruct (H2 v Hin) as [Hv1 Hv2].
  apply Hv2. lia.
Qed.

(** C20. The registry is consistent in every reachable state: each tunnel belongs
    to at most one connection, from its claim to the end of its session, and
    session identifiers are non-zero, within 64 bits and never shared; the
    tunnel map and the session map agree in both directions, so that routing
    never resolves a tunnel to a session that is gone; the published lists are
    the sorted contents of the maps; and publishing a session never replaces an
    entry. *)
Theorem registry_consistent {W} `{LatestValueLaws W} mode publisher acts (s : registry W) :
  rg_run mode (registry_new mode publisher) acts = Some s →
  (∀ i j t, claim_at s i = Some t → claim_at s j = Some t → i = j) ∧
  (∀ i id, ident_at s i = Some id → 1 ≤ session_raw id < 2 ^ 64) ∧
  (∀ i j id, ident_at s i = Some id → ident_at s j = Some id → i = j) ∧
  (∀ t id, resolve_tunnel s t = Some id ↔
     ∃ ls, rg_sessions s !! id = Some ls ∧ ar_tunnel_id (ls_authorization ls) = t) ∧
  (∀ t sent, rg_accepting s = true → open_tunnel_io_tracked s t sent =
     match resolve_tunnel s t, sent with
     | None, _ => Err (TunnelNotConnected (tunnel_str t))
     | Some id, TrySent => ok_or (SessionNotFound id) (rg_sessions s !! id)
     | Some id, TryFull => Err (SessionBusy id)
     | Some id, TryClosed => Err (RouteSessionClosing id)
     end) ∧
  (∀ t id, resolve_tunnel s t = Some id → is_connected s id = true) ∧
  rg_session_updates s = sorted_session_ids (rg_sessions s) ∧
  rg_tunnel_updates s = sorted_tunnel_bindings (rg_tunnels s) ∧
  (∀ i p id, conn_at s i = Some (ConnEstablished p id) →
     rg_sessions s !! id = None ∧ rg_tunnels s !! ar_tunnel_id p = None).
Proof.
  intros Hrun. pose proof (rg_inv_run mode _ _ _ (rg_inv_new mode _) Hrun) as Hinv.
  assert (∀ t id, resolve_tunnel s t = Some id → is_Some (rg_sessions s !! id)) as Hsome.
  { intros t id (ls & Hls & _)%(ri_tunnels _ Hinv). by exists ls. }
  split_and!.
  - apply ri_exclusive, Hinv.
  - intros i id Hi. pose proof (ri_ident _ Hinv i id Hi). pose proof (ri_counter _ Hinv). lia.
  - apply ri_fresh, Hinv.
  - apply ri_tunnels, Hinv.
  - intros t sent Hacc. unfold open_tunnel_io_tracked, enqueue_io. rewrite Hacc.
    destruct (resolve_tunnel s t) as [id|] eqn:Ht; cbn; [|done].
    destruct (Hsome t id Ht) as [ls ->]. by destruct sent.
  - intros t id Ht. apply bool_decide_eq_true. by eapply Hsome.
  - apply ri_session_updates, Hinv.
  - apply ri_tunnel_updates, Hinv.
  - intros i p id Hi. by eapply publish_fresh.
Qed.

(** ** Examples *)

Definition agent_1 : AgentId := MkAgentId (bstr "agent-1").
Definition tunnel_1 : TunnelId := MkTunnelId (bstr "tunnel-1").
Definition cert_1 : CertificateFingerprint := MkFingerprint (replicate 32 x00%byte).
Definition request_1 : RegistrationRequest := MkRegistrationRequest agent_1 tunnel_1.
Definition snapshot_with (version : Z) (status : TunnelStatus) : VersionedAuthorizationSnapshot :=
  MkVersioned (MkVersion version)
    (MkSnapshot {[ cert_1 := MkAuthorizedAgent agent_1 {[ tunnel_1 := status ]} ]}).

Definition hello_role : Frame := MkFrame Hello 0 StreamId_CONTROL [x01%byte].
Definition register_1 : Frame :=
  MkFrame Register 0 StreamId_CONTROL (RegistrationRequest_encode request_1).

(** A connection that registers the tunnel, up to the claim and up to the end. *)
Definition approach (i : nat) : list rg_action :=
  [RgAccept (Some cert_1); RgHello i (Ok (Some hello_role)); RgRegister i (Ok (Some register_1));
   RgClaim i].
Definition join (i : nat) : list rg_action :=
  approach i ++ [RgAllocate i; RgSent i true; RgPublish i].

Definition mtls : EdgeRegistrationMode := MutualTls false false.
Abbreviation edge_registry := (registry id).
Definition fresh_registry : edge_registry :=
  registry_new mtls (authorization_snapshot_channel (snapshot_with 1 Enabled)).
Definition reached (acts : list rg_action) : edge_registry :=
  default fresh_registry (rg_run mtls fresh_registry acts).

(** Connected; the tunnel is then disabled and the snapshot applied. *)
Definition joined : list rg_action := join 0.
Definition disabled : list rg_action :=
  joined ++ [RgSnapshot (snapshot_with 2 Disabled); RgTake; RgReconcile].

Lemma joined_run : rg_run mtls fresh_registry joined = Some (reached joined).
Proof. vm_compute. reflexivity. Qed.
Lemma disabled_run : rg_run mtls fresh_registry disabled = Some (reached disabled).
Proof. vm_compute. reflexivity. Qed.

Lemma routed_sessions_authorized_witness :
  resolve_tunnel (reached joined) tunnel_1 = Some (MkSessionId 1) ∧
  resolve_tunnel (reached disabled) tunnel_1 = None ∧
  ∃ ls v n, rg_sessions (reached joined) !! MkSessionId 1 = Some ls ∧
    ar_tunnel_id (ls_authorization ls) = tunnel_1 ∧
    v ∈ rg_history mtls fresh_registry joined ∧ applied (reached joined) n ∧ n ≤ version_of v ∧
    principal_is_authorized v (ls_authorization ls) = true ∧
    (n = version_of (rg_current (reached joined)) → v = rg_current (reached joined)).
Proof.
  split; [by vm_compute|]. split; [by vm_compute|].
  apply (routed_sessions_authorized false false (snapshot_with 1 Enabled) joined (reached joined)
           tunnel_1 (MkSessionId 1) joined_run).
  by vm_compute.
Defined.

Lemma registry_consistent_witness :
  rg_tunnel_updates (reached joined) = [(tunnel_1, MkSessionId 1)] ∧
  open_tunnel_io_tracked (reached disabled) tunnel_1 TrySent
    = Err (TunnelNotConnected (tunnel_str tunnel_1)).
Proof.
  destruct (registry_consistent mtls _ joined (reached joined) joined_run)
    as (_ & _ & _ & _ & _ & _ & _ & H & _).
  destruct (registry_consistent mtls _ disabled (reached disabled) disabled_run)
    as (_ & _ & _ & _ & H' & _).
  split; [rewrite H; by vm_compute|]. rewrite H' by by vm_compute. by vm_compute.
Defined.

(** ** A stalled visitor *)

(** The Agent goes away while the task of a visitor that does not read is
    blocked in [write_all]. *)
Definition lost_agent : list (Z * edge_event) :=
  [(0, EvCommand (Some (CmdOpen 0))); (1, EvDecoded (Ok (Some (open_frame 1))) TrySent);
   (2, EvDecoded (Ok (Some (data_frame 1 "x"))) TrySent); (3, EvDecoded (Ok None) TrySent)].
Definition unread_visitor : list (Z * ingress_event) :=
  [(0, OnOpenSent true); (1, OnOpened (Some (open_frame 1)));
   (2, OnRelay (OnInbound (Some (data_frame 1 "x"))))].
Definition idle_writer : list writer_event :=
  [EvTau; EvTryData (Err RecvEmpty); EvTryControl (Ok (open_frame 1)); EvTau;
   EvTryData (Err RecvEmpty); EvTryControl (Err RecvEmpty); EvPop true].

(** A visitor that stops reading keeps a lost Agent's tunnel.  When the
    Agent's connection ends, the session leaves its loop and then only waits for
    its writer; the writer only waits for its channels; they stay open because
    the visitor's task holds them, and that task only waits for its write.  Until
    the visitor reads or leaves, the session does not end: the tunnel still
    resolves to it and commands are accepted that nothing will answer, while the
    Agent's new connection is refused as already connected. *)
Theorem stalled_visitor_holds_tunnel :
  (∃ s effs, edge_run (MkSessionId 1) small_config (edge_session_new small_config 0) lost_agent
       = Some (s, effs) ∧ es_pc s = EdgeEnding ∧
     ∀ now ev r, edge_step (MkSessionId 1) small_config s now ev = Some r → ∃ x, ev = EvWriter x) ∧
  (∃ w, writer_run (writer_actor_new 4 (sound []) Telemetry_default) idle_writer = Some w ∧
     ∀ ev w', writer_step w ev = Some w' → (∃ o, ev = EvControl o) ∨ (∃ o, ev = EvData o)) ∧
  (∃ pc effs, run_ingress_stream (MkSessionId 1) (MkStreamId 1) 60 60 unread_visitor
       = Some (pc, effs) ∧
     ∀ now ev r, ingress_step (MkSessionId 1) (MkStreamId 1) 60 60 pc now ev = Some r →
       ∃ x, ev = OnRelay (OnWritten x)) ∧
  (let s := reached (joined ++ approach 1) in
   resolve_tunnel s tunnel_1 = Some (MkSessionId 1) ∧
   is_ok (open_tunnel_io_tracked s tunnel_1 TrySent) = true ∧
   conn_at s 1 = Some (ConnDone (EndHandshake (TE_RegistrationRejected HC_TunnelAlreadyConnected)
                                   (Some HC_TunnelAlreadyConnected)))).
Proof.
  split_and!.
  - eexists (MkEdgeSession EdgeEnding ∅ 2 (MkSequence 1) None false 10), _.
    split; [by vm_compute|]. split; [done|]. intros now ev r Hstep.
    destruct ev as [| | | |x|]; try done. by exists x.
  - eexists. split; [by vm_compute|]. intros ev w' Hstep.
    destruct ev; try done; [left|right]; by eexists.
  - eexists _, _. split; [reflexivity|]. intros now ev r Hstep.
    destruct ev as [| | |ev| |]; try done. destruct ev as [| | |x| | |]; try done. by exists x.
  - by vm_compute.
Qed.
