(* ===== verification/AgentHandshake.v ===== *)
(** * AgentHandshake: the Agent's side of the registration

    [perform_handshake] and [connect_registered_with_security] of
    [crates/agent/src/agent_transport.rs], on the byte streams of [AsyncIo], and
    their agreement with the Edge's handshake of [Registry]. *)

From S2P Require Import Prelude AsyncIo Net Identity Frame Codec Handshake Authorization.
From S2P Require Import Telemetry WriterActor StreamTask EdgeSession AgentSession Registry.

(** ** The exchange *)

Inductive hs_outcome : Type :=
| HsDone (r : Result AgentError TransportSessionId)
| HsCancelled                 (** the future was dropped by a timeout *)
| HsPanicked.                 (** an [expect] *)

(** [FrameEncoder::encode(socket, &frame).await.map_err(...)]; the error is
    turned into text, which leaves [ErrorKind::Other]. *)
Definition hs_send (frame : Result ProtocolError Frame) (w : writer)
    (next : writer → writer * hs_outcome) : writer * hs_outcome :=
  match frame with
  | Err _ => (w, HsPanicked)
  | Ok f =>
      match Codec.encode w f with
      | (w', Ok _) => next w'
      | (w', Err _) => (w', HsDone (Err (AE_SessionIo IO_OTHER)))
      end
  end.

(** The answer of the Edge. *)
Definition read_registered (decoded : Result ProtocolError (option Frame))
    : Result AgentError TransportSessionId :=
  match decoded with
  | Ok None => Err AE_ConnectionClosed
  | Err e => Err (AE_ProtocolDecode e)
  | Ok (Some f) =>
      if decide (frame_type f = ErrorFrame) then
        Err (AE_RegistrationRejected
               (if zlen (payload f) =? ERROR_PAYLOAD_SIZE
                then HandshakeErrorCode_from_be_bytes (payload f) else None))
      else if negb (bool_decide (frame_type f = Registered)) then
        Err (AE_UnexpectedFrame (frame_type f))
      else if negb (zlen (payload f) =? REGISTERED_PAYLOAD_SIZE) then
        Err (AE_InvalidRegisteredPayload "REGISTERED payload must be exactly 8 bytes")
      else ok_or (AE_InvalidRegisteredPayload "REGISTERED session ID must be non-zero")
             (TransportSessionId_from_be_bytes (payload f))
  end.

Definition hello : Result ProtocolError Frame := Frame_control Hello [z2b ROLE_AGENT].
Definition register (registration : RegistrationRequest) : Result ProtocolError Frame :=
  Frame_control Register (RegistrationRequest_encode registration).

Definition perform_handshake (registration : RegistrationRequest) (w : writer) (r : reader)
    : writer * hs_outcome :=
  hs_send hello w (λ w,
  hs_send (register registration) w (λ w,
    (w, match Codec.decode FrameDecoder_new r with
        | (Some decoded, _, _) => HsDone (read_registered decoded)
        | (None, _, _) => HsCancelled
        end))).

(** ** Connecting *)

(** [IpAddr::is_loopback]. *)
Definition is_loopback (ip : IpAddr) : bool :=
  match ip with V4 bits => Z.shiftr bits 24 =? 127 | V6 bits => bits =? 1 end.

Definition is_transient_tls_error (e : io_error) : bool :=
  match e with
  | UnexpectedEof => true
  | IoFailed kind =>
      match kind with
      | KindConnectionRefused | KindConnectionReset | KindConnectionAborted | KindNotConnected
      | KindBrokenPipe | KindTimedOut => true
      | _ => false
      end
  end.

(** What the three awaits of [connect_registered_with_security] produce; the
    last one is the handshake on the connected transport. *)
Inductive waited (A : Type) : Type := Elapsed | Waited (a : A).
Arguments Elapsed {A}. Arguments Waited {A} a.

Section connect.
(** The text of an I/O error. *)
Context (to_string : io_error → string).

Definition normalize_tls_handshake_error (error : AgentError) (tls : bool) : AgentError :=
  if negb tls then error
  else
    match error with
    | AE_ProtocolDecode (PE_Io e) | AE_SessionIo e =>
        if decide (e = IoFailed KindInvalidData) then AE_TlsAuthentication (to_string e) else error
    | _ => error
    end.

(** [tls] is the outcome of the TLS negotiation, where there is one. *)
Definition connect_registered_with_security (edge_addr : SocketAddr) (is_tls : bool)
    (tcp : waited (Result io_error unit)) (tls : waited (Result io_error unit))
    (handshake : waited (Result AgentError TransportSessionId))
    : Result AgentError TransportSessionId :=
  if negb is_tls && negb (is_loopback (sa_ip edge_addr)) then
    Err (AE_PlaintextRemoteEdge edge_addr)
  else
    match tcp with
    | Elapsed => Err AE_ConnectTimeout
    | Waited (Err e) => Err (AE_Connect e)
    | Waited (Ok _) =>
        match is_tls, tls with
        | true, Elapsed => Err AE_TlsHandshakeTimeout
        | true, Waited (Err e) =>
            Err (if is_transient_tls_error e then AE_TlsTransport e
                 else AE_TlsAuthentication (to_string e))
        | _, _ =>
            match handshake with
            | Elapsed => Err AE_HandshakeTimeout
            | Waited (Err e) => Err (normalize_tls_handshake_error e is_tls)
            | Waited (Ok id) => Ok id
            end
        end
    end.
End connect.

(** ** The Edge's answers *)

(** REGISTERED, and the ERROR of [send_error_and_close]. *)
Definition registered (id : TransportSessionId) : Result ProtocolError Frame :=
  Frame_control Registered (TransportSessionId_to_be_bytes id).
Definition refusal (code : HandshakeErrorCode) : Result ProtocolError Frame :=
  Frame_control ErrorFrame (HandshakeErrorCode_to_be_bytes code).

(** What the Edge writes for a connection that has reached [pc], and what the
    Agent is meant to make of it. *)
Definition edge_answer (pc : conn_pc) : option (Result ProtocolError Frame) :=
  match pc with
  | ConnSending _ id => Some (registered id)
  | ConnDone (EndHandshake _ (Some code)) => Some (refusal code)
  | _ => None
  end.
Definition agent_verdict (pc : conn_pc) : Result AgentError TransportSessionId :=
  match pc with
  | ConnSending _ id => Ok id
  | ConnDone (EndHandshake _ (Some code)) => Err (AE_RegistrationRejected (Some code))
  | _ => Err AE_ConnectionClosed
  end.

(** ** Facts *)

Lemma register_ok registration :
  registration_ok registration →
  zlen (RegistrationRequest_encode registration) ≤ MAX_FRAME_PAYLOAD.
Proof.
  intros Hq. rewrite registration_encode_eq by done. destruct Hq as [Ha Ht].
  apply durable_id_ok_len in Ha, Ht. rewrite !zlen_app, !zlen_to_be.
  unfold MAX_DURABLE_ID_BYTES, MAX_FRAME_PAYLOAD in *. lia.
Qed.

Lemma control_frame t p :
  FrameType_scope t = Control → zlen p ≤ MAX_FRAME_PAYLOAD →
  Frame_control t p = Ok (MkFrame t 0 StreamId_CONTROL p) ∧
  frame_ok (MkFrame t 0 StreamId_CONTROL p) ∧ frame_typed (MkFrame t 0 StreamId_CONTROL p).
Proof.
  intros Ht Hp. assert (frame_ok (MkFrame t 0 StreamId_CONTROL p)) as Hok.
  { split; [done|done|]. unfold scope_ok. cbn. by rewrite Ht. }
  split_and!; [|done|done]. by apply Frame_new_Ok.
Qed.

Definition hello_sent : Frame := MkFrame Hello 0 StreamId_CONTROL [z2b ROLE_AGENT].
Definition register_sent (registration : RegistrationRequest) : Frame :=
  MkFrame Register 0 StreamId_CONTROL (RegistrationRequest_encode registration).

Lemma perform_handshake_sent registration r :
  registration_ok registration →
  perform_handshake registration (sound []) r =
    (sound (encode_frame hello_sent ++ encode_frame (register_sent registration)),
     match Codec.decode FrameDecoder_new r with
     | (Some decoded, _, _) => HsDone (read_registered decoded)
     | (None, _, _) => HsCancelled
     end).
Proof.
  intros Hq. unfold perform_handshake, hs_send, hello, register.
  destruct (control_frame Hello [z2b ROLE_AGENT] eq_refl ltac:(done)) as (-> & Hh & _).
  rewrite encode_ok by done. cbn [w_out sound app].
  destruct (control_frame Register _ eq_refl (register_ok _ Hq)) as (-> & Hr & _).
  by rewrite encode_ok by done.
Qed.

Lemma decode_one f r rest :
  frame_ok f → frame_typed f → AsyncIo.steady r → bytes_of r = encode_frame f ++ rest →
  ∃ d' r', Codec.decode FrameDecoder_new r = (Some (Ok (Some f)), d', r').
Proof.
  intros Hf Ht [Hclean Hc] Hb. pose proof (decode_spec _ r dec_wf_new Hclean) as Hpost.
  destruct (Codec.decode FrameDecoder_new r) as [[[v|] d'] r']; destruct Hpost as (_ & _ & Hpost).
  - destruct Hpost as [Hv _]. change (consumed FrameDecoder_new) with ([] : bytes) in Hv.
    cbn [app] in Hv. rewrite Hb, decode_bytes_encode in Hv by done.
    injection Hv as <- _. by eexists _, _.
  - destruct Hpost as [_ ?]. lia.
Qed.

Lemma answer_understood {W} `{LatestValue W} (s : registry W) i pc f :
  rg_inv s → conn_at s i = Some pc → edge_answer pc = Some f →
  ∃ frame, f = Ok frame ∧ frame_ok frame ∧ frame_typed frame ∧
    read_registered (Ok (Some frame)) = agent_verdict pc.
Proof.
  intros Hinv Hpc Ha. destruct control_values_roundtrip as (_ & Hcode & _ & Hid & _).
  destruct pc as [| | | |p id| | | |why]; try done; simplify_eq/=.
  - assert (0 < session_raw id < 2 ^ 64) as Hr.
    { assert (ident_at s i = Some id) as Hi by (unfold ident_at; by rewrite Hpc).
      pose proof (ri_ident _ Hinv _ _ Hi). pose proof (ri_counter _ Hinv). lia. }
    unfold registered.
    destruct (control_frame Registered (TransportSessionId_to_be_bytes id) eq_refl) as (-> & Hok & Ht).
    { unfold TransportSessionId_to_be_bytes. by rewrite zlen_to_be. }
    eexists. split_and!; [done..|]. unfold read_registered. cbn [frame_type payload].
    rewrite decide_False, bool_decide_true by done. cbn [negb].
    rewrite (proj2 (Hid (TransportSessionId_to_be_bytes id) id (length_to_be _ _))) by done.
    unfold TransportSessionId_to_be_bytes. by rewrite zlen_to_be.
  - destruct why as [e [code|]| | |]; try done. simplify_eq/=. unfold refusal.
    destruct (control_frame ErrorFrame (HandshakeErrorCode_to_be_bytes code) eq_refl)
      as (-> & Hok & Ht); [by destruct code|].
    eexists. split_and!; [done..|]. unfold read_registered. cbn [frame_type payload].
    rewrite decide_True by done. rewrite Hcode. by destruct code.
Qed.

(** ** The theorem *)

(** C8. The two sides of the registration understand each other.  Whatever the
    chunks and interruptions on the way, the Edge decodes exactly the HELLO and
    the REGISTER of the Agent, accepts the one, and decides the other as its
    policy decides the registration the Agent was configured with.  In every
    reachable state of the Edge, an Agent that reads what the Edge sends it
    ends its handshake with that decision: the session identifier the Edge
    allocated, or the very code of the refusal. *)
Theorem handshake_agreement {W} `{LatestValueLaws W} mode publisher acts (s : registry W)
    registration r ra :
  rg_run mode (registry_new mode publisher) acts = Some s → registration_ok registration →
  clean r → bytes_of r = w_out (perform_handshake registration (sound []) ra).1 →
  (∃ h f, recv_all 2 FrameDecoder_new r = ([h; f], Some (Ok tt)) ∧
     check_hello (Ok (Some h)) = Ok tt ∧
     ∀ current certificate,
       check_register mode current certificate (Ok (Some f)) =
         map_err (λ code, EndHandshake (TE_RegistrationRejected code) (Some code))
           (policy_authorize mode current certificate registration)) ∧
  (∀ i pc f, conn_at s i = Some pc → edge_answer pc = Some f →
     ∃ frame, f = Ok frame ∧
       ∀ ra' rest, AsyncIo.steady ra' → bytes_of ra' = encode_frame frame ++ rest →
         (perform_handshake registration (sound []) ra').2 = HsDone (agent_verdict pc)).
Proof.
  intros Hrun Hq Hclean Hb. rewrite perform_handshake_sent in Hb by done. cbn [fst w_out sound] in Hb.
  destruct (control_frame Hello [z2b ROLE_AGENT] eq_refl ltac:(done)) as (_ & Hh & Hht).
  destruct (control_frame Register _ eq_refl (register_ok _ Hq)) as (_ & Hr & Hrt).
  split.
  - exists hello_sent, (register_sent registration). split_and!.
    + apply (recv_all_frames [hello_sent; register_sent registration]);
        auto using dec_wf_new. cbn [fmap list_fmap mjoin list_join]. by rewrite app_nil_r.
    + done.
    + intros current certificate. unfold check_register. cbn -[RegistrationRequest_decode RegistrationRequest_encode policy_authorize].
      by rewrite registration_decode_encode.
  - intros i pc f Hpc Ha.
    destruct (answer_understood s i pc f) as (frame & -> & Hf & Hft & Hv); [|done..|].
    { by eapply rg_inv_run; [apply rg_inv_new|]. }
    exists frame. split; [done|]. intros ra' rest Hs Hbs. rewrite perform_handshake_sent by done.
    destruct (decode_one frame ra' rest Hf Hft Hs Hbs) as (d' & r' & ->). cbn [snd]. by rewrite Hv.
Qed.

(** ** Examples *)

(** A first Agent gets its session; a second one for the same tunnel does not. *)
Definition sending : list rg_action := approach 0 ++ [RgAllocate 0].
Definition answered_1 : list rg_action := joined ++ approach 1.

Definition agent_bytes : bytes := w_out (perform_handshake request_1 (sound []) []).1.
Definition interrupted : reader := [Cancel; Data agent_bytes].

Lemma sending_run : rg_run mtls fresh_registry sending = Some (reached sending).
Proof. vm_compute. reflexivity. Qed.
Lemma answered_run : rg_run mtls fresh_registry answered_1 = Some (reached answered_1).
Proof. vm_compute. reflexivity. Qed.
Lemma interrupted_clean : clean interrupted.
Proof. repeat constructor; by vm_compute. Qed.
Lemma request_1_ok : registration_ok request_1.
Proof. apply (bool_decide_unpack _). by vm_compute. Qed.

Definition sending_pc : conn_pc :=
  ConnSending (MkAuthorized (Some cert_1) agent_1 tunnel_1 (Some (MkVersion 1))) (MkSessionId 1).
Definition refused_pc : conn_pc :=
  ConnDone (EndHandshake (TE_RegistrationRejected HC_TunnelAlreadyConnected)
              (Some HC_TunnelAlreadyConnected)).
Definition reply (f : Frame) : reader := [Data (encode_frame f)].

Lemma reply_steady f : AsyncIo.steady (reply f) ∧ bytes_of (reply f) = encode_frame f ++ [].
Proof. split; [split; [by repeat constructor|done]|done]. Qed.

Lemma handshake_agreement_witness :
  (perform_handshake request_1 (sound [])
     (reply (MkFrame Registered 0 StreamId_CONTROL (to_be 8 1)))).2
    = HsDone (Ok (MkSessionId 1)) ∧
  (perform_handshake request_1 (sound [])
     (reply (MkFrame ErrorFrame 0 StreamId_CONTROL (to_be 2 8)))).2
    = HsDone (Err (AE_RegistrationRejected (Some HC_TunnelAlreadyConnected))).
Proof.
  split.
  - destruct (handshake_agreement mtls _ sending (reached sending) request_1 interrupted []
      sending_run request_1_ok interrupted_clean ltac:(reflexivity)) as [_ Ha].
    destruct (Ha 0%nat sending_pc (registered (MkSessionId 1)) ltac:(by vm_compute) ltac:(done))
      as (frame & Hf & Hv).
    replace (MkFrame Registered 0 StreamId_CONTROL (to_be 8 1)) with frame
      by (vm_compute in Hf; injection Hf as <-; by vm_compute).
    apply (Hv _ []); apply reply_steady.
  - destruct (handshake_agreement mtls _ answered_1 (reached answered_1) request_1 interrupted []
      answered_run request_1_ok interrupted_clean ltac:(reflexivity)) as [_ Ha].
    destruct (Ha 1%nat refused_pc (refusal HC_TunnelAlreadyConnected) ltac:(by vm_compute)
      ltac:(done)) as (frame & Hf & Hv).
    replace (MkFrame ErrorFrame 0 StreamId_CONTROL (to_be 2 8)) with frame
      by (vm_compute in Hf; injection Hf as <-; by vm_compute).
    apply (Hv _ []); apply reply_steady.
Defined.
