(* ===== verification/AgentRuntime.v ===== *)
(** * AgentRuntime: the supervisor of the Agent process

    [crates/agent/src/runtime.rs]: the reconnect policy, the status shared with
    the operations endpoint and the reachability monitor, and the loop
    [AgentRuntime::run_until_shutdown] that keeps one session to the Edge. *)

From S2P Require Import Prelude AsyncIo Net Identity Frame Codec Handshake Telemetry WriterActor.
From S2P Require Import StreamTask EdgeSession AgentSession AgentHandshake.

(** ** The reconnect policy *)

(** Durations in nanoseconds. *)
Record ReconnectConfig : Type := MkReconnect {
  rc_initial_delay : Z;
  rc_max_delay : Z;
  rc_multiplier : Z;
  rc_jitter_percent : Z;
  rc_stable_session_reset_after : Z;
  rc_max_attempts : option Z
}.

Definition SECOND : Z := 10 ^ 9.
Definition ReconnectConfig_default : ReconnectConfig :=
  MkReconnect (250 * 10 ^ 6) (30 * SECOND) 2 20 (30 * SECOND) None.

Inductive ReconnectConfigError : Type :=
| ZeroInitialDelay
| ZeroMaxDelay
| InitialDelayExceedsMaximum
| ZeroMultiplier
| JitterTooLarge
| ZeroStableSessionReset
| ZeroMaxAttempts.

Definition ReconnectConfig_validate (c : ReconnectConfig) : Result ReconnectConfigError unit :=
  if rc_initial_delay c =? 0 then Err ZeroInitialDelay
  else if rc_max_delay c =? 0 then Err ZeroMaxDelay
  else if rc_max_delay c <? rc_initial_delay c then Err InitialDelayExceedsMaximum
  else if rc_multiplier c =? 0 then Err ZeroMultiplier
  else if 50 <? rc_jitter_percent c then Err JitterTooLarge
  else if rc_stable_session_reset_after c =? 0 then Err ZeroStableSessionReset
  else if bool_decide (rc_max_attempts c = Some 0) then Err ZeroMaxAttempts
  else Ok tt.

(** The values of the field types: durations of 64-bit seconds, [u32], [u8]. *)
Definition DURATION_MAX : Z := 2 ^ 64 * SECOND - 1.
Record reconnect_typed (c : ReconnectConfig) : Prop := {
  ct_initial : 0 ≤ rc_initial_delay c ≤ DURATION_MAX;
  ct_max : 0 ≤ rc_max_delay c ≤ DURATION_MAX;
  ct_multiplier : u_range 32 (rc_multiplier c);
  ct_jitter : u_range 8 (rc_jitter_percent c);
  ct_stable : 0 ≤ rc_stable_session_reset_after c ≤ DURATION_MAX;
  ct_attempts n : rc_max_attempts c = Some n → u_range 32 n
}.

(** [Duration::checked_mul]. *)
Definition duration_checked_mul (d k : Z) : option Z :=
  if d * k <=? DURATION_MAX then Some (d * k) else None.

(** The loop of [delay_for]. *)
Fixpoint delay_loop (c : ReconnectConfig) (n : nat) (base : Z) : Z :=
  match n with
  | O => base
  | S n =>
      let base' :=
        Z.min (default (rc_max_delay c) (duration_checked_mul base (rc_multiplier c)))
          (rc_max_delay c) in
      if base' =? rc_max_delay c then base' else delay_loop c n base'
  end.

(** [delay_for] up to its jitter. *)
Definition delay_base (c : ReconnectConfig) (consecutive_failures : Z) : Z :=
  let exponent := saturating_sub consecutive_failures 1 in
  if 1 <? rc_multiplier c then delay_loop c (Z.to_nat exponent) (rc_initial_delay c)
  else rc_initial_delay c.

Definition jitter_sample (seed attempt : Z) : Z :=
  let v := Z.lxor seed (wrap 64 (attempt * 0x9E3779B97F4A7C15)) in
  let v := Z.lxor v (Z.shiftr v 12) in
  let v := Z.lxor v (wrap 64 (Z.shiftl v 25)) in
  let v := Z.lxor v (Z.shiftr v 27) in
  wrap 64 (v * 0x2545F4914F6CDD1D) mod 1001.

Definition is_retryable (e : AgentError) : bool :=
  match e with
  | AE_Connect _ | AE_ConnectTimeout | AE_TlsHandshakeTimeout | AE_TlsTransport _
  | AE_HandshakeTimeout | AE_SessionIo _ | AE_ConnectionClosed => true
  | AE_ProtocolDecode (PE_Io _ | PE_TruncatedHeader _ | PE_TruncatedPayload _ _) => true
  | AE_RegistrationRejected (Some HC_TunnelAlreadyConnected) => true
  | _ => false
  end.

Definition retry_exhausted (c : ReconnectConfig) (consecutive_failures : Z) : bool :=
  match rc_max_attempts c with Some maximum => maximum <=? consecutive_failures | None => false end.

(** ** The shared status *)

Inductive AgentConnectionState : Type :=
| AgentOffline | AgentConnecting | AgentConnected | AgentBackoff | AgentDraining | AgentStopped.

#[global] Instance AgentConnectionState_eq_dec : EqDecision AgentConnectionState.
Proof. solve_decision. Defined.

Definition AgentConnectionState_as_str (s : AgentConnectionState) : string :=
  match s with
  | AgentOffline => "offline" | AgentConnecting => "connecting" | AgentConnected => "connected"
  | AgentBackoff => "backoff" | AgentDraining => "draining" | AgentStopped => "stopped"
  end.

Inductive PublicReachabilityState : Type :=
| ReachDisabled | ReachPending | ReachHealthy | ReachDegraded | ReachUnhealthy.

#[global] Instance PublicReachabilityState_eq_dec : EqDecision PublicReachabilityState.
Proof. solve_decision. Defined.

Definition PublicReachabilityState_as_str (s : PublicReachabilityState) : string :=
  match s with
  | ReachDisabled => "disabled" | ReachPending => "pending" | ReachHealthy => "healthy"
  | ReachDegraded => "degraded" | ReachUnhealthy => "unhealthy"
  end.

Inductive PublicReachabilityFailureClass : Type :=
| FailResolve | FailConnect | FailTls | FailHttp | FailRouteUnavailable | FailInvalidProof.

(** The counters of the supervisor, of the probes and of the monitor. *)
Record supervisor_counts : Type := MkSupervisorCounts {
  connection_attempts : Z;
  established_sessions : Z;
  successful_reconnects : Z;
  disconnects : Z;
  connection_failures : Z;
  consecutive_failures : Z
}.
Record probe_counts : Type := MkProbeCounts {
  pr_attempts : Z; pr_successes : Z; pr_timeouts : Z; pr_cancellations : Z;
  pr_tls_failures : Z; pr_connect_failures : Z; pr_route_failures : Z; pr_protocol_failures : Z
}.
Record monitor_counts : Type := MkMonitorCounts {
  mo_cycles : Z; mo_failures : Z; mo_consecutive_failures : Z;
  mo_unhealthy_transitions : Z; mo_recoveries : Z
}.

(** [AgentRuntimeTelemetry]; the two states are stored as the numbers of the
    enumerations. *)
Record AgentRuntimeTelemetry : Type := MkRuntimeTelemetry {
  rt_state : AgentConnectionState;
  rt_supervisor : supervisor_counts;
  rt_probe : probe_counts;
  rt_reachability : PublicReachabilityState;
  rt_monitor_enabled : bool;
  rt_monitor : monitor_counts
}.

Definition RuntimeTelemetry_default : AgentRuntimeTelemetry :=
  MkRuntimeTelemetry AgentOffline (MkSupervisorCounts 0 0 0 0 0 0) (MkProbeCounts 0 0 0 0 0 0 0 0)
    ReachDisabled false (MkMonitorCounts 0 0 0 0 0).

Definition rt_with_state (t : AgentRuntimeTelemetry) (s : AgentConnectionState)
    : AgentRuntimeTelemetry :=
  MkRuntimeTelemetry s (rt_supervisor t) (rt_probe t) (rt_reachability t) (rt_monitor_enabled t)
    (rt_monitor t).
Definition rt_with_supervisor (t : AgentRuntimeTelemetry) (c : supervisor_counts)
    : AgentRuntimeTelemetry :=
  MkRuntimeTelemetry (rt_state t) c (rt_probe t) (rt_reachability t) (rt_monitor_enabled t)
    (rt_monitor t).
Definition rt_with_reachability (t : AgentRuntimeTelemetry) (s : PublicReachabilityState)
    : AgentRuntimeTelemetry :=
  MkRuntimeTelemetry (rt_state t) (rt_supervisor t) (rt_probe t) s (rt_monitor_enabled t)
    (rt_monitor t).
Definition rt_with_monitor (t : AgentRuntimeTelemetry) (m : monitor_counts)
    : AgentRuntimeTelemetry :=
  MkRuntimeTelemetry (rt_state t) (rt_supervisor t) (rt_probe t) (rt_reachability t)
    (rt_monitor_enabled t) m.

(** [AgentRuntimeStatus]. *)
Definition is_transport_ready (t : AgentRuntimeTelemetry) : bool :=
  bool_decide (rt_state t = AgentConnected).
Definition is_ready (t : AgentRuntimeTelemetry) : bool :=
  is_transport_ready t &&
  match rt_reachability t with ReachPending | ReachUnhealthy => false | _ => true end.

Definition is_final (s : AgentConnectionState) : bool :=
  match s with AgentDraining | AgentStopped => true | _ => false end.

(** [set_runtime_state], its compare-and-exchange loop run to its end. *)
Definition set_runtime_state (s : AgentConnectionState) (t : AgentRuntimeTelemetry)
    : AgentRuntimeTelemetry :=
  let t' :=
    if bool_decide (s ≠ AgentConnected) && rt_monitor_enabled t
       && bool_decide (rt_reachability t ≠ ReachDisabled)
    then rt_with_reachability t ReachPending else t in
  if is_final (rt_state t') then t' else rt_with_state t' s.

Definition begin_draining (t : AgentRuntimeTelemetry) : AgentRuntimeTelemetry :=
  rt_with_state t AgentDraining.
(** [Drop for AgentRuntimeStatusGuard]. *)
Definition status_guard_drop (t : AgentRuntimeTelemetry) : AgentRuntimeTelemetry :=
  rt_with_state t AgentStopped.

Definition require_public_reachability (monitor_enabled : bool) (t : AgentRuntimeTelemetry)
    : AgentRuntimeTelemetry :=
  MkRuntimeTelemetry (rt_state t) (rt_supervisor t) (rt_probe t) ReachPending monitor_enabled
    (rt_monitor t).

Definition probe_add (attempts successes timeouts cancellations : Z) (p : probe_counts)
    : probe_counts :=
  MkProbeCounts (fetch_add (pr_attempts p) attempts) (fetch_add (pr_successes p) successes)
    (fetch_add (pr_timeouts p) timeouts) (fetch_add (pr_cancellations p) cancellations)
    (pr_tls_failures p) (pr_connect_failures p) (pr_route_failures p) (pr_protocol_failures p).

(** [record_public_reachability_failure_class]. *)
Definition probe_failed (f : PublicReachabilityFailureClass) (p : probe_counts) : probe_counts :=
  let '(tls, connect, route, protocol) :=
    match f with
    | FailTls => (1, 0, 0, 0)
    | FailResolve | FailConnect => (0, 1, 0, 0)
    | FailRouteUnavailable => (0, 0, 1, 0)
    | FailHttp | FailInvalidProof => (0, 0, 0, 1)
    end in
  MkProbeCounts (pr_attempts p) (pr_successes p) (pr_timeouts p) (pr_cancellations p)
    (fetch_add (pr_tls_failures p) tls) (fetch_add (pr_connect_failures p) connect)
    (fetch_add (pr_route_failures p) route) (fetch_add (pr_protocol_failures p) protocol).

Definition rt_with_probe (t : AgentRuntimeTelemetry) (p : probe_counts) : AgentRuntimeTelemetry :=
  MkRuntimeTelemetry (rt_state t) (rt_supervisor t) p (rt_reachability t) (rt_monitor_enabled t)
    (rt_monitor t).

Definition monitor_streak (n : Z) (m : monitor_counts) : monitor_counts :=
  MkMonitorCounts (mo_cycles m) (mo_failures m) n (mo_unhealthy_transitions m) (mo_recoveries m).

Definition record_public_reachability_success (attempts : Z) (t : AgentRuntimeTelemetry)
    : AgentRuntimeTelemetry :=
  rt_with_reachability
    (rt_with_monitor (rt_with_probe t (probe_add attempts 1 0 0 (rt_probe t)))
       (monitor_streak 0 (rt_monitor t))) ReachHealthy.

Definition record_public_reachability_failure (attempts : Z)
    (failure : option PublicReachabilityFailureClass) (cancelled : bool)
    (t : AgentRuntimeTelemetry) : AgentRuntimeTelemetry :=
  rt_with_probe t
    (if cancelled then probe_add attempts 0 0 1 (rt_probe t)
     else probe_failed (default FailHttp failure) (probe_add attempts 0 1 0 (rt_probe t))).

Definition record_public_reachability_monitor_success (t : AgentRuntimeTelemetry)
    : AgentRuntimeTelemetry :=
  let m := rt_monitor t in
  rt_with_reachability
    (rt_with_monitor (rt_with_probe t (probe_add 1 1 0 0 (rt_probe t)))
       (MkMonitorCounts (fetch_add (mo_cycles m) 1) (mo_failures m) 0 (mo_unhealthy_transitions m)
          (fetch_add (mo_recoveries m)
             (if decide (rt_reachability t = ReachUnhealthy) then 1 else 0)))) ReachHealthy.

Definition record_public_reachability_monitor_failure (failure : PublicReachabilityFailureClass)
    (failure_threshold : Z) (t : AgentRuntimeTelemetry) : AgentRuntimeTelemetry :=
  let m := rt_monitor t in
  let consecutive := saturating_add 64 (mo_consecutive_failures m) 1 in
  let state := if failure_threshold <=? consecutive then ReachUnhealthy else ReachDegraded in
  rt_with_reachability
    (rt_with_monitor
       (rt_with_probe t (probe_failed failure (probe_add 1 0 0 0 (rt_probe t))))
       (MkMonitorCounts (fetch_add (mo_cycles m) 1) (fetch_add (mo_failures m) 1)
          (fetch_add (mo_consecutive_failures m) 1)
          (fetch_add (mo_unhealthy_transitions m)
             (if decide (state = ReachUnhealthy ∧ rt_reachability t ≠ ReachUnhealthy) then 1 else 0))
          (mo_recoveries m))) state.

Definition record_public_reachability_monitor_cancellation (t : AgentRuntimeTelemetry)
    : AgentRuntimeTelemetry := rt_with_probe t (probe_add 0 0 0 1 (rt_probe t)).

(** What the other tasks of the process do to the status. *)
Inductive status_op : Type :=
| StDrain
| StRequire (monitor_enabled : bool)
| StSuccess (attempts : Z)
| StFailure (attempts : Z) (failure : option PublicReachabilityFailureClass) (cancelled : bool)
| StMonitorSuccess
| StMonitorFailure (failure : PublicReachabilityFailureClass) (threshold : Z)
| StMonitorCancellation.

Definition status_apply (op : status_op) : AgentRuntimeTelemetry → AgentRuntimeTelemetry :=
  match op with
  | StDrain => begin_draining
  | StRequire b => require_public_reachability b
  | StSuccess n => record_public_reachability_success n
  | StFailure n f b => record_public_reachability_failure n f b
  | StMonitorSuccess => record_public_reachability_monitor_success
  | StMonitorFailure f n => record_public_reachability_monitor_failure f n
  | StMonitorCancellation => record_public_reachability_monitor_cancellation
  end.

(** ** Configuration of the process *)

Record AgentRuntimeConfig : Type := MkRuntimeConfig {
  cfg_edge_addr : SocketAddr;
  cfg_connect_timeout : Z;
  cfg_handshake_timeout : Z;
  cfg_multiplex : MultiplexedAgentConfig;
  cfg_is_tls : bool;
  cfg_registration : RegistrationRequest;
  cfg_reconnect : ReconnectConfig;
  cfg_drain_timeout : Z
}.

Inductive AgentRuntimeConfigError : Type :=
| RT_ZeroConnectTimeout
| RT_ZeroHandshakeTimeout
| RT_PlaintextEdgeMustBeLoopback (addr : SocketAddr)
| RT_ZeroDrainTimeout
| RT_Multiplex (e : MultiplexedAgentConfigError)
| RT_Reconnect (e : ReconnectConfigError).

Definition AgentRuntimeConfig_validate (c : AgentRuntimeConfig)
    : Result AgentRuntimeConfigError unit :=
  if cfg_connect_timeout c =? 0 then Err RT_ZeroConnectTimeout
  else if cfg_handshake_timeout c =? 0 then Err RT_ZeroHandshakeTimeout
  else if negb (cfg_is_tls c) && negb (is_loopback (sa_ip (cfg_edge_addr c))) then
    Err (RT_PlaintextEdgeMustBeLoopback (cfg_edge_addr c))
  else
    _ ← map_err RT_Multiplex (MultiplexedAgentConfig_validate (cfg_multiplex c));
    _ ← map_err RT_Reconnect (ReconnectConfig_validate (cfg_reconnect c));
    map_err (λ _, RT_ZeroDrainTimeout) (RuntimeShutdownConfig_validate (cfg_drain_timeout c)).

(** ** The supervisor *)

Record AgentRuntimeOutcome : Type := MkOutcome {
  ro_connection_attempts : Z;
  ro_established_sessions : Z;
  ro_successful_reconnects : Z;
  ro_last_session_id : option TransportSessionId
}.

Inductive AgentRuntimeError : Type :=
| InvalidConfig (e : AgentRuntimeConfigError)
| Terminal (e : AgentError)
| ReconnectExhausted (consecutive_failures : Z) (last_error : AgentError).

Inductive sv_pc : Type :=
| SvConnecting
| SvServing (established_at : Z)
| SvBackoff
| SvReturned (r : Result AgentRuntimeError AgentRuntimeOutcome).

Record supervisor : Type := MkSupervisor {
  sv_at : sv_pc;
  sv_outcome : AgentRuntimeOutcome;
  sv_failures : Z;
  sv_telemetry : AgentRuntimeTelemetry
}.

Inductive sv_event : Type :=
| SvConnect (r : Result AgentError TransportSessionId)
| SvSession (r : Result AgentError AgentSessionCloseReason)
| SvSlept
| SvSignal                                               (** [signal.cancelled()] *)
| SvStatus (op : status_op).                             (** another task, on the status *)

Section supervisor.
Context (c : ReconnectConfig) (signal_at : option Z).

Definition sv_signalled (now : Z) : bool :=
  match signal_at with Some t => t <=? now | None => false end.

(** A return drops the status guard. *)
Definition sv_return (s : supervisor) (r : Result AgentRuntimeError AgentRuntimeOutcome)
    : supervisor :=
  MkSupervisor (SvReturned r) (sv_outcome s) (sv_failures s) (status_guard_drop (sv_telemetry s)).

Definition sv_counts (s : supervisor) (f : supervisor_counts → supervisor_counts) : supervisor :=
  MkSupervisor (sv_at s) (sv_outcome s) (sv_failures s)
    (rt_with_supervisor (sv_telemetry s) (f (rt_supervisor (sv_telemetry s)))).

Definition count_failure (k : supervisor_counts) : supervisor_counts :=
  MkSupervisorCounts (connection_attempts k) (established_sessions k) (successful_reconnects k)
    (disconnects k) (fetch_add (connection_failures k) 1) (consecutive_failures k).
Definition count_disconnect (k : supervisor_counts) : supervisor_counts :=
  MkSupervisorCounts (connection_attempts k) (established_sessions k) (successful_reconnects k)
    (fetch_add (disconnects k) 1) (connection_failures k) (consecutive_failures k).
Definition store_consecutive (n : Z) (k : supervisor_counts) : supervisor_counts :=
  MkSupervisorCounts (connection_attempts k) (established_sessions k) (successful_reconnects k)
    (disconnects k) (connection_failures k) n.
(** The three counters the supervisor keeps twice; it alone writes them. *)
Definition store_outcome (o : AgentRuntimeOutcome) (k : supervisor_counts) : supervisor_counts :=
  MkSupervisorCounts (ro_connection_attempts o) (ro_established_sessions o)
    (ro_successful_reconnects o) (disconnects k) (connection_failures k) (consecutive_failures k).

(** The head of the loop. *)
Definition sv_head (s : supervisor) (now : Z) : supervisor :=
  if sv_signalled now then sv_return s (Ok (sv_outcome s))
  else
    let o := sv_outcome s in
    let o' := MkOutcome (saturating_add 64 (ro_connection_attempts o) 1)
                (ro_established_sessions o) (ro_successful_reconnects o) (ro_last_session_id o) in
    let t := rt_with_supervisor (sv_telemetry s)
               (store_outcome o' (rt_supervisor (sv_telemetry s))) in
    MkSupervisor SvConnecting o' (sv_failures s) (set_runtime_state AgentConnecting t).

(** From the count of a failure to the wait. *)
Definition sv_retry (s : supervisor) (failures : Z) (e : AgentError) : supervisor :=
  let n := saturating_add 32 failures 1 in
  let t := rt_with_supervisor (sv_telemetry s)
             (store_consecutive n (rt_supervisor (sv_telemetry s))) in
  if retry_exhausted c n then
    sv_return (MkSupervisor (sv_at s) (sv_outcome s) n t) (Err (ReconnectExhausted n e))
  else MkSupervisor SvBackoff (sv_outcome s) n (set_runtime_state AgentBackoff t).

Definition sv_connect_failed (s : supervisor) (e : AgentError) : supervisor :=
  let s' := sv_counts s count_failure in
  if is_retryable e then sv_retry s' (sv_failures s') e else sv_return s' (Err (Terminal e)).

Definition sv_established (s : supervisor) (now : Z) (id : TransportSessionId) : supervisor :=
  let o := sv_outcome s in
  let established := saturating_add 64 (ro_established_sessions o) 1 in
  let o' := MkOutcome (ro_connection_attempts o) established
              (if 1 <? established then saturating_add 64 (ro_successful_reconnects o) 1
               else ro_successful_reconnects o) (Some id) in
  let t := rt_with_supervisor (sv_telemetry s)
             (store_outcome o' (rt_supervisor (sv_telemetry s))) in
  MkSupervisor (SvServing now) o' (sv_failures s) (set_runtime_state AgentConnected t).

(** The error a closed session counts as, if it ends in an attempt to reconnect
    or in an error. *)
Definition session_error (r : Result AgentError AgentSessionCloseReason) : option AgentError :=
  match r with
  | Ok LocalShutdown => None
  | Ok PeerClosed => Some AE_ConnectionClosed
  | Err e => Some e
  end.

Definition sv_session_ended (s : supervisor) (now established_at : Z)
    (r : Result AgentError AgentSessionCloseReason) : supervisor :=
  match session_error r with
  | None => sv_return s (Ok (sv_outcome s))
  | Some e =>
      let s' := sv_counts (sv_counts s count_disconnect) count_failure in
      if is_retryable e then
        sv_retry s' (if rc_stable_session_reset_after c <=? now - established_at then 0
                     else sv_failures s') e
      else sv_return s' (Err (Terminal e))
  end.

Definition sv_start (now : Z) : supervisor :=
  sv_head (MkSupervisor SvConnecting (MkOutcome 0 0 0 None) 0 RuntimeTelemetry_default) now.

Definition sv_step (s : supervisor) (now : Z) (ev : sv_event) : option supervisor :=
  match sv_at s, ev with
  | _, SvStatus op =>
      Some (MkSupervisor (sv_at s) (sv_outcome s) (sv_failures s)
              (status_apply op (sv_telemetry s)))
  | SvConnecting, SvConnect r =>
      if sv_signalled now then None
      else Some (match r with
                 | Ok id => sv_established s now id
                 | Err e => sv_connect_failed s e
                 end)
  | SvServing established_at, SvSession r => Some (sv_session_ended s now established_at r)
  | SvBackoff, SvSlept => if sv_signalled now then None else Some (sv_head s now)
  | (SvConnecting | SvBackoff), SvSignal =>
      if sv_signalled now then Some (sv_return s (Ok (sv_outcome s))) else None
  | _, _ => None
  end.

Fixpoint sv_run (s : supervisor) (evs : list (Z * sv_event)) : option supervisor :=
  match evs with
  | [] => Some s
  | (now, ev) :: evs => match sv_step s now ev with Some s' => sv_run s' evs | None => None end
  end.
End supervisor.

(** ** The delays *)

Lemma delay_loop_eq c n base :
  rc_max_delay c ≤ DURATION_MAX → 1 < rc_multiplier c → 0 < base ≤ rc_max_delay c →
  delay_loop c n base = Z.min (rc_max_delay c) (base * rc_multiplier c ^ Z.of_nat n).
Proof.
  intros Hmax Hm. revert base. induction n as [|n IH]; intros base Hb; cbn [delay_loop].
  { rewrite Z.pow_0_r. lia. }
  assert (Z.min (default (rc_max_delay c) (duration_checked_mul base (rc_multiplier c)))
            (rc_max_delay c) = Z.min (base * rc_multiplier c) (rc_max_delay c)) as ->.
  { unfold duration_checked_mul. destruct (Z.leb_spec (base * rc_multiplier c) DURATION_MAX); cbn; lia. }
  rewrite Nat2Z.inj_succ, Z.pow_succ_r by lia.
  assert (0 < rc_multiplier c ^ Z.of_nat n) by (apply Z.pow_pos_nonneg; lia).
  destruct (Z.eqb_spec (Z.min (base * rc_multiplier c) (rc_max_delay c)) (rc_max_delay c)) as [He|He].
  - rewrite He. nia.
  - rewrite Z.min_l by lia. rewrite IH by nia. f_equal. ring.
Qed.

(** What validation establishes. *)
Lemma validated c :
  reconnect_typed c → ReconnectConfig_validate c = Ok tt →
  0 < rc_initial_delay c ≤ rc_max_delay c ∧ 0 < rc_multiplier c ∧
  0 < rc_stable_session_reset_after c ∧ rc_max_attempts c ≠ Some 0.
Proof.
  intros [Hi Hm [Hk _] _ Hs _] Hv. unfold ReconnectConfig_validate in Hv. inv_result.
  apply bool_decide_eq_false in Heqb5. split_and!; try done; lia.
Qed.

Lemma delay_base_eq c n :
  reconnect_typed c → ReconnectConfig_validate c = Ok tt →
  delay_base c n =
    Z.min (rc_max_delay c) (rc_initial_delay c * rc_multiplier c ^ Z.max 0 (n - 1)).
Proof.
  intros Ht Hv. destruct (validated c Ht Hv) as (Hi & Hk & _). pose proof (ct_max c Ht).
  unfold delay_base, saturating_sub. rewrite (Z.max_comm (n - 1)).
  destruct (Z.ltb_spec 1 (rc_multiplier c)).
  - rewrite delay_loop_eq by lia. by rewrite Z2Nat.id by lia.
  - replace (rc_multiplier c) with 1 by lia. rewrite Z.pow_1_l by lia. lia.
Qed.

(** The reconnect delay is a bounded exponential: for every configuration
    that validation accepts and every number of failures, the delay before
    jitter is the initial delay times a power of the multiplier, cut at the
    maximum; it is never zero and never decreases with the number of failures.
    The early exit of the loop and its overflow check change nothing. *)
Theorem delay_exact c n :
  reconnect_typed c → ReconnectConfig_validate c = Ok tt →
  delay_base c n =
    Z.min (rc_max_delay c) (rc_initial_delay c * rc_multiplier c ^ Z.max 0 (n - 1)) ∧
  0 < delay_base c n ∧ ∀ n', n ≤ n' → delay_base c n ≤ delay_base c n'.
Proof.
  intros Ht Hv. destruct (validated c Ht Hv) as (Hi & Hk & _).
  rewrite delay_base_eq by done. split; [done|].
  assert (0 < rc_multiplier c ^ Z.max 0 (n - 1)) by (apply Z.pow_pos_nonneg; lia).
  split; [nia|]. intros n' Hn'. rewrite delay_base_eq by done.
  assert (rc_multiplier c ^ Z.max 0 (n - 1) ≤ rc_multiplier c ^ Z.max 0 (n' - 1))
    by (apply Z.pow_le_mono_r; lia). nia.
Qed.

Lemma default_typed : reconnect_typed ReconnectConfig_default.
Proof. by split. Qed.

Lemma delay_exact_witness :
  delay_base ReconnectConfig_default 4 = 2 * SECOND ∧
  delay_base ReconnectConfig_default 4 ≤ delay_base ReconnectConfig_default (10 ^ 9).
Proof.
  destruct (delay_exact ReconnectConfig_default 4 default_typed eq_refl) as (-> & _ & H).
  split; [done|]. apply H. lia.
Defined.

(** ** Runs of the supervisor *)

(** The failures in a row, as the policy counts them, and when the last session
    was established: a session that lasted [stable_session_reset_after] starts
    the count again. *)
Definition streak_step (c : ReconnectConfig) (st : Z * Z) (ev : Z * sv_event) : Z * Z :=
  let '(n, established_at) := st in
  match ev with
  | (now, SvConnect (Ok _)) => (n, now)
  | (now, SvConnect (Err e)) =>
      (if is_retryable e then saturating_add 32 n 1 else n, established_at)
  | (now, SvSession r) =>
      (match session_error r with
       | Some e =>
           if is_retryable e then
             saturating_add 32
               (if rc_stable_session_reset_after c <=? now - established_at then 0 else n) 1
           else n
       | None => n
       end, established_at)
  | _ => st
  end.
Definition streak (c : ReconnectConfig) (evs : list (Z * sv_event)) : Z * Z :=
  foldl (streak_step c) (0, 0) evs.

(** The failures of the run, and the sessions it established, in order. *)
Definition failures_of (ev : sv_event) : list AgentError :=
  match ev with
  | SvConnect (Err e) => [e]
  | SvSession r => option_list (session_error r)
  | _ => []
  end.
Definition sessions_of (ev : sv_event) : list TransportSessionId :=
  match ev with SvConnect (Ok id) => [id] | _ => [] end.
Definition failures (evs : list (Z * sv_event)) : list AgentError := evs.*2 ≫= failures_of.
Definition sessions (evs : list (Z * sv_event)) : list TransportSessionId := evs.*2 ≫= sessions_of.
(** The sessions that ended in a failure. *)
Definition lost_of (ev : sv_event) : list AgentError :=
  match ev with SvSession r => option_list (session_error r) | _ => [] end.
Definition lost (evs : list (Z * sv_event)) : list AgentError := evs.*2 ≫= lost_of.
Definition is_attempt (ev : sv_event) : bool := match ev with SvSlept => true | _ => false end.
Definition attempts (evs : list (Z * sv_event)) : Z :=
  zlen (filter (λ ev, is_attempt ev.2 = true) evs).

Lemma failures_snoc h x : failures (h ++ [x]) = failures h ++ failures_of x.2.
Proof. unfold failures. rewrite fmap_app, bind_app. cbn. by rewrite app_nil_r. Qed.
Lemma sessions_snoc h x : sessions (h ++ [x]) = sessions h ++ sessions_of x.2.
Proof. unfold sessions. rewrite fmap_app, bind_app. cbn. by rewrite app_nil_r. Qed.
Lemma lost_snoc h x : lost (h ++ [x]) = lost h ++ lost_of x.2.
Proof. unfold lost. rewrite fmap_app, bind_app. cbn. by rewrite app_nil_r. Qed.
Lemma attempts_snoc h x :
  attempts (h ++ [x]) = attempts h + if is_attempt x.2 then 1 else 0.
Proof.
  unfold attempts. rewrite filter_app, zlen_app. f_equal.
  destruct x as [now ev]. cbn. by destruct (is_attempt ev).
Qed.
Lemma streak_snoc c h x : streak c (h ++ [x]) = streak_step c (streak c h) x.
Proof. unfold streak. by rewrite foldl_app. Qed.

Section supervisor_runs.
Context (c : ReconnectConfig) (signal_at : option Z).

(** Why a supervisor that has run [h] is where it is. *)
Definition sv_reason (h : list (Z * sv_event)) (s : supervisor) : Prop :=
  match sv_at s with
  | SvReturned (Ok o) =>
      o = sv_outcome s ∧
      ((∃ now ev, (now, ev) ∈ h ∧ sv_signalled signal_at now = true) ∨
       ∃ now, (now, SvSession (Ok LocalShutdown)) ∈ h)
  | SvReturned (Err (Terminal e)) => last (failures h) = Some e ∧ is_retryable e = false
  | SvReturned (Err (ReconnectExhausted n e)) =>
      rc_max_attempts c = Some n ∧ sv_failures s = n ∧ last (failures h) = Some e ∧
      is_retryable e = true
  | SvReturned (Err (InvalidConfig _)) => False
  | _ => Forall (λ e, is_retryable e = true) (failures h) ∧
         ∀ n, rc_max_attempts c = Some n → sv_failures s < n
  end.

(** The state the status shows, unless the process drains. *)
Definition sv_shown (s : supervisor) : Prop :=
  let shown := rt_state (sv_telemetry s) in
  is_final shown = true ∨
  match sv_at s with
  | SvConnecting => shown = AgentConnecting
  | SvServing _ => shown = AgentConnected
  | SvBackoff => shown = AgentBackoff
  | SvReturned _ => False
  end.

Record sv_inv (h : list (Z * sv_event)) (s : supervisor) : Prop := {
  si_attempts : ro_connection_attempts (sv_outcome s) = 1 + attempts h;
  si_established : ro_established_sessions (sv_outcome s) = zlen (sessions h);
  si_reconnects : ro_successful_reconnects (sv_outcome s) = Z.max 0 (zlen (sessions h) - 1);
  si_last : ro_last_session_id (sv_outcome s) = last (sessions h);
  si_failures : sv_failures s = (streak c h).1;
  si_range : 0 ≤ sv_failures s;
  si_serving t : sv_at s = SvServing t → (streak c h).2 = t;
  si_counts : rt_supervisor (sv_telemetry s) =
    MkSupervisorCounts (1 + attempts h) (zlen (sessions h)) (Z.max 0 (zlen (sessions h) - 1))
      (zlen (lost h)) (zlen (failures h)) (sv_failures s);
  si_reason : sv_reason h s;
  si_shown : sv_shown s
}.

Lemma set_runtime_state_counts st t : rt_supervisor (set_runtime_state st t) = rt_supervisor t.
Proof. unfold set_runtime_state. repeat case_match; done. Qed.
Lemma set_runtime_state_shown st t :
  is_final (rt_state (set_runtime_state st t)) = true ∨ rt_state (set_runtime_state st t) = st.
Proof.
  unfold set_runtime_state. cbn zeta.
  match goal with |- context [if is_final (rt_state ?x) then _ else _] =>
    destruct (is_final (rt_state x)) eqn:Hf end; [by left|by right].
Qed.
Lemma status_apply_counts op t : rt_supervisor (status_apply op t) = rt_supervisor t.
Proof. by destruct op. Qed.
Lemma status_apply_shown op t :
  rt_state (status_apply op t) = AgentDraining ∨ rt_state (status_apply op t) = rt_state t.
Proof. destruct op; [by left|by right..]. Qed.

(** An event that adds nothing to the history's tallies. *)
Definition inert_event (ev : sv_event) : Prop :=
  match ev with SvStatus _ | SvSignal => True | _ => False end.

Lemma sv_inv_inert h s now ev :
  inert_event ev → sv_inv h s →
  attempts (h ++ [(now, ev)]) = attempts h ∧ sessions (h ++ [(now, ev)]) = sessions h ∧
  failures (h ++ [(now, ev)]) = failures h ∧ lost (h ++ [(now, ev)]) = lost h ∧
  streak c (h ++ [(now, ev)]) = streak c h.
Proof.
  intros Hev _. rewrite attempts_snoc, sessions_snoc, failures_snoc, lost_snoc, streak_snoc.
  destruct (streak c h). destruct ev; try done; cbn [is_attempt sessions_of failures_of lost_of snd];
    rewrite !app_nil_r, Z.add_0_r; done.
Qed.

Lemma sv_reason_weaken h x s :
  failures (h ++ [x]) = failures h → sv_reason h s → sv_reason (h ++ [x]) s.
Proof.
  unfold sv_reason. intros ->. repeat case_match; try done.
  intros [? [(n & ev & ? & ?)|[n ?]]]; (split; [done|]); [left|right]; eexists.
  - eexists. rewrite elem_of_app. by split; [left|].
  - rewrite elem_of_app. by left.
Qed.

Lemma sv_inv_status h s now op :
  sv_inv h s →
  sv_inv (h ++ [(now, SvStatus op)])
    (MkSupervisor (sv_at s) (sv_outcome s) (sv_failures s) (status_apply op (sv_telemetry s))).
Proof.
  intros Hinv. destruct (sv_inv_inert h s now (SvStatus op) I Hinv) as (Ha & Hs & Hf & Hl & Hk).
  destruct Hinv. split; cbn; rewrite ?Ha, ?Hs, ?Hl, ?Hk, ?status_apply_counts; try done.
  - by rewrite Hf.
  - apply sv_reason_weaken; [done|]. done.
  - unfold sv_shown in *. cbn in *.
    destruct (status_apply_shown op (sv_telemetry s)) as [->| ->]; [by left|done].
Qed.

Lemma sv_inv_signal h s now :
  sv_inv h s → sv_signalled signal_at now = true →
  sv_inv (h ++ [(now, SvSignal)]) (sv_return s (Ok (sv_outcome s))).
Proof.
  intros Hinv Hsig. destruct (sv_inv_inert h s now SvSignal I Hinv) as (Ha & Hs & Hf & Hl & Hk).
  destruct Hinv. split; cbn; rewrite ?Ha, ?Hs, ?Hl, ?Hk; try done.
  - by rewrite Hf.
  - split; [done|]. left. exists now, SvSignal. split; [|done]. rewrite elem_of_app. right. by left.
  - by left.
Qed.

Lemma sv_inv_slept h s now :
  sv_inv h s → sv_at s = SvBackoff → sv_signalled signal_at now = false →
  2 + attempts h < 2 ^ 64 → sv_inv (h ++ [(now, SvSlept)]) (sv_head signal_at s now).
Proof.
  intros Hinv Hat Hsig Hlen. destruct Hinv. unfold sv_head. rewrite Hsig.
  unfold sv_reason in *. rewrite Hat in *.
  assert (saturating_add 64 (ro_connection_attempts (sv_outcome s)) 1 = 1 + (attempts h + 1)) as Hn.
  { unfold saturating_add, umax. lia. }
  split; rewrite ?attempts_snoc, ?sessions_snoc, ?failures_snoc, ?lost_snoc, ?streak_snoc;
    cbn [is_attempt sessions_of failures_of lost_of snd]; rewrite ?app_nil_r; cbn; try done.
  - by destruct (streak c h).
  - rewrite set_runtime_state_counts. cbn. rewrite si_counts0. unfold store_outcome. cbn.
    by rewrite Hn, si_established0, si_reconnects0.
  - rewrite failures_snoc. cbn. by rewrite app_nil_r.
  - apply set_runtime_state_shown.
Qed.

Lemma sv_inv_established h s now id :
  sv_inv h s → sv_at s = SvConnecting → zlen (sessions h) + 1 < 2 ^ 64 →
  sv_inv (h ++ [(now, SvConnect (Ok id))]) (sv_established s now id).
Proof.
  intros Hinv Hat Hlen. destruct Hinv. unfold sv_reason in *. rewrite Hat in *.
  pose proof (zlen_nonneg (sessions h)).
  assert (saturating_add 64 (ro_established_sessions (sv_outcome s)) 1 = zlen (sessions h) + 1)
    as Hn by (unfold saturating_add, umax; lia).
  assert ((if 1 <? zlen (sessions h) + 1 then saturating_add 64 (ro_successful_reconnects (sv_outcome s)) 1
           else ro_successful_reconnects (sv_outcome s)) = Z.max 0 (zlen (sessions h) + 1 - 1)) as Hr.
  { unfold saturating_add, umax. destruct (Z.ltb_spec 1 (zlen (sessions h) + 1)); lia. }
  unfold sv_established. rewrite Hn, Hr.
  split; rewrite ?attempts_snoc, ?sessions_snoc, ?failures_snoc, ?lost_snoc, ?streak_snoc;
    cbn [is_attempt sessions_of failures_of lost_of snd]; rewrite ?app_nil_r, ?Z.add_0_r, ?zlen_snoc;
    cbn -[zlen]; rewrite ?zlen_app; try done.
  - by rewrite last_snoc.
  - by destruct (streak c h).
  - intros t [= <-]. by destruct (streak c h).
  - rewrite set_runtime_state_counts. cbn -[zlen]. rewrite si_counts0. unfold store_outcome.
    cbn -[zlen]. by rewrite si_attempts0.
  - rewrite failures_snoc. cbn. by rewrite app_nil_r.
  - apply set_runtime_state_shown.
Qed.

Context (Htyped : reconnect_typed c) (Hvalid : ReconnectConfig_validate c = Ok tt).

(** A failed connection or session: [s1] has it counted, [n] is the streak it
    extends. *)
Lemma sv_inv_failed h x s s1 e n est :
  sv_inv h s → (∀ r, sv_at s ≠ SvReturned r) →
  attempts (h ++ [x]) = attempts h → sessions (h ++ [x]) = sessions h →
  failures (h ++ [x]) = failures h ++ [e] →
  streak c (h ++ [x]) = (if is_retryable e then saturating_add 32 n 1 else sv_failures s, est) →
  rt_supervisor (sv_telemetry s1) =
    MkSupervisorCounts (1 + attempts h) (zlen (sessions h)) (Z.max 0 (zlen (sessions h) - 1))
      (zlen (lost (h ++ [x]))) (zlen (failures (h ++ [x]))) (sv_failures s) →
  sv_outcome s1 = sv_outcome s → sv_failures s1 = sv_failures s → 0 ≤ n →
  (∀ m, rc_max_attempts c = Some m → n < m) →
  sv_inv (h ++ [x]) (if is_retryable e then sv_retry c s1 n e else sv_return s1 (Err (Terminal e))).
Proof.
  intros Hinv Hpc Ha Hs Hf Hk Hcounts Ho Hsf Hn Hbudget. destruct Hinv.
  assert (Forall (λ e, is_retryable e = true) (failures h)) as Hall.
  { unfold sv_reason in si_reason0. destruct (sv_at s); [apply si_reason0..|].
    by destruct (Hpc r). }
  destruct (is_retryable e) eqn:He.
  - unfold sv_retry. set (k := saturating_add 32 n 1) in *.
    assert (0 ≤ k) by (unfold k, saturating_add, umax; lia).
    assert (∀ m, rc_max_attempts c = Some m → k ≤ m) as Hle.
    { intros m Hm. specialize (Hbudget m Hm). unfold k, saturating_add. lia. }
    unfold retry_exhausted. destruct (rc_max_attempts c) as [m|] eqn:Hm;
      [specialize (Hle m eq_refl); destruct (Z.leb_spec m k)|].
    + split; cbn; rewrite ?Ha, ?Hs, ?Hk, ?Hcounts, ?Ho; try done.
      * rewrite Hf, last_snoc, Hm. split_and!; [f_equal; lia|done..].
      * by left.
    + split; cbn; rewrite ?Ha, ?Hs, ?Hk, ?set_runtime_state_counts, ?Ho; cbn; rewrite ?Hcounts; try done.
      * rewrite Hf. split; [apply Forall_app; by repeat constructor|]. intros m' ?. simplify_eq. lia.
      * apply set_runtime_state_shown.
    + split; cbn; rewrite ?Ha, ?Hs, ?Hk, ?set_runtime_state_counts, ?Ho; cbn; rewrite ?Hcounts; try done.
      * rewrite Hf. split; [apply Forall_app; by repeat constructor|]. by rewrite Hm.
      * apply set_runtime_state_shown.
  - split; cbn; rewrite ?Ha, ?Hs, ?Hk, ?Hcounts, ?Ho, ?Hsf; try done.
    + by rewrite Hf, last_snoc.
    + by left.
Qed.

Lemma fetch_add_exact n d : 0 ≤ n → 0 ≤ d → n + d < 2 ^ 64 → fetch_add n d = n + d.
Proof. intros. unfold fetch_add. apply wrap_small. split; lia. Qed.

Lemma sv_inv_connect_failed h s now e :
  sv_inv h s → sv_at s = SvConnecting → zlen (failures h) + 1 < 2 ^ 64 →
  sv_inv (h ++ [(now, SvConnect (Err e))]) (sv_connect_failed c s e).
Proof.
  intros Hinv Hat Hlen. pose proof Hinv as [_ _ _ _ Hf Hr _ Hc Hreason _].
  unfold sv_reason in Hreason. rewrite Hat in Hreason. pose proof (zlen_nonneg (failures h)).
  unfold sv_connect_failed.
  apply (sv_inv_failed h _ s (sv_counts s count_failure) e (sv_failures s) (streak c h).2);
    try done; try apply Hreason.
  - by rewrite Hat.
  - by rewrite attempts_snoc, Z.add_0_r.
  - by rewrite sessions_snoc, app_nil_r.
  - by rewrite failures_snoc.
  - rewrite streak_snoc. destruct (streak c h) as [n est]. cbn in *. by rewrite Hf.
  - cbn. rewrite Hc, failures_snoc, lost_snoc. unfold count_failure.
    cbn [failures_of lost_of snd connection_attempts established_sessions successful_reconnects
         disconnects connection_failures consecutive_failures].
    by rewrite app_nil_r, fetch_add_exact, zlen_app by lia.
Qed.

Lemma sv_inv_session_ended h s now t r :
  sv_inv h s → sv_at s = SvServing t → zlen (failures h) + 1 < 2 ^ 64 →
  zlen (lost h) + 1 < 2 ^ 64 →
  sv_inv (h ++ [(now, SvSession r)]) (sv_session_ended c s now t r).
Proof.
  intros Hinv Hat Hlen Hlen'. pose proof Hinv as [Ho1 Ho2 Ho3 Ho4 Hf Hr Hsv Hc Hreason _].
  specialize (Hsv t Hat). unfold sv_reason in Hreason. rewrite Hat in Hreason.
  pose proof (zlen_nonneg (failures h)). pose proof (zlen_nonneg (lost h)).
  destruct (validated c Htyped Hvalid) as (_ & _ & _ & Hmax).
  unfold sv_session_ended. destruct (session_error r) as [e|] eqn:He.
  - apply (sv_inv_failed h _ s (sv_counts (sv_counts s count_disconnect) count_failure) e
      (if rc_stable_session_reset_after c <=? now - t then 0 else sv_failures s) t); try done.
    + by rewrite Hat.
    + by rewrite attempts_snoc, Z.add_0_r.
    + by rewrite sessions_snoc, app_nil_r.
    + rewrite failures_snoc. cbn. by rewrite He.
    + rewrite streak_snoc. destruct (streak c h) as [n est]. cbn in *. subst est. by rewrite He, Hf.
    + cbn. rewrite Hc, failures_snoc, lost_snoc. unfold count_failure, count_disconnect.
      cbn [failures_of lost_of snd connection_attempts established_sessions successful_reconnects
           disconnects connection_failures consecutive_failures]. rewrite He. by rewrite !fetch_add_exact, !zlen_app by lia.
    + case_match; lia.
    + intros m Hm. case_match; [|by apply Hreason]. pose proof (ct_attempts c Htyped m Hm) as [? ?].
      destruct (decide (m = 0)); [congruence|lia].
  - assert (r = Ok LocalShutdown) as -> by (destruct r as [[]|]; done).
    split; rewrite ?attempts_snoc, ?sessions_snoc, ?failures_snoc, ?lost_snoc, ?streak_snoc;
      cbn [is_attempt sessions_of failures_of lost_of snd]; cbn; rewrite ?app_nil_r, ?Z.add_0_r; try done.
    + by destruct (streak c h).
    + split; [done|]. right. exists now. rewrite elem_of_app. right. by left.
    + by left.
Qed.

Lemma tallies_le h :
  attempts h ≤ zlen h ∧ zlen (sessions h) ≤ zlen h ∧ zlen (failures h) ≤ zlen h ∧
  zlen (lost h) ≤ zlen h.
Proof.
  induction h as [|x h IH] using rev_ind; [by vm_compute|].
  rewrite attempts_snoc, sessions_snoc, failures_snoc, lost_snoc, !zlen_app.
  assert (∀ r, zlen (option_list (session_error r)) ≤ 1) as Hle
    by (intros r; by destruct (session_error r)).
  assert (zlen [x] = 1) as -> by done.
  assert (zlen (sessions_of x.2) ≤ 1 ∧ zlen (failures_of x.2) ≤ 1 ∧ zlen (lost_of x.2) ≤ 1)
    by (destruct x as [now [[]|r| | |]]; cbn; split_and!; done || apply Hle).
  destruct (is_attempt x.2); lia.
Qed.

Lemma sv_inv_step h s now ev s' :
  sv_inv h s → zlen h + 2 < 2 ^ 64 → sv_step c signal_at s now ev = Some s' →
  sv_inv (h ++ [(now, ev)]) s'.
Proof.
  intros Hinv Hlen Hstep. pose proof (tallies_le h) as (? & ? & ? & ?).
  unfold sv_step in Hstep. destruct (sv_at s) eqn:Hat, ev as [cr|sr| | |op]; simplify_eq;
    try (by apply sv_inv_status); destruct (sv_signalled signal_at now) eqn:Hsig; simplify_eq.
  all: try (by rewrite <-Hat; apply sv_inv_status).
  - destruct cr; simplify_eq; [apply sv_inv_established|apply sv_inv_connect_failed]; auto; lia.
  - by apply sv_inv_signal.
  - apply sv_inv_session_ended; auto; lia.
  - apply sv_inv_session_ended; auto; lia.
  - apply sv_inv_slept; auto; lia.
  - by apply sv_inv_signal.
Qed.

Lemma sv_inv_run h s evs s' :
  sv_inv h s → zlen h + zlen evs + 1 < 2 ^ 64 → sv_run c signal_at s evs = Some s' →
  sv_inv (h ++ evs) s'.
Proof.
  revert h s. induction evs as [|[now ev] evs IH]; intros h s Hinv Hlen Hrun; cbn in Hrun.
  { simplify_eq. by rewrite app_nil_r. }
  rewrite zlen_cons in Hlen. pose proof (zlen_nonneg evs).
  destruct (sv_step c signal_at s now ev) as [s1|] eqn:Hstep; [|done].
  rewrite (assoc app h [(now, ev)] evs). eapply IH; [by eapply sv_inv_step; [|lia|]| |done].
  rewrite zlen_app. assert (zlen [(now, ev)] = 1) by done. lia.
Qed.

Lemma sv_inv_start now :
  sv_signalled signal_at now = false → sv_inv [] (sv_start signal_at now).
Proof.
  intros Hsig. unfold sv_start, sv_head. rewrite Hsig. split; try done.
  - split; [constructor|]. intros n Hn. pose proof (ct_attempts c Htyped n Hn) as [? ?].
    destruct (validated c Htyped Hvalid) as (_ & _ & _ & Hmax).
    cbn. destruct (decide (n = 0)); [congruence|lia].
  - by right.
Qed.

End supervisor_runs.

(** C21. The supervisor does what its policy says, over every run: its outcome and
    the published counters are exact counts of attempts, sessions, reconnects,
    lost sessions and failures; the failures in a row are those since the last
    session that was stable; it gives up exactly at the configured number of
    them, with the last error; it stops at once on an error that is not worth
    retrying, and on no other; it ends well only on the shutdown signal or after
    a session closed by it; and the state shown to the operator is its own,
    unless the process is draining or stopped.  The shutdown signal is assumed not
    to be set before the start, and the run to have fewer than [2 ^ 64] events. *)
Theorem supervisor_exact c signal_at start evs s :
  reconnect_typed c → ReconnectConfig_validate c = Ok tt →
  sv_signalled signal_at start = false → zlen evs + 1 < 2 ^ 64 →
  sv_run c signal_at (sv_start signal_at start) evs = Some s →
  let n := zlen (sessions evs) in
  sv_outcome s = MkOutcome (1 + attempts evs) n (Z.max 0 (n - 1)) (last (sessions evs)) ∧
  rt_supervisor (sv_telemetry s) =
    MkSupervisorCounts (1 + attempts evs) n (Z.max 0 (n - 1)) (zlen (lost evs))
      (zlen (failures evs)) (streak c evs).1 ∧
  sv_failures s = (streak c evs).1 ∧ sv_reason c signal_at evs s ∧ sv_shown s.
Proof.
  intros Ht Hv Hsig Hlen Hrun.
  pose proof (sv_inv_run c signal_at Ht Hv [] _ evs s (sv_inv_start c signal_at Ht Hv start Hsig)
    ltac:(rewrite (@zlen_nil (Z * sv_event)); lia) Hrun) as [H1 H2 H3 H4 H5 _ _ H8 H9 H10].
  cbn zeta. cbn [app] in *. split_and!; [|by rewrite H8, H5|done..].
  destruct (sv_outcome s); cbn in *. by subst.
Qed.

(** A refused first attempt, a short session, and then the limit of two. *)
Definition two_attempts : ReconnectConfig :=
  MkReconnect (250 * 10 ^ 6) (30 * SECOND) 2 20 (30 * SECOND) (Some 2).
Definition short_lived : list (Z * sv_event) :=
  [(1, SvConnect (Err AE_ConnectTimeout)); (2, SvStatus (StRequire true)); (3, SvSlept);
   (4, SvConnect (Ok (MkSessionId 7))); (5, SvSession (Ok PeerClosed))].
Definition gave_up : supervisor :=
  MkSupervisor (SvReturned (Err (ReconnectExhausted 2 AE_ConnectionClosed)))
    (MkOutcome 2 1 0 (Some (MkSessionId 7))) 2
    (MkRuntimeTelemetry AgentStopped (MkSupervisorCounts 2 1 0 1 2 2)
       (MkProbeCounts 0 0 0 0 0 0 0 0) ReachPending true (MkMonitorCounts 0 0 0 0 0)).

Lemma supervisor_exact_witness :
  sv_run two_attempts None (sv_start None 0) short_lived = Some gave_up ∧
  rc_max_attempts two_attempts = Some 2 ∧ last (failures short_lived) = Some AE_ConnectionClosed.
Proof.
  assert (sv_run two_attempts None (sv_start None 0) short_lived = Some gave_up) as Hrun
    by by vm_compute.
  split; [exact Hrun|].
  destruct (supervisor_exact two_attempts None 0 short_lived gave_up
    ltac:(split; try done; by intros n [= <-]) eq_refl eq_refl eq_refl Hrun)
    as (_ & _ & _ & (H1 & _ & H3 & _) & _).
  split; [exact H1|exact H3].
Defined.

(** ** The state under concurrency *)

(** [set_runtime_state] at the grain of its atomic operations, while the process
    may start to drain and the guard may be dropped. *)
Inductive cas_pc : Type :=
| CasIdle
| CasTry (current target : AgentConnectionState).   (** before [compare_exchange_weak] *)

Record cas : Type := MkCas { cas_cell : AgentConnectionState; cas_at : cas_pc }.

Inductive cas_action : Type :=
| CasCall (target : AgentConnectionState)   (** the first load *)
| CasExchange (spurious : bool)
| CasDrain
| CasStop.

(** The test at the head of the loop. *)
Definition cas_loop (cell target : AgentConnectionState) : cas :=
  MkCas cell (if is_final cell then CasIdle else CasTry cell target).

Definition cas_step (s : cas) (a : cas_action) : option cas :=
  match a, cas_at s with
  | CasDrain, pc => Some (MkCas AgentDraining pc)
  | CasStop, pc => Some (MkCas AgentStopped pc)
  | CasCall target, CasIdle => Some (cas_loop (cas_cell s) target)
  | CasExchange spurious, CasTry current target =>
      Some (if bool_decide (cas_cell s = current) && negb spurious then MkCas target CasIdle
            else cas_loop (cas_cell s) target)
  | _, _ => None
  end.

Fixpoint cas_run (s : cas) (acts : list cas_action) : option cas :=
  match acts with
  | [] => Some s
  | a :: acts => match cas_step s a with Some s' => cas_run s' acts | None => None end
  end.

(** The operations that take effect, in order: a call takes effect when it
    returns. *)
Definition cas_effect (s : cas) (a : cas_action) (s' : cas)
    : list (AgentConnectionState → AgentConnectionState) :=
  match a, cas_at s' with
  | CasDrain, _ => [λ _, AgentDraining]
  | CasStop, _ => [λ _, AgentStopped]
  | CasCall target, CasIdle => [λ cell, if is_final cell then cell else target]
  | CasExchange _, CasIdle =>
      match cas_at s with
      | CasTry _ target => [λ cell, if is_final cell then cell else target]
      | CasIdle => []
      end
  | _, _ => []
  end.
Fixpoint cas_effects (s : cas) (acts : list cas_action)
    : list (AgentConnectionState → AgentConnectionState) :=
  match acts with
  | [] => []
  | a :: acts =>
      match cas_step s a with Some s' => cas_effect s a s' ++ cas_effects s' acts | None => [] end
  end.

Definition cas_inv (s : cas) : Prop :=
  match cas_at s with CasTry current _ => is_final current = false | CasIdle => True end.

Lemma cas_step_spec s a s' :
  cas_inv s → cas_step s a = Some s' →
  cas_inv s' ∧ cas_cell s' = foldl (λ cell f, f cell) (cas_cell s) (cas_effect s a s') ∧
  (is_final (cas_cell s) = true → is_final (cas_cell s') = true) ∧
  (a = CasDrain ∨ a = CasStop → is_final (cas_cell s') = true).
Proof.
  unfold cas_inv, cas_effect. intros Hinv Hstep.
  destruct s as [cell pc], a, pc as [|current target']; cbn in *; simplify_eq/=; try naive_solver.
  - unfold cas_loop. destruct (is_final cell) eqn:Hf; cbn; rewrite ?Hf; naive_solver.
  - unfold cas_loop. destruct (decide (cell = current)) as [->|Hne].
    + rewrite bool_decide_true by done. destruct spurious; cbn; rewrite ?Hinv; cbn;
        rewrite ?Hinv; naive_solver.
    + rewrite bool_decide_false by done. cbn. destruct (is_final cell) eqn:Hf; cbn;
        rewrite ?Hf; naive_solver.
Qed.

(** C39. The published state is linearizable, and the two final states, draining
    and stopped, are left for each other only.
    Whatever the interleaving of [set_runtime_state], its spurious failures, the
    start of a drain and the drop of the guard, the state is the one obtained by
    performing the completed operations one after the other, each setting its
    state unless the process drains or has stopped; and once the process has
    begun to drain or stopped, no later or pending call makes it anything but one
    of these two. *)
Theorem status_linearizable s acts s' :
  cas_inv s → cas_run s acts = Some s' →
  cas_cell s' = foldl (λ cell f, f cell) (cas_cell s) (cas_effects s acts) ∧
  (is_final (cas_cell s) = true ∨ CasDrain ∈ acts ∨ CasStop ∈ acts →
   is_final (cas_cell s') = true).
Proof.
  revert s. induction acts as [|a acts IH]; intros s Hinv Hrun; cbn in *.
  { simplify_eq. split; [done|]. rewrite !elem_of_nil. naive_solver. }
  destruct (cas_step s a) as [s1|] eqn:Hstep; [|done].
  destruct (cas_step_spec s a s1 Hinv Hstep) as (Hinv1 & Hc & Hf & Ha).
  destruct (IH s1 Hinv1 Hrun) as [Hcell Hfin]. rewrite foldl_app, <-Hc. split; [done|].
  rewrite !elem_of_cons. intros H. apply Hfin. naive_solver.
Qed.

Lemma status_linearizable_witness :
  cas_run (MkCas AgentConnected CasIdle)
    [CasCall AgentBackoff; CasExchange true; CasDrain; CasExchange false; CasCall AgentConnecting]
    = Some (MkCas AgentDraining CasIdle) ∧ is_final AgentDraining = true.
Proof.
  split; [done|].
  apply (status_linearizable (MkCas AgentConnected CasIdle)
    [CasCall AgentBackoff; CasExchange true; CasDrain; CasExchange false; CasCall AgentConnecting]
    (MkCas AgentDraining CasIdle) I eq_refl).
  right. left. do 2 right. by left.
Defined.

(** ** Two surprises *)

(** A monitored Agent that was reachable loses its session, reconnects, and has
    not been probed again. *)
Definition reconnected : list (Z * sv_event) :=
  [(0, SvStatus (StRequire true)); (1, SvConnect (Ok (MkSessionId 1))); (2, SvStatus (StSuccess 1));
   (3, SvSession (Ok PeerClosed)); (4, SvSlept); (5, SvConnect (Ok (MkSessionId 2)))].
Definition probe_refused : Z * sv_event := (6, SvStatus (StMonitorFailure FailRouteUnavailable 3)).

(** A failed probe makes a reconnected Agent ready.  After a monitored
    reconnect the Agent is not ready, because no fresh proof has arrived; one
    failed probe below the threshold then shows it as degraded, which counts as
    ready, although still no proof has arrived. *)
Theorem failed_probe_restores_readiness :
  (∃ s, sv_run ReconnectConfig_default None (sv_start None 0) reconnected = Some s ∧
     rt_reachability (sv_telemetry s) = ReachPending ∧ is_ready (sv_telemetry s) = false) ∧
  (∃ s, sv_run ReconnectConfig_default None (sv_start None 0) (reconnected ++ [probe_refused])
          = Some s ∧
     rt_reachability (sv_telemetry s) = ReachDegraded ∧ is_ready (sv_telemetry s) = true ∧
     pr_successes (rt_probe (sv_telemetry s)) = 1).
Proof. split; eexists; (split; [by vm_compute|]); by vm_compute. Qed.

Lemma read_registered_not_io d e : read_registered d ≠ Err (AE_SessionIo e).
Proof.
  unfold read_registered. destruct d as [[f|]|]; [|done..].
  case_decide; [done|]. destruct (negb _); [done|]. destruct (negb _); [done|].
  by destruct (TransportSessionId_from_be_bytes _).
Qed.

(** A TLS rejection that surfaces while the Agent writes is retried.  The
    handshake turns every write error into text before it is classified, so that
    the case of [normalize_tls_handshake_error] for write errors is never taken:
    an alert read from the Edge ends the process as a rejected identity, and the
    same alert met while writing is a transient failure that is retried. *)
Theorem write_rejection_is_retried to_string :
  (∀ registration w r e, (perform_handshake registration w r).2 = HsDone (Err (AE_SessionIo e)) →
     normalize_tls_handshake_error to_string (AE_SessionIo e) true = AE_SessionIo e ∧
     is_retryable (AE_SessionIo e) = true) ∧
  (let alert := IoFailed KindInvalidData in
   (perform_handshake (MkRegistrationRequest (MkAgentId (bstr "a")) (MkTunnelId (bstr "t")))
      (Writer [] (Some (0%nat, alert)) None) []).2 = HsDone (Err (AE_SessionIo IO_OTHER)) ∧
   (perform_handshake (MkRegistrationRequest (MkAgentId (bstr "a")) (MkTunnelId (bstr "t")))
      (sound []) [ReadErr alert]).2 = HsDone (Err (AE_ProtocolDecode (PE_Io alert))) ∧
   is_retryable (normalize_tls_handshake_error to_string (AE_ProtocolDecode (PE_Io alert)) true)
     = false).
Proof.
  split; [|cbn zeta; split_and!; by vm_compute].
  assert (∀ frame w next e, (hs_send frame w next).2 = HsDone (Err (AE_SessionIo e)) →
    e = IO_OTHER ∨ ∃ w', (next w').2 = HsDone (Err (AE_SessionIo e))) as Hsend.
  { intros frame w next e. unfold hs_send. destruct frame as [f|]; [|done].
    destruct (encode w f) as [w' [n|]]; [by eauto|]. intros [= <-]. by left. }
  intros registration w r e [->|[w1 H1]]%Hsend; [done|].
  apply Hsend in H1 as [->|[w2 H2]]; [done|]. exfalso. cbn [snd] in H2.
  destruct (decode FrameDecoder_new r) as [[[d|] ?] ?]; [|done]. injection H2 as H2.
  by apply read_registered_not_io in H2.
Qed.
