(* ===== verification/LocalTarget.v ===== *)
(** * LocalTarget: reloadable local targets of managed tunnels

    [crates/agent/src/local_target.rs]: the map from tunnels to local addresses
    behind a lock, its construction, its replacement by a newer generation, and
    the handle through which a stream reads its target.  [BTreeMap::keys] of two
    maps agree exactly when the maps have the same domain. *)

From S2P Require Import Prelude Net Identity AgentHandshake.

Definition MAX_MANAGED_HTTP_TUNNELS : Z := 16.

Inductive TunnelTargetReloadHealth : Type := TargetsDisabled | TargetsHealthy | TargetsReloadFailed.

#[global] Instance TunnelTargetReloadHealth_eq_dec : EqDecision TunnelTargetReloadHealth.
Proof. solve_decision. Defined.

Abbreviation Targets := (gmap TunnelId SocketAddr).

Record TunnelTargetState : Type := MkTargetState {
  ts_generation : Z;
  ts_manifest_digest : bytes;
  ts_targets : Targets;
  ts_health : TunnelTargetReloadHealth;
  ts_successful_reloads : Z;
  ts_failed_reloads : Z
}.

Inductive TunnelTargetApplyOutcome : Type := TargetsApplied | TargetsUnchanged.

Inductive TunnelTargetSetError : Type :=
| TT_Empty
| TT_TooMany
| TT_NonLoopback
| TT_ZeroPort
| TT_ZeroGeneration
| TT_UnknownTunnel
| TT_ReloadDisabled
| TT_StaleGeneration (current received : Z)
| TT_ConflictingGeneration (generation : Z)
| TT_TunnelSetChanged.

Abbreviation TResult := (Result TunnelTargetSetError).

Definition validate_targets (targets : Targets) : TResult unit :=
  if bool_decide (targets = ∅) then Err TT_Empty
  else if MAX_MANAGED_HTTP_TUNNELS <? Z.of_nat (size targets) then Err TT_TooMany
  else if existsb (λ p, negb (is_loopback (sa_ip p.2))) (map_to_list targets) then Err TT_NonLoopback
  else if existsb (λ p, sa_port p.2 =? 0) (map_to_list targets) then Err TT_ZeroPort
  else Ok tt.

(** [TunnelTargetSet::fixed] and [TunnelTargetSet::reloadable]. *)
Definition targets_fixed (targets : Targets) : TResult TunnelTargetState :=
  validate_targets targets ;;
  Ok (MkTargetState 0 (replicate 32 x00%byte) targets TargetsDisabled 0 0).
Definition targets_reloadable (generation : Z) (manifest_digest : bytes) (targets : Targets)
    : TResult TunnelTargetState :=
  if generation =? 0 then Err TT_ZeroGeneration
  else
    validate_targets targets ;;
    Ok (MkTargetState generation manifest_digest targets TargetsHealthy 0 0).

(** A handle names its tunnel and shares the set. *)
Record TunnelTarget : Type := MkTarget {
  tt_tunnel_id : TunnelId;
  tt_fallback : SocketAddr
}.

Definition targets_target (tunnel_id : TunnelId) (s : TunnelTargetState) : TResult TunnelTarget :=
  fallback ← ok_or TT_UnknownTunnel (ts_targets s !! tunnel_id);
  Ok (MkTarget tunnel_id fallback).

Definition target_current (t : TunnelTarget) (s : TunnelTargetState) : SocketAddr :=
  default (tt_fallback t) (ts_targets s !! tt_tunnel_id t).

(** [TunnelTargetSet::apply], with the state it leaves. *)
Definition targets_apply (generation : Z) (manifest_digest : bytes) (targets : Targets)
    (s : TunnelTargetState) : TResult TunnelTargetApplyOutcome * TunnelTargetState :=
  if generation =? 0 then (Err TT_ZeroGeneration, s)
  else
    match validate_targets targets with
    | Err e => (Err e, s)
    | Ok _ =>
        if bool_decide (ts_health s = TargetsDisabled) then (Err TT_ReloadDisabled, s)
        else if generation <? ts_generation s
        then (Err (TT_StaleGeneration (ts_generation s) generation), s)
        else if generation =? ts_generation s then
          if negb (bool_decide (manifest_digest = ts_manifest_digest s))
          then (Err (TT_ConflictingGeneration generation), s)
          else
            (Ok TargetsUnchanged,
             MkTargetState (ts_generation s) (ts_manifest_digest s) (ts_targets s) TargetsHealthy
               (ts_successful_reloads s) (ts_failed_reloads s))
        else if negb (bool_decide (dom (ts_targets s) = dom targets))
        then (Err TT_TunnelSetChanged, s)
        else
          (Ok TargetsApplied,
           MkTargetState generation manifest_digest targets TargetsHealthy
             (saturating_add 64 (ts_successful_reloads s) 1) (ts_failed_reloads s))
    end.

Definition record_reload_failure (s : TunnelTargetState) : TunnelTargetState :=
  if bool_decide (ts_health s = TargetsDisabled) then s
  else MkTargetState (ts_generation s) (ts_manifest_digest s) (ts_targets s) TargetsReloadFailed
         (ts_successful_reloads s) (saturating_add 64 (ts_failed_reloads s) 1).

(** ** Reloads over time *)

Inductive target_step : TunnelTargetState → TunnelTargetState → Prop :=
| tgt_apply generation digest targets s :
    target_step s (targets_apply generation digest targets s).2
| tgt_failure s : target_step s (record_reload_failure s).

Definition target_initial (s : TunnelTargetState) : Prop :=
  (∃ targets, targets_fixed targets = Ok s) ∨
  (∃ generation digest targets, targets_reloadable generation digest targets = Ok s).

Record targets_ok (targets : Targets) : Prop := {
  to_nonempty : targets ≠ ∅;
  to_bounded : Z.of_nat (size targets) ≤ MAX_MANAGED_HTTP_TUNNELS;
  to_local : ∀ t addr, targets !! t = Some addr → is_loopback (sa_ip addr) = true ∧ sa_port addr ≠ 0
}.

Lemma existsb_map_false {A} (f : TunnelId * A → bool) (m : gmap TunnelId A) :
  existsb f (map_to_list m) = false ↔ ∀ t a, m !! t = Some a → f (t, a) = false.
Proof.
  rewrite <-not_true_iff_false, existsb_exists. split.
  - intros Hn t a Hl. apply not_true_iff_false. intros Hf. apply Hn. exists (t, a).
    split; [|done]. by apply list_elem_of_In, elem_of_map_to_list.
  - intros Hall ([t a] & Hin & Hf). apply list_elem_of_In, elem_of_map_to_list in Hin.
    by rewrite Hall in Hf.
Qed.

Lemma validate_targets_Ok targets : validate_targets targets = Ok tt ↔ targets_ok targets.
Proof.
  unfold validate_targets. split.
  - intros Hv. case_bool_decide; [done|]. destruct (Z.ltb_spec MAX_MANAGED_HTTP_TUNNELS (Z.of_nat (size targets)));
      [done|].
    destruct (existsb (λ p, negb (is_loopback (sa_ip p.2))) _) eqn:Hl; [done|].
    destruct (existsb (λ p, sa_port p.2 =? 0) _) eqn:Hp; [done|].
    split; [done|done|]. intros t addr Ht. split.
    + by apply negb_false_iff, (proj1 (existsb_map_false _ _) Hl t).
    + by apply Z.eqb_neq, (proj1 (existsb_map_false _ _) Hp t).
  - intros [Hne Hb Hl]. rewrite bool_decide_false, (proj2 (Z.ltb_ge _ _)) by done.
    rewrite (proj2 (existsb_map_false _ _)); [rewrite (proj2 (existsb_map_false _ _)); [done|]|].
    + intros t addr Ht. by apply Z.eqb_neq, (Hl t).
    + intros t addr Ht. by apply negb_false_iff, (Hl t).
Qed.

(** One state is a later one of the other. *)
Record target_later (s s' : TunnelTargetState) : Prop := {
  tl_domain : dom (ts_targets s') = dom (ts_targets s);
  tl_generation : ts_generation s ≤ ts_generation s';
  tl_same : ts_generation s = ts_generation s' →
            ts_targets s' = ts_targets s ∧ ts_manifest_digest s' = ts_manifest_digest s;
  tl_disabled : ts_health s = TargetsDisabled → s' = s;
  tl_ok : targets_ok (ts_targets s) → targets_ok (ts_targets s')
}.

#[global] Instance target_later_preorder : PreOrder target_later.
Proof.
  split; [by split|]. intros x y z [Hd1 Hg1 Hs1 Hx1 Ho1] [Hd2 Hg2 Hs2 Hx2 Ho2].
  split; [congruence|lia| | |auto].
  - intros Heq. destruct Hs1 as [? ?], Hs2 as [? ?]; [lia..|]. split; congruence.
  - intros Hx. rewrite (Hx1 Hx) in Hx2. auto.
Qed.

Lemma target_step_later s s' : target_step s s' → target_later s s'.
Proof.
  intros [generation digest targets s0|s0].
  - unfold targets_apply. destruct (generation =? 0); [done|].
    destruct (validate_targets targets) as [[]|e] eqn:Hv; [|done].
    apply validate_targets_Ok in Hv. case_bool_decide as Hx; [done|].
    destruct (Z.ltb_spec generation (ts_generation s0)); [done|].
    destruct (Z.eqb_spec generation (ts_generation s0)).
    { case_bool_decide; cbn; [|done]. by split. }
    case_bool_decide as Hd; cbn; [|done]. split; cbn; [done|lia|lia|done|done].
  - unfold record_reload_failure. case_bool_decide; [done|]. by split.
Qed.

Lemma target_initial_ok s : target_initial s → targets_ok (ts_targets s).
Proof.
  intros [(targets & Hi)|(generation & digest & targets & Hi)].
  - unfold targets_fixed in Hi. destruct (validate_targets targets) as [[]|] eqn:Hv; [|done].
    injection Hi as <-. by apply validate_targets_Ok.
  - unfold targets_reloadable in Hi. case_match; [done|].
    destruct (validate_targets targets) as [[]|] eqn:Hv; [|done].
    injection Hi as <-. by apply validate_targets_Ok.
Qed.

(** C38. A stream always reaches a local service of its own tunnel.  Take a handle
    from a target set at any time and read it after any further reloads and
    failures, accepted or refused: the address it yields is the one the set then
    holds for that tunnel, never the remembered fallback, a loopback address with
    a port; the tunnels of the set are those it was created with; generations
    never go back, and a generation stands for one map and digest; a set created
    without reload never changes. *)
Theorem local_targets_safe s0 s1 s2 tunnel_id t :
  target_initial s0 → rtc target_step s0 s1 → rtc target_step s1 s2 →
  targets_target tunnel_id s1 = Ok t →
  ts_targets s2 !! tunnel_id = Some (target_current t s2) ∧
  is_loopback (sa_ip (target_current t s2)) = true ∧ sa_port (target_current t s2) ≠ 0 ∧
  dom (ts_targets s2) = dom (ts_targets s0) ∧
  Z.of_nat (size (ts_targets s2)) ≤ MAX_MANAGED_HTTP_TUNNELS ∧
  ts_generation s1 ≤ ts_generation s2 ∧
  (ts_generation s1 = ts_generation s2 →
     ts_targets s2 = ts_targets s1 ∧ ts_manifest_digest s2 = ts_manifest_digest s1) ∧
  (ts_health s0 = TargetsDisabled → s2 = s0).
Proof.
  intros Hi H1 H2 Ht.
  assert (∀ x y, rtc target_step x y → target_later x y) as Hlater.
  { induction 1; [done|]. etrans; [by apply target_step_later|done]. }
  pose proof (Hlater _ _ H1) as L1. pose proof (Hlater _ _ H2) as L2.
  assert (target_later s0 s2) as L by (by etrans).
  pose proof (tl_ok _ _ L (target_initial_ok _ Hi)) as [_ Hb Hlocal].
  unfold targets_target in Ht. destruct (ts_targets s1 !! tunnel_id) as [addr|] eqn:Hl; [|done].
  injection Ht as <-. unfold target_current. cbn.
  assert (tunnel_id ∈ dom (ts_targets s2)) as [a Ha]%elem_of_dom.
  { rewrite (tl_domain _ _ L2). apply elem_of_dom. by eexists. }
  rewrite Ha. cbn. destruct (Hlocal _ _ Ha).
  split_and!; [done..|by apply L|done|by apply L2|by apply L2|by apply L].
Qed.

(** ** A reload on concrete values *)

Definition sample_targets (port : Z) : Targets :=
  {[ MkTunnelId (bstr "web") := MkSocketAddr (V4 2130706433) port ]}.
Definition sample_set : TunnelTargetState :=
  MkTargetState 1 (replicate 32 x01%byte) (sample_targets 3000) TargetsHealthy 0 0.
Definition sample_reloaded : TunnelTargetState :=
  (targets_apply 2 (replicate 32 x02%byte) (sample_targets 4000) sample_set).2.

Lemma local_targets_safe_witness :
  target_current (MkTarget (MkTunnelId (bstr "web")) (MkSocketAddr (V4 2130706433) 3000)) sample_reloaded
    = MkSocketAddr (V4 2130706433) 4000 ∧
  ts_targets sample_reloaded !! MkTunnelId (bstr "web") =
    Some (target_current (MkTarget (MkTunnelId (bstr "web")) (MkSocketAddr (V4 2130706433) 3000)) sample_reloaded).
Proof.
  split; [vm_compute; reflexivity|].
  apply (local_targets_safe sample_set sample_set sample_reloaded (MkTunnelId (bstr "web"))
    (MkTarget (MkTunnelId (bstr "web")) (MkSocketAddr (V4 2130706433) 3000))).
  - right. exists 1, (replicate 32 x01%byte), (sample_targets 3000). vm_compute. reflexivity.
  - apply rtc_refl.
  - apply rtc_once. apply tgt_apply.
  - vm_compute. reflexivity.
Defined.
