(* ===== verification/SnapshotCodec.v ===== *)
(** * SnapshotCodec: the binary encoding of snapshots

    [crates/control-plane/src/snapshot_codec.rs]. *)

From S2P Require Import Prelude Text AsyncIo Identity Cursor Authorization.

Definition MAX_SNAPSHOT_BYTES : Z := 1024 * 1024.
Definition MAX_AGENTS_PER_SNAPSHOT : Z := 4096.
Definition MAX_TUNNELS_PER_AGENT : Z := 4096.

(** [SC_Panic] stands for the panic of an [expect]; the other constructors are
    those of [SnapshotCodecError]. *)
Inductive SnapshotCodecError : Type :=
| SC_TooLarge (n : Z)
| SC_TooManyAgents (n : Z)
| SC_TooManyTunnels (n : Z)
| SC_Truncated
| SC_TrailingBytes
| SC_InvalidVersion
| SC_InvalidUtf8
| SC_InvalidId
| SC_InvalidStatus
| SC_InvalidSnapshot (e : SnapshotError)
| SC_Panic.

#[global] Instance SnapshotCodecError_eq_dec : EqDecision SnapshotCodecError.
Proof. solve_decision. Defined.

Abbreviation CResult := (Result SnapshotCodecError).

(** ** Encoding *)

Definition push_id (output : bytes) (value : str) : CResult bytes :=
  len ← ok_or SC_Panic (u_try_from 16 (zlen value));
  Ok (output ++ to_be 2 len ++ value).

Definition ensure_encoded_size (output : bytes) : CResult unit :=
  if MAX_SNAPSHOT_BYTES <? zlen output then Err (SC_TooLarge (zlen output)) else Ok tt.

Definition status_byte (s : TunnelStatus) : Z := match s with Enabled => 1 | Disabled => 2 end.

(** The loop over the tunnels of a grant. *)
Fixpoint encode_tunnels (output : bytes) (ts : list TunnelGrant) : CResult bytes :=
  match ts with
  | [] => Ok output
  | tunnel :: ts =>
      output ← push_id output (tunnel_str (tg_tunnel_id tunnel));
      let output := output ++ to_be 1 (status_byte (tg_status tunnel)) in
      _ ← ensure_encoded_size output;
      encode_tunnels output ts
  end.

(** The loop over the grants. *)
Fixpoint encode_grants (output : bytes) (gs : list AgentGrant) : CResult bytes :=
  match gs with
  | [] => Ok output
  | grant :: gs =>
      let output := output ++ fp_bytes (ag_certificate grant) in
      output ← push_id output (agent_str (ag_agent_id grant));
      _ ← ensure_encoded_size output;
      if MAX_TUNNELS_PER_AGENT <? zlen (ag_tunnels grant)
      then Err (SC_TooManyTunnels (zlen (ag_tunnels grant)))
      else
        let output := output ++ to_be 2 (wrap 16 (zlen (ag_tunnels grant))) in
        output ← encode_tunnels output (ag_tunnels grant);
        encode_grants output gs
  end.

Definition encode_snapshot (snapshot : AuthorizationSnapshot) : CResult bytes :=
  let gs := grants snapshot in
  if MAX_AGENTS_PER_SNAPSHOT <? zlen gs then Err (SC_TooManyAgents (zlen gs))
  else encode_grants (to_be 4 (wrap 32 (zlen gs))) gs.

Definition encode_versioned_snapshot (v : VersionedAuthorizationSnapshot) : CResult bytes :=
  payload ← encode_snapshot (va_snapshot v);
  total ← ok_or (SC_TooLarge (umax USIZE_BITS)) (checked_add USIZE_BITS (zlen payload) 8);
  if MAX_SNAPSHOT_BYTES <? total then Err (SC_TooLarge total)
  else Ok (to_be 8 (version_raw (va_version v)) ++ payload).

(** ** Decoding *)

Abbreviation SParser := (Parser SnapshotCodecError).
Abbreviation s_id := (p_string SC_Truncated 2 SC_InvalidUtf8).

Definition parse_tunnel : SParser TunnelGrant :=
  raw ← s_id;
  tunnel_id ← p_lift (map_err (λ _, SC_InvalidId) (TunnelId_new raw));
  tag ← p_u8 SC_Truncated;
  status ← p_lift (match tag with
                   | 1 => Ok Enabled
                   | 2 => Ok Disabled
                   | _ => Err SC_InvalidStatus
                   end);
  mret (MkTunnelGrant tunnel_id status).

Definition parse_grant : SParser AgentGrant :=
  certificate ← p_array SC_Truncated 32;
  raw ← s_id;
  agent_id ← p_lift (map_err (λ _, SC_InvalidId) (AgentId_new raw));
  tunnel_count ← p_u16 SC_Truncated;
  if MAX_TUNNELS_PER_AGENT <? tunnel_count
  then p_lift (Err (SC_TooManyTunnels tunnel_count))
  else
    tunnels ← p_repeat (Z.to_nat tunnel_count) parse_tunnel;
    mret (MkAgentGrant (MkFingerprint certificate) agent_id tunnels).

Definition parse_grants : SParser (list AgentGrant) :=
  agent_count ← p_u32 SC_Truncated;
  if MAX_AGENTS_PER_SNAPSHOT <? agent_count
  then p_lift (Err (SC_TooManyAgents agent_count))
  else p_repeat (Z.to_nat agent_count) parse_grant.

Definition decode_snapshot (bs : bytes) : CResult AuthorizationSnapshot :=
  if MAX_SNAPSHOT_BYTES <? zlen bs then Err (SC_TooLarge (zlen bs))
  else
    gs ← parse_all parse_grants SC_TrailingBytes bs;
    map_err SC_InvalidSnapshot (AuthorizationSnapshot_new gs).

Definition decode_versioned_snapshot (bs : bytes) : CResult VersionedAuthorizationSnapshot :=
  if MAX_SNAPSHOT_BYTES <? zlen bs then Err (SC_TooLarge (zlen bs))
  else if zlen bs <? 8 then Err SC_Truncated
  else
    version ← ok_or SC_InvalidVersion (SnapshotVersion_new (from_be (take 8 bs)));
    snapshot ← decode_snapshot (drop 8 bs);
    Ok (MkVersioned version snapshot).

(** The digest function is the [sha2] crate's. *)
Definition snapshot_digest (sha256 : bytes → bytes) (s : AuthorizationSnapshot) : CResult bytes :=
  encoded ← encode_snapshot s; Ok (sha256 encoded).

(** ** Well-formed snapshots: the values the field types admit *)

Definition tunnel_grant_ok (t : TunnelGrant) : Prop := durable_id_ok (tunnel_str (tg_tunnel_id t)).
Definition agent_grant_ok (g : AgentGrant) : Prop :=
  zlen (fp_bytes (ag_certificate g)) = 32 ∧ durable_id_ok (agent_str (ag_agent_id g)) ∧
  Forall tunnel_grant_ok (ag_tunnels g).
Definition snapshot_ok (s : AuthorizationSnapshot) : Prop := Forall agent_grant_ok (grants s).

(** The bytes of each part. *)
Definition tunnel_bytes (t : TunnelGrant) : bytes :=
  (to_be 2 (zlen (tunnel_str (tg_tunnel_id t))) ++ tunnel_str (tg_tunnel_id t)) ++
  to_be 1 (status_byte (tg_status t)).
Definition grant_bytes (g : AgentGrant) : bytes :=
  fp_bytes (ag_certificate g) ++
  (to_be 2 (zlen (agent_str (ag_agent_id g))) ++ agent_str (ag_agent_id g)) ++
  to_be 2 (zlen (ag_tunnels g)) ++ mjoin (tunnel_bytes <$> ag_tunnels g).
Definition grants_bytes (gs : list AgentGrant) : bytes :=
  to_be 4 (zlen gs) ++ mjoin (grant_bytes <$> gs).

(** ** Formats *)

Lemma parse_tunnel_format :
  Format parse_tunnel (λ t s, tunnel_grant_ok t ∧ s = tunnel_bytes t).
Proof.
  eapply format_ext; [unfold parse_tunnel; format_walk|]. intros [[t] st] s. split.
  - intros (? & ? & ? & -> & (? & ? & ->) & ? & [-> ?]%map_err_Ok%TunnelId_new_Ok &
      z & ? & ? & -> & (? & ->) & st' & ? & Hst & ->). simplify_eq.
    rewrite app_nil_r. split; [done|]. unfold tunnel_bytes. cbn [tg_tunnel_id tunnel_str tg_status].
    repeat f_equal. repeat case_match; by simplify_eq.
  - intros [Hok ->]. unfold tunnel_grant_ok in Hok. cbn in Hok.
    eexists t, _, _. split_and!; [done|auto with wire..|].
    exists (MkTunnelId t). split; [auto with wire|].
    exists (status_byte st), (to_be 1 (status_byte st)), []. rewrite app_nil_r.
    split_and!; [done|by destruct st|done|]. exists st. by destruct st.
Qed.

Lemma Forall2_bytes {A} (P : A → Prop) (f : A → bytes) l ss :
  Forall2 (λ a s, P a ∧ s = f a) l ss ↔ Forall P l ∧ ss = f <$> l.
Proof.
  split.
  - induction 1 as [|a s l ss [? ->] _ [? ->]]; [done|]. by split; [constructor|].
  - intros [Hl ->]. induction Hl; constructor; auto.
Qed.

Lemma repeat_format {A} n (p : SParser A) P f :
  Format p (λ a s, P a ∧ s = f a) →
  Format (p_repeat n p) (λ l s, (length l = n ∧ Forall P l) ∧ s = mjoin (f <$> l)).
Proof.
  intros Hp. eapply format_ext; [by apply format_repeat|]. intros l s.
  setoid_rewrite Forall2_bytes. naive_solver.
Qed.

Lemma parse_grant_format :
  Format parse_grant (λ g s,
    (agent_grant_ok g ∧ zlen (ag_tunnels g) ≤ MAX_TUNNELS_PER_AGENT) ∧ s = grant_bytes g).
Proof.
  eapply format_ext.
  { unfold parse_grant. eapply format_bind; [by apply format_take|intros ? ? _].
    eapply format_bind; [apply format_string|intros ? ? _].
    apply format_lift_bind; intros ? _. eapply format_bind; [apply format_uint|intros ? ? _].
    apply format_guard, format_map, repeat_format, parse_tunnel_format. }
  intros [[c] [a] ts] s. split.
  - intros (? & ? & ? & -> & (-> & ?) & ? & ? & ? & -> & (? & ? & ->) & ? &
      [-> ?]%map_err_Ok%AgentId_new_Ok & n & ? & ? & -> & (Hn & ->) & Hmax & ts' & ? &
      (Hlen & Hts) & ->). simplify_eq. apply Z.ltb_ge in Hmax. unfold u_range in Hn.
    assert (zlen ts' = n) as <- by (unfold zlen; lia). done.
  - intros [((Hc & Ha & Hts) & Hmax) ->]. cbn [ag_certificate fp_bytes ag_agent_id agent_str ag_tunnels] in *.
    eexists c, c, _. split_and!; [done|done|done|].
    eexists a, _, _. split_and!; [done|auto with wire..|].
    exists (MkAgentId a). split; [auto with wire|].
    exists (zlen ts), (to_be 2 (zlen ts)), (mjoin (tunnel_bytes <$> ts)).
    pose proof (zlen_nonneg ts). unfold MAX_TUNNELS_PER_AGENT in *.
    split_and!; [done|unfold u_range; lia|done|by apply Z.ltb_ge|].
    exists ts. split_and!; [done|unfold zlen; lia|done|done].
Qed.

Definition grants_fit (gs : list AgentGrant) : Prop :=
  Forall (λ g, agent_grant_ok g ∧ zlen (ag_tunnels g) ≤ MAX_TUNNELS_PER_AGENT) gs ∧
  zlen gs ≤ MAX_AGENTS_PER_SNAPSHOT.

Lemma parse_grants_format :
  Format parse_grants (λ gs s, grants_fit gs ∧ s = grants_bytes gs).
Proof.
  eapply format_ext.
  { unfold parse_grants. eapply format_bind; [apply format_uint|intros ? ? _].
    apply format_guard, repeat_format, parse_grant_format. }
  intros gs s. split.
  - intros (n & ? & ? & -> & (Hn & ->) & Hmax & (Hlen & Hgs) & ->).
    apply Z.ltb_ge in Hmax. unfold u_range in Hn.
    assert (zlen gs = n) as <- by (unfold zlen; lia). done.
  - intros [[Hgs Hmax] ->]. pose proof (zlen_nonneg gs).
    unfold MAX_AGENTS_PER_SNAPSHOT in *.
    exists (zlen gs), (to_be 4 (zlen gs)), (mjoin (grant_bytes <$> gs)).
    split_and!; [done|unfold u_range; lia|done|by apply Z.ltb_ge|unfold zlen; lia|done|done].
Qed.

(** ** The encoder *)

Lemma push_id_ok out v :
  durable_id_ok v → push_id out v = Ok (out ++ to_be 2 (zlen v) ++ v).
Proof. intros Hv%durable_id_u16. unfold push_id. by rewrite u_try_from_in. Qed.

Lemma ensure_spec out :
  if decide (zlen out ≤ MAX_SNAPSHOT_BYTES) then ensure_encoded_size out = Ok tt
  else ensure_encoded_size out = Err (SC_TooLarge (zlen out)).
Proof.
  unfold ensure_encoded_size. case_decide.
  - by rewrite (proj2 (Z.ltb_ge _ _)).
  - by rewrite (proj2 (Z.ltb_lt _ _)) by lia.
Qed.

Definition tunnels_fit (out : bytes) (ts : list TunnelGrant) : Prop :=
  ts = [] ∨ zlen (out ++ mjoin (tunnel_bytes <$> ts)) ≤ MAX_SNAPSHOT_BYTES.

Lemma encode_tunnels_spec out ts :
  Forall tunnel_grant_ok ts →
  (tunnels_fit out ts ∧ encode_tunnels out ts = Ok (out ++ mjoin (tunnel_bytes <$> ts))) ∨
  (¬ tunnels_fit out ts ∧ ∃ n, encode_tunnels out ts = Err (SC_TooLarge n)).
Proof.
  unfold tunnels_fit. intros Hts. revert out.
  induction Hts as [|t ts Ht _ IH]; intros out; cbn [encode_tunnels].
  { left. cbn. rewrite app_nil_r. auto. }
  rewrite push_id_ok by done. cbn [mbind result_bind].
  replace ((out ++ _) ++ to_be 1 _) with (out ++ tunnel_bytes t)
    by (unfold tunnel_bytes; by rewrite <-!app_assoc).
  rewrite mjoin_fmap_cons, (app_assoc out (tunnel_bytes t)).
  pose proof (ensure_spec (out ++ tunnel_bytes t)) as He. case_decide as Hle; rewrite He.
  - cbn [mbind result_bind]. destruct (IH (out ++ tunnel_bytes t)) as [[Hf ->]|[Hf [n ->]]].
    + left. split; [|done]. right. destruct Hf as [->|?]; [|done].
      cbn. by rewrite app_nil_r.
    + right. split; [naive_solver|eauto].
  - right. split; [|eauto]. intros [?|Hbad]; [done|]. rewrite zlen_app in Hbad.
    pose proof (zlen_nonneg (mjoin (tunnel_bytes <$> ts))). lia.
Qed.

(** Which grant lists the encoder accepts behind [out]. *)
Fixpoint grants_accepted (out : bytes) (gs : list AgentGrant) : Prop :=
  match gs with
  | [] => True
  | g :: gs =>
      zlen (out ++ grant_bytes g) -
        (if ag_tunnels g is [] then 2 else 0) ≤ MAX_SNAPSHOT_BYTES ∧
      zlen (ag_tunnels g) ≤ MAX_TUNNELS_PER_AGENT ∧
      grants_accepted (out ++ grant_bytes g) gs
  end.

(** The two conditions under which the tunnels of one grant are reached and fit. *)
Lemma grant_fit_iff out g :
  let o1 := out ++ fp_bytes (ag_certificate g) ++
    to_be 2 (zlen (agent_str (ag_agent_id g))) ++ agent_str (ag_agent_id g) in
  (zlen o1 ≤ MAX_SNAPSHOT_BYTES ∧
   tunnels_fit (o1 ++ to_be 2 (zlen (ag_tunnels g))) (ag_tunnels g)) ↔
  zlen (out ++ grant_bytes g) - (if ag_tunnels g is [] then 2 else 0) ≤ MAX_SNAPSHOT_BYTES.
Proof.
  intros o1. unfold tunnels_fit, grant_bytes, o1. autorewrite with wire.
  destruct (ag_tunnels g) as [|t ts] eqn:E.
  - cbn [fmap list_fmap mjoin list_join]. rewrite zlen_nil. split; [lia|]. intros. split; [lia|by left].
  - pose proof (zlen_nonneg (mjoin (tunnel_bytes <$> t :: ts))).
    split; [intros [? [?|?]]; [done|lia]|]. intros. split; [lia|]. right. lia.
Qed.

Lemma encode_grants_spec out gs :
  Forall agent_grant_ok gs →
  (grants_accepted out gs ∧ encode_grants out gs = Ok (out ++ mjoin (grant_bytes <$> gs))) ∨
  (¬ grants_accepted out gs ∧ ∃ n,
     encode_grants out gs = Err (SC_TooLarge n) ∨ encode_grants out gs = Err (SC_TooManyTunnels n)).
Proof.
  intros Hgs. revert out. induction Hgs as [|g gs (Hc & Ha & Hts) _ IH]; intros out;
    cbn [encode_grants grants_accepted].
  { left. cbn. by rewrite app_nil_r. }
  pose proof (grant_fit_iff out g) as Hfit. cbv zeta in Hfit. rewrite <-Hfit. clear Hfit.
  rewrite push_id_ok by done. cbn [mbind result_bind].
  rewrite <-(app_assoc out (fp_bytes (ag_certificate g))).
  set (o1 := out ++ fp_bytes _ ++ _ ++ _).
  pose proof (ensure_spec o1) as He. case_decide as Hle; rewrite He; cbn [mbind result_bind].
  2: { right. naive_solver. }
  destruct (Z.ltb_spec MAX_TUNNELS_PER_AGENT (zlen (ag_tunnels g))).
  { right. split; [lia|eauto]. }
  assert (u_range 16 (zlen (ag_tunnels g))) as Hr.
  { pose proof (zlen_nonneg (ag_tunnels g)). unfold u_range, MAX_TUNNELS_PER_AGENT in *. lia. }
  rewrite wrap_small by done.
  destruct (encode_tunnels_spec (o1 ++ to_be 2 (zlen (ag_tunnels g))) (ag_tunnels g) Hts)
    as [[Hf ->]|[Hf [n ->]]]; cbn [mbind result_bind].
  2: { right. naive_solver. }
  replace ((o1 ++ _) ++ _) with (out ++ grant_bytes g)
    by (unfold o1, grant_bytes; by rewrite <-!app_assoc).
  rewrite mjoin_fmap_cons, (app_assoc out (grant_bytes g)).
  destruct (IH (out ++ grant_bytes g)) as [[? ->]|[? [n [->| ->]]]]; [left|right..]; naive_solver.
Qed.

Lemma grants_accepted_bound out gs :
  grants_accepted out gs →
  gs = [] ∨ zlen (out ++ mjoin (grant_bytes <$> gs)) ≤ MAX_SNAPSHOT_BYTES + 2.
Proof.
  revert out. induction gs as [|g gs IH]; intros out Hacc; [by left|right].
  destruct Hacc as (Hsz & _ & Hacc).
  rewrite mjoin_fmap_cons, (app_assoc out (grant_bytes g)). destruct (IH _ Hacc) as [->|?]; [|done].
  cbn. rewrite app_nil_r. case_match; lia.
Qed.

Lemma grants_accepted_of_size out gs :
  Forall (λ g, zlen (ag_tunnels g) ≤ MAX_TUNNELS_PER_AGENT) gs →
  zlen (out ++ mjoin (grant_bytes <$> gs)) ≤ MAX_SNAPSHOT_BYTES → grants_accepted out gs.
Proof.
  intros Hgs. revert out. induction Hgs as [|g gs Hg _ IH]; intros out Hsz; [done|].
  cbn [grants_accepted] in *. rewrite mjoin_fmap_cons in Hsz.
  rewrite (app_assoc out (grant_bytes g)) in Hsz. split_and!; [|done|by apply IH].
  rewrite zlen_app in Hsz. pose proof (zlen_nonneg (mjoin (grant_bytes <$> gs))).
  case_match; lia.
Qed.

Lemma grants_accepted_tunnels out gs :
  grants_accepted out gs → Forall (λ g, zlen (ag_tunnels g) ≤ MAX_TUNNELS_PER_AGENT) gs.
Proof. revert out. induction gs; cbn; [done|]. intros ? (? & ? & ?). constructor; eauto. Qed.

Lemma encode_snapshot_Ok s bs :
  snapshot_ok s →
  encode_snapshot s = Ok bs ↔
  zlen (grants s) ≤ MAX_AGENTS_PER_SNAPSHOT ∧
  grants_accepted (to_be 4 (zlen (grants s))) (grants s) ∧ bs = grants_bytes (grants s).
Proof.
  intros Hs. unfold encode_snapshot.
  destruct (Z.ltb_spec MAX_AGENTS_PER_SNAPSHOT (zlen (grants s))); [naive_solver lia|].
  rewrite wrap_small.
  2: { pose proof (zlen_nonneg (grants s)). unfold u_range, MAX_AGENTS_PER_SNAPSHOT in *. lia. }
  unfold grants_bytes.
  destruct (encode_grants_spec (to_be 4 (zlen (grants s))) (grants s) Hs)
    as [[? ->]|[? [n [->| ->]]]]; naive_solver.
Qed.

(** ** The decoder *)

Lemma decode_snapshot_Ok bs s :
  decode_snapshot bs = Ok s ↔
  zlen bs ≤ MAX_SNAPSHOT_BYTES ∧
  ∃ gs, grants_fit gs ∧ bs = grants_bytes gs ∧ AuthorizationSnapshot_new gs = Ok s.
Proof.
  unfold decode_snapshot. destruct (Z.ltb_spec MAX_SNAPSHOT_BYTES (zlen bs)).
  { split; [done|]. lia. }
  rewrite bind_Ok. setoid_rewrite map_err_Ok.
  setoid_rewrite (parse_all_Ok _ _ _ _ _ parse_grants_format).
  2: { unfold MAX_SNAPSHOT_BYTES, USIZE_BITS in *. lia. }
  naive_solver.
Qed.

Lemma encode_snapshot_roundtrip s bs :
  snapshot_ok s → encode_snapshot s = Ok bs → zlen bs ≤ MAX_SNAPSHOT_BYTES →
  decode_snapshot bs = Ok s.
Proof.
  intros Hs (Hn & Hacc & ->)%encode_snapshot_Ok Hsz; [|done].
  apply decode_snapshot_Ok. split; [done|]. exists (grants s).
  split_and!; [|done|apply snapshot_new_grants]. split; [|done].
  apply Forall_and. split; [done|by eapply grants_accepted_tunnels].
Qed.

(** ** Re-encoding a decoded snapshot

    The decoder accepts grants in any order; the canonical view permutes them. *)

Definition canon (g : AgentGrant) : AgentGrant := entry_grant (ag_certificate g, grant_agent g).

Lemma canon_tunnels g : grant_ok g → ag_tunnels (canon g) ≡ₚ ag_tunnels g.
Proof.
  intros Hg. cbn. rewrite agent_tunnels_perm. cbn [aa_tunnels grant_agent].
  rewrite map_to_list_to_map by (by rewrite <-list_fmap_compose).
  rewrite <-list_fmap_compose, (list_fmap_ext _ id); [by rewrite list_fmap_id|].
  by intros i [] _.
Qed.

Lemma grants_of_new gs s :
  AuthorizationSnapshot_new gs = Ok s → grants s ≡ₚ canon <$> gs.
Proof.
  intros [[Hok Hnd] ->]%snapshot_new_Ok. rewrite grants_perm. cbn [as_agents].
  rewrite map_to_list_to_map by (by rewrite <-list_fmap_compose).
  by rewrite <-list_fmap_compose.
Qed.

Lemma mjoin_perm_zlen {A} (f : A → bytes) l k :
  l ≡ₚ k → zlen (mjoin (f <$> l)) = zlen (mjoin (f <$> k)).
Proof.
  induction 1; rewrite ?mjoin_fmap_cons, ?zlen_app; try done; try lia.
Qed.

Lemma canon_bytes_zlen g : grant_ok g → zlen (grant_bytes (canon g)) = zlen (grant_bytes g).
Proof.
  intros Hg. pose proof (canon_tunnels g Hg) as Hp. unfold grant_bytes.
  autorewrite with wire. rewrite (mjoin_perm_zlen tunnel_bytes _ _ Hp). done.
Qed.

Lemma canon_fit g :
  grant_ok g → agent_grant_ok g ∧ zlen (ag_tunnels g) ≤ MAX_TUNNELS_PER_AGENT →
  agent_grant_ok (canon g) ∧ zlen (ag_tunnels (canon g)) ≤ MAX_TUNNELS_PER_AGENT.
Proof.
  intros Hg [(? & ? & Hts) Hn]. pose proof (canon_tunnels g Hg) as Hp.
  split; [split_and!; [done|done|by rewrite Hp]|]. unfold zlen in *.
  by rewrite (Permutation_length Hp).
Qed.

Lemma decoded_reencodes bs s :
  decode_snapshot bs = Ok s →
  snapshot_ok s ∧ encode_snapshot s = Ok (grants_bytes (grants s)) ∧
  zlen (grants_bytes (grants s)) = zlen bs.
Proof.
  intros (Hsz & gs & [Hfit Hn] & -> & Hnew)%decode_snapshot_Ok.
  pose proof (grants_of_new _ _ Hnew) as Hp.
  apply snapshot_new_Ok in Hnew as [[Hok _] _].
  assert (Forall (λ g, agent_grant_ok g ∧ zlen (ag_tunnels g) ≤ MAX_TUNNELS_PER_AGENT)
    (grants s)) as [Hs Ht]%Forall_and.
  { rewrite Hp. apply Forall_fmap. rewrite Forall_forall in Hfit, Hok. apply Forall_forall.
    intros g Hg. apply canon_fit; auto. }
  assert (zlen (grants s) = zlen gs) as Hl
    by (unfold zlen; by rewrite (Permutation_length Hp), length_fmap).
  assert (zlen (grants_bytes (grants s)) = zlen (grants_bytes gs)) as Hz.
  { unfold grants_bytes. autorewrite with wire. f_equal.
    rewrite (mjoin_perm_zlen grant_bytes _ _ Hp). clear -Hok.
    induction Hok as [|g gs Hg _ IH]; [done|].
    rewrite fmap_cons, !mjoin_fmap_cons, !zlen_app, IH, canon_bytes_zlen; done. }
  split_and!; [done| |done]. apply encode_snapshot_Ok; [done|].
  split_and!; [lia| |done]. apply grants_accepted_of_size; [done|].
  change (zlen (grants_bytes (grants s)) ≤ MAX_SNAPSHOT_BYTES). lia.
Qed.

(** ** Theorems on the codec *)

Definition versioned_ok (v : VersionedAuthorizationSnapshot) : Prop :=
  0 < version_raw (va_version v) < 2 ^ 64 ∧ snapshot_ok (va_snapshot v).

Lemma encode_versioned_Ok v bs :
  encode_versioned_snapshot v = Ok bs ↔
  ∃ p, encode_snapshot (va_snapshot v) = Ok p ∧ zlen p + 8 ≤ MAX_SNAPSHOT_BYTES ∧
       bs = to_be 8 (version_raw (va_version v)) ++ p.
Proof.
  unfold encode_versioned_snapshot. rewrite bind_Ok. setoid_rewrite bind_Ok.
  setoid_rewrite ok_or_Ok. setoid_rewrite checked_add_Some. split.
  - intros (p & ? & t & [-> ?] & Hr). inv_result. exists p. rewrite Z.ltb_ge in *. done.
  - intros (p & ? & ? & ->). exists p. split; [done|]. exists (zlen p + 8).
    rewrite (proj2 (Z.ltb_ge _ _)) by lia. split_and!; try done.
    unfold MAX_SNAPSHOT_BYTES, USIZE_BITS in *. lia.
Qed.

Lemma decode_versioned_Ok bs v :
  decode_versioned_snapshot bs = Ok v ↔
  zlen bs ≤ MAX_SNAPSHOT_BYTES ∧ 0 < version_raw (va_version v) < 2 ^ 64 ∧
  ∃ p, bs = to_be 8 (version_raw (va_version v)) ++ p ∧ decode_snapshot p = Ok (va_snapshot v).
Proof.
  unfold decode_versioned_snapshot, SnapshotVersion_new.
  destruct (Z.ltb_spec MAX_SNAPSHOT_BYTES (zlen bs)); [naive_solver lia|].
  destruct (Z.ltb_spec (zlen bs) 8) as [Hlt|Hge].
  { split; [done|]. intros (_ & _ & p & -> & _). autorewrite with wire in Hlt.
    pose proof (zlen_nonneg p). lia. }
  rewrite bind_Ok. setoid_rewrite bind_Ok. setoid_rewrite ok_or_Ok. split.
  - intros (ver & Hv & s & Hs & [= <-]). destruct (Z.eqb_spec (from_be (take 8 bs)) 0); simplify_eq.
    assert (length (take 8 bs) = 8%nat) as Hl by (rewrite length_take; unfold zlen in *; lia).
    pose proof (from_be_u_range _ _ Hl) as Hr. unfold u_range in Hr. cbn [va_version va_snapshot version_raw].
    split_and!; [done|lia|lia|]. exists (drop 8 bs).
    by rewrite (to_be_from_be _ 8 Hl), take_drop.
  - intros (_ & Hv & p & -> & Hs). rewrite take_to_be, drop_to_be.
    rewrite from_be_to_be_u64 by (unfold u_range; lia).
    destruct v as [[ver] s]; cbn [va_version va_snapshot version_raw] in *.
    rewrite (proj2 (Z.eqb_neq _ _)) by lia. eexists. split; [done|]. by exists s.
Qed.

Lemma versioned_snapshot_roundtrip_aux v bs :
  versioned_ok v → encode_versioned_snapshot v = Ok bs → decode_versioned_snapshot bs = Ok v.
Proof.
  intros [Hv Hs] (p & Hp & Hsz & ->)%encode_versioned_Ok. apply decode_versioned_Ok.
  split_and!; [autorewrite with wire; lia|lia|lia|].
  exists p. split; [done|]. apply encode_snapshot_roundtrip; [done|done|lia].
Qed.

Lemma received_reencodes bs v :
  decode_versioned_snapshot bs = Ok v →
  versioned_ok v ∧ ∃ bs', encode_versioned_snapshot v = Ok bs' ∧ zlen bs' = zlen bs.
Proof.
  intros (Hsz & Hv & p & -> & Hp)%decode_versioned_Ok.
  destruct (decoded_reencodes _ _ Hp) as (Hs & He & Hz). autorewrite with wire in *.
  split; [done|].
  exists (to_be 8 (version_raw (va_version v)) ++ grants_bytes (grants (va_snapshot v))).
  split; [|autorewrite with wire; lia].
  apply encode_versioned_Ok. eexists. split_and!; [done|lia|done].
Qed.

(** C36. Snapshot distribution is lossless: every versioned snapshot that can be
    encoded at all is decoded to exactly the same version and the same
    authorization map by the receiver. *)
Theorem versioned_snapshot_roundtrip v bs :
  versioned_ok v → encode_versioned_snapshot v = Ok bs → decode_versioned_snapshot bs = Ok v.
Proof. apply versioned_snapshot_roundtrip_aux. Qed.

(** A snapshot received from the network is well formed, can be stored again
    (re-encoding cannot fail, on either size limit), the stored form has the same
    length, and it decodes to the same snapshot: decoding and encoding bring any
    accepted byte string to one canonical form. *)
Theorem received_snapshot_canonical bs v :
  decode_versioned_snapshot bs = Ok v →
  ∃ bs', encode_versioned_snapshot v = Ok bs' ∧ zlen bs' = zlen bs ∧
         decode_versioned_snapshot bs' = Ok v.
Proof.
  intros (Hok & bs' & He & Hz)%received_reencodes. exists bs'.
  split_and!; [done|done|by apply versioned_snapshot_roundtrip_aux].
Qed.

(** Totality of the encoder on well-formed snapshots: it never panics; it
    fails only for one of the three documented limits; and when it succeeds the
    output is at most two bytes above the advertised maximum. *)
Theorem encode_snapshot_total s :
  snapshot_ok s →
  match encode_snapshot s with
  | Ok bs => bs = grants_bytes (grants s) ∧ zlen bs ≤ MAX_SNAPSHOT_BYTES + 2
  | Err (SC_TooLarge _) | Err (SC_TooManyTunnels _) => True
  | Err (SC_TooManyAgents n) => n = zlen (grants s) ∧ MAX_AGENTS_PER_SNAPSHOT < n
  | Err _ => False
  end.
Proof.
  intros Hs. destruct (encode_snapshot s) as [bs|e] eqn:He.
  - apply encode_snapshot_Ok in He as (_ & Hacc & ->); [|done]. split; [done|].
    apply grants_accepted_bound in Hacc as [->|Hb]; [vm_compute; congruence|exact Hb].
  - unfold encode_snapshot in He.
    destruct (Z.ltb_spec MAX_AGENTS_PER_SNAPSHOT (zlen (grants s))); [by simplify_eq|].
    destruct (encode_grants_spec (to_be 4 (wrap 32 (zlen (grants s)))) (grants s) Hs)
      as [[_ Hg]|[_ [n [Hg|Hg]]]]; rewrite He in Hg; by simplify_eq.
Qed.

(** The size check of the encoder is not tight: a last grant without tunnels
    that ends exactly at the limit is accepted and the result, two bytes over
    the limit, is refused by the decoder. *)
Theorem encode_exceeds_decode_limit out g :
  agent_grant_ok g → ag_tunnels g = [] →
  zlen (out ++ grant_bytes g) = MAX_SNAPSHOT_BYTES + 2 →
  encode_grants out [g] = Ok (out ++ grant_bytes g) ∧
  decode_snapshot (out ++ grant_bytes g) = Err (SC_TooLarge (MAX_SNAPSHOT_BYTES + 2)).
Proof.
  intros Hg Ht Hsz. split.
  - destruct (encode_grants_spec out [g]) as [[_ ->]|[Hn _]]; [by constructor| |].
    + rewrite mjoin_fmap_cons. cbn. by rewrite app_nil_r.
    + destruct Hn. cbn [grants_accepted]. rewrite Ht, Hsz.
      split_and!; [lia|vm_compute; congruence|done].
  - unfold decode_snapshot. by rewrite Hsz.
Qed.

Definition bare_grant : AgentGrant :=
  MkAgentGrant (MkFingerprint (replicate 32 x00%byte)) (MkAgentId (bstr "a")) [].
Definition full_prefix : bytes := replicate (Z.to_nat (MAX_SNAPSHOT_BYTES - 35)) x00%byte.

Lemma encode_exceeds_decode_limit_witness :
  encode_grants full_prefix [bare_grant] = Ok (full_prefix ++ grant_bytes bare_grant) ∧
  decode_snapshot (full_prefix ++ grant_bytes bare_grant)
    = Err (SC_TooLarge (MAX_SNAPSHOT_BYTES + 2)).
Proof.
  apply (encode_exceeds_decode_limit full_prefix bare_grant).
  - split_and!; [done| |constructor]. apply AgentId_new_Ok with (MkAgentId (bstr "a")). reflexivity.
  - reflexivity.
  - rewrite zlen_app. unfold full_prefix, zlen at 1. rewrite length_replicate.
    change (zlen (grant_bytes bare_grant)) with 37. unfold MAX_SNAPSHOT_BYTES. lia.
Defined.

Definition two_agents : AuthorizationSnapshot :=
  MkSnapshot {[ MkFingerprint (replicate 32 x01%byte) :=
                  MkAuthorizedAgent (MkAgentId (bstr "agent-1"))
                    {[ MkTunnelId (bstr "web") := Enabled; MkTunnelId (bstr "api") := Disabled ]};
                MkFingerprint (replicate 32 x00%byte) :=
                  MkAuthorizedAgent (MkAgentId (bstr "agent-2")) ∅ ]}.
Definition two_agents_bytes : bytes := grants_bytes (grants two_agents).

Lemma two_agents_ok : snapshot_ok two_agents.
Proof.
  unfold snapshot_ok. change (grants two_agents) with (grants two_agents).
  assert (∀ s, validate_durable_id s = Ok tt → durable_id_ok s) as Hid
    by (intros; by apply validate_durable_id_Ok).
  let gs := eval vm_compute in (grants two_agents) in
  replace (grants two_agents) with gs by (by vm_compute).
  repeat constructor; cbn; try (apply Hid; reflexivity).
Qed.

Lemma encode_snapshot_total_witness :
  encode_snapshot two_agents = Ok two_agents_bytes ∧
  (two_agents_bytes = grants_bytes (grants two_agents) ∧
   zlen two_agents_bytes ≤ MAX_SNAPSHOT_BYTES + 2).
Proof.
  split; [by vm_compute|].
  pose proof (encode_snapshot_total two_agents two_agents_ok) as H.
  assert (encode_snapshot two_agents = Ok two_agents_bytes) as He by (by vm_compute).
  rewrite He in H. exact H.
Defined.

Lemma versioned_snapshot_roundtrip_witness :
  ∃ bs, encode_versioned_snapshot (MkVersioned (MkVersion 9) two_agents) = Ok bs ∧
        decode_versioned_snapshot bs = Ok (MkVersioned (MkVersion 9) two_agents).
Proof.
  exists (to_be 8 9 ++ two_agents_bytes).
  assert (encode_versioned_snapshot (MkVersioned (MkVersion 9) two_agents)
    = Ok (to_be 8 9 ++ two_agents_bytes)) as He by (by vm_compute).
  split; [exact He|]. apply (versioned_snapshot_roundtrip (MkVersioned (MkVersion 9) two_agents)).
  - split; [cbn; lia|exact two_agents_ok].
  - exact He.
Defined.

Lemma received_snapshot_canonical_witness :
  ∃ v bs', encode_versioned_snapshot v = Ok bs' ∧ zlen bs' = zlen (to_be 8 9 ++ two_agents_bytes) ∧
           decode_versioned_snapshot bs' = Ok v.
Proof.
  exists (MkVersioned (MkVersion 9) two_agents).
  apply (received_snapshot_canonical (to_be 8 9 ++ two_agents_bytes)). by vm_compute.
Defined.
