(* ===== verification/SnapshotProto.v ===== *)
(** * SnapshotProto: messages of the snapshot distribution protocol

    [crates/control-plane/src/snapshot_protocol.rs]. *)

From S2P Require Import Prelude Text AsyncIo Identity Authorization SnapshotCodec.

Definition SNAPSHOT_MAGIC : bytes := bstr "TPS1".
Definition SNAPSHOT_HEADER_SIZE : Z := 12.
Definition SNAPSHOT_PROTOCOL_VERSION : Z := 1.

Definition SUBSCRIBE : Z := 1.
Definition SNAPSHOT : Z := 2.
Definition UP_TO_DATE : Z := 3.
Definition SNAPSHOT_ERROR : Z := 4.

Inductive SnapshotServiceErrorCode : Type :=
| SS_InvalidRequest
| SS_RepositoryUninitialized
| SS_ClientAhead.

Definition SnapshotServiceErrorCode_as_u16 (c : SnapshotServiceErrorCode) : Z :=
  match c with SS_InvalidRequest => 1 | SS_RepositoryUninitialized => 2 | SS_ClientAhead => 3 end.
Definition SnapshotServiceErrorCode_from_raw (raw : Z) : option SnapshotServiceErrorCode :=
  match raw with
  | 1 => Some SS_InvalidRequest
  | 2 => Some SS_RepositoryUninitialized
  | 3 => Some SS_ClientAhead
  | _ => None
  end.

Inductive SnapshotMessage : Type :=
| Subscribe (last_applied_version : Z)
| SnapshotMsg (v : VersionedAuthorizationSnapshot)
| UpToDate (version : SnapshotVersion)
| SnapshotErrorMsg (code : SnapshotServiceErrorCode).

Inductive SnapshotProtocolError : Type :=
| SP_Io (e : io_error)
| SP_Snapshot (e : SnapshotCodecError)
| SP_InvalidMagic
| SP_UnsupportedVersion (v : Z)
| SP_UnsupportedFlags
| SP_UnknownMessageType (t : Z)
| SP_InvalidPayload
| SP_PayloadTooLarge (n : Z)
| SP_Truncated
| SP_TrailingBytes.

Abbreviation PResult := (Result SnapshotProtocolError).

(** ** Encoding *)

Definition message_payload (m : SnapshotMessage) : PResult (Z * bytes) :=
  match m with
  | Subscribe last => Ok (SUBSCRIBE, to_be 8 last)
  | SnapshotMsg v =>
      p ← map_err SP_Snapshot (encode_versioned_snapshot v); Ok (SNAPSHOT, p)
  | UpToDate version => Ok (UP_TO_DATE, to_be 8 (version_raw version))
  | SnapshotErrorMsg code => Ok (SNAPSHOT_ERROR, to_be 2 (SnapshotServiceErrorCode_as_u16 code))
  end.

Definition encode_snapshot_message (m : SnapshotMessage) : PResult bytes :=
  '(message_type, payload) ← message_payload m;
  if MAX_SNAPSHOT_BYTES <? zlen payload then Err (SP_PayloadTooLarge (zlen payload))
  else
    Ok (SNAPSHOT_MAGIC ++ to_be 1 SNAPSHOT_PROTOCOL_VERSION ++ to_be 1 message_type
          ++ to_be 2 0 ++ to_be 4 (wrap 32 (zlen payload)) ++ payload).

(** ** Decoding *)

(** The final dispatch on the message type. *)
Definition decode_by_type (message_type : Z) (payload : bytes) : PResult SnapshotMessage :=
  if (message_type =? SUBSCRIBE) && (zlen payload =? 8) then Ok (Subscribe (from_be payload))
  else if message_type =? SNAPSHOT then
    v ← map_err SP_Snapshot (decode_versioned_snapshot payload); Ok (SnapshotMsg v)
  else if (message_type =? UP_TO_DATE) && (zlen payload =? 8) then
    v ← ok_or SP_InvalidPayload (SnapshotVersion_new (from_be payload)); Ok (UpToDate v)
  else if (message_type =? SNAPSHOT_ERROR) && (zlen payload =? 2) then
    c ← ok_or SP_InvalidPayload (SnapshotServiceErrorCode_from_raw (from_be payload));
    Ok (SnapshotErrorMsg c)
  else if (message_type =? SUBSCRIBE) || (message_type =? UP_TO_DATE)
          || (message_type =? SNAPSHOT_ERROR)
  then Err SP_InvalidPayload
  else Err (SP_UnknownMessageType message_type).

Definition decode_snapshot_message (bs : bytes) : PResult SnapshotMessage :=
  if zlen bs <? SNAPSHOT_HEADER_SIZE then Err SP_Truncated
  else if negb (bool_decide (take 4 bs = SNAPSHOT_MAGIC)) then Err SP_InvalidMagic
  else
    let version := from_be (take 1 (drop 4 bs)) in
    if negb (version =? SNAPSHOT_PROTOCOL_VERSION) then Err (SP_UnsupportedVersion version)
    else if negb (from_be (take 2 (drop 6 bs)) =? 0) then Err SP_UnsupportedFlags
    else
      let payload_len := from_be (take 4 (drop 8 bs)) in
      if MAX_SNAPSHOT_BYTES <? payload_len then Err (SP_PayloadTooLarge payload_len)
      else if negb (zlen bs =? SNAPSHOT_HEADER_SIZE + payload_len) then
        Err (if zlen bs <? SNAPSHOT_HEADER_SIZE + payload_len then SP_Truncated
             else SP_TrailingBytes)
      else decode_by_type (from_be (take 1 (drop 5 bs))) (drop 12 bs).

Definition read_snapshot_message : IoM SnapshotProtocolError SnapshotMessage :=
  header ← io_read_exact SP_Io 12;
  let payload_len := from_be (take 4 (drop 8 header)) in
  if MAX_SNAPSHOT_BYTES <? payload_len
  then io_lift (Err (SP_PayloadTooLarge payload_len))
  else
    payload ← io_read_exact SP_Io (Z.to_nat payload_len);
    io_lift (decode_snapshot_message (header ++ payload)).

Definition write_snapshot_message (w : writer) (m : SnapshotMessage)
    : writer * PResult unit :=
  match encode_snapshot_message m with
  | Err e => (w, Err e)
  | Ok encoded =>
      w_bind (w_err SP_Io (write_all w encoded)) (λ w _, w_err SP_Io (flush w))
  end.

(** ** Well-formed messages *)

Definition message_ok (m : SnapshotMessage) : Prop :=
  match m with
  | Subscribe last => u_range 64 last
  | SnapshotMsg v => versioned_ok v
  | UpToDate v => 0 < version_raw v < 2 ^ 64
  | SnapshotErrorMsg _ => True
  end.

(** ** Lemmas *)

Definition frame_of (ty : Z) (payload : bytes) : bytes :=
  SNAPSHOT_MAGIC ++ to_be 1 SNAPSHOT_PROTOCOL_VERSION ++ to_be 1 ty
    ++ to_be 2 0 ++ to_be 4 (zlen payload) ++ payload.

Lemma zlen_frame_of ty p : zlen (frame_of ty p) = SNAPSHOT_HEADER_SIZE + zlen p.
Proof. unfold frame_of. autorewrite with wire. change (zlen SNAPSHOT_MAGIC) with 4. unfold SNAPSHOT_HEADER_SIZE. lia. Qed.

Lemma encode_snapshot_message_Ok m bs :
  encode_snapshot_message m = Ok bs ↔
  ∃ ty p, message_payload m = Ok (ty, p) ∧ zlen p ≤ MAX_SNAPSHOT_BYTES ∧ bs = frame_of ty p.
Proof.
  unfold encode_snapshot_message. rewrite bind_Ok. split.
  - intros ([ty p] & H & Hk). inv_result. exists ty, p. rewrite Z.ltb_ge in *.
    pose proof (zlen_nonneg p). rewrite wrap_small; [done|].
    unfold u_range, MAX_SNAPSHOT_BYTES in *. lia.
  - intros (ty & p & H & Hp & ->). exists (ty, p). split; [done|].
    rewrite (proj2 (Z.ltb_ge _ _)) by done. pose proof (zlen_nonneg p).
    rewrite wrap_small; [done|]. unfold u_range, MAX_SNAPSHOT_BYTES in *. lia.
Qed.

Lemma payload_type m ty p : message_payload m = Ok (ty, p) → 1 ≤ ty ≤ 4.
Proof.
  destruct m; cbn [message_payload]; intros H; inv_result;
    unfold SUBSCRIBE, SNAPSHOT, UP_TO_DATE, SNAPSHOT_ERROR; lia.
Qed.

Lemma decode_frame_of ty p :
  u_range 8 ty → zlen p ≤ MAX_SNAPSHOT_BYTES →
  decode_snapshot_message (frame_of ty p) = decode_by_type ty p.
Proof.
  intros Hty Hp. pose proof (zlen_nonneg p).
  unfold decode_snapshot_message. rewrite zlen_frame_of.
  rewrite (proj2 (Z.ltb_ge _ _)) by lia.
  assert (u_range 32 (zlen p)) by (unfold u_range, MAX_SNAPSHOT_BYTES in *; lia).
  pose proof (length_to_be 4 (zlen p)) as Hl4.
  pose proof (from_be_to_be_u32 (zlen p) ltac:(done)) as Hf4.
  pose proof (from_be_to_be 1 ty Hty) as Hf1. pose proof (length_to_be 1 ty) as Hl1.
  unfold frame_of. destruct (to_be 4 (zlen p)) as [|a [|b [|c [|d []]]]]; try done.
  destruct (to_be 1 ty) as [|t []]; try done.
  cbn -[decode_by_type from_be Z.add]. rewrite drop_0, take_0, Hf1, Hf4.
  rewrite bool_decide_eq_true_2 by done.
  change (from_be [z2b _] =? SNAPSHOT_PROTOCOL_VERSION) with true.
  change (from_be [_; _] =? 0) with true. cbn [negb].
  rewrite (proj2 (Z.ltb_ge _ _)) by lia. by rewrite Z.eqb_refl.
Qed.

Lemma decode_snapshot_message_frame bs m :
  decode_snapshot_message bs = Ok m →
  ∃ ty p, u_range 8 ty ∧ zlen p ≤ MAX_SNAPSHOT_BYTES ∧ bs = frame_of ty p ∧
          decode_by_type ty p = Ok m.
Proof.
  unfold decode_snapshot_message. intros H. inv_result.
  rewrite Z.ltb_ge in *. rewrite ?negb_false_iff, ?Z.eqb_eq in *.
  match goal with H : bool_decide (_ = _) = true |- _ => apply bool_decide_eq_true in H end.
  do 12 (destruct bs as [|? bs]; [done|]). cbn [take drop] in *. rewrite ?take_0 in *.
  unfold SNAPSHOT_HEADER_SIZE in *. rewrite !zlen_cons in *.
  match goal with H : decode_by_type (from_be [?t]) _ = _ |- _ =>
    exists (from_be [t]), bs; pose proof (from_be_u_range [t] 1 eq_refl) end.
  match goal with H : _ = 12 + from_be ?l |- _ =>
    assert (zlen bs = from_be l) as Hz by lia end.
  split_and!; [done|lia| |done]. unfold frame_of. rewrite Hz.
  match goal with
  | H1 : _ = SNAPSHOT_MAGIC, H2 : _ = SNAPSHOT_PROTOCOL_VERSION, H3 : from_be _ = 0 |- _ =>
      rewrite <-H1, <-H2, <-H3 end.
  by rewrite !to_be_from_be.
Qed.

(** Decoding a payload by its type inverts [message_payload]; for a snapshot up
    to the order of its grants. *)
Lemma decode_by_type_payload m ty p :
  message_ok m → message_payload m = Ok (ty, p) → decode_by_type ty p = Ok m.
Proof.
  intros Hm. destruct m as [last|v|[ver]|c]; cbn [message_payload message_ok] in *; intros H.
  - assert (ty = SUBSCRIBE ∧ p = to_be 8 last) as [-> ->] by (split; congruence).
    unfold decode_by_type. rewrite zlen_to_be. cbn [Z.eqb Pos.eqb Z.of_nat andb SUBSCRIBE].
    by rewrite from_be_to_be_u64.
  - apply bind_Ok in H as (q & Hq%map_err_Ok & [= <- <-]).
    unfold decode_by_type. cbn [Z.eqb Pos.eqb andb SUBSCRIBE SNAPSHOT].
    by rewrite (versioned_snapshot_roundtrip_aux v q).
  - cbn [version_raw] in *.
    assert (ty = UP_TO_DATE ∧ p = to_be 8 ver) as [-> ->] by (split; congruence).
    unfold decode_by_type. rewrite zlen_to_be.
    rewrite from_be_to_be_u64 by (unfold u_range; lia).
    unfold SnapshotVersion_new. by rewrite (proj2 (Z.eqb_neq ver 0)) by lia.
  - assert (ty = SNAPSHOT_ERROR ∧ p = to_be 2 (SnapshotServiceErrorCode_as_u16 c)) as [-> ->]
      by (split; congruence). by destruct c.
Qed.

Lemma decode_by_type_inv ty p m :
  zlen p ≤ MAX_SNAPSHOT_BYTES → decode_by_type ty p = Ok m →
  message_ok m ∧ ∃ p', message_payload m = Ok (ty, p') ∧ zlen p' = zlen p ∧
    (match m with SnapshotMsg _ => True | _ => p' = p end).
Proof.
  intros Hp. unfold decode_by_type. intros H. inv_result;
    rewrite ?andb_true_iff, ?Z.eqb_eq in *; destruct_and?; subst.
  - assert (length p = 8%nat) as Hl by (unfold zlen in *; lia). cbn [message_ok message_payload].
    split; [exact (from_be_u_range p 8 Hl)|]. exists p. by rewrite to_be_from_be.
  - match goal with H : decode_versioned_snapshot p = Ok ?v |- _ =>
      destruct (received_reencodes p v H) as (Hok & p' & He & Hz) end.
    split; [done|]. exists p'. cbn [message_payload]. rewrite He. done.
  - assert (length p = 8%nat) as Hl by (unfold zlen in *; lia).
    pose proof (from_be_u_range _ _ Hl) as Hr. unfold SnapshotVersion_new in *.
    destruct (Z.eqb_spec (from_be p) 0); simplify_eq. cbn [message_ok message_payload version_raw].
    unfold u_range in Hr. split; [lia|]. exists p. by rewrite to_be_from_be.
  - assert (length p = 2%nat) as Hl by (unfold zlen in *; lia).
    split; [done|]. exists p. cbn [message_payload]. split_and!; [|done|done].
    do 2 f_equal. rewrite <-(to_be_from_be p 2 Hl). f_equal.
    unfold SnapshotServiceErrorCode_from_raw in *. by repeat case_match; simplify_eq.
Qed.

(** ** Theorems *)

(** Snapshot protocol round trip: a message that a well-behaved sender writes
    is read back unchanged by the peer for any chunking of the transport, and the
    following bytes stay unread. *)
Theorem snapshot_message_roundtrip m out w' r tl :
  message_ok m →
  write_snapshot_message (Writer out None None) m = (w', Ok tt) →
  steady r → out ++ bytes_of r = w_out w' ++ tl →
  ∃ r', read_snapshot_message r = (Some (Ok m), r') ∧ bytes_of r' = tl.
Proof.
  intros Hm Hw Hr Hb. unfold write_snapshot_message in Hw.
  destruct (encode_snapshot_message m) as [enc|] eqn:He; [|done].
  cbn in Hw. injection Hw as <-. cbn [w_out] in Hb. rewrite <-app_assoc in Hb.
  simplify_list_eq. apply encode_snapshot_message_Ok in He as (ty & p & Hpay & Hsz & ->).
  pose proof (payload_type _ _ _ Hpay). pose proof (zlen_nonneg p).
  set (h := SNAPSHOT_MAGIC ++ to_be 1 SNAPSHOT_PROTOCOL_VERSION ++ to_be 1 ty
    ++ to_be 2 0 ++ to_be 4 (zlen p)).
  assert (frame_of ty p = h ++ p) as Hf by (unfold frame_of, h; by rewrite <-!app_assoc).
  rewrite Hf, <-app_assoc in Hb.
  destruct (io_read_exact_enough SP_Io 12 r h (p ++ tl)) as (r1 & H1 & Hr1 & Hb1); [done..|].
  destruct (io_read_exact_enough SP_Io (length p) r1 p tl) as (r2 & H2 & Hr2 & Hb2); [done..|].
  exists r2. split; [|done]. unfold read_snapshot_message.
  erewrite io_bind_run by exact H1. cbv zeta.
  assert (from_be (take 4 (drop 8 h)) = zlen p) as Hlen.
  { change (drop 8 h) with (drop 0 (to_be 4 (zlen p))). rewrite drop_0.
    rewrite take_ge by (by rewrite length_to_be).
    apply from_be_to_be_u32. unfold u_range, MAX_SNAPSHOT_BYTES in *. lia. }
  rewrite Hlen, (proj2 (Z.ltb_ge _ _)) by lia. unfold zlen at 1. rewrite Nat2Z.id.
  erewrite io_bind_run by exact H2. unfold io_lift. rewrite <-Hf, decode_frame_of.
  - by rewrite (decode_by_type_payload m).
  - unfold u_range. lia.
  - done.
Qed.

Lemma snapshot_message_roundtrip_witness :
  ∃ w', write_snapshot_message (Writer [] None None) (UpToDate (MkVersion 5)) = (w', Ok tt) ∧
  ∃ r', read_snapshot_message [Data (take 3 (w_out w')); Data (drop 3 (w_out w') ++ [x2a%byte])]
        = (Some (Ok (UpToDate (MkVersion 5))), r') ∧ bytes_of r' = [x2a%byte].
Proof.
  eexists. split; [reflexivity|].
  eapply (snapshot_message_roundtrip (UpToDate (MkVersion 5)) []).
  - cbn. lia.
  - reflexivity.
  - split; [repeat constructor; discriminate|reflexivity].
  - reflexivity.
Defined.

(** Whatever the snapshot decoder accepts can be relayed: the message is well
    formed, can be encoded again to a frame of the same length, and that frame is
    the received one except for the grant order inside a snapshot. *)
Theorem snapshot_message_canonical bs m :
  decode_snapshot_message bs = Ok m →
  message_ok m ∧
  ∃ bs', encode_snapshot_message m = Ok bs' ∧ zlen bs' = zlen bs ∧
         (match m with SnapshotMsg _ => True | _ => bs' = bs end).
Proof.
  intros (ty & p & Hty & Hp & -> & Hd)%decode_snapshot_message_frame.
  destruct (decode_by_type_inv _ _ _ Hp Hd) as (Hm & p' & Hpay & Hz & Hcan).
  split; [done|]. exists (frame_of ty p'). split_and!.
  - apply encode_snapshot_message_Ok. exists ty, p'. split_and!; [done|lia|done].
  - rewrite !zlen_frame_of. lia.
  - destruct m; [by rewrite Hcan|done|by rewrite Hcan|by rewrite Hcan].
Qed.

Lemma snapshot_message_canonical_witness :
  message_ok (Subscribe 0) ∧
  ∃ bs', encode_snapshot_message (Subscribe 0) = Ok bs' ∧
         zlen bs' = zlen (frame_of 1 (to_be 8 0)) ∧ bs' = frame_of 1 (to_be 8 0).
Proof.
  apply (snapshot_message_canonical (frame_of 1 (to_be 8 0)) (Subscribe 0)). reflexivity.
Defined.
