(* ===== verification/Database.v ===== *)
(** * Database: the Control Plane's SQLite file

    The tables that [migrate] of [crates/control-plane/src/repository.rs] and of
    [enrollment_repository.rs] create, and the transactions that run on them.
    BLOB and TEXT columns are byte strings, INTEGER columns are integers, and a
    table is the finite map from its primary key to the other columns.

    [Sql] is a state monad with the errors of the repository.  SQLite may refuse
    any statement (a full disk, a lock, an I/O error): a list of faults says
    which statements fail.  A transaction that is not committed is rolled back
    when it is dropped, so a failing transaction leaves the database as it was;
    this and the order in which a scan returns rows are all that is used of
    SQLite. *)

From S2P Require Import Prelude Text.

Record TokenRow : Type := MkTokenRow {
  tk_agent_id : str;
  tk_tunnel_id : str;
  tk_expires_at : Z;
  tk_consumed : Z;
  tk_revoked : Z
}.

Record CredentialRow : Type := MkCredentialRow {
  cr_request_id : bytes;
  cr_agent_id : str;
  cr_tunnel_id : str;
  cr_csr_digest : bytes;
  cr_auth_token_hash : bytes;
  cr_renewal_token_hash : bytes;
  cr_certificate_pem : bytes;
  cr_not_after : Z;
  cr_generation : bytes;
  cr_state : Z;
  cr_previous_fingerprint : option bytes;
  cr_activation_deadline : Z;
  cr_terminal_at : option Z
}.

Record Database : Type := MkDatabase {
  snapshot_head : option (bytes * bytes);
  snapshot_agents : gmap bytes str;
  snapshot_tunnels : gmap (bytes * str) Z;
  enrollment_bootstrap_tokens : gmap bytes TokenRow;
  agent_credentials : gmap bytes CredentialRow
}.

Definition with_head (h : option (bytes * bytes)) (db : Database) : Database :=
  MkDatabase h (snapshot_agents db) (snapshot_tunnels db)
    (enrollment_bootstrap_tokens db) (agent_credentials db).
Definition with_agents (m : gmap bytes str) (db : Database) : Database :=
  MkDatabase (snapshot_head db) m (snapshot_tunnels db)
    (enrollment_bootstrap_tokens db) (agent_credentials db).
Definition with_tunnels (m : gmap (bytes * str) Z) (db : Database) : Database :=
  MkDatabase (snapshot_head db) (snapshot_agents db) m
    (enrollment_bootstrap_tokens db) (agent_credentials db).
Definition with_tokens (m : gmap bytes TokenRow) (db : Database) : Database :=
  MkDatabase (snapshot_head db) (snapshot_agents db) (snapshot_tunnels db) m
    (agent_credentials db).
Definition with_credentials (m : gmap bytes CredentialRow) (db : Database) : Database :=
  MkDatabase (snapshot_head db) (snapshot_agents db) (snapshot_tunnels db)
    (enrollment_bootstrap_tokens db) m.

Definition empty_database : Database := MkDatabase None ∅ ∅ ∅ ∅.

(** The order in which a scan of [agent_credentials] meets the rows is
    SQLite's choice. *)
Class TableScan : Type := {
  scan : gmap bytes CredentialRow → list (bytes * CredentialRow)
}.
Class TableScanLaws `{TableScan} : Prop := {
  scan_rows : ∀ m, scan m ≡ₚ map_to_list m
}.

#[global] Instance key_scan : TableScan := {| scan := map_to_list |}.
#[global] Instance key_scan_laws : TableScanLaws.
Proof. by split. Qed.
#[global] Typeclasses Opaque scan.

(** ** Statements and transactions *)

Definition Sql (E A : Type) : Type :=
  Database * list bool → Result E A * (Database * list bool).

#[global] Instance sql_ret {E} : MRet (Sql E) := λ A a s, (Ok a, s).
#[global] Instance sql_bind {E} : MBind (Sql E) := λ A B f c s,
  match c s with
  | (Ok a, s) => f a s
  | (Err e, s) => (Err e, s)
  end.

Definition sql_map_err {E F A} (f : E → F) (c : Sql E A) : Sql F A :=
  λ s, let '(r, s) := c s in (map_err f r, s).
Definition lift {E A} (r : Result E A) : Sql E A := λ s, (r, s).

(** A statement fails with [storage] when a fault hits it or when it violates
    a constraint of the schema. *)
Definition execute {E A} (storage : E) (q : Database → option (A * Database)) : Sql E A :=
  λ '(db, faults),
    match faults with
    | true :: faults => (Err storage, (db, faults))
    | _ =>
        match q db with
        | Some (a, db') => (Ok a, (db', tail faults))
        | None => (Err storage, (db, tail faults))
        end
    end.

Definition query {E A} (storage : E) (f : Database → A) : Sql E A :=
  execute storage (λ db, Some (f db, db)).
Definition update {E} (storage : E) (f : Database → Database) : Sql E unit :=
  execute storage (λ db, Some (tt, f db)).

(** [BEGIN IMMEDIATE], the body up to and including its [COMMIT], and the
    result that is returned after it.  An early return of an error drops the
    transaction. *)
Definition commit {E} (storage : E) : Sql E unit := query storage (λ _, tt).
Definition transaction {E A} (storage : E) (body : Sql E (Result E A)) : Sql E A :=
  λ '(db, faults),
    match (query storage (λ _, tt) ≫= λ _, body) (db, faults) with
    | (Ok r, s) => (r, s)
    | (Err e, (_, faults)) => (Err e, (db, faults))
    end.

(** [runs c db r db']: for some faults, [c] started on [db] returns [r] and
    leaves [db'].  [exec] is the run without faults. *)
Definition runs {E A} (c : Sql E A) (db : Database) (r : Result E A) (db' : Database) : Prop :=
  ∃ faults faults', c (db, faults) = (r, (db', faults')).
Definition exec {E A} (c : Sql E A) (db : Database) : Result E A * Database :=
  let '(r, (db', _)) := c (db, []) in (r, db').

Section runs.
Context {E : Type}.

Lemma runs_ret {A} (a : A) db r db' :
  runs (E := E) (mret a) db r db' → r = Ok a ∧ db' = db.
Proof. intros (fs & fs' & [= <- <- _]). done. Qed.

Lemma runs_lift {A} (x : Result E A) db r db' : runs (lift x) db r db' → r = x ∧ db' = db.
Proof. intros (fs & fs' & [= <- <- _]). done. Qed.

Lemma runs_bind {A B} (c : Sql E A) (k : A → Sql E B) db r db' :
  runs (c ≫= k) db r db' →
  (∃ e, r = Err e ∧ runs c db (Err e) db') ∨
  (∃ a db1, runs c db (Ok a) db1 ∧ runs (k a) db1 r db').
Proof.
  intros (fs & fs' & H). unfold mbind, sql_bind in H.
  destruct (c (db, fs)) as [[a|e] [db1 fs1]] eqn:Hc.
  - right. exists a, db1. split; [by exists fs, fs1|by exists fs1, fs'].
  - left. simplify_eq. exists e. split; [done|by exists fs, fs'].
Qed.

Lemma runs_execute {A} st (q : Database → option (A * Database)) db (r : Result E A) db' :
  runs (execute st q) db r db' →
  (r = Err st ∧ db' = db) ∨ ∃ a, r = Ok a ∧ q db = Some (a, db').
Proof.
  intros (fs & fs' & H). unfold execute in H.
  destruct fs as [|[] fs]; [|by simplify_eq; left|];
    destruct (q db) as [[a db1]|] eqn:Hq; simplify_eq; eauto.
Qed.

Lemma runs_query {A} st (f : Database → A) db (r : Result E A) db' :
  runs (query st f) db r db' → db' = db ∧ (r = Err st ∨ r = Ok (f db)).
Proof. intros [[-> ->]|(a & -> & [= <- <-])]%runs_execute; auto. Qed.

Lemma runs_update st (f : Database → Database) db (r : Result E unit) db' :
  runs (update st f) db r db' → (r = Err st ∧ db' = db) ∨ (r = Ok tt ∧ db' = f db).
Proof. intros [[-> ->]|(a & -> & [= <- <-])]%runs_execute; auto. Qed.

Lemma runs_transaction {A} st (body : Sql E (Result E A)) db r db' :
  runs (transaction st body) db r db' →
  (∃ e, r = Err e ∧ db' = db) ∨ runs body db (Ok r) db'.
Proof.
  intros (fs & fs' & H). unfold transaction in H.
  destruct ((query st (λ _, tt) ≫= λ _, body) (db, fs)) as [[x|e] [db1 fs1]] eqn:Hb.
  - right. simplify_eq.
    assert (runs (query st (λ _, tt) ≫= λ _, body) db (Ok r) db') as Hr by (by exists fs, fs').
    apply runs_bind in Hr as [(e & ? & _)|(u & db1 & Hq & Hr)]; [done|].
    by apply runs_query in Hq as [-> _].
  - left. simplify_eq. eauto.
Qed.

Lemma runs_transaction_Err {A} st (body : Sql E (Result E A)) db e db' :
  runs (transaction st body) db (Err e) db' →
  (db' = db ∧ (e = st ∨ ∃ db1, runs body db (Err e) db1)) ∨ runs body db (Ok (Err e)) db'.
Proof.
  intros (fs & fs' & H). unfold transaction in H.
  destruct ((query st (λ _, tt) ≫= λ _, body) (db, fs)) as [r [db1 fs1]] eqn:Hb.
  assert (runs (query st (λ _, tt) ≫= λ _, body) db r db1) as Hr by (by exists fs, fs1).
  apply runs_bind in Hr as [(e1 & -> & [_ Hq]%runs_query)|(u & db2 & [-> _]%runs_query & Hr)].
  - left. destruct Hq; simplify_eq. auto.
  - destruct r as [x|e1]; simplify_eq; [by right|left; eauto].
Qed.

(** The run without faults is one of the runs. *)
Lemma exec_runs {A} (c : Sql E A) db r db' : exec c db = (r, db') → runs c db r db'.
Proof.
  unfold exec. destruct (c (db, [])) as [x [db1 fs]] eqn:Hc.
  intros [= <- <-]. by exists [], fs.
Qed.
End runs.

(** Runs that do not fail, computed statement by statement. *)
Definition clean {E A} (c : Sql E A) (db : Database) (r : Result E A) (db' : Database) : Prop :=
  c (db, []) = (r, (db', [])).

Section clean.
Context {E : Type}.

Lemma clean_exec {A} (c : Sql E A) db r db' : clean c db r db' → exec c db = (r, db').
Proof. unfold clean, exec. by intros ->. Qed.

Lemma clean_runs {A} (c : Sql E A) db r db' : clean c db r db' → runs c db r db'.
Proof. intros H. by exists [], []. Qed.

Lemma clean_ret {A} (a : A) db : clean (E := E) (mret a) db (Ok a) db.
Proof. done. Qed.

Lemma clean_lift {A} (x : Result E A) db : clean (lift x) db x db.
Proof. done. Qed.

Lemma clean_bind {A B} (c : Sql E A) (k : A → Sql E B) db a db1 r db' :
  clean c db (Ok a) db1 → clean (k a) db1 r db' → clean (c ≫= k) db r db'.
Proof. unfold clean, mbind, sql_bind. by intros ->. Qed.

Lemma clean_bind_Err {A B} (c : Sql E A) (k : A → Sql E B) db e db1 :
  clean c db (Err e) db1 → clean (c ≫= k) db (Err e) db1.
Proof. unfold clean, mbind, sql_bind. by intros ->. Qed.

Lemma clean_query {A} st (f : Database → A) db : clean (E := E) (query st f) db (Ok (f db)) db.
Proof. done. Qed.

Lemma clean_execute {A} st (q : Database → option (A * Database)) db a db' :
  q db = Some (a, db') → clean (E := E) (execute st q) db (Ok a) db'.
Proof. unfold clean, execute. by intros ->. Qed.

Lemma clean_update st (f : Database → Database) db : clean (E := E) (update st f) db (Ok tt) (f db).
Proof. done. Qed.

Lemma clean_transaction {A} st (body : Sql E (Result E A)) db r db' :
  clean body db (Ok r) db' → clean (transaction st body) db r db'.
Proof. unfold clean, transaction. intros H. cbn. unfold mbind, sql_bind. cbn. by rewrite H. Qed.

Lemma clean_transaction_Err {A} st (body : Sql E (Result E A)) db e db' :
  clean body db (Err e) db' → clean (transaction st body) db (Err e) db.
Proof. unfold clean, transaction. intros H. cbn. unfold mbind, sql_bind. cbn. by rewrite H. Qed.
End clean.

(** Invert a run into the statements that make it up. *)
Ltac sql_step H :=
  lazymatch type of H with
  | runs (mret _) _ _ _ => apply runs_ret in H as [? ?]
  | runs (lift _) _ _ _ => apply runs_lift in H as [? ?]
  | runs (query _ _) _ _ _ => apply runs_query in H as [? [?|?]]
  | runs (commit _) _ _ _ => unfold commit in H; apply runs_query in H as [? [?|?]]
  | runs (update _ _) _ _ _ => apply runs_update in H as [[? ?]|[? ?]]
  | runs (execute _ _) _ _ _ => apply runs_execute in H as [[? ?]|(? & ? & ?)]
  | runs (transaction _ _) _ _ _ => apply runs_transaction in H as [(? & ? & ?)|H]
  | runs (_ ≫= _) _ _ _ =>
      let H1 := fresh "Hrun" in
      apply runs_bind in H as [(? & ? & H)|(? & ? & H1 & H)]; [sql_step H|sql_step H1]
  | runs _ _ _ _ => idtac
  end; simplify_eq.

(** ** Computations that only read

    Without faults they return one result; with faults they return that result
    or the storage error. *)

Definition reader {E A} (st : E) (c : Sql E A) : Prop :=
  ∀ db, ∃ r, clean c db r db ∧
    ∀ fs, ∃ fs', c (db, fs) = (Err st, (db, fs')) ∨ c (db, fs) = (r, (db, fs')).

Section reader.
Context {E : Type} (st : E).

Lemma reader_ret {A} (a : A) : reader st (mret a).
Proof. intros db. exists (Ok a). split; [done|]. intros fs. exists fs. by right. Qed.

Lemma reader_lift {A} (x : Result E A) : reader st (lift x).
Proof. intros db. exists x. split; [done|]. intros fs. exists fs. by right. Qed.

Lemma reader_query {A} (f : Database → A) : reader st (query st f).
Proof.
  intros db. exists (Ok (f db)). split; [done|].
  intros [|[] fs]; [exists []|exists fs|exists fs]; cbn; auto.
Qed.

Lemma reader_bind {A B} (c : Sql E A) (k : A → Sql E B) :
  reader st c → (∀ a, reader st (k a)) → reader st (c ≫= k).
Proof.
  intros Hc Hk db. destruct (Hc db) as ([a|e] & Hcl & Hf).
  - destruct (Hk a db) as (r & Hcl' & Hf'). exists r. split; [by eapply clean_bind|].
    intros fs. destruct (Hf fs) as (fs1 & [H|H]); unfold mbind, sql_bind; rewrite H; [eauto|].
    apply Hf'.
  - exists (Err e). split; [by eapply clean_bind_Err|].
    intros fs. destruct (Hf fs) as (fs1 & [H|H]); unfold mbind, sql_bind; rewrite H; eauto.
Qed.

Lemma reader_exec {A} (c : Sql E A) db : reader st c → clean c db (exec c db).1 db.
Proof. intros Hc. destruct (Hc db) as (r & Hcl & _). by rewrite (clean_exec _ _ _ _ Hcl). Qed.

Lemma reader_runs {A} (c : Sql E A) db r db' :
  reader st c → runs c db r db' → db' = db ∧ (r = Err st ∨ r = (exec c db).1).
Proof.
  intros Hc (fs & fs' & H). destruct (Hc db) as (r0 & Hcl & Hf).
  rewrite (clean_exec _ _ _ _ Hcl). destruct (Hf fs) as (fs1 & [H1|H1]); rewrite H in H1; injection H1 as -> -> _; auto.
Qed.
End reader.

Lemma reader_exec_bind {E A B} (st : E) (c : Sql E A) (k : A → Sql E B) db :
  reader st c → (∀ a, reader st (k a)) →
  (exec (c ≫= k) db).1 =
  match (exec c db).1 with Ok a => (exec (k a) db).1 | Err e => Err e end.
Proof.
  intros Hc Hk. pose proof (reader_exec st c db Hc) as Hcl.
  destruct (exec c db).1 as [a|e].
  - by rewrite (clean_exec _ _ _ _ (clean_bind _ _ _ _ _ _ _ Hcl (reader_exec st _ _ (Hk a)))).
  - by rewrite (clean_exec _ _ _ _ (clean_bind_Err _ k _ _ _ Hcl)).
Qed.

Lemma reader_map_err {E F A} (f : E → F) st (c : Sql E A) :
  reader st c → reader (f st) (sql_map_err f c).
Proof.
  intros Hc db. destruct (Hc db) as (r & Hcl & Hf). exists (map_err f r). split.
  - unfold clean, sql_map_err in *. by rewrite Hcl.
  - intros fs. destruct (Hf fs) as (fs' & [H|H]); exists fs'; unfold sql_map_err; rewrite H; auto.
Qed.

Lemma runs_map_err {E F A} (f : E → F) (c : Sql E A) db r db' :
  runs (sql_map_err f c) db r db' → ∃ r0, r = map_err f r0 ∧ runs c db r0 db'.
Proof.
  intros (fs & fs' & H). unfold sql_map_err in H. destruct (c (db, fs)) as [r0 s] eqn:Hc.
  simplify_eq. exists r0. split; [done|]. by exists fs, fs'.
Qed.

Lemma clean_map_err {E F A} (f : E → F) (c : Sql E A) db r db' :
  clean c db r db' → clean (sql_map_err f c) db (map_err f r) db'.
Proof. unfold clean, sql_map_err. by intros ->. Qed.

(** ** The errors a computation may return *)

Definition errors {E A} (P : E → Prop) (c : Sql E A) : Prop :=
  ∀ db e db', runs c db (Err e) db' → P e.

Section errors.
Context {E : Type} (P : E → Prop).

Lemma errors_ret {A} (a : A) : errors P (mret a).
Proof. by intros db e db' [? _]%runs_ret. Qed.
Lemma errors_lift {A} (x : Result E A) : (∀ e, x = Err e → P e) → errors P (lift x).
Proof. intros Hx db e db' [He _]%runs_lift. by apply Hx. Qed.
Lemma errors_execute {A} st (q : Database → option (A * Database)) : P st → errors P (execute st q).
Proof. intros Hst db e db' [[[= ->] _]|(a & ? & _)]%runs_execute; done. Qed.
Lemma errors_bind {A B} (c : Sql E A) (k : A → Sql E B) :
  errors P c → (∀ a, errors P (k a)) → errors P (c ≫= k).
Proof.
  intros Hc Hk db e db' [(e' & [= <-] & Hr)|(a & db1 & _ & Hr)]%runs_bind; [by eapply Hc|by eapply Hk].
Qed.
End errors.

Create HintDb sql.
#[export] Hint Resolve reader_ret reader_lift reader_query reader_bind : sql.
