(* ===== verification/SnapshotRepository.v ===== *)
(** * SnapshotRepository: the durable snapshot and the live publisher

    [crates/control-plane/src/repository.rs]: the snapshot as rows of three
    tables, loading it back, committing a new version, and the authority that
    keeps the live publisher in step with the file.  The digest of the [sha2]
    crate is an argument. *)

From S2P Require Import Prelude Text Identity Authorization SnapshotCodec Database.

Inductive SnapshotRepositoryError : Type :=
| SR_Storage
| SR_Corrupt
| SR_Codec (e : SnapshotCodecError)
| SR_StaleVersion (current received : SnapshotVersion)
| SR_ConflictingVersion (version : SnapshotVersion).

Inductive SnapshotCommitOutcome : Type :=
| CommitApplied (previous : option SnapshotVersion) (current : SnapshotVersion)
| CommitUnchanged (version : SnapshotVersion).

Abbreviation RResult := (Result SnapshotRepositoryError).
Abbreviation RSql := (Sql SnapshotRepositoryError).

(** [Iterator::collect] into a [Result]. *)
Fixpoint collect {E A B} (f : A → Result E B) (l : list A) : Result E (list B) :=
  match l with
  | [] => Ok []
  | x :: l => y ← f x; ys ← collect f l; Ok (y :: ys)
  end.

(** [<[u8; N]>::try_from]. *)
Definition decode_array {E} (corrupt : E) (n : Z) (bs : bytes) : Result E bytes :=
  if zlen bs =? n then Ok bs else Err corrupt.

Definition decode_version_blob (bs : bytes) : RResult SnapshotVersion :=
  bs ← decode_array SR_Corrupt 8 bs;
  ok_or SR_Corrupt (SnapshotVersion_new (from_be bs)).

Definition decode_fingerprint (bs : bytes) : RResult CertificateFingerprint :=
  bs ← decode_array SR_Corrupt 32 bs; Ok (MkFingerprint bs).

(** ** Loading *)

Definition agent_row_le (x y : bytes * str) : Prop := bytes_le x.1 y.1.
Definition tunnel_row_le (x y : bytes * str * Z) : Prop := bytes_le x.1.2 y.1.2.
#[global] Instance agent_row_le_dec : RelDecision agent_row_le.
Proof. intros x y. unfold agent_row_le. apply _. Defined.
#[global] Instance tunnel_row_le_dec : RelDecision tunnel_row_le.
Proof. intros x y. unfold tunnel_row_le. apply _. Defined.

(** [SELECT ... FROM snapshot_agents ORDER BY certificate] and
    [SELECT ... FROM snapshot_tunnels WHERE certificate = ?1 ORDER BY tunnel_id]. *)
Definition agent_rows (db : Database) : list (bytes * str) :=
  merge_sort agent_row_le (map_to_list (snapshot_agents db)).
Definition tunnel_rows (certificate : bytes) (db : Database) : list (bytes * str * Z) :=
  merge_sort tunnel_row_le
    (filter (λ row, row.1.1 = certificate) (map_to_list (snapshot_tunnels db))).

Definition read_tunnel (row : bytes * str * Z) : RResult TunnelGrant :=
  tunnel_id ← map_err (λ _, SR_Corrupt) (TunnelId_new row.1.2);
  status ← match row.2 with 1 => Ok Enabled | 2 => Ok Disabled | _ => Err SR_Corrupt end;
  Ok (MkTunnelGrant tunnel_id status).

Fixpoint read_agents (rows : list (bytes * str)) : RSql (list AgentGrant) :=
  match rows with
  | [] => mret []
  | (certificate, agent_id) :: rows =>
      certificate ← lift (decode_fingerprint certificate);
      agent_id ← lift (map_err (λ _, SR_Corrupt) (AgentId_new agent_id));
      tunnels ← query SR_Storage (tunnel_rows (fp_bytes certificate));
      tunnel_grants ← lift (collect read_tunnel tunnels);
      grants ← read_agents rows;
      mret (MkAgentGrant certificate agent_id tunnel_grants :: grants)
  end.

Section repository.
Variable sha256 : bytes → bytes.

(** The statements of a load run on one database.  Outside a transaction another
    process may write between two of them; the rows then do not match the digest
    of the head, and the load fails: [auth_load_failed] below. *)
Definition load_latest_from_connection : RSql (option VersionedAuthorizationSnapshot) :=
  head ← query SR_Storage snapshot_head;
  match head with
  | None => mret None
  | Some (version, expected_digest) =>
      version ← lift (decode_version_blob version);
      rows ← query SR_Storage agent_rows;
      grants ← read_agents rows;
      snapshot ← lift (map_err (λ _, SR_Corrupt) (AuthorizationSnapshot_new grants));
      digest ← lift (map_err SR_Codec (snapshot_digest sha256 snapshot));
      if negb (bool_decide (expected_digest = digest)) then lift (Err SR_Corrupt)
      else mret (Some (MkVersioned version snapshot))
  end.

(** [SqliteSnapshotRepository::connect]. *)
Definition connect {E} (storage : E) : Sql E unit := query storage (λ _, tt).

Definition load_latest : RSql (option VersionedAuthorizationSnapshot) :=
  connect SR_Storage ;; load_latest_from_connection.

(** ** Committing *)

(** [INSERT INTO snapshot_agents] and [INSERT INTO snapshot_tunnels]: the
    constraints are the primary keys, the CHECKs and the foreign key. *)
Definition insert_agent (certificate : bytes) (agent_id : str) (db : Database)
    : option (unit * Database) :=
  if negb (zlen certificate =? 32) then None
  else match snapshot_agents db !! certificate with
       | Some _ => None
       | None => Some (tt, with_agents (<[certificate := agent_id]> (snapshot_agents db)) db)
       end.
Definition insert_tunnel (certificate : bytes) (tunnel_id : str) (status : Z) (db : Database)
    : option (unit * Database) :=
  if negb ((status =? 1) || (status =? 2)) then None
  else match snapshot_agents db !! certificate, snapshot_tunnels db !! (certificate, tunnel_id) with
       | Some _, None =>
           Some (tt, with_tunnels (<[(certificate, tunnel_id) := status]> (snapshot_tunnels db)) db)
       | _, _ => None
       end.

Fixpoint insert_tunnel_grants {E} (storage : E) (certificate : CertificateFingerprint)
    (tunnels : list TunnelGrant) : Sql E unit :=
  match tunnels with
  | [] => mret tt
  | tunnel :: tunnels =>
      let status := match tg_status tunnel with Enabled => 1 | Disabled => 2 end in
      execute storage
        (insert_tunnel (fp_bytes certificate) (tunnel_str (tg_tunnel_id tunnel)) status) ;;
      insert_tunnel_grants storage certificate tunnels
  end.

Fixpoint insert_agent_grants {E} (storage : E) (grants : list AgentGrant) : Sql E unit :=
  match grants with
  | [] => mret tt
  | grant :: grants =>
      execute storage
        (insert_agent (fp_bytes (ag_certificate grant)) (agent_str (ag_agent_id grant))) ;;
      insert_tunnel_grants storage (ag_certificate grant) (ag_tunnels grant) ;;
      insert_agent_grants storage grants
  end.

(** Delete all rows and insert those of the snapshot. *)
Definition rewrite_grants {E} (storage : E) (grants : list AgentGrant) : Sql E unit :=
  update storage (with_tunnels ∅) ;;
  update storage (with_agents ∅) ;;
  insert_agent_grants storage grants.

(** [INSERT INTO snapshot_head ... ON CONFLICT DO UPDATE] *)
Definition upsert_head (version digest : bytes) (db : Database) : option (unit * Database) :=
  if (zlen version =? 8) && (zlen digest =? 32)
  then Some (tt, with_head (Some (version, digest)) db) else None.

(** The writes of [SqliteSnapshotRepository::commit], and the whole. *)
Definition apply_snapshot (snapshot : VersionedAuthorizationSnapshot) (digest : bytes)
    (previous : option SnapshotVersion) : RSql (RResult SnapshotCommitOutcome) :=
  rewrite_grants SR_Storage (grants (va_snapshot snapshot)) ;;
  execute SR_Storage (upsert_head (to_be 8 (version_raw (va_version snapshot))) digest) ;;
  commit SR_Storage ;;
  mret (Ok (CommitApplied previous (va_version snapshot))).

Definition repository_commit (snapshot : VersionedAuthorizationSnapshot)
    : RSql SnapshotCommitOutcome :=
  digest ← lift (map_err SR_Codec (snapshot_digest sha256 (va_snapshot snapshot)));
  connect SR_Storage ;;
  transaction SR_Storage (
    current ← query SR_Storage snapshot_head;
    match current with
    | Some (version, current_digest) =>
        version ← lift (decode_version_blob version);
        if version_raw (va_version snapshot) <? version_raw version
        then lift (Err (SR_StaleVersion version (va_version snapshot)))
        else if bool_decide (va_version snapshot = version)
        then if bool_decide (current_digest = digest)
             then mret (Ok (CommitUnchanged version))
             else lift (Err (SR_ConflictingVersion version))
        else apply_snapshot snapshot digest (Some version)
    | None => apply_snapshot snapshot digest None
    end).
End repository.

(** ** Lemmas: collecting and reading *)

Lemma collect_Ok {E A B} (f : A → Result E B) l ys :
  collect f l = Ok ys ↔ Forall2 (λ x y, f x = Ok y) l ys.
Proof.
  revert ys. induction l as [|x l IH]; intros ys; cbn [collect].
  - split; [by intros [= <-]|by inversion 1].
  - rewrite bind_Ok. setoid_rewrite bind_Ok. setoid_rewrite IH. split.
    + intros (y & ? & ys' & ? & [= <-]). by constructor.
    + inversion 1; subst; eauto.
Qed.

Lemma read_agents_reader rows : reader SR_Storage (read_agents rows).
Proof.
  induction rows as [|[c a] rows IH]; cbn [read_agents]; [apply reader_ret|].
  repeat (apply reader_bind; [auto with sql|intros ?]); auto with sql.
Qed.

Lemma load_reader sha256 : reader SR_Storage (load_latest_from_connection sha256).
Proof.
  unfold load_latest_from_connection. apply reader_bind; [auto with sql|intros [[v d]|]];
    [|auto with sql].
  repeat (apply reader_bind; [auto using read_agents_reader with sql|intros ?]).
  case_match; auto with sql.
Qed.

(** The durable snapshot: what a load without faults returns. *)
Definition stored (sha256 : bytes → bytes) (db : Database)
    : RResult (option VersionedAuthorizationSnapshot) :=
  (exec (load_latest_from_connection sha256) db).1.

Lemma load_clean sha256 db : clean (load_latest_from_connection sha256) db (stored sha256 db) db.
Proof. apply (reader_exec SR_Storage), load_reader. Qed.

Lemma load_runs sha256 db r db' :
  runs (load_latest_from_connection sha256) db r db' →
  db' = db ∧ (r = Err SR_Storage ∨ r = stored sha256 db).
Proof. apply reader_runs, load_reader. Qed.

(** [stored] looks at the three snapshot tables only. *)
Definition same_tables (db db' : Database) : Prop :=
  snapshot_head db' = snapshot_head db ∧ snapshot_agents db' = snapshot_agents db ∧
  snapshot_tunnels db' = snapshot_tunnels db.

Definition table_reader {A} (c : RSql A) : Prop :=
  reader SR_Storage c ∧ ∀ db db', same_tables db db' → (exec c db').1 = (exec c db).1.

Lemma table_reader_pure {A} (x : RResult A) : table_reader (lift x).
Proof. split; [apply reader_lift|done]. Qed.

Lemma table_reader_query {A} (f : Database → A) :
  (∀ db db', same_tables db db' → f db' = f db) → table_reader (query SR_Storage f).
Proof.
  intros Hf. split; [apply reader_query|]. intros db db' Hs. unfold exec. cbn. by rewrite (Hf db db').
Qed.

Lemma table_reader_bind {A B} (c : RSql A) (k : A → RSql B) :
  table_reader c → (∀ a, table_reader (k a)) → table_reader (c ≫= k).
Proof.
  intros [Hc Hc'] Hk. assert (∀ a, reader SR_Storage (k a)) as Hkr by apply Hk.
  split; [by apply reader_bind|]. intros db db' Hs.
  rewrite !(reader_exec_bind SR_Storage) by done. rewrite (Hc' db db' Hs).
  destruct (exec c db).1 as [a|e]; [|done]. by apply Hk.
Qed.

Lemma read_agents_table_reader rows : table_reader (read_agents rows).
Proof.
  induction rows as [|[c a] rows IH]; cbn [read_agents]; [apply table_reader_pure|].
  repeat (apply table_reader_bind; [try apply table_reader_pure|intros ?]); try done.
  - apply table_reader_query. intros db db' (_ & _ & Ht). unfold tunnel_rows. by rewrite Ht.
  - apply table_reader_pure.
Qed.

Lemma stored_same_tables sha256 db db' :
  same_tables db db' → stored sha256 db' = stored sha256 db.
Proof.
  assert (table_reader (load_latest_from_connection sha256)) as [_ Hs]; [|by apply Hs].
  unfold load_latest_from_connection. apply table_reader_bind.
  { apply table_reader_query. by intros ? ? (? & _). }
  intros [[blob d]|]; [|apply table_reader_pure].
  apply table_reader_bind; [apply table_reader_pure|intros w].
  apply table_reader_bind.
  { apply table_reader_query. intros ? ? (_ & Ha & _). unfold agent_rows. by rewrite Ha. }
  intros rows. apply table_reader_bind; [apply read_agents_table_reader|intros gs].
  repeat (apply table_reader_bind; [apply table_reader_pure|intros ?]).
  case_match; apply table_reader_pure.
Qed.

(** ** What the tables hold after [rewrite_grants] *)

Definition agent_row (g : AgentGrant) : bytes * str :=
  (fp_bytes (ag_certificate g), agent_str (ag_agent_id g)).
Definition tunnel_row (c : CertificateFingerprint) (t : TunnelGrant) : bytes * str * Z :=
  (fp_bytes c, tunnel_str (tg_tunnel_id t), match tg_status t with Enabled => 1 | Disabled => 2 end).
Definition grant_tunnel_rows (g : AgentGrant) : list (bytes * str * Z) :=
  tunnel_row (ag_certificate g) <$> ag_tunnels g.

Record tables_hold (gs : list AgentGrant) (db : Database) : Prop := {
  th_agents : map_to_list (snapshot_agents db) ≡ₚ agent_row <$> gs;
  th_tunnels : map_to_list (snapshot_tunnels db) ≡ₚ gs ≫= grant_tunnel_rows
}.

(** [db'] differs from [db] in the snapshot's rows only. *)
Record rows_only (db db' : Database) : Prop := {
  ro_head : snapshot_head db' = snapshot_head db;
  ro_tokens : enrollment_bootstrap_tokens db' = enrollment_bootstrap_tokens db;
  ro_credentials : agent_credentials db' = agent_credentials db
}.

#[global] Instance rows_only_preorder : PreOrder rows_only.
Proof. split; [by split|]. intros x y z [] []. split; congruence. Qed.
#[export] Hint Extern 1 (rows_only ?x ?x) => reflexivity : sql.

Lemma insert_tunnel_grants_runs {E} (st : E) c ts db r db' base :
  runs (insert_tunnel_grants st c ts) db r db' →
  map_to_list (snapshot_tunnels db) ≡ₚ base →
  rows_only db db' ∧ snapshot_agents db' = snapshot_agents db ∧
  (r = Err st ∨
   r = Ok tt ∧ map_to_list (snapshot_tunnels db') ≡ₚ base ++ (tunnel_row c <$> ts)).
Proof.
  revert db base. induction ts as [|t ts IH]; intros db base Hr Hb; cbn [insert_tunnel_grants] in Hr.
  { sql_step Hr. split_and!; [done|done|]. right. by rewrite fmap_nil, app_nil_r. }
  apply runs_bind in Hr as [(e & -> & Hr)|(u & db1 & H1 & Hr)].
  { apply runs_execute in Hr as [[[= ->] ->]|(a & ? & _)]; [|done]. auto with sql. }
  apply runs_execute in H1 as [[? _]|(a & [= ->] & H1)]; [done|].
  unfold insert_tunnel in H1. case_match; [done|].
  destruct (snapshot_agents db !! _) eqn:Ha; [|done].
  destruct (snapshot_tunnels db !! _) eqn:Ht; [done|]. injection H1 as <- <-.
  apply (IH _ (base ++ [tunnel_row c t])) in Hr as (Hro & Hag & Hor).
  - split_and!; [by destruct Hro; split|done|]. destruct Hor as [|[-> Hp]]; [by left|right].
    split; [done|]. rewrite Hp. by rewrite <-(assoc_L (++)).
  - cbn. rewrite map_to_list_insert by done. rewrite Hb.
    by rewrite (comm (++) base).
Qed.

Lemma insert_agent_grants_runs {E} (st : E) gs db r db' base :
  runs (insert_agent_grants st gs) db r db' →
  tables_hold base db →
  rows_only db db' ∧ (r = Err st ∨ r = Ok tt ∧ tables_hold (base ++ gs) db').
Proof.
  revert db base. induction gs as [|g gs IH]; intros db base Hr Hb; cbn [insert_agent_grants] in Hr.
  { sql_step Hr. split; [done|]. right. by rewrite app_nil_r. }
  apply runs_bind in Hr as [(e & -> & Hr)|(u & db1 & H1 & Hr)].
  { apply runs_execute in Hr as [[[= ->] ->]|(a & ? & _)]; [|done]. auto with sql. }
  apply runs_execute in H1 as [[? _]|(a & [= ->] & H1)]; [done|].
  unfold insert_agent in H1. case_match; [done|].
  destruct (snapshot_agents db !! _) eqn:Ha; [done|]. injection H1 as <- <-.
  destruct Hb as [Hba Hbt].
  apply runs_bind in Hr as [(e & -> & Hr)|(u & db1 & H1 & Hr)].
  { eapply insert_tunnel_grants_runs in Hr as (Hro & _ & [[= ->]|[? _]]); [|done..].
    split; [by destruct Hro; split|auto]. }
  eapply insert_tunnel_grants_runs in H1 as (Hro & Hag & [?|[_ Hp]]); [done| |done].
  apply (IH _ (base ++ [g])) in Hr as (Hro' & Hor).
  - split; [destruct Hro, Hro'; split; cbn in *; congruence|].
    by rewrite (assoc_L (++)) in Hor || rewrite <-(assoc_L (++)) in Hor.
  - split.
    + rewrite Hag. cbn. rewrite map_to_list_insert, Hba, fmap_app by done.
      by rewrite (comm (++)).
    + rewrite Hp, bind_app. cbn. by rewrite app_nil_r.
Qed.

Lemma rewrite_grants_runs {E} (st : E) gs db r db' :
  runs (rewrite_grants st gs) db r db' →
  rows_only db db' ∧ (r = Err st ∨ r = Ok tt ∧ tables_hold gs db').
Proof.
  unfold rewrite_grants. intros Hr.
  apply runs_bind in Hr as [(e & -> & Hr)|(u & db1 & H1 & Hr)].
  { apply runs_update in Hr as [[[= ->] ->]|[? _]]; [|done]. split; [by split|auto]. }
  apply runs_update in H1 as [[? _]|[_ ->]]; [done|].
  apply runs_bind in Hr as [(e & -> & Hr)|(u' & db2 & H1 & Hr)].
  { apply runs_update in Hr as [[[= ->] ->]|[? _]]; [|done]. split; [by split|auto]. }
  apply runs_update in H1 as [[? _]|[_ ->]]; [done|].
  apply (insert_agent_grants_runs _ _ _ _ _ []) in Hr as [Hro Hor].
  - split; [|done]. by destruct Hro; split.
  - split; cbn; by rewrite map_to_list_empty.
Qed.

(** ** Loading what was written *)

Lemma tunnel_rows_hold gs g db :
  tables_hold gs db → NoDup (ag_certificate <$> gs) → g ∈ gs →
  tunnel_rows (fp_bytes (ag_certificate g)) db ≡ₚ grant_tunnel_rows g.
Proof.
  intros [_ Ht] Hnd [l1 [l2 ->]]%list_elem_of_split. unfold tunnel_rows.
  rewrite merge_sort_Permutation, Ht.
  assert (∀ l, ag_certificate g ∉ ag_certificate <$> l →
    filter (λ row : bytes * str * Z, row.1.1 = fp_bytes (ag_certificate g))
      (l ≫= grant_tunnel_rows) = []) as Hnone.
  { intros l Hl. apply filter_none, Forall_forall.
    intros row (h & Hrow & Hh)%list_elem_of_bind.
    apply list_elem_of_fmap in Hrow as (t & -> & _). cbn. intros Heq. apply Hl.
    apply list_elem_of_fmap. exists h. split; [|done].
    destruct (ag_certificate g), (ag_certificate h). cbn in Heq. by subst. }
  rewrite bind_app, bind_cons, !filter_app.
  rewrite fmap_app, fmap_cons in Hnd. apply NoDup_app in Hnd as (_ & Hd1 & Hd2).
  apply NoDup_cons in Hd2 as [Hd2 _].
  rewrite (Hnone l1), (Hnone l2), app_nil_r by set_solver.
  cbn. rewrite filter_all; [done|].
  apply Forall_fmap, Forall_true. by intros t.
Qed.

Lemma read_tunnel_row c t : tunnel_grant_ok t → read_tunnel (tunnel_row c t) = Ok t.
Proof.
  destruct t as [[t] st]. unfold tunnel_grant_ok, read_tunnel. cbn. intros Hok.
  rewrite (proj2 (TunnelId_new_Ok t (MkTunnelId t))) by done. by destruct st.
Qed.

Lemma collect_tunnel_rows c ts rows :
  Forall tunnel_grant_ok ts → rows ≡ₚ tunnel_row c <$> ts →
  ∃ ts', collect read_tunnel rows = Ok ts' ∧ ts' ≡ₚ ts.
Proof.
  intros Hok Hp. apply Permutation_map_inv in Hp as (ts' & -> & Hp).
  exists ts'. split; [|by symmetry]. apply collect_Ok.
  rewrite Hp in Hok. clear Hp.
  induction Hok; constructor; [by apply read_tunnel_row|done].
Qed.

Lemma decode_fingerprint_Ok c :
  zlen (fp_bytes c) = 32 → decode_fingerprint (fp_bytes c) = Ok c.
Proof.
  intros H. unfold decode_fingerprint, decode_array. rewrite H. by destruct c.
Qed.

(** A grant up to the order of its tunnels. *)
Definition grant_perm (g h : AgentGrant) : Prop :=
  ag_certificate h = ag_certificate g ∧ ag_agent_id h = ag_agent_id g ∧
  ag_tunnels h ≡ₚ ag_tunnels g.

Lemma read_agents_hold all gs db :
  tables_hold all db → NoDup (ag_certificate <$> all) → gs ⊆ all → Forall agent_grant_ok all →
  ∃ gs', clean (read_agents (agent_row <$> gs)) db (Ok gs') db ∧ Forall2 grant_perm gs gs'.
Proof.
  intros Hh Hnd Hsub Hok. induction gs as [|g gs IH]; [by exists []|].
  destruct IH as (gs' & Hcl & Hp); [set_solver|].
  assert (g ∈ all) as Hg by set_solver.
  pose proof (proj1 (Forall_forall _ _) Hok g Hg) as (Hfp & Ha & Hts).
  destruct (collect_tunnel_rows (ag_certificate g) _ _ Hts
    (tunnel_rows_hold _ _ _ Hh Hnd Hg)) as (ts & Hc & Hpt).
  exists (MkAgentGrant (ag_certificate g) (ag_agent_id g) ts :: gs'). split; [|by constructor].
  cbn [fmap list_fmap agent_row read_agents].
  eapply clean_bind; [rewrite decode_fingerprint_Ok by done; apply clean_lift|].
  eapply clean_bind.
  { rewrite (proj2 (AgentId_new_Ok _ (ag_agent_id g))); [apply clean_lift|].
    by destruct (ag_agent_id g). }
  eapply clean_bind; [apply clean_query|].
  eapply clean_bind; [rewrite Hc; apply clean_lift|].
  eapply clean_bind; [exact Hcl|]. apply clean_ret.
Qed.

Lemma grant_perm_agent g h : grant_ok g → grant_perm g h → grant_ok h ∧ grant_agent h = grant_agent g.
Proof.
  unfold grant_ok, grant_agent. intros Hok (_ & -> & Hp). split; [by rewrite Hp|]. f_equal.
  apply list_to_map_proper; [by rewrite <-list_fmap_compose, Hp|by rewrite Hp].
Qed.

Lemma grant_perm_new gs gs' :
  grants_ok gs → Forall2 grant_perm gs gs' →
  AuthorizationSnapshot_new gs' = AuthorizationSnapshot_new gs.
Proof.
  intros [Hok Hnd] Hp.
  assert (ag_certificate <$> gs' = ag_certificate <$> gs ∧ Forall grant_ok gs' ∧
    (λ g, (ag_certificate g, grant_agent g)) <$> gs' =
    (λ g, (ag_certificate g, grant_agent g)) <$> gs) as (Hc & Hok' & Heq).
  { clear Hnd. induction Hp as [|g h gs gs' Hgh Hp IH]; [done|].
    apply Forall_cons in Hok as [Hg Hok]. destruct (IH Hok) as (Hc & Hf & Heq).
    destruct (grant_perm_agent _ _ Hg Hgh) as [Hh Hag]. destruct Hgh as (Hcc & _ & _).
    rewrite !fmap_cons, Hc, Heq, Hcc, Hag. split_and!; [done|by constructor|done]. }
  rewrite (proj2 (snapshot_new_Ok gs _) (conj (conj Hok Hnd) eq_refl)).
  apply snapshot_new_Ok. split; [split; [done|by rewrite Hc]|by rewrite Heq].
Qed.

Lemma versioned_blob v : 0 < version_raw v < 2 ^ 64 →
  decode_version_blob (to_be 8 (version_raw v)) = Ok v.
Proof.
  intros Hv. unfold decode_version_blob, decode_array. rewrite zlen_to_be.
  change (Z.of_nat 8 =? 8) with true. cbn [mbind result_bind].
  rewrite from_be_to_be_u64 by (unfold u_range; lia).
  unfold SnapshotVersion_new. destruct (Z.eqb_spec (version_raw v) 0); [lia|]. by destruct v.
Qed.

(** Tables that hold the grants of a snapshot under its digest load as it. *)
Lemma hold_stored sha256 db v digest :
  snapshot_ok (va_snapshot v) → 0 < version_raw (va_version v) < 2 ^ 64 →
  tables_hold (grants (va_snapshot v)) db →
  snapshot_head db = Some (to_be 8 (version_raw (va_version v)), digest) →
  snapshot_digest sha256 (va_snapshot v) = Ok digest →
  stored sha256 db = Ok (Some v).
Proof.
  intros Hok Hv Hh Hhead Hd. destruct (grants_grants_ok (va_snapshot v)) as [Hgok Hnd].
  assert (∃ gs, agent_rows db = agent_row <$> gs ∧ grants (va_snapshot v) ≡ₚ gs)
    as (gs & Hrows & Hp).
  { apply Permutation_map_inv. unfold agent_rows.
    rewrite merge_sort_Permutation. apply (th_agents _ _ Hh). }
  destruct (read_agents_hold (grants (va_snapshot v)) gs db Hh Hnd) as (gs' & Hcl & Hgp);
    [by rewrite <-Hp|done|].
  assert (AuthorizationSnapshot_new gs' = Ok (va_snapshot v)) as Hnew.
  { assert (grants_ok gs) as Hgs by (by eapply grants_ok_perm; [exact Hp|split]).
    rewrite (grant_perm_new gs) by done. rewrite <-(snapshot_new_grants (va_snapshot v)).
    symmetry. by apply snapshot_new_perm. }
  unfold stored. erewrite clean_exec; [done|].
  unfold load_latest_from_connection. eapply clean_bind; [apply clean_query|].
  rewrite Hhead. eapply clean_bind; [rewrite versioned_blob by done; apply clean_lift|].
  eapply clean_bind; [apply clean_query|]. rewrite Hrows. eapply clean_bind; [exact Hcl|].
  eapply clean_bind; [rewrite Hnew; apply clean_lift|].
  eapply clean_bind; [rewrite Hd; apply clean_lift|].
  rewrite bool_decide_true by done. cbn. destruct v. apply clean_ret.
Qed.

(** ** Writing succeeds when nothing fails *)

Lemma insert_tunnel_grants_clean {E} (st : E) c ts db :
  is_Some (snapshot_agents db !! fp_bytes c) → NoDup (tg_tunnel_id <$> ts) →
  (∀ t, t ∈ ts → snapshot_tunnels db !! (fp_bytes c, tunnel_str (tg_tunnel_id t)) = None) →
  ∃ db', clean (insert_tunnel_grants st c ts) db (Ok tt) db' ∧
    snapshot_agents db' = snapshot_agents db ∧
    ∀ k, k.1 ≠ fp_bytes c → snapshot_tunnels db' !! k = snapshot_tunnels db !! k.
Proof.
  revert db. induction ts as [|t ts IH]; intros db Ha Hnd Hfresh; [by exists db|].
  rewrite fmap_cons in Hnd. apply NoDup_cons in Hnd as [Hnin Hnd].
  set (status := match tg_status t with Enabled => 1 | Disabled => 2 end).
  set (db1 := with_tunnels (<[(fp_bytes c, tunnel_str (tg_tunnel_id t)) := status]>
    (snapshot_tunnels db)) db).
  destruct (IH db1) as (db' & Hcl & Hag & Hk); [done|done| |].
  { intros t' Ht'. cbn. rewrite lookup_insert_ne; [apply Hfresh; set_solver|].
    intros [= Heq]. apply Hnin. apply list_elem_of_fmap. exists t'. split; [|done].
    destruct (tg_tunnel_id t), (tg_tunnel_id t'). cbn in Heq. by subst. }
  exists db'. split_and!; [|done|].
  - cbn [insert_tunnel_grants]. eapply clean_bind; [|exact Hcl].
    apply clean_execute. unfold insert_tunnel. fold status.
    replace ((status =? 1) || (status =? 2)) with true by (unfold status; by destruct (tg_status t)).
    destruct Ha as [a ->]. cbn [negb]. by rewrite Hfresh by set_solver.
  - intros k Hne. rewrite Hk by done. cbn. apply lookup_insert_ne. naive_solver.
Qed.

Lemma insert_agent_grants_clean {E} (st : E) gs db :
  grants_ok gs → Forall (λ g, zlen (fp_bytes (ag_certificate g)) = 32) gs →
  (∀ g, g ∈ gs → snapshot_agents db !! fp_bytes (ag_certificate g) = None ∧
     ∀ t, snapshot_tunnels db !! (fp_bytes (ag_certificate g), t) = None) →
  ∃ db', clean (insert_agent_grants st gs) db (Ok tt) db'.
Proof.
  revert db. induction gs as [|g gs IH]; intros db [Hok Hnd] Hlen Hfresh; [by exists db|].
  apply Forall_cons in Hok as [Hg Hok]. rewrite fmap_cons in Hnd.
  apply NoDup_cons in Hnd as [Hnin Hnd]. apply Forall_cons in Hlen as [Hl Hlen].
  destruct (Hfresh g) as [Hfa Hft]; [set_solver|].
  set (db1 := with_agents (<[fp_bytes (ag_certificate g) := agent_str (ag_agent_id g)]>
    (snapshot_agents db)) db).
  destruct (insert_tunnel_grants_clean st (ag_certificate g) (ag_tunnels g) db1)
    as (db2 & Hcl & Hag & Hk); [cbn; rewrite lookup_insert_eq; by eexists|done|done|].
  assert (∀ h, h ∈ gs → fp_bytes (ag_certificate h) ≠ fp_bytes (ag_certificate g)) as Hne.
  { intros h Hh Heq. apply Hnin, list_elem_of_fmap. exists h. split; [|done].
    destruct (ag_certificate g), (ag_certificate h). cbn in Heq. by subst. }
  destruct (IH db2) as (db' & Hcl'); [done|done| |].
  { intros h Hh. specialize (Hne h Hh). destruct (Hfresh h) as [Hha Hht]; [set_solver|]. split.
    - rewrite Hag. cbn. by rewrite lookup_insert_ne.
    - intros t. rewrite Hk by done. apply Hht. }
  exists db'. cbn [insert_agent_grants]. eapply clean_bind; [|eapply clean_bind; [exact Hcl|exact Hcl']].
  apply clean_execute. unfold insert_agent. rewrite Hl, Hfa. done.
Qed.

Lemma rewrite_grants_clean {E} (st : E) s db :
  snapshot_ok s → ∃ db', clean (rewrite_grants st (grants s)) db (Ok tt) db'.
Proof.
  intros Hok. set (db1 := with_agents ∅ (with_tunnels ∅ db)).
  destruct (insert_agent_grants_clean st (grants s) db1) as (db' & Hcl).
  - apply grants_grants_ok.
  - eapply Forall_impl; [exact Hok|]. by intros g (? & _).
  - intros g _. cbn. split; [apply lookup_empty|]. intros. apply lookup_empty.
  - exists db'. unfold rewrite_grants.
    eapply clean_bind; [apply clean_update|]. eapply clean_bind; [apply clean_update|]. done.
Qed.

(** ** What a loaded snapshot satisfies *)

Definition durable_ok (v : VersionedAuthorizationSnapshot) : Prop :=
  snapshot_ok (va_snapshot v) ∧ 0 < version_raw (va_version v) < 2 ^ 64.

Lemma read_agents_ok rows db gs db' :
  runs (read_agents rows) db (Ok gs) db' → Forall agent_grant_ok gs.
Proof.
  revert gs. induction rows as [|[c a] rows IH]; intros gs Hr; cbn [read_agents] in Hr.
  { sql_step Hr. constructor. }
  apply runs_bind in Hr as [(? & ? & _)|(c' & ? & [Hc ->]%runs_lift & Hr)]; [done|].
  apply runs_bind in Hr as [(? & ? & _)|(a' & ? & [Ha ->]%runs_lift & Hr)]; [done|].
  apply runs_bind in Hr as [(? & ? & _)|(ts & ? & [-> _]%runs_query & Hr)]; [done|].
  apply runs_bind in Hr as [(? & ? & _)|(tg & ? & [Ht ->]%runs_lift & Hr)]; [done|].
  apply runs_bind in Hr as [(? & ? & _)|(gs' & ? & Hrec & Hr)]; [done|].
  pose proof (reader_runs _ _ _ _ _ (read_agents_reader rows) Hrec) as [-> _].
  apply runs_ret in Hr as [[= ->] ->]. constructor; [|by eapply IH].
  symmetry in Hc, Ha, Ht. unfold decode_fingerprint, decode_array in Hc. inv_result.
  apply AgentId_new_Ok in Ha as [-> ?]. apply collect_Ok in Ht.
  split_and!; [by apply Z.eqb_eq|done|]. cbn.
  clear -Ht. induction Ht as [|row t rows tg Hrow Ht IH]; constructor; [|done].
  unfold read_tunnel in Hrow. inv_result.
  by match goal with H : TunnelId_new _ = Ok _ |- _ => apply TunnelId_new_Ok in H as [-> ?] end.
Qed.

Lemma new_snapshot_ok gs s :
  Forall agent_grant_ok gs → AuthorizationSnapshot_new gs = Ok s → snapshot_ok s.
Proof.
  intros Hok Hs. unfold snapshot_ok. rewrite (grants_of_new _ _ Hs). apply Forall_fmap.
  apply snapshot_new_Ok in Hs as [[Hgok _] _].
  apply Forall_forall. intros g Hg.
  pose proof (proj1 (Forall_forall _ _) Hok g Hg) as (? & ? & Hts).
  pose proof (proj1 (Forall_forall _ _) Hgok g Hg) as Hgg.
  split_and!; [done|done|]. by rewrite (canon_tunnels g Hgg).
Qed.

Lemma decode_version_blob_Ok bs v :
  decode_version_blob bs = Ok v → 0 < version_raw v < 2 ^ 64.
Proof.
  unfold decode_version_blob, decode_array, SnapshotVersion_new. intros. inv_result.
  case_match; simplify_eq. cbn.
  match goal with H : (zlen ?b =? 8) = true |- _ => apply Z.eqb_eq in H; pose proof (from_be_range b) as Hr; rewrite H in Hr end.
  match goal with H : (_ =? 0) = false |- _ => apply Z.eqb_neq in H end.
  change (8 * 8) with 64 in *. lia.
Qed.

Lemma stored_facts sha256 db v :
  stored sha256 db = Ok (Some v) →
  durable_ok v ∧
  ∃ blob digest, snapshot_head db = Some (blob, digest) ∧
    decode_version_blob blob = Ok (va_version v) ∧
    snapshot_digest sha256 (va_snapshot v) = Ok digest.
Proof.
  intros Hs. pose proof (load_clean sha256 db) as Hr. rewrite Hs in Hr.
  apply clean_runs in Hr. unfold load_latest_from_connection in Hr.
  apply runs_bind in Hr as [(? & ? & _)|(h & ? & [-> [?|[= ->]]]%runs_query & Hr)]; [done..|].
  destruct (snapshot_head db) as [[blob digest]|]; [|by apply runs_ret in Hr as [? _]].
  apply runs_bind in Hr as [(? & ? & _)|(ver & ? & [Hv ->]%runs_lift & Hr)]; [done|].
  apply runs_bind in Hr as [(? & ? & _)|(rows & ? & [-> _]%runs_query & Hr)]; [done|].
  apply runs_bind in Hr as [(? & ? & _)|(gs & ? & Hgs & Hr)]; [done|].
  apply runs_bind in Hr as [(? & ? & _)|(s & ? & [Hnew ->]%runs_lift & Hr)]; [done|].
  apply runs_bind in Hr as [(? & ? & _)|(d & ? & [Hd ->]%runs_lift & Hr)]; [done|].
  symmetry in Hv, Hnew, Hd. inv_result. case_bool_decide; [|by apply runs_lift in Hr as [? _]].
  apply runs_ret in Hr as [[= ->] _]. subst. split.
  - split; [|by eapply decode_version_blob_Ok].
    eapply new_snapshot_ok; [by eapply read_agents_ok|done].
  - by exists blob, d.
Qed.

(** ** Committing a snapshot *)

(** The head row with the digest of [v]. *)
Lemma upsert_stored sha256 gsdb v digest db' :
  durable_ok v → tables_hold (grants (va_snapshot v)) gsdb →
  snapshot_digest sha256 (va_snapshot v) = Ok digest →
  snapshot_head db' = Some (to_be 8 (version_raw (va_version v)), digest) →
  snapshot_agents db' = snapshot_agents gsdb → snapshot_tunnels db' = snapshot_tunnels gsdb →
  stored sha256 db' = Ok (Some v).
Proof.
  intros [Hok Hv] [Ha Ht] Hd Hh Hag Htu. eapply hold_stored; [done..| |done|done].
  split; [by rewrite Hag|by rewrite Htu].
Qed.

(** [db'] has the enrollment tables of [db]. *)
Definition same_enrollment (db db' : Database) : Prop :=
  enrollment_bootstrap_tokens db' = enrollment_bootstrap_tokens db ∧
  agent_credentials db' = agent_credentials db.

Lemma upsert_head_Some version digest db a db' :
  upsert_head version digest db = Some (a, db') →
  zlen digest = 32 ∧ db' = with_head (Some (version, digest)) db.
Proof.
  unfold upsert_head. case_match eqn:Hc; [|done]. intros [= <- <-].
  apply andb_prop in Hc as [_ Hc%Z.eqb_eq]. done.
Qed.

Lemma apply_runs sha256 v digest db previous r db' :
  durable_ok v → snapshot_digest sha256 (va_snapshot v) = Ok digest →
  runs (apply_snapshot v digest previous) db (Ok r) db' →
  r = Ok (CommitApplied previous (va_version v)) ∧ stored sha256 db' = Ok (Some v) ∧
  same_enrollment db db'.
Proof.
  intros Hok Hd Hr. unfold apply_snapshot in Hr.
  apply runs_bind in Hr as [(? & ? & _)|(u & db1 & H1 & Hr)]; [done|].
  apply rewrite_grants_runs in H1 as [Hro [?|[_ Hh]]]; [done|].
  apply runs_bind in Hr as [(? & ? & _)|(u1 & db2 & H2 & Hr)]; [done|].
  apply runs_execute in H2 as [[? _]|(u2 & _ & [_ ->]%upsert_head_Some)]; [done|].
  apply runs_bind in Hr as [(? & ? & _)|(u3 & db3 & [-> _]%runs_query & Hr)]; [done|].
  apply runs_ret in Hr as [[= ->] ->]. split_and!; [done| |].
  - by eapply upsert_stored.
  - by destruct Hro as [_ ? ?]; split.
Qed.

Lemma repository_commit_runs sha256 v db r db' :
  durable_ok v → runs (repository_commit sha256 v) db r db' →
  match r with
  | Ok (CommitApplied previous current) =>
      current = va_version v ∧ stored sha256 db' = Ok (Some v) ∧ same_enrollment db db' ∧
      match snapshot_head db with
      | None => previous = None
      | Some (blob, _) => ∃ w, previous = Some w ∧ decode_version_blob blob = Ok w ∧
                               version_raw w < version_raw (va_version v)
      end
  | Ok (CommitUnchanged version) =>
      db' = db ∧ version = va_version v ∧
      ∃ blob digest, snapshot_head db = Some (blob, digest) ∧ decode_version_blob blob = Ok version ∧
        snapshot_digest sha256 (va_snapshot v) = Ok digest
  | Err _ => db' = db
  end.
Proof.
  intros Hok Hr. unfold repository_commit in Hr.
  apply runs_bind in Hr as [(e & -> & [_ ->]%runs_lift)|(digest & ? & [Hd ->]%runs_lift & Hr)]; [done|].
  symmetry in Hd. apply map_err_Ok in Hd.
  apply runs_bind in Hr as [(e & -> & [-> _]%runs_query)|(u & ? & [-> _]%runs_query & Hr)]; [done|].
  apply runs_transaction in Hr as [(e & -> & ->)|Hr]; [done|].
  apply runs_bind in Hr as [(e & ? & _)|(h & ? & [-> [?|[= ->]]]%runs_query & Hr)]; [done..|].
  destruct (snapshot_head db) as [[blob digest']|] eqn:Hhead.
  2: { apply (apply_runs sha256) in Hr as (-> & ? & ?); [by split_and!|done..]. }
  apply runs_bind in Hr as [(e & ? & _)|(w & ? & [Hw ->]%runs_lift & Hr)]; [done|]. symmetry in Hw.
  destruct (Z.ltb_spec (version_raw (va_version v)) (version_raw w));
    [by apply runs_lift in Hr as [? _]|].
  case_bool_decide as Heq.
  - case_bool_decide; [|by apply runs_lift in Hr as [? _]].
    apply runs_ret in Hr as [[= ->] ->]. subst. split_and!; [done|done|]. by exists blob, digest.
  - apply (apply_runs sha256) in Hr as (-> & ? & ?); [|done..]. split_and!; [done..|].
    exists w. split_and!; [done..|].
    assert (version_raw w ≠ version_raw (va_version v)); [|lia].
    intros Hraw. apply Heq. destruct (va_version v), w. cbn in Hraw. by subst.
Qed.

Lemma apply_clean sha256 v digest previous db :
  (∀ x, zlen (sha256 x) = 32) → durable_ok v → snapshot_digest sha256 (va_snapshot v) = Ok digest →
  ∃ db', clean (apply_snapshot v digest previous) db (Ok (Ok (CommitApplied previous (va_version v)))) db'.
Proof.
  intros Hsha [Hok _] Hd. destruct (rewrite_grants_clean SR_Storage (va_snapshot v) db Hok) as (db1 & H1).
  assert (zlen digest = 32) as Hlen.
  { unfold snapshot_digest in Hd. inv_result. apply Hsha. }
  eexists. unfold apply_snapshot. eapply clean_bind; [exact H1|].
  eapply clean_bind; [|eapply clean_bind; [apply clean_query|apply clean_ret]].
  apply clean_execute. unfold upsert_head. rewrite zlen_to_be, Hlen. reflexivity.
Qed.

(** ** The authority

    [PersistentSnapshotAuthority]: the publisher of [Authorization] fed from the
    file.  [refresh_from_repository] and [commit] hold the commit gate from the
    storage access to the publication; [Some r] is the answer of the blocking
    task, [None] a task that was lost. *)

Inductive PersistentSnapshotAuthorityError : Type :=
| PA_Uninitialized
| PA_Repository (e : SnapshotRepositoryError)
| PA_StorageTask
| PA_PublishInvariant.

Abbreviation PAResult := (Result PersistentSnapshotAuthorityError).

Section authority.
Context {W : Type → Type} `{LatestValue W}.

Definition loaded_snapshot (answer : option (RResult (option VersionedAuthorizationSnapshot)))
    : PAResult VersionedAuthorizationSnapshot :=
  loaded ← ok_or PA_StorageTask answer;
  loaded ← map_err PA_Repository loaded;
  ok_or PA_Uninitialized loaded.

(** [PersistentSnapshotAuthority::open]. *)
Definition authority_open (answer : option (RResult (option VersionedAuthorizationSnapshot)))
    : PAResult (SnapshotPublisherState W) :=
  snapshot ← loaded_snapshot answer;
  Ok (authorization_snapshot_channel snapshot).

(** [refresh_from_repository] from the answer of its load. *)
Definition refresh_from_repository (publisher : SnapshotPublisherState W)
    (answer : option (RResult (option VersionedAuthorizationSnapshot)))
    : PAResult SnapshotPublishOutcome * SnapshotPublisherState W :=
  match loaded_snapshot answer with
  | Err e => (Err e, publisher)
  | Ok snapshot =>
      let '(r, publisher) := publish publisher snapshot in
      (map_err (λ _, PA_PublishInvariant) r, publisher)
  end.

(** [PersistentSnapshotAuthority::commit] from the answer of its transaction. *)
Definition authority_commit (publisher : SnapshotPublisherState W)
    (snapshot : VersionedAuthorizationSnapshot)
    (answer : option (RResult SnapshotCommitOutcome))
    : PAResult SnapshotCommitOutcome * SnapshotPublisherState W :=
  match (outcome ← ok_or PA_StorageTask answer; map_err PA_Repository outcome) with
  | Err e => (Err e, publisher)
  | Ok outcome =>
      match publish publisher snapshot with
      | (Ok _, publisher) => (Ok outcome, publisher)
      | (Err _, publisher) => (Err PA_PublishInvariant, publisher)
      end
  end.
End authority.

(** A writer of the file advances it: it leaves the durable snapshot alone or
    installs one with a larger version. *)
Definition advances (sha256 : bytes → bytes) (db db' : Database) : Prop :=
  ∀ v, stored sha256 db = Ok (Some v) →
  ∃ v', stored sha256 db' = Ok (Some v') ∧
    (v' = v ∨ version_raw (va_version v) < version_raw (va_version v')).

Class DurableWriter (sha256 : bytes → bytes) (step : Database → Database → Prop) : Prop :=
  writer_advances : ∀ db db', step db db' → advances sha256 db db'.

#[global] Instance advances_preorder sha256 : PreOrder (advances sha256).
Proof.
  split; [intros db v Hv; eauto|]. intros x y z Hxy Hyz v Hv.
  destruct (Hxy v Hv) as (v1 & H1 & Hv1). destruct (Hyz v1 H1) as (v2 & H2 & Hv2).
  exists v2. split; [done|]. destruct Hv1 as [->|], Hv2 as [->|]; auto. right. lia.
Qed.

(** Importing a snapshot, as the command line does in a process of its own. *)
Inductive import_step (sha256 : bytes → bytes) : Database → Database → Prop :=
| step_import v r db db' :
    durable_ok v → runs (repository_commit sha256 v) db r db' → import_step sha256 db db'.

#[global] Instance import_writer sha256 : DurableWriter sha256 (import_step sha256).
Proof.
  intros db db' [v r ? ? Hok Hr] w Hw. pose proof (repository_commit_runs _ _ _ _ _ Hok Hr) as Hc.
  destruct (stored_facts _ _ _ Hw) as (_ & blob & digest & Hhead & Hb & _).
  destruct r as [[previous current|version]|e]; [|destruct Hc as (-> & _); eauto|subst; eauto].
  destruct Hc as (_ & Hst & _ & Hp). rewrite Hhead in Hp. destruct Hp as (w' & _ & Hb' & Hlt).
  exists v. split; [done|]. right. congruence.
Qed.

Section authority_system.
Context {W : Type → Type} `{LatestValueLaws W}.
Variable sha256 : bytes → bytes.
Variable writer : Database → Database → Prop.

(** The commit gate is free, or held by an operation whose storage access is
    done. *)
Inductive Gate : Type :=
| GateFree
| GateRefresh (answer : option (RResult (option VersionedAuthorizationSnapshot)))
| GateCommit (snapshot : VersionedAuthorizationSnapshot) (answer : option (RResult SnapshotCommitOutcome)).

Record AuthoritySystem : Type := MkAuthority {
  as_db : Database;
  as_publisher : SnapshotPublisherState W;
  as_gate : Gate
}.

(** The digest does not take the committed snapshot for the durable one. *)
Definition no_collision (v : VersionedAuthorizationSnapshot) (db : Database) : Prop :=
  ∀ w, stored sha256 db = Ok (Some w) →
  snapshot_digest sha256 (va_snapshot w) = snapshot_digest sha256 (va_snapshot v) →
  va_snapshot w = va_snapshot v.

Inductive authority_step : AuthoritySystem → AuthoritySystem → Prop :=
| auth_write db db' p g :
    writer db db' → authority_step (MkAuthority db p g) (MkAuthority db' p g)
| auth_load db r db' p :
    runs (load_latest sha256) db r db' →
    authority_step (MkAuthority db p GateFree) (MkAuthority db' p (GateRefresh (Some r)))
| auth_load_failed e db p :
    authority_step (MkAuthority db p GateFree) (MkAuthority db p (GateRefresh (Some (Err e))))
| auth_load_lost db p :
    authority_step (MkAuthority db p GateFree) (MkAuthority db p (GateRefresh None))
| auth_refresh db p answer :
    authority_step (MkAuthority db p (GateRefresh answer))
      (MkAuthority db (refresh_from_repository p answer).2 GateFree)
| auth_store v db r db' p (lost : bool) :
    durable_ok v → no_collision v db → runs (repository_commit sha256 v) db r db' →
    authority_step (MkAuthority db p GateFree)
      (MkAuthority db' p (GateCommit v (if lost then None else Some r)))
| auth_commit db p v answer :
    authority_step (MkAuthority db p (GateCommit v answer))
      (MkAuthority db (authority_commit p v answer).2 GateFree).

(** [v] is [w] or older than it. *)
Definition behind (v w : VersionedAuthorizationSnapshot) : Prop :=
  v = w ∨ version_raw (va_version v) < version_raw (va_version w).

Definition authority_inv (s : AuthoritySystem) : Prop :=
  in_sync (as_publisher s) ∧
  ∃ durable, stored sha256 (as_db s) = Ok (Some durable) ∧
    behind (ps_current (as_publisher s)) durable ∧
    match as_gate s with
    | GateFree => True
    | GateRefresh (Some (Ok loaded)) =>
        ∃ v, loaded = Some v ∧ behind (ps_current (as_publisher s)) v ∧ behind v durable
    | GateCommit v (Some (Ok _)) =>
        behind (ps_current (as_publisher s)) v ∧ behind v durable
    | _ => True
    end.

Lemma behind_trans u v w : behind u v → behind v w → behind u w.
Proof. intros [->|] [->|]; unfold behind; auto. right. lia. Qed.

(** Publishing a snapshot the publisher is not ahead of succeeds. *)
Lemma publish_behind p v :
  in_sync p → behind (ps_current p) v →
  is_ok (publish p v).1 = true ∧ in_sync (publish p v).2 ∧ ps_current (publish p v).2 = v.
Proof.
  intros Hp Hb. unfold publish. destruct Hb as [Heq|Hlt].
  - rewrite Heq, Z.ltb_irrefl, !bool_decide_true by done. done.
  - destruct (Z.ltb_spec (version_raw (va_version v)) (version_raw (va_version (ps_current p)))); [lia|].
    rewrite bool_decide_false by (intros Heq; rewrite Heq in Hlt; lia). split_and!; [done| |done].
    unfold in_sync, subscription_current. cbn. by rewrite borrow_send.
Qed.

Lemma load_latest_runs db r db' :
  runs (load_latest sha256) db r db' → db' = db ∧ (r = Err SR_Storage ∨ r = stored sha256 db).
Proof.
  intros Hr. apply runs_bind in Hr as [(e & -> & [-> [[= ->]|?]]%runs_query)|(u & db1 & [-> _]%runs_query & Hr)];
    [auto|done|]. by apply load_runs in Hr.
Qed.

(** A commit leaves the durable snapshot behind or at the committed one. *)
Lemma commit_behind durable v db r db' :
  durable_ok v → no_collision v db → stored sha256 db = Ok (Some durable) →
  runs (repository_commit sha256 v) db r db' →
  match r with
  | Ok _ => behind durable v ∧ stored sha256 db' = Ok (Some v)
  | Err _ => db' = db
  end.
Proof.
  intros Hok Hnc Hst Hr. pose proof (repository_commit_runs _ _ _ _ _ Hok Hr) as Hc.
  destruct (stored_facts _ _ _ Hst) as (_ & blob & digest & Hhead & Hb & Hd).
  destruct r as [[previous current|version]|e]; [| |done].
  - destruct Hc as (_ & ? & _ & Hp). rewrite Hhead in Hp. destruct Hp as (w & _ & Hw & Hlt).
    split; [|done]. right. congruence.
  - destruct Hc as (-> & -> & blob' & digest' & Hhead' & Hb' & Hd').
    assert (durable = v) as ->; [|by split; [left|]].
    specialize (Hnc durable Hst). destruct durable as [dv ds], v as [vv vs]. cbn in *.
    f_equal; [congruence|]. apply Hnc. congruence.
Qed.

Lemma behind_refl v : behind v v.
Proof. by left. Qed.

Lemma refresh_spec p answer :
  in_sync p →
  (∀ loaded, answer = Some (Ok loaded) → ∃ v, loaded = Some v ∧ behind (ps_current p) v) →
  let '(r, p') := refresh_from_repository p answer in
  in_sync p' ∧
  match answer with
  | Some (Ok (Some v)) => is_ok r = true ∧ ps_current p' = v
  | _ => p' = p ∧ r ≠ Err PA_PublishInvariant ∧ r ≠ Err PA_Uninitialized
  end.
Proof.
  intros Hp Ha. unfold refresh_from_repository, loaded_snapshot.
  destruct answer as [[loaded|e]|]; cbn; [|done..].
  destruct (Ha _ eq_refl) as (v & -> & Hb). cbn.
  destruct (publish_behind p v Hp Hb) as (Hok & Hs & Hc).
  destruct (publish p v) as [[o|e] p']; cbn in *; done.
Qed.

Lemma authority_commit_spec p v answer :
  in_sync p → (∀ o, answer = Some (Ok o) → behind (ps_current p) v) →
  let '(r, p') := authority_commit p v answer in
  in_sync p' ∧ r ≠ Err PA_PublishInvariant ∧
  match answer with
  | Some (Ok _) => ps_current p' = v
  | _ => p' = p
  end.
Proof.
  intros Hp Ha. unfold authority_commit. destruct answer as [[o|e]|]; cbn; [|done..].
  destruct (publish_behind p v Hp (Ha o eq_refl)) as (Hok & Hs & Hc).
  destruct (publish p v) as [[o'|e] p']; cbn in *; done.
Qed.

Lemma gate_refresh_behind s answer :
  authority_inv s → as_gate s = GateRefresh answer →
  ∀ loaded, answer = Some (Ok loaded) →
  ∃ v, loaded = Some v ∧ behind (ps_current (as_publisher s)) v.
Proof.
  intros (_ & durable & _ & _ & Hg) Hgate loaded ->. rewrite Hgate in Hg.
  destruct Hg as (v & ? & ? & _). eauto.
Qed.

Lemma gate_commit_behind s v answer :
  authority_inv s → as_gate s = GateCommit v answer →
  ∀ o, answer = Some (Ok o) → behind (ps_current (as_publisher s)) v.
Proof. intros (_ & durable & _ & _ & Hg) Hgate o ->. rewrite Hgate in Hg. by destruct Hg. Qed.

Lemma authority_inv_step `{!DurableWriter sha256 writer} s s' :
  authority_step s s' → authority_inv s → authority_inv s'.
Proof.
  intros Hstep Hinv. pose proof Hinv as (Hsync & durable & Hst & Hb & Hg).
  destruct Hstep as [db db' p g Hw|db r db' p Hr|e db p|db p|db p answer|v db r db' p lost Hok Hnc Hr|db p v answer];
    cbn [as_db as_publisher as_gate] in *.
  - destruct (writer_advances db db' Hw durable Hst) as (v' & Hst' & Hor).
    assert (behind durable v') as Hd by (by destruct Hor; [left|right]).
    split; [done|]. exists v'. split; [done|]. split; [by eapply behind_trans|].
    destruct g as [|[[loaded|]|]|v [[o|]|]]; cbn in *; try done.
    + destruct Hg as (v & -> & ? & ?). exists v. split_and!; [done..|by eapply behind_trans].
    + destruct Hg. split; [done|by eapply behind_trans].
  - apply load_latest_runs in Hr as [-> Hr]. split; [done|]. exists durable. split_and!; [done..|].
    destruct Hr as [->| ->]; [done|]. rewrite Hst. exists durable. split_and!; [done..|apply behind_refl].
  - split; [done|]. by exists durable.
  - split; [done|]. by exists durable.
  - pose proof (refresh_spec p answer Hsync (gate_refresh_behind _ _ Hinv eq_refl)) as Hr.
    destruct (refresh_from_repository p answer) as [r p'], Hr as [Hs' Hr]. split; [done|].
    exists durable. split_and!; [done| |done]. cbn.
    destruct answer as [[[v|]|]|]; [|by destruct Hr as [-> _]..].
    destruct Hr as [_ ->]. by destruct Hg as (v' & [= <-] & _ & ?).
  - pose proof (commit_behind _ _ _ _ _ Hok Hnc Hst Hr) as Hc. split; [done|].
    destruct r as [o|e].
    + destruct Hc as [Hdv Hst']. exists v. split; [done|].
      split; [by eapply behind_trans|]. cbn. destruct lost; [done|].
      split; [by eapply behind_trans|apply behind_refl].
    + subst. exists durable. split_and!; [done..|]. by destruct lost.
  - pose proof (authority_commit_spec p v answer Hsync (gate_commit_behind _ _ _ Hinv eq_refl)) as Hc.
    destruct (authority_commit p v answer) as [r p'], Hc as (Hs' & _ & Hc). split; [done|].
    exists durable. split_and!; [done| |done]. cbn.
    destruct answer as [[o|]|]; [|by rewrite Hc..]. rewrite Hc. by destruct Hg.
Qed.

(** C7. The live snapshot follows the file.  From an authority opened on a
    durable snapshot, whatever other writers do to the file (they only have to
    advance it), and wherever they do it between the load and the publication of
    a refresh or a commit: subscribers read a snapshot that is the durable one or
    has a smaller version, so a version never shows two contents; a refresh or
    commit whose storage access succeeded never ends in [PublishInvariant], and
    after a refresh subscribers read exactly what it loaded. *)
Theorem authority_follows_file `{!DurableWriter sha256 writer} db0 v0 s :
  stored sha256 db0 = Ok (Some v0) →
  rtc authority_step (MkAuthority db0 (authorization_snapshot_channel v0) GateFree) s →
  (∃ durable, stored sha256 (as_db s) = Ok (Some durable) ∧
     behind (subscription_current (as_publisher s)) durable) ∧
  (∀ answer, as_gate s = GateRefresh answer →
     let '(r, p) := refresh_from_repository (as_publisher s) answer in
     match answer with
     | Some (Ok loaded) => is_ok r = true ∧ loaded = Some (subscription_current p)
     | _ => p = as_publisher s ∧ r ≠ Err PA_PublishInvariant
     end) ∧
  (∀ v answer, as_gate s = GateCommit v answer →
     (authority_commit (as_publisher s) v answer).1 ≠ Err PA_PublishInvariant).
Proof.
  intros Hst0 Hrtc. assert (authority_inv s) as Hinv.
  { eapply rtc_invariant; [exact authority_inv_step|exact Hrtc|].
    split; [unfold in_sync, subscription_current; cbn; by rewrite borrow_channel|].
    exists v0. split_and!; [done|apply behind_refl|done]. }
  pose proof Hinv as (Hsync & durable & Hst & Hb & _). split_and!.
  - exists durable. unfold in_sync in Hsync. by rewrite Hsync.
  - intros answer Hgate.
    pose proof (refresh_spec _ answer Hsync (gate_refresh_behind _ _ Hinv Hgate)) as Hr.
    destruct (refresh_from_repository _ answer) as [r p], Hr as [Hp Hr].
    destruct answer as [[loaded|e]|]; [|naive_solver..].
    destruct (gate_refresh_behind _ _ Hinv Hgate loaded eq_refl) as (v & -> & _).
    destruct Hr as [? <-]. unfold in_sync in Hp. by rewrite Hp.
  - intros v answer Hgate.
    pose proof (authority_commit_spec _ v answer Hsync (gate_commit_behind _ _ _ Hinv Hgate)) as Hc.
    destruct (authority_commit _ v answer) as [r p]. by destruct Hc as (_ & ? & _).
Qed.
End authority_system.

Lemma stored_None sha256 db : stored sha256 db = Ok None → snapshot_head db = None.
Proof.
  intros Hs. pose proof (load_clean sha256 db) as Hr. rewrite Hs in Hr.
  apply clean_runs in Hr. unfold load_latest_from_connection in Hr.
  apply runs_bind in Hr as [(? & ? & _)|(h & ? & [-> [?|[= ->]]]%runs_query & Hr)]; [done..|].
  destruct (snapshot_head db) as [[blob digest]|]; [|done].
  do 5 (apply runs_bind in Hr as [(? & ? & _)|(? & ? & _ & Hr)]; [done|]).
  case_match; [by apply runs_lift in Hr as [? _]|by apply runs_ret in Hr as [? _]].
Qed.

(** The outcome of a commit without faults. *)
Definition commit_result (current : option VersionedAuthorizationSnapshot)
    (v : VersionedAuthorizationSnapshot) (same_digest : bool) : RResult SnapshotCommitOutcome :=
  match current with
  | None => Ok (CommitApplied None (va_version v))
  | Some c =>
      if version_raw (va_version v) <? version_raw (va_version c)
      then Err (SR_StaleVersion (va_version c) (va_version v))
      else if version_raw (va_version v) =? version_raw (va_version c)
      then if same_digest then Ok (CommitUnchanged (va_version v))
           else Err (SR_ConflictingVersion (va_version v))
      else Ok (CommitApplied (Some (va_version c)) (va_version v))
  end.

Lemma repository_commit_clean sha256 v digest db current :
  (∀ x, zlen (sha256 x) = 32) → durable_ok v → snapshot_digest sha256 (va_snapshot v) = Ok digest →
  stored sha256 db = Ok current →
  ∃ db', clean (repository_commit sha256 v) db
    (commit_result current v
       (bool_decide (snapshot_digest sha256 <$> (va_snapshot <$> current) = Some (Ok digest)))) db'.
Proof.
  intros Hsha Hok Hd Hst.
  assert (∀ r db', clean (
    match snapshot_head db with
    | Some (version, current_digest) =>
        version ← lift (decode_version_blob version);
        if version_raw (va_version v) <? version_raw version
        then lift (Err (SR_StaleVersion version (va_version v)))
        else if bool_decide (va_version v = version)
        then if bool_decide (current_digest = digest)
             then mret (Ok (CommitUnchanged version))
             else lift (Err (SR_ConflictingVersion version))
        else apply_snapshot v digest (Some version)
    | None => apply_snapshot v digest None
    end) db r db' →
    ∃ db'', clean (repository_commit sha256 v) db (r ≫= id) db'') as Hwrap.
  { intros r db' Hcl. unfold repository_commit.
    destruct r as [r|e]; eexists;
      (eapply clean_bind; [rewrite Hd; apply clean_lift|eapply clean_bind; [apply clean_query|]]).
    - apply clean_transaction. eapply clean_bind; [apply clean_query|exact Hcl].
    - eapply clean_transaction_Err. eapply clean_bind; [apply clean_query|exact Hcl]. }
  destruct current as [c|]; cbn [commit_result].
  2: { apply stored_None in Hst. rewrite Hst in Hwrap.
       destruct (apply_clean sha256 v digest None db) as (db' & Hcl); [done..|]. by apply Hwrap in Hcl. }
  destruct (stored_facts _ _ _ Hst) as (_ & blob & dg & Hhead & Hb & Hdg). rewrite Hhead in Hwrap.
  cbn [fmap option_fmap option_map]. rewrite Hdg.
  destruct (Z.ltb_spec (version_raw (va_version v)) (version_raw (va_version c))) as [Hlt|Hge].
  { eapply (Hwrap (Err _)). eapply clean_bind; [rewrite Hb; apply clean_lift|].
    rewrite (proj2 (Z.ltb_lt _ _)) by done. apply clean_lift. }
  destruct (Z.eqb_spec (version_raw (va_version v)) (version_raw (va_version c))) as [Heq|Hne].
  - assert (va_version v = va_version c) as Hvc.
    { destruct (va_version v), (va_version c). cbn in Heq. by subst. }
    rewrite Hvc. destruct (decide (dg = digest)) as [Hc|Hc].
    + rewrite bool_decide_true by congruence. eapply (Hwrap (Ok (Ok _))). eapply clean_bind; [rewrite Hb; apply clean_lift|].
      rewrite (proj2 (Z.ltb_ge _ _)), !bool_decide_true by (done || congruence). apply clean_ret.
    + rewrite bool_decide_false by congruence. eapply (Hwrap (Err _)). eapply clean_bind; [rewrite Hb; apply clean_lift|].
      rewrite (proj2 (Z.ltb_ge _ _)), bool_decide_true, bool_decide_false by (done || congruence).
      apply clean_lift.
  - destruct (apply_clean sha256 v digest (Some (va_version c)) db) as (db' & Hcl); [done..|].
    eapply (Hwrap (Ok (Ok _))). eapply clean_bind; [rewrite Hb; apply clean_lift|].
    rewrite (proj2 (Z.ltb_ge _ _)), bool_decide_false by (done || congruence). exact Hcl.
Qed.

(** C19. Committing a snapshot is atomic and durable.  Without faults the outcome
    is decided by the version and digest of the durable snapshot ([commit_result]):
    a newer version replaces it, the same version is accepted only with the same
    digest, an older one is refused; a snapshot that was applied loads back
    exactly.  With faults at any statements the file holds the old snapshot
    unchanged or the new one completely. *)
Theorem repository_commit_exact sha256 v digest db current :
  (∀ x, zlen (sha256 x) = 32) →
  durable_ok v → snapshot_digest sha256 (va_snapshot v) = Ok digest →
  stored sha256 db = Ok current →
  let same_digest := bool_decide (snapshot_digest sha256 <$> (va_snapshot <$> current) = Some (Ok digest)) in
  (exec (repository_commit sha256 v) db).1 = commit_result current v same_digest ∧
  (∀ r db', runs (repository_commit sha256 v) db r db' →
     match r with
     | Ok (CommitApplied _ _) => stored sha256 db' = Ok (Some v) ∧ same_enrollment db db'
     | _ => db' = db
     end).
Proof.
  intros Hsha Hok Hd Hst sd. split.
  - destruct (repository_commit_clean _ _ _ _ _ Hsha Hok Hd Hst) as (db' & Hcl).
    by rewrite (clean_exec _ _ _ _ Hcl).
  - intros r db' Hr%repository_commit_runs; [|done].
    destruct r as [[]|]; naive_solver.
Qed.

(** ** Witnesses *)

Definition zero_digest (_ : bytes) : bytes := replicate 32 x00%byte.
Definition durable_1 : VersionedAuthorizationSnapshot := MkVersioned (MkVersion 1) two_agents.
Definition database_1 : Database := (exec (repository_commit zero_digest durable_1) empty_database).2.

Lemma durable_1_ok : durable_ok durable_1.
Proof. split; [apply two_agents_ok|done]. Qed.

Lemma database_1_stored : stored zero_digest database_1 = Ok (Some durable_1).
Proof. vm_compute. reflexivity. Qed.

Lemma repository_commit_exact_witness :
  (exec (repository_commit zero_digest durable_1) empty_database).1
    = Ok (CommitApplied None (MkVersion 1)) ∧
  (∀ r db', runs (repository_commit zero_digest durable_1) empty_database r db' →
     match r with
     | Ok (CommitApplied _ _) =>
         stored zero_digest db' = Ok (Some durable_1) ∧ same_enrollment empty_database db'
     | _ => db' = empty_database
     end).
Proof.
  apply (repository_commit_exact zero_digest durable_1 (zero_digest []) empty_database None).
  - done.
  - exact durable_1_ok.
  - vm_compute. reflexivity.
  - vm_compute. reflexivity.
Defined.

Lemma authority_follows_file_witness :
  let p := authorization_snapshot_channel (W := id) durable_1 in
  let s := MkAuthority database_1 p (GateRefresh (Some (Ok (Some durable_1)))) in
  (∃ durable, stored zero_digest (as_db s) = Ok (Some durable) ∧
     behind (subscription_current (as_publisher s)) durable) ∧
  (∀ answer, as_gate s = GateRefresh answer →
     let '(r, p) := refresh_from_repository (as_publisher s) answer in
     match answer with
     | Some (Ok loaded) => is_ok r = true ∧ loaded = Some (subscription_current p)
     | _ => p = as_publisher s ∧ r ≠ Err PA_PublishInvariant
     end) ∧
  (∀ v answer, as_gate s = GateCommit v answer →
     (authority_commit (as_publisher s) v answer).1 ≠ Err PA_PublishInvariant).
Proof.
  intros p s.
  apply (authority_follows_file (W := id) zero_digest (import_step zero_digest) database_1 durable_1 s).
  - exact database_1_stored.
  - apply rtc_once. apply auth_load. rewrite <-database_1_stored. apply clean_runs.
    eapply clean_bind; [apply clean_query|apply load_clean].
Defined.
