(* ===== verification/SnapshotManifest.v ===== *)
(** * SnapshotManifest: importing an authorization snapshot

    [crates/control-plane/src/snapshot_manifest.rs]: the JSON manifest an operator
    imports.  The JSON parser of [serde_json] is an argument; the checks that turn
    its result into a versioned snapshot are here, and what an import leaves in
    the file follows from [SnapshotRepository]. *)

From S2P Require Import Prelude Text Hex Identity Authorization SnapshotCodec Database SnapshotRepository.

Record TunnelManifest : Type := MkTunnelManifest { tm_tunnel_id : str; tm_status : TunnelStatus }.
Record AgentManifest : Type := MkAgentManifest {
  am_certificate_sha256 : str;
  am_agent_id : str;
  am_tunnels : list TunnelManifest
}.
Record SnapshotManifest : Type := MkManifest { sm_version : Z; sm_agents : list AgentManifest }.

Inductive SnapshotManifestError : Type :=
| SM_TooLarge (size : Z)
| SM_InvalidJson
| SM_InvalidVersion
| SM_InvalidFingerprint
| SM_InvalidAgentId
| SM_InvalidTunnelId
| SM_TooManyAgents (count : Z)
| SM_TooManyTunnels (count : Z)
| SM_DuplicateGrant.

Abbreviation MResult := (Result SnapshotManifestError).

Definition parse_fingerprint (value : str) : MResult CertificateFingerprint :=
  bs ← decode_hex32 SM_InvalidFingerprint value; Ok (MkFingerprint bs).

Definition tunnel_of_manifest (tunnel : TunnelManifest) : MResult TunnelGrant :=
  tunnel_id ← map_err (λ _, SM_InvalidTunnelId) (TunnelId_new (tm_tunnel_id tunnel));
  Ok (MkTunnelGrant tunnel_id (tm_status tunnel)).

(** One round of the loop over the agents. *)
Definition grant_of_manifest (agent : AgentManifest) : MResult AgentGrant :=
  if MAX_TUNNELS_PER_AGENT <? zlen (am_tunnels agent)
  then Err (SM_TooManyTunnels (zlen (am_tunnels agent)))
  else
    certificate ← parse_fingerprint (am_certificate_sha256 agent);
    agent_id ← map_err (λ _, SM_InvalidAgentId) (AgentId_new (am_agent_id agent));
    tunnels ← collect tunnel_of_manifest (am_tunnels agent);
    Ok (MkAgentGrant certificate agent_id tunnels).

Section manifest.
Variable from_slice : bytes → option SnapshotManifest.

Definition parse_snapshot_manifest (bs : bytes) : MResult VersionedAuthorizationSnapshot :=
  if MAX_SNAPSHOT_BYTES <? zlen bs then Err (SM_TooLarge (zlen bs))
  else
    manifest ← ok_or SM_InvalidJson (from_slice bs);
    version ← ok_or SM_InvalidVersion (SnapshotVersion_new (sm_version manifest));
    if MAX_AGENTS_PER_SNAPSHOT <? zlen (sm_agents manifest)
    then Err (SM_TooManyAgents (zlen (sm_agents manifest)))
    else
      grants ← collect grant_of_manifest (sm_agents manifest);
      snapshot ← map_err (λ _, SM_DuplicateGrant) (AuthorizationSnapshot_new grants);
      Ok (MkVersioned version snapshot).
End manifest.

(** ** What is accepted *)

(** A grant and the entry that denotes it; digits of a fingerprint have either
    case. *)
Definition denotes_tunnel (m : TunnelManifest) (t : TunnelGrant) : Prop :=
  tunnel_grant_ok t ∧ m = MkTunnelManifest (tunnel_str (tg_tunnel_id t)) (tg_status t).
Definition denotes_grant (m : AgentManifest) (g : AgentGrant) : Prop :=
  agent_grant_ok g ∧ zlen (ag_tunnels g) ≤ MAX_TUNNELS_PER_AGENT ∧
  to_ascii_lowercase (am_certificate_sha256 m) = hex_lower (fp_bytes (ag_certificate g)) ∧
  am_agent_id m = agent_str (ag_agent_id g) ∧ Forall2 denotes_tunnel (am_tunnels m) (ag_tunnels g).

Lemma tunnel_of_manifest_Ok m t : tunnel_of_manifest m = Ok t ↔ denotes_tunnel m t.
Proof.
  unfold tunnel_of_manifest, denotes_tunnel, tunnel_grant_ok. rewrite bind_Ok. setoid_rewrite map_err_Ok.
  destruct m as [id st], t as [[tid] st']. cbn. split.
  - intros (x & [-> ?]%TunnelId_new_Ok & [= <- <-]). done.
  - intros [? [= -> ->]]. exists (MkTunnelId tid). split; [by apply TunnelId_new_Ok|done].
Qed.

Lemma parse_fingerprint_Ok s c :
  parse_fingerprint s = Ok c ↔
  zlen (fp_bytes c) = 32 ∧ to_ascii_lowercase s = hex_lower (fp_bytes c).
Proof.
  unfold parse_fingerprint. rewrite bind_Ok. setoid_rewrite decode_hex32_Ok. destruct c as [c]. cbn.
  unfold zlen. split; [intros (d & [? ?] & [= <-]); split; [lia|done]|].
  intros [? ?]. exists c. split_and!; [lia|done|done].
Qed.

Lemma grant_of_manifest_Ok m g : grant_of_manifest m = Ok g ↔ denotes_grant m g.
Proof.
  unfold grant_of_manifest, denotes_grant, agent_grant_ok. split.
  - destruct (Z.ltb_spec MAX_TUNNELS_PER_AGENT (zlen (am_tunnels m))); [done|].
    intros (c & [Hc Hhex]%parse_fingerprint_Ok & (a & Ha & (ts & Hts & [= <-])%bind_Ok)%bind_Ok)%bind_Ok.
    apply map_err_Ok, AgentId_new_Ok in Ha as [-> ?]. apply collect_Ok in Hts. cbn.
    assert (Forall2 denotes_tunnel (am_tunnels m) ts) as Hd.
    { eapply Forall2_impl; [exact Hts|]. intros. by apply tunnel_of_manifest_Ok. }
    split_and!; try done.
    + clear -Hd. induction Hd as [|x t l k [? _] _ IH]; by constructor.
    + unfold zlen in *. by rewrite <-(Forall2_length _ _ _ Hd).
  - intros ((Hc & Ha & Hts) & Hn & Hhex & Hid & Hd). unfold zlen in Hn.
    rewrite <-(Forall2_length _ _ _ Hd) in Hn.
    rewrite (proj2 (Z.ltb_ge _ _)) by (unfold zlen; lia).
    rewrite (proj2 (parse_fingerprint_Ok _ (ag_certificate g))) by done. cbn.
    rewrite (proj2 (AgentId_new_Ok _ (ag_agent_id g))) by (rewrite Hid; by destruct (ag_agent_id g)). cbn.
    rewrite (proj2 (collect_Ok _ _ (ag_tunnels g))); [by destruct g|].
    eapply Forall2_impl; [exact Hd|]. intros. by apply tunnel_of_manifest_Ok.
Qed.

(** A manifest is accepted exactly when it is within the limits, its version is
    not zero, every entry denotes a grant and no certificate, and no tunnel of a
    certificate, occurs twice; the snapshot is then the one the grants denote.  It
    is well formed, so that it can be committed to the file. *)
Theorem manifest_exact from_slice bs v :
  (∀ m, from_slice bs = Some m → u_range 64 (sm_version m)) →
  parse_snapshot_manifest from_slice bs = Ok v ↔
  ∃ m gs, zlen bs ≤ MAX_SNAPSHOT_BYTES ∧ from_slice bs = Some m ∧
    zlen (sm_agents m) ≤ MAX_AGENTS_PER_SNAPSHOT ∧ Forall2 denotes_grant (sm_agents m) gs ∧
    AuthorizationSnapshot_new gs = Ok (va_snapshot v) ∧ sm_version m = version_raw (va_version v) ∧
    durable_ok v.
Proof.
  intros Hrange. unfold parse_snapshot_manifest.
  destruct (Z.ltb_spec MAX_SNAPSHOT_BYTES (zlen bs)); [split; [done|]; intros (? & ? & ? & _); lia|].
  destruct (from_slice bs) as [m|] eqn:Hm; cbn; [|split; [done|]; by intros (? & ? & _ & ? & _)].
  specialize (Hrange m eq_refl). unfold SnapshotVersion_new, u_range in *. split.
  - intros (w & Hw%ok_or_Ok & Hv)%bind_Ok. destruct (Z.eqb_spec (sm_version m) 0); [done|]. injection Hw as <-.
    destruct (Z.ltb_spec MAX_AGENTS_PER_SNAPSHOT (zlen (sm_agents m))); [done|].
    apply bind_Ok in Hv as (gs & Hgs%collect_Ok & (s & Hs%map_err_Ok & [= <-])%bind_Ok).
    assert (Forall2 denotes_grant (sm_agents m) gs) as Hd.
    { eapply Forall2_impl; [exact Hgs|]. intros. by apply grant_of_manifest_Ok. }
    exists m, gs. split_and!; try done. split; [|cbn; lia].
    eapply new_snapshot_ok; [|done]. clear -Hd. induction Hd as [|x g l k [? _] _ IH]; by constructor.
  - intros (m' & gs & _ & [= <-] & Hn & Hd & Hs & Hv & [_ Hr]).
    destruct (Z.eqb_spec (sm_version m) 0); [lia|]. cbn. rewrite (proj2 (Z.ltb_ge _ _)) by done.
    rewrite (proj2 (collect_Ok _ _ gs)).
    + cbn. rewrite Hs. cbn. rewrite Hv. by destruct v as [[] ?].
    + eapply Forall2_impl; [exact Hd|]. intros. by apply grant_of_manifest_Ok.
Qed.

(** ** A manifest *)

Definition sample_manifest : SnapshotManifest :=
  MkManifest 7 [MkAgentManifest (hex_lower (replicate 32 x0a%byte)) (bstr "agent-1")
                  [MkTunnelManifest (bstr "web") Enabled]].

Lemma manifest_exact_witness :
  parse_snapshot_manifest (λ _, Some sample_manifest) (bstr "{}") =
    Ok (MkVersioned (MkVersion 7)
      (MkSnapshot {[ MkFingerprint (replicate 32 x0a%byte) :=
         MkAuthorizedAgent (MkAgentId (bstr "agent-1")) {[ MkTunnelId (bstr "web") := Enabled ]} ]})) ∧
  ∃ gs, Forall2 denotes_grant (sm_agents sample_manifest) gs.
Proof.
  assert (parse_snapshot_manifest (λ _, Some sample_manifest) (bstr "{}") =
    Ok (MkVersioned (MkVersion 7)
      (MkSnapshot {[ MkFingerprint (replicate 32 x0a%byte) :=
         MkAuthorizedAgent (MkAgentId (bstr "agent-1")) {[ MkTunnelId (bstr "web") := Enabled ]} ]}))) as Hp
    by (vm_compute; reflexivity).
  split; [exact Hp|].
  apply (manifest_exact (λ _, Some sample_manifest)) in Hp as (m & gs & _ & [= <-] & _ & Hd & _).
  - by exists gs.
  - intros m [= <-]. split; [done|reflexivity].
Defined.
