(* ===== verification/EnrollmentRepository.v ===== *)
(** * EnrollmentRepository: tokens, credentials and their authorization

    [crates/control-plane/src/enrollment_repository.rs]: bootstrap tokens and
    agent credentials in the tables of [Database], and the transactions that
    change them together with the authorization snapshot of
    [SnapshotRepository].  Times are seconds since the Unix epoch. *)

From S2P Require Import Prelude Text Identity EnrollmentProto Authorization SnapshotCodec.
From S2P Require Import Database SnapshotRepository.

Definition MAX_RECONCILE_BATCH : nat := 256.
Definition MAX_CREDENTIAL_STATUS_ROWS : Z := 1024.

Inductive EnrollmentRepositoryError : Type :=
| ER_Storage
| ER_Uninitialized
| ER_Unauthorized
| ER_TokenExpired
| ER_CredentialRevoked
| ER_RequestExpired
| ER_IdentityMismatch
| ER_Conflict
| ER_Corrupt
| ER_InvalidTime
| ER_VersionExhausted
| ER_Random
| ER_TokenOutput
| ER_ResourceLimit.

#[global] Instance EnrollmentRepositoryError_eq_dec : EqDecision EnrollmentRepositoryError.
Proof. solve_decision. Defined.

Abbreviation ESql := (Sql EnrollmentRepositoryError).
Abbreviation EResult := (Result EnrollmentRepositoryError).

Record IssuanceCandidate : Type := MkCandidate {
  ic_request_id : EnrollmentRequestId;
  ic_presented_token_hash : bytes;
  ic_next_token_hash : bytes;
  ic_agent_id : AgentId;
  ic_tunnel_id : TunnelId;
  ic_csr_digest : bytes;
  ic_certificate_pem : bytes;
  ic_fingerprint : CertificateFingerprint;
  ic_not_after_unix : Z;
  ic_activation_deadline_unix : Z
}.

Record DurableIssuance : Type := MkIssuance {
  di_generation : SnapshotVersion;
  di_certificate_pem : bytes;
  di_fingerprint : CertificateFingerprint;
  di_not_after_unix : Z
}.

Inductive CredentialState : Type := Pending | Active | Retired | Revoked | Expired.

#[global] Instance CredentialState_eq_dec : EqDecision CredentialState.
Proof. solve_decision. Defined.

Definition CredentialState_from_raw (value : Z) : EResult CredentialState :=
  match value with
  | 1 => Ok Pending
  | 2 => Ok Active
  | 3 => Ok Retired
  | 4 => Ok Revoked
  | 5 => Ok Expired
  | _ => Err ER_Corrupt
  end.

Record CredentialStatus : Type := MkStatus {
  cs_fingerprint : CertificateFingerprint;
  cs_generation : SnapshotVersion;
  cs_state : CredentialState;
  cs_not_after_unix : Z;
  cs_activation_deadline_unix : Z;
  cs_terminal_at_unix : option Z
}.

Record CredentialMutationOutcome : Type := MkOutcome {
  mo_snapshot_version : SnapshotVersion;
  mo_affected_credentials : Z;
  mo_snapshot_changed : bool
}.

Inductive PresentedTokenKind : Type :=
| TokenBootstrap
| TokenRenewal (fingerprint : CertificateFingerprint).

(** ** Small parts *)

(** [i64::try_from] of an unsigned value. *)
Definition i64_try_from (value : Z) : EResult Z :=
  if value <? 2 ^ 63 then Ok value else Err ER_InvalidTime.

Definition next_version (current : SnapshotVersion) : EResult SnapshotVersion :=
  ok_or ER_VersionExhausted (checked_add 64 (version_raw current) 1 ≫= SnapshotVersion_new).

Definition decode_version (bs : bytes) : EResult SnapshotVersion :=
  bs ← decode_array ER_Corrupt 8 bs;
  ok_or ER_Corrupt (SnapshotVersion_new (from_be bs)).
Definition decode_fp (bs : bytes) : EResult CertificateFingerprint :=
  bs ← decode_array ER_Corrupt 32 bs; Ok (MkFingerprint bs).

Definition ensure_retryable_state (state : CredentialState) : EResult unit :=
  match state with
  | Pending | Active => Ok tt
  | Revoked => Err ER_CredentialRevoked
  | Expired => Err ER_RequestExpired
  | Retired => Err ER_Conflict
  end.

Definition remove_agent_tunnel (gs : list AgentGrant) (agent_id : AgentId) (tunnel_id : TunnelId)
    : list AgentGrant :=
  omap (λ grant,
    let grant :=
      if bool_decide (ag_agent_id grant = agent_id)
      then MkAgentGrant (ag_certificate grant) (ag_agent_id grant)
             (filter (λ tunnel, tg_tunnel_id tunnel ≠ tunnel_id) (ag_tunnels grant))
      else grant in
    match ag_tunnels grant with [] => None | _ => Some grant end) gs.

Record ExistingIssuance : Type := MkExisting {
  ex_issuance : DurableIssuance;
  ex_auth_token_hash : bytes;
  ex_next_token_hash : bytes;
  ex_agent_id : str;
  ex_tunnel_id : str;
  ex_csr_digest : bytes;
  ex_state : CredentialState
}.

Definition verify_idempotent_fields (existing : ExistingIssuance)
    (presented_token_hash next_token_hash : bytes) (agent_id : AgentId) (tunnel_id : TunnelId)
    (csr_digest : bytes) : EResult unit :=
  if negb (bool_decide (ex_auth_token_hash existing = presented_token_hash))
     || negb (bool_decide (ex_next_token_hash existing = next_token_hash))
     || negb (bool_decide (ex_agent_id existing = agent_str agent_id))
     || negb (bool_decide (ex_tunnel_id existing = tunnel_str tunnel_id))
     || negb (bool_decide (ex_csr_digest existing = csr_digest))
  then Err ER_Conflict else Ok tt.

Definition verify_idempotent_candidate (existing : ExistingIssuance) (c : IssuanceCandidate)
    : EResult unit :=
  verify_idempotent_fields existing (ic_presented_token_hash c) (ic_next_token_hash c)
    (ic_agent_id c) (ic_tunnel_id c) (ic_csr_digest c).

(** A row with another state and terminal time. *)
Definition set_state (state : Z) (terminal_at : option Z) (row : CredentialRow) : CredentialRow :=
  MkCredentialRow (cr_request_id row) (cr_agent_id row) (cr_tunnel_id row) (cr_csr_digest row)
    (cr_auth_token_hash row) (cr_renewal_token_hash row) (cr_certificate_pem row)
    (cr_not_after row) (cr_generation row) state (cr_previous_fingerprint row)
    (cr_activation_deadline row) terminal_at.

(** [INSERT INTO enrollment_bootstrap_tokens]: [None] is a violated constraint. *)
Definition insert_token (token_hash : bytes) (row : TokenRow) (db : Database) : option Database :=
  if negb (zlen token_hash =? 32) then None
  else match enrollment_bootstrap_tokens db !! token_hash with
       | Some _ => None
       | None => Some (with_tokens (<[token_hash := row]> (enrollment_bootstrap_tokens db)) db)
       end.

(** [INSERT INTO agent_credentials]: the primary key, the unique request and the
    length CHECKs. *)
Definition credential_checks (fingerprint : bytes) (row : CredentialRow) : bool :=
  (zlen fingerprint =? 32) && (zlen (cr_request_id row) =? 16) && (zlen (cr_csr_digest row) =? 32)
  && (zlen (cr_auth_token_hash row) =? 32) && (zlen (cr_renewal_token_hash row) =? 32)
  && (zlen (cr_generation row) =? 8)
  && match cr_previous_fingerprint row with None => true | Some p => zlen p =? 32 end.
Definition insert_credential (fingerprint : bytes) (row : CredentialRow) (db : Database)
    : option (unit * Database) :=
  if negb (credential_checks fingerprint row)
     || bool_decide (is_Some (agent_credentials db !! fingerprint))
     || existsb (λ p, bool_decide (cr_request_id p.2 = cr_request_id row))
          (map_to_list (agent_credentials db))
  then None
  else Some (tt, with_credentials (<[fingerprint := row]> (agent_credentials db)) db).

(** [UPDATE snapshot_head ... WHERE singleton_id = 1]. *)
Definition update_head (version digest : bytes) (db : Database) : option (unit * Database) :=
  match snapshot_head db with
  | None => Some (tt, db)
  | Some _ => upsert_head version digest db
  end.

(** [UPDATE agent_credentials SET state = ?, terminal_at = ? WHERE fingerprint = ?
    AND state = 1], and the updates of [activate]. *)
Definition expire_row (fingerprint : bytes) (terminal_at : Z) (db : Database) : Database :=
  with_credentials
    (alter (λ row, if cr_state row =? 1 then set_state 5 (Some terminal_at) row else row)
       fingerprint (agent_credentials db)) db.
Definition update_state (fingerprint : bytes) (state : Z) (db : Database) : Database :=
  with_credentials
    (alter (λ row, set_state state (cr_terminal_at row) row) fingerprint (agent_credentials db)) db.

(** The rows of one agent and tunnel. *)
Definition bound_token (agent_id : AgentId) (tunnel_id : TunnelId) (row : TokenRow) : Prop :=
  tk_agent_id row = agent_str agent_id ∧ tk_tunnel_id row = tunnel_str tunnel_id.
Definition bound_credential (agent_id : AgentId) (tunnel_id : TunnelId) (row : CredentialRow) : Prop :=
  cr_agent_id row = agent_str agent_id ∧ cr_tunnel_id row = tunnel_str tunnel_id.
Definition live_row (row : CredentialRow) : Prop := cr_state row = 1 ∨ cr_state row = 2.
#[global] Instance bound_token_dec a t row : Decision (bound_token a t row).
Proof. unfold bound_token. apply _. Defined.
#[global] Instance bound_credential_dec a t row : Decision (bound_credential a t row).
Proof. unfold bound_credential. apply _. Defined.
#[global] Instance live_row_dec row : Decision (live_row row).
Proof. unfold live_row. apply _. Defined.

Definition revoke_tokens (agent_id : AgentId) (tunnel_id : TunnelId) (db : Database) : Database :=
  with_tokens
    ((λ row, if bool_decide (bound_token agent_id tunnel_id row)
             then MkTokenRow (tk_agent_id row) (tk_tunnel_id row) (tk_expires_at row) 1 1
             else row) <$> enrollment_bootstrap_tokens db) db.

(** The number of rows an [UPDATE] changes is the number it selects. *)
Definition revoke_credentials (agent_id : AgentId) (tunnel_id : TunnelId) (terminal_at : Z)
    (db : Database) : option (Z * Database) :=
  let hit row := bool_decide (bound_credential agent_id tunnel_id row ∧ live_row row) in
  Some (zlen (filter (λ p, hit p.2 = true) (map_to_list (agent_credentials db))),
        with_credentials
          ((λ row, if hit row then set_state 4 (Some terminal_at) row else row)
             <$> agent_credentials db) db).

Definition consume_token (token_hash : bytes) (db : Database) : Database :=
  with_tokens
    (alter (λ row, MkTokenRow (tk_agent_id row) (tk_tunnel_id row) (tk_expires_at row) 1
                     (tk_revoked row)) token_hash (enrollment_bootstrap_tokens db)) db.

Section repository.
Context `{TableScan}.
Variable sha256 : bytes → bytes.

Definition load_snapshot : ESql VersionedAuthorizationSnapshot :=
  latest ← sql_map_err (λ _, ER_Storage) (load_latest_from_connection sha256);
  lift (ok_or ER_Uninitialized latest).

Definition replace_snapshot (snapshot : VersionedAuthorizationSnapshot) : ESql unit :=
  digest ← lift (map_err (λ _, ER_Corrupt) (snapshot_digest sha256 (va_snapshot snapshot)));
  rewrite_grants ER_Storage (grants (va_snapshot snapshot)) ;;
  execute ER_Storage (update_head (to_be 8 (version_raw (va_version snapshot))) digest).

(** What [activate], [revoke_agent], [reconcile_expired] and
    [expire_pending_credential] do with a new list of grants. *)
Definition republish (current : VersionedAuthorizationSnapshot) (gs : list AgentGrant)
    : ESql SnapshotVersion :=
  version ← lift (next_version (va_version current));
  snapshot ← lift (map_err (λ _, ER_Corrupt) (AuthorizationSnapshot_new gs));
  replace_snapshot (MkVersioned version snapshot) ;;
  mret version.
Definition republish_if_changed (current : VersionedAuthorizationSnapshot) (gs : list AgentGrant)
    : ESql (SnapshotVersion * bool) :=
  if bool_decide (gs = grants (va_snapshot current)) then mret (va_version current, false)
  else version ← republish current gs; mret (version, true).

Definition create_bootstrap_token (token_hash : bytes) (agent_id : AgentId) (tunnel_id : TunnelId)
    (expires_at_unix : Z) : ESql unit :=
  expires ← lift (i64_try_from expires_at_unix);
  connect ER_Storage ;;
  inserted ← execute ER_Storage (λ db,
    Some (match insert_token token_hash
                  (MkTokenRow (agent_str agent_id) (tunnel_str tunnel_id) expires 0 0) db with
          | Some db => (true, db)
          | None => (false, db)
          end));
  if inserted : bool then mret tt else lift (Err ER_Conflict).

(** [ORDER BY state DESC LIMIT 1] *)
Definition state_desc (x y : bytes * CredentialRow) : Prop := cr_state y.2 ≤ cr_state x.2.
#[local] Instance state_desc_dec : RelDecision state_desc.
Proof. intros x y. unfold state_desc. apply _. Defined.
Definition renewal_row (token_hash : bytes) (db : Database) : option (bytes * CredentialRow) :=
  head (merge_sort state_desc
    (filter (λ p, cr_renewal_token_hash p.2 = token_hash ∧ (cr_state p.2 = 2 ∨ cr_state p.2 = 4))
       (scan (agent_credentials db)))).

Definition authenticate_token (token_hash : bytes) (agent_id : AgentId) (tunnel_id : TunnelId)
    (now_unix : Z) : ESql PresentedTokenKind :=
  bootstrap ← query ER_Storage (λ db, enrollment_bootstrap_tokens db !! token_hash);
  match bootstrap with
  | Some row =>
      lift (if negb (bool_decide (bound_token agent_id tunnel_id row)) then Err ER_IdentityMismatch
            else if negb (tk_revoked row =? 0) then Err ER_CredentialRevoked
            else if negb (tk_consumed row =? 0) then Err ER_Unauthorized
            else if (tk_expires_at row <? 0) || (tk_expires_at row <=? now_unix)
            then Err ER_TokenExpired
            else Ok TokenBootstrap)
  | None =>
      found ← query ER_Storage (renewal_row token_hash);
      credential ← lift (ok_or ER_Unauthorized found);
      if negb (bool_decide (bound_credential agent_id tunnel_id credential.2))
      then lift (Err ER_IdentityMismatch)
      else
        state ← lift (CredentialState_from_raw (cr_state credential.2));
        if bool_decide (state = Revoked) then lift (Err ER_CredentialRevoked)
        else fingerprint ← lift (decode_fp credential.1); mret (TokenRenewal fingerprint)
  end.

Definition validate_token (token_hash : bytes) (agent_id : AgentId) (tunnel_id : TunnelId)
    (now_unix : Z) : ESql (AgentId * TunnelId) :=
  connect ER_Storage ;;
  authenticate_token token_hash agent_id tunnel_id now_unix ;;
  mret (agent_id, tunnel_id).

(** [SELECT ... WHERE request_id = ?1] *)
Definition request_row (request_id : EnrollmentRequestId) (db : Database)
    : option (bytes * CredentialRow) :=
  head (filter (λ p, cr_request_id p.2 = request_id_bytes request_id) (scan (agent_credentials db))).

Definition read_issuance (p : bytes * CredentialRow) : EResult ExistingIssuance :=
  let '(fingerprint, row) := p in
  if cr_not_after row <? 0 then Err ER_Corrupt
  else
    generation ← decode_version (cr_generation row);
    fingerprint ← decode_fp fingerprint;
    auth_token_hash ← decode_array ER_Corrupt 32 (cr_auth_token_hash row);
    next_token_hash ← decode_array ER_Corrupt 32 (cr_renewal_token_hash row);
    csr_digest ← decode_array ER_Corrupt 32 (cr_csr_digest row);
    state ← CredentialState_from_raw (cr_state row);
    Ok (MkExisting
          (MkIssuance generation (cr_certificate_pem row) fingerprint (cr_not_after row))
          auth_token_hash next_token_hash (cr_agent_id row) (cr_tunnel_id row) csr_digest state).

Definition load_issuance (request_id : EnrollmentRequestId) : ESql (option ExistingIssuance) :=
  found ← query ER_Storage (request_row request_id);
  match found with
  | None => mret None
  | Some p => existing ← lift (read_issuance p); mret (Some existing)
  end.

(** The part of [commit_issuance] after a token was authenticated. *)
Definition issue (candidate : IssuanceCandidate) (token_kind : PresentedTokenKind)
    : ESql (EResult DurableIssuance) :=
  current ← load_snapshot;
  generation ← lift (next_version (va_version current));
  let gs := grants (va_snapshot current) in
  if existsb (λ grant, bool_decide (ag_certificate grant = ic_fingerprint candidate)) gs
  then lift (Err ER_Conflict)
  else
    snapshot ← lift (map_err (λ _, ER_Corrupt) (AuthorizationSnapshot_new
      (gs ++ [MkAgentGrant (ic_fingerprint candidate) (ic_agent_id candidate)
                [MkTunnelGrant (ic_tunnel_id candidate) Enabled]])));
    replace_snapshot (MkVersioned generation snapshot) ;;
    let previous := match token_kind with
                    | TokenBootstrap => None
                    | TokenRenewal fingerprint => Some (fp_bytes fingerprint)
                    end in
    not_after ← lift (i64_try_from (ic_not_after_unix candidate));
    deadline ← lift (i64_try_from (ic_activation_deadline_unix candidate));
    execute ER_Storage (insert_credential (fp_bytes (ic_fingerprint candidate))
      (MkCredentialRow (request_id_bytes (ic_request_id candidate))
         (agent_str (ic_agent_id candidate)) (tunnel_str (ic_tunnel_id candidate))
         (ic_csr_digest candidate) (ic_presented_token_hash candidate)
         (ic_next_token_hash candidate) (ic_certificate_pem candidate) not_after
         (to_be 8 (version_raw generation)) 1 previous deadline None)) ;;
    match token_kind with
    | TokenBootstrap => update ER_Storage (consume_token (ic_presented_token_hash candidate))
    | TokenRenewal _ => mret tt
    end ;;
    commit ER_Storage ;;
    mret (Ok (MkIssuance generation (ic_certificate_pem candidate) (ic_fingerprint candidate)
                (ic_not_after_unix candidate))).

Definition commit_issuance (candidate : IssuanceCandidate) (now_unix : Z) : ESql DurableIssuance :=
  if (ic_activation_deadline_unix candidate <=? now_unix)
     || (ic_not_after_unix candidate <? ic_activation_deadline_unix candidate)
  then lift (Err ER_InvalidTime)
  else
    connect ER_Storage ;;
    transaction ER_Storage (
      found ← load_issuance (ic_request_id candidate);
      match found with
      | Some existing =>
          lift (verify_idempotent_candidate existing candidate) ;;
          lift (ensure_retryable_state (ex_state existing)) ;;
          commit ER_Storage ;;
          mret (Ok (ex_issuance existing))
      | None =>
          token_kind ← authenticate_token (ic_presented_token_hash candidate)
                         (ic_agent_id candidate) (ic_tunnel_id candidate) now_unix;
          issue candidate token_kind
      end).

Definition preflight_issuance (request_id : EnrollmentRequestId)
    (presented_token_hash next_token_hash : bytes) (agent_id : AgentId) (tunnel_id : TunnelId)
    (csr_digest : bytes) (now_unix : Z) : ESql (option DurableIssuance) :=
  connect ER_Storage ;;
  found ← load_issuance request_id;
  match found with
  | Some existing =>
      lift (verify_idempotent_fields existing presented_token_hash next_token_hash agent_id
              tunnel_id csr_digest) ;;
      lift (ensure_retryable_state (ex_state existing)) ;;
      mret (Some (ex_issuance existing))
  | None =>
      authenticate_token presented_token_hash agent_id tunnel_id now_unix ;;
      mret None
  end.

Definition expire_pending_credential (fingerprint : CertificateFingerprint) (now_unix : Z)
    : ESql SnapshotVersion :=
  current ← load_snapshot;
  let gs := filter (λ grant, ag_certificate grant ≠ fingerprint) (grants (va_snapshot current)) in
  changed ← republish_if_changed current gs;
  terminal_at ← lift (i64_try_from now_unix);
  update ER_Storage (expire_row (fp_bytes fingerprint) terminal_at) ;;
  mret changed.1.

(** [SELECT ... WHERE request_id = ?1 AND fingerprint = ?2 AND renewal_token_hash = ?3] *)
Definition activation_row (request_id : EnrollmentRequestId) (fingerprint : CertificateFingerprint)
    (renewal_token_hash : bytes) (db : Database) : option CredentialRow :=
  row ← agent_credentials db !! fp_bytes fingerprint;
  if bool_decide (cr_request_id row = request_id_bytes request_id)
     && bool_decide (cr_renewal_token_hash row = renewal_token_hash)
  then Some row else None.

(** The part of [activate] for a pending credential within its deadline. *)
Definition activate_pending (fingerprint : CertificateFingerprint) (previous : option bytes)
    : ESql (EResult SnapshotVersion) :=
  previous ← lift (match previous with
                   | None => Ok None
                   | Some bs => fp ← decode_fp bs; Ok (Some fp)
                   end);
  current ← load_snapshot;
  version ← match previous with
            | Some previous =>
                version ← republish current
                  (filter (λ grant, ag_certificate grant ≠ previous) (grants (va_snapshot current)));
                update ER_Storage (update_state (fp_bytes previous) 3) ;;
                mret version
            | None => mret (va_version current)
            end;
  update ER_Storage (update_state (fp_bytes fingerprint) 2) ;;
  commit ER_Storage ;;
  mret (Ok version).

Definition activate (request_id : EnrollmentRequestId) (renewal_token_hash : bytes)
    (fingerprint : CertificateFingerprint) (now_unix : Z) : ESql SnapshotVersion :=
  connect ER_Storage ;;
  transaction ER_Storage (
    found ← query ER_Storage (activation_row request_id fingerprint renewal_token_hash);
    row ← lift (ok_or ER_Unauthorized found);
    state ← lift (CredentialState_from_raw (cr_state row));
    match state with
    | Active => current ← load_snapshot; commit ER_Storage ;; mret (Ok (va_version current))
    | Revoked => lift (Err ER_CredentialRevoked)
    | Expired => lift (Err ER_RequestExpired)
    | Retired => lift (Err ER_Conflict)
    | Pending =>
        if (cr_activation_deadline row <? 0) || (cr_activation_deadline row <=? now_unix)
        then
          expire_pending_credential fingerprint now_unix ;;
          commit ER_Storage ;;
          mret (Err ER_RequestExpired)
        else activate_pending fingerprint (cr_previous_fingerprint row)
    end).

Definition revoke_agent (agent_id : AgentId) (tunnel_id : TunnelId) (now_unix : Z)
    : ESql CredentialMutationOutcome :=
  terminal_at ← lift (i64_try_from now_unix);
  connect ER_Storage ;;
  transaction ER_Storage (
    update ER_Storage (revoke_tokens agent_id tunnel_id) ;;
    affected ← execute ER_Storage (revoke_credentials agent_id tunnel_id terminal_at);
    current ← load_snapshot;
    changed ← republish_if_changed current
      (remove_agent_tunnel (grants (va_snapshot current)) agent_id tunnel_id);
    commit ER_Storage ;;
    mret (Ok (MkOutcome changed.1 affected changed.2))).

(** [SELECT fingerprint ... WHERE state = 1 AND activation_deadline <= ?1
    ORDER BY fingerprint LIMIT ?2] *)
Definition overdue (now : Z) (row : CredentialRow) : Prop :=
  cr_state row = 1 ∧ cr_activation_deadline row ≤ now.
#[global] Instance overdue_dec now row : Decision (overdue now row).
Proof. unfold overdue. apply _. Defined.
Definition overdue_fingerprints (now : Z) (db : Database) : list bytes :=
  take MAX_RECONCILE_BATCH
    (merge_sort bytes_le ((filter (λ p, overdue now p.2) (scan (agent_credentials db))).*1)).

Fixpoint expire_rows (fingerprints : list CertificateFingerprint) (terminal_at : Z) : ESql unit :=
  match fingerprints with
  | [] => mret tt
  | fingerprint :: fingerprints =>
      update ER_Storage (expire_row (fp_bytes fingerprint) terminal_at) ;;
      expire_rows fingerprints terminal_at
  end.

(** The part of [reconcile_expired] after its query. *)
Definition expire_batch (fingerprints : list CertificateFingerprint) (terminal_at : Z)
    : ESql (EResult CredentialMutationOutcome) :=
  current ← load_snapshot;
  match fingerprints with
  | [] => commit ER_Storage ;; mret (Ok (MkOutcome (va_version current) 0 false))
  | _ =>
      changed ← republish_if_changed current
        (filter (λ grant, ag_certificate grant ∉ fingerprints) (grants (va_snapshot current)));
      expire_rows fingerprints terminal_at ;;
      commit ER_Storage ;;
      mret (Ok (MkOutcome changed.1 (zlen fingerprints) changed.2))
  end.

Definition reconcile_expired (now_unix : Z) : ESql CredentialMutationOutcome :=
  terminal_at ← lift (i64_try_from now_unix);
  connect ER_Storage ;;
  transaction ER_Storage (
    rows ← query ER_Storage (overdue_fingerprints terminal_at);
    fingerprints ← lift (collect decode_fp rows);
    expire_batch fingerprints terminal_at).

(** [ORDER BY generation, fingerprint]: eight bytes, then the key. *)
Definition status_le (x y : bytes * CredentialRow) : Prop :=
  bytes_le (cr_generation x.2 ++ x.1) (cr_generation y.2 ++ y.1).
#[local] Instance status_le_dec : RelDecision status_le.
Proof. intros x y. unfold status_le. apply _. Defined.

Definition read_status (p : bytes * CredentialRow) : EResult CredentialStatus :=
  let '(fingerprint, row) := p in
  if (cr_not_after row <? 0) || (cr_activation_deadline row <? 0)
     || match cr_terminal_at row with Some value => value <? 0 | None => false end
  then Err ER_Corrupt
  else
    fingerprint ← decode_fp fingerprint;
    generation ← decode_version (cr_generation row);
    state ← CredentialState_from_raw (cr_state row);
    Ok (MkStatus fingerprint generation state (cr_not_after row) (cr_activation_deadline row)
          (cr_terminal_at row)).

Definition credential_status (agent_id : AgentId) (tunnel_id : TunnelId)
    : ESql (SnapshotVersion * list CredentialStatus) :=
  connect ER_Storage ;;
  transaction ER_Storage (
    current ← load_snapshot;
    rows ← query ER_Storage (λ db,
      take (Z.to_nat (MAX_CREDENTIAL_STATUS_ROWS + 1))
        (merge_sort status_le
           (filter (λ p, bound_credential agent_id tunnel_id p.2) (scan (agent_credentials db)))));
    credentials ← lift (collect read_status rows);
    if MAX_CREDENTIAL_STATUS_ROWS <? zlen credentials then lift (Err ER_ResourceLimit)
    else commit ER_Storage ;; mret (Ok (va_version current, credentials))).
End repository.

(** ** Snapshots as maps *)

Lemma grants_elem s g :
  g ∈ grants s ↔ ∃ c ag, as_agents s !! c = Some ag ∧ g = entry_grant (c, ag).
Proof.
  rewrite grants_perm, list_elem_of_fmap. split.
  - intros ([c ag] & -> & Hin%elem_of_map_to_list). eauto.
  - intros (c & ag & Hl & ->). exists (c, ag). by rewrite elem_of_map_to_list.
Qed.

(** Building a snapshot from selected or rewritten grants is [omap] on the map. *)
Lemma new_of_omap s (f : AgentGrant → option AgentGrant) (h : CertificateFingerprint →
    AuthorizedAgent → option AuthorizedAgent) s' c :
  AuthorizationSnapshot_new (omap f (grants s)) = Ok s' →
  (∀ c ag g, f (entry_grant (c, ag)) = Some g → ag_certificate g = c ∧ h c ag = Some (grant_agent g)) →
  (∀ c ag, f (entry_grant (c, ag)) = None → h c ag = None) →
  as_agents s' !! c = as_agents s !! c ≫= h c.
Proof.
  intros Hnew Hf HfN. apply option_eq. intros a. rewrite (snapshot_lookup _ _ c a Hnew).
  rewrite bind_Some. split.
  - intros (g & (g0 & Hg0 & Hfg)%list_elem_of_omap & <- & <-).
    apply grants_elem in Hg0 as (c0 & ag & Hl & ->). destruct (Hf _ _ _ Hfg) as [-> Hh]. eauto.
  - intros (ag & Hl & Hh). destruct (f (entry_grant (c, ag))) as [g|] eqn:Hfg.
    + destruct (Hf _ _ _ Hfg) as [Hc Hh']. exists g. split; [|by rewrite Hh in Hh'; simplify_eq].
      apply list_elem_of_omap. exists (entry_grant (c, ag)). split; [|done].
      apply grants_elem. eauto.
    + by rewrite (HfN _ _ Hfg) in Hh.
Qed.

Lemma filter_omap {A} (P : A → Prop) `{∀ x, Decision (P x)} (l : list A) :
  filter P l = omap (λ x, if decide (P x) then Some x else None) l.
Proof.
  induction l as [|x l IH]; [done|]. rewrite filter_cons, IH. cbn. by destruct (decide (P x)).
Qed.

Lemma new_of_filter s (P : CertificateFingerprint → Prop) `{∀ c, Decision (P c)} s' c :
  AuthorizationSnapshot_new (filter (λ g, P (ag_certificate g)) (grants s)) = Ok s' →
  as_agents s' !! c = if decide (P c) then as_agents s !! c else None.
Proof.
  rewrite filter_omap. intros Hnew.
  rewrite (new_of_omap s _ (λ c ag, if decide (P c) then Some ag else None) s' c Hnew).
  - destruct (as_agents s !! c); cbn; by case_decide.
  - intros c' ag g. cbn. case_decide; [|done]. intros [= <-]. by rewrite entry_grant_agent.
  - intros c' ag. cbn. by case_decide.
Qed.

Lemma new_of_snoc s g s' c :
  AuthorizationSnapshot_new (grants s ++ [g]) = Ok s' →
  as_agents s' !! c = if decide (c = ag_certificate g) then Some (grant_agent g) else as_agents s !! c.
Proof.
  intros Hnew. apply option_eq. intros a. rewrite (snapshot_lookup _ _ c a Hnew).
  assert (∀ ag, as_agents s !! ag_certificate g = Some ag → False) as Hfresh.
  { intros ag Hl. apply snapshot_new_Ok in Hnew as [[_ Hnd] _].
    rewrite fmap_app in Hnd. apply NoDup_app in Hnd as (_ & Hd & _).
    apply (Hd (ag_certificate g)); [|set_solver]. apply list_elem_of_fmap.
    exists (entry_grant (ag_certificate g, ag)). split; [done|]. apply grants_elem. eauto. }
  case_decide as Hc; [subst c|]; split.
  - intros (g' & [Hg|Hg%list_elem_of_singleton]%elem_of_app & Hcc & <-); [|by subst].
    apply grants_elem in Hg as (c0 & ag & Hl & ->). cbn in Hcc. subst. by apply Hfresh in Hl.
  - intros [= <-]. exists g. split_and!; [set_solver|done..].
  - intros (g' & [Hg|Hg%list_elem_of_singleton]%elem_of_app & Hcc & <-); [|by subst].
    apply grants_elem in Hg as (c0 & ag & Hl & ->). cbn in Hcc. subst. by rewrite entry_grant_agent.
  - intros Hl. exists (entry_grant (c, a)). split_and!; [|done|apply entry_grant_agent].
    apply elem_of_app. left. apply grants_elem. eauto.
Qed.

Lemma snapshot_ok_filter s (P : AgentGrant → Prop) `{∀ g, Decision (P g)} :
  snapshot_ok s → Forall agent_grant_ok (filter P (grants s)).
Proof.
  intros Hs. apply Forall_forall. intros g [_ Hg]%list_elem_of_filter.
  by eapply Forall_forall in Hs.
Qed.

(** What revocation leaves of an authorized agent. *)
Definition without_tunnel (a : AgentId) (t : TunnelId) (ag : AuthorizedAgent) : option AuthorizedAgent :=
  let ag := if bool_decide (aa_agent_id ag = a)
            then MkAuthorizedAgent (aa_agent_id ag) (delete t (aa_tunnels ag)) else ag in
  if bool_decide (aa_tunnels ag = ∅) then None else Some ag.

(** The grant [remove_agent_tunnel] keeps of a grant. *)
Definition remove_grant (a : AgentId) (t : TunnelId) (g : AgentGrant) : AgentGrant :=
  if bool_decide (ag_agent_id g = a)
  then MkAgentGrant (ag_certificate g) (ag_agent_id g)
         (filter (λ tunnel, tg_tunnel_id tunnel ≠ t) (ag_tunnels g))
  else g.

Lemma remove_agent_tunnel_omap gs a t :
  remove_agent_tunnel gs a t =
  omap (λ g, match ag_tunnels (remove_grant a t g) with [] => None | _ => Some (remove_grant a t g) end) gs.
Proof. done. Qed.

Lemma remove_grant_ok a t g : grant_ok g → grant_ok (remove_grant a t g).
Proof.
  unfold grant_ok, remove_grant. intros Hg. case_bool_decide; [|done]. cbn.
  eapply sublist_NoDup; [exact Hg|]. apply fmap_sublist, sublist_filter.
Qed.

Lemma remove_grant_agent a t c ag :
  grant_agent (remove_grant a t (entry_grant (c, ag))) =
  if bool_decide (aa_agent_id ag = a)
  then MkAuthorizedAgent (aa_agent_id ag) (delete t (aa_tunnels ag)) else ag.
Proof.
  unfold remove_grant. cbn. case_bool_decide as Ha; [|apply (entry_grant_agent (c, ag))].
  set (g := MkAgentGrant c (aa_agent_id ag) (filter (λ tunnel, tg_tunnel_id tunnel ≠ t) (agent_tunnels ag))).
  assert (grant_ok g) as Hg.
  { pose proof (remove_grant_ok a t _ (entry_grant_ok (c, ag))) as Hr.
    unfold remove_grant in Hr. cbn in Hr. by rewrite bool_decide_true in Hr by done. }
  assert (aa_tunnels (grant_agent g) = delete t (aa_tunnels ag)) as Ht; [|by rewrite <-Ht].
  apply map_eq. intros t'. apply option_eq. intros st. rewrite (grant_lookup g t' st Hg).
  cbn. rewrite list_elem_of_filter. cbn. rewrite lookup_delete_Some.
  pose proof (grant_lookup (entry_grant (c, ag)) t' st (entry_grant_ok (c, ag))) as Hl.
  rewrite entry_grant_agent in Hl. cbn in Hl. rewrite <-Hl. naive_solver.
Qed.

Lemma grant_agent_empty g : grant_ok g → ag_tunnels g = [] ↔ aa_tunnels (grant_agent g) = ∅.
Proof.
  intros Hg. split.
  - unfold grant_agent. cbn. by intros ->.
  - intros He. destruct (ag_tunnels g) as [|[t st] ts] eqn:Hts; [done|].
    assert (aa_tunnels (grant_agent g) !! t = Some st) as Hl.
    { apply grant_lookup; [done|]. rewrite Hts. set_solver. }
    by rewrite He, lookup_empty in Hl.
Qed.

Lemma new_of_remove s a t s' c :
  AuthorizationSnapshot_new (remove_agent_tunnel (grants s) a t) = Ok s' →
  as_agents s' !! c = as_agents s !! c ≫= without_tunnel a t.
Proof.
  rewrite remove_agent_tunnel_omap. intros Hnew.
  apply (new_of_omap s _ (λ _, without_tunnel a t) s' c Hnew); intros c' ag.
  all: pose proof (grant_agent_empty _ (remove_grant_ok a t _ (entry_grant_ok (c', ag)))) as He.
  all: rewrite remove_grant_agent in He; unfold without_tunnel.
  - intros g Hg. destruct (ag_tunnels (remove_grant a t (entry_grant (c', ag)))) eqn:Ht; [done|].
    injection Hg as <-. split; [unfold remove_grant; by destruct (bool_decide _)|].
    rewrite remove_grant_agent, bool_decide_false; [done|]. by intros Hx%He.
  - intros Hg. destruct (ag_tunnels (remove_grant a t (entry_grant (c', ag)))) eqn:Ht; [|done].
    rewrite bool_decide_true; [done|]. by apply He.
Qed.

Lemma snapshot_ok_remove s a t :
  snapshot_ok s → Forall agent_grant_ok (remove_agent_tunnel (grants s) a t).
Proof.
  intros Hs. rewrite remove_agent_tunnel_omap. apply Forall_forall.
  intros g (g0 & Hg0 & Hg)%list_elem_of_omap.
  pose proof (proj1 (Forall_forall _ _) Hs g0 Hg0) as (? & ? & Hts).
  assert (g = remove_grant a t g0) as -> by (by case_match; simplify_eq).
  unfold remove_grant. case_bool_decide; [|done]. split_and!; [done..|]. cbn.
  apply Forall_forall. intros x [_ Hx]%list_elem_of_filter. by eapply Forall_forall in Hts.
Qed.

(** ** What the transactions do to the database *)

Lemma decode_version_blob_iff bs w : decode_version bs = Ok w ↔ decode_version_blob bs = Ok w.
Proof.
  unfold decode_version_blob, decode_version, decode_array. destruct (zlen bs =? 8); cbn [mbind result_bind];
    [|naive_solver]. destruct (SnapshotVersion_new (from_be bs)); naive_solver.
Qed.

Lemma decode_fp_Ok bs fp : decode_fp bs = Ok fp ↔ fp = MkFingerprint bs ∧ zlen bs = 32.
Proof.
  unfold decode_fp, decode_array. destruct (Z.eqb_spec (zlen bs) 32); cbn; naive_solver.
Qed.

Section transactions.
Context `{TableScanLaws}.
Variable sha256 : bytes → bytes.
Implicit Types (db : Database) (v : VersionedAuthorizationSnapshot).

Lemma load_snapshot_reader : reader ER_Storage (load_snapshot sha256).
Proof.
  apply reader_bind; [|auto with sql].
  apply (reader_map_err (λ _, ER_Storage) SR_Storage), load_reader.
Qed.

Lemma load_snapshot_exec db :
  (exec (load_snapshot sha256) db).1 =
  match stored sha256 db with
  | Ok (Some v) => Ok v
  | Ok None => Err ER_Uninitialized
  | Err _ => Err ER_Storage
  end.
Proof.
  pose proof (clean_map_err (λ _, ER_Storage) _ _ _ _ (load_clean sha256 db)) as Hl.
  destruct (stored sha256 db) as [[v|]|e]; cbn in Hl.
  - erewrite clean_exec; [done|]. eapply clean_bind; [exact Hl|apply clean_lift].
  - erewrite clean_exec; [done|]. eapply clean_bind; [exact Hl|apply clean_lift].
  - erewrite clean_exec; [done|]. eapply clean_bind_Err. exact Hl.
Qed.

Lemma load_snapshot_runs db v db' :
  runs (load_snapshot sha256) db (Ok v) db' → db' = db ∧ stored sha256 db = Ok (Some v).
Proof.
  intros [-> [?|Hr]]%(reader_runs ER_Storage); [done| |apply load_snapshot_reader].
  split; [done|]. rewrite load_snapshot_exec in Hr. by repeat case_match; simplify_eq.
Qed.

Lemma replace_snapshot_runs v db db' :
  durable_ok v → is_Some (snapshot_head db) → runs (replace_snapshot sha256 v) db (Ok tt) db' →
  stored sha256 db' = Ok (Some v) ∧ same_enrollment db db'.
Proof.
  intros Hok Hh Hr. unfold replace_snapshot in Hr.
  apply runs_bind in Hr as [(? & ? & _)|(digest & ? & [Hd ->]%runs_lift & Hr)]; [done|].
  symmetry in Hd. apply map_err_Ok in Hd.
  apply runs_bind in Hr as [(? & ? & _)|(u & db1 & H1 & Hr)]; [done|].
  apply rewrite_grants_runs in H1 as [Hro [?|[_ Hth]]]; [done|].
  apply runs_execute in Hr as [[? _]|(u1 & _ & Hup)]; [done|].
  unfold update_head in Hup. rewrite (ro_head _ _ Hro) in Hup. destruct Hh as [h Hh].
  rewrite Hh in Hup. apply upsert_head_Some in Hup as [_ ->]. split.
  - by eapply upsert_stored.
  - by destruct Hro as [_ ? ?].
Qed.

Lemma next_version_Ok w w' :
  next_version w = Ok w' → version_raw w' = version_raw w + 1 ∧ version_raw w + 1 < 2 ^ 64.
Proof.
  unfold next_version. intros H1. inv_result. apply bind_Some in H1 as (z & Hz & Hn).
  apply checked_add_Some in Hz as [-> ?]. unfold SnapshotVersion_new in Hn.
  case_match; simplify_eq. done.
Qed.

Lemma stored_head db v : stored sha256 db = Ok (Some v) → is_Some (snapshot_head db).
Proof. intros (_ & blob & d & -> & _)%stored_facts. eauto. Qed.

Lemma stored_ok db v : stored sha256 db = Ok (Some v) → durable_ok v.
Proof. by intros [? _]%stored_facts. Qed.

(** The next snapshot, made of [gs]. *)
Definition succeeds (gs : list AgentGrant) v v' : Prop :=
  AuthorizationSnapshot_new gs = Ok (va_snapshot v') ∧
  version_raw (va_version v') = version_raw (va_version v) + 1.

Lemma replace_new_runs gs v w s db db' :
  stored sha256 db = Ok (Some v) → Forall agent_grant_ok gs →
  next_version (va_version v) = Ok w → AuthorizationSnapshot_new gs = Ok s →
  runs (replace_snapshot sha256 (MkVersioned w s)) db (Ok tt) db' →
  stored sha256 db' = Ok (Some (MkVersioned w s)) ∧ succeeds gs v (MkVersioned w s) ∧
  same_enrollment db db'.
Proof.
  intros Hst Hgs Hw Hs Hr. pose proof (next_version_Ok _ _ Hw) as [Hw1 Hw2].
  pose proof (stored_ok _ _ Hst) as [_ Hv].
  apply replace_snapshot_runs in Hr as [? ?]; [done| |by eapply stored_head].
  split; cbn; [by eapply new_snapshot_ok|lia].
Qed.

Lemma republish_runs gs v w db db' :
  stored sha256 db = Ok (Some v) → Forall agent_grant_ok gs →
  runs (republish sha256 v gs) db (Ok w) db' →
  ∃ v', w = va_version v' ∧ stored sha256 db' = Ok (Some v') ∧ succeeds gs v v' ∧
        same_enrollment db db'.
Proof.
  intros Hst Hgs Hr. unfold republish in Hr.
  apply runs_bind in Hr as [(? & ? & _)|(w0 & ? & [Hw ->]%runs_lift & Hr)]; [done|].
  apply runs_bind in Hr as [(? & ? & _)|(s & ? & [Hs ->]%runs_lift & Hr)]; [done|].
  apply runs_bind in Hr as [(? & ? & _)|([] & db1 & H1 & [[= ->] ->]%runs_ret)]; [done|].
  symmetry in Hw, Hs. apply map_err_Ok in Hs.
  exists (MkVersioned w0 s). split; [done|]. by eapply replace_new_runs.
Qed.

Lemma republish_if_changed_runs gs v w b db db' :
  stored sha256 db = Ok (Some v) → Forall agent_grant_ok gs →
  runs (republish_if_changed sha256 v gs) db (Ok (w, b)) db' →
  ∃ v', w = va_version v' ∧ stored sha256 db' = Ok (Some v') ∧
        AuthorizationSnapshot_new gs = Ok (va_snapshot v') ∧ same_enrollment db db' ∧
        if b then succeeds gs v v' else v' = v ∧ gs = grants (va_snapshot v).
Proof.
  intros Hst Hgs Hr. unfold republish_if_changed in Hr. case_bool_decide as Heq.
  - apply runs_ret in Hr as [[= -> ->] ->]. exists v. split_and!; try done.
    rewrite Heq. apply snapshot_new_grants.
  - apply runs_bind in Hr as [(? & ? & _)|(w' & db1 & H1 & [[= -> ->] ->]%runs_ret)]; [done|].
    apply republish_runs in H1 as (v' & -> & ? & Hs & ?); [|done..].
    exists v'. by destruct Hs as [? ?]; split_and!.
Qed.

(** How two snapshots are related by any of these. *)
Lemma succeeds_advances gs v v' :
  succeeds gs v v' → version_raw (va_version v) < version_raw (va_version v').
Proof. intros [_ ?]. lia. Qed.

(** ** Authentication *)

(** A token that authenticates for an agent and tunnel. *)
Definition authenticated (db : Database) (h : bytes) (a : AgentId) (t : TunnelId) (now : Z)
    (kind : PresentedTokenKind) : Prop :=
  match kind with
  | TokenBootstrap =>
      ∃ row, enrollment_bootstrap_tokens db !! h = Some row ∧ bound_token a t row ∧
        tk_revoked row = 0 ∧ tk_consumed row = 0 ∧ now < tk_expires_at row
  | TokenRenewal fp =>
      enrollment_bootstrap_tokens db !! h = None ∧
      ∃ row, agent_credentials db !! fp_bytes fp = Some row ∧ cr_renewal_token_hash row = h ∧
        bound_credential a t row ∧ cr_state row = 2
  end.

Lemma scan_elem m fp row : (fp, row) ∈ scan m ↔ m !! fp = Some row.
Proof. by rewrite scan_rows, elem_of_map_to_list. Qed.

Lemma renewal_row_Some h db p :
  renewal_row h db = Some p →
  agent_credentials db !! p.1 = Some p.2 ∧ cr_renewal_token_hash p.2 = h ∧
  (cr_state p.2 = 2 ∨ cr_state p.2 = 4).
Proof.
  unfold renewal_row. intros Hh%head_Some_elem_of.
  rewrite merge_sort_Permutation, list_elem_of_filter in Hh. destruct Hh as [[? ?] Hin], p as [fp row].
  by apply scan_elem in Hin.
Qed.

Lemma authenticate_token_reader h a t now : reader ER_Storage (authenticate_token h a t now).
Proof.
  unfold authenticate_token. apply reader_bind; [auto with sql|].
  intros [row|]; [auto with sql|].
  repeat (apply reader_bind; [auto with sql|intros ?]). case_match; [auto with sql|].
  apply reader_bind; [auto with sql|intros ?]. case_match; auto with sql.
Qed.

Lemma authenticate_token_runs h a t now kind db db' :
  runs (authenticate_token h a t now) db (Ok kind) db' →
  db' = db ∧ authenticated db h a t now kind.
Proof.
  intros Hr. pose proof (reader_runs _ _ _ _ _ (authenticate_token_reader h a t now) Hr) as [-> _].
  split; [done|]. unfold authenticate_token in Hr.
  apply runs_bind in Hr as [(? & ? & _)|(b & ? & [-> [?|[= ->]]]%runs_query & Hr)]; [done..|].
  destruct (enrollment_bootstrap_tokens db !! h) as [row|] eqn:Htok.
  { apply runs_lift in Hr as [Hr _]. symmetry in Hr.
    repeat (case_match; [done|]). injection Hr as <-. exists row.
    repeat match goal with
    | Hx : negb _ = false |- _ => apply negb_false_iff in Hx
    | Hx : bool_decide _ = true |- _ => apply bool_decide_eq_true in Hx
    | Hx : (_ || _) = false |- _ => apply orb_false_iff in Hx as [? ?]
    end. split_and!; try done; lia. }
  apply runs_bind in Hr as [(? & ? & _)|(f & ? & [-> [?|[= ->]]]%runs_query & Hr)]; [done..|].
  apply runs_bind in Hr as [(? & ? & _)|(p & ? & [Hp ->]%runs_lift & Hr)]; [done|].
  symmetry in Hp. apply ok_or_Ok, renewal_row_Some in Hp as (Hl & Hh & Hst).
  case_bool_decide as Hb; cbn [negb] in Hr; [|by apply runs_lift in Hr as [? _]].
  apply runs_bind in Hr as [(? & ? & _)|(st & ? & [Hs ->]%runs_lift & Hr)]; [done|].
  case_bool_decide as Hrev; [by apply runs_lift in Hr as [? _]|].
  apply runs_bind in Hr as [(? & ? & _)|(fp & ? & [Hfp ->]%runs_lift & [[= ->] _]%runs_ret)]; [done|].
  symmetry in Hfp. apply decode_fp_Ok in Hfp as [-> _]. split; [done|]. exists p.2.
  split_and!; [done..|]. destruct Hst as [|Hst]; [done|]. rewrite Hst in Hs. by injection Hs as ->.
Qed.

(** ** Effects

    A transaction that commits has one of the following effects. *)

(** The values the types of the fields admit. *)
Definition candidate_ok (c : IssuanceCandidate) : Prop :=
  durable_id_ok (agent_str (ic_agent_id c)) ∧ durable_id_ok (tunnel_str (ic_tunnel_id c)) ∧
  zlen (fp_bytes (ic_fingerprint c)) = 32 ∧ 0 ≤ ic_not_after_unix c.

Definition issued_row (c : IssuanceCandidate) (kind : PresentedTokenKind) (generation : SnapshotVersion)
    : CredentialRow :=
  MkCredentialRow (request_id_bytes (ic_request_id c)) (agent_str (ic_agent_id c))
    (tunnel_str (ic_tunnel_id c)) (ic_csr_digest c) (ic_presented_token_hash c)
    (ic_next_token_hash c) (ic_certificate_pem c) (ic_not_after_unix c)
    (to_be 8 (version_raw generation)) 1
    (match kind with TokenBootstrap => None | TokenRenewal fp => Some (fp_bytes fp) end)
    (ic_activation_deadline_unix c) None.

Record issue_effect (c : IssuanceCandidate) (now : Z) (kind : PresentedTokenKind) db v db' v' : Prop := {
  ie_ok : candidate_ok c;
  ie_auth : authenticated db (ic_presented_token_hash c) (ic_agent_id c) (ic_tunnel_id c) now kind;
  ie_checks : credential_checks (fp_bytes (ic_fingerprint c)) (issued_row c kind (va_version v')) = true;
  ie_fresh : agent_credentials db !! fp_bytes (ic_fingerprint c) = None;
  ie_request : ∀ fp row, agent_credentials db !! fp = Some row →
                 cr_request_id row ≠ request_id_bytes (ic_request_id c);
  ie_ungranted : as_agents (va_snapshot v) !! ic_fingerprint c = None;
  ie_version : version_raw (va_version v') = version_raw (va_version v) + 1;
  ie_granted : ∀ x, as_agents (va_snapshot v') !! x =
    if decide (x = ic_fingerprint c)
    then Some (MkAuthorizedAgent (ic_agent_id c) {[ ic_tunnel_id c := Enabled ]})
    else as_agents (va_snapshot v) !! x;
  ie_credentials : agent_credentials db' =
    <[fp_bytes (ic_fingerprint c) := issued_row c kind (va_version v')]> (agent_credentials db);
  ie_tokens : enrollment_bootstrap_tokens db' =
    match kind with
    | TokenBootstrap => enrollment_bootstrap_tokens (consume_token (ic_presented_token_hash c) db)
    | TokenRenewal _ => enrollment_bootstrap_tokens db
    end
}.

Record activate_effect (fp : CertificateFingerprint) (row : CredentialRow) db v db' v' : Prop := {
  ae_row : agent_credentials db !! fp_bytes fp = Some row;
  ae_pending : cr_state row = 1;
  ae_snapshot :
    match cr_previous_fingerprint row with
    | None => v' = v
    | Some p => version_raw (va_version v') = version_raw (va_version v) + 1 ∧
        ∀ x, as_agents (va_snapshot v') !! x =
             if decide (x ≠ MkFingerprint p) then as_agents (va_snapshot v) !! x else None
    end;
  ae_credentials : agent_credentials db' = agent_credentials (update_state (fp_bytes fp) 2
    (match cr_previous_fingerprint row with None => db | Some p => update_state p 3 db end));
  ae_tokens : enrollment_bootstrap_tokens db' = enrollment_bootstrap_tokens db
}.

Record expire_effect (fps : list CertificateFingerprint) (now : Z) db v db' v' : Prop := {
  ee_pending : ∀ fp, fp ∈ fps → ∃ row, agent_credentials db !! fp_bytes fp = Some row ∧ cr_state row = 1;
  ee_version : v' = v ∨ version_raw (va_version v') = version_raw (va_version v) + 1;
  ee_snapshot : ∀ x, as_agents (va_snapshot v') !! x =
    if decide (x ∉ fps) then as_agents (va_snapshot v) !! x else None;
  ee_credentials : ∀ f, agent_credentials db' !! f =
    (λ row, if decide (MkFingerprint f ∈ fps) then set_state 5 (Some now) row else row)
      <$> agent_credentials db !! f;
  ee_tokens : enrollment_bootstrap_tokens db' = enrollment_bootstrap_tokens db
}.

Record revoke_effect (a : AgentId) (t : TunnelId) (now : Z) db v db' v' : Prop := {
  re_version : v' = v ∨ version_raw (va_version v') = version_raw (va_version v) + 1;
  re_snapshot : ∀ x, as_agents (va_snapshot v') !! x =
    as_agents (va_snapshot v) !! x ≫= without_tunnel a t;
  re_credentials : agent_credentials db' =
    (λ row, if bool_decide (bound_credential a t row ∧ live_row row)
            then set_state 4 (Some now) row else row) <$> agent_credentials db;
  re_tokens : enrollment_bootstrap_tokens db' = enrollment_bootstrap_tokens (revoke_tokens a t db)
}.

Lemma request_row_reader r db : reader ER_Storage (load_issuance r).
Proof.
  apply reader_bind; [auto with sql|]. intros [p|]; auto with sql.
Qed.

Lemma request_row_None r db :
  request_row r db = None →
  ∀ fp row, agent_credentials db !! fp = Some row → cr_request_id row ≠ request_id_bytes r.
Proof.
  unfold request_row. intros Hn fp row Hl Heq. apply head_None in Hn.
  eapply (filter_nil_not_elem_of _ _ (fp, row)) in Hn; [|done]. by apply Hn, scan_elem.
Qed.

Lemma i64_try_from_Ok z y : i64_try_from z = Ok y → y = z ∧ z < 2 ^ 63.
Proof. unfold i64_try_from. case_match; [|done]. intros [= <-]. lia. Qed.

Lemma insert_credential_Some fp row db u db' :
  insert_credential fp row db = Some (u, db') →
  credential_checks fp row = true ∧ agent_credentials db !! fp = None ∧
  db' = with_credentials (<[fp := row]> (agent_credentials db)) db.
Proof.
  unfold insert_credential. case_match eqn:Hc; [done|]. intros [= _ <-].
  apply orb_false_iff in Hc as [Hc _]. apply orb_false_iff in Hc as [Hc Hf].
  apply negb_false_iff in Hc. apply bool_decide_eq_false in Hf.
  by apply eq_None_not_Some in Hf.
Qed.

Lemma new_grant_ok c :
  candidate_ok c →
  agent_grant_ok (MkAgentGrant (ic_fingerprint c) (ic_agent_id c) [MkTunnelGrant (ic_tunnel_id c) Enabled]).
Proof. intros (? & ? & ? & _). split_and!; [done..|]. by apply Forall_singleton. Qed.

(** The rows that [issue] writes after the snapshot. *)
Lemma issue_rows_runs c kind w db r db' :
  runs (not_after ← lift (i64_try_from (ic_not_after_unix c));
        deadline ← lift (i64_try_from (ic_activation_deadline_unix c));
        execute ER_Storage (insert_credential (fp_bytes (ic_fingerprint c))
          (MkCredentialRow (request_id_bytes (ic_request_id c))
             (agent_str (ic_agent_id c)) (tunnel_str (ic_tunnel_id c))
             (ic_csr_digest c) (ic_presented_token_hash c)
             (ic_next_token_hash c) (ic_certificate_pem c) not_after
             (to_be 8 (version_raw w)) 1
             (match kind with TokenBootstrap => None | TokenRenewal fp => Some (fp_bytes fp) end)
             deadline None)) ;;
        match kind with
        | TokenBootstrap => update ER_Storage (consume_token (ic_presented_token_hash c))
        | TokenRenewal _ => mret tt
        end ;;
        commit ER_Storage ;;
        mret (M := ESql) (A := EResult DurableIssuance)
          (Ok (MkIssuance w (ic_certificate_pem c) (ic_fingerprint c) (ic_not_after_unix c))))
    db (Ok r) db' →
  let fp := fp_bytes (ic_fingerprint c) in
  r = Ok (MkIssuance w (ic_certificate_pem c) (ic_fingerprint c) (ic_not_after_unix c)) ∧
  credential_checks fp (issued_row c kind w) = true ∧ agent_credentials db !! fp = None ∧
  let db1 := with_credentials (<[fp := issued_row c kind w]> (agent_credentials db)) db in
  db' = match kind with
        | TokenBootstrap => consume_token (ic_presented_token_hash c) db1
        | TokenRenewal _ => db1
        end.
Proof.
  intros Hr. cbn zeta.
  apply runs_bind in Hr as [(? & ? & _)|(na & ? & [Hna ->]%runs_lift & Hr)]; [done|].
  apply runs_bind in Hr as [(? & ? & _)|(dl & ? & [Hdl ->]%runs_lift & Hr)]; [done|].
  symmetry in Hna, Hdl. apply i64_try_from_Ok in Hna as [-> _], Hdl as [-> _].
  apply runs_bind in Hr as [(? & ? & _)|(u & db1 & H1 & Hr)]; [done|].
  apply runs_execute in H1 as [[? _]|(u1 & _ & (Hck & Hfresh & ->)%insert_credential_Some)]; [done|].
  apply runs_bind in Hr as [(? & ? & _)|(u2 & db2 & H2 & Hr)]; [done|].
  apply runs_bind in Hr as [(? & ? & _)|(u3 & db3 & [-> _]%runs_query & [[= ->] ->]%runs_ret)]; [done|].
  split_and!; [done..|]. destruct kind.
  - by apply runs_update in H2 as [[? _]|[_ ->]].
  - by apply runs_ret in H2 as [_ ->].
Qed.

Lemma issue_runs c kind now v db r db' :
  candidate_ok c → stored sha256 db = Ok (Some v) →
  authenticated db (ic_presented_token_hash c) (ic_agent_id c) (ic_tunnel_id c) now kind →
  request_row (ic_request_id c) db = None →
  runs (issue sha256 c kind) db (Ok r) db' →
  ∃ v', stored sha256 db' = Ok (Some v') ∧ issue_effect c now kind db v db' v' ∧
    r = Ok (MkIssuance (va_version v') (ic_certificate_pem c) (ic_fingerprint c) (ic_not_after_unix c)).
Proof.
  intros Hc Hst Hauth Hreq Hr. unfold issue in Hr.
  apply runs_bind in Hr as [(? & ? & _)|(cur & ? & [-> Hcur]%load_snapshot_runs & Hr)]; [done|].
  rewrite Hst in Hcur. injection Hcur as <-.
  apply runs_bind in Hr as [(? & ? & _)|(w & ? & [Hw ->]%runs_lift & Hr)]; [done|]. symmetry in Hw.
  cbn zeta in Hr. case_match eqn:Hex; [by apply runs_lift in Hr as [? _]|].
  apply runs_bind in Hr as [(? & ? & _)|(s & ? & [Hs ->]%runs_lift & Hr)]; [done|].
  symmetry in Hs. apply map_err_Ok in Hs.
  apply runs_bind in Hr as [(? & ? & _)|([] & db1 & H1 & Hr)]; [done|].
  pose proof (stored_ok _ _ Hst) as [Hsok _].
  eapply replace_new_runs in H1 as (Hst1 & [_ Hver] & [Htok Hcred]);
    [|done|by apply Forall_app_2; [|apply Forall_singleton, new_grant_ok]|done..].
  apply issue_rows_runs in Hr as (-> & Hck & Hfresh & ->). rewrite Hcred in *.
  exists (MkVersioned w s). split_and!; [|  |done].
  { rewrite (stored_same_tables _ db1); [done|by destruct kind]. }
  pose proof (λ x, new_of_snoc _ _ _ x Hs) as Hlook. cbn [ag_certificate] in Hlook.
  split; cbn [va_version va_snapshot]; try done.
  - by apply request_row_None.
  - destruct (as_agents (va_snapshot v) !! ic_fingerprint c) as [ag|] eqn:Hl; [|done].
    assert (existsb (λ grant, bool_decide (ag_certificate grant = ic_fingerprint c))
      (grants (va_snapshot v)) = true) as Ht; [|congruence].
    apply existsb_exists. exists (entry_grant (ic_fingerprint c, ag)). split.
    + apply list_elem_of_In, grants_elem. eauto.
    + by apply bool_decide_eq_true.
  - destruct kind; cbn; by rewrite ?Hcred.
  - destruct kind; cbn; by rewrite Htok.
Qed.

Lemma commit_issuance_runs c now v db r db' :
  candidate_ok c → stored sha256 db = Ok (Some v) →
  runs (commit_issuance sha256 c now) db r db' →
  db' = db ∨
  ∃ kind v', stored sha256 db' = Ok (Some v') ∧ issue_effect c now kind db v db' v' ∧
    r = Ok (MkIssuance (va_version v') (ic_certificate_pem c) (ic_fingerprint c) (ic_not_after_unix c)).
Proof.
  intros Hc Hst Hr. unfold commit_issuance in Hr. case_match; [apply runs_lift in Hr as [_ ->]; by left|].
  apply runs_bind in Hr as [(? & _ & [-> _]%runs_query)|(u & ? & [-> _]%runs_query & Hr)]; [by left|].
  apply runs_transaction in Hr as [(? & _ & ->)|Hr]; [by left|].
  apply runs_bind in Hr as [(? & ? & _)|(found & db1 & Hl & Hr)]; [done|].
  apply runs_bind in Hl as [(? & ? & _)|(p & db2 & [-> [?|[= ->]]]%runs_query & Hl)]; [done..|].
  destruct (request_row (ic_request_id c) db) as [p|] eqn:Hreq.
  - apply runs_bind in Hl as [(? & ? & _)|(ex & db2 & [_ ->]%runs_lift & [[= ->] ->]%runs_ret)]; [done|].
    apply runs_bind in Hr as [(? & ? & _)|(u1 & ? & [_ ->]%runs_lift & Hr)]; [done|].
    apply runs_bind in Hr as [(? & ? & _)|(u2 & ? & [_ ->]%runs_lift & Hr)]; [done|].
    apply runs_bind in Hr as [(? & ? & _)|(u3 & ? & [-> _]%runs_query & [_ ->]%runs_ret)]; [done|].
    by left.
  - apply runs_ret in Hl as [[= ->] ->].
    apply runs_bind in Hr as [(? & ? & _)|(kind & ? & [-> Ha]%authenticate_token_runs & Hr)]; [done|].
    right. exists kind. by eapply issue_runs.
Qed.

Lemma expire_row_lookup fp now db f :
  agent_credentials (expire_row fp now db) !! f =
  (λ row, if decide (f = fp ∧ cr_state row = 1) then set_state 5 (Some now) row else row)
    <$> agent_credentials db !! f.
Proof.
  cbn. destruct (decide (f = fp)) as [->|Hne].
  - rewrite lookup_alter_eq. destruct (agent_credentials db !! fp) as [row|]; cbn; [|done].
    f_equal. destruct (Z.eqb_spec (cr_state row) 1); case_decide; naive_solver.
  - rewrite lookup_alter_ne by done. destruct (agent_credentials db !! f) as [row|]; cbn; [|done].
    by rewrite decide_False by naive_solver.
Qed.

Lemma expire_rows_runs fps now db r db' :
  runs (expire_rows fps now) db (Ok r) db' →
  same_tables db db' ∧ enrollment_bootstrap_tokens db' = enrollment_bootstrap_tokens db ∧
  ∀ f, agent_credentials db' !! f =
    (λ row, if decide (MkFingerprint f ∈ fps ∧ cr_state row = 1)
            then set_state 5 (Some now) row else row) <$> agent_credentials db !! f.
Proof.
  revert db. induction fps as [|fp fps IH]; intros db Hr; cbn [expire_rows] in Hr.
  { apply runs_ret in Hr as [_ ->]. split_and!; [done..|]. intros f.
    destruct (agent_credentials db !! f); cbn; [|done]. by rewrite decide_False by set_solver. }
  apply runs_bind in Hr as [(? & ? & _)|(u & db1 & H1 & Hr)]; [done|].
  apply runs_update in H1 as [[? _]|[_ ->]]; [done|].
  apply IH in Hr as (Hs & Ht & Hc). split_and!; [done..|]. intros f. rewrite Hc, expire_row_lookup.
  destruct (agent_credentials db !! f) as [row|]; cbn; [|done]. f_equal.
  assert (MkFingerprint f = fp ↔ f = fp_bytes fp) as Hf by (destruct fp; naive_solver).
  rewrite (decide_ext (MkFingerprint f ∈ fp :: fps ∧ cr_state row = 1)
    ((f = fp_bytes fp ∨ MkFingerprint f ∈ fps) ∧ cr_state row = 1))
    by (rewrite elem_of_cons, Hf; done).
  destruct (decide (f = fp_bytes fp ∧ cr_state row = 1)) as [[? ?]|].
  - rewrite decide_False by (cbn; naive_solver). by rewrite decide_True by naive_solver.
  - by repeat case_decide; naive_solver.
Qed.

Lemma expire_pending_runs fp now v row db w db' :
  stored sha256 db = Ok (Some v) → agent_credentials db !! fp_bytes fp = Some row → cr_state row = 1 →
  runs (expire_pending_credential sha256 fp now) db (Ok w) db' →
  ∃ v', stored sha256 db' = Ok (Some v') ∧ expire_effect [fp] now db v db' v'.
Proof.
  intros Hst Hrow Hpend Hr. unfold expire_pending_credential in Hr.
  apply runs_bind in Hr as [(? & ? & _)|(cur & ? & [-> Hcur]%load_snapshot_runs & Hr)]; [done|].
  rewrite Hst in Hcur. injection Hcur as <-. pose proof (stored_ok _ _ Hst) as [Hsok _].
  apply runs_bind in Hr as [(? & ? & _)|([w1 b] & db1 & H1 & Hr)]; [done|].
  apply republish_if_changed_runs in H1 as (v' & -> & Hst1 & Hnew & [Htok Hcred] & Hb);
    [|done|by apply snapshot_ok_filter].
  apply runs_bind in Hr as [(? & ? & _)|(ta & ? & [Hta ->]%runs_lift & Hr)]; [done|].
  symmetry in Hta. apply i64_try_from_Ok in Hta as [-> _].
  apply runs_bind in Hr as [(? & ? & _)|(u & db2 & H2 & [_ ->]%runs_ret)]; [done|].
  apply runs_update in H2 as [[? _]|[_ ->]]; [done|].
  exists v'. split; [by rewrite (stored_same_tables _ db1)|]. split.
  - intros fp' ->%list_elem_of_singleton. eauto.
  - destruct b; [right; apply Hb|left; apply Hb].
  - intros x. rewrite (new_of_filter _ (λ c, c ≠ fp) _ x Hnew).
    destruct (decide (x = fp)); repeat case_decide; set_solver.
  - intros f. rewrite expire_row_lookup, Hcred.
    destruct (agent_credentials db !! f) as [row'|] eqn:Hf; cbn; [|done]. f_equal.
    destruct (decide (f = fp_bytes fp)) as [->|Hne].
    + rewrite decide_True by naive_solver. rewrite decide_True; [done|].
      apply list_elem_of_singleton. by destruct fp.
    + rewrite decide_False by naive_solver. rewrite decide_False; [done|].
      intros ?%list_elem_of_singleton. subst fp. by apply Hne.
  - done.
Qed.

Lemma activate_pending_runs fp row v db r db' :
  stored sha256 db = Ok (Some v) → agent_credentials db !! fp_bytes fp = Some row → cr_state row = 1 →
  runs (activate_pending sha256 fp (cr_previous_fingerprint row)) db (Ok r) db' →
  ∃ v', stored sha256 db' = Ok (Some v') ∧ activate_effect fp row db v db' v' ∧
        r = Ok (va_version v').
Proof.
  intros Hst Hrow Hpend Hr. unfold activate_pending in Hr.
  apply runs_bind in Hr as [(? & ? & _)|(previous & ? & [Hp ->]%runs_lift & Hr)]; [done|].
  apply runs_bind in Hr as [(? & ? & _)|(cur & ? & [-> Hcur]%load_snapshot_runs & Hr)]; [done|].
  rewrite Hst in Hcur. injection Hcur as <-. pose proof (stored_ok _ _ Hst) as [Hsok _].
  apply runs_bind in Hr as [(? & ? & _)|(w & db1 & H1 & Hr)]; [done|].
  apply runs_bind in Hr as [(? & ? & _)|(u & db2 & H2 & Hr)]; [done|].
  apply runs_update in H2 as [[? _]|[_ ->]]; [done|].
  apply runs_bind in Hr as [(? & ? & _)|(u1 & ? & [-> _]%runs_query & [[= ->] ->]%runs_ret)]; [done|].
  destruct (cr_previous_fingerprint row) as [bs|] eqn:Hprev.
  - symmetry in Hp. apply bind_Ok in Hp as (p & [-> _]%decode_fp_Ok & [= <-]).
    apply runs_bind in H1 as [(? & ? & _)|(w' & db2 & H1 & Hr)]; [done|].
    apply runs_bind in Hr as [(? & ? & _)|(u2 & db3 & H2 & [[= ->] ->]%runs_ret)]; [done|].
    apply runs_update in H2 as [[? _]|[_ ->]]; [done|].
    apply republish_runs in H1 as (v' & -> & Hst1 & [Hnew Hver] & [Htok Hcred]);
      [|done|by apply snapshot_ok_filter].
    exists v'. split_and!; [by rewrite (stored_same_tables _ db2)| |done].
    split; [done..| | |done].
    + rewrite Hprev. split; [done|]. intros x. by rewrite (new_of_filter _ (λ c, c ≠ MkFingerprint bs) _ x Hnew).
    + rewrite Hprev. cbn. by rewrite Hcred.
  - symmetry in Hp. injection Hp as <-. apply runs_ret in H1 as [[= ->] ->].
    exists v. split_and!; [by rewrite (stored_same_tables _ db)| |done].
    split; [done..| | |done]; by rewrite Hprev.
Qed.

Lemma activation_row_Some r fp h db row :
  activation_row r fp h db = Some row →
  agent_credentials db !! fp_bytes fp = Some row ∧ cr_request_id row = request_id_bytes r ∧
  cr_renewal_token_hash row = h.
Proof.
  unfold activation_row. intros (row' & Hl & Hc)%bind_Some. case_match eqn:Hb; [|done].
  injection Hc as ->. apply andb_prop in Hb as [?%bool_decide_eq_true ?%bool_decide_eq_true]. done.
Qed.

Lemma from_raw_pending z : CredentialState_from_raw z = Ok Pending → z = 1.
Proof. unfold CredentialState_from_raw. by repeat case_match. Qed.

Lemma activate_runs r h fp now v db res db' :
  stored sha256 db = Ok (Some v) →
  runs (activate sha256 r h fp now) db res db' →
  db' = db ∨
  (∃ v', stored sha256 db' = Ok (Some v') ∧ expire_effect [fp] now db v db' v' ∧
         res = Err ER_RequestExpired) ∨
  (∃ row v', stored sha256 db' = Ok (Some v') ∧ activate_effect fp row db v db' v' ∧
         cr_renewal_token_hash row = h ∧ now < cr_activation_deadline row ∧
         res = Ok (va_version v')).
Proof.
  intros Hst Hr. unfold activate in Hr.
  apply runs_bind in Hr as [(? & _ & [-> _]%runs_query)|(u & ? & [-> _]%runs_query & Hr)]; [by left|].
  apply runs_transaction in Hr as [(? & _ & ->)|Hr]; [by left|].
  apply runs_bind in Hr as [(? & ? & _)|(found & ? & [-> [?|[= ->]]]%runs_query & Hr)]; [done..|].
  apply runs_bind in Hr as [(? & ? & _)|(row & ? & [Hrow ->]%runs_lift & Hr)]; [done|].
  symmetry in Hrow. apply ok_or_Ok, activation_row_Some in Hrow as (Hrow & _ & Hh).
  apply runs_bind in Hr as [(? & ? & _)|(state & ? & [Hs ->]%runs_lift & Hr)]; [done|].
  destruct state; try (by apply runs_lift in Hr as [? _]).
  - symmetry in Hs. apply from_raw_pending in Hs. case_match eqn:Hd.
    + apply runs_bind in Hr as [(? & ? & _)|(w & db1 & H1 & Hr)]; [done|].
      apply runs_bind in Hr as [(? & ? & _)|(u1 & ? & [-> _]%runs_query & [[= ->] ->]%runs_ret)]; [done|].
      eapply expire_pending_runs in H1 as (v' & ? & ?); [|done..]. right; left. eauto.
    + eapply activate_pending_runs in Hr as (v' & ? & ? & ->); [|done..].
      apply orb_false_iff in Hd as [_ Hd]. right; right. exists row, v'. split_and!; try done. lia.
  - apply runs_bind in Hr as [(? & ? & _)|(cur & ? & [-> _]%load_snapshot_runs & Hr)]; [done|].
    apply runs_bind in Hr as [(? & ? & _)|(u1 & ? & [-> _]%runs_query & [_ ->]%runs_ret)]; [done|].
    by left.
Qed.

Lemma revoke_agent_runs a t now v db r db' :
  stored sha256 db = Ok (Some v) →
  runs (revoke_agent sha256 a t now) db r db' →
  (∃ e, r = Err e ∧ db' = db) ∨
  (∃ o v', r = Ok o ∧ stored sha256 db' = Ok (Some v') ∧ revoke_effect a t now db v db' v').
Proof.
  intros Hst Hr. unfold revoke_agent in Hr.
  apply runs_bind in Hr as [(? & ? & [_ ->]%runs_lift)|(ta & ? & [Hta ->]%runs_lift & Hr)]; [eauto|].
  symmetry in Hta. apply i64_try_from_Ok in Hta as [-> _].
  apply runs_bind in Hr as [(? & ? & [-> _]%runs_query)|(u & ? & [-> _]%runs_query & Hr)]; [eauto|].
  apply runs_transaction in Hr as [(? & ? & ->)|Hr]; [eauto|]. right.
  apply runs_bind in Hr as [(? & ? & _)|(u1 & db1 & H1 & Hr)]; [done|].
  apply runs_update in H1 as [[? _]|[_ ->]]; [done|].
  apply runs_bind in Hr as [(? & ? & _)|(affected & db2 & H2 & Hr)]; [done|].
  apply runs_execute in H2 as [[? _]|(aff & [= ->] & [= _ <-])]; [done|].
  apply runs_bind in Hr as [(? & ? & _)|(cur & ? & [-> Hcur]%load_snapshot_runs & Hr)]; [done|].
  pose proof Hcur as Hcur'. rewrite (stored_same_tables _ db) in Hcur' by done.
  rewrite Hst in Hcur'. injection Hcur' as <-. pose proof (stored_ok _ _ Hst) as [Hsok _].
  apply runs_bind in Hr as [(? & ? & _)|([w b] & db3 & H3 & Hr)]; [done|].
  apply runs_bind in Hr as [(? & ? & _)|(u2 & ? & [-> _]%runs_query & [[= ->] ->]%runs_ret)]; [done|].
  apply republish_if_changed_runs in H3 as (v' & -> & Hst3 & Hnew & [Htok Hcred] & Hb);
    [|done|by apply snapshot_ok_remove].
  eexists _, v'. split_and!; [done..|]. split.
  - destruct b; [right; apply Hb|left; apply Hb].
  - intros x. by apply new_of_remove.
  - by rewrite Hcred.
  - by rewrite Htok.
Qed.

Lemma overdue_fingerprints_elem now f db :
  f ∈ overdue_fingerprints now db →
  ∃ row, agent_credentials db !! f = Some row ∧ overdue now row.
Proof.
  intros Hf. unfold overdue_fingerprints in Hf. apply elem_of_take in Hf as (i & Hi & _).
  apply list_elem_of_lookup_2 in Hi. rewrite merge_sort_Permutation in Hi.
  apply list_elem_of_fmap in Hi as ([f' row] & -> & [Ho Hin]%list_elem_of_filter).
  apply scan_elem in Hin. eauto.
Qed.

Lemma reconcile_expired_runs now v db r db' :
  stored sha256 db = Ok (Some v) →
  runs (reconcile_expired sha256 now) db r db' →
  (∃ e, r = Err e ∧ db' = db) ∨
  (∃ o v' fps, r = Ok o ∧ stored sha256 db' = Ok (Some v') ∧ expire_effect fps now db v db' v' ∧
     fp_bytes <$> fps = overdue_fingerprints now db ∧ mo_affected_credentials o = zlen fps).
Proof.
  intros Hst Hr. unfold reconcile_expired in Hr.
  apply runs_bind in Hr as [(? & ? & [_ ->]%runs_lift)|(ta & ? & [Hta ->]%runs_lift & Hr)]; [eauto|].
  symmetry in Hta. apply i64_try_from_Ok in Hta as [-> _].
  apply runs_bind in Hr as [(? & ? & [-> _]%runs_query)|(u & ? & [-> _]%runs_query & Hr)]; [eauto|].
  apply runs_transaction in Hr as [(? & ? & ->)|Hr]; [eauto|]. right.
  apply runs_bind in Hr as [(? & ? & _)|(rows & ? & [-> [?|[= ->]]]%runs_query & Hr)]; [done..|].
  apply runs_bind in Hr as [(? & ? & _)|(fps & ? & [Hfps ->]%runs_lift & Hr)]; [done|].
  unfold expire_batch in Hr.
  apply runs_bind in Hr as [(? & ? & _)|(cur & ? & [-> Hcur]%load_snapshot_runs & Hr)]; [done|].
  rewrite Hst in Hcur. injection Hcur as <-. pose proof (stored_ok _ _ Hst) as [Hsok _].
  assert (fp_bytes <$> fps = overdue_fingerprints now db) as Hf.
  { symmetry in Hfps. apply collect_Ok in Hfps. clear -Hfps.
    induction Hfps as [|f fp fs fps [-> _]%decode_fp_Ok _ IH]; [done|]. by rewrite fmap_cons, IH. }
  assert (∀ fp, fp ∈ fps → ∃ row, agent_credentials db !! fp_bytes fp = Some row ∧ overdue now row) as Hod.
  { intros fp Hfp. apply overdue_fingerprints_elem. rewrite <-Hf. by apply list_elem_of_fmap_2. }
  destruct fps as [|fp fps'].
  { apply runs_bind in Hr as [(? & ? & _)|(u1 & ? & [-> _]%runs_query & [[= ->] ->]%runs_ret)]; [done|].
    exists (MkOutcome (va_version v) 0 false), v, []. split_and!; try done. split; try done.
    - set_solver.
    - by left.
    - intros f. by destruct (agent_credentials db !! f). }
  set (fps := fp :: fps') in *.
  apply runs_bind in Hr as [(? & ? & _)|([w b] & db1 & H1 & Hr)]; [done|].
  apply republish_if_changed_runs in H1 as (v' & -> & Hst1 & Hnew & [Htok Hcred] & Hb);
    [|done|by apply snapshot_ok_filter].
  apply runs_bind in Hr as [(? & ? & _)|(u1 & db2 & H2 & Hr)]; [done|].
  apply runs_bind in Hr as [(? & ? & _)|(u2 & ? & [-> _]%runs_query & [[= ->] ->]%runs_ret)]; [done|].
  apply expire_rows_runs in H2 as (Hs & Ht & Hc).
  eexists _, v', fps. split_and!; [done|by rewrite (stored_same_tables _ db1)| |done..]. split.
  - intros f (row & ? & ? & _)%Hod. eauto.
  - destruct b; [right; apply Hb|left; apply Hb].
  - intros x. by rewrite (new_of_filter _ (λ c, c ∉ fps) _ x Hnew).
  - intros f. rewrite Hc, Hcred. destruct (agent_credentials db !! f) as [row|] eqn:Hl; cbn; [|done].
    f_equal. destruct (decide (MkFingerprint f ∈ fps)) as [Hin|]; [|by rewrite decide_False by naive_solver].
    destruct (Hod _ Hin) as (row' & Hl' & ? & _). cbn in Hl'. rewrite Hl in Hl'. simplify_eq.
    by rewrite decide_True.
  - by rewrite Ht, Htok.
Qed.

Lemma create_bootstrap_token_runs h a t e db r db' :
  runs (create_bootstrap_token h a t e) db r db' →
  (∃ err, r = Err err ∧ db' = db) ∨
  r = Ok tt ∧ enrollment_bootstrap_tokens db !! h = None ∧
  db' = with_tokens (<[h := MkTokenRow (agent_str a) (tunnel_str t) e 0 0]>
          (enrollment_bootstrap_tokens db)) db.
Proof.
  intros Hr. unfold create_bootstrap_token in Hr.
  apply runs_bind in Hr as [(? & ? & [_ ->]%runs_lift)|(ex & ? & [Hex ->]%runs_lift & Hr)]; [eauto|].
  symmetry in Hex. apply i64_try_from_Ok in Hex as [-> _].
  apply runs_bind in Hr as [(? & ? & [-> _]%runs_query)|(u & ? & [-> _]%runs_query & Hr)]; [eauto|].
  apply runs_bind in Hr as [(? & ? & H1)|(inserted & db1 & H1 & Hr)].
  { apply runs_execute in H1 as [[_ ->]|(? & ? & _)]; [eauto|done]. }
  apply runs_execute in H1 as [[? _]|(b & [= ->] & Hq)]; [done|].
  unfold insert_token in Hq.
  destruct (negb (zlen h =? 32)); [|destruct (enrollment_bootstrap_tokens db !! h)]; simplify_eq.
  - apply runs_lift in Hr as [-> ->]. eauto.
  - apply runs_lift in Hr as [-> ->]. eauto.
  - apply runs_ret in Hr as [-> ->]. auto.
Qed.

(** ** Histories of the repository *)

Inductive EnrollOp : Type :=
| OpToken (h : bytes) (a : AgentId) (t : TunnelId) (expires : Z)
| OpIssue (c : IssuanceCandidate) (now : Z)
| OpActivate (r : EnrollmentRequestId) (h : bytes) (fp : CertificateFingerprint) (now : Z)
| OpRevoke (a : AgentId) (t : TunnelId) (now : Z)
| OpReconcile (now : Z).

(** One call of an operation, with any faults. *)
Definition op_step (op : EnrollOp) db db' : Prop :=
  match op with
  | OpToken h a t e => ∃ r, runs (create_bootstrap_token h a t e) db r db'
  | OpIssue c now => candidate_ok c ∧ ∃ r, runs (commit_issuance sha256 c now) db r db'
  | OpActivate r h fp now => ∃ res, runs (activate sha256 r h fp now) db res db'
  | OpRevoke a t now => ∃ r, runs (revoke_agent sha256 a t now) db r db'
  | OpReconcile now => ∃ r, runs (reconcile_expired sha256 now) db r db'
  end.

Inductive effect : EnrollOp → Database → VersionedAuthorizationSnapshot →
    Database → VersionedAuthorizationSnapshot → Prop :=
| eff_none op db v : effect op db v db v
| eff_token h a t e db v :
    enrollment_bootstrap_tokens db !! h = None →
    effect (OpToken h a t e) db v
      (with_tokens (<[h := MkTokenRow (agent_str a) (tunnel_str t) e 0 0]>
         (enrollment_bootstrap_tokens db)) db) v
| eff_issue c now kind db v db' v' :
    issue_effect c now kind db v db' v' → effect (OpIssue c now) db v db' v'
| eff_activate r h fp now row db v db' v' :
    activate_effect fp row db v db' v' → effect (OpActivate r h fp now) db v db' v'
| eff_expire op fps now db v db' v' :
    expire_effect fps now db v db' v' → effect op db v db' v'
| eff_revoke a t now db v db' v' :
    revoke_effect a t now db v db' v' → effect (OpRevoke a t now) db v db' v'.

Lemma op_effect op db v db' :
  stored sha256 db = Ok (Some v) → op_step op db db' →
  ∃ v', stored sha256 db' = Ok (Some v') ∧ effect op db v db' v'.
Proof.
  intros Hst Hop. destruct op as [h a t e|c now|r h fp now|a t now|now]; cbn in Hop.
  - destruct Hop as [r [(? & _ & ->)|(_ & ? & ->)]%create_bootstrap_token_runs].
    + exists v. split; [done|constructor].
    + exists v. split; [by rewrite (stored_same_tables _ db)|by constructor].
  - destruct Hop as [Hc [r Hr]].
    eapply commit_issuance_runs in Hr as [->|(kind & v' & ? & ? & _)]; [| |done..].
    + exists v. split; [done|constructor].
    + exists v'. split; [done|by econstructor].
  - destruct Hop as [res Hr].
    eapply activate_runs in Hr as [->|[(v' & ? & ? & _)|(row & v' & ? & ? & _)]]; [| | |done].
    + exists v. split; [done|constructor].
    + exists v'. split; [done|by eapply eff_expire].
    + exists v'. split; [done|by econstructor].
  - destruct Hop as [r Hr].
    eapply revoke_agent_runs in Hr as [(? & _ & ->)|(o & v' & _ & ? & ?)]; [| |done].
    + exists v. split; [done|constructor].
    + exists v'. split; [done|by econstructor].
  - destruct Hop as [r Hr].
    eapply reconcile_expired_runs in Hr as [(? & _ & ->)|(o & v' & fps & _ & ? & ? & _)]; [| |done].
    + exists v. split; [done|constructor].
    + exists v'. split; [done|by eapply eff_expire].
Qed.

(** Histories of operations, possibly restricted. *)
Definition history (allowed : EnrollOp → Prop) : Database → Database → Prop :=
  rtc (λ db db', ∃ op, allowed op ∧ op_step op db db').
Definition any_op (_ : EnrollOp) : Prop := True.

Lemma history_ind allowed (P : Database → VersionedAuthorizationSnapshot → Prop) db v db' :
  (∀ op db v db' v', allowed op → effect op db v db' v' → P db v → P db' v') →
  stored sha256 db = Ok (Some v) → P db v → history allowed db db' →
  ∃ v', stored sha256 db' = Ok (Some v') ∧ P db' v'.
Proof.
  intros HP Hst Hp Hh. revert v Hst Hp.
  induction Hh as [db|db db1 db' (op & Ha & Hop) _ IH]; intros v Hst Hp; [eauto|].
  destruct (op_effect _ _ _ _ Hst Hop) as (v1 & Hst1 & Heff). by eapply IH, HP.
Qed.
End transactions.
