(* ===== verification/EnrollmentSafety.v ===== *)
(** * EnrollmentSafety: what the enrollment repository guarantees

    Theorems over all histories of [EnrollmentRepository], in which any
    statements may fail: credentials and the authorization snapshot agree,
    revocation is final, bootstrap tokens are used once, retries are idempotent,
    and the durable snapshot only advances. *)

From S2P Require Import Prelude Text Identity EnrollmentProto Authorization SnapshotCodec.
From S2P Require Import Database SnapshotRepository EnrollmentRepository.

Section safety.
Context `{TableScanLaws}.
Variable sha256 : bytes → bytes.
Implicit Types (db : Database) (v : VersionedAuthorizationSnapshot).

(** ** Credentials and the snapshot agree *)

Definition row_agent (row : CredentialRow) : AuthorizedAgent :=
  MkAuthorizedAgent (MkAgentId (cr_agent_id row)) {[ MkTunnelId (cr_tunnel_id row) := Enabled ]}.

(** What a credential's state says of its certificate. *)
Definition row_grant (row : CredentialRow) : option AuthorizedAgent :=
  if decide (live_row row) then Some (row_agent row) else None.

Record enroll_inv db v : Prop := {
  ei_grant : ∀ fp row, agent_credentials db !! fp = Some row →
    as_agents (va_snapshot v) !! MkFingerprint fp = row_grant row;
  ei_previous : ∀ fp row, agent_credentials db !! fp = Some row →
    ∀ p, cr_previous_fingerprint row = Some p → p ≠ fp
}.

Lemma enroll_inv_token h row db v :
  enroll_inv db v → enroll_inv (with_tokens (<[h := row]> (enrollment_bootstrap_tokens db)) db) v.
Proof. by intros []. Qed.

Lemma enroll_inv_issue c now kind db v db' v' :
  issue_effect c now kind db v db' v' → enroll_inv db v → enroll_inv db' v'.
Proof.
  intros [Hok Hauth _ Hfresh _ _ _ Hgrant Hcred _] [Hg Hp].
  split; rewrite Hcred; intros fp row.
  - intros [[<- <-]|[Hne Hl]]%lookup_insert_Some; rewrite Hgrant.
    + destruct (ic_fingerprint c) eqn:?. cbn. rewrite decide_True by done. unfold row_grant.
      rewrite decide_True by (left; done). unfold row_agent. cbn.
      by destruct (ic_agent_id c), (ic_tunnel_id c).
    + rewrite decide_False; [by apply Hg|]. intros Heq. by rewrite <-Heq in Hne.
  - intros [[<- <-]|[Hne Hl]]%lookup_insert_Some p Hprev; [|by eapply Hp].
    destruct kind as [|q]; [done|]. injection Hprev as <-.
    destruct Hauth as (_ & row & Hq & _). intros Heq. rewrite <-Heq, Hq in Hfresh. done.
Qed.

Lemma update_state_lookup fp st db f :
  agent_credentials (update_state fp st db) !! f =
  (λ row, if decide (f = fp) then set_state st (cr_terminal_at row) row else row)
    <$> agent_credentials db !! f.
Proof.
  cbn. destruct (decide (f = fp)) as [->|Hne].
  - rewrite lookup_alter_eq. destruct (agent_credentials db !! fp); [|done]. cbn. done.
  - rewrite lookup_alter_ne by done. by destruct (agent_credentials db !! f).
Qed.

Lemma enroll_inv_activate fp row db v db' v' :
  activate_effect fp row db v db' v' → enroll_inv db v → enroll_inv db' v'.
Proof.
  intros [Hrow Hpend Hsnap Hcred _] [Hg Hp]. split; rewrite Hcred; intros f row';
    rewrite update_state_lookup; intros (r1 & Hr1 & ->)%fmap_Some.
  - destruct (cr_previous_fingerprint row) as [p|] eqn:Hprev.
    + destruct Hsnap as [_ Hsnap]. rewrite Hsnap, update_state_lookup in *.
      apply fmap_Some in Hr1 as (r0 & Hr0 & ->).
      pose proof (Hp _ _ Hrow _ Hprev) as Hne.
      destruct (decide (f = fp_bytes fp)) as [->|Hf].
      * rewrite (decide_True (P := _ ≠ _)) by congruence.
        rewrite (decide_False (P := fp_bytes fp = p)) by congruence.
        rewrite (Hg _ _ Hr0). rewrite Hrow in Hr0. simplify_eq.
        unfold row_grant. by rewrite !decide_True by (by left || by right).
      * destruct (decide (f = p)) as [->|Hfp].
        -- rewrite decide_False by auto. unfold row_grant. rewrite decide_False; [done|].
           intros [?|?]; done.
        -- rewrite decide_True by congruence. by apply Hg.
    + subst v'. destruct (decide (f = fp_bytes fp)) as [->|Hf]; [|by apply Hg].
      rewrite (Hg _ _ Hr1). rewrite Hrow in Hr1. simplify_eq.
      unfold row_grant. by rewrite !decide_True by (by left || by right).
  - intros p Hprev.
    assert (∃ r0, agent_credentials db !! f = Some r0 ∧
      cr_previous_fingerprint r0 = cr_previous_fingerprint r1) as (r0 & Hr0 & Heq).
    { destruct (cr_previous_fingerprint row) as [q|]; [|eauto].
      rewrite update_state_lookup in Hr1. apply fmap_Some in Hr1 as (r0 & ? & ->).
      exists r0. split; [done|]. by destruct (decide (f = q)). }
    eapply Hp; [done|]. rewrite Heq. by destruct (decide (f = fp_bytes fp)).
Qed.

Lemma enroll_inv_expire fps now db v db' v' :
  expire_effect fps now db v db' v' → enroll_inv db v → enroll_inv db' v'.
Proof.
  intros [Hpend _ Hsnap Hcred _] [Hg Hp]. split; intros f row'; rewrite Hcred;
    intros (r0 & Hr0 & ->)%fmap_Some.
  - rewrite Hsnap. destruct (decide (MkFingerprint f ∈ fps)) as [Hin|Hout].
    + rewrite (decide_False (P := _ ∉ _)) by auto. unfold row_grant.
      rewrite decide_False; [done|]. intros [?|?]; done.
    + rewrite decide_True by done. by apply Hg.
  - intros p Hprev. eapply Hp; [done|]. by destruct (decide (MkFingerprint f ∈ fps)).
Qed.

Lemma without_tunnel_row a t row :
  without_tunnel a t (row_agent row) =
  if decide (bound_credential a t row) then None else Some (row_agent row).
Proof.
  unfold without_tunnel, row_agent. cbn. destruct (decide (bound_credential a t row)) as [[Ha Ht]|Hb].
  - rewrite Ha, Ht. destruct a as [a], t as [t]. cbn.
    rewrite (bool_decide_true (MkAgentId a = MkAgentId a)) by done. cbn.
    by rewrite delete_singleton_eq, bool_decide_true.
  - destruct (bool_decide (MkAgentId (cr_agent_id row) = a)) eqn:Ha; cbn.
    + apply bool_decide_eq_true in Ha.
      rewrite delete_singleton_ne; [|by intros Ht; apply Hb; subst].
      rewrite bool_decide_false; [done|]. apply map_non_empty_singleton.
    + rewrite bool_decide_false; [done|]. apply map_non_empty_singleton.
Qed.

Lemma enroll_inv_revoke a t now db v db' v' :
  revoke_effect a t now db v db' v' → enroll_inv db v → enroll_inv db' v'.
Proof.
  intros [_ Hsnap Hcred _] [Hg Hp]. split; rewrite Hcred; intros f row';
    rewrite lookup_fmap; intros (r0 & Hr0 & ->)%fmap_Some.
  - rewrite Hsnap, (Hg _ _ Hr0). unfold row_grant at 1.
    destruct (decide (live_row r0)) as [Hl|Hl]; cbn.
    + rewrite without_tunnel_row. destruct (decide (bound_credential a t r0)).
      * rewrite bool_decide_true by done. unfold row_grant. rewrite decide_False; [done|].
        intros [?|?]; done.
      * rewrite bool_decide_false by naive_solver. unfold row_grant. by rewrite decide_True.
    + rewrite bool_decide_false by naive_solver. unfold row_grant. by rewrite decide_False.
  - intros p Hprev. eapply Hp; [done|]. by destruct (bool_decide (bound_credential a t r0 ∧ live_row r0)).
Qed.

Lemma enroll_inv_effect op db v db' v' :
  effect op db v db' v' → enroll_inv db v → enroll_inv db' v'.
Proof.
  destruct 1; eauto using enroll_inv_token, enroll_inv_issue, enroll_inv_activate,
    enroll_inv_expire, enroll_inv_revoke.
Qed.

Lemma authorize_Ok s c a t :
  authorize s c a t = Ok tt ↔
  ∃ ag, as_agents s !! c = Some ag ∧ aa_agent_id ag = a ∧ aa_tunnels ag !! t = Some Enabled.
Proof.
  unfold authorize. destruct (as_agents s !! c) as [ag|]; cbn; [|naive_solver].
  case_bool_decide as Ha; cbn; [|naive_solver].
  destruct (aa_tunnels ag !! t) as [[]|] eqn:Ht; naive_solver.
Qed.

Lemma enroll_inv_authorize db v fp row a t :
  enroll_inv db v → agent_credentials db !! fp = Some row →
  authorize (va_snapshot v) (MkFingerprint fp) a t = Ok tt ↔
  live_row row ∧ cr_agent_id row = agent_str a ∧ cr_tunnel_id row = tunnel_str t.
Proof.
  intros Hinv Hl. rewrite authorize_Ok, (ei_grant _ _ Hinv _ _ Hl).
  unfold row_grant. destruct a as [a], t as [t]. case_decide; cbn; [|naive_solver].
  setoid_rewrite (inj_iff Some). split.
  - intros (ag & <- & [= <-] & Ht). unfold row_agent in Ht; cbn in Ht. apply lookup_singleton_Some in Ht as [[= <-] _]. done.
  - intros (_ & <- & <-). exists (row_agent row). split_and!; [done..|apply lookup_singleton_eq].
Qed.

(** C5. Credentials and authorization never disagree.  Start from any database
    with a durable snapshot and no credentials; after any sequence of the
    repository's operations, with any statements failing, the certificate of a
    recorded credential is authorized exactly while the credential is pending or
    active, and then for its own agent and tunnel only.  (Importing a snapshot
    from the command line is not an operation of this repository.) *)
Theorem credentials_match_authorization db0 v0 db :
  stored sha256 db0 = Ok (Some v0) → agent_credentials db0 = ∅ → history sha256 any_op db0 db →
  ∃ v, stored sha256 db = Ok (Some v) ∧
  ∀ fp row a t, agent_credentials db !! fp = Some row →
    authorize (va_snapshot v) (MkFingerprint fp) a t = Ok tt ↔
    live_row row ∧ cr_agent_id row = agent_str a ∧ cr_tunnel_id row = tunnel_str t.
Proof.
  intros Hst Hempty Hh.
  destruct (history_ind sha256 any_op enroll_inv db0 v0 db) as (v & Hv & Hinv); [|done| |done|].
  { intros op ? ? ? ? _. apply enroll_inv_effect. }
  { split; intros fp row; by rewrite Hempty. }
  exists v. split; [done|]. intros. by eapply enroll_inv_authorize.
Qed.

(** ** Revocation *)

Record cut_off (a : AgentId) (t : TunnelId) db v : Prop := {
  rv_rows : ∀ fp row, agent_credentials db !! fp = Some row → bound_credential a t row → ¬ live_row row;
  rv_tokens : ∀ h row, enrollment_bootstrap_tokens db !! h = Some row → bound_token a t row →
    tk_revoked row ≠ 0;
  rv_snapshot : ∀ c ag, as_agents (va_snapshot v) !! c = Some ag → aa_agent_id ag = a →
    aa_tunnels ag !! t = None
}.

Definition no_token_for (a : AgentId) (t : TunnelId) (op : EnrollOp) : Prop :=
  match op with OpToken _ a' t' _ => (a', t') ≠ (a, t) | _ => True end.

Lemma without_tunnel_Some a t ag ag' :
  without_tunnel a t ag = Some ag' →
  aa_agent_id ag' = aa_agent_id ag ∧
  aa_tunnels ag' = if bool_decide (aa_agent_id ag = a) then delete t (aa_tunnels ag) else aa_tunnels ag.
Proof.
  unfold without_tunnel. case_match; [done|]. intros [= <-]. by destruct (bool_decide (aa_agent_id ag = a)).
Qed.

(** Right after a revocation. *)
Lemma revoke_revoked a t now db v db' v' :
  revoke_effect a t now db v db' v' → cut_off a t db' v'.
Proof.
  intros [_ Hsnap Hcred Htok]. split.
  - intros fp row. rewrite Hcred, lookup_fmap. intros (r0 & Hr0 & ->)%fmap_Some Hb Hl.
    case_bool_decide as Hc; [by destruct Hl|]. by apply Hc.
  - intros h row. rewrite Htok. cbn. rewrite lookup_fmap. intros (r0 & Hr0 & ->)%fmap_Some Hb.
    case_bool_decide as Hc; [done|]. by destruct Hc.
  - intros c ag. rewrite Hsnap. intros (ag0 & _ & [Ha Ht]%without_tunnel_Some)%bind_Some Hag.
    rewrite Ht, bool_decide_true by congruence. apply lookup_delete_eq.
Qed.

(** A token of a revoked pair does not authenticate. *)
Lemma revoked_authenticated a t db v h now kind :
  cut_off a t db v → ¬ authenticated db h a t now kind.
Proof.
  intros [Hrows Htoks _] Ha. destruct kind as [|fp]; cbn in Ha.
  - destruct Ha as (row & Hl & Hb & Hr & _). by eapply Htoks.
  - destruct Ha as (_ & row & Hl & _ & Hb & Hs). eapply Hrows; [done..|by right].
Qed.

Lemma agent_str_inj (a b : AgentId) : agent_str a = agent_str b → a = b.
Proof. destruct a, b. cbn. by intros ->. Qed.
Lemma tunnel_str_inj (a b : TunnelId) : tunnel_str a = tunnel_str b → a = b.
Proof. destruct a, b. cbn. by intros ->. Qed.

Lemma revoked_issue a t c now kind db v db' v' :
  issue_effect c now kind db v db' v' → cut_off a t db v → cut_off a t db' v'.
Proof.
  intros [_ Hauth _ _ _ _ _ Hgrant Hcred Htok] Hrev. pose proof Hrev as [Hrows Htoks Hsnap].
  assert (¬ (ic_agent_id c = a ∧ ic_tunnel_id c = t)) as Hne.
  { intros [<- <-]. by eapply revoked_authenticated. }
  split.
  - intros fp row. rewrite Hcred. intros [[<- <-]|[_ Hl]]%lookup_insert_Some; [|by eapply Hrows].
    intros [Ha Ht]. cbn in *. exfalso. apply Hne. split; [by apply agent_str_inj|by apply tunnel_str_inj].
  - intros h row. rewrite Htok. destruct kind; [|by eapply Htoks]. cbn.
    destruct (decide (h = ic_presented_token_hash c)) as [->|Hh].
    + rewrite lookup_alter_eq. intros (r0 & Hr0 & ->)%fmap_Some. by apply (Htoks _ _ Hr0).
    + rewrite lookup_alter_ne by done. by apply Htoks.
  - intros x ag. rewrite Hgrant. case_decide; [|by apply Hsnap]. intros [= <-]. cbn. intros <-.
    apply lookup_singleton_None. naive_solver.
Qed.

Lemma revoked_rows_activate a t fp row db v db' v' :
  activate_effect fp row db v db' v' → cut_off a t db v → cut_off a t db' v'.
Proof.
  intros [Hrow Hpend Hsnap' Hcred Htok] [Hrows Htoks Hsnap]. split.
  - intros f row'. rewrite Hcred, update_state_lookup. intros (r1 & Hr1 & ->)%fmap_Some Hb Hl.
    destruct (decide (f = fp_bytes fp)) as [->|Hf].
    + eapply (Hrows _ row); [done| |by left].
      destruct (cr_previous_fingerprint row) as [p|]; [|by rewrite Hrow in Hr1; simplify_eq].
      rewrite update_state_lookup, Hrow in Hr1. injection Hr1 as <-.
      by destruct (decide (fp_bytes fp = p)).
    + destruct (cr_previous_fingerprint row) as [p|]; [|by eapply Hrows].
      rewrite update_state_lookup in Hr1. apply fmap_Some in Hr1 as (r0 & Hr0 & ->).
      destruct (decide (f = p)); [by destruct Hl|by eapply Hrows].
  - by rewrite Htok.
  - intros x ag. destruct (cr_previous_fingerprint row) as [p|]; [|subst; apply Hsnap].
    destruct Hsnap' as [_ ->]. case_decide; [apply Hsnap|done].
Qed.

Lemma revoked_expire a t fps now db v db' v' :
  expire_effect fps now db v db' v' → cut_off a t db v → cut_off a t db' v'.
Proof.
  intros [_ _ Hsnap' Hcred Htok] [Hrows Htoks Hsnap]. split.
  - intros f row'. rewrite Hcred. intros (r0 & Hr0 & ->)%fmap_Some Hb Hl.
    destruct (decide (MkFingerprint f ∈ fps)); [by destruct Hl|by eapply Hrows].
  - by rewrite Htok.
  - intros x ag. rewrite Hsnap'. case_decide; [apply Hsnap|done].
Qed.

Lemma revoked_revoke a t a' t' now db v db' v' :
  revoke_effect a' t' now db v db' v' → cut_off a t db v → cut_off a t db' v'.
Proof.
  intros [_ Hsnap' Hcred Htok] [Hrows Htoks Hsnap]. split.
  - intros f row'. rewrite Hcred, lookup_fmap. intros (r0 & Hr0 & ->)%fmap_Some Hb Hl.
    destruct (bool_decide _); [by destruct Hl|by eapply Hrows].
  - intros h row. rewrite Htok. cbn. rewrite lookup_fmap. intros (r0 & Hr0 & ->)%fmap_Some Hb.
    destruct (bool_decide _); [done|by eapply Htoks].
  - intros x ag. rewrite Hsnap'. intros (ag0 & Hag0 & [Ha Ht]%without_tunnel_Some)%bind_Some Hag.
    assert (aa_tunnels ag0 !! t = None) as Hn by (eapply Hsnap; [done|congruence]).
    rewrite Ht. destruct (bool_decide _); [|done]. apply lookup_delete_None. auto.
Qed.

Lemma revoked_effect a t op db v db' v' :
  no_token_for a t op → effect op db v db' v' → cut_off a t db v → cut_off a t db' v'.
Proof.
  intros Hop Heff Hrev. destruct Heff; eauto using revoked_issue, revoked_rows_activate,
    revoked_expire, revoked_revoke.
  destruct Hrev as [Hrows Htoks Hsnap]. split; [done| |done].
  intros h' row. cbn. intros [[<- <-]|[_ Hl]]%lookup_insert_Some; [|by apply (Htoks _ _ Hl)].
  intros [?%agent_str_inj ?%tunnel_str_inj]. cbn in Hop. by subst.
Qed.

(** C6. Revocation is complete and final.  Once [revoke_agent] has returned
    success for an agent and tunnel, no certificate whatever is authorized for
    them and no token authenticates for them, and this stays so through every
    later sequence of operations, with any faults, until a new bootstrap token is
    created for exactly that agent and tunnel: activations that were under way,
    renewal tokens in the Agent's hands and retries cannot undo it.  (A snapshot
    imported from the command line can: it is not an operation of this
    repository.) *)
Theorem revocation_final a t now db0 v0 o db1 db2 :
  stored sha256 db0 = Ok (Some v0) →
  runs (revoke_agent sha256 a t now) db0 (Ok o) db1 →
  history sha256 (no_token_for a t) db1 db2 →
  ∃ v, stored sha256 db2 = Ok (Some v) ∧
  (∀ c, authorize (va_snapshot v) c a t ≠ Ok tt) ∧
  (∀ h later r db', runs (validate_token h a t later) db2 r db' → is_ok r = false).
Proof.
  intros Hst Hrun Hh.
  eapply revoke_agent_runs in Hrun as [(? & ? & _)|(o' & v1 & _ & Hst1 & Heff)]; [done| |done].
  destruct (history_ind sha256 (no_token_for a t) (cut_off a t) db1 v1 db2) as (v & Hv & Hrev);
    [by intros; eapply revoked_effect|done|by eapply revoke_revoked|done|].
  exists v. split_and!; [done| |].
  - intros c (ag & Hag & Ha & Ht)%authorize_Ok.
    by rewrite (rv_snapshot _ _ _ _ Hrev _ _ Hag Ha) in Ht.
  - intros h later [[]|e] db' Hr; [|done]. exfalso. unfold validate_token in Hr.
    apply runs_bind in Hr as [(? & ? & _)|(u & ? & [-> _]%runs_query & Hr)]; [done|].
    apply runs_bind in Hr as [(? & ? & _)|(kind & ? & [_ Ha]%authenticate_token_runs & _)]; [done|].
    by eapply revoked_authenticated.
Qed.

(** Revoking one pair also drops the grants of other agents that have no
    tunnels. *)
Lemma revocation_drops_bare_grants a t now db v o db' c ag :
  stored sha256 db = Ok (Some v) → runs (revoke_agent sha256 a t now) db (Ok o) db' →
  as_agents (va_snapshot v) !! c = Some ag → aa_agent_id ag ≠ a → aa_tunnels ag = ∅ →
  ∃ v', stored sha256 db' = Ok (Some v') ∧ as_agents (va_snapshot v') !! c = None.
Proof.
  intros Hst Hr Hc Hne He.
  eapply revoke_agent_runs in Hr as [(? & ? & _)|(o' & v' & _ & Hst' & [_ Hsnap _ _])]; [done| |done].
  exists v'. split; [done|]. rewrite Hsnap, Hc. cbn. unfold without_tunnel.
  by rewrite (bool_decide_false (aa_agent_id ag = a)), He by done.
Qed.

(** ** Bootstrap tokens *)

Definition spent (h : bytes) db : Prop :=
  ∃ row, enrollment_bootstrap_tokens db !! h = Some row ∧ tk_consumed row ≠ 0.

Lemma spent_effect h op db v db' v' : effect op db v db' v' → spent h db → spent h db'.
Proof.
  intros Heff (row & Hl & Hc).
  destruct Heff as [|h' a t e db v Hfresh|c now kind db v db' v' [_ _ _ _ _ _ _ _ _ Htok]
    |r h' fp now row' db v db' v' [_ _ _ _ Htok]|op fps now db v db' v' [_ _ _ _ Htok]
    |a t now db v db' v' [_ _ _ Htok]]; unfold spent; try rewrite Htok; [by eauto| | |by eauto..|].
  - exists row. split; [|done]. cbn. rewrite lookup_insert_ne; [done|]. intros ->. congruence.
  - destruct kind; [|by eauto]. cbn. destruct (decide (h = ic_presented_token_hash c)) as [->|Hne].
    + rewrite lookup_alter_eq, Hl. by eexists.
    + rewrite lookup_alter_ne by done. eauto.
  - cbn. rewrite lookup_fmap, Hl. cbn. destruct (bool_decide _); by eexists.
Qed.

Lemma spent_authenticated h db a t now kind : spent h db → ¬ authenticated db h a t now kind.
Proof.
  intros (row & Hl & Hc) Ha. destruct kind; cbn in Ha.
  - destruct Ha as (row' & Hl' & _ & _ & ? & _). rewrite Hl in Hl'. by simplify_eq.
  - destruct Ha as (Hn & _). by rewrite Hl in Hn.
Qed.

(** C16. A bootstrap token issues at most one certificate.  After an issuance that
    a bootstrap token authorized, and any further operations, an issuance request
    that presents this token again changes nothing: it is a retry of a recorded
    request or it is refused. *)
Theorem bootstrap_token_single_use c now db0 v0 d db1 db2 c' now' r db3 :
  stored sha256 db0 = Ok (Some v0) → candidate_ok c → candidate_ok c' →
  is_Some (enrollment_bootstrap_tokens db0 !! ic_presented_token_hash c) →
  runs (commit_issuance sha256 c now) db0 (Ok d) db1 → db1 ≠ db0 →
  history sha256 any_op db1 db2 →
  ic_presented_token_hash c' = ic_presented_token_hash c →
  runs (commit_issuance sha256 c' now') db2 r db3 → db3 = db2.
Proof.
  intros Hst Hc Hc' [tok Htok] Hrun Hne Hh Heq Hrun'.
  eapply commit_issuance_runs in Hrun as [?|(kind & v1 & Hst1 & Heff & _)]; [done| |done..].
  destruct (history_ind sha256 any_op (λ db _, spent (ic_presented_token_hash c) db) db1 v1 db2)
    as (v2 & Hst2 & Hspent); [by intros; eapply spent_effect|done| |done|].
  - destruct Heff as [_ Ha _ _ _ _ _ _ _ Ht]. unfold spent. rewrite Ht.
    destruct kind; cbn in *; [|destruct Ha as [Ha _]; congruence].
    rewrite lookup_alter_eq, Htok. by eexists.
  - eapply commit_issuance_runs in Hrun' as [?|(kind' & v3 & _ & Heff' & _)]; [done| |done..].
    destruct Heff' as [_ Ha _ _ _ _ _ _ _ _]. rewrite Heq in Ha.
    by eapply spent_authenticated in Hspent.
Qed.

(** ** Retries *)

Lemma set_state_id row : set_state (cr_state row) (cr_terminal_at row) row = row.
Proof. by destruct row. Qed.

(** Apart from an issuance, operations change the states of rows only. *)
Lemma effect_rows op db v db' v' :
  effect op db v db' v' →
  (∃ c now kind, issue_effect c now kind db v db' v') ∨
  ∃ g : bytes → CredentialRow → Z * option Z,
    (∀ f row, 1 ≤ cr_state row ≤ 5 → 1 ≤ (g f row).1 ≤ 5) ∧
    ∀ f, agent_credentials db' !! f =
      (λ row, set_state (g f row).1 (g f row).2 row) <$> agent_credentials db !! f.
Proof.
  assert (∀ (m : gmap bytes CredentialRow) f, m !! f = (λ row, set_state (cr_state row) (cr_terminal_at row) row) <$> m !! f) as Hid.
  { intros m f. destruct (m !! f); cbn; [|done]. by rewrite set_state_id. }
  destruct 1 as [|h' a t e db v Hfresh|c now kind db v db' v' Hi
    |r h' fp now row db v db' v' [_ _ _ Hcred _]|op fps now db v db' v' [_ _ _ Hcred _]
    |a t now db v db' v' [_ _ Hcred _]]; [right|right|by eauto|right..].
  - exists (λ _ row, (cr_state row, cr_terminal_at row)). split; [done|]. by intros.
  - exists (λ _ row, (cr_state row, cr_terminal_at row)). split; [done|]. by intros.
  - exists (λ f r0, (if decide (f = fp_bytes fp) then 2
             else if decide (Some f = cr_previous_fingerprint row) then 3 else cr_state r0,
             cr_terminal_at r0)).
    split; [intros f r0; cbn; repeat case_decide; lia|]. intros f.
    rewrite Hcred, update_state_lookup.
    destruct (cr_previous_fingerprint row) as [p|]; [rewrite update_state_lookup|];
      destruct (agent_credentials db !! f) as [r0|]; cbn; try done; f_equal;
      repeat case_decide; simplify_eq; by rewrite ?set_state_id.
  - exists (λ f r0, if decide (MkFingerprint f ∈ fps) then (5, Some now)
                    else (cr_state r0, cr_terminal_at r0)).
    split; [intros f r0; cbn; case_decide; cbn; lia|]. intros f. rewrite Hcred.
    destruct (agent_credentials db !! f) as [r0|]; cbn; [|done]. f_equal.
    case_decide; cbn; by rewrite ?set_state_id.
  - exists (λ f r0, if bool_decide (bound_credential a t r0 ∧ live_row r0) then (4, Some now)
                    else (cr_state r0, cr_terminal_at r0)).
    split; [intros f r0; cbn; case_match; cbn; lia|]. intros f. rewrite Hcred, lookup_fmap.
    destruct (agent_credentials db !! f) as [r0|]; cbn; [|done]. f_equal.
    destruct (bool_decide _); cbn; by rewrite ?set_state_id.
Qed.

(** The database records issuance [d] for request [c], in some state. *)
Definition existing_for (c : IssuanceCandidate) (d : DurableIssuance) (state : CredentialState)
    : ExistingIssuance :=
  MkExisting d (ic_presented_token_hash c) (ic_next_token_hash c) (agent_str (ic_agent_id c))
    (tunnel_str (ic_tunnel_id c)) (ic_csr_digest c) state.
Definition recorded_as (c : IssuanceCandidate) (d : DurableIssuance) (row : CredentialRow)
    (state : CredentialState) db : Prop :=
  agent_credentials db !! fp_bytes (di_fingerprint d) = Some row ∧
  cr_request_id row = request_id_bytes (ic_request_id c) ∧
  read_issuance (fp_bytes (di_fingerprint d), row) = Ok (existing_for c d state).
Definition recorded_in (c : IssuanceCandidate) (d : DurableIssuance) db : Prop :=
  ∃ row state, recorded_as c d row state db.

Definition unique_requests db : Prop :=
  ∀ f1 f2 r1 r2, agent_credentials db !! f1 = Some r1 → agent_credentials db !! f2 = Some r2 →
  cr_request_id r1 = cr_request_id r2 → f1 = f2.

Lemma unique_requests_effect op db v db' v' :
  effect op db v db' v' → unique_requests db → unique_requests db'.
Proof.
  intros [(c & now & kind & [_ _ _ _ Hreq _ _ _ Hcred _])|(g & _ & Hg)]%effect_rows Hu f1 f2 r1 r2.
  - rewrite Hcred.
    intros [[<- <-]|[_ H1]]%lookup_insert_Some [[<- <-]|[_ H2]]%lookup_insert_Some; cbn.
    + done.
    + intros Heq. by destruct (Hreq _ _ H2).
    + intros Heq. by destruct (Hreq _ _ H1).
    + by eapply Hu.
  - rewrite !Hg. intros (x1 & H1 & ->)%fmap_Some (x2 & H2 & ->)%fmap_Some. by apply (Hu f1 f2 x1 x2).
Qed.

Lemma from_raw_total z : 1 ≤ z ≤ 5 → ∃ state, CredentialState_from_raw z = Ok state.
Proof.
  intros Hz. assert (z = 1 ∨ z = 2 ∨ z = 3 ∨ z = 4 ∨ z = 5) as Hc by lia.
  destruct Hc as [->|[->|[->|[->| ->]]]]; eauto.
Qed.
Lemma from_raw_range z state : CredentialState_from_raw z = Ok state → 1 ≤ z ≤ 5.
Proof. unfold CredentialState_from_raw. repeat case_match; intros; simplify_eq; lia. Qed.

Lemma read_issuance_Ok fp row ex :
  read_issuance (fp, row) = Ok ex ↔
  ∃ generation state,
    0 ≤ cr_not_after row ∧ decode_version (cr_generation row) = Ok generation ∧ zlen fp = 32 ∧
    zlen (cr_auth_token_hash row) = 32 ∧ zlen (cr_renewal_token_hash row) = 32 ∧
    zlen (cr_csr_digest row) = 32 ∧ CredentialState_from_raw (cr_state row) = Ok state ∧
    ex = MkExisting
           (MkIssuance generation (cr_certificate_pem row) (MkFingerprint fp) (cr_not_after row))
           (cr_auth_token_hash row) (cr_renewal_token_hash row) (cr_agent_id row) (cr_tunnel_id row)
           (cr_csr_digest row) state.
Proof.
  clear sha256. unfold read_issuance, decode_fp, decode_array.
  destruct (Z.ltb_spec (cr_not_after row) 0); [naive_solver lia|].
  destruct (decode_version (cr_generation row)) as [g|]; cbn; [|naive_solver].
  destruct (Z.eqb_spec (zlen fp) 32); cbn; [|naive_solver].
  destruct (Z.eqb_spec (zlen (cr_auth_token_hash row)) 32); cbn; [|naive_solver].
  destruct (Z.eqb_spec (zlen (cr_renewal_token_hash row)) 32); cbn; [|naive_solver].
  destruct (Z.eqb_spec (zlen (cr_csr_digest row)) 32); cbn; [|naive_solver].
  destruct (CredentialState_from_raw (cr_state row)) as [st|]; cbn; [|naive_solver].
  split; [intros [= <-]; exists g, st; by split_and!|naive_solver].
Qed.

Lemma read_issuance_set_state c d row state z x :
  read_issuance (fp_bytes (di_fingerprint d), row) = Ok (existing_for c d state) → 1 ≤ z ≤ 5 →
  ∃ state', read_issuance (fp_bytes (di_fingerprint d), set_state z x row)
            = Ok (existing_for c d state').
Proof.
  intros (g & st & ? & ? & ? & ? & ? & ? & _ & Hex)%read_issuance_Ok [state' Hz]%from_raw_total.
  exists state'. apply read_issuance_Ok. exists g, state'.
  unfold existing_for in *. injection Hex as Hd -> -> -> -> -> _. by split_and!; [..|rewrite Hd].
Qed.

Lemma recorded_effect c d op db v db' v' :
  effect op db v db' v' → recorded_in c d db → recorded_in c d db'.
Proof.
  intros [(c' & now & kind & [_ _ _ Hfresh _ _ _ _ Hcred _])|(g & Hst & Hg)]%effect_rows
    (row & state & Hl & Hq & Hr).
  - exists row, state. split; [|done]. rewrite Hcred, lookup_insert_ne; [done|].
    intros Heq. rewrite Heq, Hl in Hfresh. done.
  - assert (1 ≤ cr_state row ≤ 5) as Hrange.
    { apply read_issuance_Ok in Hr as (? & ? & _ & _ & _ & _ & _ & _ & Hraw & _).
      by eapply from_raw_range. }
    destruct (read_issuance_set_state _ _ _ _ _ (g (fp_bytes (di_fingerprint d)) row).2 Hr
      (Hst (fp_bytes (di_fingerprint d)) row Hrange)) as [state' Hr']. eexists _, state'. unfold recorded_as. rewrite Hg, Hl. by split_and!.
Qed.

Lemma request_row_unique r db fp row :
  unique_requests db → agent_credentials db !! fp = Some row →
  cr_request_id row = request_id_bytes r → request_row r db = Some (fp, row).
Proof.
  intros Hu Hl Hr. destruct (request_row r db) as [[fp' row']|] eqn:Hrow.
  - unfold request_row in Hrow.
    apply head_Some_elem_of, list_elem_of_filter in Hrow as [Hr' Hin%scan_elem]. cbn in *.
    assert (fp' = fp) as -> by (eapply Hu; [done..|congruence]). congruence.
  - by eapply request_row_None in Hrow.
Qed.

(** What a retry returns for a credential in some state. *)
Definition retry_result (d : DurableIssuance) (state : CredentialState) : EResult DurableIssuance :=
  match state with
  | Pending | Active => Ok d
  | Revoked => Err ER_CredentialRevoked
  | Expired => Err ER_RequestExpired
  | Retired => Err ER_Conflict
  end.

(** The same request: everything but the certificate, which a retry signs
    anew. *)
Definition same_request (c c' : IssuanceCandidate) : Prop :=
  ic_request_id c' = ic_request_id c ∧
  ic_presented_token_hash c' = ic_presented_token_hash c ∧
  ic_next_token_hash c' = ic_next_token_hash c ∧ ic_agent_id c' = ic_agent_id c ∧
  ic_tunnel_id c' = ic_tunnel_id c ∧ ic_csr_digest c' = ic_csr_digest c.

Lemma issued_recorded c now kind db v db' v' :
  durable_ok v' → issue_effect c now kind db v db' v' →
  recorded_as c (MkIssuance (va_version v') (ic_certificate_pem c) (ic_fingerprint c)
                   (ic_not_after_unix c)) (issued_row c kind (va_version v')) Pending db'.
Proof.
  intros [_ Hv] [(_ & _ & _ & Hna) _ Hck _ _ _ _ _ Hcred _].
  unfold recorded_as. cbn [di_fingerprint].
  rewrite Hcred, lookup_insert_eq. split_and!; [done..|].
  pose proof (proj2 (decode_version_blob_iff _ _) (versioned_blob _ Hv)) as Hdv.
  unfold credential_checks in Hck. apply andb_prop in Hck as [Hck _].
  do 4 (apply andb_prop in Hck as [Hck ?%Z.eqb_eq]).
  apply andb_prop in Hck as [?%Z.eqb_eq _]. destruct (ic_fingerprint c) eqn:Hfp.
  apply read_issuance_Ok. exists (va_version v'), Pending. by split_and!.
Qed.

Lemma verify_existing_for c d state :
  verify_idempotent_fields (existing_for c d state) (ic_presented_token_hash c) (ic_next_token_hash c)
    (ic_agent_id c) (ic_tunnel_id c) (ic_csr_digest c) = Ok tt.
Proof. unfold verify_idempotent_fields, existing_for. cbn. by rewrite !bool_decide_true. Qed.

Lemma verify_candidate_Ok ex c :
  verify_idempotent_candidate ex c = Ok tt → ex = existing_for c (ex_issuance ex) (ex_state ex).
Proof.
  unfold verify_idempotent_candidate, verify_idempotent_fields. case_match eqn:Hc; [done|]. intros _.
  repeat (apply orb_false_iff in Hc as [Hc ?%negb_false_iff%bool_decide_eq_true]).
  apply negb_false_iff, bool_decide_eq_true in Hc.
  destruct ex. cbn in *. unfold existing_for. congruence.
Qed.

(** What [load_issuance] finds is on record. *)
Lemma load_issuance_runs r db ex db' :
  runs (load_issuance r) db (Ok (Some ex)) db' →
  db' = db ∧ ∃ row, agent_credentials db !! fp_bytes (di_fingerprint (ex_issuance ex)) = Some row ∧
    cr_request_id row = request_id_bytes r ∧
    read_issuance (fp_bytes (di_fingerprint (ex_issuance ex)), row) = Ok ex.
Proof.
  intros Hl. apply runs_bind in Hl as [(? & ? & _)|(p & ? & [-> [?|[= ->]]]%runs_query & Hl)]; [done..|].
  destruct (request_row r db) as [[fp row]|] eqn:Hreq; [|by apply runs_ret in Hl as [? _]].
  apply runs_bind in Hl as [(? & ? & _)|(ex' & ? & [Hex ->]%runs_lift & [[= ->] ->]%runs_ret)]; [done|].
  symmetry in Hex. pose proof Hex as (g & st & _ & _ & _ & _ & _ & _ & _ & Hshape)%read_issuance_Ok.
  apply head_Some_elem_of, list_elem_of_filter in Hreq as [Hq Hin%scan_elem].
  split; [done|]. exists row. rewrite Hshape at 1 2. by split_and!.
Qed.

(** A successful commit leaves its request on record, in a live state. *)
Lemma commit_recorded_live c now v db d db' :
  candidate_ok c → stored sha256 db = Ok (Some v) →
  runs (commit_issuance sha256 c now) db (Ok d) db' →
  ∃ row state, ensure_retryable_state state = Ok tt ∧ recorded_as c d row state db'.
Proof.
  intros Hc Hst Hr. unfold commit_issuance in Hr. case_match; [by apply runs_lift in Hr as [? _]|].
  apply runs_bind in Hr as [(? & ? & _)|(u & ? & [-> _]%runs_query & Hr)]; [done|].
  apply runs_transaction in Hr as [(? & ? & _)|Hr]; [done|].
  apply runs_bind in Hr as [(? & ? & _)|([ex|] & db1 & Hl & Hr)]; [done|..].
  - apply load_issuance_runs in Hl as (-> & row & Hrow & Hq & Hex).
    apply runs_bind in Hr as [(? & ? & _)|([] & ? & [Hver ->]%runs_lift & Hr)]; [done|].
    apply runs_bind in Hr as [(? & ? & _)|([] & ? & [Hret ->]%runs_lift & Hr)]; [done|].
    apply runs_bind in Hr as [(? & ? & _)|(u3 & ? & [-> _]%runs_query & [[= ->] ->]%runs_ret)]; [done|].
    symmetry in Hver. apply verify_candidate_Ok in Hver. exists row, (ex_state ex).
    split; [done|]. split; [done|]. split; [done|]. exact (eq_trans Hex (f_equal Ok Hver)).
  - pose proof (reader_runs _ _ _ _ _ (request_row_reader (ic_request_id c) db) Hl) as [-> _].
    apply runs_bind in Hr as [(? & ? & _)|(kind & ? & [-> Ha]%authenticate_token_runs & Hr)]; [done|].
    assert (request_row (ic_request_id c) db = None) as Hfresh.
    { apply runs_bind in Hl as [(? & ? & _)|(p & ? & [-> [?|[= ->]]]%runs_query & Hl)]; [done..|].
      destruct (request_row (ic_request_id c) db) as [p|]; [|done].
      by apply runs_bind in Hl as [(? & ? & _)|(ex' & ? & _ & [? _]%runs_ret)]. }
    eapply issue_runs in Hr as (v' & Hst' & Heff & [= ->]); [|done..].
    exists (issued_row c kind (va_version v')), Pending. split; [done|].
    eapply issued_recorded; [by eapply stored_ok|done].
Qed.

Lemma commit_recorded c now v db d db' :
  candidate_ok c → stored sha256 db = Ok (Some v) →
  runs (commit_issuance sha256 c now) db (Ok d) db' → recorded_in c d db'.
Proof.
  intros Hc Hst Hr. destruct (commit_recorded_live _ _ _ _ _ _ Hc Hst Hr) as (row & state & _ & ?).
  by exists row, state.
Qed.

Lemma load_issuance_recorded c d db :
  unique_requests db → recorded_in c d db →
  ∃ row state, agent_credentials db !! fp_bytes (di_fingerprint d) = Some row ∧
    CredentialState_from_raw (cr_state row) = Ok state ∧
    clean (load_issuance (ic_request_id c)) db (Ok (Some (existing_for c d state))) db.
Proof.
  intros Hu (row & state & Hl & Hq & Hr). exists row, state.
  pose proof Hr as (g & st & _ & _ & _ & _ & _ & _ & Hraw & Hex)%read_issuance_Ok.
  split_and!; [done|rewrite Hraw; f_equal; exact (eq_sym (f_equal ex_state Hex))|]. unfold load_issuance.
  eapply clean_bind; [apply clean_query|].
  rewrite (request_row_unique _ _ _ _ Hu Hl Hq).
  eapply clean_bind; [rewrite Hr; apply clean_lift|apply clean_ret].
Qed.

Lemma same_request_existing c c' d state :
  same_request c c' → existing_for c d state = existing_for c' d state.
Proof. unfold existing_for. by intros (_ & -> & -> & -> & -> & ->). Qed.

Lemma retry_clean c c' d db later :
  unique_requests db → recorded_in c d db → same_request c c' →
  later < ic_activation_deadline_unix c' ≤ ic_not_after_unix c' →
  ∃ row state, agent_credentials db !! fp_bytes (di_fingerprint d) = Some row ∧
    CredentialState_from_raw (cr_state row) = Ok state ∧
    clean (commit_issuance sha256 c' later) db (retry_result d state) db ∧
    clean (preflight_issuance (ic_request_id c') (ic_presented_token_hash c')
             (ic_next_token_hash c') (ic_agent_id c') (ic_tunnel_id c') (ic_csr_digest c') later)
      db (Some <$> retry_result d state) db.
Proof.
  intros Hu Hrec Hsame Ht. destruct (load_issuance_recorded _ _ _ Hu Hrec) as (row & state & Hrow & Hraw & Hl).
  rewrite (same_request_existing c c' d state Hsame) in Hl.
  assert (ic_request_id c = ic_request_id c') as Hid by (by destruct Hsame). rewrite Hid in Hl.
  exists row, state. do 2 (split; [done|]). split.
  - unfold commit_issuance.
    rewrite (proj2 (Z.leb_gt _ _)), (proj2 (Z.ltb_ge _ _)) by lia. cbn [orb].
    eapply clean_bind; [apply clean_query|].
    destruct (ensure_retryable_state state) as [[]|e] eqn:Hst.
    + replace (retry_result d state) with (Ok (E := EnrollmentRepositoryError) d) by (by destruct state).
      apply clean_transaction. eapply clean_bind; [exact Hl|].
      eapply clean_bind; [unfold verify_idempotent_candidate; rewrite verify_existing_for; apply clean_lift|].
      eapply clean_bind; [cbn [ex_state existing_for]; rewrite Hst; apply clean_lift|].
      eapply clean_bind; [apply clean_query|apply clean_ret].
    + replace (retry_result d state) with (Err (A := DurableIssuance) e)
        by (destruct state; cbn in *; congruence).
      eapply clean_transaction_Err. eapply clean_bind; [exact Hl|].
      eapply clean_bind; [unfold verify_idempotent_candidate; rewrite verify_existing_for; apply clean_lift|].
      eapply clean_bind_Err. cbn [ex_state existing_for]. rewrite Hst. apply clean_lift.
  - unfold preflight_issuance. eapply clean_bind; [apply clean_query|]. eapply clean_bind; [exact Hl|].
    eapply clean_bind; [rewrite verify_existing_for; apply clean_lift|].
    destruct (ensure_retryable_state state) as [[]|e] eqn:Hst.
    + replace (retry_result d state) with (Ok (E := EnrollmentRepositoryError) d) by (by destruct state).
      eapply clean_bind; [cbn [ex_state existing_for]; rewrite Hst; apply clean_lift|apply clean_ret].
    + replace (retry_result d state) with (Err (A := DurableIssuance) e)
        by (destruct state; cbn in *; congruence).
      eapply clean_bind_Err. cbn [ex_state existing_for]. rewrite Hst. apply clean_lift.
Qed.

Lemma history_unique db0 v0 db :
  stored sha256 db0 = Ok (Some v0) → agent_credentials db0 = ∅ → history sha256 any_op db0 db →
  ∃ v, stored sha256 db = Ok (Some v) ∧ unique_requests db.
Proof.
  intros Hst Hempty. apply (history_ind sha256 any_op (λ db _, unique_requests db) db0 v0 db); [|done|].
  - intros op ? ? ? ? _. apply unique_requests_effect.
  - intros f1 f2 r1 r2. by rewrite Hempty.
Qed.

(** C15. Issuance is idempotent.  Once a request has been answered with issuance
    [d], then after any further operations a repetition of the request, even with
    a newly signed certificate, changes nothing, and its answer depends on the
    recorded credential's state alone: [d] itself while it is pending or active,
    even though a bootstrap token is consumed by then, and otherwise the error
    that names its terminal state.  [preflight_issuance] gives the same answer
    before anything is signed. *)
Theorem issuance_idempotent c now db0 v0 db d db1 db2 c' later :
  stored sha256 db0 = Ok (Some v0) → agent_credentials db0 = ∅ → history sha256 any_op db0 db →
  candidate_ok c → runs (commit_issuance sha256 c now) db (Ok d) db1 →
  history sha256 any_op db1 db2 →
  same_request c c' → later < ic_activation_deadline_unix c' ≤ ic_not_after_unix c' →
  ∃ row state, agent_credentials db2 !! fp_bytes (di_fingerprint d) = Some row ∧
    CredentialState_from_raw (cr_state row) = Ok state ∧
    exec (commit_issuance sha256 c' later) db2 = (retry_result d state, db2) ∧
    exec (preflight_issuance (ic_request_id c') (ic_presented_token_hash c')
            (ic_next_token_hash c') (ic_agent_id c') (ic_tunnel_id c') (ic_csr_digest c') later) db2
      = (Some <$> retry_result d state, db2).
Proof.
  intros Hst Hempty Hh Hc Hrun Hh' Hsame Ht.
  destruct (history_unique _ _ _ Hst Hempty Hh) as (v & Hv & _).
  assert (history sha256 any_op db0 db1) as Hh1.
  { eapply rtc_r; [exact Hh|]. exists (OpIssue c now). split; [done|]. split; [done|]. eauto. }
  destruct (history_unique _ _ _ Hst Hempty Hh1) as (v1 & Hv1 & _).
  destruct (history_unique db0 v0 db2) as (v2 & _ & Hu2); [done..|by etrans|].
  destruct (history_ind sha256 any_op (λ db _, recorded_in c d db) db1 v1 db2) as (_ & _ & Hrec);
    [by intros; eapply recorded_effect|done|exact (commit_recorded _ _ _ _ _ _ Hc Hv Hrun)|done|].
  destruct (retry_clean _ _ _ _ _ Hu2 Hrec Hsame Ht) as (row & state & ? & ? & H1 & H2).
  exists row, state. split_and!; [done..|by apply clean_exec|by apply clean_exec].
Qed.

(** ** The repository advances the file *)

Lemma effect_advances op db v db' v' :
  effect op db v db' v' → v' = v ∨ version_raw (va_version v) < version_raw (va_version v').
Proof.
  destruct 1 as [| |c now kind db v db' v' [_ _ _ _ _ _ Hv _ _ _]
    |r h fp now row db v db' v' [_ _ Hs _ _]|op fps now db v db' v' [_ Hv _ _ _]
    |a t now db v db' v' [Hv _ _ _]]; [by left..| | | |].
  - right. lia.
  - destruct (cr_previous_fingerprint row); [right; lia|by left].
  - destruct Hv; [by left|right; lia].
  - destruct Hv; [by left|right; lia].
Qed.

#[global] Instance enrollment_writer :
  DurableWriter sha256 (λ db db', ∃ op, op_step sha256 op db db').
Proof.
  intros db db' [op Hop] v Hst. destruct (op_effect _ _ _ _ _ Hst Hop) as (v' & Hst' & Heff).
  exists v'. split; [done|]. by eapply effect_advances.
Qed.
End safety.

(** ** A history on concrete values *)

Definition sample_agent : AgentId := MkAgentId (bstr "agent-7").
Definition sample_tunnel : TunnelId := MkTunnelId (bstr "web").
Definition sample_token : bytes := replicate 32 x01%byte.
Definition sample_renewal : bytes := replicate 32 x02%byte.
Definition sample_request : EnrollmentRequestId := MkRequestId (replicate 16 x05%byte).
Definition sample_fp : CertificateFingerprint := MkFingerprint (replicate 32 x07%byte).
Definition sample_candidate : IssuanceCandidate :=
  MkCandidate sample_request sample_token sample_renewal sample_agent sample_tunnel
    (replicate 32 x03%byte) (bstr "certificate") sample_fp 2000 1500.
Definition sample_issuance : DurableIssuance :=
  MkIssuance (MkVersion 2) (bstr "certificate") sample_fp 2000.

Definition with_token : Database :=
  (exec (create_bootstrap_token sample_token sample_agent sample_tunnel 1000) database_1).2.
Definition with_issuance : Database :=
  (exec (commit_issuance zero_digest sample_candidate 500) with_token).2.
Definition with_activation : Database :=
  (exec (activate zero_digest sample_request sample_renewal sample_fp 600) with_issuance).2.
Definition with_revocation : Database :=
  (exec (revoke_agent zero_digest sample_agent sample_tunnel 700) with_activation).2.

Lemma sample_candidate_ok : candidate_ok sample_candidate.
Proof. split_and!; [by apply validate_durable_id_Ok|by apply validate_durable_id_Ok|done|done]. Qed.

Lemma exec_fst {E A} (c : Sql E A) db r : (exec c db).1 = r → runs c db r (exec c db).2.
Proof. intros <-. apply exec_runs. by destruct (exec c db). Qed.

Lemma sample_issued : runs (commit_issuance zero_digest sample_candidate 500) with_token
  (Ok sample_issuance) with_issuance.
Proof. unfold with_issuance. apply exec_fst. vm_compute. reflexivity. Qed.

Lemma sample_activated : runs (activate zero_digest sample_request sample_renewal sample_fp 600)
  with_issuance (Ok (MkVersion 2)) with_activation.
Proof. unfold with_activation. apply exec_fst. vm_compute. reflexivity. Qed.

Lemma sample_revoked : runs (revoke_agent zero_digest sample_agent sample_tunnel 700)
  with_activation (Ok (MkOutcome (MkVersion 3) 1 true)) with_revocation.
Proof. unfold with_revocation. apply exec_fst. vm_compute. reflexivity. Qed.

Lemma sample_tokened : runs (create_bootstrap_token sample_token sample_agent sample_tunnel 1000)
  database_1 (Ok tt) with_token.
Proof. unfold with_token. apply exec_fst. vm_compute. reflexivity. Qed.

Lemma sample_history_token : history zero_digest any_op database_1 with_token.
Proof.
  apply rtc_once. exists (OpToken sample_token sample_agent sample_tunnel 1000). split; [done|].
  exists (Ok tt). apply sample_tokened.
Qed.

Lemma sample_history_issue : history zero_digest any_op with_token with_issuance.
Proof.
  apply rtc_once. exists (OpIssue sample_candidate 500). split; [done|].
  split; [apply sample_candidate_ok|]. exists (Ok sample_issuance). apply sample_issued.
Qed.

Lemma sample_history_activate : history zero_digest any_op with_issuance with_activation.
Proof.
  apply rtc_once. exists (OpActivate sample_request sample_renewal sample_fp 600). split; [done|].
  eexists. apply sample_activated.
Qed.

Lemma sample_history : history zero_digest any_op database_1 with_activation.
Proof.
  unfold history; etrans; [apply sample_history_token|].
  unfold history; etrans; [apply sample_history_issue|apply sample_history_activate].
Qed.

Lemma credentials_match_authorization_witness :
  ∃ v, stored zero_digest with_activation = Ok (Some v) ∧
  ∀ fp row a t, agent_credentials with_activation !! fp = Some row →
    authorize (va_snapshot v) (MkFingerprint fp) a t = Ok tt ↔
    live_row row ∧ cr_agent_id row = agent_str a ∧ cr_tunnel_id row = tunnel_str t.
Proof.
  apply (credentials_match_authorization zero_digest database_1 durable_1 with_activation).
  - exact database_1_stored.
  - vm_compute. reflexivity.
  - exact sample_history.
Defined.

Lemma with_activation_stored :
  stored zero_digest with_activation = Ok (Some (MkVersioned (MkVersion 2)
    (MkSnapshot (<[sample_fp := MkAuthorizedAgent sample_agent {[ sample_tunnel := Enabled ]}]>
       (as_agents two_agents))))).
Proof. vm_compute. reflexivity. Qed.

Lemma revocation_final_witness :
  ∃ v, stored zero_digest with_revocation = Ok (Some v) ∧
  (∀ c, authorize (va_snapshot v) c sample_agent sample_tunnel ≠ Ok tt) ∧
  (∀ h later r db', runs (validate_token h sample_agent sample_tunnel later) with_revocation r db' →
     is_ok r = false).
Proof.
  eapply (revocation_final zero_digest sample_agent sample_tunnel 700 with_activation).
  - exact with_activation_stored.
  - exact sample_revoked.
  - apply rtc_refl.
Defined.

Lemma with_token_stored : stored zero_digest with_token = Ok (Some durable_1).
Proof. vm_compute. reflexivity. Qed.

(** Another request with the same bootstrap token. *)
Definition second_candidate : IssuanceCandidate :=
  MkCandidate (MkRequestId (replicate 16 x06%byte)) sample_token sample_renewal sample_agent
    sample_tunnel (replicate 32 x03%byte) (bstr "certificate") (MkFingerprint (replicate 32 x08%byte))
    2000 1500.

Lemma second_candidate_ok : candidate_ok second_candidate.
Proof. split_and!; [by apply validate_durable_id_Ok|by apply validate_durable_id_Ok|done|done]. Qed.

Lemma bootstrap_token_single_use_witness :
  (exec (commit_issuance zero_digest second_candidate 600) with_activation).2 = with_activation.
Proof.
  eapply (bootstrap_token_single_use zero_digest sample_candidate 500 with_token durable_1
    sample_issuance with_issuance with_activation second_candidate 600
    (Err ER_Unauthorized)).
  - exact with_token_stored.
  - exact sample_candidate_ok.
  - exact second_candidate_ok.
  - vm_compute. eexists. reflexivity.
  - exact sample_issued.
  - intros Heq. assert (agent_credentials with_issuance !! fp_bytes sample_fp
      = agent_credentials with_token !! fp_bytes sample_fp) as Hc by (by rewrite Heq).
    vm_compute in Hc. discriminate Hc.
  - exact sample_history_activate.
  - reflexivity.
  - apply exec_fst. vm_compute. reflexivity.
Defined.

Lemma issuance_idempotent_witness :
  ∃ row state, agent_credentials with_activation !! fp_bytes (di_fingerprint sample_issuance) = Some row ∧
    CredentialState_from_raw (cr_state row) = Ok state ∧
    exec (commit_issuance zero_digest sample_candidate 1200) with_activation
      = (retry_result sample_issuance state, with_activation) ∧
    exec (preflight_issuance sample_request sample_token sample_renewal sample_agent sample_tunnel
            (replicate 32 x03%byte) 1200) with_activation
      = (Some <$> retry_result sample_issuance state, with_activation).
Proof.
  apply (issuance_idempotent zero_digest sample_candidate 500 database_1 durable_1 with_token
    sample_issuance with_issuance with_activation sample_candidate 1200).
  - exact database_1_stored.
  - vm_compute. reflexivity.
  - exact sample_history_token.
  - exact sample_candidate_ok.
  - exact sample_issued.
  - exact sample_history_activate.
  - by split_and!.
  - cbn. lia.
Defined.
