(* ===== verification/EnrollmentProgress.v ===== *)
(** * EnrollmentProgress: the repository's operations that must not fail

    Revocation and the expiry of overdue requests take grants out of the
    snapshot, so without storage faults they succeed: the smaller snapshot is
    encodable.  Expiry works in batches; a bounded number of them clears any
    backlog. *)

From S2P Require Import Prelude Text Identity EnrollmentProto Authorization SnapshotCodec.
From S2P Require Import Database SnapshotRepository EnrollmentRepository EnrollmentSafety.

(** ** Smaller snapshots are encodable *)

Definition gsize (gs : list AgentGrant) : Z := zlen (mjoin (grant_bytes <$> gs)).

Lemma gsize_cons g gs : gsize (g :: gs) = zlen (grant_bytes g) + gsize gs.
Proof. unfold gsize. by rewrite mjoin_fmap_cons, zlen_app. Qed.

Lemma gsize_nonneg gs : 0 ≤ gsize gs.
Proof. apply zlen_nonneg. Qed.

(** [f] drops grants or shrinks them. *)
Definition shrinks (f : AgentGrant → option AgentGrant) (g : AgentGrant) : Prop :=
  match f g with
  | None => 2 ≤ zlen (grant_bytes g)
  | Some g' => g' = g ∨ zlen (grant_bytes g') + 2 ≤ zlen (grant_bytes g)
  end.

Lemma omap_shrinks f gs :
  Forall (shrinks f) gs →
  zlen (omap f gs) ≤ zlen gs ∧ (omap f gs = gs ∨ gsize (omap f gs) + 2 ≤ gsize gs).
Proof.
  induction 1 as [|g gs Hg _ [IHl IH]]; [by split; [|left]|].
  unfold shrinks in Hg. cbn. destruct (f g) as [g'|].
  - rewrite !zlen_cons, !gsize_cons. split; [lia|].
    destruct Hg as [->|Hg], IH as [->|IH].
    + by left.
    + right. lia.
    + right. lia.
    + right. lia.
  - rewrite zlen_cons, gsize_cons. split; [lia|]. right.
    destruct IH as [->|IH]; lia.
Qed.

Lemma encode_smaller s gs s' bs :
  snapshot_ok s → encode_snapshot s = Ok bs →
  Forall agent_grant_ok gs → Forall (λ g, zlen (ag_tunnels g) ≤ MAX_TUNNELS_PER_AGENT) gs →
  zlen gs ≤ zlen (grants s) → gsize gs + 2 ≤ gsize (grants s) →
  AuthorizationSnapshot_new gs = Ok s' → is_ok (encode_snapshot s') = true.
Proof.
  intros Hs (Hn & Hacc & _)%encode_snapshot_Ok Hok Htun Hlen Hsize Hnew; [|done].
  pose proof (new_snapshot_ok _ _ Hok Hnew) as Hs'.
  pose proof (grants_of_new _ _ Hnew) as Hp.
  pose proof Hnew as [[Hgok _] _]%snapshot_new_Ok.
  assert (zlen (grants s') = zlen gs) as Hl.
  { unfold zlen. by rewrite Hp, length_fmap. }
  apply is_ok_true. exists (grants_bytes (grants s')). apply encode_snapshot_Ok; [done|].
  split_and!; [lia| |done]. apply grants_accepted_of_size.
  - rewrite Hp. apply Forall_fmap, Forall_forall. intros g Hg. cbn.
    pose proof (proj1 (Forall_forall _ _) Hgok g Hg) as Hgg.
    pose proof (proj1 (Forall_forall _ _) Htun g Hg) as Ht. cbn in Ht.
    pose proof (canon_tunnels g Hgg) as Hc. unfold zlen in *. by rewrite <-Hc in Ht.
  - rewrite zlen_app, zlen_to_be.
    assert (zlen (mjoin (grant_bytes <$> grants s')) = gsize gs) as ->.
    { unfold gsize. rewrite (mjoin_perm_zlen grant_bytes (grants s') (canon <$> gs)) by done.
      clear -Hgok. induction Hgok as [|g gs Hg _ IH]; [done|].
      rewrite fmap_cons, !mjoin_fmap_cons, !zlen_app, IH, canon_bytes_zlen; done. }
    destruct (grants_accepted_bound _ _ Hacc) as [Hnil|Hb].
    + rewrite Hnil in Hsize. pose proof (gsize_nonneg gs). unfold gsize in Hsize at 2.
      cbn in Hsize. rewrite zlen_nil in Hsize. lia.
    + rewrite zlen_app, zlen_to_be in Hb. unfold gsize in Hsize at 2. lia.
Qed.

Section progress.
Context `{TableScanLaws}.
Variable sha256 : bytes → bytes.
Hypothesis sha256_length : ∀ x, zlen (sha256 x) = 32.
Implicit Types (db : Database) (v : VersionedAuthorizationSnapshot).

Lemma load_snapshot_clean db v :
  stored sha256 db = Ok (Some v) → clean (load_snapshot sha256) db (Ok v) db.
Proof.
  intros Hst. pose proof (reader_exec ER_Storage _ db (load_snapshot_reader sha256)) as Hr.
  by rewrite load_snapshot_exec, Hst in Hr.
Qed.

Lemma replace_snapshot_clean v db :
  durable_ok v → is_ok (encode_snapshot (va_snapshot v)) = true → is_Some (snapshot_head db) →
  ∃ db', clean (replace_snapshot sha256 v) db (Ok tt) db'.
Proof.
  intros [Hok _] [bs Henc]%is_ok_true [h Hh].
  destruct (rewrite_grants_clean ER_Storage (va_snapshot v) db Hok) as (db1 & H1).
  pose proof (rewrite_grants_runs _ _ _ _ _ (clean_runs _ _ _ _ H1)) as [Hro _].
  eexists. unfold replace_snapshot, snapshot_digest. eapply clean_bind.
  { rewrite Henc. apply clean_lift. }
  eapply clean_bind; [exact H1|]. apply clean_execute. unfold update_head.
  rewrite (ro_head _ _ Hro), Hh. unfold upsert_head. rewrite zlen_to_be, sha256_length. reflexivity.
Qed.

(** Grants taken out of the durable snapshot. *)
Record removal (f : AgentGrant → option AgentGrant) v : Prop := {
  rm_shrinks : Forall (shrinks f) (grants (va_snapshot v));
  rm_ok : Forall agent_grant_ok (omap f (grants (va_snapshot v)));
  rm_grants : grants_ok (omap f (grants (va_snapshot v)));
  rm_tunnels : ∀ g g', f g = Some g' → zlen (ag_tunnels g') ≤ zlen (ag_tunnels g)
}.

Lemma stored_encodes db v :
  stored sha256 db = Ok (Some v) → ∃ bs, encode_snapshot (va_snapshot v) = Ok bs.
Proof.
  intros (_ & blob & digest & _ & _ & Hd)%stored_facts.
  unfold snapshot_digest in Hd. inv_result. eauto.
Qed.

Lemma removal_encodes f db v s' :
  stored sha256 db = Ok (Some v) → removal f v →
  omap f (grants (va_snapshot v)) ≠ grants (va_snapshot v) →
  AuthorizationSnapshot_new (omap f (grants (va_snapshot v))) = Ok s' →
  is_ok (encode_snapshot s') = true.
Proof.
  intros Hst Hf Hne Hnew. destruct (stored_encodes _ _ Hst) as [bs Henc].
  pose proof (stored_ok _ _ _ Hst) as [Hsok _].
  destruct (omap_shrinks f _ (rm_shrinks _ _ Hf)) as [Hl [?|Hsize]]; [done|].
  eapply encode_smaller; [exact Hsok|exact Henc|apply Hf| |done|done|done].
  apply encode_snapshot_Ok in Henc as (_ & Hacc & _); [|done].
  pose proof (grants_accepted_tunnels _ _ Hacc) as Ht.
  apply Forall_forall. intros g' (g & Hg & Hfg)%list_elem_of_omap.
  pose proof (proj1 (Forall_forall _ _) Ht g Hg) as Hgt. cbn in Hgt.
  pose proof (rm_tunnels _ _ Hf _ _ Hfg). lia.
Qed.

Lemma next_version_clean v :
  durable_ok v → version_raw (va_version v) + 1 < 2 ^ 64 →
  next_version (va_version v) = Ok (MkVersion (version_raw (va_version v) + 1)).
Proof.
  intros [_ Hv] Hlt. unfold next_version, checked_add. rewrite (proj2 (Z.ltb_lt _ _)) by done.
  cbn. unfold SnapshotVersion_new. destruct (Z.eqb_spec (version_raw (va_version v) + 1) 0); [lia|done].
Qed.

Lemma republish_if_changed_clean f db v :
  stored sha256 db = Ok (Some v) → version_raw (va_version v) + 1 < 2 ^ 64 → removal f v →
  ∃ w b db', clean (republish_if_changed sha256 v (omap f (grants (va_snapshot v)))) db (Ok (w, b)) db'.
Proof.
  intros Hst Hlt Hf. unfold republish_if_changed. case_bool_decide as Heq.
  { eexists _, _, db. apply clean_ret. }
  pose proof (stored_ok _ _ _ Hst) as Hok.
  set (s' := MkSnapshot (list_to_map ((λ g, (ag_certificate g, grant_agent g)) <$>
    omap f (grants (va_snapshot v))))).
  assert (AuthorizationSnapshot_new (omap f (grants (va_snapshot v))) = Ok s') as Hnew.
  { apply snapshot_new_Ok. split; [apply Hf|done]. }
  set (w := MkVersion (version_raw (va_version v) + 1)).
  destruct (replace_snapshot_clean (MkVersioned w s') db) as (db' & Hcl).
  - split; [eapply new_snapshot_ok; [apply Hf|exact Hnew]|]. destruct Hok as [_ ?]. cbn. lia.
  - by eapply removal_encodes.
  - by eapply stored_head.
  - eexists _, _, db'. eapply clean_bind; [|apply clean_ret]. unfold republish.
    eapply clean_bind; [rewrite next_version_clean by done; apply clean_lift|].
    eapply clean_bind; [rewrite Hnew; apply clean_lift|].
    eapply clean_bind; [exact Hcl|apply clean_ret].
Qed.

(** ** Revocation *)

Lemma grant_bytes_min g : agent_grant_ok g → 2 ≤ zlen (grant_bytes g).
Proof.
  intros (Hc & _). unfold grant_bytes. autorewrite with wire. rewrite Hc.
  pose proof (zlen_nonneg (agent_str (ag_agent_id g))).
  pose proof (zlen_nonneg (mjoin (tunnel_bytes <$> ag_tunnels g))). lia.
Qed.

Lemma tunnel_bytes_filter (P : TunnelGrant → Prop) `{∀ x, Decision (P x)} ts :
  filter P ts = ts ∨
  zlen (mjoin (tunnel_bytes <$> filter P ts)) + 2 ≤ zlen (mjoin (tunnel_bytes <$> ts)).
Proof.
  induction ts as [|t ts IH]; [by left|]. rewrite mjoin_fmap_cons, zlen_app.
  destruct (decide (P t)).
  - rewrite filter_cons_True, mjoin_fmap_cons, zlen_app by done.
    destruct IH as [->|IH]; [by left|right; lia].
  - right. rewrite filter_cons_False by done.
    assert (2 ≤ zlen (tunnel_bytes t)) as Ht.
    { unfold tunnel_bytes. autorewrite with wire.
      pose proof (zlen_nonneg (tunnel_str (tg_tunnel_id t))). lia. }
    destruct IH as [->|IH]; lia.
Qed.

Lemma remove_shrinks a t g :
  agent_grant_ok g →
  remove_grant a t g = g ∨ zlen (grant_bytes (remove_grant a t g)) + 2 ≤ zlen (grant_bytes g).
Proof.
  intros Hg. unfold remove_grant. case_bool_decide; [|by left].
  destruct (tunnel_bytes_filter (λ x, tg_tunnel_id x ≠ t) (ag_tunnels g)) as [->|Hs].
  - left. by destruct g.
  - right. unfold grant_bytes. cbn [ag_certificate ag_agent_id ag_tunnels]. autorewrite with wire. lia.
Qed.

Lemma omap_certificates f gs :
  (∀ g g', f g = Some g' → ag_certificate g' = ag_certificate g) →
  ag_certificate <$> omap f gs `sublist_of` ag_certificate <$> gs.
Proof.
  intros Hf. induction gs as [|g gs IH]; [done|]. cbn. destruct (f g) as [g'|] eqn:Hg.
  - rewrite fmap_cons, (Hf _ _ Hg). by apply sublist_skip.
  - by apply sublist_cons.
Qed.

Lemma omap_grants_ok f gs :
  (∀ g g', f g = Some g' → ag_certificate g' = ag_certificate g) →
  (∀ g g', f g = Some g' → grant_ok g → grant_ok g') →
  grants_ok gs → grants_ok (omap f gs).
Proof.
  intros Hc Hg [Hok Hnd]. split.
  - apply Forall_forall. intros g' (g & Hin & Hfg)%list_elem_of_omap.
    eapply Hg; [done|]. by eapply Forall_forall in Hok.
  - eapply sublist_NoDup; [exact Hnd|]. by apply omap_certificates.
Qed.

Lemma revoke_removal a t db v :
  stored sha256 db = Ok (Some v) →
  removal (λ g, match ag_tunnels (remove_grant a t g) with
                | [] => None | _ => Some (remove_grant a t g) end) v.
Proof.
  intros Hst. pose proof (stored_ok _ _ _ Hst) as [Hsok _].
  assert (∀ g g', (match ag_tunnels (remove_grant a t g) with
    | [] => None | _ => Some (remove_grant a t g) end) = Some g' → g' = remove_grant a t g) as Hf.
  { intros g g'. by destruct (ag_tunnels _); intros; simplify_eq. }
  assert (∀ g, ag_certificate (remove_grant a t g) = ag_certificate g) as Hc.
  { intros g. unfold remove_grant. by destruct (bool_decide _). }
  split.
  - eapply Forall_impl; [exact Hsok|]. intros g Hg. unfold shrinks.
    destruct (ag_tunnels (remove_grant a t g)); [by apply grant_bytes_min|by apply remove_shrinks].
  - apply (snapshot_ok_remove _ a t Hsok).
  - apply omap_grants_ok; [| |apply grants_grants_ok].
    + intros g g' ->%Hf. apply Hc.
    + intros g g' ->%Hf. apply remove_grant_ok.
  - intros g g' ->%Hf. unfold remove_grant. destruct (bool_decide _); [|done]. cbn.
    unfold zlen. pose proof (length_filter (λ x, tg_tunnel_id x ≠ t) (ag_tunnels g)). lia.
Qed.

(** C18. Revocation is always available: on any database with a durable snapshot,
    when no statement fails and the version is not exhausted, [revoke_agent]
    succeeds, whatever the size of the snapshot, and reports how many pending or
    active credentials it ended. *)
Theorem revocation_available a t now db v :
  stored sha256 db = Ok (Some v) → version_raw (va_version v) + 1 < 2 ^ 64 → now < 2 ^ 63 →
  ∃ o db', exec (revoke_agent sha256 a t now) db = (Ok o, db') ∧
    mo_affected_credentials o =
      zlen (filter (λ p, bound_credential a t p.2 ∧ live_row p.2) (map_to_list (agent_credentials db))).
Proof.
  intros Hst Hlt Hnow.
  set (db1 := revoke_tokens a t db).
  destruct (revoke_credentials a t now db1) as [[affected db2]|] eqn:Hrc; [|done].
  assert (stored sha256 db2 = Ok (Some v)) as Hst2.
  { rewrite (stored_same_tables _ db); [done|]. by injection Hrc as _ <-. }
  destruct (republish_if_changed_clean _ db2 v Hst2 Hlt (revoke_removal a t db v Hst))
    as (w & b & db' & Hcl).
  eexists _, db'. split.
  - apply clean_exec. unfold revoke_agent, i64_try_from. rewrite (proj2 (Z.ltb_lt _ _)) by done.
    eapply clean_bind; [apply clean_lift|]. eapply clean_bind; [apply clean_query|].
    apply clean_transaction. eapply clean_bind; [apply clean_update|].
    eapply clean_bind; [by apply clean_execute|].
    eapply clean_bind; [by apply load_snapshot_clean|].
    rewrite remove_agent_tunnel_omap. eapply clean_bind; [exact Hcl|].
    eapply clean_bind; [apply clean_query|apply clean_ret].
  - cbn [mo_affected_credentials]. injection Hrc as <- _. f_equal.
    apply list_filter_iff. intros p. by rewrite bool_decide_eq_true.
Qed.

(** ** Expiry *)

Definition keys_ok db : Prop := ∀ f row, agent_credentials db !! f = Some row → zlen f = 32.

Lemma keys_ok_effect op db v db' v' : effect op db v db' v' → keys_ok db → keys_ok db'.
Proof.
  intros [(c & now & kind & [_ _ Hck _ _ _ _ _ Hcred _])|(g & _ & Hg)]%effect_rows Hk f row.
  - rewrite Hcred. intros [[<- _]|[_ Hl]]%lookup_insert_Some; [|by eapply Hk].
    unfold credential_checks in Hck. apply andb_prop in Hck as [Hck _].
    do 5 (apply andb_prop in Hck as [Hck _]). by apply Z.eqb_eq.
  - rewrite Hg. intros (r0 & Hr0 & _)%fmap_Some. by eapply Hk.
Qed.

(** The overdue requests. *)
Definition backlog (now : Z) db : gset bytes :=
  dom (filter (λ p, overdue now p.2) (agent_credentials db)).

Lemma elem_of_backlog now db f :
  f ∈ backlog now db ↔ ∃ row, agent_credentials db !! f = Some row ∧ overdue now row.
Proof.
  unfold backlog. rewrite elem_of_dom. split.
  - intros [row [? ?]%map_lookup_filter_Some]. eauto.
  - intros (row & ? & ?). exists row. by apply map_lookup_filter_Some.
Qed.

Definition overdue_keys (now : Z) db : list bytes :=
  (filter (λ p, overdue now p.2) (scan (agent_credentials db))).*1.

Lemma overdue_keys_NoDup now db : NoDup (overdue_keys now db).
Proof.
  unfold overdue_keys. eapply sublist_NoDup; [|apply fmap_sublist, sublist_filter].
  rewrite scan_rows. apply NoDup_fst_map_to_list.
Qed.

Lemma overdue_keys_backlog now db : list_to_set (overdue_keys now db) = backlog now db.
Proof.
  apply set_eq. intros f. rewrite elem_of_list_to_set, elem_of_backlog. unfold overdue_keys.
  rewrite list_elem_of_fmap. split.
  - intros ([f' row] & -> & [? Hin%scan_elem]%list_elem_of_filter). eauto.
  - intros (row & Hl & Ho). exists (f, row). split; [done|]. apply list_elem_of_filter.
    by rewrite scan_elem.
Qed.

Lemma overdue_fingerprints_sub now db :
  NoDup (overdue_fingerprints now db) ∧ list_to_set (overdue_fingerprints now db) ⊆ backlog now db ∧
  length (overdue_fingerprints now db) = (MAX_RECONCILE_BATCH `min` size (backlog now db))%nat.
Proof.
  unfold overdue_fingerprints. fold (overdue_keys now db).
  assert (merge_sort bytes_le (overdue_keys now db) ≡ₚ overdue_keys now db) as Hp
    by apply merge_sort_Permutation.
  pose proof (overdue_keys_NoDup now db) as Hnd. rewrite <-overdue_keys_backlog. split_and!.
  - eapply sublist_NoDup; [|apply sublist_take]. by rewrite Hp.
  - intros f. rewrite !elem_of_list_to_set. intros (i & Hi & _)%elem_of_take.
    rewrite <-Hp. by eapply list_elem_of_lookup_2.
  - rewrite length_take, Hp, size_list_to_set by done. done.
Qed.

Lemma expire_removal (fps : list CertificateFingerprint) db v :
  stored sha256 db = Ok (Some v) →
  removal (λ g, if decide (ag_certificate g ∉ fps) then Some g else None) v.
Proof.
  intros Hst. pose proof (stored_ok _ _ _ Hst) as [Hsok _]. split.
  - eapply Forall_impl; [exact Hsok|]. intros g Hg. unfold shrinks.
    case_decide; [by left|by apply grant_bytes_min].
  - rewrite <-filter_omap. by apply snapshot_ok_filter.
  - apply omap_grants_ok; [| |apply grants_grants_ok].
    + intros g g'. by case_decide; intros; simplify_eq.
    + intros g g'. by case_decide; intros; simplify_eq.
  - intros g g'. case_decide; [|done]. by intros [= ->].
Qed.

Lemma expire_rows_clean fps now db : ∃ db', clean (expire_rows fps now) db (Ok tt) db'.
Proof.
  revert db. induction fps as [|fp fps IH]; intros db; [by exists db|].
  destruct (IH (expire_row (fp_bytes fp) now db)) as [db' Hcl]. exists db'. cbn [expire_rows].
  eapply clean_bind; [apply clean_update|exact Hcl].
Qed.

Lemma collect_decode_fp ls :
  Forall (λ f, zlen f = 32) ls → collect decode_fp ls = Ok (MkFingerprint <$> ls).
Proof.
  intros Hls. apply collect_Ok. induction Hls; constructor; [|done]. by apply decode_fp_Ok.
Qed.

Lemma expire_batch_clean fps now db v :
  stored sha256 db = Ok (Some v) → version_raw (va_version v) + 1 < 2 ^ 64 →
  ∃ o db', clean (expire_batch sha256 fps now) db (Ok (Ok o)) db'.
Proof.
  intros Hst Hlt. unfold expire_batch.
  destruct (republish_if_changed_clean _ db v Hst Hlt (expire_removal fps db v Hst))
    as (w & b & db1 & Hcl). rewrite <-filter_omap in Hcl.
  destruct (expire_rows_clean fps now db1) as [db2 Hcl2]. destruct fps as [|fp fps].
  - eexists _, db. eapply clean_bind; [by apply load_snapshot_clean|].
    eapply clean_bind; [apply clean_query|apply clean_ret].
  - eexists _, db2. eapply clean_bind; [by apply load_snapshot_clean|].
    eapply clean_bind; [exact Hcl|]. eapply clean_bind; [exact Hcl2|].
    eapply clean_bind; [apply clean_query|apply clean_ret].
Qed.

Lemma reconcile_clean now db v :
  stored sha256 db = Ok (Some v) → version_raw (va_version v) + 1 < 2 ^ 64 → now < 2 ^ 63 →
  keys_ok db → ∃ o db', clean (reconcile_expired sha256 now) db (Ok o) db'.
Proof.
  intros Hst Hlt Hnow Hk. set (rows := overdue_fingerprints now db).
  assert (collect decode_fp rows = Ok (MkFingerprint <$> rows)) as Hcol.
  { apply collect_decode_fp, Forall_forall. intros f Hf.
    apply overdue_fingerprints_elem in Hf as (row & Hl & _). by eapply Hk. }
  destruct (expire_batch_clean (MkFingerprint <$> rows) now db v Hst Hlt) as (o & db' & Hcl).
  exists o, db'. unfold reconcile_expired, i64_try_from. rewrite (proj2 (Z.ltb_lt _ _)) by done.
  eapply clean_bind; [apply clean_lift|]. eapply clean_bind; [apply clean_query|].
  apply clean_transaction. eapply clean_bind; [apply clean_query|]. fold rows.
  eapply clean_bind; [rewrite Hcol; apply clean_lift|exact Hcl].
Qed.

(** One batch takes its share of the backlog and touches nothing else. *)
Lemma reconcile_batch now db v :
  stored sha256 db = Ok (Some v) → version_raw (va_version v) + 1 < 2 ^ 64 → now < 2 ^ 63 →
  keys_ok db →
  ∃ o db' v', exec (reconcile_expired sha256 now) db = (Ok o, db') ∧
    stored sha256 db' = Ok (Some v') ∧ keys_ok db' ∧
    version_raw (va_version v') ≤ version_raw (va_version v) + 1 ∧
    (size (backlog now db') = size (backlog now db) - MAX_RECONCILE_BATCH)%nat ∧
    ∀ f row, agent_credentials db !! f = Some row → ¬ overdue now row →
      agent_credentials db' !! f = Some row.
Proof.
  intros Hst Hlt Hnow Hk. destruct (reconcile_clean now db v Hst Hlt Hnow Hk) as (o & db' & Hcl).
  pose proof (clean_runs _ _ _ _ Hcl) as Hr.
  eapply reconcile_expired_runs in Hr as [(? & ? & _)|(o' & v' & fps & _ & Hst' & Heff & Hfps & _)];
    [done| |done].
  exists o, db', v'. split; [by apply clean_exec|]. split; [done|].
  split; [by eapply keys_ok_effect, Hk; eapply (eff_expire (OpReconcile now))|].
  destruct Heff as [Hpend Hver _ Hcred _]. split; [destruct Hver as [->|]; lia|].
  destruct (overdue_fingerprints_sub now db) as (Hnd & Hsub & Hlen).
  assert (∀ f, MkFingerprint f ∈ fps ↔ f ∈ overdue_fingerprints now db) as Hin.
  { intros f. rewrite <-Hfps, list_elem_of_fmap. split; [by exists (MkFingerprint f)|].
    intros ([g] & -> & ?). done. }
  split.
  - assert (backlog now db' = backlog now db ∖ list_to_set (overdue_fingerprints now db)) as ->.
    { apply set_eq. intros f. rewrite elem_of_difference, !elem_of_backlog, elem_of_list_to_set.
      rewrite Hcred. setoid_rewrite fmap_Some. split.
      - intros (row & (r0 & Hr0 & ->) & Ho). destruct (decide (MkFingerprint f ∈ fps)) as [|Hout].
        + by destruct Ho.
        + rewrite Hin in Hout. eauto.
      - intros [(row & Hl & Ho) Hout]. exists row. split; [|done]. exists row. split; [done|].
        rewrite decide_False; [done|]. by rewrite Hin. }
    rewrite size_difference, size_list_to_set, Hlen by done. lia.
  - intros f row Hl Hno. rewrite Hcred, Hl. cbn. rewrite decide_False; [done|].
    rewrite Hin. intros (row' & Hl' & Ho)%overdue_fingerprints_elem. congruence.
Qed.

(** Repeated reconciliation at one time. *)
Fixpoint reconcile_times (k : nat) (now : Z) db : Database :=
  match k with
  | O => db
  | S k => reconcile_times k now (exec (reconcile_expired sha256 now) db).2
  end.

Lemma reconcile_times_spec k now db v :
  stored sha256 db = Ok (Some v) → version_raw (va_version v) + Z.of_nat k < 2 ^ 64 → now < 2 ^ 63 →
  keys_ok db → (size (backlog now db) ≤ MAX_RECONCILE_BATCH * k)%nat →
  backlog now (reconcile_times k now db) = ∅ ∧
  ∀ f row, agent_credentials db !! f = Some row → ¬ overdue now row →
    agent_credentials (reconcile_times k now db) !! f = Some row.
Proof.
  revert db v. induction k as [|k IH]; intros db v Hst Hlt Hnow Hk Hsize.
  { split; [|done]. apply leibniz_equiv, size_empty_iff. unfold MAX_RECONCILE_BATCH in *. cbn [reconcile_times]. lia. }
  destruct (reconcile_batch now db v) as (o & db' & v' & He & Hst' & Hk' & Hv' & Hs' & Hkeep); [done|lia|done..|].
  cbn [reconcile_times]. rewrite He. cbn [snd].
  destruct (IH db' v') as [Hb Hrest]; [done|lia|done|done| |].
  { unfold MAX_RECONCILE_BATCH in *. lia. }
  split; [done|]. intros f row Hl Hno. apply Hrest; [by apply Hkeep|done].
Qed.

(** C17. Overdue requests do not accumulate.  On any database the repository can
    reach, [k] reconciliations at one time clear a backlog of up to [256 * k]
    overdue pending credentials, when no statement fails, the snapshot version can
    grow by [k] within 64 bits and the time fits into a signed 64-bit number, and
    leave every other credential exactly as it was. *)
Theorem reconcile_clears_backlog db0 v0 db v now k :
  stored sha256 db0 = Ok (Some v0) → agent_credentials db0 = ∅ →
  history sha256 any_op db0 db → stored sha256 db = Ok (Some v) →
  version_raw (va_version v) + Z.of_nat k < 2 ^ 64 → now < 2 ^ 63 →
  (size (backlog now db) ≤ MAX_RECONCILE_BATCH * k)%nat →
  let db' := reconcile_times k now db in
  (∀ f row, agent_credentials db' !! f = Some row → ¬ overdue now row) ∧
  (∀ f row, agent_credentials db !! f = Some row → ¬ overdue now row →
     agent_credentials db' !! f = Some row).
Proof.
  intros Hst0 Hempty Hh Hst Hlt Hnow Hsize db'.
  destruct (history_ind sha256 any_op (λ db _, keys_ok db) db0 v0 db) as (_ & _ & Hk).
  - intros ? ? ? ? ? _. apply keys_ok_effect.
  - done.
  - intros f row. by rewrite Hempty.
  - done.
  - destruct (reconcile_times_spec k now db v Hst Hlt Hnow Hk Hsize) as [Hb Hkeep].
    split; [|done]. intros f row Hl Ho. assert (f ∈ backlog now db') as Hf.
    { apply elem_of_backlog. eauto. }
    unfold db' in Hf. rewrite Hb in Hf. set_solver.
Qed.
End progress.

(** ** Witnesses *)

Lemma zero_digest_length x : zlen (zero_digest x) = 32.
Proof. done. Qed.

Lemma revocation_available_witness :
  ∃ o db', exec (revoke_agent zero_digest sample_agent sample_tunnel 700) with_activation = (Ok o, db') ∧
    mo_affected_credentials o =
      zlen (filter (λ p, bound_credential sample_agent sample_tunnel p.2 ∧ live_row p.2)
              (map_to_list (agent_credentials with_activation))).
Proof.
  eapply (revocation_available zero_digest zero_digest_length sample_agent sample_tunnel 700 with_activation).
  - exact with_activation_stored.
  - cbn. lia.
  - lia.
Defined.

Lemma with_issuance_stored :
  stored zero_digest with_issuance = Ok (Some (MkVersioned (MkVersion 2)
    (MkSnapshot (<[sample_fp := MkAuthorizedAgent sample_agent {[ sample_tunnel := Enabled ]}]>
       (as_agents two_agents))))).
Proof. vm_compute. reflexivity. Qed.

Lemma reconcile_clears_backlog_witness :
  let db' := reconcile_times zero_digest 1 1500 with_issuance in
  (∀ f row, agent_credentials db' !! f = Some row → ¬ overdue 1500 row) ∧
  (∀ f row, agent_credentials with_issuance !! f = Some row → ¬ overdue 1500 row →
     agent_credentials db' !! f = Some row).
Proof.
  eapply (reconcile_clears_backlog zero_digest zero_digest_length database_1 durable_1 with_issuance _ 1500 1).
  - exact database_1_stored.
  - vm_compute. reflexivity.
  - exact (transitivity sample_history_token sample_history_issue).
  - exact with_issuance_stored.
  - cbn. lia.
  - lia.
  - vm_compute. lia.
Defined.
