(* ===== verification/EnrollmentService.v ===== *)
(** * EnrollmentService: the enrollment server of the Control Plane

    [crates/control-plane/src/enrollment_service.rs]: the configuration checks,
    the two request handlers of [serve_connection] with their replies and
    recorded outcomes, and the reconciliation tick; and from
    [enrollment_repository.rs] the provisioning of a bootstrap token.  A handler
    holds the mutation gate, so handlers and ticks of one server do not overlap;
    other processes (the command line: tokens, revocations, and imports of whole
    snapshots) may write to the database file between any two accesses.
    TLS, the listener and its permits are the environment; the certificate
    issuer is what it answers. *)

From S2P Require Import Prelude Text Hex Identity EnrollmentProto Authorization SnapshotCodec.
From S2P Require Import Database SnapshotRepository EnrollmentRepository EnrollmentSafety.

Inductive EnrollmentServerError : Type :=
| ES_InvalidConfig
| ES_Bind
| ES_Accept
| ES_Repository (e : EnrollmentRepositoryError)
| ES_StorageTask
| ES_Authority.

(** Durations in nanoseconds; [Duration::as_secs] rounds down. *)
Definition as_secs (duration : Z) : Z := duration / 1000000000.

Record EnrollmentServerConfig : Type := MkServerConfig {
  sc_max_clients : Z;
  sc_request_timeout : Z;
  sc_activation_grace : Z;
  sc_reconcile_interval : Z;
  sc_database_path : bytes;
  sc_validity : Z;
  sc_agent_server_ca_pem : bytes
}.

(** [parses] says whether [parse_certificates] finds a certificate. *)
Definition validate (parses : bytes → bool) (c : EnrollmentServerConfig)
    : Result EnrollmentServerError unit :=
  if (sc_max_clients c =? 0) || (sc_request_timeout c =? 0) || (sc_activation_grace c =? 0)
     || (as_secs (sc_activation_grace c) =? 0) || (sc_reconcile_interval c =? 0)
     || (sc_validity c <? sc_activation_grace c) || (zlen (sc_database_path c) =? 0)
     || (zlen (sc_agent_server_ca_pem c) =? 0)
  then Err ES_InvalidConfig
  else if parses (sc_agent_server_ca_pem c) then Ok tt else Err ES_InvalidConfig.

Inductive EnrollmentRequestOutcome : Type := OutIssued | OutActivated | OutRejected | OutFailed.

Definition repository_error_code (e : EnrollmentRepositoryError) : EnrollmentErrorCode :=
  match e with
  | ER_Unauthorized => EE_Unauthorized
  | ER_TokenExpired => EE_TokenExpired
  | ER_CredentialRevoked => EE_CredentialRevoked
  | ER_RequestExpired => EE_RequestExpired
  | ER_IdentityMismatch => EE_IdentityMismatch
  | ER_Conflict => EE_Conflict
  | ER_Storage | ER_Uninitialized | ER_Corrupt | ER_InvalidTime | ER_VersionExhausted
  | ER_Random | ER_TokenOutput | ER_ResourceLimit => EE_Internal
  end.

Definition repository_request_outcome (e : EnrollmentRepositoryError) : EnrollmentRequestOutcome :=
  match e with
  | ER_Unauthorized | ER_TokenExpired | ER_CredentialRevoked | ER_RequestExpired
  | ER_IdentityMismatch | ER_Conflict => OutRejected
  | ER_Storage | ER_Uninitialized | ER_Corrupt | ER_InvalidTime | ER_VersionExhausted
  | ER_Random | ER_TokenOutput | ER_ResourceLimit => OutFailed
  end.

Record IssuedCertificate : Type := MkIssued {
  is_certificate_pem : bytes;
  is_fingerprint : CertificateFingerprint;
  is_not_after_unix : Z
}.

(** ** One blocking access to the database

    What other processes did before it, the clock it reads, the statements that
    fail, and whether its task is lost.  An access is atomic here.  Two are not
    transactions in the code: a preflight only reads, what it finds of an earlier
    issuance is one statement, and the commit checks the token again; and the load
    of a refresh, in the middle of which a write makes it fail, as a failing
    statement does, with an error that its caller does not tell apart. *)
Record Access : Type := MkAccess {
  ac_before : Database → Database;
  ac_clock : option Z;
  ac_faults : list bool;
  ac_lost : bool
}.

(** [spawn_blocking(move || { let now = unix_time_now()?; op(now) }).await]:
    [None] is a join error. *)
Definition spawn {A} (ac : Access) (op : Z → ESql A) (db : Database)
    : option (EResult A) * Database :=
  let db := ac_before ac db in
  let '(r, db) :=
    match ac_clock ac with
    | None => (Err ER_InvalidTime, db)
    | Some now => let '(r, (db, _)) := op now (db, ac_faults ac) in (r, db)
    end in
  (if ac_lost ac then None else Some r, db).

Section service.
Context `{TableScan} {W : Type → Type} `{LatestValue W}.
Variable sha256 : bytes → bytes.

Record Service : Type := MkService {
  sv_db : Database;
  sv_publisher : SnapshotPublisherState W
}.

(** [authority.refresh_from_repository().await] *)
Definition refresh (ac : Access) (s : Service) : PAResult SnapshotPublishOutcome * Service :=
  let db := ac_before ac (sv_db s) in
  let '(r, (db, _)) := load_latest sha256 (db, ac_faults ac) in
  let '(r, p) := refresh_from_repository (sv_publisher s) (if ac_lost ac then None else Some r) in
  (r, MkService db p).

(** What happens around one request. *)
Record EnrollEnv : Type := MkEnrollEnv {
  ev_preflight : Access;
  ev_issue : option (option IssuedCertificate);
  ev_clock : option Z;
  ev_commit : Access;
  ev_refresh : Access
}.

Definition reject (code : EnrollmentErrorCode) (outcome : EnrollmentRequestOutcome) (s : Service)
    : EnrollmentMessage * EnrollmentRequestOutcome * Service :=
  (EnrollmentError code, outcome, s).
Definition repository_reject (e : EnrollmentRepositoryError) (s : Service)
    : EnrollmentMessage * EnrollmentRequestOutcome * Service :=
  reject (repository_error_code e) (repository_request_outcome e) s.

(** The end of the [Enroll] branch: refresh, then reply. *)
Definition issued (config : EnrollmentServerConfig) (env : EnrollEnv)
    (request_id : EnrollmentRequestId) (durable : DurableIssuance) (s : Service)
    : EnrollmentMessage * EnrollmentRequestOutcome * Service :=
  match refresh (ev_refresh env) s with
  | (Err _, s) => reject EE_Internal OutFailed s
  | (Ok _, s) =>
      (Issued request_id (version_raw (di_generation durable)) (di_not_after_unix durable)
         (di_certificate_pem durable) (sc_agent_server_ca_pem config)
         (fp_bytes (di_fingerprint durable)),
       OutIssued, s)
  end.

(** The [Enroll] branch of [serve_connection]. *)
Definition serve_enroll (config : EnrollmentServerConfig) (env : EnrollEnv)
    (request_id : EnrollmentRequestId) (token next_renewal_token : EnrollmentToken)
    (agent_id : AgentId) (tunnel_id : TunnelId) (csr_der : bytes) (s : Service)
    : EnrollmentMessage * EnrollmentRequestOutcome * Service :=
  let presented_token_hash := sha256 (token_bytes token) in
  let next_token_hash := sha256 (token_bytes next_renewal_token) in
  let csr_digest := sha256 csr_der in
  let '(preflight, db) :=
    spawn (ev_preflight env)
      (preflight_issuance request_id presented_token_hash next_token_hash agent_id tunnel_id csr_digest)
      (sv_db s) in
  let s := MkService db (sv_publisher s) in
  match preflight with
  | None => reject EE_Internal OutFailed s
  | Some (Err e) => repository_reject e s
  | Some (Ok (Some existing)) => issued config env request_id existing s
  | Some (Ok None) =>
      match ev_issue env with
      | None | Some None => reject EE_InvalidCsr OutRejected s
      | Some (Some certificate) =>
          match ev_clock env ≫= λ now, checked_add 64 now (as_secs (sc_activation_grace config)) with
          | None => reject EE_Internal OutFailed s
          | Some activation_deadline_unix =>
              let candidate :=
                MkCandidate request_id presented_token_hash next_token_hash agent_id tunnel_id
                  csr_digest (is_certificate_pem certificate) (is_fingerprint certificate)
                  (is_not_after_unix certificate) activation_deadline_unix in
              let '(committed, db) :=
                spawn (ev_commit env) (commit_issuance sha256 candidate) (sv_db s) in
              let s := MkService db (sv_publisher s) in
              match committed with
              | None => reject EE_Internal OutFailed s
              | Some (Err e) => repository_reject e s
              | Some (Ok durable) => issued config env request_id durable s
              end
          end
      end
  end.

(** The [Activate] branch. *)
Definition serve_activate (activation refreshing : Access) (request_id : EnrollmentRequestId)
    (renewal_token : EnrollmentToken) (fingerprint : bytes) (s : Service)
    : EnrollmentMessage * EnrollmentRequestOutcome * Service :=
  let '(answer, db) :=
    spawn activation
      (activate sha256 request_id (sha256 (token_bytes renewal_token)) (MkFingerprint fingerprint))
      (sv_db s) in
  let s := MkService db (sv_publisher s) in
  match answer with
  | None => reject EE_Internal OutFailed s
  | Some (Err ER_RequestExpired) =>
      match refresh refreshing s with
      | (Err _, s) => reject EE_Internal OutFailed s
      | (Ok _, s) => repository_reject ER_RequestExpired s
      end
  | Some (Err e) => repository_reject e s
  | Some (Ok version) =>
      match refresh refreshing s with
      | (Err _, s) => reject EE_Internal OutFailed s
      | (Ok _, s) => (Activated (version_raw version), OutActivated, s)
      end
  end.

(** What [serve_connection] does with a request; any other message is invalid. *)
Definition serve_request (config : EnrollmentServerConfig) (env : EnrollEnv)
    (activation refreshing : Access) (request : EnrollmentMessage) (s : Service)
    : EnrollmentMessage * EnrollmentRequestOutcome * Service :=
  match request with
  | Enroll request_id token next_renewal_token agent_id tunnel_id csr_der =>
      serve_enroll config env request_id token next_renewal_token agent_id tunnel_id csr_der s
  | Activate request_id renewal_token fingerprint =>
      serve_activate activation refreshing request_id renewal_token fingerprint s
  | _ => reject EE_InvalidRequest OutRejected s
  end.

(** The reconciliation tick of [run_until_shutdown]; an error ends the server. *)
Definition reconcile_tick (reconciling refreshing : Access) (s : Service)
    : Result EnrollmentServerError CredentialMutationOutcome * Service :=
  let '(answer, db) := spawn reconciling (reconcile_expired sha256) (sv_db s) in
  let s := MkService db (sv_publisher s) in
  match answer with
  | None => (Err ES_StorageTask, s)
  | Some (Err e) => (Err (ES_Repository e), s)
  | Some (Ok outcome) =>
      if mo_snapshot_changed outcome then
        match refresh refreshing s with
        | (Err _, s) => (Err ES_Authority, s)
        | (Ok _, s) => (Ok outcome, s)
        end
      else (Ok outcome, s)
  end.

(** [provision_bootstrap_token]: the clock, the random source and the writing of
    the output file are what they answer; the result is the file's contents.
    [EnrollmentRepository::open] is one access to the file. *)
Definition provision_bootstrap_token (agent_id : AgentId) (tunnel_id : TunnelId) (ttl : Z)
    (output_path : bytes) (clock : option Z) (random : option bytes) (replaced : bool) : ESql bytes :=
  if (ttl =? 0) || (zlen output_path =? 0) then lift (Err ER_InvalidTime)
  else
    now ← lift (ok_or ER_InvalidTime clock);
    expires ← lift (ok_or ER_InvalidTime (checked_add 64 now (as_secs ttl)));
    token ← lift (ok_or ER_Random random);
    connect ER_Storage ;;
    create_bootstrap_token (sha256 token) agent_id tunnel_id expires ;;
    if replaced then mret (hex_lower token ++ [x0a%byte]) else lift (Err ER_TokenOutput).
End service.
Arguments Service W : clear implicits.

(** ** What a reply promises *)

Section replies.
Context `{TableScanLaws} {W : Type → Type} `{LatestValueLaws W}.
Variable sha256 : bytes → bytes.
(** Whether the command line also imports snapshots while the server runs: an
    import replaces the authorizations and knows nothing of the credentials. *)
Variable imports : bool.
Implicit Types (s : Service W) (db : Database) (ac : Access).

(** What a process does to the file in one transaction. *)
Definition process_step db db' : Prop :=
  (∃ op, op_step sha256 op db db') ∨ (imports = true ∧ import_step sha256 db db').
Definition others ac : Prop := ∀ db, rtc process_step db (ac_before ac db).

Definition issuer_ok (answer : option (option IssuedCertificate)) : Prop :=
  ∀ certificate, answer = Some (Some certificate) →
    zlen (fp_bytes (is_fingerprint certificate)) = 32 ∧ 0 ≤ is_not_after_unix certificate.
Record env_ok (env : EnrollEnv) : Prop := {
  eo_preflight : others (ev_preflight env);
  eo_issue : issuer_ok (ev_issue env);
  eo_commit : others (ev_commit env);
  eo_refresh : others (ev_refresh env)
}.

(** What decoding a request ensures. *)
Definition request_ok (request : EnrollmentMessage) : Prop :=
  match request with
  | Enroll _ _ _ agent_id tunnel_id _ =>
      durable_id_ok (agent_str agent_id) ∧ durable_id_ok (tunnel_str tunnel_id)
  | _ => True
  end.

(** A running server: requests, reconciliation ticks, and other processes. *)
Inductive service_step : Service W → Service W → Prop :=
| step_request config env activation refreshing request s :
    env_ok env → others activation → others refreshing → request_ok request →
    service_step s (serve_request sha256 config env activation refreshing request s).2
| step_tick reconciling refreshing s :
    others reconciling → others refreshing →
    service_step s (reconcile_tick sha256 reconciling refreshing s).2
| step_other db' s :
    rtc process_step (sv_db s) db' → service_step s (MkService db' (sv_publisher s)).

Definition serving s : Prop :=
  in_sync (sv_publisher s) ∧
  ∃ v, stored sha256 (sv_db s) = Ok (Some v) ∧ (imports = false → enroll_inv (sv_db s) v) ∧
    behind (ps_current (sv_publisher s)) v.

(** The published snapshot is the durable one. *)
Definition published s : Prop :=
  stored sha256 (sv_db s) = Ok (Some (subscription_current (sv_publisher s))).

Lemma import_credentials db db' :
  import_step sha256 db db' → agent_credentials db' = agent_credentials db.
Proof.
  intros [v r db1 db2 Hok Hr]. apply repository_commit_runs in Hr; [|done].
  destruct r as [[previous current|version]|e].
  - by destruct Hr as (_ & _ & [_ ->] & _).
  - by destruct Hr as [-> _].
  - by subst.
Qed.

#[local] Instance process_writer : DurableWriter sha256 process_step.
Proof. intros db db' [Hop|[_ Hi]]; [by apply enrollment_writer|by apply import_writer]. Qed.

Lemma process_advances db db' : rtc process_step db db' → advances sha256 db db'.
Proof.
  intros Hh. induction Hh as [|db db1 db' Hs _ IH]; [done|]. etrans; [|exact IH]. by apply process_writer.
Qed.

(** What the operations and the imports preserve. *)
Lemma process_ind (P : Database → Prop) db v db' :
  (∀ op db v db' v', effect op db v db' v' → P db → P db') →
  (∀ db db', agent_credentials db' = agent_credentials db → P db → P db') →
  stored sha256 db = Ok (Some v) → rtc process_step db db' → P db → P db'.
Proof.
  intros HP Hsame Hst Hh. revert v Hst. induction Hh as [|db db1 db' Hs _ IH]; intros v Hst Hp; [done|].
  destruct (process_writer db db1 Hs v Hst) as (v1 & Hst1 & _). apply (IH v1 Hst1).
  destruct Hs as [[op Hop]|[_ Hi]].
  - destruct (op_effect _ _ _ _ _ Hst Hop) as (v' & _ & Heff). by eapply HP.
  - eapply Hsame; [|exact Hp]. by apply import_credentials.
Qed.

Lemma serving_history db db' (p : SnapshotPublisherState W) :
  serving (MkService db p) → rtc process_step db db' → serving (MkService db' p).
Proof.
  intros Hs Hh. induction Hh as [|db db1 db' Hstep _ IH]; [done|]. apply IH.
  destruct Hs as (Hp & v & Hst & Hinv & Hb). cbn in *. split; [done|]. cbn.
  destruct Hstep as [[op Hop]|[Himp Hi]].
  - destruct (op_effect _ _ _ _ _ Hst Hop) as (v' & Hst' & Heff). exists v'. split_and!; [done| |].
    + intros Hno. eapply enroll_inv_effect; eauto.
    + apply effect_advances in Heff. eapply behind_trans; [exact Hb|]. by destruct Heff; [left|right].
  - destruct (import_writer _ _ _ Hi v Hst) as (v' & Hst' & Hor). exists v'. split_and!; [done|congruence|].
    eapply behind_trans; [exact Hb|]. by destruct Hor; [left|right].
Qed.

Lemma op_history op db db' : op_step sha256 op db db' → rtc process_step db db'.
Proof. intros Hop. apply rtc_once. left. by exists op. Qed.

Lemma published_authorize s fp row a t :
  serving s → imports = false → published s → agent_credentials (sv_db s) !! fp = Some row →
  authorize (va_snapshot (subscription_current (sv_publisher s))) (MkFingerprint fp) a t = Ok tt ↔
  live_row row ∧ cr_agent_id row = agent_str a ∧ cr_tunnel_id row = tunnel_str t.
Proof.
  intros (_ & v & Hst & Hinv & _) Hno Hp Hl. unfold published in Hp. rewrite Hst in Hp. injection Hp as <-.
  eapply enroll_inv_authorize; eauto.
Qed.

(** A credential that was revoked, retired or expired. *)
Definition ended (fp : bytes) db : Prop :=
  ∃ row, agent_credentials db !! fp = Some row ∧ ¬ live_row row.

(** It never becomes live again. *)
Lemma ended_effect fp op db v db' v' : effect op db v db' v' → ended fp db → ended fp db'.
Proof.
  unfold ended, live_row.
  destruct 1 as [| |c now kind db v db' v' [_ _ _ Hfresh _ _ _ _ Hcred _]
    |r h f now row0 db v db' v' [Hrow Hpend _ Hcred _]|op fps now db v db' v' [_ _ _ Hcred _]
    |a t now db v db' v' [_ _ Hcred _]]; intros (row & Hl & Hd); [by exists row..| | | |].
  - exists row. rewrite Hcred, lookup_insert_ne by congruence. done.
  - rewrite Hcred. destruct (cr_previous_fingerprint row0); rewrite !update_state_lookup, Hl; cbn;
      (eexists; split; [done|]); repeat case_decide; cbn; simplify_eq; lia.
  - rewrite Hcred, Hl. cbn. eexists. split; [done|]. case_decide; cbn; [lia|done].
  - rewrite Hcred, lookup_fmap, Hl. cbn. eexists. split; [done|]. case_match; cbn; [lia|done].
Qed.

(** A blocking access after the other processes. *)
Lemma spawn_spec {A} ac (op : Z → ESql A) db answer db' :
  spawn ac op db = (answer, db') →
  ∃ r, (answer = None ∨ answer = Some r) ∧
    ((r = Err ER_InvalidTime ∧ db' = ac_before ac db) ∨
     ∃ now, runs (op now) (ac_before ac db) r db').
Proof.
  unfold spawn. destruct (ac_clock ac) as [now|].
  - destruct (op now (ac_before ac db, ac_faults ac)) as [r [db1 fs]] eqn:Hop.
    intros [= <- <-]. exists r. split; [destruct (ac_lost ac); auto|].
    right. exists now, (ac_faults ac), fs. done.
  - intros [= <- <-]. exists (Err ER_InvalidTime). split; [destruct (ac_lost ac); auto|by left].
Qed.

Lemma refresh_service ac s r s' :
  serving s → others ac → refresh sha256 ac s = (r, s') →
  serving s' ∧ sv_db s' = ac_before ac (sv_db s) ∧ (is_ok r = true → published s').
Proof.
  intros Hs Ho Hr. destruct s as [db p]. unfold refresh in Hr. cbn in *.
  destruct (load_latest sha256 (ac_before ac db, ac_faults ac)) as [x [db1 fs]] eqn:Hl.
  assert (runs (load_latest sha256) (ac_before ac db) x db1) as Hrun by (by exists (ac_faults ac), fs).
  apply load_latest_runs in Hrun as [-> Hx].
  pose proof (serving_history _ _ _ Hs (Ho db)) as (Hp & v & Hst & Hinv & Hb). cbn in *.
  set (answer := if ac_lost ac then None else Some x) in *.
  assert (answer = None ∨ answer = Some (Err SR_Storage) ∨ answer = Some (Ok (Some v))) as Ha.
  { subst answer. destruct (ac_lost ac); [by left|]. destruct Hx as [->| ->]; [auto|].
    rewrite Hst. auto. }
  assert (∀ loaded, answer = Some (Ok loaded) → ∃ v, loaded = Some v ∧ behind (ps_current p) v) as Hload.
  { intros loaded Heq. destruct Ha as [Ha|[Ha|Ha]]; rewrite Ha in Heq; simplify_eq. eauto. }
  pose proof (refresh_spec p answer Hp Hload) as Hspec.
  destruct (refresh_from_repository p answer) as [r' p'] eqn:Hrf.
  injection Hr as <- <-. destruct Hspec as [Hp' Hspec]. unfold serving, published. cbn.
  destruct Ha as [Ha|[Ha|Ha]]; rewrite Ha in *.
  - destruct Hspec as [-> _]. split_and!; [done|by exists v|done|].
    cbn in Hrf. by injection Hrf as <-.
  - destruct Hspec as [-> _]. split_and!; [done|by exists v|done|].
    cbn in Hrf. by injection Hrf as <-.
  - destruct Hspec as [_ Hc]. split_and!; [done| |done|].
    + exists v. split_and!; [done..|]. rewrite Hc. apply behind_refl.
    + intros _. unfold in_sync in Hp'. rewrite Hp', Hc. done.
Qed.

(** *** Enroll *)

(** The part of a candidate that a request determines. *)
Definition requested (request_id : EnrollmentRequestId) (token next_renewal_token : EnrollmentToken)
    (agent_id : AgentId) (tunnel_id : TunnelId) (csr_der : bytes) : IssuanceCandidate :=
  MkCandidate request_id (sha256 (token_bytes token)) (sha256 (token_bytes next_renewal_token))
    agent_id tunnel_id (sha256 csr_der) [] (MkFingerprint []) 0 0.

Lemma retryable_live fp row ex :
  read_issuance (fp, row) = Ok ex → ensure_retryable_state (ex_state ex) = Ok tt → live_row row.
Proof.
  intros (g & st & _ & _ & _ & _ & _ & _ & Hraw & ->)%read_issuance_Ok. cbn. intros Hst.
  unfold live_row. unfold CredentialState_from_raw in Hraw.
  repeat case_match; simplify_eq; auto.
Qed.

Lemma preflight_runs c now db r db' :
  runs (preflight_issuance (ic_request_id c) (ic_presented_token_hash c) (ic_next_token_hash c)
          (ic_agent_id c) (ic_tunnel_id c) (ic_csr_digest c) now) db r db' →
  db' = db ∧ ∀ d, r = Ok (Some d) → ∃ row state, recorded_as c d row state db ∧ live_row row.
Proof.
  intros Hr. split.
  - refine (proj1 (reader_runs ER_Storage _ _ _ _ _ Hr)). apply reader_bind; [apply reader_query|intros _].
    apply reader_bind; [by apply request_row_reader|]. intros [ex|].
    + repeat (apply reader_bind; [auto with sql|intros ?]). auto with sql.
    + apply reader_bind; [apply authenticate_token_reader|]. auto with sql.
  - intros d ->. unfold preflight_issuance in Hr.
    apply runs_bind in Hr as [(? & ? & _)|(u & ? & [-> _]%runs_query & Hr)]; [done|].
    apply runs_bind in Hr as [(? & ? & _)|([ex|] & db1 & Hl & Hr)]; [done| |].
    + apply load_issuance_runs in Hl as (-> & row & Hrow & Hq & Hex).
      apply runs_bind in Hr as [(? & ? & _)|([] & ? & [Hver ->]%runs_lift & Hr)]; [done|].
      apply runs_bind in Hr as [(? & ? & _)|([] & ? & [Hret ->]%runs_lift & [[= ->] ->]%runs_ret)]; [done|].
      symmetry in Hver, Hret. exists row, (ex_state ex).
      split; [|by eapply retryable_live].
      do 2 (split; [done|]). exact (eq_trans Hex (f_equal Ok (verify_candidate_Ok _ _ Hver))).
    + by apply runs_bind in Hr as [(? & ? & _)|(k & ? & _ & [? _]%runs_ret)].
Qed.

(** The row of a recorded issuance. *)
Lemma recorded_fields c d row state db :
  recorded_as c d row state db →
  cr_certificate_pem row = di_certificate_pem d ∧ cr_not_after row = di_not_after_unix d ∧
  cr_csr_digest row = ic_csr_digest c ∧ cr_agent_id row = agent_str (ic_agent_id c) ∧
  cr_tunnel_id row = tunnel_str (ic_tunnel_id c).
Proof.
  intros (_ & _ & (g & st & _ & _ & _ & _ & _ & _ & _ & Hex)%read_issuance_Ok).
  unfold existing_for in Hex. injection Hex as -> _ _ -> -> -> _. done.
Qed.

Lemma recorded_history c d db' s :
  serving s → rtc process_step (sv_db s) db' → recorded_in c d (sv_db s) → recorded_in c d db'.
Proof.
  intros (_ & v & Hst & _) Hh. eapply (process_ind (recorded_in c d)); [|..|exact Hst|exact Hh].
  - intros. by eapply recorded_effect.
  - intros db1 db2 Hc (row & state & Hl & Hr). exists row, state. split; [by rewrite Hc|done].
Qed.

Lemma ended_history fp db' s :
  serving s → rtc process_step (sv_db s) db' → ended fp (sv_db s) → ended fp db'.
Proof.
  intros (_ & v & Hst & _) Hh. eapply (process_ind (ended fp)); [|..|exact Hst|exact Hh].
  - intros. by eapply ended_effect.
  - intros db1 db2 Hc (row & Hl & Hd). exists row. by rewrite Hc.
Qed.

(** The credential was live in a database to which, since then, only the other
    processes before the refresh have been. *)
Definition was_live ac (fp : bytes) db : Prop :=
  ∃ db1 row, agent_credentials db1 !! fp = Some row ∧ live_row row ∧ db = ac_before ac db1.

(** What the two kinds of reply to [Enroll] mean. *)
Definition enroll_reply (config : EnrollmentServerConfig) (env : EnrollEnv) (c : IssuanceCandidate)
    (unchanged : Prop) (answer : EnrollmentMessage * EnrollmentRequestOutcome * Service W) : Prop :=
  let '(reply, outcome, s') := answer in
  match reply with
  | Issued request_id generation not_after certificate_pem server_ca_pem fingerprint =>
      outcome = OutIssued ∧ request_id = ic_request_id c ∧
      server_ca_pem = sc_agent_server_ca_pem config ∧ published s' ∧
      ∃ row, agent_credentials (sv_db s') !! fingerprint = Some row ∧
        cr_request_id row = request_id_bytes request_id ∧ cr_certificate_pem row = certificate_pem ∧
        cr_not_after row = not_after ∧ cr_csr_digest row = ic_csr_digest c ∧
        cr_agent_id row = agent_str (ic_agent_id c) ∧ cr_tunnel_id row = tunnel_str (ic_tunnel_id c) ∧
        was_live (ev_refresh env) fingerprint (sv_db s')
  | EnrollmentError code =>
      (code = EE_Internal ∧ outcome = OutFailed) ∨
      (code ≠ EE_Internal ∧ outcome = OutRejected ∧ unchanged)
  | _ => False
  end.

Lemma repository_reject_reply config env c (unchanged : Prop) e s :
  unchanged → enroll_reply config env c unchanged (repository_reject e s).
Proof. intros Hu. destruct e; cbn; auto. Qed.

Lemma issued_spec config env c d row state (unchanged : Prop) s :
  serving s → others (ev_refresh env) → recorded_as c d row state (sv_db s) → live_row row →
  let answer := issued sha256 config env (ic_request_id c) d s in
  serving answer.2 ∧ enroll_reply config env c unchanged answer.
Proof.
  intros Hs Ho Hrec Hlive. unfold issued.
  destruct (refresh sha256 (ev_refresh env) s) as [r s'] eqn:Hr.
  destruct (refresh_service _ _ _ _ Hs Ho Hr) as (Hs' & Hdb & Hpub).
  destruct r as [o|e]; cbn [snd]; (split; [done|]); [|by left].
  assert (recorded_in c d (sv_db s')) as (row' & state' & Hrec').
  { rewrite Hdb. apply (recorded_history _ _ _ s); [done|by apply Ho|by exists row, state]. }
  pose proof (recorded_fields _ _ _ _ _ Hrec') as (? & ? & ? & ? & ?). destruct Hrec' as (Hl & Hq & _).
  split_and!; [done..|by apply Hpub|]. exists row'. split_and!; try done.
  exists (sv_db s), row. by destruct Hrec.
Qed.

(** The commit of a candidate as a blocking access. *)
Lemma commit_access c ac db (p : SnapshotPublisherState W) answer db' :
  candidate_ok c → serving (MkService db p) → others ac →
  spawn ac (commit_issuance sha256 c) db = (answer, db') →
  serving (MkService db' p) ∧
  match answer with
  | Some (Ok d) => ∃ row state, recorded_as c d row state db' ∧ live_row row
  | Some (Err _) => db' = ac_before ac db
  | None => True
  end.
Proof.
  intros Hc Hs Ho (r & Hans & Hrun)%spawn_spec.
  assert (serving (MkService (ac_before ac db) p)) as Hs' by (by eapply serving_history).
  split.
  { destruct Hrun as [[_ ->]|(now & Hrun)]; [done|]. eapply serving_history; [exact Hs'|].
    apply (op_history (OpIssue c now)). split; eauto. }
  destruct Hans as [->| ->]; [done|]. destruct Hs' as (_ & v & Hst & _).
  destruct Hrun as [[-> ->]|(now & Hrun)]; [done|]. destruct r as [d|e].
  - destruct (commit_recorded_live _ _ _ _ _ _ _ Hc Hst Hrun) as (row & state & Hret & Hr).
    exists row, state. split; [done|]. by eapply retryable_live; [apply Hr|].
  - by eapply commit_issuance_runs in Hrun as [?|(? & ? & _ & _ & ?)].
Qed.

(** The databases that other processes alone produce in the course of a request. *)
Definition only_others (env : EnrollEnv) (activation : Access) (request : EnrollmentMessage) db db' : Prop :=
  match request with
  | Enroll _ _ _ _ _ _ =>
      db' = ac_before (ev_preflight env) db ∨
      db' = ac_before (ev_commit env) (ac_before (ev_preflight env) db)
  | Activate _ _ _ => db' = ac_before activation db
  | _ => db' = db
  end.

Lemma serve_enroll_spec config env request_id token next a t csr s :
  serving s → env_ok env → durable_id_ok (agent_str a) → durable_id_ok (tunnel_str t) →
  let answer := serve_enroll sha256 config env request_id token next a t csr s in
  serving answer.2 ∧
  enroll_reply config env (requested request_id token next a t csr)
    (sv_db answer.2 = ac_before (ev_preflight env) (sv_db s) ∨
     sv_db answer.2 = ac_before (ev_commit env) (ac_before (ev_preflight env) (sv_db s))) answer.
Proof.
  intros Hs [Hop Hoi Hoc Hor] Ha Ht. destruct s as [db p]. unfold serve_enroll. cbn [sv_db sv_publisher].
  destruct (spawn (ev_preflight env) _ db) as [pre db1] eqn:Hpre.
  apply spawn_spec in Hpre as (r & Hans & Hrun).
  assert (db1 = ac_before (ev_preflight env) db ∧
    ∀ d, r = Ok (Some d) → ∃ row state,
      recorded_as (requested request_id token next a t csr) d row state db1 ∧ live_row row) as [-> Hrec].
  { destruct Hrun as [[-> ->]|(now & Hrun)]; [done|].
    apply (preflight_runs (requested request_id token next a t csr)) in Hrun as [-> ?]. done. }
  assert (serving (MkService (ac_before (ev_preflight env) db) p)) as Hs1
    by (by eapply serving_history).
  destruct Hans as [->| ->]; [split; [done|by left]|].
  destruct r as [[d|]|e]; [| |by split; [|apply repository_reject_reply; left]].
  { destruct (Hrec d eq_refl) as (row & state & Hr & Hl).
    exact (issued_spec config env _ d row state _ (MkService _ p) Hs1 Hor Hr Hl). }
  destruct (ev_issue env) as [[certificate|]|] eqn:Hi;
    [|split; [done|]; right; split_and!; [done..|by left]..].
  destruct (ev_clock env ≫= _) as [deadline|]; [|split; [done|by left]].
  set (candidate := MkCandidate request_id _ _ a t _ _ _ _ deadline).
  assert (candidate_ok candidate) as Hc by (destruct (Hoi _ eq_refl); by split_and!).
  cbn [sv_db sv_publisher].
  destruct (spawn (ev_commit env) _ _) as [answer db2] eqn:Hcom.
  destruct (commit_access _ _ _ p _ _ Hc Hs1 Hoc Hcom) as [Hs2 Hans].
  destruct answer as [[d|e]|]; [| |split; [done|by left]].
  - destruct Hans as (row & state & Hr & Hl).
    exact (issued_spec config env (requested request_id token next a t csr) d row state _
      (MkService db2 p) Hs2 Hor Hr Hl).
  - split; [done|]. apply repository_reject_reply. right. exact Hans.
Qed.

(** *** Activate *)

Definition not_expired (e : EnrollmentRepositoryError) : Prop := e ≠ ER_RequestExpired.

Lemma load_snapshot_errors : errors not_expired (load_snapshot sha256).
Proof.
  intros db e db' [_ He]%(reader_runs ER_Storage); [|apply load_snapshot_reader].
  rewrite load_snapshot_exec in He. by destruct He as [[= ->]|He]; [|repeat case_match; simplify_eq].
Qed.

Lemma republish_errors v gs : errors not_expired (republish sha256 v gs).
Proof.
  unfold republish, replace_snapshot.
  apply errors_bind; [apply errors_lift; unfold next_version, ok_or; by intros e; case_match; intros [= <-]|intros w].
  apply errors_bind; [apply errors_lift; intros e; by destruct (AuthorizationSnapshot_new gs); intros [= <-]|intros x].
  apply errors_bind; [|intros; apply errors_ret].
  apply errors_bind; [apply errors_lift; intros e; by destruct (snapshot_digest _ _); intros [= <-]|intros d].
  apply errors_bind; [|intros; by apply errors_execute].
  by intros db e db' [_ [[= ->]|[? _]]]%rewrite_grants_runs.
Qed.

Lemma expire_pending_errors fp now : errors not_expired (expire_pending_credential sha256 fp now).
Proof.
  unfold expire_pending_credential. apply errors_bind; [apply load_snapshot_errors|intros v].
  apply errors_bind.
  { unfold republish_if_changed. case_match; [apply errors_ret|].
    apply errors_bind; [apply republish_errors|intros; apply errors_ret]. }
  intros x. apply errors_bind; [apply errors_lift; unfold i64_try_from; by intros e; case_match; intros [= <-]|].
  intros z. apply errors_bind; [by apply errors_execute|intros; apply errors_ret].
Qed.

Lemma activate_pending_errors fp previous : errors not_expired (activate_pending sha256 fp previous).
Proof.
  unfold activate_pending. apply errors_bind.
  { apply errors_lift. intros e. destruct previous as [bs|]; [|done].
    unfold decode_fp, decode_array. by case_match; intros [= <-]. }
  intros pr. apply errors_bind; [apply load_snapshot_errors|intros v]. apply errors_bind.
  { destruct pr; [|apply errors_ret]. apply errors_bind; [apply republish_errors|intros w].
    apply errors_bind; [by apply errors_execute|intros; apply errors_ret]. }
  intros w. do 2 (apply errors_bind; [by apply errors_execute|intros ?]). apply errors_ret.
Qed.

(** A credential of the fingerprint, in some state. *)
Definition in_state (fp : CertificateFingerprint) (z : Z) db : Prop :=
  ∃ row, agent_credentials db !! fp_bytes fp = Some row ∧ cr_state row = z.

Lemma activate_effect_state fp row db v db' v' : activate_effect fp row db v db' v' → in_state fp 2 db'.
Proof.
  intros [Hrow _ _ Hcred _]. unfold in_state. rewrite Hcred.
  destruct (cr_previous_fingerprint row); rewrite !update_state_lookup, Hrow; cbn;
    (eexists; split; [done|]); by rewrite (decide_True (P := fp_bytes fp = fp_bytes fp)).
Qed.

Lemma expire_effect_state fp now db v db' v' : expire_effect [fp] now db v db' v' → in_state fp 5 db'.
Proof.
  intros [Hpend _ _ Hcred _]. destruct (Hpend fp) as (row & Hrow & _); [set_solver|].
  unfold in_state. rewrite Hcred, Hrow. cbn. rewrite decide_True by (destruct fp; set_solver). by eexists.
Qed.

(** What a completed activation leaves. *)
Definition activated_as (fp : CertificateFingerprint) (res : EResult SnapshotVersion) db db' : Prop :=
  match res with
  | Ok w => in_state fp 2 db' ∧ ∃ v, stored sha256 db' = Ok (Some v) ∧ w = va_version v
  | Err ER_RequestExpired => in_state fp 5 db'
  | Err _ => db' = db
  end.

Lemma from_raw_state z st :
  CredentialState_from_raw z = Ok st →
  z = match st with Pending => 1 | Active => 2 | Retired => 3 | Revoked => 4 | Expired => 5 end.
Proof. unfold CredentialState_from_raw. intros Hs. by repeat case_match; simplify_eq. Qed.

(** The result of the transaction's body; an error rolls it back. *)
Definition body_result (fp : CertificateFingerprint) db (x : EResult (EResult SnapshotVersion)) db1 : Prop :=
  match x with
  | Ok y => activated_as fp y db db1
  | Err e => e = ER_RequestExpired → in_state fp 5 db
  end.

Lemma body_result_Err fp db e db1 : not_expired e → body_result fp db (Err e) db1.
Proof. by intros He ->. Qed.

Lemma pending_result fp now row v db x db1 :
  stored sha256 db = Ok (Some v) → agent_credentials db !! fp_bytes fp = Some row → cr_state row = 1 →
  runs (if (cr_activation_deadline row <? 0) || (cr_activation_deadline row <=? now)
        then expire_pending_credential sha256 fp now ;; commit ER_Storage ;; mret (Err ER_RequestExpired)
        else activate_pending sha256 fp (cr_previous_fingerprint row)) db x db1 →
  body_result fp db x db1.
Proof.
  intros Hst Hrow Hs Hr. case_match.
  - apply runs_bind in Hr as [(e & -> & He%expire_pending_errors)|(w & db2 & He & Hr)];
      [by apply body_result_Err|].
    apply runs_bind in Hr as [(e & -> & [_ [?|?]]%runs_query)|(u & ? & [-> _]%runs_query & [-> ->]%runs_ret)];
      [by simplify_eq; apply body_result_Err|done|].
    eapply expire_pending_runs in He as (v' & _ & Heff); [|done..]. by eapply expire_effect_state.
  - destruct x as [y|e]; [|by apply body_result_Err; eapply activate_pending_errors].
    eapply activate_pending_runs in Hr as (v' & ? & Heff & ->); [|done..].
    split; [by eapply activate_effect_state|eauto].
Qed.

Lemma activate_results r h fp now v db res db' :
  stored sha256 db = Ok (Some v) → runs (activate sha256 r h fp now) db res db' →
  activated_as fp res db db'.
Proof.
  intros Hst Hr. unfold activate in Hr.
  apply runs_bind in Hr as [(? & -> & [-> [[= ->]|?]]%runs_query)|(u & ? & [-> _]%runs_query & Hr)]; [done..|].
  match type of Hr with runs (transaction _ ?b) _ _ _ => set (body := b) in Hr end.
  assert (∀ x db1, runs body db x db1 → body_result fp db x db1) as Hbody.
  { clear Hr. intros x db1 Hr.
    apply runs_bind in Hr as [(? & -> & [_ [?|?]]%runs_query)|(found & ? & [-> [?|[= ->]]]%runs_query & Hr)];
      [by simplify_eq; apply body_result_Err|done..|].
    apply runs_bind in Hr as [(? & -> & [Hx _]%runs_lift)|(row & ? & [Hrow ->]%runs_lift & Hr)].
    { apply body_result_Err. symmetry in Hx. unfold ok_or in Hx. by case_match; simplify_eq. }
    symmetry in Hrow. apply ok_or_Ok, activation_row_Some in Hrow as (Hrow & _ & _).
    apply runs_bind in Hr as [(? & -> & [Hx _]%runs_lift)|(state & ? & [Hs ->]%runs_lift & Hr)].
    { apply body_result_Err. symmetry in Hx. unfold CredentialState_from_raw in Hx. by repeat case_match; simplify_eq. }
    symmetry in Hs. apply from_raw_state in Hs.
    destruct state; try (apply runs_lift in Hr as [-> _]; by apply body_result_Err); [by eapply pending_result| |].
    - apply runs_bind in Hr as [(e & -> & He%load_snapshot_errors)|(cur & ? & [-> Hc]%load_snapshot_runs & Hr)];
        [by apply body_result_Err|].
      apply runs_bind in Hr as [(e & -> & [_ [?|?]]%runs_query)|(u1 & ? & [-> _]%runs_query & [-> ->]%runs_ret)];
        [by simplify_eq; apply body_result_Err|done|]. split; [by exists row|eauto].
    - apply runs_lift in Hr as [-> _]. intros _. by exists row. }
  destruct res as [w|e].
  - apply runs_transaction in Hr as [(? & ? & _)|Hr]; [done|]. by apply Hbody in Hr.
  - apply runs_transaction_Err in Hr as [[-> [->|(db1 & Hr%Hbody)]]|Hr%Hbody]; [done| |done].
    unfold activated_as. case_match; try done. by apply Hr.
Qed.

(** *** Replies to activations *)

(** A state the credential had before the other processes of the refresh. *)
Definition was_in_state ac (fp : bytes) (z : Z) db : Prop :=
  ∃ db1, in_state (MkFingerprint fp) z db1 ∧ db = ac_before ac db1.

Definition activate_reply (refreshing : Access) (fp : bytes) (unchanged : Prop)
    (answer : EnrollmentMessage * EnrollmentRequestOutcome * Service W) : Prop :=
  let '(reply, outcome, s') := answer in
  match reply with
  | Activated version =>
      outcome = OutActivated ∧ published s' ∧
      version ≤ version_raw (va_version (subscription_current (sv_publisher s'))) ∧
      was_in_state refreshing fp 2 (sv_db s')
  | EnrollmentError code =>
      (code = EE_Internal ∧ outcome = OutFailed) ∨
      (code ≠ EE_Internal ∧ outcome = OutRejected ∧
       if decide (code = EE_RequestExpired)
       then published s' ∧ ended fp (sv_db s')
       else unchanged)
  | _ => False
  end.

Lemma serve_activate_spec activation refreshing request_id token fp s :
  serving s → others activation → others refreshing →
  let answer := serve_activate sha256 activation refreshing request_id token fp s in
  serving answer.2 ∧
  activate_reply refreshing fp (sv_db answer.2 = ac_before activation (sv_db s)) answer.
Proof.
  intros Hs Hoa Hor. destruct s as [db p]. unfold serve_activate. cbn [sv_db sv_publisher].
  destruct (spawn activation _ db) as [ans db1] eqn:Hact.
  apply spawn_spec in Hact as (r & Hans & Hrun).
  assert (serving (MkService (ac_before activation db) p)) as Hs1 by (by eapply serving_history).
  assert (serving (MkService db1 p) ∧ activated_as (MkFingerprint fp) r (ac_before activation db) db1)
    as [Hs2 Hres].
  { destruct Hrun as [[-> ->]|(now & Hrun)]; [done|]. split.
    - eapply serving_history; [exact Hs1|]. apply (op_history (OpActivate request_id (sha256 (token_bytes token)) (MkFingerprint fp) now)).
      by exists r.
    - destruct Hs1 as (_ & v & Hst & _). by eapply activate_results. }
  destruct Hans as [->| ->]; [split; [done|by left]|].
  destruct (refresh sha256 refreshing (MkService db1 p)) as [x s'] eqn:Hr.
  destruct (refresh_service _ _ _ _ Hs2 Hor Hr) as (Hs' & Hdb & Hpub). cbn in Hdb.
  destruct r as [w|e].
  - destruct x as [o|e]; cbn [snd]; (split; [done|]); [|by left].
    destruct Hres as (Hstate & v & Hst & ->).
    split_and!; [done|by apply Hpub| |by exists db1].
    destruct (process_advances _ _ (Hor db1) v Hst) as (v' & Hst' & Hv).
    rewrite <-Hdb, Hpub in Hst' by done. injection Hst' as ->. destruct Hv as [->|]; lia.
  - destruct (decide (e = ER_RequestExpired)) as [->|Hne].
    + destruct x as [o|e]; cbn [snd]; (split; [done|]); [|by left].
      right. split_and!; [done..|]. split; [by apply Hpub|]. rewrite Hdb.
      apply (ended_history _ _ (MkService db1 p)); [done|by apply Hor|].
      destruct Hres as (row & Hl & Hz). exists row. split; [done|]. unfold live_row. lia.
    + assert (db1 = ac_before activation db) as -> by (by destruct e).
      assert (serving (repository_reject e (MkService (ac_before activation db) p)).2 ∧
        activate_reply refreshing fp (ac_before activation db = ac_before activation db)
          (repository_reject e (MkService (ac_before activation db) p))) as Hrej; [|by destruct e].
      split; [done|]. destruct e; first [done|by left|by right].
Qed.

Lemma reconcile_tick_serving reconciling refreshing s :
  serving s → others reconciling → others refreshing →
  serving (reconcile_tick sha256 reconciling refreshing s).2.
Proof.
  intros Hs Hoc Hor. destruct s as [db p]. unfold reconcile_tick. cbn [sv_db sv_publisher].
  destruct (spawn reconciling _ db) as [ans db1] eqn:Hrec. apply spawn_spec in Hrec as (r & Hans & Hrun).
  assert (serving (MkService db1 p)) as Hs1.
  { assert (serving (MkService (ac_before reconciling db) p)) as Hs0 by (by eapply serving_history).
    destruct Hrun as [[_ ->]|(now & Hrun)]; [done|]. eapply serving_history; [exact Hs0|].
    apply (op_history (OpReconcile now)). by exists r. }
  destruct Hans as [->| ->]; [done|]. destruct r as [o|e]; [|done].
  destruct (mo_snapshot_changed o); [|done].
  destruct (refresh sha256 refreshing (MkService db1 p)) as [[y|e] s'] eqn:Hr;
    by destruct (refresh_service _ _ _ _ Hs1 Hor Hr).
Qed.

Lemma serving_step s s' : service_step s s' → serving s → serving s'.
Proof.
  intros [config env activation refreshing request s0 He Ha Hr Hq|reconciling refreshing s0 Hc Hr|db' s0 Hh] Hs.
  - destruct request; cbn [serve_request]; try done.
    + destruct Hq. by apply serve_enroll_spec.
    + by apply serve_activate_spec.
  - by apply reconcile_tick_serving.
  - destruct s0 as [db p]. by eapply serving_history.
Qed.

Lemma serving_reachable db0 v0 s :
  stored sha256 db0 = Ok (Some v0) → agent_credentials db0 = ∅ →
  rtc service_step (MkService db0 (authorization_snapshot_channel v0)) s → serving s.
Proof.
  intros Hst Hempty Hr. eapply rtc_invariant; [exact serving_step|exact Hr|].
  split; [unfold in_sync, subscription_current; cbn; by rewrite borrow_channel|].
  exists v0. split_and!; [done| |by left]. intros _. split; intros fp row; cbn; by rewrite Hempty.
Qed.

(** What the published snapshot authorizes for a certificate. *)
Definition grants_of s (fp : bytes) : AgentId → TunnelId → Prop := λ a t,
  authorize (va_snapshot (subscription_current (sv_publisher s))) (MkFingerprint fp) a t = Ok tt.

(** In terms of the database it was loaded from. *)
Lemma published_pair s fp row a t :
  serving s → imports = false → published s → agent_credentials (sv_db s) !! fp = Some row →
  cr_agent_id row = agent_str a → cr_tunnel_id row = tunnel_str t →
  ∀ a' t', grants_of s fp a' t' ↔ live_row row ∧ a' = a ∧ t' = t.
Proof.
  intros Hs Hno Hpub Hl Ha Ht a' t'. unfold grants_of. rewrite (published_authorize _ _ row) by done.
  rewrite Ha, Ht. split; [|naive_solver]. by intros (? & ?%agent_str_inj & ?%tunnel_str_inj).
Qed.

(** C4. What the enrollment server answers.  In a server started on a database
    without credentials, after any requests, reconciliation ticks and transactions
    of other processes (enrollment operations and, if [imports], imports of
    snapshots), with other processes active between any two of its accesses and
    with any statements, clocks and tasks failing, a request is answered in one of
    these ways.
    [Issued] is sent only for an [Enroll], with the certificate on record for that
    request, CSR, agent and tunnel, after publication of the snapshot that is then
    durable; the credential was live in a database to which only the other
    processes before the refresh have been since.  Without imports the published
    snapshot authorizes the certificate for that agent and tunnel and no other,
    exactly if its credential is still live.
    [Activated] is sent after publication of a version at least as large as the
    one it names; the credential was active, and in the same sense only other
    processes can have changed that.  Without imports the published snapshot
    authorizes the certificate exactly if its credential is still live.
    A rejection has changed nothing: the database is what the other processes left.
    The one exception is an activation after its deadline, which has ended the
    credential for good; without imports the published snapshot no longer
    authorizes it.
    [Failed] is counted exactly for internal errors. *)
Theorem enrollment_replies_hold db0 v0 s config env activation refreshing request :
  stored sha256 db0 = Ok (Some v0) → agent_credentials db0 = ∅ →
  rtc service_step (MkService db0 (authorization_snapshot_channel v0)) s →
  env_ok env → others activation → others refreshing → request_ok request →
  let '(reply, outcome, s') := serve_request sha256 config env activation refreshing request s in
  match reply with
  | Issued request_id _ not_after certificate_pem server_ca_pem fp =>
      outcome = OutIssued ∧ server_ca_pem = sc_agent_server_ca_pem config ∧ published s' ∧
      ∃ token next a t csr row,
        request = Enroll request_id token next a t csr ∧
        agent_credentials (sv_db s') !! fp = Some row ∧
        cr_request_id row = request_id_bytes request_id ∧ cr_csr_digest row = sha256 csr ∧
        cr_certificate_pem row = certificate_pem ∧ cr_not_after row = not_after ∧
        cr_agent_id row = agent_str a ∧ cr_tunnel_id row = tunnel_str t ∧
        was_live (ev_refresh env) fp (sv_db s') ∧
        (imports = false → ∀ a' t', grants_of s' fp a' t' ↔ live_row row ∧ a' = a ∧ t' = t)
  | Activated version =>
      outcome = OutActivated ∧ published s' ∧
      version ≤ version_raw (va_version (subscription_current (sv_publisher s'))) ∧
      ∃ request_id token fp, request = Activate request_id token fp ∧
        was_in_state refreshing fp 2 (sv_db s') ∧
        (imports = false → ∀ row, agent_credentials (sv_db s') !! fp = Some row →
           ∀ a t, grants_of s' fp a t ↔
             live_row row ∧ cr_agent_id row = agent_str a ∧ cr_tunnel_id row = tunnel_str t)
  | EnrollmentError EE_Internal => outcome = OutFailed
  | EnrollmentError code =>
      outcome = OutRejected ∧
      (only_others env activation request (sv_db s) (sv_db s') ∨
       ∃ request_id token fp, code = EE_RequestExpired ∧ request = Activate request_id token fp ∧
         published s' ∧ ended fp (sv_db s') ∧
         (imports = false → ∀ a t, ¬ grants_of s' fp a t))
  | _ => False
  end.
Proof.
  intros Hst Hempty Hr He Ha Hrf Hq. pose proof (serving_reachable _ _ _ Hst Hempty Hr) as Hs.
  destruct request as [request_id token next a t csr| |request_id token fp| |]; cbn [serve_request];
    try (split; [done|by left]).
  - destruct Hq as [Hqa Hqt].
    pose proof (serve_enroll_spec config env request_id token next a t csr s Hs He Hqa Hqt) as [Hs' Hspec].
    destruct (serve_enroll _ _ _ _ _ _ _ _ _ _) as [[reply outcome] s']. cbn in Hs'.
    destruct reply as [|rid gen na pem ca fp| | |code]; try done.
    + destruct Hspec as (-> & -> & -> & Hpub & row & Hl & Hid & Hpem & Hna & Hcsr & Hag & Htu & Hlive).
      split_and!; [done..|]. exists token, next, a, t, csr, row. split_and!; [done..|].
      intros Hno. by apply published_pair.
    + destruct Hspec as [[-> ->]|(Hne & -> & Hu)]; [done|]. destruct code; try done; (split; [done|by left]).
  - pose proof (serve_activate_spec activation refreshing request_id token fp s Hs Ha Hrf) as [Hs' Hspec].
    destruct (serve_activate _ _ _ _ _ _ _) as [[reply outcome] s']. cbn in Hs'.
    destruct reply as [| | |version|code]; try done.
    + destruct Hspec as (-> & Hpub & Hv & Hstate). split_and!; [done..|].
      exists request_id, token, fp. split_and!; [done..|]. intros Hno row Hl a t. by apply published_authorize.
    + destruct Hspec as [[-> ->]|(Hne & -> & Hu)]; [done|].
      assert (sv_db s' = ac_before activation (sv_db s) ∨
        ∃ request_id' token' fp', code = EE_RequestExpired ∧
          Activate request_id token fp = Activate request_id' token' fp' ∧ published s' ∧
          ended fp' (sv_db s') ∧ (imports = false → ∀ a t, ¬ grants_of s' fp' a t))
        as Hsame; [|by destruct code].
      case_decide as Hc; [|by left]. destruct Hu as [Hpub Hend]. right.
      exists request_id, token, fp. split_and!; [done..|]. intros Hno a t Hg.
      destruct Hend as (row & Hl & Hd). apply Hd. by eapply published_authorize in Hg as [? _].
Qed.

(** *** Limits of the configuration checks *)

(** [validate] accepts an activation grace equal to the certificate validity.  The
    deadline is computed from a clock read after signing: when a second has passed
    since the certificate's, the deadline lies beyond the certificate's end and the
    commit is refused with [InvalidTime], which the client sees as [Internal]. *)
Lemma full_grace_refused c now signed validity :
  ic_not_after_unix c = signed + as_secs validity →
  ic_activation_deadline_unix c = signed + 1 + as_secs validity →
  commit_issuance sha256 c now = lift (Err ER_InvalidTime).
Proof.
  intros Hn Hd. unfold commit_issuance.
  rewrite (proj2 (Z.ltb_lt (ic_not_after_unix c) (ic_activation_deadline_unix c))) by lia.
  by rewrite orb_true_r.
Qed.

(** A lifetime below one second passes the check against zero, and the token that
    is created has expired: it never authenticates. *)
Lemma subsecond_token_expired a t ttl path now token replaced db contents db' later kind :
  0 < ttl < 1000000000 →
  runs (provision_bootstrap_token sha256 a t ttl path (Some now) (Some token) replaced) db (Ok contents) db' →
  now ≤ later → ¬ authenticated db' (sha256 token) a t later kind.
Proof.
  intros Httl Hr Hlater Hauth. unfold provision_bootstrap_token in Hr.
  case_match; [by apply runs_lift in Hr as [? _]|].
  apply runs_bind in Hr as [(? & ? & _)|(n & ? & [[= ->] ->]%runs_lift & Hr)]; [done|].
  apply runs_bind in Hr as [(? & ? & _)|(expires & ? & [He ->]%runs_lift & Hr)]; [done|].
  symmetry in He. apply ok_or_Ok, checked_add_Some in He as [-> _].
  apply runs_bind in Hr as [(? & ? & _)|(tok & ? & [[= ->] ->]%runs_lift & Hr)]; [done|].
  apply runs_bind in Hr as [(? & ? & _)|(u & ? & [-> _]%runs_query & Hr)]; [done|].
  apply runs_bind in Hr as [(? & ? & _)|(u1 & db1 & [(? & ? & _)|(_ & _ & ->)]%create_bootstrap_token_runs & Hr)];
    [done..|].
  assert (db' = with_tokens (<[sha256 token := MkTokenRow (agent_str a) (tunnel_str t)
    (now + as_secs ttl) 0 0]> (enrollment_bootstrap_tokens db)) db) as ->.
  { destruct replaced; [by apply runs_ret in Hr as [_ ->]|by apply runs_lift in Hr as [? _]]. }
  assert (as_secs ttl = 0) as Hz by (apply Z.div_small; lia).
  destruct kind; cbn in Hauth; rewrite lookup_insert_eq in Hauth.
  - destruct Hauth as (row & [= <-] & _ & _ & _ & Hexp). cbn in Hexp. lia.
  - by destruct Hauth as [? _].
Qed.
End replies.

(** ** An enrollment on concrete values *)

Definition at_once (now : Z) : Access := MkAccess (λ db, db) (Some now) [] false.

Definition sample_env : EnrollEnv :=
  MkEnrollEnv (at_once 500) (Some (Some (MkIssued (bstr "certificate") sample_fp 2000))) (Some 501)
    (at_once 501) (at_once 502).
Definition sample_config : EnrollmentServerConfig :=
  MkServerConfig 64 5000000000 900000000000 60000000000 (bstr "control-plane.sqlite")
    86400000000000 (bstr "server CA").
Definition sample_enroll : EnrollmentMessage :=
  Enroll sample_request (MkToken sample_token) (MkToken sample_renewal) sample_agent sample_tunnel
    (bstr "csr").

(** The database with a token whose hash is that of [sample_token]. *)
Definition with_hashed_token : Database :=
  (exec (create_bootstrap_token (zero_digest sample_token) sample_agent sample_tunnel 1000) database_1).2.
Definition sample_service : Service id :=
  MkService with_hashed_token (authorization_snapshot_channel durable_1).

Lemma at_once_others now : others zero_digest false (at_once now).
Proof. intros db. apply rtc_refl. Qed.

(** Between the commit and the refresh another process revokes the agent. *)
Definition revoking : Access :=
  MkAccess (λ db, (exec (revoke_agent zero_digest sample_agent sample_tunnel 700) db).2)
    (Some 502) [] false.
Definition contested_env : EnrollEnv :=
  MkEnrollEnv (ev_preflight sample_env) (ev_issue sample_env) (ev_clock sample_env)
    (ev_commit sample_env) revoking.

Lemma revoking_others : others zero_digest false revoking.
Proof.
  intros db. apply rtc_once. left. exists (OpRevoke sample_agent sample_tunnel 700).
  eexists. by apply exec_fst.
Qed.

Lemma sample_validates : validate (λ _, true) sample_config = Ok tt.
Proof. reflexivity. Qed.

(** The reply is [Issued], and what the published snapshot grants is nothing. *)
Lemma enrollment_replies_hold_witness :
  let '(reply, outcome, s') :=
    serve_request (W := id) zero_digest sample_config contested_env (at_once 502) (at_once 502)
      sample_enroll sample_service in
  reply = Issued sample_request 2 2000 (bstr "certificate") (bstr "server CA") (fp_bytes sample_fp) ∧
  was_live revoking (fp_bytes sample_fp) (sv_db s') ∧
  ∃ row, agent_credentials (sv_db s') !! fp_bytes sample_fp = Some row ∧
    ∀ a' t', grants_of s' (fp_bytes sample_fp) a' t' ↔
      live_row row ∧ a' = sample_agent ∧ t' = sample_tunnel.
Proof.
  pose proof (enrollment_replies_hold (W := id) zero_digest false database_1 durable_1 sample_service
    sample_config contested_env (at_once 502) (at_once 502) sample_enroll) as Hthm.
  assert ((serve_request (W := id) zero_digest sample_config contested_env (at_once 502) (at_once 502)
      sample_enroll sample_service).1.1 =
    Issued sample_request 2 2000 (bstr "certificate") (bstr "server CA") (fp_bytes sample_fp)) as Hreply
    by (vm_compute; reflexivity).
  destruct (serve_request _ _ _ _ _ _ _) as [[reply outcome] s']. cbn in Hreply. subst reply.
  split; [done|].
  destruct Hthm as (_ & _ & _ & token & next & a & t & csr & row & Heq & Hl & _ & _ & _ & _ & _ & _ & Hw & Hg).
  - exact database_1_stored.
  - vm_compute. reflexivity.
  - apply rtc_once. apply (step_other _ _ with_hashed_token (MkService database_1 _)).
    apply rtc_once. left. exists (OpToken (zero_digest sample_token) sample_agent sample_tunnel 1000).
    exists (Ok tt). unfold with_hashed_token. apply exec_fst. vm_compute. reflexivity.
  - split; [apply at_once_others| |apply at_once_others|exact revoking_others].
    intros certificate [= <-]. split; [reflexivity|done].
  - apply at_once_others.
  - apply at_once_others.
  - split; by apply validate_durable_id_Ok.
  - injection Heq as <- <- <- <- <-. split; [exact Hw|]. exists row. split; [exact Hl|]. by apply Hg.
Defined.
