(* ===== verification/RateLimit.v ===== *)
(** * RateLimit: request-rate admission of the public HTTP ingress

    [crates/edge/src/http_rate_limit.rs]: token buckets, the bounded table of
    per-address buckets with idle eviction, and the admission decision.

    Instants and durations are integers in nanoseconds.  [try_admit] samples the
    clock before it takes the lock, so the instants of successive critical
    sections need not be ordered; the per-address bound takes a bound on how far
    they lag, the other theorems hold for any instants. *)

From S2P Require Import Prelude Net.

Definition TOKEN_SCALE : Z := 1000000000.
Definition PEER_CLEANUP_BATCH : Z := 64.
Definition MAX_HTTP_REQUESTS_PER_SECOND : Z := 1000000.
Definition MAX_HTTP_REQUEST_BURST : Z := 1000000.
Definition MAX_HTTP_RATE_LIMIT_PEERS : Z := 65536.
Definition MIN_HTTP_RATE_LIMIT_IDLE : Z := 1000000.
Definition MAX_HTTP_RATE_LIMIT_IDLE : Z := 24 * 60 * 60 * 1000000000.

(** ** Configuration *)

Record HttpRequestRateLimitConfig : Type := MkRateConfig {
  global_requests_per_second : Z;
  global_burst : Z;
  per_ip_requests_per_second : Z;
  per_ip_burst : Z;
  max_tracked_ips : Z;
  peer_idle_ttl : Z
}.

Inductive HttpRequestRateLimitConfigError : Type :=
| InvalidGlobalRate
| InvalidGlobalBurst
| InvalidPerIpRate
| InvalidPerIpBurst
| PerIpRateExceedsGlobal
| PerIpBurstExceedsGlobal
| InvalidTrackedIpLimit
| InvalidPeerIdleTtl.

Definition default_rate_config : HttpRequestRateLimitConfig :=
  MkRateConfig 100 200 20 40 4096 (5 * 60 * 1000000000).

Definition validate_quota (rate burst : Z)
    (invalid_rate invalid_burst : HttpRequestRateLimitConfigError)
    : Result HttpRequestRateLimitConfigError unit :=
  if (rate =? 0) || (MAX_HTTP_REQUESTS_PER_SECOND <? rate) then Err invalid_rate
  else if (burst <? rate) || (MAX_HTTP_REQUEST_BURST <? burst) then Err invalid_burst
  else Ok tt.

Definition validate (c : HttpRequestRateLimitConfig)
    : Result HttpRequestRateLimitConfigError unit :=
  _ ← validate_quota (global_requests_per_second c) (global_burst c)
        InvalidGlobalRate InvalidGlobalBurst;
  _ ← validate_quota (per_ip_requests_per_second c) (per_ip_burst c)
        InvalidPerIpRate InvalidPerIpBurst;
  if global_requests_per_second c <? per_ip_requests_per_second c
  then Err PerIpRateExceedsGlobal
  else if global_burst c <? per_ip_burst c then Err PerIpBurstExceedsGlobal
  else if (max_tracked_ips c =? 0) || (MAX_HTTP_RATE_LIMIT_PEERS <? max_tracked_ips c)
  then Err InvalidTrackedIpLimit
  else if (peer_idle_ttl c <? MIN_HTTP_RATE_LIMIT_IDLE)
          || (MAX_HTTP_RATE_LIMIT_IDLE <? peer_idle_ttl c)
  then Err InvalidPeerIdleTtl
  else Ok tt.

(** ** Token buckets *)

Record TokenBucket : Type := MkBucket {
  rate : Z;
  capacity : Z;
  tokens : Z;
  last_refill : Z
}.

Definition bucket_new (r burst now : Z) : TokenBucket :=
  MkBucket r (burst * TOKEN_SCALE) (burst * TOKEN_SCALE) now.

(** [now.saturating_duration_since(then)] *)
Definition saturating_duration_since (now since : Z) : Z := Z.max 0 (now - since).

Definition refill (b : TokenBucket) (now : Z) : TokenBucket :=
  if now <=? last_refill b then b
  else
    let elapsed := saturating_duration_since now (last_refill b) in
    let replenished := saturating_mul 128 elapsed (rate b) in
    MkBucket (rate b) (capacity b)
      (Z.min (saturating_add 128 (tokens b) replenished) (capacity b)) now.

Definition retry_after (b : TokenBucket) : option Z :=
  if TOKEN_SCALE <=? tokens b then None
  else
    let deficit := TOKEN_SCALE - tokens b in
    let nanos := saturating_add 128 deficit (rate b - 1) / rate b in
    Some (default (umax 64) (u_try_from 64 nanos)).

Definition consume (b : TokenBucket) : TokenBucket :=
  MkBucket (rate b) (capacity b) (saturating_sub (tokens b) TOKEN_SCALE) (last_refill b).

(** ** The limiter *)

Record PeerBucket : Type := MkPeer { bucket : TokenBucket; last_seen : Z }.

Record RateLimiterState : Type := MkLimiter {
  global : TokenBucket;
  peers : gmap IpAddr PeerBucket;
  peer_order : list IpAddr;
  peak_tracked_peer_ips : Z
}.

Inductive HttpRateLimitRejection : Type :=
| RejectGlobal (retry_after : Z)
| RejectPerIp (retry_after : Z)
| RejectPeerTableFull (retry_after : Z).

Definition limiter_at (c : HttpRequestRateLimitConfig) (now : Z) : RateLimiterState :=
  MkLimiter (bucket_new (global_requests_per_second c) (global_burst c) now) ∅ [] 0.

Definition peer_expired (ps : gmap IpAddr PeerBucket) (peer : IpAddr) (now idle_ttl : Z) : bool :=
  match ps !! peer with
  | Some p => idle_ttl <=? saturating_duration_since now (last_seen p)
  | None => false
  end.

(** The loop body of [cleanup_idle_peers], [n] times. *)
Fixpoint cleanup_loop (n : nat) (s : RateLimiterState) (now idle_ttl : Z) : RateLimiterState :=
  match n with
  | O => s
  | S n' =>
      match peer_order s with
      | [] => s
      | peer :: order =>
          let s' :=
            if peer_expired (peers s) peer now idle_ttl
            then MkLimiter (global s) (delete peer (peers s)) order (peak_tracked_peer_ips s)
            else MkLimiter (global s) (peers s) (order ++ [peer]) (peak_tracked_peer_ips s) in
          cleanup_loop n' s' now idle_ttl
      end
  end.

Definition cleanup_idle_peers (s : RateLimiterState) (now idle_ttl : Z) : RateLimiterState :=
  cleanup_loop (Z.to_nat (Z.min (zlen (peer_order s)) PEER_CLEANUP_BATCH)) s now idle_ttl.

Definition tracked (s : RateLimiterState) : Z := Z.of_nat (size (peers s)).

(** Tracking a peer that is not in the table: a full bucket, at the end of the order. *)
Definition insert_peer (c : HttpRequestRateLimitConfig) (s : RateLimiterState)
    (peer : IpAddr) (now : Z) : RateLimiterState :=
  let ps := <[peer := MkPeer (bucket_new (per_ip_requests_per_second c) (per_ip_burst c) now) now]>
              (peers s) in
  MkLimiter (global s) ps (peer_order s ++ [peer])
    (Z.max (peak_tracked_peer_ips s) (Z.of_nat (size ps))).

(** The critical section from the lookup of the peer bucket on; the [expect]s
    are the [None] outcome. *)
Definition admit_peer (s : RateLimiterState) (peer : IpAddr) (now : Z)
    : option (Result HttpRateLimitRejection unit * RateLimiterState) :=
  p ← peers s !! peer;
  let b := refill (bucket p) now in
  let s1 := MkLimiter (global s) (<[peer := MkPeer b now]> (peers s)) (peer_order s)
              (peak_tracked_peer_ips s) in
  match retry_after b with
  | Some d => Some (Err (RejectPerIp d), s1)
  | None =>
      Some (Ok tt,
        MkLimiter (consume (global s)) (<[peer := MkPeer (consume b) now]> (peers s))
          (peer_order s) (peak_tracked_peer_ips s))
  end.

(** [try_admit_at]; [None] would be a panic of an [expect]. *)
Definition try_admit_at (c : HttpRequestRateLimitConfig) (s : RateLimiterState)
    (peer : IpAddr) (now : Z)
    : option (Result HttpRateLimitRejection unit * RateLimiterState) :=
  let s := MkLimiter (refill (global s) now) (peers s) (peer_order s)
             (peak_tracked_peer_ips s) in
  match retry_after (global s) with
  | Some d => Some (Err (RejectGlobal d), s)
  | None =>
      match peers s !! peer with
      | Some _ => admit_peer s peer now
      | None =>
          let s := cleanup_idle_peers s now (peer_idle_ttl c) in
          if max_tracked_ips c <=? tracked s
          then Some (Err (RejectPeerTableFull (Z.min (peer_idle_ttl c) (60 * 1000000000))), s)
          else admit_peer (insert_peer c s peer now) peer now
      end
  end.

Record HttpRateLimiterStatus : Type := MkRateStatus {
  tracked_peer_ips : Z;
  status_peak_tracked : Z
}.

Definition status (s : RateLimiterState) : HttpRateLimiterStatus :=
  MkRateStatus (tracked s) (peak_tracked_peer_ips s).

(** A history of requests: who asked and the clock reading of the call. *)
Fixpoint run (c : HttpRequestRateLimitConfig) (s : RateLimiterState)
    (calls : list (IpAddr * Z))
    : option (list (Result HttpRateLimitRejection unit) * RateLimiterState) :=
  match calls with
  | [] => Some ([], s)
  | (peer, now) :: calls =>
      '(r, s1) ← try_admit_at c s peer now;
      '(rs, s2) ← run c s1 calls;
      Some (r :: rs, s2)
  end.

(** Number of admitted requests, in all and of one peer. *)
Definition admitted (rs : list (Result HttpRateLimitRejection unit)) : Z :=
  zlen (List.filter is_ok rs).
Definition admitted_of (p : IpAddr) (calls : list (IpAddr * Z))
    (rs : list (Result HttpRateLimitRejection unit)) : Z :=
  zlen (List.filter (λ x, bool_decide (x.1.1 = p) && is_ok x.2) (zip calls rs)).

(** ** Bucket lemmas *)

Record bucket_wf (b : TokenBucket) : Prop := {
  bucket_rate : 1 ≤ rate b ≤ MAX_HTTP_REQUESTS_PER_SECOND;
  bucket_cap : TOKEN_SCALE ≤ capacity b ≤ MAX_HTTP_REQUEST_BURST * TOKEN_SCALE;
  bucket_tokens : 0 ≤ tokens b ≤ capacity b
}.

(** Within the configured bounds the saturating 128-bit arithmetic is exact. *)
Lemma refill_exact b now :
  bucket_wf b →
  refill b now =
    MkBucket (rate b) (capacity b)
      (Z.min (tokens b + rate b * Z.max 0 (now - last_refill b)) (capacity b))
      (Z.max now (last_refill b)).
Proof.
  intros [Hr Hc Ht]. unfold refill.
  destruct (Z.leb_spec now (last_refill b)).
  - rewrite !Z.max_l, !Z.max_r by lia. destruct b; cbn in *. f_equal. nia.
  - rewrite (Z.max_l now) by lia. unfold saturating_duration_since, saturating_mul, saturating_add, umax.
    f_equal. rewrite (Z.mul_comm (rate b)).
    set (r := Z.max 0 _ * rate b). assert (0 ≤ r) by (unfold r; nia).
    assert (capacity b < 2 ^ 128 - 1).
    { unfold MAX_HTTP_REQUEST_BURST, TOKEN_SCALE in *. lia. }
    lia.
Qed.

Lemma refill_wf b now : bucket_wf b → bucket_wf (refill b now).
Proof.
  intros Hb. rewrite refill_exact by done. destruct Hb as [Hr Hc Ht].
  split; cbn; try done. unfold TOKEN_SCALE in *. nia.
Qed.

Lemma refill_params b now : rate (refill b now) = rate b ∧ capacity (refill b now) = capacity b.
Proof. unfold refill. by case_match. Qed.

Lemma consume_wf b : bucket_wf b → bucket_wf (consume b).
Proof.
  intros [Hr Hc Ht]. split; cbn; try done. unfold saturating_sub, TOKEN_SCALE in *. lia.
Qed.

Lemma bucket_new_wf r burst now :
  1 ≤ r ≤ MAX_HTTP_REQUESTS_PER_SECOND → r ≤ burst ≤ MAX_HTTP_REQUEST_BURST →
  bucket_wf (bucket_new r burst now).
Proof. intros. split; cbn; unfold MAX_HTTP_REQUEST_BURST, TOKEN_SCALE in *; lia. Qed.

Lemma retry_after_None b : retry_after b = None ↔ TOKEN_SCALE ≤ tokens b.
Proof. unfold retry_after. destruct (Z.leb_spec TOKEN_SCALE (tokens b)); naive_solver lia. Qed.

Lemma retry_after_Some b d :
  bucket_wf b → retry_after b = Some d ↔
  tokens b < TOKEN_SCALE ∧ d = (TOKEN_SCALE - tokens b + rate b - 1) / rate b.
Proof.
  intros [Hr Hc Ht]. unfold retry_after.
  destruct (Z.leb_spec TOKEN_SCALE (tokens b)); [naive_solver lia|].
  assert (saturating_add 128 (TOKEN_SCALE - tokens b) (rate b - 1)
    = TOKEN_SCALE - tokens b + rate b - 1) as ->.
  { unfold saturating_add, umax, TOKEN_SCALE, MAX_HTTP_REQUESTS_PER_SECOND in *. lia. }
  rewrite u_try_from_in; [naive_solver|].
  unfold u_range, TOKEN_SCALE, MAX_HTTP_REQUESTS_PER_SECOND in *.
  split; [apply Z.div_pos; lia|]. apply Z.div_lt_upper_bound; lia.
Qed.

(** ** Invariant of the limiter *)

Record config_ok (c : HttpRequestRateLimitConfig) : Prop := {
  cfg_global_rate : 1 ≤ global_requests_per_second c ≤ MAX_HTTP_REQUESTS_PER_SECOND;
  cfg_global_burst : global_requests_per_second c ≤ global_burst c ≤ MAX_HTTP_REQUEST_BURST;
  cfg_ip_rate : 1 ≤ per_ip_requests_per_second c ≤ global_requests_per_second c;
  cfg_ip_burst : per_ip_requests_per_second c ≤ per_ip_burst c ≤ global_burst c;
  cfg_tracked : 1 ≤ max_tracked_ips c ≤ MAX_HTTP_RATE_LIMIT_PEERS;
  cfg_ttl : MIN_HTTP_RATE_LIMIT_IDLE ≤ peer_idle_ttl c ≤ MAX_HTTP_RATE_LIMIT_IDLE
}.

(** The fields are unsigned. *)
Definition config_typed (c : HttpRequestRateLimitConfig) : Prop :=
  0 ≤ global_requests_per_second c ∧ 0 ≤ per_ip_requests_per_second c ∧ 0 ≤ max_tracked_ips c.

Lemma validate_quota_Ok r b e1 e2 :
  validate_quota r b e1 e2 = Ok tt ↔
  r ≠ 0 ∧ r ≤ MAX_HTTP_REQUESTS_PER_SECOND ∧ r ≤ b ≤ MAX_HTTP_REQUEST_BURST.
Proof.
  unfold validate_quota.
  destruct (Z.eqb_spec r 0), (Z.ltb_spec MAX_HTTP_REQUESTS_PER_SECOND r); cbn;
    try naive_solver lia.
  destruct (Z.ltb_spec b r), (Z.ltb_spec MAX_HTTP_REQUEST_BURST b); cbn; naive_solver lia.
Qed.

Lemma validate_Ok c : config_typed c → validate c = Ok tt ↔ config_ok c.
Proof.
  intros (? & ? & ?). unfold validate. rewrite bind_Ok. setoid_rewrite bind_Ok. split.
  - intros ([] & Hg%validate_quota_Ok & [] & Hp%validate_quota_Ok & Hr). inv_result.
    rewrite !orb_false_iff, !Z.ltb_ge, ?Z.eqb_neq in *. split; lia.
  - intros [? ? ? ? ? ?]. exists tt. split; [apply validate_quota_Ok; lia|].
    exists tt. split; [apply validate_quota_Ok; lia|].
    rewrite !(proj2 (Z.ltb_ge _ _)) by lia. by rewrite (proj2 (Z.eqb_neq _ _)) by lia.
Qed.

Definition peer_ok (c : HttpRequestRateLimitConfig) (p : PeerBucket) : Prop :=
  bucket_wf (bucket p) ∧ rate (bucket p) = per_ip_requests_per_second c ∧
  capacity (bucket p) = per_ip_burst c * TOKEN_SCALE.

Record limiter_wf (c : HttpRequestRateLimitConfig) (s : RateLimiterState) : Prop := {
  lim_global : bucket_wf (global s);
  lim_rate : rate (global s) = global_requests_per_second c;
  lim_cap : capacity (global s) = global_burst c * TOKEN_SCALE;
  lim_peers : map_Forall (λ _, peer_ok c) (peers s);
  lim_nodup : NoDup (peer_order s);
  lim_dom : ∀ p, p ∈ peer_order s ↔ is_Some (peers s !! p);
  lim_size : tracked s ≤ max_tracked_ips c;
  lim_peak : tracked s ≤ peak_tracked_peer_ips s ≤ max_tracked_ips c
}.

Lemma limiter_at_wf c now : config_ok c → limiter_wf c (limiter_at c now).
Proof.
  intros [? ? ? ? ? ?]. split; cbn; try done.
  - apply bucket_new_wf; lia.
  - constructor.
  - intros p. rewrite lookup_empty. split; [set_solver|by intros [? ?]].
  - unfold tracked. cbn. rewrite map_size_empty. lia.
  - unfold tracked. cbn. rewrite map_size_empty. lia.
Qed.

Lemma size_delete_le {A} (m : gmap IpAddr A) k : (size (delete k m) ≤ size m)%nat.
Proof.
  destruct (m !! k) eqn:E; [rewrite (map_size_delete_Some k m) by eauto; lia|].
  by rewrite delete_id.
Qed.

Lemma cleanup_loop_wf c n s now ttl :
  limiter_wf c s → limiter_wf c (cleanup_loop n s now ttl).
Proof.
  revert s. induction n as [|n IH]; intros s Hs; cbn [cleanup_loop]; [done|].
  destruct (peer_order s) as [|p order] eqn:Ho; [done|]. apply IH.
  destruct Hs as [H1 H2 H3 H4 H5 H6 H7 H8]. rewrite Ho in *.
  apply NoDup_cons in H5 as [Hp Hnd]. case_match.
  - pose proof (size_delete_le (peers s) p).
    split; cbn; unfold tracked in *; cbn in *; try done; try lia.
    + by apply map_Forall_delete.
    + intros q. destruct (decide (q = p)) as [->|].
      * rewrite lookup_delete_eq. split; [done|by intros [? ?]].
      * rewrite lookup_delete_ne, <-H6 by done. set_solver.
  - split; cbn; unfold tracked in *; cbn in *; try done.
    + apply NoDup_app. split_and!; [done|set_solver|apply NoDup_singleton].
    + intros q. rewrite <-H6. set_solver.
Qed.

(** Clean-up keeps every bucket or drops an expired one. *)
Lemma cleanup_loop_lookup n s now ttl p :
  peers (cleanup_loop n s now ttl) !! p = peers s !! p ∨
  peers (cleanup_loop n s now ttl) !! p = None ∧ peer_expired (peers s) p now ttl = true.
Proof.
  revert s. induction n as [|n IH]; intros s; cbn [cleanup_loop]; [by left|].
  destruct (peer_order s) as [|q order]; [by left|].
  destruct (peer_expired (peers s) q now ttl) eqn:Hq; [|apply (IH (MkLimiter _ (peers s) _ _))].
  destruct (decide (p = q)) as [->|Hne].
  - right. split; [|done].
    destruct (IH (MkLimiter (global s) (delete q (peers s)) order (peak_tracked_peer_ips s)))
      as [->|[-> _]]; [|done]. apply lookup_delete_eq.
  - destruct (IH (MkLimiter (global s) (delete q (peers s)) order (peak_tracked_peer_ips s)))
      as [->|[-> He]]; cbn [peers] in *.
    + left. by apply lookup_delete_ne.
    + right. split; [done|]. unfold peer_expired in *. by rewrite lookup_delete_ne in He.
Qed.

Lemma cleanup_loop_global n s now ttl : global (cleanup_loop n s now ttl) = global s.
Proof.
  revert s. induction n as [|n IH]; intros s; cbn [cleanup_loop]; [done|].
  destruct (peer_order s); [done|]. rewrite IH. by case_match.
Qed.

Lemma insert_peer_wf c s p now :
  config_ok c → limiter_wf c s → peers s !! p = None → tracked s < max_tracked_ips c →
  limiter_wf c (insert_peer c s p now).
Proof.
  intros [? ? ? ? ? ?] [H1 H2 H3 H4 H5 H6 H7 H8] Hp Hlt.
  assert (tracked (insert_peer c s p now) = tracked s + 1) as Hsz.
  { unfold tracked. cbn [peers insert_peer]. rewrite map_size_insert_None by done. lia. }
  split; try done; try lia.
  - apply map_Forall_insert_2; [|done]. split_and!; [apply bucket_new_wf; lia|done|done].
  - cbn. apply NoDup_app. split_and!; [done| |apply NoDup_singleton].
    intros q Hq%H6 ->%list_elem_of_singleton. rewrite Hp in Hq. by destruct Hq.
  - intros q. cbn. rewrite elem_of_app, H6, list_elem_of_singleton, lookup_insert_is_Some'.
    naive_solver.
  - unfold tracked in *. cbn [peers insert_peer peak_tracked_peer_ips] in *. lia.
Qed.

(** The peer part of an admission: how the peer's bucket and the global one move. *)
Inductive admit_spec (s : RateLimiterState) (p : IpAddr) (b : PeerBucket) (now : Z) :
    Result HttpRateLimitRejection unit → RateLimiterState → Prop :=
| admit_reject d :
    retry_after (refill (bucket b) now) = Some d →
    admit_spec s p b now (Err (RejectPerIp d))
      (MkLimiter (global s) (<[p := MkPeer (refill (bucket b) now) now]> (peers s))
         (peer_order s) (peak_tracked_peer_ips s))
| admit_accept :
    TOKEN_SCALE ≤ tokens (refill (bucket b) now) →
    admit_spec s p b now (Ok tt)
      (MkLimiter (consume (global s))
         (<[p := MkPeer (consume (refill (bucket b) now)) now]> (peers s))
         (peer_order s) (peak_tracked_peer_ips s)).

Lemma admit_peer_spec s p b now :
  peers s !! p = Some b → ∃ r s', admit_peer s p now = Some (r, s') ∧ admit_spec s p b now r s'.
Proof.
  intros Hb. unfold admit_peer. rewrite Hb. cbn [mbind option_bind].
  destruct (retry_after (refill (bucket b) now)) as [d|] eqn:Hd;
    eexists _, _; (split; [done|]); constructor; [done|by apply retry_after_None].
Qed.

Lemma admit_spec_wf c s p b now r s' :
  limiter_wf c s → peers s !! p = Some b → admit_spec s p b now r s' → limiter_wf c s'.
Proof.
  intros [H1 H2 H3 H4 H5 H6 H7 H8] Hb Hadm. destruct (H4 p b Hb) as (Hw & Hr & Hc).
  assert (∀ (x : PeerBucket), size (<[p:=x]> (peers s)) = size (peers s)) as Hsz.
  { intros. by apply map_size_insert_Some. }
  assert (∀ (x : PeerBucket) q, q ∈ peer_order s ↔ is_Some (<[p:=x]> (peers s) !! q)) as Hdom.
  { intros x q. rewrite H6, lookup_insert_is_Some'. split; [auto|]. intros [<-|?]; eauto. }
  destruct (refill_params (bucket b) now) as [Hr' Hc'].
  destruct Hadm; split; cbn [global peers peer_order peak_tracked_peer_ips]; try done;
    unfold tracked in *; cbn [peers peak_tracked_peer_ips]; rewrite ?Hsz; try done.
  - apply map_Forall_insert_2; [|done]. split_and!; [by apply refill_wf|cbn; congruence..].
  - by apply consume_wf.
  - apply map_Forall_insert_2; [|done].
    split_and!; [by apply consume_wf, refill_wf|cbn; congruence..].
Qed.

(** ** One call *)

Definition refresh (s : RateLimiterState) (now : Z) : RateLimiterState :=
  MkLimiter (refill (global s) now) (peers s) (peer_order s) (peak_tracked_peer_ips s).

Definition fresh_peer (c : HttpRequestRateLimitConfig) (now : Z) : PeerBucket :=
  MkPeer (bucket_new (per_ip_requests_per_second c) (per_ip_burst c) now) now.

Inductive try_spec (c : HttpRequestRateLimitConfig) (s : RateLimiterState) (p : IpAddr) (now : Z) :
    Result HttpRateLimitRejection unit → RateLimiterState → Prop :=
| try_global d :
    retry_after (refill (global s) now) = Some d →
    try_spec c s p now (Err (RejectGlobal d)) (refresh s now)
| try_full s' :
    peers s !! p = None → s' = cleanup_idle_peers (refresh s now) now (peer_idle_ttl c) →
    max_tracked_ips c ≤ tracked s' →
    try_spec c s p now
      (Err (RejectPeerTableFull (Z.min (peer_idle_ttl c) (60 * 1000000000)))) s'
| try_known b r s' :
    TOKEN_SCALE ≤ tokens (refill (global s) now) → peers s !! p = Some b →
    admit_spec (refresh s now) p b now r s' → try_spec c s p now r s'
| try_fresh s1 r s' :
    TOKEN_SCALE ≤ tokens (refill (global s) now) → peers s !! p = None →
    s1 = cleanup_idle_peers (refresh s now) now (peer_idle_ttl c) →
    peers s1 !! p = None → tracked s1 < max_tracked_ips c →
    admit_spec (insert_peer c s1 p now) p (fresh_peer c now) now r s' →
    try_spec c s p now r s'.

Lemma insert_peer_lookup c s p now :
  peers (insert_peer c s p now) !! p = Some (fresh_peer c now).
Proof. apply lookup_insert_eq. Qed.

Lemma try_admit_spec c s p now :
  ∃ r s', try_admit_at c s p now = Some (r, s') ∧ try_spec c s p now r s'.
Proof.
  unfold try_admit_at. fold (refresh s now). cbn [global peers refresh].
  destruct (retry_after (refill (global s) now)) as [d|] eqn:Hg.
  { eexists _, _. split; [done|]. by constructor. }
  apply retry_after_None in Hg. destruct (peers s !! p) as [b|] eqn:Hp.
  { destruct (admit_peer_spec (refresh s now) p b now Hp) as (r & s' & -> & ?).
    eexists _, _. split; [done|]. by eapply try_known. }
  set (s1 := cleanup_idle_peers (refresh s now) now (peer_idle_ttl c)).
  destruct (Z.leb_spec (max_tracked_ips c) (tracked s1)).
  { eexists _, _. split; [done|]. by eapply try_full. }
  destruct (admit_peer_spec (insert_peer c s1 p now) p (fresh_peer c now) now)
    as (r & s' & -> & ?); [apply insert_peer_lookup|].
  eexists _, _. split; [done|]. eapply try_fresh; try done.
  unfold s1, cleanup_idle_peers.
  destruct (cleanup_loop_lookup (Z.to_nat (Z.min (zlen (peer_order (refresh s now)))
    PEER_CLEANUP_BATCH)) (refresh s now) now (peer_idle_ttl c) p) as [->|[-> _]]; done.
Qed.

Lemma refresh_wf c s now : limiter_wf c s → limiter_wf c (refresh s now).
Proof.
  intros [H1 H2 H3 H4 H5 H6 H7 H8]. destruct (refill_params (global s) now).
  split; cbn; try done; [by apply refill_wf|congruence..].
Qed.

Lemma try_spec_wf c s p now r s' :
  config_ok c → limiter_wf c s → try_spec c s p now r s' → limiter_wf c s'.
Proof.
  intros Hc Hs H. pose proof (refresh_wf c s now Hs) as Hr.
  destruct H as [d Hd|s' Hp -> Hm|b r s' Hg Hp Ha|s1 r s' Hg Hp -> Hp1 Hlt Ha].
  - done.
  - by apply cleanup_loop_wf.
  - by eapply admit_spec_wf.
  - eapply admit_spec_wf; [|apply insert_peer_lookup|done].
    apply insert_peer_wf; try done. by apply cleanup_loop_wf.
Qed.

Lemma run_wf c s calls :
  config_ok c → limiter_wf c s →
  ∃ rs s', run c s calls = Some (rs, s') ∧ limiter_wf c s' ∧ length rs = length calls.
Proof.
  intros Hc. revert s. induction calls as [|[p now] calls IH]; intros s Hs; cbn [run].
  { eauto. }
  destruct (try_admit_spec c s p now) as (r & s1 & -> & Ht). cbn [mbind option_bind].
  destruct (IH s1) as (rs & s2 & -> & ? & ?); [by eapply try_spec_wf|].
  cbn [mbind option_bind]. eexists _, _. split_and!; [done|done|cbn; lia].
Qed.

(** ** The global budget *)

Definition cost (r : Result HttpRateLimitRejection unit) : Z :=
  if is_ok r then TOKEN_SCALE else 0.

Lemma admit_spec_global s p b now r s' :
  admit_spec s p b now r s' →
  global s' = if is_ok r then consume (global s) else global s.
Proof. by destruct 1. Qed.

Lemma try_spec_global c s p now r s' :
  try_spec c s p now r s' →
  (is_ok r = true → TOKEN_SCALE ≤ tokens (refill (global s) now)) ∧
  global s' = if is_ok r then consume (refill (global s) now) else refill (global s) now.
Proof.
  destruct 1 as [d Hd|s' Hp -> Hm|b r s' Hg Hp Ha|s1 r s' Hg Hp -> Hp1 Hlt Ha].
  - done.
  - split; [done|]. unfold cleanup_idle_peers. by rewrite cleanup_loop_global.
  - split; [done|]. by rewrite (admit_spec_global _ _ _ _ _ _ Ha).
  - split; [done|]. rewrite (admit_spec_global _ _ _ _ _ _ Ha). cbn [insert_peer global].
    unfold cleanup_idle_peers. by rewrite cleanup_loop_global.
Qed.

Lemma try_spec_budget c s p now r s' :
  limiter_wf c s → try_spec c s p now r s' →
  last_refill (global s') = Z.max now (last_refill (global s)) ∧
  tokens (global s') + cost r ≤
    tokens (global s) + rate (global s) * (last_refill (global s') - last_refill (global s)).
Proof.
  intros Hs [Hok Hg]%try_spec_global. pose proof (lim_global _ _ Hs) as Hb.
  assert (Z.max now (last_refill (global s)) - last_refill (global s)
    = Z.max 0 (now - last_refill (global s))) as He by lia.
  rewrite refill_exact in Hok, Hg by done. unfold cost. destruct (is_ok r); rewrite Hg.
  - cbn in *. specialize (Hok eq_refl). split; [done|].
    unfold saturating_sub. rewrite He. lia.
  - cbn. split; [done|]. rewrite He. lia.
Qed.

Lemma run_budget c s calls rs s' :
  config_ok c → limiter_wf c s → run c s calls = Some (rs, s') →
  last_refill (global s') = foldl (λ t x, Z.max x.2 t) (last_refill (global s)) calls ∧
  tokens (global s') + TOKEN_SCALE * admitted rs ≤
    tokens (global s) + rate (global s) * (last_refill (global s') - last_refill (global s)).
Proof.
  intros Hc. revert s rs. induction calls as [|[p now] calls IH]; intros s rs Hs Hr; cbn [run] in Hr.
  { simplify_eq. split; [done|]. change (admitted []) with 0. lia. }
  destruct (try_admit_spec c s p now) as (r & s1 & Ht & Hspec). rewrite Ht in Hr.
  cbn [mbind option_bind] in Hr.
  destruct (run c s1 calls) as [[rs1 s2]|] eqn:Hr1; [|done]. cbn [mbind option_bind] in Hr.
  simplify_eq. destruct (IH s1 rs1) as [Hl Hb]; [by eapply try_spec_wf|done|].
  destruct (try_spec_budget c s p now r s1 Hs Hspec) as [Hl1 Hb1].
  cbn [foldl snd]. rewrite <-Hl1. split; [done|].
  assert (rate (global s1) = rate (global s)) as Hrate.
  { rewrite (lim_rate c s1), (lim_rate c s); [done|done|by eapply try_spec_wf]. }
  rewrite Hrate in Hb.
  assert (TOKEN_SCALE * admitted (r :: rs1) = cost r + TOKEN_SCALE * admitted rs1) as ->.
  { unfold admitted, cost. cbn [List.filter]. destruct (is_ok r); rewrite ?zlen_cons; lia. }
  lia.
Qed.

(** ** The per-address budget

    A caller reads the clock before it takes the lock, so a critical section may
    run with a reading older than one already used.  [lag] bounds how much older;
    [m] is the latest reading so far. *)

Fixpoint lagging (lag t0 m : Z) (calls : list (IpAddr * Z)) : Prop :=
  match calls with
  | [] => True
  | (_, now) :: calls => t0 ≤ now ∧ m - lag ≤ now ∧ lagging lag t0 (Z.max now m) calls
  end.
Definition latest (t : Z) (calls : list (IpAddr * Z)) : Z := foldl (λ t x, Z.max x.2 t) t calls.

(** The idle time-out is long enough for an idle bucket to fill up, although
    the readings that find it idle and use it again may both be stale. *)
Definition ttl_refills (c : HttpRequestRateLimitConfig) (lag : Z) : Prop :=
  per_ip_burst c * TOKEN_SCALE ≤ per_ip_requests_per_second c * (peer_idle_ttl c - 2 * lag).

Section budget.
Variables (c : HttpRequestRateLimitConfig) (lag t0 : Z).
Hypotheses (Hc : config_ok c) (Hlag : 0 ≤ lag) (Httl : ttl_refills c lag).

(** What peer [p] could still spend by time [m]; an untracked peer would start
    with a full bucket at a reading that is at worst [lag] old. *)
Definition credit (s : RateLimiterState) (p : IpAddr) (m : Z) : Z :=
  match peers s !! p with
  | Some b => tokens (bucket b) + rate (bucket b) * (m - last_refill (bucket b))
  | None =>
      per_ip_burst c * TOKEN_SCALE + per_ip_requests_per_second c * Z.min lag (m - t0)
  end.

(** No bucket was refilled after [m], nor much after its peer was last seen. *)
Definition seen_by (s : RateLimiterState) (m : Z) : Prop :=
  map_Forall (λ _ b, last_refill (bucket b) ≤ Z.min m (last_seen b + lag)) (peers s).

Lemma seen_by_le s m m' : seen_by s m → m ≤ m' → seen_by s m'.
Proof. intros H Hm p b Hb. specialize (H p b Hb). cbn in *. lia. Qed.

Lemma cleanup_seen s now ttl m : seen_by s m → seen_by (cleanup_idle_peers s now ttl) m.
Proof.
  intros H p b Hb. unfold cleanup_idle_peers in Hb.
  destruct (cleanup_loop_lookup (Z.to_nat (Z.min (zlen (peer_order s)) PEER_CLEANUP_BATCH))
    s now ttl p) as [E|[E _]]; rewrite E in Hb; [|done]. by apply (H p b).
Qed.

(** Eviction gives no advantage. *)
Lemma cleanup_credit s now m p :
  limiter_wf c s → seen_by s m → now ≤ m →
  credit (cleanup_idle_peers s now (peer_idle_ttl c)) p m ≤ credit s p m.
Proof.
  intros Hs Hseen Hm. unfold credit, cleanup_idle_peers.
  destruct (cleanup_loop_lookup (Z.to_nat (Z.min (zlen (peer_order s)) PEER_CLEANUP_BATCH))
    s now (peer_idle_ttl c) p) as [->|[-> Hexp]]; [done|].
  unfold peer_expired in Hexp. destruct (peers s !! p) as [b|] eqn:Hb; [|done].
  destruct (lim_peers _ _ Hs p b Hb) as ([[? ?] _ [? ?]] & Hr & _).
  specialize (Hseen p b Hb). cbn in Hseen. apply Z.leb_le in Hexp.
  destruct (cfg_ttl _ Hc) as [Httl1 _]. unfold MIN_HTTP_RATE_LIMIT_IDLE in Httl1.
  unfold saturating_duration_since, ttl_refills in *. rewrite Hr in *. nia.
Qed.

(** Time passing adds at most [rate] per unit to a peer's credit. *)
Lemma credit_elapse s p m m' :
  limiter_wf c s → m ≤ m' →
  credit s p m' ≤ credit s p m + per_ip_requests_per_second c * (m' - m).
Proof.
  intros Hs Hm. unfold credit. destruct (cfg_ip_rate _ Hc).
  destruct (peers s !! p) as [b|] eqn:Hb; [|nia].
  destruct (lim_peers _ _ Hs p b Hb) as (_ & Hr & _). rewrite Hr. nia.
Qed.

Lemma credit_nonneg s p m : limiter_wf c s → seen_by s m → t0 ≤ m → 0 ≤ credit s p m.
Proof.
  intros Hs Hseen Hm. unfold credit. destruct (peers s !! p) as [b|] eqn:Hb.
  - destruct (lim_peers _ _ Hs p b Hb) as ([[? ?] [? ?] [? ?]] & _).
    specialize (Hseen p b Hb). cbn in Hseen. nia.
  - destruct (cfg_ip_rate _ Hc), (cfg_ip_burst _ Hc). unfold TOKEN_SCALE. nia.
Qed.

Definition cost_of (p q : IpAddr) (r : Result HttpRateLimitRejection unit) : Z :=
  if bool_decide (q = p) && is_ok r then TOKEN_SCALE else 0.

Lemma refill_credit b now m :
  bucket_wf b → last_refill b ≤ m → now ≤ m ≤ now + lag →
  last_refill (refill b now) ≤ Z.min m (now + lag) ∧
  tokens (refill b now) + rate b * (m - last_refill (refill b now))
    ≤ tokens b + rate b * (m - last_refill b).
Proof.
  intros Hb Hl Hm. rewrite refill_exact by done. destruct Hb as [[? ?] _ _]. cbn. split; nia.
Qed.

Lemma admit_spec_credit s q b now r s' p m :
  limiter_wf c s → peers s !! q = Some b → seen_by s m → now ≤ m ≤ now + lag →
  admit_spec s q b now r s' →
  seen_by s' m ∧ credit s' p m + cost_of p q r ≤ credit s p m.
Proof.
  intros Hs Hb Hseen Hm Hadm. destruct (lim_peers _ _ Hs q b Hb) as (Hw & _ & _).
  pose proof (Hseen q b Hb) as Hl. cbn in Hl.
  destruct (refill_credit (bucket b) now m Hw) as [Hrl Hrc]; [lia|done|].
  destruct (refill_params (bucket b) now) as [Hrr _]. unfold credit, cost_of.
  destruct Hadm as [d Hd|Hok]; (split; [by apply map_Forall_insert_2|]); cbn [peers is_ok].
  - rewrite andb_false_r. destruct (decide (p = q)) as [->|Hne].
    + rewrite lookup_insert_eq, Hb. cbn. rewrite Hrr. lia.
    + rewrite lookup_insert_ne by done. lia.
  - rewrite andb_true_r. destruct (decide (p = q)) as [->|Hne].
    + rewrite lookup_insert_eq, Hb, bool_decide_eq_true_2 by done. cbn.
      rewrite Hrr. unfold saturating_sub. lia.
    + rewrite lookup_insert_ne, bool_decide_eq_false_2 by done. lia.
Qed.

Lemma try_spec_credit s q now r s' m p :
  limiter_wf c s → seen_by s m → t0 ≤ now → now ≤ m ≤ now + lag → try_spec c s q now r s' →
  seen_by s' m ∧ credit s' p m + cost_of p q r ≤ credit s p m.
Proof.
  intros Hs Hseen Ht Hm H. pose proof (refresh_wf c s now Hs) as Hr.
  assert (seen_by (refresh s now) m) as Hseen' by done.
  assert (credit (refresh s now) p m = credit s p m) as Hcr by done.
  unfold cost_of. destruct H as [d Hd|s' Hp -> _|b r s' Hg Hp Ha|s1 r s' Hg Hp -> Hp1 Hlt Ha].
  - rewrite andb_false_r. split; [done|lia].
  - rewrite andb_false_r. split; [by apply cleanup_seen|].
    pose proof (cleanup_credit (refresh s now) now m p Hr Hseen' (proj1 Hm)). lia.
  - rewrite <-Hcr. by eapply admit_spec_credit.
  - pose proof (cleanup_credit (refresh s now) now m p Hr Hseen' (proj1 Hm)) as Hcl.
    set (s1 := cleanup_idle_peers (refresh s now) now (peer_idle_ttl c)) in *.
    assert (limiter_wf c s1) as Hs1 by (by apply cleanup_loop_wf).
    destruct (admit_spec_credit (insert_peer c s1 q now) q (fresh_peer c now) now r s' p m)
      as [Hn2 Hcred]; [by apply insert_peer_wf|apply insert_peer_lookup| |done|done|].
    { apply map_Forall_insert_2; [cbn; lia|by apply cleanup_seen]. }
    split; [done|]. unfold cost_of in Hcred.
    assert (credit (insert_peer c s1 q now) p m ≤ credit s1 p m); [|lia].
    unfold credit. cbn [peers insert_peer]. destruct (decide (p = q)) as [->|].
    + rewrite lookup_insert_eq, Hp1. cbn. destruct (cfg_ip_rate _ Hc). nia.
    + by rewrite lookup_insert_ne.
Qed.

Lemma admitted_of_cons p q now calls r rs :
  TOKEN_SCALE * admitted_of p ((q, now) :: calls) (r :: rs)
  = cost_of p q r + TOKEN_SCALE * admitted_of p calls rs.
Proof.
  unfold admitted_of, cost_of. cbn [zip zip_with List.filter fst snd].
  destruct (bool_decide (q = p) && is_ok r); rewrite ?zlen_cons; lia.
Qed.

Lemma run_credit s calls rs s' m p :
  limiter_wf c s → seen_by s m → t0 ≤ m → lagging lag t0 m calls →
  run c s calls = Some (rs, s') →
  TOKEN_SCALE * admitted_of p calls rs ≤
    credit s p m + per_ip_requests_per_second c * (latest m calls - m).
Proof.
  revert s rs m. induction calls as [|[q now] calls IH]; intros s rs m Hs Hseen Hm Hord Hr; cbn [run] in Hr.
  { simplify_eq. pose proof (credit_nonneg s' p m Hs Hseen Hm).
    change (admitted_of p [] []) with 0. unfold latest. cbn [foldl]. lia. }
  destruct Hord as (Ht & Hold & Hord).
  destruct (try_admit_spec c s q now) as (r & s1 & Htry & Hspec). rewrite Htry in Hr.
  cbn [mbind option_bind] in Hr.
  destruct (run c s1 calls) as [[rs1 s2]|] eqn:Hr1; [|done]. cbn [mbind option_bind] in Hr.
  simplify_eq.
  destruct (try_spec_credit s q now r s1 (Z.max now m) p) as [Hseen1 Hcr];
    [done|eapply seen_by_le; [done|lia]|done|lia|done|].
  assert (limiter_wf c s1) as Hs1 by (by eapply try_spec_wf).
  specialize (IH s1 rs1 (Z.max now m) Hs1 Hseen1 ltac:(lia) Hord Hr1).
  pose proof (credit_elapse s p m (Z.max now m) Hs ltac:(lia)).
  rewrite admitted_of_cons. unfold latest in *. cbn [foldl snd]. lia.
Qed.
End budget.

(** ** Theorems *)

(** The limiter never panics and its tables stay bounded and consistent: for
    every validated configuration and any request history, with the clock going
    forwards or backwards, every call returns, the eviction order lists exactly
    the tracked addresses once each, and neither the table nor its recorded peak
    exceeds the configured maximum. *)
Theorem rate_limiter_safe c t0 calls :
  config_typed c → validate c = Ok tt →
  ∃ rs s, run c (limiter_at c t0) calls = Some (rs, s) ∧ limiter_wf c s ∧
          tracked_peer_ips (status s) ≤ status_peak_tracked (status s) ≤ max_tracked_ips c.
Proof.
  intros Hty Hv%validate_Ok; [|done].
  destruct (run_wf c (limiter_at c t0) calls) as (rs & s & Hr & Hs & _);
    [done|by apply limiter_at_wf|]. exists rs, s. split_and!; [done|done|apply Hs..].
Qed.

Lemma rate_limiter_safe_witness :
  ∃ rs s, run default_rate_config (limiter_at default_rate_config 0) [(V4 1, 5); (V4 1, 3)]
            = Some (rs, s) ∧ limiter_wf default_rate_config s ∧
          tracked_peer_ips (status s) ≤ status_peak_tracked (status s) ≤ 4096.
Proof.
  apply (rate_limiter_safe default_rate_config 0 [(V4 1, 5); (V4 1, 3)]).
  - repeat split; cbn; lia.
  - reflexivity.
Defined.

(** The global budget: over any history, in whatever order the clock readings
    arrive, the number of admitted requests is at most the burst plus the rate
    times the time from the start to the latest reading. *)
Theorem global_rate_bound c t0 calls rs s :
  config_ok c → run c (limiter_at c t0) calls = Some (rs, s) →
  TOKEN_SCALE * admitted rs ≤
    global_burst c * TOKEN_SCALE +
    global_requests_per_second c * (foldl (λ t x, Z.max x.2 t) t0 calls - t0).
Proof.
  intros Hc Hr.
  destruct (run_budget c (limiter_at c t0) calls rs s Hc (limiter_at_wf c t0 Hc) Hr) as [Hl Hb].
  destruct (run_wf c (limiter_at c t0) calls Hc (limiter_at_wf c t0 Hc)) as (rs' & s' & Hr' & Hs & _).
  rewrite Hr in Hr'. simplify_eq. destruct (lim_global _ _ Hs) as [_ _ [? _]].
  cbn in *. rewrite Hl in Hb. lia.
Qed.

(** Three requests at once against a burst of two. *)
Definition small_config : HttpRequestRateLimitConfig := MkRateConfig 2 2 1 1 3 5000000000.

Lemma small_config_ok : config_ok small_config.
Proof. apply validate_Ok; [repeat split; cbn; lia|reflexivity]. Qed.

Lemma global_rate_bound_witness :
  ∃ rs s, run small_config (limiter_at small_config 0) [(V4 1, 0); (V4 2, 0); (V4 3, 0)] = Some (rs, s) ∧
          TOKEN_SCALE * admitted rs ≤ 2 * TOKEN_SCALE + 2 * (0 - 0).
Proof.
  eexists _, _. split; [vm_compute; reflexivity|].
  apply (global_rate_bound small_config 0 [(V4 1, 0); (V4 2, 0); (V4 3, 0)] _
    (snd (default ([], limiter_at small_config 0)
      (run small_config (limiter_at small_config 0) [(V4 1, 0); (V4 2, 0); (V4 3, 0)])))).
  - exact small_config_ok.
  - vm_compute. reflexivity.
Defined.

(** C14. The per-address budget.  When the clock readings of successive critical
    sections are at most [lag] older than the latest one (readings in order are
    [lag] zero), and the idle time-out exceeds the time to refill a bucket by
    twice that, then eviction from the peer table gives no address an advantage:
    each address is admitted at most its burst plus its rate times the time from
    the start to the latest reading. *)
Theorem per_ip_rate_bound c lag t0 calls rs s p :
  config_ok c → 0 ≤ lag → ttl_refills c lag → lagging lag t0 t0 calls →
  run c (limiter_at c t0) calls = Some (rs, s) →
  TOKEN_SCALE * admitted_of p calls rs ≤
    per_ip_burst c * TOKEN_SCALE + per_ip_requests_per_second c * (latest t0 calls - t0).
Proof.
  intros Hc Hlag Httl Hord Hr.
  assert (seen_by lag (limiter_at c t0) t0) as Hseen by apply map_Forall_empty.
  pose proof (run_credit c lag t0 Hc Hlag Httl _ calls rs s t0 p (limiter_at_wf c t0 Hc) Hseen
    ltac:(lia) Hord Hr) as H.
  unfold credit in H. cbn [limiter_at peers] in H. rewrite lookup_empty in H.
  rewrite Z.sub_diag, Z.min_r, Z.mul_0_r in H by lia. lia.
Qed.

(** The third reading is older than the second. *)
Definition stale_calls : list (IpAddr * Z) :=
  [(V4 1, 0); (V4 2, 900000000); (V4 1, 700000000); (V4 1, 1700000000)].

Lemma per_ip_rate_bound_witness :
  ∃ rs s, run small_config (limiter_at small_config 0) stale_calls = Some (rs, s) ∧
          TOKEN_SCALE * admitted_of (V4 1) stale_calls rs ≤ 1 * TOKEN_SCALE + 1 * (1700000000 - 0).
Proof.
  destruct (run_wf small_config (limiter_at small_config 0) stale_calls
    small_config_ok (limiter_at_wf _ _ small_config_ok)) as (rs & s & Hr & _).
  exists rs, s. split; [exact Hr|].
  apply (per_ip_rate_bound small_config 200000000 0 stale_calls rs s (V4 1)).
  - exact small_config_ok.
  - lia.
  - vm_compute. discriminate.
  - vm_compute. repeat split; discriminate.
  - exact Hr.
Defined.

(** The slack is needed: [last_seen] is set to the reading even when that is
    older than the one it replaces, so a refused call with a stale reading makes
    its peer look idle for longer than it was.  With an idle time-out of exactly
    the refill time, an address is admitted three times in 1.5 seconds at rate
    one and burst one. *)
Definition tight_config : HttpRequestRateLimitConfig := MkRateConfig 10 10 1 1 8 1000000000.
Definition moved_back : list (IpAddr * Z) :=
  [(V4 1, 0); (V4 1, 1000000000); (V4 1, 500000000); (V4 2, 1500000000); (V4 1, 1500000000)].

Lemma stale_reading_resets_budget :
  validate tight_config = Ok tt ∧ ttl_refills tight_config 0 ∧ lagging 500000000 0 0 moved_back ∧
  ∃ rs s, run tight_config (limiter_at tight_config 0) moved_back = Some (rs, s) ∧
    is_ok <$> rs = [true; true; false; true; true] ∧
    per_ip_burst tight_config * TOKEN_SCALE
      + per_ip_requests_per_second tight_config * (latest 0 moved_back - 0)
    < TOKEN_SCALE * admitted_of (V4 1) moved_back rs.
Proof.
  split; [done|]. split; [by vm_compute|]. split; [by vm_compute|].
  eexists _, _. split; [vm_compute; reflexivity|]. split; by vm_compute.
Qed.

(** A configuration that [validate] accepts although an idle bucket is forgotten
    long before it would have refilled. *)
Definition forgetful_config : HttpRequestRateLimitConfig := MkRateConfig 10 10 1 1 8 1000000.

(** Without that relation between time-out, burst and rate, which [validate]
    does not check, the per-address limit fails: an address whose bucket is
    empty is admitted again one millisecond later, a thousand times faster than
    its rate, because another address's arrival evicted it. *)
Theorem idle_eviction_resets_budget :
  validate forgetful_config = Ok tt ∧
  ∃ s, run forgetful_config (limiter_at forgetful_config 0)
         [(V4 1, 0); (V4 2, 1000000); (V4 1, 1000000)] = Some ([Ok tt; Ok tt; Ok tt], s) ∧
  per_ip_burst forgetful_config * TOKEN_SCALE
    + per_ip_requests_per_second forgetful_config * (1000000 - 0)
  < TOKEN_SCALE * admitted_of (V4 1) [(V4 1, 0); (V4 2, 1000000); (V4 1, 1000000)]
                    [Ok tt; Ok tt; Ok tt].
Proof. split; [done|]. eexists. split; [vm_compute; reflexivity|by vm_compute]. Qed.

(** [Retry-After] is exact: a refused bucket admits at a later instant iff at
    least the advertised time has passed since its last refill; the advertised
    time is positive and at most a second. *)
Theorem retry_after_exact b d t :
  bucket_wf b → retry_after b = Some d → last_refill b ≤ t →
  (retry_after (refill b t) = None ↔ d ≤ t - last_refill b) ∧ 0 < d ≤ TOKEN_SCALE.
Proof.
  intros Hb [Hlt ->]%retry_after_Some Ht; [|done].
  rewrite retry_after_None, refill_exact by done. destruct Hb as [[Hr ?] [? ?] [? ?]]. cbn.
  rewrite Z.max_r by lia. set (e := t - last_refill b).
  set (n := TOKEN_SCALE - tokens b).
  assert (0 < n ≤ TOKEN_SCALE) by (unfold n; lia).
  pose proof (Z.div_mod (n + rate b - 1) (rate b) ltac:(lia)) as Hd.
  pose proof (Z.mod_pos_bound (n + rate b - 1) (rate b) ltac:(lia)) as Hm.
  set (d := (n + rate b - 1) / rate b) in *.
  split; [|unfold TOKEN_SCALE in *; nia]. split; intros; unfold n in *; nia.
Qed.

Lemma retry_after_exact_witness :
  (retry_after (refill (MkBucket 2 2000000000 0 0) 500000000) = None ↔ 500000000 ≤ 500000000 - 0)
  ∧ 0 < 500000000 ≤ TOKEN_SCALE.
Proof.
  apply (retry_after_exact (MkBucket 2 2000000000 0 0) 500000000 500000000).
  - split; vm_compute; split; discriminate.
  - reflexivity.
  - vm_compute. discriminate.
Defined.

(** A refusal spends nothing: whatever the reason, the global bucket is only
    refilled; an admission takes exactly one token from it. *)
Theorem refusal_spends_nothing c s p now r s' :
  limiter_wf c s → try_admit_at c s p now = Some (r, s') →
  tokens (global s') + cost r = tokens (refill (global s) now).
Proof.
  intros Hs Ht. destruct (try_admit_spec c s p now) as (r' & s1 & Ht' & Hspec).
  rewrite Ht in Ht'. injection Ht' as <- <-. apply try_spec_global in Hspec as [Hok ->].
  unfold cost. destruct (is_ok r); [|lia]. specialize (Hok eq_refl).
  cbn. unfold saturating_sub. lia.
Qed.

Lemma refusal_spends_nothing_witness :
  ∃ r s', try_admit_at small_config (limiter_at small_config 0) (V4 1) 0 = Some (r, s') ∧
          tokens (global s') + cost r = tokens (refill (global (limiter_at small_config 0)) 0).
Proof.
  destruct (try_admit_spec small_config (limiter_at small_config 0) (V4 1) 0) as (r & s' & H & _).
  exists r, s'. split; [exact H|].
  apply (refusal_spends_nothing small_config (limiter_at small_config 0) (V4 1) 0 r s').
  - exact (limiter_at_wf _ _ small_config_ok).
  - exact H.
Defined.
