(* ===== verification/GenerationReload.v ===== *)
(** * GenerationReload: loading one generation of reloadable files

    [crates/common/src/generation_reload.rs]: a manifest names a generation and
    the SHA-256 digest of every file; a load succeeds only when all files
    match.  The file system is what the reads observe: each path opens to a view
    with its metadata length and the bytes that [read_to_end] yields, which may
    disagree when the file changes in between.  [serde_json] and [sha2] are
    arguments. *)

From S2P Require Import Prelude Text Hex AsyncIo.

Definition MAX_RELOAD_MANIFEST_BYTES : Z := 64 * 1024.
Definition MAX_RELOAD_MATERIAL_BYTES : Z := 1024 * 1024.

(** ** What the reads observe *)

Record Path : Type := MkPath { p_parent : option str; p_file_name : option str }.

#[global] Instance Path_eq_dec : EqDecision Path.
Proof. solve_decision. Defined.
#[global] Program Instance Path_countable : Countable Path :=
  inj_countable' (λ p, (p_parent p, p_file_name p)) (λ p, MkPath p.1 p.2) _.
Next Obligation. by intros []. Qed.

Record FileView : Type := MkView {
  view_len : Result io_error Z;
  view_bytes : Result io_error bytes
}.

Abbreviation FileSystem := (Path → Result io_error FileView).

(** The error kind of an input over its limit, [ErrorKind::InvalidData]. *)
Definition INVALID_DATA : io_error := IoFailed KindInvalidData.

Definition read_bounded (fs : FileSystem) (path : Path) (limit : Z) : Result io_error bytes :=
  file ← fs path;
  len ← view_len file;
  if limit <? len then Err INVALID_DATA
  else
    all ← view_bytes file;
    let bytes := take (Z.to_nat (limit + 1)) all in
    if limit <? zlen bytes then Err INVALID_DATA else Ok bytes.

(** ** Loading *)

Inductive GenerationReloadError : Type :=
| ManifestIo (e : io_error)
| MaterialIo (name : str)
| ManifestSyntax
| InvalidManifest
| InvalidDigest
| FileSet
| DigestMismatch (name : str)
| MissingFile (name : str)
| TaskFailed.

Record GenerationReloadFile : Type := MkReloadFile { grf_name : str; grf_path : Path }.

Record GenerationReload : Type := MkGeneration {
  gr_generation : Z;
  gr_manifest_digest : bytes;
  gr_files : gmap str bytes
}.

Definition gr_file (g : GenerationReload) (name : str) : Result GenerationReloadError bytes :=
  ok_or (MissingFile name) (gr_files g !! name).

Record RawManifest : Type := MkManifest { rm_generation : Z; rm_files : gmap str str }.

Definition decode_digest (value : str) : Result GenerationReloadError bytes :=
  decode_hex32 InvalidDigest value.

Section load.
Context (sha256 : bytes → bytes) (parse_manifest : bytes → option RawManifest).

(** The loop body for one configured file. *)
Definition load_material (fs : FileSystem) (manifest : RawManifest) (file : GenerationReloadFile)
    : Result GenerationReloadError bytes :=
  if bool_decide (grf_name file = []) then Err FileSet
  else
    declared ← ok_or FileSet (rm_files manifest !! grf_name file);
    expected_digest ← decode_digest declared;
    bytes ← map_err (λ _, MaterialIo (grf_name file))
              (read_bounded fs (grf_path file) MAX_RELOAD_MATERIAL_BYTES);
    if negb (bool_decide (sha256 bytes = expected_digest))
    then Err (DigestMismatch (grf_name file))
    else Ok bytes.

Fixpoint load_materials (fs : FileSystem) (manifest : RawManifest)
    (files : list GenerationReloadFile) (loaded : gmap str bytes)
    : Result GenerationReloadError (gmap str bytes) :=
  match files with
  | [] => Ok loaded
  | file :: files =>
      bytes ← load_material fs manifest file;
      load_materials fs manifest files (<[grf_name file := bytes]> loaded)
  end.

Definition load_generation_sync (fs : FileSystem) (manifest_path : Path)
    (files : list GenerationReloadFile) : Result GenerationReloadError GenerationReload :=
  manifest_bytes ← map_err ManifestIo (read_bounded fs manifest_path MAX_RELOAD_MANIFEST_BYTES);
  manifest ← ok_or ManifestSyntax (parse_manifest manifest_bytes);
  if (rm_generation manifest =? 0) || bool_decide (rm_files manifest = ∅)
  then Err InvalidManifest
  else
    let expected : gset str := list_to_set (grf_name <$> files) in
    let declared : gset str := dom (rm_files manifest) in
    if negb (bool_decide (expected = declared))
       || negb (Z.of_nat (size expected) =? zlen files)
    then Err FileSet
    else
      loaded ← load_materials fs manifest files ∅;
      Ok (MkGeneration (rm_generation manifest) (sha256 manifest_bytes) loaded).

(** ** Properties of the loader *)

Lemma read_bounded_Ok fs path limit bs :
  0 ≤ limit →
  read_bounded fs path limit = Ok bs ↔
  ∃ v len, fs path = Ok v ∧ view_len v = Ok len ∧ len ≤ limit ∧
           view_bytes v = Ok bs ∧ zlen bs ≤ limit.
Proof.
  intros Hl. unfold read_bounded. split.
  - intros H. inv_result. rewrite Z.ltb_ge in *.
    match goal with H : view_bytes _ = Ok ?x |- _ => rename x into all end.
    assert (take (Z.to_nat (limit + 1)) all = all) as ->.
    { apply take_ge. unfold zlen in *. rewrite length_take in *. lia. }
    eexists _, _. split_and!; try done.
    unfold zlen in *. rewrite length_take in *. lia.
  - intros (v & len & -> & Hlen & ? & Hb & ?). cbn [mbind result_bind]. rewrite Hlen.
    cbn [mbind result_bind]. rewrite (proj2 (Z.ltb_ge _ _)), Hb by lia. cbn [mbind result_bind].
    rewrite take_ge by (unfold zlen in *; lia). by rewrite (proj2 (Z.ltb_ge _ _)) by lia.
Qed.

(** What one loaded file promises. *)
Definition material_ok (fs : FileSystem) (m : RawManifest) (f : GenerationReloadFile) (bs : bytes) : Prop :=
  grf_name f ≠ [] ∧
  read_bounded fs (grf_path f) MAX_RELOAD_MATERIAL_BYTES = Ok bs ∧
  ∃ d, rm_files m !! grf_name f = Some d ∧ to_ascii_lowercase d = hex_lower (sha256 bs) ∧
       length (sha256 bs) = 32%nat.

Lemma load_material_Ok fs m f bs : load_material fs m f = Ok bs ↔ material_ok fs m f bs.
Proof.
  unfold load_material, material_ok. split.
  - intros H. inv_result. rewrite bool_decide_eq_false in *.
    match goal with H : negb (bool_decide _) = false |- _ =>
      apply negb_false_iff in H; apply bool_decide_eq_true in H end. subst.
    match goal with H : decode_digest _ = Ok _ |- _ => apply decode_hex32_Ok in H as [??] end.
    split_and!; eauto.
  - intros (Hn & Hr & d & Hd & Hx & Hlen). rewrite bool_decide_eq_false_2, Hd by done.
    cbn [ok_or mbind result_bind]. unfold decode_digest.
    rewrite (proj2 (decode_hex32_Ok InvalidDigest d (sha256 bs))) by done.
    cbn [mbind result_bind]. rewrite Hr. cbn [map_err mbind result_bind].
    by rewrite bool_decide_eq_true_2.
Qed.

Lemma load_materials_Ok fs m files acc out :
  NoDup (grf_name <$> files) →
  load_materials fs m files acc = Ok out →
  (∀ f, f ∈ files → ∃ bs, out !! grf_name f = Some bs ∧ material_ok fs m f bs) ∧
  (∀ n, n ∉ grf_name <$> files → out !! n = acc !! n).
Proof.
  revert acc. induction files as [|f files IH]; intros acc Hnd H; cbn [load_materials] in H.
  { simplify_eq. split; [set_solver|done]. }
  rewrite fmap_cons in *. apply NoDup_cons in Hnd as [Hf Hnd].
  apply bind_Ok in H as (bs & Hbs%load_material_Ok & H).
  destruct (IH _ Hnd H) as [Hin Hout]. split.
  - intros g [->|Hg]%elem_of_cons; [|auto]. exists bs. split; [|done].
    rewrite Hout by done. apply lookup_insert_eq.
  - intros n Hn. rewrite Hout by set_solver. apply lookup_insert_ne. set_solver.
Qed.

Lemma load_materials_total fs m files acc :
  (∀ f, f ∈ files → ∃ bs, material_ok fs m f bs) → is_ok (load_materials fs m files acc) = true.
Proof.
  revert acc. induction files as [|f files IH]; intros acc H; [done|]. cbn [load_materials].
  destruct (H f) as [bs Hbs%load_material_Ok]; [set_solver|]. rewrite Hbs. cbn [mbind result_bind].
  apply IH. set_solver.
Qed.

Lemma names_nodup (files : list GenerationReloadFile) :
  Z.of_nat (size (list_to_set (grf_name <$> files) : gset str)) = zlen files ↔
  NoDup (grf_name <$> files).
Proof.
  unfold zlen. rewrite Nat2Z.inj_iff, <-(length_fmap grf_name files).
  generalize (grf_name <$> files). intros l. induction l as [|x l IH]; [split; [constructor|done]|].
  rewrite NoDup_cons, <-IH. cbn [list_to_set length].
  assert (size (list_to_set l : gset str) ≤ length l)%nat as Hle.
  { clear. induction l as [|y l IH]; [done|]. cbn [list_to_set length].
    pose proof (size_union_alt {[y]} (list_to_set l : gset str)) as H. rewrite size_singleton in H.
    pose proof (subseteq_size (list_to_set l ∖ {[y]} : gset str) (list_to_set l) ltac:(set_solver)). lia. }
  destruct (decide (x ∈ l)) as [Hx|Hx].
  - rewrite subseteq_union_1_L by (rewrite singleton_subseteq_l, elem_of_list_to_set; done).
    split; [intros; lia|]. by intros [??].
  - rewrite size_union, size_singleton by set_solver. split; [intros; split; [done|lia]|lia].
Qed.

(** A generation that a consistent manifest describes. *)
Definition generation_ok (fs : FileSystem) (files : list GenerationReloadFile) (mb : bytes)
    (m : RawManifest) (g : GenerationReload) : Prop :=
  parse_manifest mb = Some m ∧
  rm_generation m ≠ 0 ∧ files ≠ [] ∧ NoDup (grf_name <$> files) ∧
  dom (rm_files m) = list_to_set (grf_name <$> files) ∧
  gr_generation g = rm_generation m ∧ gr_manifest_digest g = sha256 mb ∧
  dom (gr_files g) = list_to_set (grf_name <$> files) ∧
  (∀ f, f ∈ files → ∃ bs, gr_files g !! grf_name f = Some bs ∧ material_ok fs m f bs).

Lemma load_materials_map fs m files out :
  NoDup (grf_name <$> files) → load_materials fs m files ∅ = Ok out →
  dom out = list_to_set (grf_name <$> files).
Proof.
  intros Hnd H. destruct (load_materials_Ok _ _ _ _ _ Hnd H) as [Hin Hout].
  apply set_eq. intros n. rewrite elem_of_dom, elem_of_list_to_set. split.
  - intros Hs. destruct (decide (n ∈ grf_name <$> files)) as [|Hn]; [done|].
    rewrite Hout, lookup_empty in Hs by done. by destruct Hs.
  - intros (f & -> & Hf)%list_elem_of_fmap. destruct (Hin f Hf) as (bs & ? & _). eauto.
Qed.

Lemma load_generation_Ok fs manifest_path files g :
  load_generation_sync fs manifest_path files = Ok g ↔
  ∃ mb m, read_bounded fs manifest_path MAX_RELOAD_MANIFEST_BYTES = Ok mb ∧
          generation_ok fs files mb m g.
Proof.
  unfold load_generation_sync. split.
  - intros H. inv_result. rewrite !orb_false_iff, !negb_false_iff, bool_decide_eq_true,
      bool_decide_eq_false, Z.eqb_neq, Z.eqb_eq, names_nodup in *. destruct_and!.
    match goal with H : load_materials _ _ _ _ = Ok _ |- _ =>
      pose proof (load_materials_map _ _ _ _ ltac:(done) H);
      destruct (load_materials_Ok _ _ _ _ _ ltac:(done) H) as [Hin _] end.
    eexists _, _. split; [done|]. split_and!; cbn [gr_generation gr_manifest_digest gr_files]; try done.
    intros ->. match goal with H : list_to_set _ = dom _ |- _ => symmetry in H;
      apply dom_empty_inv_L in H end. done.
  - intros (mb & m & -> & Hm & Hg & Hf & Hnd & Hdom & Hg' & Hd & Hdom' & Hin).
    cbn [map_err mbind result_bind]. rewrite Hm. cbn [ok_or mbind result_bind].
    rewrite (proj2 (Z.eqb_neq _ _)) by done. rewrite bool_decide_eq_false_2.
    2:{ intros He. rewrite He, dom_empty_L in Hdom. destruct files; [done|set_solver]. }
    rewrite bool_decide_eq_true_2 by done. rewrite (proj2 (Z.eqb_eq _ _)) by (by apply names_nodup).
    cbn [negb orb].
    assert (is_ok (load_materials fs m files ∅) = true) as (out & Hout)%is_ok_true.
    { apply load_materials_total. intros f (bs & _ & Hbs)%Hin. eauto. }
    rewrite Hout. cbn [mbind result_bind]. destruct g as [gen dg gfiles]. cbn in *. subst.
    do 2 f_equal. apply map_eq. intros n.
    destruct (load_materials_Ok _ _ _ _ _ Hnd Hout) as [Hin' Hout'].
    destruct (decide (n ∈ grf_name <$> files)) as [(f & -> & Hf')%list_elem_of_fmap|Hn].
    + destruct (Hin f Hf') as (bs & -> & _ & Hr & _), (Hin' f Hf') as (bs' & -> & _ & Hr' & _).
      congruence.
    + rewrite Hout' by done. symmetry. rewrite lookup_empty. apply not_elem_of_dom.
      by rewrite Hdom', elem_of_list_to_set.
Qed.

(** A generation loads exactly when it is complete and consistent: a readable
    manifest with a non-zero generation declares precisely the configured
    names, and every configured file is readable, at most one mebibyte and
    hashes to its declared digest; the loaded generation then holds those bytes,
    under those names and no others.  In every other case the load fails. *)
Theorem load_generation_exact fs manifest_path files g :
  load_generation_sync fs manifest_path files = Ok g ↔
  ∃ manifest_bytes m,
    read_bounded fs manifest_path MAX_RELOAD_MANIFEST_BYTES = Ok manifest_bytes ∧
    parse_manifest manifest_bytes = Some m ∧
    rm_generation m ≠ 0 ∧ files ≠ [] ∧ NoDup (grf_name <$> files) ∧
    dom (rm_files m) = list_to_set (grf_name <$> files) ∧
    gr_generation g = rm_generation m ∧ gr_manifest_digest g = sha256 manifest_bytes ∧
    dom (gr_files g) = list_to_set (grf_name <$> files) ∧
    (∀ f, f ∈ files → ∃ bs, gr_files g !! grf_name f = Some bs ∧ material_ok fs m f bs).
Proof. apply load_generation_Ok. Qed.
End load.
