(* ===== verification/CredentialBundle.v ===== *)
(** * CredentialBundle: publishing the Agent's credentials on disk

    [crates/common/src/credential_bundle.rs]: three credential files and a reload
    manifest are replaced one after the other, the manifest last, each through a
    temporary file.  The disk holds the files and a schedule of faults: an
    operation may fail, possibly after writing a prefix, and a crash makes every
    later operation fail, so the states a run with some schedule ends in are the
    states a crash or a concurrent reader can observe.  Directories are not
    represented. *)

From S2P Require Import Prelude Text Hex AsyncIo GenerationReload.

(** ** The disk *)

Inductive Fault : Type := Works | Fails (written : nat) | Crash (written : nat).

(** A file is its permission bits and its contents. *)
Record Disk : Type := MkDisk {
  disk_files : gmap Path (Z * bytes);
  disk_next_temporary : Z;
  disk_faults : list Fault
}.

Inductive CredentialBundleError : Type := InvalidPath | InvalidMaterial | ManifestError | BundleIo.

Definition DiskM (A : Type) : Type := Disk → Result CredentialBundleError A * Disk.

#[global] Instance disk_ret : MRet DiskM := λ A a d, (Ok a, d).
#[global] Instance disk_bind : MBind DiskM := λ A B f m d,
  match m d with (Ok a, d') => f a d' | (Err e, d') => (Err e, d') end.

Definition disk_lift {A} (r : Result CredentialBundleError A) : DiskM A := λ d, (r, d).

(** The fate of the next operation: [None] if it works, else what it wrote. *)
Definition next_fault (d : Disk) : option nat * Disk :=
  match disk_faults d with
  | [] => (None, d)
  | Works :: fs => (None, MkDisk (disk_files d) (disk_next_temporary d) fs)
  | Fails n :: fs => (Some n, MkDisk (disk_files d) (disk_next_temporary d) fs)
  | Crash n :: fs => (Some n, MkDisk (disk_files d) (disk_next_temporary d) (Crash 0 :: fs))
  end.

Definition set_files (d : Disk) (m : gmap Path (Z * bytes)) : Disk :=
  MkDisk m (disk_next_temporary d) (disk_faults d).

(** One operation: its effect when it works and what it leaves when it fails. *)
Definition disk_op (eff : gmap Path (Z * bytes) → option (gmap Path (Z * bytes)))
    (partial : nat → gmap Path (Z * bytes) → gmap Path (Z * bytes)) : DiskM unit := λ d,
  let '(fault, d) := next_fault d in
  match fault with
  | Some n => (Err BundleIo, set_files d (partial n (disk_files d)))
  | None =>
      match eff (disk_files d) with
      | Some m => (Ok tt, set_files d m)
      | None => (Err BundleIo, d)
      end
  end.

Definition untouched (n : nat) (m : gmap Path (Z * bytes)) : gmap Path (Z * bytes) := m.

Definition create_dir_all (parent : str) : DiskM unit := disk_op Some untouched.
(** [create_new]: fails when the file is there. *)
Definition open_new (p : Path) (mode : Z) : DiskM unit :=
  disk_op (λ m, match m !! p with Some _ => None | None => Some (<[p := (mode, [])]> m) end)
    untouched.
Definition write_all (p : Path) (bs : bytes) : DiskM unit :=
  disk_op (λ m, Some (alter (λ f, (f.1, f.2 ++ bs)) p m))
    (λ n m, alter (λ f, (f.1, f.2 ++ take n bs)) p m).
Definition sync_all : DiskM unit := disk_op Some untouched.
(** [Path::exists] reads an error as absence. *)
Definition path_exists (p : Path) : DiskM bool := λ d,
  let '(fault, d) := next_fault d in
  (Ok (match fault with Some _ => false | None => bool_decide (is_Some (disk_files d !! p)) end), d).
Definition remove_file (p : Path) : DiskM unit :=
  disk_op (λ m, match m !! p with Some _ => Some (delete p m) | None => None end) untouched.
Definition rename (from to : Path) : DiskM unit :=
  disk_op (λ m, match m !! from with Some f => Some (<[to := f]> (delete from m)) | None => None end)
    untouched.

(** ** Replacing a file *)

Definition private_mode (private : bool) : Z := if private then 384 else 420.

Definition temporary (parent name : str) (pid n : Z) : Path :=
  MkPath (Some parent)
    (Some (bstr "." ++ name ++ bstr "." ++ decimal pid ++ bstr "."
           ++ decimal n ++ bstr ".tmp")).

(** [NEXT_TEMPORARY_FILE.fetch_add(1)] on a 64-bit counter. *)
Definition fetch_temporary : DiskM Z := λ d,
  (Ok (disk_next_temporary d),
   MkDisk (disk_files d) (wrap 64 (disk_next_temporary d + 1)) (disk_faults d)).

(** The closure of [replace_file]. *)
Definition replace_steps (tmp path : Path) (bs : bytes) (private : bool) : DiskM unit :=
  _ ← open_new tmp (private_mode private);
  _ ← write_all tmp bs;
  _ ← sync_all;
  there ← path_exists path;
  _ ← (if there : bool then remove_file path else mret tt);
  rename tmp path.

(** The closure's result, the temporary file removed when it failed. *)
Definition replace_with_cleanup (tmp path : Path) (bs : bytes) (private : bool) : DiskM unit := λ d,
  let '(result, d) := replace_steps tmp path bs private d in
  let d := if is_ok result then d else (remove_file tmp d).2 in
  (result, d).

Section publish.
(** The process identifier, the digest and the JSON encoder. *)
Context (pid : Z) (sha256 : bytes → bytes) (manifest_to_vec : RawManifest → option bytes).

Definition replace_file (path : Path) (bs : bytes) (private : bool) : DiskM unit :=
  parent ← disk_lift (ok_or InvalidPath (p_parent path));
  _ ← create_dir_all parent;
  name ← disk_lift (ok_or InvalidPath (p_file_name path ≫= from_utf8));
  n ← fetch_temporary;
  replace_with_cleanup (temporary parent name pid n) path bs private.

Definition replace_secret_file (path : Path) (bs : bytes) : DiskM unit :=
  if bool_decide (p_parent path = None) || bool_decide (bs = [])
  then disk_lift (Err InvalidPath) else replace_file path bs true.

(** ** Publishing a bundle *)

Record AgentCredentialPaths : Type := MkCredentialPaths {
  acp_server_ca : Path;
  acp_client_certificate : Path;
  acp_client_private_key : Path;
  acp_reload_manifest : Path
}.

Definition validate_paths (ps : AgentCredentialPaths) : Result CredentialBundleError unit :=
  if existsb (λ p, bool_decide (p_parent p = None))
       [acp_server_ca ps; acp_client_certificate ps; acp_client_private_key ps;
        acp_reload_manifest ps]
  then Err InvalidPath else Ok tt.

Definition digest_hex (bs : bytes) : str := hex_lower (sha256 bs).

Definition credential_manifest (generation : Z) (ca cert key : bytes) : RawManifest :=
  MkManifest generation
    (<[bstr "client_private_key" := digest_hex key]>
      (<[bstr "client_certificate" := digest_hex cert]>
        (<[bstr "server_ca" := digest_hex ca]> ∅))).

Definition publish_agent_credential_bundle (ps : AgentCredentialPaths) (generation : Z)
    (ca cert key : bytes) : DiskM unit :=
  _ ← disk_lift (validate_paths ps);
  _ ← disk_lift (if (generation =? 0) || bool_decide (ca = []) || bool_decide (cert = [])
                    || bool_decide (key = [])
                 then Err InvalidMaterial else Ok tt);
  _ ← replace_file (acp_server_ca ps) ca false;
  _ ← replace_file (acp_client_certificate ps) cert false;
  _ ← replace_file (acp_client_private_key ps) key true;
  manifest ← disk_lift (ok_or ManifestError
    (manifest_to_vec (credential_manifest generation ca cert key)));
  replace_file (acp_reload_manifest ps) manifest false.

(** ** One replacement *)

Definition is_temporary (p : Path) : bool :=
  match p_file_name p with
  | Some n => bool_decide (bstr ".tmp" `suffix_of` n)
  | None => false
  end.

Lemma temporary_is_temporary parent name n :
  is_temporary (temporary parent name pid n) = true.
Proof.
  unfold is_temporary, temporary. cbn [p_file_name]. apply bool_decide_eq_true.
  do 6 apply suffix_app_r. reflexivity.
Qed.

(** Disks that agree up to temporary files. *)
Record agree (m m' : gmap Path (Z * bytes)) : Prop := mk_agree {
  agree_at q : is_temporary q = false → m !! q = m' !! q
}.

#[local] Instance agree_equiv : Equivalence agree.
Proof.
  split; [done|by intros m m' [H]; split; intros q Hq; symmetry; apply H|].
  intros m1 m2 m3 [H1] [H2]. split. intros q Hq. rewrite H1 by done. by apply H2.
Qed.
#[local] Instance agree_insert p x : Proper (agree ==> agree) (insert p x).
Proof.
  intros m m' [H]. split. intros q Hq. destruct (decide (p = q)) as [->|]; [by rewrite !lookup_insert_eq|].
  rewrite !lookup_insert_ne by done. by apply H.
Qed.
#[local] Instance agree_delete p : Proper (agree ==> agree) (delete p).
Proof.
  intros m m' [H]. split. intros q Hq. destruct (decide (p = q)) as [->|]; [by rewrite !lookup_delete_eq|].
  rewrite !lookup_delete_ne by done. by apply H.
Qed.

Lemma agree_temporary tmp x m : is_temporary tmp = true → agree (<[tmp := x]> m) m.
Proof. intros Ht. split. intros q Hq. apply lookup_insert_ne. congruence. Qed.
Lemma agree_delete_temporary tmp m : is_temporary tmp = true → agree (delete tmp m) m.
Proof. intros Ht. split. intros q Hq. apply lookup_delete_ne. congruence. Qed.

Lemma disk_bind_inv {A B} (m : DiskM A) (f : A → DiskM B) d r d' :
  (m ≫= f) d = (r, d') →
  (∃ a d1, m d = (Ok a, d1) ∧ f a d1 = (r, d')) ∨ (∃ e, m d = (Err e, d') ∧ r = Err e).
Proof.
  unfold mbind, disk_bind. destruct (m d) as [[a|e] d1]; intros H; [left; eauto|].
  right. simplify_eq. eauto.
Qed.

Lemma next_fault_files d : disk_files (next_fault d).2 = disk_files d.
Proof. unfold next_fault. by repeat case_match. Qed.

Lemma disk_op_inv eff partial d r d' :
  disk_op eff partial d = (r, d') →
  (r = Ok tt ∧ eff (disk_files d) = Some (disk_files d')) ∨
  (r = Err BundleIo ∧
   (disk_files d' = disk_files d ∨ ∃ n, disk_files d' = partial n (disk_files d))).
Proof.
  unfold disk_op. pose proof (next_fault_files d) as Hf.
  destruct (next_fault d) as [[n|] d1]; cbn [snd] in Hf; rewrite <-Hf.
  - intros [= <- <-]. right. cbn. eauto.
  - destruct (eff (disk_files d1)) as [m|] eqn:He; intros [= <- <-]; [by left|by right; auto].
Qed.

(** A failed operation that leaves nothing behind. *)
Lemma untouched_inv eff d r d' :
  disk_op eff untouched d = (r, d') →
  (r = Ok tt ∧ eff (disk_files d) = Some (disk_files d')) ∨
  (r = Err BundleIo ∧ disk_files d' = disk_files d).
Proof. intros [?|[? [?|[n ?]]]]%disk_op_inv; auto. Qed.

(** What a replacement of [path] leaves: success writes the new file, and a
    failure keeps the old one or loses it. *)
Definition replaced (path : Path) (file : Z * bytes) (m : gmap Path (Z * bytes))
    (r : Result CredentialBundleError unit) (m' : gmap Path (Z * bytes)) : Prop :=
  match r with
  | Ok _ => agree m' (<[path := file]> m)
  | Err _ => agree m' m ∨ agree m' (delete path m)
  end.

Lemma replace_tail_spec tmp path d r d' m file :
  is_temporary tmp = true → is_temporary path = false →
  disk_files d = <[tmp := file]> m →
  (there ← path_exists path;
   _ ← (if there : bool then remove_file path else mret tt);
   rename tmp path) d = (r, d') →
  replaced path file m r (disk_files d').
Proof.
  intros Ht Hp Hd H. assert (tmp ≠ path) as Hne by congruence.
  apply disk_bind_inv in H as [(there & d1 & He & H)|(e & He & _)].
  2:{ unfold path_exists in He. by destruct (next_fault d). }
  assert (disk_files d1 = <[tmp := file]> m) as Hd1.
  { unfold path_exists in He. pose proof (next_fault_files d) as Hf.
    destruct (next_fault d). cbn in Hf. simplify_eq. congruence. }
  apply disk_bind_inv in H as [([] & d2 & Hr & H)|(e & Hr & ->)].
  - assert (disk_files d2 = <[tmp := file]> m ∨ disk_files d2 = delete path (<[tmp := file]> m)) as Hd2.
    { destruct there; [|injection Hr as <-; by left].
      apply untouched_inv in Hr as [[_ Hr]|[? ?]]; [|done].
      rewrite Hd1 in Hr. destruct (<[tmp := file]> m !! path); [|done]. injection Hr as <-. by right. }
    apply untouched_inv in H as [[-> H]|[-> H]]; cbn [replaced].
    + destruct Hd2 as [Hd2|Hd2]; rewrite Hd2 in H;
        rewrite ?lookup_delete_ne, lookup_insert_eq in H by done;
        injection H as <-; rewrite (agree_delete_temporary tmp) by done.
      * by rewrite (agree_temporary tmp).
      * by rewrite delete_insert_ne, (agree_temporary tmp), insert_delete_eq.
    + rewrite H. destruct Hd2 as [-> | ->]; rewrite (agree_temporary tmp) by done; [by left|by right].
  - destruct there; [|done]. apply untouched_inv in Hr as [[? _]|[_ ->]]; [done|].
    cbn [replaced]. left. rewrite Hd1. by apply agree_temporary.
Qed.

Lemma replace_steps_spec tmp path bs private d r d' :
  is_temporary tmp = true → is_temporary path = false →
  replace_steps tmp path bs private d = (r, d') →
  replaced path (private_mode private, bs) (disk_files d) r (disk_files d').
Proof.
  intros Ht Hp H. unfold replace_steps in H.
  apply disk_bind_inv in H as [([] & d1 & Ho & H)|(e & Ho & ->)].
  2:{ apply untouched_inv in Ho as [[? _]|[_ ->]]; [done|]. by left. }
  apply untouched_inv in Ho as [[_ Ho]|[? _]]; [|done].
  destruct (disk_files d !! tmp) eqn:Hn; [done|]. injection Ho as Ho.
  apply disk_bind_inv in H as [([] & d2 & Hw & H)|(e & Hw & ->)].
  2:{ apply disk_op_inv in Hw as [[? _]|[_ Hw]]; [done|]. left.
      destruct Hw as [-> |[n ->]]; rewrite <-Ho; [by apply agree_temporary|].
      by rewrite alter_insert_eq, (agree_temporary tmp). }
  apply disk_op_inv in Hw as [[_ Hw]|[? _]]; [|done]. injection Hw as Hw.
  rewrite <-Ho, alter_insert_eq in Hw.
  apply disk_bind_inv in H as [([] & d3 & Hs & H)|(e & Hs & ->)].
  2:{ apply untouched_inv in Hs as [[? _]|[_ ->]]; [done|]. left. rewrite <-Hw.
      by apply agree_temporary. }
  apply untouched_inv in Hs as [[_ [= Hs]]|[? _]]; [|done].
  eapply replace_tail_spec; [done|done| |exact H]. by rewrite <-Hs, <-Hw.
Qed.

Lemma remove_temporary tmp d :
  is_temporary tmp = true → agree (disk_files (remove_file tmp d).2) (disk_files d).
Proof.
  intros Ht. destruct (remove_file tmp d) as [r d'] eqn:H. cbn [snd].
  apply untouched_inv in H as [[_ H]|[_ ->]]; [|done].
  destruct (disk_files d !! tmp); [|done]. injection H as <-. by apply agree_delete_temporary.
Qed.

Lemma replaced_agree path file m r m1 m2 :
  agree m2 m1 → replaced path file m r m1 → replaced path file m r m2.
Proof. intros H. unfold replaced. destruct r; rewrite H; done. Qed.

Lemma replace_file_spec path bs private d r d' :
  is_temporary path = false → replace_file path bs private d = (r, d') →
  replaced path (private_mode private, bs) (disk_files d) r (disk_files d').
Proof.
  intros Hp H. unfold replace_file in H.
  apply disk_bind_inv in H as [(parent & d1 & [= _ <-] & H)|(e & [= _ <-] & ->)]; [|by left].
  apply disk_bind_inv in H as [([] & d2 & Hc & H)|(e & Hc & ->)].
  2:{ apply untouched_inv in Hc as [[? _]|[_ ->]]; [done|]. by left. }
  apply untouched_inv in Hc as [[_ [= Hc]]|[? _]]; [|done]. rewrite Hc.
  apply disk_bind_inv in H as [(name & d3 & [= _ <-] & H)|(e & [= _ <-] & ->)]; [|by left].
  apply disk_bind_inv in H as [(n & d4 & [= <- <-] & H)|(e & [=] & _)].
  unfold replace_with_cleanup in H. set (tmp := temporary _ _ _ _) in *.
  assert (is_temporary tmp = true) as Ht by apply temporary_is_temporary.
  destruct (replace_steps tmp path bs private _) as [r1 d5] eqn:Hs. injection H as <- <-.
  apply replace_steps_spec in Hs; [|done..]. cbn [disk_files] in Hs.
  destruct (is_ok r1); [done|]. eapply replaced_agree; [by apply remove_temporary|done].
Qed.

(** ** A whole bundle *)

Section bundle.
Context (ps : AgentCredentialPaths) (generation : Z) (ca cert key : bytes).

Definition bundle_paths : list Path :=
  [acp_server_ca ps; acp_client_certificate ps; acp_client_private_key ps; acp_reload_manifest ps].

Definition new_manifest : option bytes :=
  manifest_to_vec (credential_manifest generation ca cert key).

(** What each configured path is to hold. *)
Definition new_file (p : Path) : option (Z * bytes) :=
  if decide (p = acp_server_ca ps) then Some (420, ca)
  else if decide (p = acp_client_certificate ps) then Some (420, cert)
  else if decide (p = acp_client_private_key ps) then Some (384, key)
  else if decide (p = acp_reload_manifest ps) then (λ mb, (420, mb)) <$> new_manifest
  else None.

Hypothesis (Hdistinct : NoDup bundle_paths).
Hypothesis (Htmp : Forall (λ p, is_temporary p = false) bundle_paths).

Lemma distinct_paths :
  acp_server_ca ps ≠ acp_client_certificate ps ∧ acp_server_ca ps ≠ acp_client_private_key ps ∧
  acp_server_ca ps ≠ acp_reload_manifest ps ∧
  acp_client_certificate ps ≠ acp_client_private_key ps ∧
  acp_client_certificate ps ≠ acp_reload_manifest ps ∧
  acp_client_private_key ps ≠ acp_reload_manifest ps.
Proof. unfold bundle_paths in Hdistinct. rewrite !NoDup_cons in Hdistinct. set_solver. Qed.

(** Where a run of the publisher can stop: before or after any of the
    replacements, or inside one, with that file lost. *)
Inductive stopped (m : gmap Path (Z * bytes)) :
    list (Path * (Z * bytes)) → gmap Path (Z * bytes) → Prop :=
| stopped_before l m' : agree m' m → stopped m l m'
| stopped_inside p f l m' : agree m' (delete p m) → stopped m ((p, f) :: l) m'
| stopped_after p f l m' : stopped (<[p := f]> m) l m' → stopped m ((p, f) :: l) m'.

Definition write_files (m : gmap Path (Z * bytes)) (l : list (Path * (Z * bytes))) :=
  foldl (λ m x, <[x.1 := x.2]> m) m l.

Definition outcome (m : gmap Path (Z * bytes)) (l : list (Path * (Z * bytes)))
    (r : Result CredentialBundleError unit) (m' : gmap Path (Z * bytes)) : Prop :=
  match r with Ok _ => agree m' (write_files m l) | Err _ => stopped m l m' end.

Definition bundle_files (mb : option bytes) : list (Path * (Z * bytes)) :=
  [(acp_server_ca ps, (420, ca)); (acp_client_certificate ps, (420, cert));
   (acp_client_private_key ps, (384, key))]
  ++ match mb with Some mb => [(acp_reload_manifest ps, (420, mb))] | None => [] end.

Lemma stopped_agree m1 m2 l m' : agree m1 m2 → stopped m1 l m' → stopped m2 l m'.
Proof.
  intros Ha H. revert m2 Ha. induction H; intros m2 Ha.
  - apply stopped_before. by rewrite <-Ha.
  - apply stopped_inside. by rewrite <-Ha.
  - apply stopped_after, IHstopped. by rewrite Ha.
Qed.

Lemma outcome_before m l e m' : agree m' m → outcome m l (Err e) m'.
Proof. apply stopped_before. Qed.

Lemma replace_then p bs private (k : DiskM unit) l d r d' :
  is_temporary p = false →
  (_ ← replace_file p bs private; k) d = (r, d') →
  (∀ d1, agree (disk_files d1) (<[p := (private_mode private, bs)]> (disk_files d)) →
     k d1 = (r, d') → outcome (disk_files d1) l r (disk_files d')) →
  outcome (disk_files d) ((p, (private_mode private, bs)) :: l) r (disk_files d').
Proof.
  intros Hp H Hk. apply disk_bind_inv in H as [([] & d1 & H1 & H)|(e & H1 & ->)].
  - apply (replace_file_spec _ _ _ _ _ _ Hp) in H1. cbn [replaced] in H1.
    specialize (Hk d1 H1 H). unfold outcome in *. destruct r.
    + rewrite Hk. clear -H1. unfold write_files. cbn [foldl fst snd]. revert H1.
      generalize (disk_files d1) (<[p:=(private_mode private, bs)]> (disk_files d)).
      induction l as [|[q f] l IH]; intros m m' H; [done|]. cbn [foldl]. apply IH. by rewrite H.
    + by apply stopped_after, (stopped_agree (disk_files d1)).
  - apply (replace_file_spec _ _ _ _ _ _ Hp) in H1 as [?|?];
      [by apply stopped_before|by apply stopped_inside].
Qed.

Lemma publish_outcome d r d' :
  publish_agent_credential_bundle ps generation ca cert key d = (r, d') →
  outcome (disk_files d) (bundle_files new_manifest) r (disk_files d') ∧
  (r = Ok tt → is_Some new_manifest).
Proof.
  intros H. unfold publish_agent_credential_bundle in H.
  unfold bundle_paths in Htmp. rewrite !Forall_cons in Htmp. destruct Htmp as (T1 & T2 & T3 & T4 & _).
  apply disk_bind_inv in H as [(? & d0 & [= _ <-] & H)|(e & [= _ <-] & ->)];
    [|split; [by constructor|done]].
  apply disk_bind_inv in H as [(? & d0 & [= _ <-] & H)|(e & [= _ <-] & ->)];
    [|split; [by constructor|done]].
  enough (outcome (disk_files d) (bundle_files new_manifest) r (disk_files d') ∧
    (new_manifest = None → ∃ e, r = Err e)) as [? Hm].
  { split; [done|]. intros ->. destruct new_manifest; [done|]. by destruct Hm. }
  split.
  - apply (replace_then _ _ false _ _ _ _ _ T1 H). intros d1 _ H1.
    apply (replace_then _ _ false _ _ _ _ _ T2 H1). intros d2 _ H2.
    apply (replace_then _ _ true _ _ _ _ _ T3 H2). intros d3 _ H3.
    apply disk_bind_inv in H3 as [(mb & d4 & [= Hmb <-] & H3)|(e & [= Hmb <-] & ->)];
      fold new_manifest in Hmb; destruct new_manifest as [mb'|]; try done; [|by constructor].
    injection Hmb as ->. apply (replace_then _ _ false (mret tt) _ _ _ _ T4).
    + unfold mbind, disk_bind. rewrite H3. by destruct r as [[]|].
    + intros d5 Hd5 [= <- <-]. done.
  - intros Hn. apply disk_bind_inv in H as [(? & d1 & _ & H)|(e & _ & ->)]; [|eauto].
    apply disk_bind_inv in H as [(? & d2 & _ & H)|(e & _ & ->)]; [|eauto].
    apply disk_bind_inv in H as [(? & d3 & _ & H)|(e & _ & ->)]; [|eauto].
    fold new_manifest in H. rewrite Hn in H. injection H as <- _. eauto.
Qed.
Lemma stopped_lookup m l m' p :
  is_temporary p = false → stopped m l m' →
  m' !! p = m !! p ∨ m' !! p = None ∨ ∃ f, (p, f) ∈ l ∧ m' !! p = Some f.
Proof.
  intros Hp. induction 1 as [m l m' [Ha]|m q f l m' [Ha]|m q f l m' _ IH].
  - left. by apply Ha.
  - rewrite Ha by done. destruct (decide (q = p)) as [->|].
    + right. left. apply lookup_delete_eq.
    + left. by apply lookup_delete_ne.
  - destruct IH as [-> |[-> |(g & Hg & ->)]]; [|by auto|right; right; exists g; set_solver].
    destruct (decide (q = p)) as [->|]; [|left; by apply lookup_insert_ne].
    right. right. exists f. rewrite lookup_insert_eq. set_solver.
Qed.

Lemma stopped_outside m l m' p :
  is_temporary p = false → stopped m l m' → m' !! p = m !! p ∨ p ∈ l.*1.
Proof.
  intros Hp. induction 1 as [m l m' [Ha]|m q f l m' [Ha]|m q f l m' _ IH].
  - left. by apply Ha.
  - rewrite Ha by done. destruct (decide (q = p)) as [->|]; [right; set_solver|].
    left. by apply lookup_delete_ne.
  - destruct (decide (q = p)) as [->|]; [right; set_solver|].
    destruct IH as [-> |?]; [left; by apply lookup_insert_ne|right; set_solver].
Qed.

(** The last file to be written has changed only when all of them have. *)
Lemma stopped_last m l p f m' :
  is_temporary p = false → p ∉ l.*1 → stopped m (l ++ [(p, f)]) m' →
  m' !! p = m !! p ∨ m' !! p = None ∨ agree m' (write_files m (l ++ [(p, f)])).
Proof.
  intros Hp. revert m. induction l as [|[q g] l IH]; intros m Hin H; cbn [app] in H.
  - inversion H as [? ? [Ha]|? ? ? ? [Ha]|? ? ? ? H']; subst.
    + left. by apply Ha.
    + right. left. rewrite Ha by done. apply lookup_delete_eq.
    + inversion H'; subst. right. right. done.
  - rewrite fmap_cons, not_elem_of_cons in Hin. destruct Hin as [Hne Hin].
    inversion H as [? ? [Ha]|? ? ? ? [Ha]|? ? ? ? H']; subst; cbn [fst] in *.
    + left. by apply Ha.
    + left. rewrite Ha by done. by apply lookup_delete_ne.
    + destruct (IH _ Hin H') as [-> |[-> |?]]; [|by auto..]. left. by apply lookup_insert_ne.
Qed.

Lemma outcome_stopped m l r m' : outcome m l r m' → stopped m l m'.
Proof.
  destruct r; [|done]. cbn [outcome]. revert m. induction l as [|[p f] l IH]; intros m H.
  - by apply stopped_before.
  - by apply stopped_after, IH.
Qed.

(** What a run of the publisher can show of the disk. *)
Definition reachable (m m' : gmap Path (Z * bytes)) : Prop :=
  ∃ next faults r d',
    publish_agent_credential_bundle ps generation ca cert key (MkDisk m next faults) = (r, d') ∧
    m' = disk_files d'.

Lemma reachable_stopped m m' : reachable m m' → stopped m (bundle_files new_manifest) m'.
Proof.
  intros (next & faults & r & d' & H & ->). apply publish_outcome in H as [H _].
  by eapply outcome_stopped.
Qed.

Lemma new_file_elem p f : (p, f) ∈ bundle_files new_manifest → new_file p = Some f.
Proof.
  destruct distinct_paths as (D12 & D13 & D14 & D23 & D24 & D34). unfold new_file, bundle_files.
  intros [H|H]%elem_of_app.
  - rewrite !elem_of_cons in H. destruct H as [H|[H|[H|H%elem_of_nil]]]; simplify_eq;
      by repeat case_decide.
  - destruct new_manifest as [mb|]; [|by apply elem_of_nil in H].
    apply list_elem_of_singleton in H. simplify_eq. by repeat case_decide.
Qed.

Lemma bundle_path_temporary p : p ∈ bundle_paths → is_temporary p = false.
Proof. intros Hp. rewrite Forall_forall in Htmp. by apply Htmp. Qed.

Lemma reachable_lookup m m' p :
  p ∈ bundle_paths → reachable m m' →
  m' !! p = m !! p ∨ m' !! p = None ∨ m' !! p = new_file p.
Proof.
  intros Hp H%reachable_stopped.
  destruct (stopped_lookup _ _ _ p (bundle_path_temporary p Hp) H) as [?|[?|(f & Hf & ->)]]; auto.
  right. right. symmetry. by apply new_file_elem.
Qed.
(** ** Reading a bundle back *)

(** A reader's view of a disk that does not change under it. *)
Definition disk_view (m : gmap Path (Z * bytes)) : FileSystem := λ p,
  match m !! p with
  | Some f => Ok (MkView (Ok (zlen f.2)) (Ok f.2))
  | None => Err (IoFailed KindNotFound)
  end.

(** The file set the Agent's TLS reload is configured with. *)
Definition agent_reload_files : list GenerationReloadFile :=
  [MkReloadFile (bstr "server_ca") (acp_server_ca ps);
   MkReloadFile (bstr "client_certificate") (acp_client_certificate ps);
   MkReloadFile (bstr "client_private_key") (acp_client_private_key ps)].

Definition material_of (name : str) : bytes :=
  if decide (name = bstr "server_ca") then ca
  else if decide (name = bstr "client_certificate") then cert else key.

(** The generation that a completed publication stands for. *)
Definition new_generation (mb : bytes) : GenerationReload :=
  MkGeneration generation (sha256 mb)
    (<[bstr "client_private_key" := key]>
      (<[bstr "client_certificate" := cert]> (<[bstr "server_ca" := ca]> ∅))).

Lemma read_disk m p limit bs :
  0 ≤ limit → read_bounded (disk_view m) p limit = Ok bs ↔
  ∃ mode, m !! p = Some (mode, bs) ∧ zlen bs ≤ limit.
Proof.
  intros Hl. rewrite read_bounded_Ok by done. unfold disk_view. split.
  - intros (v & len & Hv & ? & ? & ? & ?). destruct (m !! p) as [[mode bs']|]; [|done].
    simplify_eq/=. eauto.
  - intros (mode & -> & ?). eexists _, _. cbn. split_and!; eauto.
Qed.

Lemma names_differ :
  bstr "server_ca" ≠ bstr "client_certificate" ∧ bstr "server_ca" ≠ bstr "client_private_key" ∧
  bstr "client_certificate" ≠ bstr "client_private_key".
Proof. split_and!; discriminate. Qed.

Lemma reload_file_cases f :
  f ∈ agent_reload_files →
  grf_path f ∈ bundle_paths ∧ grf_name f ≠ [] ∧
  (∃ mode, new_file (grf_path f) = Some (mode, material_of (grf_name f))) ∧
  rm_files (credential_manifest generation ca cert key) !! grf_name f
    = Some (digest_hex (material_of (grf_name f))) ∧
  ∀ mb, gr_files (new_generation mb) !! grf_name f = Some (material_of (grf_name f)).
Proof.
  destruct distinct_paths as (D12 & D13 & D14 & D23 & D24 & D34).
  destruct names_differ as (N12 & N13 & N23).
  unfold new_file, agent_reload_files, material_of, bundle_paths. rewrite !elem_of_cons.
  cbn [credential_manifest rm_files new_generation gr_files].
  intros [-> |[-> |[-> |[]%elem_of_nil]]]; cbn [grf_path grf_name].
  - rewrite !decide_True by done. rewrite !lookup_insert_ne, !lookup_insert_eq by done.
    split_and!; [by left|done|by eexists|done|].
    intros _. by rewrite !lookup_insert_ne, lookup_insert_eq by done.
  - rewrite !(decide_False (P := acp_client_certificate ps = acp_server_ca ps)) by done.
    rewrite (decide_False (P := bstr "client_certificate" = bstr "server_ca")) by done.
    rewrite !decide_True by done. rewrite lookup_insert_ne, lookup_insert_eq by done.
    split_and!; [by right; left|done|by eexists|done|].
    intros _. by rewrite lookup_insert_ne, lookup_insert_eq by done.
  - rewrite !(decide_False (P := acp_client_private_key ps = acp_server_ca ps)) by done.
    rewrite !(decide_False (P := acp_client_private_key ps = acp_client_certificate ps)) by done.
    rewrite (decide_False (P := bstr "client_private_key" = bstr "server_ca")) by done.
    rewrite (decide_False (P := bstr "client_private_key" = bstr "client_certificate")) by done.
    rewrite !decide_True by done. rewrite lookup_insert_eq by done.
    split_and!; [by right; right; left|done|by eexists|done|].
    intros _. by rewrite lookup_insert_eq.
Qed.

Lemma reload_names : NoDup (grf_name <$> agent_reload_files).
Proof. apply (bool_decide_eq_true_1 _). vm_compute. reflexivity. Qed.

Lemma manifest_dom :
  dom (rm_files (credential_manifest generation ca cert key))
  = list_to_set (grf_name <$> agent_reload_files).
Proof. cbn [credential_manifest rm_files]. rewrite !dom_insert_L, dom_empty_L. set_solver. Qed.

Lemma new_generation_dom mb :
  dom (gr_files (new_generation mb)) = list_to_set (grf_name <$> agent_reload_files).
Proof. cbn [new_generation gr_files]. rewrite !dom_insert_L, dom_empty_L. set_solver. Qed.

(** Two generations over the same file set with the same contents. *)
Lemma generation_ext (files : list GenerationReloadFile) (m m' : gmap str bytes) :
  dom m = list_to_set (grf_name <$> files) → dom m' = list_to_set (grf_name <$> files) →
  (∀ f, f ∈ files → m !! grf_name f = m' !! grf_name f) → m = m'.
Proof.
  intros Hd Hd' H. apply map_eq. intros n.
  destruct (decide (n ∈ grf_name <$> files)) as [(f & -> & Hf)%list_elem_of_fmap|Hn]; [by apply H|].
  rewrite (proj1 (not_elem_of_dom m n)), (proj1 (not_elem_of_dom m' n)); [done|..].
  - by rewrite Hd', elem_of_list_to_set.
  - by rewrite Hd, elem_of_list_to_set.
Qed.

Lemma complete_lookup mb m m' p :
  new_manifest = Some mb → agree m' (write_files m (bundle_files (Some mb))) →
  p ∈ bundle_paths → m' !! p = new_file p.
Proof.
  intros Hmb [Ha] Hp. rewrite Ha by by apply bundle_path_temporary.
  unfold new_file. rewrite Hmb. destruct distinct_paths as (D12 & D13 & D14 & D23 & D24 & D34).
  unfold write_files, bundle_files. cbn [app foldl fst snd].
  unfold bundle_paths in Hp. rewrite !elem_of_cons, elem_of_nil in Hp.
  repeat case_decide; subst; simplify_map_eq; try done. naive_solver.
Qed.

Section reading.
Context (parse_manifest : bytes → option RawManifest).
(** [serde_json] reads back the manifest it wrote, and a digest has 32 bytes. *)
Hypothesis (Hjson : ∀ mb, new_manifest = Some mb →
  parse_manifest mb = Some (credential_manifest generation ca cert key)).
Hypothesis (Hsha : ∀ bs, length (sha256 bs) = 32%nat).

Abbreviation load fs :=
  (load_generation_sync sha256 parse_manifest fs (acp_reload_manifest ps) agent_reload_files).

(** Reads that each see the disk at some moment of a publication. *)
Definition overlapping (m0 : gmap Path (Z * bytes)) (fs : FileSystem) : Prop :=
  ∀ p, p ∈ bundle_paths → ∃ m', reachable m0 m' ∧ fs p = disk_view m' p.

(** No digest of a new file is the digest of a different old one. *)
Definition no_collision (m0 : gmap Path (Z * bytes)) : Prop :=
  ∀ p old new, p ∈ bundle_paths → m0 !! p = Some old → new_file p = Some new →
    sha256 old.2 = sha256 new.2 → old.2 = new.2.

Lemma overlapping_read m0 fs p limit bs :
  0 ≤ limit → p ∈ bundle_paths → overlapping m0 fs → read_bounded fs p limit = Ok bs →
  ∃ mode, (m0 !! p = Some (mode, bs) ∨ new_file p = Some (mode, bs)) ∧ zlen bs ≤ limit.
Proof.
  intros Hl Hp Hov Hr. destruct (Hov p Hp) as (m' & Hm' & Hfs).
  assert (read_bounded (disk_view m') p limit = Ok bs) as Hr'.
  { unfold read_bounded in *. by rewrite <-Hfs. }
  apply read_disk in Hr' as (mode & Hm & Hz); [|done]. exists mode. split; [|done].
  destruct (reachable_lookup m0 m' p Hp Hm') as [E|[E|E]]; rewrite E in Hm; auto. done.
Qed.

Lemma material_bound : 0 ≤ MAX_RELOAD_MATERIAL_BYTES.
Proof. done. Qed.

(** A material that matches the digest of an old or of a new file is that file. *)
Lemma overlapping_material m0 fs m f bs d :
  no_collision m0 → overlapping m0 fs → f ∈ agent_reload_files →
  material_ok sha256 fs m f bs →
  rm_files m !! grf_name f = Some d →
  (∀ mode old, m0 !! grf_path f = Some (mode, old) →
     to_ascii_lowercase d = hex_lower (sha256 old) → bs = old) ∧
  (d = digest_hex (material_of (grf_name f)) → bs = material_of (grf_name f)).
Proof.
  intros Hnc Hov Hf (_ & Hr & d' & Hd' & Hx & Hlen) Hd. rewrite Hd in Hd'. injection Hd' as <-.
  destruct (reload_file_cases f Hf) as (Hp & _ & (mode' & Hnew) & _ & _).
  destruct (overlapping_read _ _ _ _ _ material_bound Hp Hov Hr) as (mode & Hbs & _).
  split.
  - intros mode0 old Hold Ho. rewrite Ho in Hx. apply hex_lower_inj in Hx.
    destruct Hbs as [Hbs|Hbs]; [congruence|]. symmetry.
    apply (Hnc (grf_path f) (mode0, old) (mode, bs)); done.
  - intros ->. unfold digest_hex in Hx.
    rewrite hex_lower_lowercase in Hx. apply hex_lower_inj in Hx.
    destruct Hbs as [Hbs|Hbs]; [|congruence].
    apply (Hnc (grf_path f) (mode, bs) (mode', material_of (grf_name f))); done.
Qed.

(** C10. Renewal never yields a mixed credential set.  While a bundle is being
    published over a complete generation, with any I/O failure or crash and with
    every read happening at its own moment of the publication, a reload that
    succeeds returns the old generation or the new one, never a combination of
    their files. *)
Theorem reload_never_mixes m0 g0 fs g :
  load (disk_view m0) = Ok g0 → overlapping m0 fs → no_collision m0 →
  load fs = Ok g → g = g0 ∨ ∃ mb, new_manifest = Some mb ∧ g = new_generation mb.
Proof.
  intros H0 Hov Hnc H. apply load_generation_Ok in H0 as (mb0 & man0 & Hr0 & Hok0).
  apply load_generation_Ok in H as (mb & man & Hr & Hok).
  destruct Hok0 as (Hp0 & _ & _ & _ & _ & Hg0 & Hd0 & Hdom0 & Hf0).
  destruct Hok as (Hp & _ & _ & _ & _ & Hg & Hd & Hdom & Hf).
  apply overlapping_read with (m0 := m0) in Hr as (mode & [Hold|Hnew] & _); try done;
    [| |unfold bundle_paths; set_solver].
  - left. apply read_disk in Hr0 as (mode0 & Hm0 & _); [|done].
    assert (mb = mb0) as -> by congruence. assert (man = man0) as -> by congruence.
    assert (gr_files g = gr_files g0) as He.
    { apply (generation_ext agent_reload_files); [done..|]. intros f Hin.
      destruct (Hf f Hin) as (bs & -> & Hbs), (Hf0 f Hin) as (bs0 & -> & _ & Hr & d & Hdg & Hx & _).
      f_equal. apply read_disk in Hr as (mode1 & Hm1 & _); [|done].
      by eapply (proj1 (overlapping_material _ _ _ _ _ _ Hnc Hov Hin Hbs Hdg)). }
    destruct g as [x y z], g0 as [x0 y0 z0]. cbn [gr_generation gr_manifest_digest gr_files] in *. congruence.
  - right. destruct distinct_paths as (D12 & D13 & D14 & D23 & D24 & D34).
    unfold new_file in Hnew. rewrite !decide_False, decide_True in Hnew by done.
    destruct new_manifest as [mb'|] eqn:Hmb; [|done]. injection Hnew as _ ->.
    exists mb. split; [done|]. rewrite (Hjson mb eq_refl) in Hp. injection Hp as <-.
    assert (gr_files g = gr_files (new_generation mb)) as He.
    { apply (generation_ext agent_reload_files); [done|apply new_generation_dom|].
      intros f Hin. destruct (Hf f Hin) as (bs & -> & Hbs).
      destruct (reload_file_cases f Hin) as (_ & _ & _ & Hdg & ->). f_equal.
      by eapply (proj2 (overlapping_material _ _ _ _ _ _ Hnc Hov Hin Hbs Hdg)). }
    destruct g as [x y z]. unfold new_generation. cbn in Hg, Hd, He. by f_equal.
Qed.

(** A completed publication can be loaded: when the publisher reports
    success and the files respect the loader's size limits, the reload returns
    exactly the published generation, and the private key was created with mode
    0600. *)
Theorem publish_then_load d d' :
  publish_agent_credential_bundle ps generation ca cert key d = (Ok tt, d') → generation ≠ 0 →
  zlen ca ≤ MAX_RELOAD_MATERIAL_BYTES → zlen cert ≤ MAX_RELOAD_MATERIAL_BYTES →
  zlen key ≤ MAX_RELOAD_MATERIAL_BYTES →
  (∀ mb, new_manifest = Some mb → zlen mb ≤ MAX_RELOAD_MANIFEST_BYTES) →
  (∃ mb, new_manifest = Some mb ∧ load (disk_view (disk_files d')) = Ok (new_generation mb)) ∧
  disk_files d' !! acp_client_private_key ps = Some (384, key).
Proof.
  intros H Hgen Hca Hcert Hkey Hman. apply publish_outcome in H as [Ho Hm].
  destruct (Hm eq_refl) as [mb Hmb]. cbn [outcome] in Ho. rewrite Hmb in Ho.
  assert (∀ p f, p ∈ bundle_paths → new_file p = Some f → disk_files d' !! p = Some f) as Hl.
  { intros p f Hp <-. by apply (complete_lookup mb (disk_files d)). }
  assert (∀ f, f ∈ agent_reload_files → zlen (material_of (grf_name f)) ≤ MAX_RELOAD_MATERIAL_BYTES) as Hsz.
  { intros f _. unfold material_of. by repeat case_decide. }
  assert (new_file (acp_reload_manifest ps) = Some (420, mb)) as Hmf.
  { apply new_file_elem. rewrite Hmb. unfold bundle_files. set_solver. }
  assert (new_file (acp_client_private_key ps) = Some (384, key)) as Hkf.
  { apply new_file_elem. unfold bundle_files. set_solver. }
  split; [|apply Hl; [unfold bundle_paths; set_solver|done]].
  exists mb. split; [done|]. apply load_generation_Ok.
  exists mb, (credential_manifest generation ca cert key). split.
  { apply read_disk; [done|]. exists 420. split; [|by apply Hman].
    apply Hl; [unfold bundle_paths; set_solver|done]. }
  split_and!; try done; [by apply Hjson|apply reload_names|].
  intros f Hin. destruct (reload_file_cases f Hin) as (Hp & Hn & (mode & Hf) & Hdg & Hg).
  exists (material_of (grf_name f)). split; [apply Hg|]. split_and!; [done| |].
  - apply read_disk; [done|]. exists mode. split; [by apply Hl|by apply Hsz].
  - eexists. split_and!; [exact Hdg|apply hex_lower_lowercase|apply Hsha].
Qed.
End reading.

(** The manifest is published last.  Whatever fails or crashes, every
    configured path holds its old file, its new file or nothing, all other files
    but temporary ones are untouched, and the new manifest is visible only on a
    disk on which all credential files are new; success means all four are. *)
Theorem publish_manifest_last d r d' :
  publish_agent_credential_bundle ps generation ca cert key d = (r, d') →
  (∀ p, p ∈ bundle_paths → disk_files d' !! p = disk_files d !! p ∨
     disk_files d' !! p = None ∨ disk_files d' !! p = new_file p) ∧
  (∀ p, p ∉ bundle_paths → is_temporary p = false → disk_files d' !! p = disk_files d !! p) ∧
  (disk_files d' !! acp_reload_manifest ps = disk_files d !! acp_reload_manifest ps ∨
   disk_files d' !! acp_reload_manifest ps = None ∨
   ∀ p, p ∈ bundle_paths → disk_files d' !! p = new_file p) ∧
  (r = Ok tt → ∀ p, p ∈ bundle_paths → disk_files d' !! p = new_file p).
Proof.
  intros H. assert (reachable (disk_files d) (disk_files d')) as Hreach.
  { exists (disk_next_temporary d), (disk_faults d), r, d'. by destruct d. }
  apply publish_outcome in H as [Ho Hm]. pose proof (outcome_stopped _ _ _ _ Ho) as Hs.
  split_and!.
  - intros p Hp. by apply reachable_lookup.
  - intros p Hp Ht. destruct (stopped_outside _ _ _ p Ht Hs) as [?|Hin]; [done|].
    destruct Hp. unfold bundle_files, bundle_paths in *. destruct new_manifest; set_solver.
  - destruct distinct_paths as (D12 & D13 & D14 & D23 & D24 & D34).
    destruct new_manifest as [mb|] eqn:Hmb.
    + apply stopped_last in Hs as [?|[?|Ha]]; [by auto|by auto| |by apply bundle_path_temporary;
        unfold bundle_paths; set_solver|set_solver].
      right. right. intros p Hp. by apply (complete_lookup mb (disk_files d)).
    + left. apply (stopped_outside _ _ _ (acp_reload_manifest ps)) in Hs as [?|Hin]; [done| |].
      * unfold bundle_files in Hin. set_solver.
      * apply bundle_path_temporary. unfold bundle_paths. set_solver.
  - intros -> p Hp. destruct (Hm eq_refl) as [mb Hmb]. rewrite Hmb in Ho.
    by apply (complete_lookup mb (disk_files d)).
Qed.
End bundle.
End publish.

(** ** Concrete runs *)

Module Example.

Definition file_path (name : str) : Path := MkPath (Some (bstr "/agent")) (Some name).

Definition paths : AgentCredentialPaths :=
  MkCredentialPaths (file_path (bstr "ca.pem")) (file_path (bstr "agent.pem"))
    (file_path (bstr "agent-key.pem")) (file_path (bstr "reload.json")).

(** Stand-ins for the digest and the JSON library that satisfy their laws. *)
Definition digest (bs : bytes) : bytes := to_be 32 (from_be bs).
Definition old_manifest : RawManifest :=
  credential_manifest digest 1 (bstr "a") (bstr "b") (bstr "c").
Definition next_manifest : RawManifest :=
  credential_manifest digest 2 (bstr "a") (bstr "B") (bstr "C").
Definition to_vec (m : RawManifest) : option bytes := Some (to_be 8 (rm_generation m)).
Definition from_slice (bs : bytes) : option RawManifest :=
  if decide (bs = to_be 8 1) then Some old_manifest
  else if decide (bs = to_be 8 2) then Some next_manifest else None.

Definition old_disk : gmap Path (Z * bytes) :=
  disk_files (publish_agent_credential_bundle 7 digest to_vec paths 1
    (bstr "a") (bstr "b") (bstr "c") (MkDisk ∅ 1 [])).2.

Definition publish_next : DiskM unit :=
  publish_agent_credential_bundle 7 digest to_vec paths 2 (bstr "a") (bstr "B") (bstr "C").

(** Crash after the first replacement, and inside the second one. *)
Definition crashed_after (n : nat) : Disk :=
  (publish_next (MkDisk old_disk 9 (replicate n Works ++ [Crash 0]))).2.

(** The CA is read after its replacement, everything else before. *)
Definition torn_view : FileSystem := λ p,
  disk_view (disk_files (crashed_after (if decide (p = acp_server_ca paths) then 7 else 0))) p.

Lemma paths_distinct : NoDup (bundle_paths paths).
Proof. apply (bool_decide_eq_true_1 _). vm_compute. reflexivity. Qed.
Lemma paths_not_temporary : Forall (λ p, is_temporary p = false) (bundle_paths paths).
Proof. repeat constructor. Qed.
End Example.

Import Example.

Lemma crashed_run n :
  is_ok (publish_next (MkDisk old_disk 9 (replicate n Works ++ [Crash 0]))).1 = false →
  ∃ e, publish_next (MkDisk old_disk 9 (replicate n Works ++ [Crash 0])) = (Err e, crashed_after n).
Proof.
  unfold crashed_after. destruct (publish_next _) as [[[]|e] d']; [done|]. eauto.
Qed.

Lemma torn_view_overlaps :
  overlapping 7 digest to_vec paths 2 (bstr "a") (bstr "B") (bstr "C") old_disk torn_view.
Proof.
  intros p _. unfold torn_view. set (n := if decide (p = acp_server_ca paths) then 7%nat else 0%nat).
  exists (disk_files (crashed_after n)). split; [|reflexivity].
  destruct (crashed_run n) as [e He]; [subst n; destruct (decide _); vm_compute; reflexivity|].
  exists 9, (replicate n Works ++ [Crash 0]), (Err e), (crashed_after n). split; [exact He|reflexivity].
Qed.

Lemma no_collision_example :
  no_collision digest to_vec paths 2 (bstr "a") (bstr "B") (bstr "C") old_disk.
Proof.
  intros p old new Hp Hold Hnew. unfold bundle_paths in Hp. rewrite !elem_of_cons, elem_of_nil in Hp.
  destruct Hp as [-> |[-> |[-> |[-> |[]]]]]; vm_compute in Hold, Hnew; simplify_eq;
    vm_compute; congruence.
Qed.

Lemma reload_never_mixes_witness :
  ∃ g0 g,
    load_generation_sync digest from_slice (disk_view old_disk) (acp_reload_manifest paths)
      (agent_reload_files paths) = Ok g0 ∧
    load_generation_sync digest from_slice torn_view (acp_reload_manifest paths)
      (agent_reload_files paths) = Ok g ∧
    (g = g0 ∨ ∃ mb, new_manifest digest to_vec 2 (bstr "a") (bstr "B") (bstr "C") = Some mb ∧
       g = new_generation digest 2 (bstr "a") (bstr "B") (bstr "C") mb).
Proof.
  assert (is_ok (load_generation_sync digest from_slice (disk_view old_disk)
    (acp_reload_manifest paths) (agent_reload_files paths)) = true) as H0 by (vm_compute; reflexivity).
  assert (is_ok (load_generation_sync digest from_slice torn_view
    (acp_reload_manifest paths) (agent_reload_files paths)) = true) as H1 by (vm_compute; reflexivity).
  apply is_ok_true in H0 as [g0 H0], H1 as [g H1]. exists g0, g. split; [exact H0|]. split; [exact H1|].
  apply (reload_never_mixes 7 digest to_vec paths 2 (bstr "a") (bstr "B") (bstr "C")
    paths_distinct paths_not_temporary from_slice) with (m0 := old_disk) (fs := torn_view).
  - intros mb [= <-]. vm_compute. reflexivity.
  - intros bs. apply length_to_be.
  - exact H0.
  - exact torn_view_overlaps.
  - exact no_collision_example.
  - exact H1.
Defined.

Lemma publish_then_load_witness :
  ∃ d', publish_next (MkDisk old_disk 9 []) = (Ok tt, d') ∧
  (∃ mb, new_manifest digest to_vec 2 (bstr "a") (bstr "B") (bstr "C") = Some mb ∧
     load_generation_sync digest from_slice (disk_view (disk_files d')) (acp_reload_manifest paths)
       (agent_reload_files paths)
     = Ok (new_generation digest 2 (bstr "a") (bstr "B") (bstr "C") mb)) ∧
  disk_files d' !! acp_client_private_key paths = Some (384, bstr "C").
Proof.
  destruct (publish_next (MkDisk old_disk 9 [])) as [r d'] eqn:H. exists d'.
  assert (r = Ok tt) as ->.
  { apply (f_equal fst) in H. cbn [fst] in H. rewrite <-H. vm_compute. reflexivity. }
  split; [reflexivity|].
  apply (publish_then_load 7 digest to_vec paths 2 (bstr "a") (bstr "B") (bstr "C")
    paths_distinct paths_not_temporary from_slice) with (d := MkDisk old_disk 9 []).
  - intros mb [= <-]. vm_compute. reflexivity.
  - intros bs. apply length_to_be.
  - exact H.
  - discriminate.
  - vm_compute. discriminate.
  - vm_compute. discriminate.
  - vm_compute. discriminate.
  - intros mb [= <-]. vm_compute. discriminate.
Defined.

Lemma publish_manifest_last_witness :
  ∃ e, publish_next (MkDisk old_disk 9 (replicate 7 Works ++ [Crash 0])) = (Err e, crashed_after 7) ∧
  (disk_files (crashed_after 7) !! acp_reload_manifest paths = old_disk !! acp_reload_manifest paths ∨
   disk_files (crashed_after 7) !! acp_reload_manifest paths = None ∨
   ∀ p, p ∈ bundle_paths paths → disk_files (crashed_after 7) !! p
        = new_file digest to_vec paths 2 (bstr "a") (bstr "B") (bstr "C") p).
Proof.
  destruct (crashed_run 7) as [e He]; [vm_compute; reflexivity|]. exists e. split; [exact He|].
  apply (publish_manifest_last 7 digest to_vec paths 2 (bstr "a") (bstr "B") (bstr "C")
    paths_distinct paths_not_temporary (MkDisk old_disk 9 (replicate 7 Works ++ [Crash 0])) (Err e)).
  exact He.
Defined.

(** Replacing one file is not atomic: [replace_file] removes the old file
    before it renames the new one into place, so a crash between the two leaves
    the configured path without any file, the new contents stranded in a
    temporary file; here the client certificate disappears. *)
Theorem replace_can_lose_file :
  old_disk !! acp_client_certificate paths = Some (420, bstr "b") ∧
  ∃ n, disk_files (crashed_after n) !! acp_client_certificate paths = None ∧
       disk_files (crashed_after n) !! acp_server_ca paths = Some (420, bstr "a").
Proof. split; [vm_compute; reflexivity|]. exists 13%nat. split; vm_compute; reflexivity. Qed.
