(* ===== verification/TlsReload.v ===== *)
(** * TlsReload: credentials that can be replaced while running

    [crates/common/src/tls_reload.rs]: the reloadable configuration that the Edge,
    the Agent and the Control Plane share, and the poll loop that feeds it from
    generations on disk.  Instants are nanoseconds relative to the Unix epoch.
    The loop's clock readings and loads are an explicit sequence of ticks; the
    certificate parser and the TLS configuration builder are arguments. *)

From S2P Require Import Prelude GenerationReload.

Record TlsCertificateValidity : Type := MkValidity { not_before : Z; not_after : Z }.

Inductive TlsConfigHealth : Type := Current | Expiring | ReloadFailed | HealthExpired.

#[global] Instance TlsConfigHealth_eq_dec : EqDecision TlsConfigHealth.
Proof. solve_decision. Defined.

Record TlsConfigStatus : Type := MkTlsStatus {
  status_generation : Z;
  status_health : TlsConfigHealth;
  status_not_after : Z
}.

Inductive TlsGenerationError : Type :=
| ZeroGeneration
| StaleGeneration (current received : Z)
| ConflictingTlsGeneration (generation : Z)
| CertificateTime
| TlsNotYetValid
| TlsExpired.

Inductive TlsReloadRuntimeError : Type :=
| InvalidConfig
| ActiveCredentialsExpired (generation : Z).

Definition validate_candidate_time (v : TlsCertificateValidity) (now : Z)
    : Result TlsGenerationError unit :=
  if now <? not_before v then Err TlsNotYetValid
  else if not_after v <=? now then Err TlsExpired
  else Ok tt.

Section reload.
Context {T : Type}.

Record ReloadState : Type := MkReload {
  rl_generation : Z;
  rl_manifest_digest : bytes;
  rl_config : T;
  rl_validity : TlsCertificateValidity;
  rl_reload_failed : bool
}.

Definition reloadable_new (generation : Z) (digest : bytes) (config : T)
    (validity : TlsCertificateValidity) (now : Z) : Result TlsGenerationError ReloadState :=
  _ ← validate_candidate_time validity now;
  if generation =? 0 then Err ZeroGeneration
  else Ok (MkReload generation digest config validity false).

(** [publish] under the write lock: the answer and the state it leaves. *)
Definition publish (s : ReloadState) (generation : Z) (digest : bytes) (config : T)
    (validity : TlsCertificateValidity) (now : Z) : Result TlsGenerationError bool * ReloadState :=
  match validate_candidate_time validity now with
  | Err e => (Err e, s)
  | Ok _ =>
      if generation <? rl_generation s
      then (Err (StaleGeneration (rl_generation s) generation), s)
      else if generation =? rl_generation s
      then if bool_decide (digest = rl_manifest_digest s)
           then (Ok false, MkReload (rl_generation s) (rl_manifest_digest s) (rl_config s)
                             (rl_validity s) false)
           else (Err (ConflictingTlsGeneration generation), s)
      else (Ok true, MkReload generation digest config validity false)
  end.

Definition mark_tls_reload_failed (s : ReloadState) : ReloadState :=
  MkReload (rl_generation s) (rl_manifest_digest s) (rl_config s) (rl_validity s) true.

Definition reload_status (s : ReloadState) (now expiry_warning : Z) : TlsConfigStatus :=
  let health :=
    if not_after (rl_validity s) <=? now then HealthExpired
    else if rl_reload_failed s then ReloadFailed
    else if not_after (rl_validity s) - now <=? expiry_warning then Expiring
    else Current in
  MkTlsStatus (rl_generation s) health (not_after (rl_validity s)).

(** ** The poll loop *)

Record TlsReloadRuntimeConfig : Type := MkRuntimeConfig {
  trc_manifest_path_empty : bool;
  trc_files : list GenerationReloadFile;
  trc_poll_interval : Z;
  trc_expiry_warning : Z
}.

Definition validate_runtime_config (c : TlsReloadRuntimeConfig) : Result TlsReloadRuntimeError unit :=
  if trc_manifest_path_empty c || bool_decide (trc_files c = [])
     || (trc_poll_interval c =? 0) || (trc_expiry_warning c =? 0)
  then Err InvalidConfig else Ok tt.

Record TlsReloadCandidate : Type := MkCandidate {
  cand_config : T;
  cand_validity : TlsCertificateValidity
}.

(** One iteration: the outcome of the load and the two clock readings. *)
Record Tick : Type := MkTick {
  tick_loaded : Result GenerationReloadError GenerationReload;
  tick_publish_now : Z;
  tick_status_now : Z
}.

Context (build : GenerationReload → option TlsReloadCandidate).

Definition poll (s : ReloadState) (tick : Tick) : ReloadState :=
  match tick_loaded tick with
  | Err _ => mark_tls_reload_failed s
  | Ok generation =>
      match build generation with
      | None => mark_tls_reload_failed s
      | Some candidate =>
          match publish s (gr_generation generation) (gr_manifest_digest generation)
                  (cand_config candidate) (cand_validity candidate) (tick_publish_now tick) with
          | (Ok _, s') => s'
          | (Err _, s') => mark_tls_reload_failed s'
          end
      end
  end.

(** [run_until_shutdown]; the end of the list is the cancellation. *)
Fixpoint run_until_shutdown (expiry_warning : Z) (s : ReloadState) (ticks : list Tick)
    : Result TlsReloadRuntimeError unit * ReloadState :=
  match ticks with
  | [] => (Ok tt, s)
  | tick :: ticks =>
      let s := poll s tick in
      let status := reload_status s (tick_status_now tick) expiry_warning in
      if decide (status_health status = HealthExpired)
      then (Err (ActiveCredentialsExpired (status_generation status)), s)
      else run_until_shutdown expiry_warning s ticks
  end.

(** ** Lemmas *)

Definition same_credentials (s s' : ReloadState) : Prop :=
  rl_generation s' = rl_generation s ∧ rl_manifest_digest s' = rl_manifest_digest s ∧
  rl_config s' = rl_config s ∧ rl_validity s' = rl_validity s.

(** The state carries the credentials that a tick loaded and that were valid then. *)
Definition activated_by (tick : Tick) (s' : ReloadState) : Prop :=
  ∃ g c, tick_loaded tick = Ok g ∧ build g = Some c ∧
    rl_generation s' = gr_generation g ∧ rl_manifest_digest s' = gr_manifest_digest g ∧
    rl_config s' = cand_config c ∧ rl_validity s' = cand_validity c ∧
    not_before (cand_validity c) ≤ tick_publish_now tick < not_after (cand_validity c).

Lemma validate_candidate_time_Ok v now :
  validate_candidate_time v now = Ok tt ↔ not_before v ≤ now < not_after v.
Proof.
  unfold validate_candidate_time.
  destruct (Z.ltb_spec now (not_before v)), (Z.leb_spec (not_after v) now); naive_solver lia.
Qed.

#[local] Instance same_credentials_preorder : PreOrder same_credentials.
Proof.
  split; [by intros s|]. intros s1 s2 s3 (?&?&?&?) (?&?&?&?). split_and!; congruence.
Qed.

Lemma same_marked s s' : same_credentials s s' → same_credentials s (mark_tls_reload_failed s').
Proof. done. Qed.

Lemma poll_cases s tick :
  same_credentials s (poll s tick) ∨
  rl_generation s < rl_generation (poll s tick) ∧ activated_by tick (poll s tick).
Proof.
  unfold poll. destruct (tick_loaded tick) as [g|] eqn:Hl; [|by left].
  destruct (build g) as [c|] eqn:Hb; [|by left]. unfold publish.
  destruct (validate_candidate_time (cand_validity c) (tick_publish_now tick)) as [[]|] eqn:Hv; [|by left].
  apply validate_candidate_time_Ok in Hv.
  destruct (Z.ltb_spec (gr_generation g) (rl_generation s)); [by left|].
  destruct (Z.eqb_spec (gr_generation g) (rl_generation s)); [left; by case_bool_decide|].
  right. split; [cbn; lia|]. by exists g, c.
Qed.

(** Where a run can be: the same credentials, or those of one of its ticks. *)
Definition progressed (s : ReloadState) (ticks : list Tick) (s' : ReloadState) : Prop :=
  same_credentials s s' ∨
  rl_generation s < rl_generation s' ∧ ∃ tick, tick ∈ ticks ∧ activated_by tick s'.

Lemma activated_same tick s s' : activated_by tick s → same_credentials s s' → activated_by tick s'.
Proof.
  intros (g & c & H) (Hg & Hd & Hc & Hv). exists g, c. by rewrite Hg, Hd, Hc, Hv.
Qed.

Lemma polls_progress s ticks : progressed s ticks (foldl poll s ticks).
Proof.
  induction ticks as [|tick ticks IH] using rev_ind; [by left|]. rewrite foldl_snoc.
  set (s1 := foldl poll s ticks) in *.
  destruct (poll_cases s1 tick) as [Hs|[Hlt Ha]].
  - destruct IH as [Hs1|(Hlt & t & Hin & Ha)]; [left; by etrans|]. right.
    split; [destruct Hs as (-> & _); done|]. exists t. split; [set_solver|].
    by eapply activated_same.
  - right. split; [|exists tick; set_solver].
    destruct IH as [(<-&_)|[? _]]; lia.
Qed.

Lemma expired_iff s now w :
  status_health (reload_status s now w) = HealthExpired ↔ not_after (rl_validity s) ≤ now.
Proof.
  unfold reload_status. cbn.
  destruct (Z.leb_spec (not_after (rl_validity s)) now); [done|].
  destruct (rl_reload_failed s); [split; [done|lia]|]. case_match; split; try done; lia.
Qed.

(** The loop as a fold: it stops at the first tick that finds expired credentials. *)
Lemma run_spec w s ticks r s' :
  run_until_shutdown w s ticks = (r, s') →
  ∃ done_ticks rest, ticks = done_ticks ++ rest ∧ s' = foldl poll s done_ticks ∧
    (∀ before tick after, done_ticks = before ++ tick :: after → after ≠ [] →
       tick_status_now tick < not_after (rl_validity (foldl poll s (before ++ [tick])))) ∧
    ((r = Ok tt ∧ rest = [] ∧
      ∀ before tick, done_ticks = before ++ [tick] →
        tick_status_now tick < not_after (rl_validity s')) ∨
     (r = Err (ActiveCredentialsExpired (rl_generation s')) ∧
      ∃ before tick, done_ticks = before ++ [tick] ∧
        not_after (rl_validity s') ≤ tick_status_now tick)).
Proof.
  revert s. induction ticks as [|tick ticks IH]; intros s H; cbn [run_until_shutdown] in H.
  { injection H as <- <-. exists [], []. split_and!; [done|done|by intros []|].
    left. split_and!; [done|done|]. by intros [] ?. }
  case_decide as Hexp; rewrite expired_iff in Hexp.
  - injection H as <- <-. exists [tick], ticks. split_and!; [done|done| |].
    + intros before t after Heq Hne. destruct before as [|? [|? ?]]; simplify_eq/=; done.
    + right. split; [done|]. exists [], tick. by split.
  - apply IH in H as (dn & rest & -> & -> & Hdone & Hend). exists (tick :: dn), rest.
    split_and!; [done|done| |].
    + intros before t after Heq Hne. destruct before as [|t0 before]; simplify_eq/=; [lia|].
      by eapply Hdone.
    + destruct Hend as [(-> & -> & Hl)|(-> & before & t & -> & Hl)].
      * left. split_and!; [done|done|]. intros before t Heq.
        destruct before as [|t0 before]; simplify_eq/=; [lia|]. by eapply Hl.
      * right. split; [done|]. by exists (tick :: before), t.
Qed.

(** C37. Reloading credentials fails safe.  Over any sequence of polls the active
    generation never decreases; until it increases, configuration, digest and
    validity stay as they are, whatever was loaded; when it has increased they
    are those of a candidate that some poll loaded and that was within its
    validity period then.  The loop ends with an error exactly when a poll finds
    the active certificate expired, and it survives every other failure. *)
Theorem tls_reload_safe w s ticks r s' :
  run_until_shutdown w s ticks = (r, s') →
  rl_generation s ≤ rl_generation s' ∧ progressed s ticks s' ∧
  ((r = Ok tt ∧ s' = foldl poll s ticks ∧
    ∀ before tick after, ticks = before ++ tick :: after →
      tick_status_now tick < not_after (rl_validity (foldl poll s (before ++ [tick])))) ∨
   (r = Err (ActiveCredentialsExpired (rl_generation s')) ∧
    ∃ before tick after, ticks = before ++ tick :: after ∧
      s' = foldl poll s (before ++ [tick]) ∧ not_after (rl_validity s') ≤ tick_status_now tick)).
Proof.
  intros (dn & rest & -> & -> & Hdone & Hend)%run_spec.
  assert (progressed s (dn ++ rest) (foldl poll s dn)) as Hp.
  { destruct (polls_progress s dn) as [Hs|(Hlt & t & Hin & Ha)]; [by left|].
    right. split; [done|]. exists t. set_solver. }
  split; [destruct Hp as [(-> & _)|[? _]]; lia|]. split; [done|].
  destruct Hend as [(-> & -> & Hl)|(-> & before & t & -> & Hl)].
  - left. rewrite (right_id_L [] (++)) in *. split_and!; [done|done|].
    intros before tick after Heq. destruct after as [|a after].
    + rewrite <-Heq. by eapply Hl.
    + by eapply (Hdone before tick (a :: after)).
  - right. split; [done|]. exists before, t, rest. by rewrite <-(assoc_L (++)).
Qed.
End reload.

Lemma tls_reload_safe_witness :
  let s := MkReload 3 [] 0%Z (MkValidity 0 100) false in
  let build := λ g, Some (MkCandidate (gr_generation g) (MkValidity 0 200)) in
  let ticks := [MkTick (Ok (MkGeneration 5 [] ∅)) 50 60; MkTick (Err FileSet) 70 201] in
  let s' := MkReload 5 [] 5 (MkValidity 0 200) true in
  rl_generation s ≤ rl_generation s' ∧ progressed build s ticks s' ∧
  ((Err (ActiveCredentialsExpired 5) = Ok tt ∧ s' = foldl (poll build) s ticks ∧
    ∀ before tick after, ticks = before ++ tick :: after →
      tick_status_now tick < not_after (rl_validity (foldl (poll build) s (before ++ [tick])))) ∨
   (Err (ActiveCredentialsExpired 5) = Err (E := TlsReloadRuntimeError) (A := unit)
      (ActiveCredentialsExpired (rl_generation s')) ∧
    ∃ before tick after, ticks = before ++ tick :: after ∧
      s' = foldl (poll build) s (before ++ [tick]) ∧
      not_after (rl_validity s') ≤ tick_status_now tick)).
Proof.
  intros s build ticks s'. apply (tls_reload_safe build 10 s ticks). vm_compute. reflexivity.
Defined.
