(* ===== verification/Base64.v ===== *)
(** * Base64: the text encoding of tokens and key files

    The [base64] crate is used through [URL_SAFE_NO_PAD.encode] and [.decode].
    [Base64] is that interface, [Base64Laws] what its documentation promises
    (RFC 4648, section 5, without padding), and [Url] an implementation of the
    RFC that satisfies the laws. *)

From S2P Require Import Prelude Text.

Class Base64 : Type := {
  b64_encode : bytes → str;
  b64_decode : str → option bytes
}.

Definition url_safe (b : byte) : bool :=
  is_ascii_alphanumeric b || beq b "-"%byte || beq b "_"%byte.

Class Base64Laws (B : Base64) : Prop := {
  b64_decode_encode s : b64_decode (b64_encode s) = Some s;
  b64_alphabet s : Forall (λ b, url_safe b = true) (b64_encode s);
  b64_length s : zlen (b64_encode s) = (4 * zlen s + 2) / 3
}.

Section base64_lemmas.
Context {B : Base64} {HB : Base64Laws B}.

#[global] Instance b64_encode_inj : Inj (=) (=) b64_encode.
Proof. intros s t H. apply (f_equal b64_decode) in H. rewrite !b64_decode_encode in H. congruence. Qed.

Lemma b64_no_dot s : "."%byte ∉ b64_encode s.
Proof. intros Hin. pose proof (b64_alphabet s) as H. rewrite Forall_forall in H. by specialize (H _ Hin). Qed.

Lemma b64_ascii s : forallb is_ascii (b64_encode s) = true.
Proof.
  apply forallb_forall. intros b Hb%list_elem_of_In. pose proof (b64_alphabet s) as H.
  rewrite Forall_forall in H. specialize (H _ Hb). unfold url_safe in H.
  rewrite !orb_true_iff, !beq_true in H. destruct H as [[?| ->]| ->]; [by apply alnum_is_ascii|done..].
Qed.
End base64_lemmas.

(** ** The URL-safe alphabet without padding *)

Module Url.

Definition alphabet : bytes :=
  bstr "ABCDEFGHIJKLMNOPQRSTUVWXYZabcdefghijklmnopqrstuvwxyz0123456789-_".

Definition char (n : Z) : byte := nth (Z.to_nat (n `mod` 64)) alphabet x00%byte.

Fixpoint index (b : byte) (s : bytes) (i : Z) : option Z :=
  match s with
  | [] => None
  | c :: s => if beq b c then Some i else index b s (i + 1)
  end.
Definition value (b : byte) : option Z := index b alphabet 0.

Fixpoint enc (s : bytes) : str :=
  match s with
  | [] => []
  | [a] => let n := b2z a * 16 in [char (n / 64); char n]
  | [a; b] =>
      let n := (b2z a * 256 + b2z b) * 4 in [char (n / 4096); char (n / 64); char n]
  | a :: b :: c :: s =>
      let n := b2z a * 65536 + b2z b * 256 + b2z c in
      char (n / 262144) :: char (n / 4096) :: char (n / 64) :: char n :: enc s
  end.

Fixpoint dec (s : str) : option bytes :=
  match s with
  | [] => Some []
  | [_] => None
  | [w; x] =>
      w ← value w; x ← value x;
      let n := w * 64 + x in
      if n `mod` 16 =? 0 then Some [z2b (n / 16)] else None
  | [w; x; y] =>
      w ← value w; x ← value x; y ← value y;
      let n := w * 4096 + x * 64 + y in
      if n `mod` 4 =? 0 then Some [z2b (n / 1024); z2b (n / 4)] else None
  | w :: x :: y :: z :: s =>
      w ← value w; x ← value x; y ← value y; z ← value z;
      let n := w * 262144 + x * 4096 + y * 64 + z in
      s ← dec s;
      Some (z2b (n / 65536) :: z2b (n / 256) :: z2b n :: s)
  end.

#[global] Instance url : Base64 := {| b64_encode := enc; b64_decode := dec |}.

Lemma all_below_64 (P : Z → bool) n :
  forallb P (seqZ 0 64) = true → P (n `mod` 64) = true.
Proof.
  intros H. rewrite forallb_forall in H. apply H, list_elem_of_In, elem_of_seqZ.
  pose proof (Z.mod_pos_bound n 64). lia.
Qed.

Lemma value_char n : value (char n) = Some (n `mod` 64).
Proof.
  pose proof (all_below_64
    (λ m, bool_decide (value (nth (Z.to_nat m) alphabet x00%byte) = Some m)) n) as H.
  cbv beta in H. rewrite bool_decide_eq_true in H. by apply H.
Qed.

Lemma char_safe n : url_safe (char n) = true.
Proof.
  unfold char. apply (all_below_64 (λ m, url_safe (nth (Z.to_nat m) alphabet x00%byte))).
  vm_compute. reflexivity.
Qed.

Lemma bytes_ind3 (P : bytes → Prop) :
  P [] → (∀ a, P [a]) → (∀ a b, P [a; b]) → (∀ a b c s, P s → P (a :: b :: c :: s)) → ∀ s, P s.
Proof.
  intros H0 H1 H2 H3 s. assert (∀ n s, (length s ≤ n)%nat → P s) as H.
  { clear s. induction n as [|n IH]; intros [|a [|b [|c s]]] Hn; cbn in Hn; try lia; auto.
    apply H3, IH. lia. }
  by apply (H (length s)).
Qed.

Lemma z2b_eq z b : z `mod` 256 = b2z b → z2b z = b.
Proof. intros H. apply (inj b2z). by rewrite b2z_z2b. Qed.

#[local] Ltac Zify.zify_post_hook ::= Z.to_euclidean_division_equations.

Ltac byte_bounds := repeat match goal with
  | b : byte |- _ => lazymatch goal with _ : 0 ≤ b2z b < 256 |- _ => fail | _ => pose proof (b2z_range b) end
  end.

Lemma dec_enc s : dec (enc s) = Some s.
Proof.
  induction s as [|a|a b|a b c s IH] using bytes_ind3; cbn [enc dec]; [done|..];
    rewrite !value_char; cbn [mbind option_bind]; byte_bounds.
  - rewrite (proj2 (Z.eqb_eq _ 0)) by lia. do 2 f_equal. apply z2b_eq. lia.
  - rewrite (proj2 (Z.eqb_eq _ 0)) by lia. repeat f_equal; apply z2b_eq; lia.
  - rewrite IH. cbn [mbind option_bind]. repeat f_equal; apply z2b_eq; lia.
Qed.

#[global] Instance url_laws : Base64Laws url.
Proof.
  split; cbn [b64_encode b64_decode url].
  - apply dec_enc.
  - intros s. induction s using bytes_ind3; cbn [enc]; repeat constructor; auto using char_safe.
  - intros s. induction s as [| | |a b c s IH] using bytes_ind3; cbn [enc]; [done..|].
    rewrite !zlen_cons, IH. lia.
Qed.
End Url.
