(* ===== verification/SignedAccess.v ===== *)
(** * SignedAccess: bounded access tokens for public HTTPS ingress

    [crates/common/src/signed_access.rs] and
    [crates/common/src/signed_access_reload.rs]: claims, their canonical byte
    and text encoding, signing and verification against a key ring, key files,
    and the reload of a key ring from a digest manifest.  The [ed25519_dalek],
    [base64] and [serde_json] crates are interfaces with the laws their
    documentation states. *)

From S2P Require Import Prelude Text Identity Base64 GenerationReload.

Definition TOKEN_MAGIC : bytes := bstr "TPS1".
Definition SIGNATURE_BYTES : Z := 64.
Definition PRIVATE_KEY_BYTES : Z := 32.
Definition PUBLIC_KEY_BYTES : Z := 32.
Definition KEY_FILE_VERSION : Z := 1.
Definition MAX_SIGNED_ACCESS_TOKEN_BYTES : Z := 512.
Definition MAX_SIGNED_ACCESS_KEYS : Z := 8.
Definition MAX_SIGNED_ACCESS_KEY_FILE_BYTES : Z := 16 * 1024.

Record SignedAccessClaims : Type := MkClaims {
  key_id : Z;
  issued_at_unix : Z;
  expires_at_unix : Z;
  claims_hostname : PublicHostname
}.

Inductive SignedAccessError : Type :=
| InvalidKeyId
| KeyGeneration
| KeyFileTooLarge
| InvalidKeyFile
| UnsupportedKeyFileVersion
| EmptyKeyRing
| TooManyKeys
| DuplicateKeyId
| MalformedToken
| UnknownKey
| InvalidSignature
| WrongHostname
| InvalidLifetime
| LifetimeTooLong
| NotYetValid
| Expired.

Abbreviation SResult := (Result SignedAccessError).

Definition validate_key_id (id : Z) : SResult unit :=
  if id =? 0 then Err InvalidKeyId else Ok tt.

Definition check_file_size (bs : bytes) : SResult unit :=
  if bool_decide (bs = []) then Err InvalidKeyFile
  else if MAX_SIGNED_ACCESS_KEY_FILE_BYTES <? zlen bs then Err KeyFileTooLarge
  else Ok tt.

(** ** Payloads *)

Definition encode_payload (id issued expires : Z) (hostname : PublicHostname) : bytes :=
  let hostname := hostname_str hostname in
  TOKEN_MAGIC ++ to_be 4 id ++ to_be 8 issued ++ to_be 8 expires
  ++ to_be 2 (wrap 16 (zlen hostname)) ++ hostname.

Definition PAYLOAD_HEADER_BYTES : Z := 4 + 4 + 8 + 8 + 2.

Definition decode_payload (payload : bytes) : SResult SignedAccessClaims :=
  if (zlen payload <? PAYLOAD_HEADER_BYTES) || negb (bool_decide (take 4 payload = TOKEN_MAGIC))
  then Err MalformedToken
  else
    let id := from_be (take 4 (drop 4 payload)) in
    _ ← map_err (λ _, MalformedToken) (validate_key_id id);
    let issued := from_be (take 8 (drop 8 payload)) in
    let expires := from_be (take 8 (drop 16 payload)) in
    let hostname_len := from_be (take 2 (drop 24 payload)) in
    if negb (zlen payload =? PAYLOAD_HEADER_BYTES + hostname_len) then Err MalformedToken
    else
      text ← ok_or MalformedToken (from_utf8 (drop 26 payload));
      hostname ← map_err (λ _, MalformedToken) (PublicHostname_new text);
      if negb (bool_decide (hostname_str hostname = drop 26 payload)) then Err MalformedToken
      else Ok (MkClaims id issued expires hostname).

(** ** The signature scheme *)

Class Ed25519 : Type := {
  SigningKey : Type;
  VerifyingKey : Type;
  signing_key_from_bytes : bytes → SigningKey;
  verifying_key : SigningKey → VerifyingKey;
  sign_bytes : SigningKey → bytes → bytes;
  verify_bytes : VerifyingKey → bytes → bytes → bool;
  verifying_key_from_bytes : bytes → option VerifyingKey;
  verifying_key_to_bytes : VerifyingKey → bytes
}.

Class Ed25519Laws (K : Ed25519) : Prop := {
  verify_sign k m : verify_bytes (verifying_key k) m (sign_bytes k m) = true;
  sign_length k m : zlen (sign_bytes k m) = SIGNATURE_BYTES;
  verifying_key_bytes k : verifying_key_from_bytes (verifying_key_to_bytes k) = Some k;
  verifying_key_length k : zlen (verifying_key_to_bytes k) = PUBLIC_KEY_BYTES
}.

(** ** Key rings *)

Record SignedAccessKeyRingReloadStatus : Type := MkReloadStatus {
  rs_generation : Z;
  rs_reload_failed : bool;
  rs_successful_reloads : Z;
  rs_failed_reloads : Z
}.

Inductive SignedAccessKeyRingActivation : Type :=
| Activated | RingUnchanged | RingStale | ConflictingGeneration.

Section tokens.
Context {B : Base64} {K : Ed25519}.

Record SignedAccessKeyRingState : Type := MkKeyRing {
  ring_keys : gmap Z VerifyingKey;
  ring_reload : option SignedAccessKeyRingReloadStatus;
  ring_manifest_digest : option bytes
}.

Definition key_ring_new (keys : gmap Z VerifyingKey) : SignedAccessKeyRingState :=
  MkKeyRing keys None None.

Definition initialize_reload (s : SignedAccessKeyRingState) (generation : Z) (digest : bytes)
    : SignedAccessKeyRingState :=
  MkKeyRing (ring_keys s) (Some (MkReloadStatus generation false 0 0)) (Some digest).

Definition mark_reload_failed (s : SignedAccessKeyRingState) : SignedAccessKeyRingState :=
  match ring_reload s with
  | Some st =>
      MkKeyRing (ring_keys s)
        (Some (MkReloadStatus (rs_generation st) true (rs_successful_reloads st)
                 (saturating_add 64 (rs_failed_reloads st) 1)))
        (ring_manifest_digest s)
  | None => s
  end.

Definition activate_reload_candidate (s : SignedAccessKeyRingState) (generation : Z)
    (digest : bytes) (candidate : SignedAccessKeyRingState)
    : SignedAccessKeyRingActivation * SignedAccessKeyRingState :=
  match ring_reload s with
  | None => (RingStale, s)
  | Some st =>
      if generation <? rs_generation st then (RingStale, s)
      else if generation =? rs_generation st
      then if bool_decide (ring_manifest_digest s = Some digest)
           then (RingUnchanged, s) else (ConflictingGeneration, s)
      else (Activated,
            MkKeyRing (ring_keys candidate)
              (Some (MkReloadStatus generation false
                       (saturating_add 64 (rs_successful_reloads st) 1) (rs_failed_reloads st)))
              (Some digest))
  end.

(** ** Signing and verification *)

Record SignedAccessSigner : Type := MkSigner { signer_key_id : Z; signer_key : SigningKey }.

Definition from_private_key (id : Z) (private_key : bytes) : SResult SignedAccessSigner :=
  _ ← validate_key_id id; Ok (MkSigner id (signing_key_from_bytes private_key)).

Definition public_key_ring (s : SignedAccessSigner) : SignedAccessKeyRingState :=
  key_ring_new {[ signer_key_id s := verifying_key (signer_key s) ]}.

Definition sign (s : SignedAccessSigner) (hostname : PublicHostname) (issued expires : Z)
    : SResult str :=
  if expires <=? issued then Err InvalidLifetime
  else
    let payload := encode_payload (signer_key_id s) issued expires hostname in
    let signature := sign_bytes (signer_key s) payload in
    Ok (b64_encode payload ++ bstr "." ++ b64_encode signature).

Definition decode_canonical (value : str) : SResult bytes :=
  decoded ← ok_or MalformedToken (b64_decode value);
  if negb (bool_decide (b64_encode decoded = value)) then Err MalformedToken else Ok decoded.

Definition verify (s : SignedAccessKeyRingState) (token : str) (expected_hostname : PublicHostname)
    (now_unix maximum_ttl_seconds clock_skew_seconds : Z) : SResult SignedAccessClaims :=
  if bool_decide (token = []) || (MAX_SIGNED_ACCESS_TOKEN_BYTES <? zlen token)
  then Err MalformedToken
  else
    '(payload_text, signature_text) ← ok_or MalformedToken
      (p ← split_once "."%byte token; if contains_byte "."%byte p.2 then None else Some p);
    payload ← decode_canonical payload_text;
    signature ← decode_canonical signature_text;
    if negb (zlen signature =? SIGNATURE_BYTES) then Err MalformedToken
    else
      claims ← decode_payload payload;
      key ← ok_or UnknownKey (ring_keys s !! key_id claims);
      if negb (verify_bytes key payload signature) then Err InvalidSignature
      else if negb (bool_decide (hostname_str (claims_hostname claims)
                                 = hostname_str expected_hostname)) then Err WrongHostname
      else
        ttl ← ok_or InvalidLifetime
          (checked_sub (expires_at_unix claims) (issued_at_unix claims));
        if (ttl =? 0) || (maximum_ttl_seconds <? ttl) then Err LifetimeTooLong
        else if saturating_add 64 now_unix clock_skew_seconds <? issued_at_unix claims
        then Err NotYetValid
        else if saturating_add 64 (expires_at_unix claims) clock_skew_seconds <? now_unix
        then Err Expired
        else Ok claims.

(** ** Key files *)

Record PrivateKeyFile : Type := MkPrivateKeyFile {
  pkf_version : Z; pkf_key_id : Z; pkf_private_key : str
}.
Record PublicKeyFile : Type := MkPublicKeyFile { puf_key_id : Z; puf_public_key : str }.
Record PublicKeyRingFile : Type := MkRingFile { prf_version : Z; prf_keys : list PublicKeyFile }.

(** [serde_json] on the two file types. *)
Record KeyFileJson : Type := MkKeyFileJson {
  private_to_vec : PrivateKeyFile → option bytes;
  private_from_slice : bytes → option PrivateKeyFile;
  ring_to_vec : PublicKeyRingFile → option bytes;
  ring_from_slice : bytes → option PublicKeyRingFile
}.

(** What was written is read back, and nothing is read from an empty file. *)
Record KeyFileJsonLaws (J : KeyFileJson) : Prop := {
  private_roundtrip f bs : private_to_vec J f = Some bs → private_from_slice J bs = Some f;
  private_empty : private_from_slice J [] = None;
  ring_roundtrip f bs : ring_to_vec J f = Some bs → ring_from_slice J bs = Some f;
  ring_empty : ring_from_slice J [] = None
}.

Section files.
Context (J : KeyFileJson).

(** [try_into] a fixed-size array. *)
Definition exact_size (n : Z) (bs : bytes) : SResult bytes :=
  if zlen bs =? n then Ok bs else Err InvalidKeyFile.

(** [random] is the outcome of [getrandom]. *)
Definition generate_signed_access_keypair (random : option bytes) (id : Z) : SResult (bytes * bytes) :=
  _ ← validate_key_id id;
  private_key ← ok_or KeyGeneration random;
  signer ← from_private_key id private_key;
  private_file ← ok_or InvalidKeyFile
    (private_to_vec J (MkPrivateKeyFile KEY_FILE_VERSION id (b64_encode private_key)));
  public_file ← ok_or InvalidKeyFile
    (ring_to_vec J (MkRingFile KEY_FILE_VERSION
       [MkPublicKeyFile id (b64_encode (verifying_key_to_bytes (verifying_key (signer_key signer))))]));
  Ok (private_file, public_file).

Definition load_signed_access_signer (bs : bytes) : SResult SignedAccessSigner :=
  _ ← check_file_size bs;
  file ← ok_or InvalidKeyFile (private_from_slice J bs);
  if negb (pkf_version file =? KEY_FILE_VERSION) then Err UnsupportedKeyFileVersion
  else
    _ ← validate_key_id (pkf_key_id file);
    key ← map_err (λ _, InvalidKeyFile) (decode_canonical (pkf_private_key file));
    key ← exact_size PRIVATE_KEY_BYTES key;
    from_private_key (pkf_key_id file) key.

Fixpoint load_ring_keys (entries : list PublicKeyFile) (keys : gmap Z VerifyingKey)
    : SResult (gmap Z VerifyingKey) :=
  match entries with
  | [] => Ok keys
  | entry :: entries =>
      _ ← validate_key_id (puf_key_id entry);
      bs ← map_err (λ _, InvalidKeyFile) (decode_canonical (puf_public_key entry));
      bs ← exact_size PUBLIC_KEY_BYTES bs;
      key ← ok_or InvalidKeyFile (verifying_key_from_bytes bs);
      match keys !! puf_key_id entry with
      | Some _ => Err DuplicateKeyId
      | None => load_ring_keys entries (<[puf_key_id entry := key]> keys)
      end
  end.

Definition load_signed_access_key_ring (bs : bytes) : SResult SignedAccessKeyRingState :=
  _ ← check_file_size bs;
  file ← ok_or InvalidKeyFile (ring_from_slice J bs);
  if negb (prf_version file =? KEY_FILE_VERSION) then Err UnsupportedKeyFileVersion
  else if bool_decide (prf_keys file = []) then Err EmptyKeyRing
  else if MAX_SIGNED_ACCESS_KEYS <? zlen (prf_keys file) then Err TooManyKeys
  else keys ← load_ring_keys (prf_keys file) ∅; Ok (key_ring_new keys).

(** [BTreeMap] iteration is in the order of the identifiers. *)
Definition key_le (x y : Z * VerifyingKey) : Prop := x.1 ≤ y.1.
#[local] Instance key_le_dec : RelDecision key_le.
Proof. intros x y. unfold key_le. apply _. Defined.

Definition sorted_keys (keys : gmap Z VerifyingKey) : list (Z * VerifyingKey) :=
  merge_sort key_le (map_to_list keys).

Fixpoint merge_keys (additional : list (Z * VerifyingKey)) (keys : gmap Z VerifyingKey)
    : SResult (gmap Z VerifyingKey) :=
  match additional with
  | [] => Ok keys
  | (id, key) :: additional =>
      match keys !! id with
      | Some _ => Err DuplicateKeyId
      | None => merge_keys additional (<[id := key]> keys)
      end
  end.

Definition merge_signed_access_key_rings (existing additional : bytes) : SResult bytes :=
  existing ← load_signed_access_key_ring existing;
  additional ← load_signed_access_key_ring additional;
  keys ← merge_keys (sorted_keys (ring_keys additional)) (ring_keys existing);
  if MAX_SIGNED_ACCESS_KEYS <? Z.of_nat (size keys) then Err TooManyKeys
  else
    ok_or InvalidKeyFile (ring_to_vec J (MkRingFile KEY_FILE_VERSION
      ((λ x, MkPublicKeyFile x.1 (b64_encode (verifying_key_to_bytes x.2))) <$> sorted_keys keys))).

(** ** Reloading the ring *)

Definition KEY_RING_MATERIAL_NAME : str := bstr "keyring".

Inductive SignedAccessKeyRingReloadError : Type :=
| ZeroPollInterval
| ReloadGeneration (e : GenerationReloadError)
| ReloadKeyRing (e : SignedAccessError).

(** The state after [bootstrap]; [loaded] is the outcome of [load_candidate]. *)
Definition bootstrap (poll_interval : Z) (loaded : Result GenerationReloadError GenerationReload)
    : Result SignedAccessKeyRingReloadError SignedAccessKeyRingState :=
  if poll_interval =? 0 then Err ZeroPollInterval
  else
    generation ← map_err ReloadGeneration loaded;
    bs ← map_err ReloadGeneration (gr_file generation KEY_RING_MATERIAL_NAME);
    ring ← map_err ReloadKeyRing (load_signed_access_key_ring bs);
    Ok (initialize_reload ring (gr_generation generation) (gr_manifest_digest generation)).

Definition reload_once (s : SignedAccessKeyRingState)
    (loaded : Result GenerationReloadError GenerationReload) : SignedAccessKeyRingState :=
  match loaded with
  | Err _ => mark_reload_failed s
  | Ok generation =>
      match gr_file generation KEY_RING_MATERIAL_NAME with
      | Err _ => mark_reload_failed s
      | Ok bs =>
          match load_signed_access_key_ring bs with
          | Err _ => mark_reload_failed s
          | Ok candidate =>
              let '(activation, s') := activate_reload_candidate s (gr_generation generation)
                (gr_manifest_digest generation) candidate in
              match activation with
              | Activated | RingUnchanged => s'
              | RingStale | ConflictingGeneration => mark_reload_failed s'
              end
          end
      end
  end.

(** The poll loop of [run_until_shutdown]: one load per tick until cancellation. *)
Definition reload_polls (s : SignedAccessKeyRingState)
    (polls : list (Result GenerationReloadError GenerationReload)) : SignedAccessKeyRingState :=
  foldl reload_once s polls.
End files.

(** ** Payload lemmas *)

Record claims_ok (c : SignedAccessClaims) : Prop := {
  claims_key_nonzero : key_id c ≠ 0;
  claims_key_range : u_range 32 (key_id c);
  claims_issued_range : u_range 64 (issued_at_unix c);
  claims_expires_range : u_range 64 (expires_at_unix c);
  claims_host_ok : hostname_ok (hostname_str (claims_hostname c))
}.

Definition claims_payload (c : SignedAccessClaims) : bytes :=
  encode_payload (key_id c) (issued_at_unix c) (expires_at_unix c) (claims_hostname c).

Lemma zlen_claims_payload c :
  zlen (claims_payload c) = 26 + zlen (hostname_str (claims_hostname c)).
Proof.
  unfold claims_payload, encode_payload. rewrite !zlen_app, !zlen_to_be.
  change (zlen TOKEN_MAGIC) with 4. lia.
Qed.

(** The fields of a payload by position. *)
Lemma payload_fields (p : bytes) :
  26 ≤ zlen p →
  p = take 4 p ++ take 4 (drop 4 p) ++ take 8 (drop 8 p) ++ take 8 (drop 16 p)
      ++ take 2 (drop 24 p) ++ drop 26 p ∧
  length (take 4 (drop 4 p)) = 4%nat ∧ length (take 8 (drop 8 p)) = 8%nat ∧
  length (take 8 (drop 16 p)) = 8%nat ∧ length (take 2 (drop 24 p)) = 2%nat.
Proof.
  intros Hl. unfold zlen in Hl. split_and!; [|rewrite length_take, length_drop; lia..].
  change (drop 26 p) with (drop (24 + 2) p). rewrite <-(drop_drop p 2 24), (take_drop 2).
  change (drop 24 p) with (drop (16 + 8) p). rewrite <-(drop_drop p 8 16), (take_drop 8).
  change (drop 16 p) with (drop (8 + 8) p). rewrite <-(drop_drop p 8 8), (take_drop 8).
  change (drop 8 p) with (drop (4 + 4) p). rewrite <-(drop_drop p 4 4), (take_drop 4).
  by rewrite take_drop.
Qed.

Lemma payload_positions (m a b c d r : bytes) :
  length m = 4%nat → length a = 4%nat → length b = 8%nat → length c = 8%nat → length d = 2%nat →
  let p := m ++ a ++ b ++ c ++ d ++ r in
  take 4 p = m ∧ take 4 (drop 4 p) = a ∧ take 8 (drop 8 p) = b ∧ take 8 (drop 16 p) = c ∧
  take 2 (drop 24 p) = d ∧ drop 26 p = r.
Proof.
  intros Hm Ha Hb Hc Hd p.
  assert (drop 4 p = a ++ b ++ c ++ d ++ r) as E4 by by apply drop_app_length'.
  assert (drop 8 p = b ++ c ++ d ++ r) as E8.
  { change (drop 8 p) with (drop (4 + 4) p). rewrite <-drop_drop, E4. by apply drop_app_length'. }
  assert (drop 16 p = c ++ d ++ r) as E16.
  { change (drop 16 p) with (drop (8 + 8) p). rewrite <-drop_drop, E8. by apply drop_app_length'. }
  assert (drop 24 p = d ++ r) as E24.
  { change (drop 24 p) with (drop (16 + 8) p). rewrite <-drop_drop, E16. by apply drop_app_length'. }
  rewrite E4, E8, E16, E24. split_and!; try by apply take_app_length'.
  change (drop 26 p) with (drop (24 + 2) p). rewrite <-drop_drop, E24. by apply drop_app_length'.
Qed.

Lemma token_payload_encode c : claims_ok c → decode_payload (claims_payload c) = Ok c.
Proof.
  intros [Hk Hk32 Hi He Hh]. unfold decode_payload.
  pose proof (zlen_claims_payload c) as Hlen. pose proof (zlen_nonneg (hostname_str (claims_hostname c))).
  rewrite Hlen. unfold claims_payload, encode_payload. rewrite wrap_small by by apply hostname_u16.
  set (h := hostname_str (claims_hostname c)) in *. unfold PAYLOAD_HEADER_BYTES.
  rewrite (proj2 (Z.ltb_ge _ _)) by lia.
  destruct (payload_positions TOKEN_MAGIC (to_be 4 (key_id c)) (to_be 8 (issued_at_unix c))
    (to_be 8 (expires_at_unix c)) (to_be 2 (zlen h)) h) as (-> & -> & -> & -> & -> & ->);
    [by rewrite ?length_to_be..|].
  rewrite bool_decide_eq_true_2 by done.
  rewrite from_be_to_be_u32, !from_be_to_be_u64, from_be_to_be_u16 by (done || by apply hostname_u16).
  unfold validate_key_id. rewrite (proj2 (Z.eqb_neq (key_id c) 0)) by done. cbn [map_err mbind result_bind negb orb].
  change (4 + 4 + 8 + 8 + 2) with 26. rewrite Z.eqb_refl. cbn [negb].
  rewrite hostname_ok_utf8 by done. cbn [ok_or mbind result_bind]. unfold h.
  rewrite PublicHostname_new_id by done. cbn [map_err mbind result_bind].
  rewrite bool_decide_eq_true_2 by done. by destruct c.
Qed.

Lemma token_payload_Ok p c : decode_payload p = Ok c ↔ claims_ok c ∧ p = claims_payload c.
Proof.
  split; [|intros [Hc ->]; by apply token_payload_encode].
  unfold decode_payload. intros H. inv_result.
  rewrite !orb_false_iff, !negb_false_iff, !bool_decide_eq_true, Z.ltb_ge, Z.eqb_eq in *.
  destruct_and!. unfold PAYLOAD_HEADER_BYTES in *.
  destruct (payload_fields p) as (Hp & L1 & L2 & L3 & L4); [lia|].
  match goal with H : from_utf8 _ = Some ?t |- _ => apply from_utf8_Some in H; subst t end.
  match goal with H : PublicHostname_new _ = Ok ?h |- _ => pose proof (PublicHostname_new_hostname_ok _ _ H) end.
  match goal with H : validate_key_id ?i = Ok _ |- _ =>
    unfold validate_key_id in H; destruct (Z.eqb_spec i 0); [discriminate H|] end.
  split.
  - split; cbn; [done|exact (from_be_u_range _ 4 L1)|exact (from_be_u_range _ 8 L2)
      |exact (from_be_u_range _ 8 L3)|done].
  - unfold claims_payload, encode_payload. cbn [key_id issued_at_unix expires_at_unix claims_hostname].
    match goal with H : hostname_str ?h = drop 26 p |- _ => rewrite H in * end.
    rewrite wrap_small by by apply hostname_u16.
    assert (zlen (drop 26 p) = from_be (take 2 (drop 24 p))) as ->.
    { unfold zlen in *. rewrite length_drop. lia. }
    rewrite !to_be_from_be by done. congruence.
Qed.

(** ** Tokens *)

Context {HB : Base64Laws B}.

Lemma decode_canonical_Ok t bs : decode_canonical t = Ok bs ↔ t = b64_encode bs.
Proof.
  unfold decode_canonical. split.
  - intros H. inv_result. apply negb_false_iff, bool_decide_eq_true in Heqb. by subst.
  - intros ->. rewrite b64_decode_encode. cbn [ok_or mbind result_bind].
    by rewrite bool_decide_eq_true_2.
Qed.

(** The text of a token. *)
Definition token_text (payload signature : bytes) : str :=
  b64_encode payload ++ bstr "." ++ b64_encode signature.

Lemma zlen_token_text c signature :
  claims_ok c → zlen signature = SIGNATURE_BYTES →
  1 ≤ zlen (token_text (claims_payload c) signature) ≤ MAX_SIGNED_ACCESS_TOKEN_BYTES.
Proof.
  intros Hc Hs. unfold token_text. rewrite !zlen_app, !b64_length, zlen_claims_payload, Hs.
  pose proof (hostname_len _ (claims_host_ok _ Hc)) as Hh. change (zlen (bstr ".")) with 1.
  change ((4 * SIGNATURE_BYTES + 2) / 3) with 86.
  unfold MAX_PUBLIC_HOSTNAME_BYTES, MAX_SIGNED_ACCESS_TOKEN_BYTES in *.
  set (q := (4 * (26 + zlen (hostname_str (claims_hostname c))) + 2) / 3).
  assert (0 ≤ q < 373).
  { split; [apply Z.div_pos; lia|]. apply Z.div_lt_upper_bound; lia. }
  lia.
Qed.

Lemma split_token payload signature :
  (p ← split_once "."%byte (token_text payload signature);
   if contains_byte "."%byte p.2 then None else Some p)
  = Some (b64_encode payload, b64_encode signature).
Proof.
  rewrite (proj2 (split_once_Some "."%byte _ (b64_encode payload) (b64_encode signature))).
  - cbn [mbind option_bind snd]. by rewrite (proj2 (contains_byte_false _ _)) by apply b64_no_dot.
  - split; [done|apply b64_no_dot].
Qed.

(** The policy checks after the signature. *)
Definition check_policy (c : SignedAccessClaims) (expected : PublicHostname) (now ttl skew : Z)
    : SResult SignedAccessClaims :=
  if negb (bool_decide (hostname_str (claims_hostname c) = hostname_str expected))
  then Err WrongHostname
  else if expires_at_unix c <? issued_at_unix c then Err InvalidLifetime
  else if (expires_at_unix c =? issued_at_unix c)
          || (ttl <? expires_at_unix c - issued_at_unix c) then Err LifetimeTooLong
  else if now + skew <? issued_at_unix c then Err NotYetValid
  else if expires_at_unix c + skew <? now then Err Expired
  else Ok c.

(** On a well-formed token with a valid signature of a known key, verification
    is the policy check over the integers: saturation never decides. *)
Lemma verify_signed s c signature k expected now ttl skew :
  claims_ok c → zlen signature = SIGNATURE_BYTES → u_range 64 now → 0 ≤ skew →
  ring_keys s !! key_id c = Some k → verify_bytes k (claims_payload c) signature = true →
  verify s (token_text (claims_payload c) signature) expected now ttl skew
  = check_policy c expected now ttl skew.
Proof.
  intros Hc Hsig Hnow Hskew Hk Hv. destruct (zlen_token_text c signature Hc Hsig) as [Hl1 Hl2].
  unfold verify. rewrite bool_decide_eq_false_2 by (intros He; by rewrite He in Hl1).
  rewrite (proj2 (Z.ltb_ge MAX_SIGNED_ACCESS_TOKEN_BYTES _)) by done. cbn [orb].
  rewrite split_token. cbn [ok_or mbind result_bind].
  rewrite !(proj2 (decode_canonical_Ok _ _) eq_refl). cbn [mbind result_bind].
  rewrite Hsig, Z.eqb_refl. cbn [negb]. rewrite token_payload_encode by done.
  cbn [mbind result_bind]. rewrite Hk. cbn [ok_or mbind result_bind]. rewrite Hv. cbn [negb].
  unfold check_policy. destruct (negb (bool_decide _)); [done|].
  unfold checked_sub. rewrite Z.leb_antisym. destruct (expires_at_unix c <? issued_at_unix c); [done|].
  cbn [negb ok_or mbind result_bind].
  assert ((expires_at_unix c - issued_at_unix c =? 0) = (expires_at_unix c =? issued_at_unix c)) as ->.
  { destruct (Z.eqb_spec (expires_at_unix c) (issued_at_unix c)); [by apply Z.eqb_eq; lia|].
    apply Z.eqb_neq. lia. }
  destruct (_ || _); [done|].
  pose proof (claims_issued_range _ Hc) as Hi. unfold saturating_add, umax, u_range in *.
  assert ((Z.min (now + skew) (2 ^ 64 - 1) <? issued_at_unix c) = (now + skew <? issued_at_unix c)) as ->.
  { destruct (Z.ltb_spec (now + skew) (issued_at_unix c)); [apply Z.ltb_lt|apply Z.ltb_ge]; lia. }
  destruct (now + skew <? issued_at_unix c); [done|].
  assert ((Z.min (expires_at_unix c + skew) (2 ^ 64 - 1) <? now) = (expires_at_unix c + skew <? now)) as ->.
  { destruct (Z.ltb_spec (expires_at_unix c + skew) now); [apply Z.ltb_lt|apply Z.ltb_ge]; lia. }
  done.
Qed.

Lemma check_policy_Ok c expected now ttl skew c' :
  check_policy c expected now ttl skew = Ok c' ↔
  c' = c ∧ hostname_str (claims_hostname c) = hostname_str expected ∧
  issued_at_unix c < expires_at_unix c ∧ expires_at_unix c - issued_at_unix c ≤ ttl ∧
  issued_at_unix c - skew ≤ now ≤ expires_at_unix c + skew.
Proof.
  unfold check_policy. split.
  - intros H. inv_result. rewrite negb_false_iff, bool_decide_eq_true, !orb_false_iff, !Z.ltb_ge,
      Z.eqb_neq in *. split_and!; (done || lia).
  - intros (-> & -> & ? & ? & ?). rewrite bool_decide_eq_true_2 by done. cbn [negb].
    rewrite !(proj2 (Z.ltb_ge _ _)) by lia. by rewrite (proj2 (Z.eqb_neq _ _)) by lia.
Qed.

(** The shape of whatever verification accepts. *)
Lemma verify_inv s token expected now ttl skew c :
  verify s token expected now ttl skew = Ok c →
  claims_ok c ∧ ∃ signature k,
    token = token_text (claims_payload c) signature ∧ zlen signature = SIGNATURE_BYTES ∧
    ring_keys s !! key_id c = Some k ∧ verify_bytes k (claims_payload c) signature = true.
Proof.
  unfold verify. intros H.
  destruct (bool_decide _ || _); [done|].
  apply bind_Ok in H as ([pt st] & Hsplit%ok_or_Ok & H).
  apply bind_Some in Hsplit as ([pt' st'] & Hsplit & Hdot). cbn [snd] in Hdot.
  destruct (contains_byte "."%byte st') eqn:Hc; [done|]. injection Hdot as -> ->.
  apply split_once_Some in Hsplit as [-> _].
  apply bind_Ok in H as (payload & Hp%decode_canonical_Ok & H).
  apply bind_Ok in H as (signature & Hs%decode_canonical_Ok & H). subst.
  destruct (zlen signature =? SIGNATURE_BYTES) eqn:Hz; [|done]. cbn [negb] in H. apply Z.eqb_eq in Hz.
  apply bind_Ok in H as (claims & Hd%token_payload_Ok & H). destruct Hd as [Hok ->].
  apply bind_Ok in H as (k & Hk%ok_or_Ok & H).
  destruct (verify_bytes k (claims_payload claims) signature) eqn:Hv; [|done]. cbn [negb] in H.
  assert (c = claims) as -> by (by inv_result).
  split; [done|]. by exists signature, k.
Qed.

Lemma verify_Ok s token expected now ttl skew c :
  u_range 64 now → 0 ≤ skew →
  verify s token expected now ttl skew = Ok c ↔
  claims_ok c ∧ (∃ signature k,
    token = token_text (claims_payload c) signature ∧ zlen signature = SIGNATURE_BYTES ∧
    ring_keys s !! key_id c = Some k ∧ verify_bytes k (claims_payload c) signature = true) ∧
  hostname_str (claims_hostname c) = hostname_str expected ∧
  issued_at_unix c < expires_at_unix c ∧ expires_at_unix c - issued_at_unix c ≤ ttl ∧
  issued_at_unix c - skew ≤ now ≤ expires_at_unix c + skew.
Proof.
  intros Hnow Hskew. split.
  - intros H. destruct (verify_inv _ _ _ _ _ _ _ H) as (Hok & signature & k & -> & Hs & Hk & Hv).
    rewrite (verify_signed _ _ _ k) in H by done. apply check_policy_Ok in H as (_ & H).
    split; [done|]. split; [by exists signature, k|done].
  - intros (Hok & (signature & k & -> & Hs & Hk & Hv) & H).
    rewrite (verify_signed _ _ _ k) by done. by apply check_policy_Ok.
Qed.

(** C13. What a signed-access check accepts, exactly: the token is the canonical
    text of well-formed claims with a 64-byte signature that a key of the ring
    verifies, the claims name the expected host, their lifetime is positive and
    within the policy, and the time lies in the window widened by the clock skew.
    The 64-bit saturating additions never change the decision, and two different
    token texts never carry the same payload and signature. *)
Theorem verify_exact s token expected now ttl skew c :
  u_range 64 now → 0 ≤ skew →
  verify s token expected now ttl skew = Ok c ↔
  claims_ok c ∧ (∃ signature k,
    token = b64_encode (claims_payload c) ++ bstr "." ++ b64_encode signature ∧
    zlen signature = SIGNATURE_BYTES ∧
    ring_keys s !! key_id c = Some k ∧ verify_bytes k (claims_payload c) signature = true) ∧
  hostname_str (claims_hostname c) = hostname_str expected ∧
  issued_at_unix c < expires_at_unix c ∧ expires_at_unix c - issued_at_unix c ≤ ttl ∧
  issued_at_unix c - skew ≤ now ≤ expires_at_unix c + skew.
Proof. apply verify_Ok. Qed.

Context {HK : Ed25519Laws K}.

Lemma sign_Ok s h issued expires t :
  sign s h issued expires = Ok t ↔
  issued < expires ∧
  t = token_text (encode_payload (signer_key_id s) issued expires h)
        (sign_bytes (signer_key s) (encode_payload (signer_key_id s) issued expires h)).
Proof.
  unfold sign, token_text. destruct (Z.leb_spec expires issued); naive_solver lia.
Qed.

(** A token that a signer of the ring issued is judged by host and time only:
    every outcome is determined, the first violated condition is reported, and
    otherwise the claims that were signed come back. *)
Theorem signed_token_outcome s ring h issued expires t expected now ttl skew :
  sign s h issued expires = Ok t →
  ring_keys ring !! signer_key_id s = Some (verifying_key (signer_key s)) →
  signer_key_id s ≠ 0 → u_range 32 (signer_key_id s) → u_range 64 issued → u_range 64 expires →
  hostname_ok (hostname_str h) → u_range 64 now → 0 ≤ skew →
  verify ring t expected now ttl skew =
    if negb (bool_decide (hostname_str h = hostname_str expected)) then Err WrongHostname
    else if ttl <? expires - issued then Err LifetimeTooLong
    else if now + skew <? issued then Err NotYetValid
    else if expires + skew <? now then Err Expired
    else Ok (MkClaims (signer_key_id s) issued expires h).
Proof.
  intros [Hlt ->]%sign_Ok Hk Hz H32 Hi He Hh Hnow Hskew.
  set (c := MkClaims (signer_key_id s) issued expires h).
  change (encode_payload (signer_key_id s) issued expires h) with (claims_payload c).
  rewrite (verify_signed _ _ _ (verifying_key (signer_key s)));
    [|by split|apply sign_length|done|done|done|apply verify_sign].
  unfold check_policy. cbn [c claims_hostname issued_at_unix expires_at_unix].
  rewrite (proj2 (Z.ltb_ge expires issued)), (proj2 (Z.eqb_neq expires issued)) by lia. done.
Qed.

(** ** Key files *)

Section file_lemmas.
Context (J : KeyFileJson) (HJ : KeyFileJsonLaws J).

(** Every loaded ring has between one and eight keys with non-zero identifiers. *)
Definition ring_ok (keys : gmap Z VerifyingKey) : Prop :=
  (1 ≤ size keys ≤ 8)%nat ∧ keys !! 0 = None.

Lemma load_ring_keys_Ok entries acc keys :
  load_ring_keys entries acc = Ok keys →
  size keys = (size acc + length entries)%nat ∧ (acc !! 0 = None → keys !! 0 = None).
Proof.
  revert acc. induction entries as [|e entries IH]; intros acc H; cbn [load_ring_keys] in H.
  { simplify_eq. cbn. split; [lia|done]. }
  apply bind_Ok in H as (? & Hid & H). apply bind_Ok in H as (? & _ & H).
  apply bind_Ok in H as (? & _ & H). apply bind_Ok in H as (k & _ & H).
  destruct (acc !! puf_key_id e) eqn:Hn; [done|]. destruct (IH _ H) as [Hs H0].
  rewrite map_size_insert_None in Hs by done. split; [cbn; lia|].
  intros Ha. apply H0. rewrite lookup_insert_ne; [done|].
  intros He. unfold validate_key_id in Hid. by rewrite He in Hid.
Qed.

Lemma load_ring_Ok bs s :
  load_signed_access_key_ring J bs = Ok s →
  ring_ok (ring_keys s) ∧ ring_reload s = None ∧ ring_manifest_digest s = None.
Proof.
  unfold load_signed_access_key_ring. intros H. inv_result.
  rewrite bool_decide_eq_false, Z.ltb_ge in *.
  match goal with H : load_ring_keys _ _ = Ok _ |- _ => apply load_ring_keys_Ok in H as [Hs Hzero] end.
  rewrite map_size_empty in Hs. unfold MAX_SIGNED_ACCESS_KEYS, zlen in *. cbn [ring_keys key_ring_new].
  split; [|done]. split; [|by apply Hzero].
  match goal with H : prf_keys ?f ≠ [] |- _ => destruct (prf_keys f); [done|] end. cbn in *. lia.
Qed.

(** The entries that [merge] and [generate] write. *)
Definition ring_entry (x : Z * VerifyingKey) : PublicKeyFile :=
  MkPublicKeyFile x.1 (b64_encode (verifying_key_to_bytes x.2)).

Lemma load_ring_entries l acc :
  Forall (λ x, x.1 ≠ 0) l → NoDup (l.*1) → (∀ x, x ∈ l → acc !! x.1 = None) →
  load_ring_keys (ring_entry <$> l) acc = Ok (list_to_map l ∪ acc).
Proof.
  revert acc. induction l as [|[id k] l IH]; intros acc Hz Hnd Hacc.
  { cbn. by rewrite (left_id_L ∅ (∪)). }
  apply Forall_cons in Hz as [Hz Hzl]. rewrite fmap_cons in Hnd. apply NoDup_cons in Hnd as [Hid Hnd].
  rewrite fmap_cons. cbn [load_ring_keys ring_entry puf_key_id puf_public_key fst snd].
  unfold validate_key_id. rewrite (proj2 (Z.eqb_neq _ _)) by done. cbn [mbind result_bind].
  rewrite (proj2 (decode_canonical_Ok _ (verifying_key_to_bytes k)) eq_refl). cbn [map_err mbind result_bind].
  unfold exact_size. rewrite verifying_key_length, Z.eqb_refl. cbn [mbind result_bind].
  rewrite verifying_key_bytes. cbn [ok_or mbind result_bind].
  assert (acc !! id = None) as Hn by (apply (Hacc (id, k)); set_solver).
  rewrite Hn, IH; [|done|done|].
  - f_equal. cbn [list_to_map foldr]. rewrite <-insert_union_r, insert_union_l; [done|].
    by apply not_elem_of_list_to_map_1.
  - intros [id' k'] Hin. cbn. rewrite lookup_insert_ne; [apply (Hacc (id', k')); set_solver|].
    intros <-. apply Hid. apply list_elem_of_fmap. by exists (id, k').
Qed.

Lemma load_written_ring l bs :
  Forall (λ x, x.1 ≠ 0) l → NoDup (l.*1) → l ≠ [] → zlen l ≤ MAX_SIGNED_ACCESS_KEYS →
  ring_to_vec J (MkRingFile KEY_FILE_VERSION (ring_entry <$> l)) = Some bs →
  zlen bs ≤ MAX_SIGNED_ACCESS_KEY_FILE_BYTES →
  load_signed_access_key_ring J bs = Ok (key_ring_new (list_to_map l)).
Proof.
  intros Hz Hnd Hne Hlen Hbs Hsize. unfold load_signed_access_key_ring, check_file_size.
  pose proof (ring_roundtrip J HJ _ _ Hbs) as Hr.
  rewrite bool_decide_eq_false_2 by (intros ->; rewrite (ring_empty J HJ) in Hr; done).
  rewrite (proj2 (Z.ltb_ge _ _)) by done. cbn [mbind result_bind]. rewrite Hr.
  cbn [ok_or mbind result_bind prf_version prf_keys]. rewrite Z.eqb_refl. cbn [negb].
  rewrite bool_decide_eq_false_2 by by destruct l.
  rewrite (proj2 (Z.ltb_ge _ _)) by (unfold zlen in *; rewrite length_fmap; done).
  rewrite load_ring_entries; [|done|done|by intros; rewrite lookup_empty].
  cbn [mbind result_bind]. by rewrite (right_id_L ∅ (∪)).
Qed.

(** Key files round-trip: a generated private file loads to a signer and the
    public file to exactly that signer's key ring, provided the random source
    delivers 32 bytes and the files respect the size limit; the only other outcomes
    are a zero identifier, a failing random source or a failing encoder. *)
Theorem keypair_roundtrip random id private public :
  generate_signed_access_keypair J random id = Ok (private, public) →
  (∀ r, random = Some r → zlen r = PRIVATE_KEY_BYTES) →
  zlen private ≤ MAX_SIGNED_ACCESS_KEY_FILE_BYTES → zlen public ≤ MAX_SIGNED_ACCESS_KEY_FILE_BYTES →
  ∃ signer, load_signed_access_signer J private = Ok signer ∧ signer_key_id signer = id ∧ id ≠ 0 ∧
            load_signed_access_key_ring J public = Ok (public_key_ring signer).
Proof.
  unfold generate_signed_access_keypair. intros H Hr Hs1 Hs2.
  apply bind_Ok in H as (? & Hid & H). apply bind_Ok in H as (r & Hrnd%ok_or_Ok & H).
  apply bind_Ok in H as (signer & Hsig & H). apply bind_Ok in H as (f1 & H1%ok_or_Ok & H).
  apply bind_Ok in H as (f2 & H2%ok_or_Ok & H). injection H as -> ->.
  assert (id ≠ 0) as Hz by (intros ->; done).
  unfold from_private_key in Hsig. rewrite Hid in Hsig. cbn [mbind result_bind] in Hsig.
  injection Hsig as <-. exists (MkSigner id (signing_key_from_bytes r)). split_and!; [|done|done|].
  - unfold load_signed_access_signer, check_file_size.
    pose proof (private_roundtrip J HJ _ _ H1) as Hf.
    rewrite bool_decide_eq_false_2 by (intros ->; rewrite (private_empty J HJ) in Hf; done).
    rewrite (proj2 (Z.ltb_ge _ _)) by done. cbn [mbind result_bind]. rewrite Hf.
    cbn [ok_or mbind result_bind pkf_version pkf_key_id pkf_private_key]. rewrite Z.eqb_refl.
    cbn [negb]. rewrite Hid. cbn [mbind result_bind].
    rewrite (proj2 (decode_canonical_Ok _ r) eq_refl). cbn [map_err mbind result_bind].
    unfold exact_size. rewrite (Hr r Hrnd), Z.eqb_refl. cbn [mbind result_bind].
    unfold from_private_key. by rewrite Hid.
  - rewrite (load_written_ring [(id, verifying_key (signing_key_from_bytes r))]); try done;
      [by repeat constructor|apply NoDup_singleton].
Qed.

(** ** Merging rings *)

Lemma merge_keys_spec l acc :
  NoDup (l.*1) →
  merge_keys l acc =
    if decide (Forall (λ x, acc !! x.1 = None) l) then Ok (list_to_map l ∪ acc)
    else Err DuplicateKeyId.
Proof.
  revert acc. induction l as [|[id k] l IH]; intros acc Hnd; cbn [merge_keys].
  { rewrite decide_True by constructor. cbn. by rewrite (left_id_L ∅ (∪)). }
  rewrite fmap_cons in Hnd. apply NoDup_cons in Hnd as [Hid Hnd].
  destruct (acc !! id) eqn:Ha.
  { rewrite decide_False; [done|]. intros [H _]%Forall_cons. cbn in H. congruence. }
  rewrite IH by done. assert (Forall (λ x, <[id := k]> acc !! x.1 = None) l ↔
    Forall (λ x, acc !! x.1 = None) ((id, k) :: l)) as Hiff.
  { rewrite Forall_cons. cbn [fst]. rewrite !Forall_forall.
    assert (∀ x, x ∈ l → id ≠ x.1) as Hne.
    { intros x Hx ->. apply Hid. apply list_elem_of_fmap. by exists x. }
    split; [intros H; split; [done|]|intros [_ H]]; intros x Hx.
    - specialize (H x Hx). by rewrite lookup_insert_ne in H by auto.
    - rewrite lookup_insert_ne by auto. by apply H. }
  destruct (decide (Forall _ l)) as [H|H].
  - rewrite decide_True by by apply Hiff. f_equal. cbn [list_to_map foldr].
    rewrite <-insert_union_r, insert_union_l; [done|]. by apply not_elem_of_list_to_map_1.
  - rewrite decide_False; [done|]. by rewrite <-Hiff.
Qed.

Lemma sorted_keys_perm keys : sorted_keys keys ≡ₚ map_to_list keys.
Proof. apply merge_sort_Permutation. Qed.

Lemma sorted_keys_nodup keys : NoDup ((sorted_keys keys).*1).
Proof. rewrite sorted_keys_perm. apply NoDup_fst_map_to_list. Qed.

Lemma sorted_keys_map keys : list_to_map (sorted_keys keys) = keys.
Proof.
  rewrite (list_to_map_proper _ (map_to_list keys) (sorted_keys_nodup keys) (sorted_keys_perm keys)).
  apply list_to_map_to_list.
Qed.

Lemma disjoint_keys (a b : gmap Z VerifyingKey) :
  Forall (λ x, a !! x.1 = None) (sorted_keys b) ↔ a ##ₘ b.
Proof.
  rewrite map_disjoint_spec, Forall_forall. split.
  - intros H id x y Ha Hb. specialize (H (id, y)).
    rewrite sorted_keys_perm, elem_of_map_to_list in H. specialize (H Hb). cbn in H. congruence.
  - intros H [id y] Hin. rewrite sorted_keys_perm, elem_of_map_to_list in Hin. cbn.
    destruct (a !! id) eqn:E; [|done]. exfalso. eauto.
Qed.

(** Merging two rings for a rotation overlap: with both files loadable the
    outcome is determined, a shared identifier or more than eight keys is
    refused, and otherwise the merged file loads to the union of the rings. *)
Theorem merge_rings_union existing additional a b :
  load_signed_access_key_ring J existing = Ok a → load_signed_access_key_ring J additional = Ok b →
  match merge_signed_access_key_rings J existing additional with
  | Ok out => ring_keys a ##ₘ ring_keys b ∧ (size (ring_keys a ∪ ring_keys b) ≤ 8)%nat ∧
      (zlen out ≤ MAX_SIGNED_ACCESS_KEY_FILE_BYTES →
       load_signed_access_key_ring J out = Ok (key_ring_new (ring_keys a ∪ ring_keys b)))
  | Err DuplicateKeyId => ¬ ring_keys a ##ₘ ring_keys b
  | Err TooManyKeys => ring_keys a ##ₘ ring_keys b ∧ (8 < size (ring_keys a ∪ ring_keys b))%nat
  | Err e => e = InvalidKeyFile
  end.
Proof.
  intros Ha Hb. unfold merge_signed_access_key_rings. rewrite Ha, Hb. cbn [mbind result_bind].
  apply load_ring_Ok in Ha as [[_ Ha0] _], Hb as [[[Hb1 _] Hb0] _].
  rewrite merge_keys_spec by apply sorted_keys_nodup. rewrite sorted_keys_map.
  destruct (decide _) as [Hd|Hd]; rewrite disjoint_keys in Hd; [|done]. cbn [mbind result_bind].
  rewrite <-(map_union_comm (ring_keys a)) by done. set (u := ring_keys a ∪ ring_keys b).
  unfold MAX_SIGNED_ACCESS_KEYS. destruct (Z.ltb_spec 8 (Z.of_nat (size u))); [split; [done|lia]|].
  set (l := sorted_keys u). change (λ x : Z * VerifyingKey, _) with ring_entry.
  destruct (ring_to_vec J (MkRingFile KEY_FILE_VERSION (ring_entry <$> l))) as [out|] eqn:Hout; [|done].
  cbn [ok_or]. split; [done|]. split; [lia|]. intros Hsize.
  rewrite (load_written_ring l); try done; [unfold l; by rewrite sorted_keys_map|..].
  - rewrite Forall_forall. intros [id k] Hin Hid. cbn in Hid. subst id. unfold l in Hin.
    rewrite sorted_keys_perm, elem_of_map_to_list in Hin. unfold u in Hin.
    rewrite lookup_union, Ha0, Hb0 in Hin. done.
  - apply sorted_keys_nodup.
  - intros Hl. apply (f_equal length) in Hl. unfold l in Hl.
    rewrite sorted_keys_perm, length_map_to_list in Hl. unfold u in Hl.
    rewrite map_size_disj_union in Hl by done. cbn in Hl. lia.
  - unfold zlen, l, MAX_SIGNED_ACCESS_KEYS. rewrite sorted_keys_perm, length_map_to_list. lia.
Qed.

(** ** Reloads *)

(** What a generation on disk contributes to a ring. *)
Definition ring_from (g : GenerationReload) (s : SignedAccessKeyRingState) : Prop :=
  ∃ bs c, gr_file g KEY_RING_MATERIAL_NAME = Ok bs ∧ load_signed_access_key_ring J bs = Ok c ∧
          ring_keys s = ring_keys c ∧ ring_manifest_digest s = Some (gr_manifest_digest g).

Definition same_ring (s s' : SignedAccessKeyRingState) : Prop :=
  ring_keys s' = ring_keys s ∧ ring_manifest_digest s' = ring_manifest_digest s ∧
  rs_generation <$> ring_reload s' = rs_generation <$> ring_reload s.

Lemma mark_reload_failed_same s : same_ring s (mark_reload_failed s).
Proof. unfold mark_reload_failed, same_ring. by destruct (ring_reload s) eqn:E; rewrite ?E. Qed.

Lemma reload_once_cases s st p :
  ring_reload s = Some st →
  same_ring s (reload_once J s p) ∨
  ∃ g st', p = Ok g ∧ ring_from g (reload_once J s p) ∧ rs_generation st < gr_generation g ∧
           ring_reload (reload_once J s p) = Some st' ∧ rs_generation st' = gr_generation g.
Proof.
  intros Hst. unfold reload_once. destruct p as [g|]; [|left; apply mark_reload_failed_same].
  destruct (gr_file g KEY_RING_MATERIAL_NAME) as [bs|] eqn:Hf; [|left; apply mark_reload_failed_same].
  destruct (load_signed_access_key_ring J bs) as [c|] eqn:Hc; [|left; apply mark_reload_failed_same].
  unfold activate_reload_candidate. rewrite Hst.
  destruct (Z.ltb_spec (gr_generation g) (rs_generation st)); [left; apply mark_reload_failed_same|].
  destruct (Z.eqb_spec (gr_generation g) (rs_generation st)).
  { left. case_bool_decide; [done|apply mark_reload_failed_same]. }
  right. eexists g, _. split_and!; [done| |lia|done|done]. by exists bs, c.
Qed.

(** A key ring only moves forward and never to an invalid ring: after a
    bootstrap and any sequence of polls, successful or not, the active generation
    has not decreased; while it is unchanged so are the keys and the manifest
    digest (last known good), and when it has grown the keys are exactly those of
    a loaded generation with that number.  The ring always has one to eight keys
    with non-zero identifiers. *)
Theorem ring_reload_monotone poll_interval loaded s polls :
  bootstrap J poll_interval loaded = Ok s →
  ∃ st st',
    ring_reload s = Some st ∧ ring_reload (reload_polls J s polls) = Some st' ∧
    rs_generation st ≤ rs_generation st' ∧ ring_ok (ring_keys (reload_polls J s polls)) ∧
    (same_ring s (reload_polls J s polls) ∨
     ∃ g, Ok g ∈ polls ∧ gr_generation g = rs_generation st' ∧
          rs_generation st < gr_generation g ∧ ring_from g (reload_polls J s polls)).
Proof.
  intros Hb. unfold bootstrap in Hb. inv_result.
  match goal with H : load_signed_access_key_ring J _ = Ok ?r |- _ =>
    apply load_ring_Ok in H as [Hring _]; set (s := initialize_reload r _ _) end.
  assert (ring_ok (ring_keys s)) as Hok by done.
  destruct (ring_reload s) as [st|] eqn:Hst; [|done]. exists st. clearbody s. clear -Hst Hok.
  unfold reload_polls. induction polls as [|p polls IH] using rev_ind.
  { exists st. split_and!; [done|done|lia|done|by left]. }
  destruct IH as (st1 & _ & Hst1 & Hle & Hok1 & Hcase). rewrite foldl_snoc.
  set (s1 := foldl (reload_once J) s polls) in *.
  destruct (reload_once_cases s1 st1 p Hst1) as [(Hk & Hd & Hg)|(g & st' & -> & Hfrom & Hlt & Hst' & Hg)].
  - rewrite Hst1 in Hg. destruct (ring_reload (reload_once J s1 p)) as [st'|] eqn:Hst'; [|done].
    injection Hg as Hg. exists st'. split_and!; [done|done|lia|by rewrite Hk|].
    destruct Hcase as [(Hk0 & Hd0 & Hg0)|(g & Hin & Hgen & Hlt & bs & c & Hf & Hc & Hkc & Hdc)].
    + left. split_and!; [congruence..|]. rewrite Hst', <-Hg0, Hst1. cbn. by rewrite Hg.
    + right. exists g. split_and!; [set_solver|congruence|done|]. exists bs, c. split_and!; congruence.
  - exists st'. split_and!; [done|done|lia| |].
    + destruct Hfrom as (bs & c & _ & Hc & -> & _). by apply load_ring_Ok in Hc as [? _].
    + right. exists g. split_and!; [set_solver|done|lia|done].
Qed.
End file_lemmas.
End tokens.

(** ** Instances

    A signature scheme and a JSON codec that satisfy the laws, for the concrete
    runs below: the toy signature is the key and the start of the message. *)

Module Instances.

Definition pad (n : nat) (bs : bytes) : bytes := take n (bs ++ replicate n x00%byte).

Lemma length_pad n bs : length (pad n bs) = n.
Proof. unfold pad. rewrite length_take, length_app, length_replicate. lia. Qed.

Record PublicBytes : Type := MkPublic { public_bytes : bytes; public_len : bool_decide (length public_bytes = 32%nat) = true }.

Lemma public_eq a b : public_bytes a = public_bytes b → a = b.
Proof. destruct a as [x p], b as [y q]. cbn. intros ->. f_equal. apply (proof_irrel p q). Qed.

Definition public_of (bs : bytes) : PublicBytes :=
  MkPublic (pad 32 bs) (bool_decide_eq_true_2 _ (length_pad 32 bs)).

Definition toy : Ed25519 := {|
  SigningKey := bytes;
  VerifyingKey := PublicBytes;
  signing_key_from_bytes := λ bs, bs;
  verifying_key := public_of;
  sign_bytes := λ k m, pad 32 k ++ pad 32 m;
  verify_bytes := λ k m s, bool_decide (s = public_bytes k ++ pad 32 m);
  verifying_key_from_bytes := λ bs, if decide (length bs = 32%nat) then Some (public_of bs) else None;
  verifying_key_to_bytes := public_bytes
|}.

#[global] Instance toy_laws : Ed25519Laws toy.
Proof.
  split; cbn.
  - intros k m. by apply bool_decide_eq_true_2.
  - intros k m. unfold zlen. by rewrite length_app, !length_pad.
  - intros [bs Hbs]. cbn. pose proof Hbs as Hl%bool_decide_eq_true. rewrite decide_True by done.
    f_equal. apply public_eq. cbn. unfold pad. rewrite take_app_length' by done. done.
  - intros [bs Hbs]. cbn. apply bool_decide_eq_true in Hbs. unfold zlen. by rewrite Hbs.
Qed.

(** Any countable type has an invertible text. *)
Fixpoint bits (p : positive) : bytes :=
  match p with xH => ["."%byte] | xO p => "0"%byte :: bits p | xI p => "1"%byte :: bits p end.
Fixpoint unbits (s : bytes) : option positive :=
  match s with
  | [] => None
  | "0"%byte :: s => xO <$> unbits s
  | "1"%byte :: s => xI <$> unbits s
  | _ => Some xH
  end.
Lemma unbits_bits p : unbits (bits p) = Some p.
Proof. induction p as [p IH|p IH|]; cbn; [by rewrite IH..|done]. Qed.

#[global] Instance PrivateKeyFile_eq_dec : EqDecision PrivateKeyFile.
Proof. solve_decision. Defined.
#[global] Instance PublicKeyFile_eq_dec : EqDecision PublicKeyFile.
Proof. solve_decision. Defined.
#[global] Instance PublicKeyRingFile_eq_dec : EqDecision PublicKeyRingFile.
Proof. solve_decision. Defined.

#[global] Program Instance PrivateKeyFile_countable : Countable PrivateKeyFile :=
  inj_countable' (λ f, (pkf_version f, pkf_key_id f, pkf_private_key f))
    (λ x, MkPrivateKeyFile x.1.1 x.1.2 x.2) _.
Next Obligation. by intros []. Qed.
#[global] Program Instance PublicKeyFile_countable : Countable PublicKeyFile :=
  inj_countable' (λ f, (puf_key_id f, puf_public_key f)) (λ x, MkPublicKeyFile x.1 x.2) _.
Next Obligation. by intros []. Qed.
#[global] Program Instance PublicKeyRingFile_countable : Countable PublicKeyRingFile :=
  inj_countable' (λ f, (prf_version f, prf_keys f)) (λ x, MkRingFile x.1 x.2) _.
Next Obligation. by intros []. Qed.

Definition json : KeyFileJson := {|
  private_to_vec := λ f, Some (bits (encode f));
  private_from_slice := λ bs, unbits bs ≫= decode;
  ring_to_vec := λ f, Some (bits (encode f));
  ring_from_slice := λ bs, unbits bs ≫= decode
|}.

Lemma json_laws : KeyFileJsonLaws json.
Proof.
  split; cbn; try done; intros f bs [= <-]; rewrite unbits_bits; cbn; apply decode_encode.
Qed.

Definition signer : SignedAccessSigner (K := toy) := MkSigner (K := toy) 3 (bstr "secret").
Definition host : PublicHostname := MkPublicHostname (bstr "app.example").
Definition token : str :=
  default [] (match sign (B := Url.url) signer host 100 200 with Ok t => Some t | Err _ => None end).

Lemma host_ok : hostname_ok (hostname_str host).
Proof. apply (PublicHostname_new_hostname_ok (bstr "app.example")). vm_compute. reflexivity. Qed.

Definition private_bytes : bytes := replicate 32 "k"%byte.
Definition ring_file (id : Z) : bytes :=
  match generate_signed_access_keypair (B := Url.url) (K := toy) json (Some private_bytes) id with
  | Ok (_, public) => public | Err _ => [] end.
Definition ring_generation (id generation : Z) : GenerationReload :=
  MkGeneration generation (to_be 32 generation) {[ KEY_RING_MATERIAL_NAME := ring_file id ]}.
End Instances.

Import Instances.

Lemma token_claims_ok : claims_ok (MkClaims 3 100 200 host).
Proof. split; cbn; [done|done|done|done|exact host_ok]. Qed.

Lemma verify_exact_witness :
  verify (B := Url.url) (public_key_ring signer) token host 150 100 5 = Ok (MkClaims 3 100 200 host) ↔
  claims_ok (MkClaims 3 100 200 host) ∧ (∃ signature k,
    token = b64_encode (Base64 := Url.url) (claims_payload (MkClaims 3 100 200 host)) ++ bstr "."
            ++ b64_encode (Base64 := Url.url) signature ∧
    zlen signature = SIGNATURE_BYTES ∧
    ring_keys (public_key_ring signer) !! 3 = Some k ∧
    verify_bytes k (claims_payload (MkClaims 3 100 200 host)) signature = true) ∧
  hostname_str host = hostname_str host ∧ 100 < 200 ∧ 200 - 100 ≤ 100 ∧ 100 - 5 ≤ 150 ≤ 200 + 5.
Proof.
  apply (verify_exact (B := Url.url) (K := toy) (public_key_ring signer) token host 150 100 5
    (MkClaims 3 100 200 host)); [split; lia|lia].
Defined.

Lemma signed_token_outcome_witness :
  verify (B := Url.url) (public_key_ring signer) token host 150 100 5
  = Ok (MkClaims 3 100 200 host).
Proof.
  apply (signed_token_outcome (B := Url.url) (K := toy) signer (public_key_ring signer) host 100 200
    token host 150 100 5).
  - vm_compute. reflexivity.
  - vm_compute. reflexivity.
  - discriminate.
  - split; cbn; lia.
  - split; lia.
  - split; lia.
  - exact host_ok.
  - split; lia.
  - lia.
Defined.

Lemma keypair_roundtrip_witness :
  ∃ private public s,
    generate_signed_access_keypair (B := Url.url) (K := toy) json (Some private_bytes) 3
      = Ok (private, public) ∧
    load_signed_access_signer (B := Url.url) (K := toy) json private = Ok s ∧
    signer_key_id s = 3 ∧ 3 ≠ 0 ∧
    load_signed_access_key_ring (B := Url.url) json public = Ok (public_key_ring s).
Proof.
  destruct (generate_signed_access_keypair (B := Url.url) (K := toy) json (Some private_bytes) 3)
    as [[private public]|e] eqn:H; [|vm_compute in H; discriminate H].
  assert (zlen private ≤ MAX_SIGNED_ACCESS_KEY_FILE_BYTES ∧ zlen public ≤ MAX_SIGNED_ACCESS_KEY_FILE_BYTES)
    as [H1 H2].
  { vm_compute in H. injection H as <- <-. vm_compute. split; discriminate. }
  destruct (keypair_roundtrip (B := Url.url) (K := toy) json json_laws (Some private_bytes) 3
    private public) as (s & Hs).
  - exact H.
  - intros r [= <-]. reflexivity.
  - exact H1.
  - exact H2.
  - exists private, public, s. split; [reflexivity|exact Hs].
Defined.

Lemma ring_loads id : id ≠ 0 → id = 1 ∨ id = 2 ∨ id = 3 →
  is_ok (load_signed_access_key_ring (B := Url.url) (K := toy) json (ring_file id)) = true.
Proof. intros _ [-> |[-> | ->]]; vm_compute; reflexivity. Qed.

Lemma merge_rings_union_witness :
  ∃ a b, load_signed_access_key_ring (B := Url.url) (K := toy) json (ring_file 1) = Ok a ∧
         load_signed_access_key_ring (B := Url.url) (K := toy) json (ring_file 2) = Ok b ∧
  match merge_signed_access_key_rings (B := Url.url) (K := toy) json (ring_file 1) (ring_file 2) with
  | Ok out => ring_keys a ##ₘ ring_keys b ∧ (size (ring_keys a ∪ ring_keys b) ≤ 8)%nat ∧
      (zlen out ≤ MAX_SIGNED_ACCESS_KEY_FILE_BYTES →
       load_signed_access_key_ring (B := Url.url) json out
       = Ok (key_ring_new (ring_keys a ∪ ring_keys b)))
  | Err DuplicateKeyId => ¬ ring_keys a ##ₘ ring_keys b
  | Err TooManyKeys => ring_keys a ##ₘ ring_keys b ∧ (8 < size (ring_keys a ∪ ring_keys b))%nat
  | Err e => e = InvalidKeyFile
  end.
Proof.
  pose proof (ring_loads 1 ltac:(lia) ltac:(lia)) as [a Ha]%is_ok_true.
  pose proof (ring_loads 2 ltac:(lia) ltac:(lia)) as [b Hb]%is_ok_true.
  exists a, b. split; [exact Ha|]. split; [exact Hb|].
  apply (merge_rings_union (B := Url.url) (K := toy) json json_laws (ring_file 1) (ring_file 2) a b).
  - exact Ha.
  - exact Hb.
Defined.

Lemma ring_reload_monotone_witness :
  ∃ s st st',
    bootstrap (B := Url.url) (K := toy) json 10 (Ok (ring_generation 1 1)) = Ok s ∧
    ring_reload s = Some st ∧
    ring_reload (reload_polls (B := Url.url) (K := toy) json s
      [Err FileSet; Ok (ring_generation 2 7); Ok (ring_generation 3 4)]) = Some st' ∧
    rs_generation st ≤ rs_generation st'.
Proof.
  assert (is_ok (bootstrap (B := Url.url) (K := toy) json 10 (Ok (ring_generation 1 1))) = true)
    as [s Hs]%is_ok_true by (vm_compute; reflexivity).
  destruct (ring_reload_monotone (B := Url.url) (K := toy) json 10 (Ok (ring_generation 1 1)) s
    [Err FileSet; Ok (ring_generation 2 7); Ok (ring_generation 3 4)])
    as (st & st' & H1 & H2 & H3 & _).
  - exact Hs.
  - exists s, st, st'. split; [exact Hs|]. split; [exact H1|]. split; [exact H2|exact H3].
Defined.
