(* ===== verification/RequestHistory.v ===== *)
(** * RequestHistory: the bounded log of recent requests

    [crates/edge/src/request_history.rs]: a ring of the last requests with
    identifiers, counters and bounded strings.  Every method runs under one
    mutex, so a history is a sequence of calls. *)

From S2P Require Import Prelude Text.

Definition MAX_REQUEST_HISTORY_ENTRIES : Z := 128.
Definition MAX_REQUEST_HISTORY_PATH_BYTES : Z := 2 * 1024.
Definition MAX_REQUEST_HISTORY_METHOD_BYTES : Z := 32.

Inductive RequestHistoryProtocol : Type := HistoryHttp1 | HistoryHttp2.

Inductive RequestHistoryOutcome : Type :=
| Forwarded | LocalUnavailable | HistoryTimeout | HistoryRejected.

#[global] Instance RequestHistoryOutcome_eq_dec : EqDecision RequestHistoryOutcome.
Proof. solve_decision. Defined.

Definition outcome_ALL : list RequestHistoryOutcome :=
  [Forwarded; LocalUnavailable; HistoryTimeout; HistoryRejected].

Definition outcome_index (o : RequestHistoryOutcome) : nat :=
  match o with Forwarded => 0 | LocalUnavailable => 1 | HistoryTimeout => 2 | HistoryRejected => 3 end.

Record RequestHistoryEntry : Type := MkEntry {
  request_id : Z;
  re_hostname : str;
  re_tunnel_id : str;
  re_method : str;
  re_path : str;
  re_path_truncated : bool;
  re_protocol : RequestHistoryProtocol;
  response_status : Z;
  response_header_ms : Z;
  re_outcome : RequestHistoryOutcome
}.

Record RequestHistorySnapshot : Type := MkHistorySnapshot {
  hs_capacity : Z;
  hs_recorded_total : Z;
  hs_evicted_total : Z;
  hs_sequence_exhaustions : Z;
  hs_outcomes : list Z;
  hs_entries : list RequestHistoryEntry
}.

Definition outcome_count (s : RequestHistorySnapshot) (o : RequestHistoryOutcome) : option Z :=
  hs_outcomes s !! outcome_index o.

Inductive RequestHistoryConfigError : Type := InvalidCapacity.

Record RequestHistoryState : Type := MkHistory {
  h_capacity : Z;
  h_next_id : Z;
  h_recorded_total : Z;
  h_evicted_total : Z;
  h_sequence_exhaustions : Z;
  h_outcomes : list Z;
  h_entries : list RequestHistoryEntry
}.

Definition RequestHistory_new (capacity : Z) : Result RequestHistoryConfigError RequestHistoryState :=
  if negb ((1 <=? capacity) && (capacity <=? MAX_REQUEST_HISTORY_ENTRIES)) then Err InvalidCapacity
  else Ok (MkHistory capacity 1 0 0 0 [0; 0; 0; 0] []).

(** ** Bounded strings *)

Definition bounded_method (method : str) : str :=
  if zlen method <=? MAX_REQUEST_HISTORY_METHOD_BYTES then method else bstr "OTHER".

(** The loop that walks back to a character boundary; offset 0 always is one. *)
Fixpoint boundary_at_or_before (path : str) (end_ : nat) : nat :=
  if is_char_boundary path end_ then end_
  else match end_ with O => O | S e => boundary_at_or_before path e end.

Definition bounded_path (path : str) : str * bool :=
  if zlen path <=? MAX_REQUEST_HISTORY_PATH_BYTES then (path, false)
  else
    let end_ := boundary_at_or_before path (Z.to_nat MAX_REQUEST_HISTORY_PATH_BYTES) in
    (take end_ path, true).

(** ** Pending requests *)

Record RequestHistoryPending : Type := MkPending {
  p_hostname : str;
  p_tunnel_id : str;
  p_method : str;
  p_path : str;
  p_path_truncated : bool;
  p_protocol : RequestHistoryProtocol;
  p_started : Z;
  p_outcome : RequestHistoryOutcome
}.

Definition begin (hostname tunnel_id method path : str) (protocol : RequestHistoryProtocol)
    (started : Z) : RequestHistoryPending :=
  let '(path, path_truncated) := bounded_path path in
  MkPending hostname tunnel_id (bounded_method method) path path_truncated protocol started Forwarded.

Definition set_outcome (p : RequestHistoryPending) (o : RequestHistoryOutcome)
    : RequestHistoryPending :=
  MkPending (p_hostname p) (p_tunnel_id p) (p_method p) (p_path p) (p_path_truncated p)
    (p_protocol p) (p_started p) o.

(** ** Recording *)

Definition entry_of (id : Z) (p : RequestHistoryPending) (status elapsed : Z) : RequestHistoryEntry :=
  MkEntry id (p_hostname p) (p_tunnel_id p) (p_method p) (p_path p) (p_path_truncated p)
    (p_protocol p) status (Z.min (elapsed / 1000000) (umax 64)) (p_outcome p).

Definition record (s : RequestHistoryState) (p : RequestHistoryPending) (status elapsed : Z)
    : RequestHistoryState :=
  if h_next_id s =? 0
  then MkHistory (h_capacity s) (h_next_id s) (h_recorded_total s) (h_evicted_total s)
         (saturating_add 64 (h_sequence_exhaustions s) 1) (h_outcomes s) (h_entries s)
  else
    let id := h_next_id s in
    let next_id := default 0 (checked_add 64 id 1) in
    let '(entries, evicted) :=
      if zlen (h_entries s) =? h_capacity s
      then (tail (h_entries s), saturating_add 64 (h_evicted_total s) 1)
      else (h_entries s, h_evicted_total s) in
    MkHistory (h_capacity s) next_id (saturating_add 64 (h_recorded_total s) 1) evicted
      (h_sequence_exhaustions s)
      (alter (λ n, saturating_add 64 n 1) (outcome_index (p_outcome p)) (h_outcomes s))
      (entries ++ [entry_of id p status elapsed]).

(** [finish]: [now] is the clock reading of [elapsed()]. *)
Definition finish (s : RequestHistoryState) (p : RequestHistoryPending) (status now : Z)
    : RequestHistoryState :=
  record s p status (Z.max 0 (now - p_started p)).

Definition snapshot (s : RequestHistoryState) : RequestHistorySnapshot :=
  MkHistorySnapshot (h_capacity s) (h_recorded_total s) (h_evicted_total s)
    (h_sequence_exhaustions s) (h_outcomes s) (rev (h_entries s)).

(** ** Specification: an unbounded log *)

Record Finished : Type := MkFinished { f_pending : RequestHistoryPending; f_status : Z; f_now : Z }.

Definition run_history (s : RequestHistoryState) (log : list Finished) : RequestHistoryState :=
  foldl (λ s f, finish s (f_pending f) (f_status f) (f_now f)) s log.

(** Identifiers are the positions in the log, from 1; [u64::MAX] of them exist. *)
Definition MAX_RECORDED : Z := umax 64.

Definition log_entry (i : nat) (f : Finished) : RequestHistoryEntry :=
  entry_of (Z.of_nat i + 1) (f_pending f) (f_status f) (Z.max 0 (f_now f - p_started (f_pending f))).

Definition count_outcome (o : RequestHistoryOutcome) (log : list Finished) : Z :=
  zlen (List.filter (λ f, bool_decide (p_outcome (f_pending f) = o)) log).

(** What a history of capacity [c] must show after [log]: the last [c] requests,
    newest first, and exact totals, counting only requests that got an identifier. *)
Definition spec_snapshot (c : Z) (log : list Finished) : RequestHistorySnapshot :=
  let kept := take (Z.to_nat MAX_RECORDED) log in
  MkHistorySnapshot c (zlen kept) (Z.max 0 (zlen kept - c))
    (Z.min (zlen log - zlen kept) (umax 64))
    ((λ o, count_outcome o kept) <$> outcome_ALL)
    (rev (drop (length kept - Z.to_nat c) (imap log_entry kept))).

(** ** Bounded strings: lemmas *)

Lemma boundary_spec path n :
  (boundary_at_or_before path n ≤ n)%nat ∧
  (∀ j, (boundary_at_or_before path n < j ≤ n)%nat → is_char_boundary path j = false) ∧
  (is_char_boundary path 0 = true →
   is_char_boundary path (boundary_at_or_before path n) = true).
Proof.
  induction n as [|n (Hle & Hmax & Hb)]; cbn [boundary_at_or_before].
  - destruct (is_char_boundary path 0) eqn:E; split_and!; try done; lia.
  - destruct (is_char_boundary path (S n)) eqn:E; split_and!; try done; try lia.
    intros j Hj. destruct (decide (j = S n)) as [->|]; [done|]. apply Hmax. lia.
Qed.

Lemma boundary_zero s : utf8_valid s = true → is_char_boundary s 0 = true.
Proof. intros Hs. destruct (is_char_boundary_near s Hs 0) as (j & ? & ?); [lia|]. by assert (j = 0%nat) as -> by lia. Qed.

(** Recorded paths are bounded, valid and faithful: the stored path is a prefix
    of the request path of at most 2048 bytes, still valid UTF-8, marked as
    truncated exactly when something was cut, and the cut removes at most three
    bytes more than the limit requires; slicing never panics. *)
Theorem bounded_path_spec path :
  utf8_valid path = true →
  let '(stored, truncated) := bounded_path path in
  stored `prefix_of` path ∧ zlen stored ≤ MAX_REQUEST_HISTORY_PATH_BYTES ∧
  utf8_valid stored = true ∧ truncated = negb (bool_decide (stored = path)) ∧
  (truncated = true → MAX_REQUEST_HISTORY_PATH_BYTES - 3 ≤ zlen stored ∧
     is_char_boundary path (length stored) = true).
Proof.
  intros Hs. unfold bounded_path. destruct (Z.leb_spec (zlen path) MAX_REQUEST_HISTORY_PATH_BYTES).
  { split_and!; try done. by rewrite bool_decide_eq_true_2. }
  set (n := Z.to_nat MAX_REQUEST_HISTORY_PATH_BYTES).
  assert (n = 2048%nat) as Hn by reflexivity. unfold MAX_REQUEST_HISTORY_PATH_BYTES, zlen in *.
  destruct (boundary_spec path n) as (Hle & Hmax & Hb). specialize (Hb (boundary_zero _ Hs)).
  set (e := boundary_at_or_before path n) in *.
  assert (n - 3 ≤ e)%nat.
  { destruct (is_char_boundary_near path Hs n) as (j & Hj & Hbj); [lia|].
    destruct (decide (e < j)%nat); [|lia]. rewrite Hmax in Hbj by lia. done. }
  assert (length (take e path) = e) as Hlen by (rewrite length_take; lia).
  split_and!.
  - apply prefix_take.
  - rewrite Hlen. lia.
  - by apply utf8_valid_take.
  - rewrite bool_decide_eq_false_2; [done|]. intros Heq. rewrite Heq in Hlen. lia.
  - intros _. rewrite Hlen. split; [lia|done].
Qed.

Lemma bounded_path_spec_witness :
  let path := replicate 2047 "/"%byte ++ bstr "é" ++ bstr "x" in
  let '(stored, truncated) := bounded_path path in
  stored `prefix_of` path ∧ zlen stored ≤ MAX_REQUEST_HISTORY_PATH_BYTES ∧
  utf8_valid stored = true ∧ truncated = negb (bool_decide (stored = path)) ∧
  (truncated = true → MAX_REQUEST_HISTORY_PATH_BYTES - 3 ≤ zlen stored ∧
     is_char_boundary path (length stored) = true).
Proof.
  apply (bounded_path_spec (replicate 2047 "/"%byte ++ bstr "é" ++ bstr "x")).
  vm_compute. reflexivity.
Defined.

(** ** The ring against the log *)

Definition kept (log : list Finished) : list Finished := take (Z.to_nat MAX_RECORDED) log.

Definition spec_state (c : Z) (log : list Finished) : RequestHistoryState :=
  MkHistory c (if zlen log <? MAX_RECORDED then zlen log + 1 else 0)
    (zlen (kept log)) (Z.max 0 (zlen (kept log) - c))
    (Z.min (zlen log - zlen (kept log)) (umax 64))
    ((λ o, count_outcome o (kept log)) <$> outcome_ALL)
    (drop (length (kept log) - Z.to_nat c) (imap log_entry (kept log))).

Lemma max_recorded_pos : 0 < MAX_RECORDED.
Proof. done. Qed.

Lemma kept_small log : zlen log ≤ MAX_RECORDED → kept log = log.
Proof. intros H. apply take_ge. unfold zlen in H. lia. Qed.

Lemma kept_full log f : MAX_RECORDED ≤ zlen log → kept (log ++ [f]) = kept log.
Proof. intros H. apply take_app_le. unfold zlen in H. pose proof max_recorded_pos. lia. Qed.

Lemma zlen_kept log : zlen (kept log) = Z.min (zlen log) MAX_RECORDED.
Proof. unfold kept, zlen. rewrite length_take. pose proof max_recorded_pos. lia. Qed.

Lemma count_outcome_le o log : 0 ≤ count_outcome o log ≤ zlen log.
Proof.
  unfold count_outcome, zlen. induction log as [|f log IH]; [done|]. cbn [List.filter].
  destruct (bool_decide _); cbn [length]; lia.
Qed.

Lemma count_outcome_snoc o log f :
  count_outcome o (log ++ [f]) =
  count_outcome o log + (if bool_decide (p_outcome (f_pending f) = o) then 1 else 0).
Proof.
  unfold count_outcome. rewrite List.filter_app, zlen_app. cbn [List.filter].
  by destruct (bool_decide _).
Qed.

Lemma outcomes_snoc log f :
  zlen log < MAX_RECORDED →
  alter (λ n, saturating_add 64 n 1) (outcome_index (p_outcome (f_pending f)))
    ((λ o, count_outcome o log) <$> outcome_ALL)
  = (λ o, count_outcome o (log ++ [f])) <$> outcome_ALL.
Proof.
  intros Hl. unfold outcome_ALL. cbn [fmap list_fmap]. rewrite !count_outcome_snoc.
  assert (∀ o, saturating_add 64 (count_outcome o log) 1 = count_outcome o log + 1) as Hsat.
  { intros o. pose proof (count_outcome_le o log). unfold saturating_add, MAX_RECORDED in *. lia. }
  destruct (p_outcome (f_pending f)); cbn [outcome_index alter list_alter];
    rewrite Hsat; repeat first
      [rewrite bool_decide_eq_true_2 by done | rewrite bool_decide_eq_false_2 by done];
    by rewrite ?Z.add_0_r.
Qed.

(** Sliding the window by one. *)
Lemma tail_drop {A} n (l : list A) : tail (drop n l) = drop (S n) l.
Proof. revert l. induction n as [|n IH]; intros [|x l]; try done. apply IH. Qed.

Lemma window_snoc {A} (l : list A) x (c : Z) :
  0 < c →
  drop (length (l ++ [x]) - Z.to_nat c) (l ++ [x]) =
  (if zlen (drop (length l - Z.to_nat c) l) =? c then tail (drop (length l - Z.to_nat c) l)
   else drop (length l - Z.to_nat c) l) ++ [x].
Proof.
  intros Hc. rewrite length_app. cbn [length]. unfold zlen. rewrite length_drop.
  destruct (Z.eqb_spec (Z.of_nat (length l - (length l - Z.to_nat c))) c).
  - rewrite tail_drop, drop_app_le by lia. f_equal. f_equal. lia.
  - replace (length l + 1 - Z.to_nat c)%nat with 0%nat by lia.
    by replace (length l - Z.to_nat c)%nat with 0%nat by lia.
Qed.

Lemma record_spec_state c log f :
  1 ≤ c ≤ MAX_REQUEST_HISTORY_ENTRIES →
  finish (spec_state c log) (f_pending f) (f_status f) (f_now f) = spec_state c (log ++ [f]).
Proof.
  intros Hc. unfold finish, record. cbn [h_next_id h_capacity h_recorded_total h_evicted_total
    h_sequence_exhaustions h_outcomes h_entries spec_state].
  pose proof (zlen_nonneg log) as Hn.
  assert (zlen (log ++ [f]) = zlen log + 1) as Hlen by (rewrite zlen_app; done).
  destruct (Z.ltb_spec (zlen log) MAX_RECORDED) as [Hlt|Hge].
  - rewrite (proj2 (Z.eqb_neq _ _)) by lia.
    unfold spec_state. rewrite (kept_small log), (kept_small (log ++ [f])) by lia.
    rewrite outcomes_snoc by done. rewrite imap_app. cbn [imap].
    rewrite Hlen. unfold MAX_RECORDED, saturating_add, umax in *.
    replace (log_entry (length log + 0) f) with (entry_of (zlen log + 1) (f_pending f) (f_status f)
      (Z.max 0 (f_now f - p_started (f_pending f)))) by (unfold log_entry, zlen; do 2 f_equal; lia).
    set (e := entry_of _ _ _ _). rewrite length_app. cbn [length].
    set (l := imap log_entry log). assert (length l = length log) as Hl by apply length_imap.
    pose proof (window_snoc l e c ltac:(lia)) as Hw. rewrite length_app, Hl in Hw. cbn [length] in Hw.
    rewrite Hw. clear Hw. unfold checked_add.
    assert (default 0 (if zlen log + 1 + 1 <? 2 ^ 64 then Some (zlen log + 1 + 1) else None)
      = if zlen log + 1 <? 2 ^ 64 - 1 then zlen log + 1 + 1 else 0) as ->.
    { destruct (Z.ltb_spec (zlen log + 1 + 1) (2 ^ 64)), (Z.ltb_spec (zlen log + 1) (2 ^ 64 - 1));
        cbn; lia. }
    assert (zlen (drop (length log - Z.to_nat c) l) = Z.min (zlen log) c) as ->.
    { unfold zlen. rewrite length_drop, Hl. lia. }
    unfold MAX_REQUEST_HISTORY_ENTRIES in *.
    destruct (Z.eqb_spec (Z.min (zlen log) c) c); f_equal; lia.
  - rewrite (proj2 (Z.eqb_eq _ _)) by done. unfold spec_state. rewrite kept_full by done.
    rewrite (proj2 (Z.ltb_ge (zlen (log ++ [f])) _)) by lia. pose proof (zlen_kept log).
    rewrite Hlen. f_equal. unfold saturating_add. unfold MAX_RECORDED, umax in *. lia.
Qed.

Lemma run_spec_state c log :
  1 ≤ c ≤ MAX_REQUEST_HISTORY_ENTRIES → run_history (spec_state c []) log = spec_state c log.
Proof.
  intros Hc. unfold run_history. induction log as [|f log IH] using rev_ind; [done|].
  by rewrite foldl_snoc, IH, record_spec_state.
Qed.

(** C35. The bounded ring implements the log: after any sequence of finished
    requests a snapshot shows the last [capacity] of them, newest first, with
    their position in the log as identifier, and the totals of recorded, evicted
    and per-outcome requests are exact.  Once the 64-bit identifiers are used up
    nothing is overwritten and only the exhaustion counter moves. *)
Theorem history_refines_log c s log :
  RequestHistory_new c = Ok s → snapshot (run_history s log) = spec_snapshot c log.
Proof.
  unfold RequestHistory_new. intros H. inv_result. apply negb_false_iff, andb_true_iff in Heqb.
  rewrite !Z.leb_le in Heqb.
  assert (MkHistory c 1 0 0 0 [0; 0; 0; 0] [] = spec_state c []) as ->.
  { unfold spec_state. rewrite (kept_small []) by done.
    change (zlen (@nil Finished)) with 0. f_equal. lia. }
  by rewrite run_spec_state.
Qed.

Lemma history_refines_log_witness :
  let p := begin (bstr "app.example") (bstr "t") (bstr "GET") (bstr "/") HistoryHttp1 0 in
  let log := [MkFinished p 200 3000000; MkFinished (set_outcome p HistoryTimeout) 504 9000000;
              MkFinished p 200 1000000] in
  snapshot (run_history (MkHistory 2 1 0 0 0 [0; 0; 0; 0] []) log) = spec_snapshot 2 log.
Proof.
  intros p log. apply (history_refines_log 2 (MkHistory 2 1 0 0 0 [0; 0; 0; 0] []) log). reflexivity.
Defined.
